(* ===== verification/_CoqProject ===== *)
-Q . S2P
Prelude.v
Interfaces.v
Ring.v
Fifo.v
SafeMap.v
TimingWheel.v
RollingWindow.v
Breaker.v
Cache.v
SearchTree.v
ConsistentHash.v
Token.v
Scanner.v
CleanPath.v
AhoCorasick.v
Trie.v
Strings.v
AesEcb.v
Subscriber.v
Registry.v
SortedMap.v
Redis.v
Limit.v
Bloom.v
HttpTree.v
HttpLookup.v
HttpRouter.v
PatRouter.v
Executors.v
SingleFlight.v
CacheNode.v
CacheCluster.v
CachedConn.v
ApiAst.v
ApiParser.v
ApiParserLogic.v
ApiParserCorrect.v
ApiTypes.v
ApiCheck.v
ApiImport.v
ApiImportCorrect.v
ApiCheckCorrect.v
MapReduce.v
MapReduceInv.v
MapReduceCorrect.v
MapReduceRuns.v
Pool.v
TimeoutLimit.v
RefResource.v
ManagedResource.v
ImmutableResource.v
StableRunner.v
Mapping.v
MappingCorrect.v
Unmarshal.v
UnmarshalCorrect.v
Conf.v
ConfCorrect.v
Sqlx.v
SqlxCorrect.v
RotateLogger.v
RedisLock.v
Shedder.v
P2c.v
