(* ===== verification/Prelude.v ===== *)
(** * fastgozero: a verification library for its core

    fastgozero is a web and RPC framework (a fork of go-zero on fasthttp) with a code
    generator, fastgoctl.  This library models the parts of it that carry state and
    algorithms of their own and proves what makes them correct.  Every definition is
    translated from the Go source; file and function names below are those under [src/].

    ** The parts of the program and the files that model them

    In-memory collections, [core/collection].  [Ring.v] models [ring.go] (the last [n]
    values), [Fifo.v] models [fifo.go] (a circular queue that grows), [SafeMap.v] models
    [safemap.go] (a map in two generations), [TimingWheel.v] models [timingwheel.go] and uses
    a keyed store through the class of [Interfaces.v] that [SafeMap.v] implements,
    [RollingWindow.v] models [rollingwindow.go], and [Cache.v] models [cache.go]: the data map
    and its LRU list, composed with the timing wheel that expires its keys.

    Resilience, [core/breaker].  [Breaker.v] models the Google SRE breaker ([bucket.go],
    [googlebreaker.go]) over the rolling window, and the circuit breaker, its logged
    throttle and its error window ([breaker.go]).  [Shedder.v] models the adaptive shedder of
    [core/load] over the same window, and [P2c.v] the balancer of [zrpc/internal/balancer/p2c].

    Routing.  [SearchTree.v] models [core/search/tree.go], the tree of route segments with
    [:name] parameters; [CleanPath.v] models [rest/router/internal/httprouter/path.go];
    [PatRouter.v] models the router over that tree ([rest/router/patrouter.go]).  The default
    router is the radix tree of [rest/router/internal/httprouter]: [HttpTree.v] models the
    registration of routes and [HttpLookup.v] the lookup ([tree.go]), [HttpRouter.v] the trees
    per method, [Handle] and [ServeHTTP] ([router.go]).

    Limits and filters on redis.  [Redis.v] has the commands the scripts use, as a class with
    laws; [Limit.v] models [core/limit] (the period limiter and the token limiter with its
    in-process fallback and monitor), [Bloom.v] models [core/bloom], and [RedisLock.v] the lock of
    [core/stores/redis/redislock.go].

    Caches of a database, [core/stores].  [CacheNode.v] models a node of the redis cache
    ([cache/cachenode.go]) and its cleaner ([cache/cleaner.go]); [CacheCluster.v] has the interface
    [Cache] as a class with laws, the node as an instance, and the cluster of nodes over the
    consistent hash ([cache/cache.go]) as another; [CachedConn.v] models [sqlc/cachedsql.go] over
    the class.

    Concurrency.  [SingleFlight.v] models [core/syncx/singleflight.go], and [Executors.v] the
    executors of [core/executors] that batch, delay or drop tasks.  [MapReduce.v] models
    [core/mr/mapreduce.go], the goroutines of a call and the functions over it;
    [MapReduceInv.v] has its invariant, [MapReduceCorrect.v] its theorems and [MapReduceRuns.v]
    runs of it.  [Pool.v], [TimeoutLimit.v], [RefResource.v], [ManagedResource.v] and
    [ImmutableResource.v] model the files of [core/syncx] of these names ([limit.go] and [cond.go]
    with the time-outs), and [StableRunner.v] models [core/threading/stablerunner.go] over
    [taskrunner.go].

    Struct tags, [core/mapping].  [Mapping.v] models the options of fields ([fieldoptions.go]), the
    parsing of tags with its caches and the values from texts ([utils.go]); [MappingCorrect.v] has its
    theorems.  [Unmarshal.v] models the valuers ([valuer.go]) and the unmarshaler ([unmarshaler.go]) over it,
    and [UnmarshalCorrect.v] has a logic for runs with enough fuel and their theorems.
    [Conf.v] models the loading of configurations over it ([core/conf/config.go]), with theorems in [ConfCorrect.v].

    Statements and logs.  [Sqlx.v] models the writing of arguments into SQL statements, bulk inserts over the executors and
    transactions ([core/stores/sqlx], [utils.go], [bulkinserter.go] and [tx.go]); [SqlxCorrect.v] has its theorems.
    [RotateLogger.v] models the log files that rotate, with their writers ([core/logx/rotatelogger.go]).

    Service discovery, [core/discov].  [Subscriber.v] models the container of
    [subscriber.go] with its slices over shared arrays; [Registry.v] models
    [internal/registry.go] and [internal/statewatcher.go]: clusters, loads, watches and
    reloads.  The registry knows its listeners through the class [UpdateListener] of
    [Interfaces.v]; the container is the instance.

    Placement, [core/hash].  [ConsistentHash.v] models [consistenthash.go].

    Texts, [core/stringx].  [AhoCorasick.v] models the keyword automaton of [node.go] on a
    heap of nodes, [Trie.v] the filter and the replacer over it ([trie.go],
    [replacer.go]), and [Strings.v] the loops of [strings.go].

    Encryption, [core/codec].  [AesEcb.v] models [aesecb.go] over any block cipher.

    The code generator, [tools/fastgoctl].  [Token.v] and [Scanner.v] model the tokens and
    the scanner of the API language ([pkg/parser/api/token], [pkg/parser/api/scanner]);
    [ApiAst.v] has the syntax tree ([pkg/parser/api/ast]) and [ApiParser.v] the parser
    ([pkg/parser/api/parser/parser.go]) over any source of tokens (a class; the scanner is the
    instance); [ApiParserLogic.v] is a program logic for it, [ApiParserCorrect.v] and [ApiTypes.v]
    have its theorems.  [ApiCheck.v] models the checks of a parsed file ([api.go], [filter.go]) and
    [ApiImport.v] its imports; [ApiCheckCorrect.v] and [ApiImportCorrect.v] have their theorems.
    [SortedMap.v] models [pkg/collection/sortedmap.go].

    ** How the code is modelled

    A struct is a [Record] with the fields of the source; an operation is a function that
    returns the new state, in the order of the code and with its early returns.  A call that
    may panic returns an [outcome] (below): [Ok] or [Panic] with the message.  Errors are
    values of a sum or an option.  Go maps are [gmap]s, sets [gset]s; where the code keeps
    pointers that are shared or written through (entries of the timing wheel, nodes of the
    automaton, elements of the sorted map, arrays behind slices) the model has a store and
    locations.  Widths: the code's integers are counts and positions that the models keep as
    [nat] or [Z]; bytes are kept below 256 where that matters (padding).

    What is not under [src/] or is not determined by it is an argument: the iteration order
    of a Go map (any permutation), clock readings and random numbers, the hash function and
    the textual form of values, the block cipher and base64 (with laws), [float64] (a class of
    operations with laws), the growth of an array in [append], the answers of etcd.

    A lock that is held for a whole method makes the method one step.  Goroutines are
    sequences of such steps: [TimingWheel.run] consumes the events its channels deliver,
    [Cache.wstep] composes the cache with the wheel, [Registry.rstep] interleaves the calls on
    the registry, and [Registry.lstep] is the lock protocol of [reload].  In the other files on
    concurrency the goroutines are threads with their program points over a shared state, and a
    step is one critical section or one channel operation of one of them.

    Code that threads a large state (the caches: servers, network, clock, timers, database) is
    written in the monad [M] below and specified with its weakest preconditions ([wp]), so that
    a specification includes that the code returns.

    Fuel.  Loops that are not structural take fuel, and most panic with "out of fuel" when it
    is used up; the theorems show that the fuel given by the callers is enough: [Scanner.fuel_of] is the rest of the
    input (every round reads a rune), [SearchTree.next] takes the length of the route (every
    round removes a segment), [AhoCorasick.build] the number of nodes (every round
    removes one), its inner loops the depth of a node (a failure link is shorter), the
    binary search of [ConsistentHash.v] the number of keys, [CleanPath.CleanPath] the length
    of the path, [AesEcb.cryptLoop] the length of the input, [HttpTree.addWalk] the height of
    the tree, [HttpTree.insertChild] the length of the path, and [HttpLookup.getValue_loop] the
    nodes below the walk and below the wildcard children of the skipped nodes.  The loops of
    [ApiParser.v] and the recursion of its data types take two more than the source can still
    give (every round takes a token), and [ApiImport.parseReverse] the depth of the imports: one
    more than the files that can be reached is enough ([ApiImportCorrect.imports_terminate]).
    [Unmarshal.run] takes fuel for the calls that follow a type and for the depth of the valuers, of which
    some amount is always enough ([UnmarshalCorrect.unmarshal_typed]), and [Conf.buildFieldsInfo] for the depth of a type;
    [Sqlx.format] takes one more than the length of the query ([SqlxCorrect.format_returns]).

    ** What the theorems show

    - Refinement of abstract data: the ring is the last [n] values, the queue a list, the
      safe map one finite map, the sorted map an association list in insertion order, the LRU
      list the most recent keys, the error window the last five reasons, the rolling window
      the additions of the last intervals, the container of a subscriber the map of its
      entries.
    - Timers: a timer set, moved or removed fires after exactly the stated number of ticks,
      or never; a cached key always has a pending expiry and the cache stays within its limit.
    - The breaker counts exactly the marks of its window, marks every request once, and
      accepts all requests while they succeed.  The shedder refuses requests only under overload
      and never when idle; the balancer picks the better of two connections and starves none.
    - Search: the segment tree finds an item exactly when a registered route matches;
      the automaton finds all occurrences of all keywords; the filter and the replacer do with
      them what they promise; the cleaned path is the one of a stack of elements, and is
      canonical.
    - Discovery: in every reachable state of the registry, as long as etcd does not change the
      value of a present entry, every subscriber shows the entries of its key.
    - Placement: every value is placed on a present node, adding or removing a node moves only
      values of that node, and removing undoes adding.
    - The scanner terminates on every input, drops nothing but white space (and the first of
      two dots) and gives each token its text and position; keywords round-trip.
    - The parser terminates on every input, returns nil exactly with errors, and the text of its
      tree is the text of the tokens; data types round-trip.  Imports are merged once each and
      cycles refused, and a file that is loaded is closed and unambiguous.
    - Routers: registering a route adds exactly this route to the routes of its method, a
      handler runs only for a route that matches, with the values of its wildcards, and without
      overlapping routes every request gets the answer the table of routes gives.
    - Limits: the period limiter numbers the takes of a window, the token limiter is an ideal
      token bucket, its monitor runs exactly while it is needed; the bloom filter finds exactly
      the data whose bits are set; at most one client holds a lock.
    - Caches: from an empty cache, whatever fails in the network, a cached query answers what
      the database says, as long as no deletion of its key is outstanding; a query by index finds
      the row of the primary key; a cluster has a node for every key; a shared call answers like
      the one it shares.
    - Concurrency: single flights run one function per key, share its result and always return;
      an executor neither loses a task nor runs it twice, and does not get stuck.  A result of
      MapReduce is never a partial one, and without panics every call returns; [Finish] succeeds
      only if every function did.  A pool hands every resource to one goroutine at a time and
      loses no wakeup; a limit is kept; a managed resource is made once, a counted one cleaned
      once; a stable runner gives the results out in the order of the messages.
    - Struct tags: segments and integers round-trip, what is set from a text fits its target and
      its range, dependencies between fields are enforced, and the cache of options is transparent.
      Unmarshalling ends on every input, with an error, a value of the type of the target, or one of
      the panics of reflection that are listed; a configuration finds its keys in any case, and loading it ends in the same way.
    - A string argument of a statement stays one quoted text; a transaction is committed exactly when its
      function ends without an error or a panic.  A rotating log keeps its lines in order and once whatever fails, and
      its files within their limit.
    - ECB decryption inverts encryption.

    Some theorems show what goes wrong: a drained key that is set again is lost
    ([TimingWheel.drain_then_set_is_lost]), a move below one interval runs a task twice
    ([TimingWheel.move_soon_executes_twice]), removing a light node of the ring can take
    another node's keys ([ConsistentHash.remove_light_node_breaks_get]), documents end at any
    slash and their newlines are not counted ([Scanner.document_closes_at_any_slash],
    [Scanner.document_newlines_not_counted]), a reload leaves an old address
    ([Registry.reload_keeps_old_value]) or waits for ever ([Registry.reload_deadlock]), a
    listener misses an event ([Registry.monitor_race_loses_event]), a burst too small for its
    rate disables the token limiter ([Limit.small_burst_always_rescues]), skipped nodes leak
    from one method's tree into the next ([HttpRouter.allow_names_unregistered],
    [HttpRouter.allow_panics]) or do not fit ([HttpRouter.unslashed_panics]), a matching route is
    not found ([HttpRouter.overlap_misses_route]), [Wait] of an executor returns before a batch
    that an [Add] still hands over was run ([Executors.wait_executes_witness]), a query that
    overlaps a statement leaves the old row cached ([CachedConn.take_may_cache_old_row]), a route
    without a path, a service item without a handler and a blank file make the parser of API files
    panic ([ApiParserCorrect.route_without_path_panics], [ApiCheckCorrect.missing_handler_panics],
    [ApiCheckCorrect.blank_file_panics]), a duplicate at the same position of two files of one name is
    missed ([ApiCheckCorrect.same_position_duplicate_missed]), a panic after the output or after the
    deadline makes a call of MapReduce hang ([MapReduceRuns.panic_after_output_hangs],
    [MapReduceRuns.generator_panic_after_deadline_hangs]), one whose context is over may report
    success ([MapReduceRuns.expired_void_returns_nil]) and one that is cancelled may panic
    ([MapReduceRuns.write_races_with_cancel]), a pool loses a slot when [create] fails
    ([Pool.failed_create_blocks_pool]), a borrower times out although there is an element
    ([TimeoutLimit.borrow_times_out_although_free]), an immutable resource is nil without an error
    ([ImmutableResource.get_returns_nothing]), a stable runner waits for a message whose handler
    panicked and mixes up concurrent ones ([StableRunner.panicking_handler_blocks],
    [StableRunner.concurrent_pushes_out_of_order]), a field with a dependency loses its range
    ([MappingCorrect.range_lost_with_dependency]), a tag of one backslash panics
    ([MappingCorrect.lone_backslash_panics]), the cache of required structs mixes up tag keys
    ([MappingCorrect.required_cache_ignores_tag]), unmarshalling panics on a number for a duration, an object
    for an element of a slice, a null in a map of slices, and pointers as elements of a map
    ([UnmarshalCorrect.duration_from_number_panics], [UnmarshalCorrect.object_in_slice_panics],
    [UnmarshalCorrect.null_in_map_panics], [UnmarshalCorrect.map_of_pointers_panics]) and takes the environment
    variable of an int64 for a duration ([UnmarshalCorrect.env_of_int64_panics]), a configuration changes keys of inner maps, takes a
    random one of two keys that differ in case and makes empty arrays nil ([ConfCorrect.inner_map_key_lowered],
    [ConfCorrect.keys_of_two_cases], [ConfCorrect.empty_array_is_nil]), formatting a statement drops colons, repeats what follows an open quote and does
    not quote typed strings ([SqlxCorrect.colon_dropped], [SqlxCorrect.unclosed_quote_repeats],
    [SqlxCorrect.named_string_not_quoted]), a call among inserted values breaks the statement
    ([SqlxCorrect.call_in_values_cut]), a goroutine that ends commits its transaction ([SqlxCorrect.exit_commits]), a rotating log overwrites
    a backup of the same second, drops short lines after a failure and accepts a line it never writes
    ([RotateLogger.same_second_overwrites], [RotateLogger.short_lines_dropped], [RotateLogger.accepted_line_lost]), and the error cases of
    [Strings.substr_all_branches] and [AesEcb.ecb_decrypt_bad_input].

    ** What is not modelled

    Output and input (logging, metrics, tracing, network clients and servers, databases), code
    that only calls libraries, generated code and templates.  The parts that are left out
    and why are in the manifest's components.  Of [core/mapping], the marshaler, interfaces, arrays and types with
    unmarshalling of their own are left out: their values are those of other packages.  [core/fx] and the HTTP and RPC servers start goroutines
    around functions of the user and of libraries.

    ** This file

    Outcomes of Go calls with their notation, the monad [M] and [wp], byte strings, tactics for case analysis
    ([go_case]) and for boolean comparisons ([bool_prop]), and lemmas on lists and remainders
    that several components use. *)

From Stdlib Require Import Ascii String.
From Stdlib Require Export ZArith Lia.
From stdpp Require Export base list gmap strings sorting.

(** ** Go values: outcomes, errors, strings *)

Declare Scope go_scope.
Delimit Scope go_scope with go.

(** A Go call either returns or panics; the panic carries its message. *)
Inductive outcome (A : Type) : Type :=
| Ok (a : A)
| Panic (msg : string).
Arguments Ok {A} a.
Arguments Panic {A} msg.

Definition obind {A B} (x : outcome A) (f : A -> outcome B) : outcome B :=
  match x with
  | Ok a => f a
  | Panic m => Panic m
  end.

Notation "x <~ c ;; k" := (obind c (fun x => k))
  (at level 60, c at next level, right associativity) : go_scope.

(** Go code on a state [S]: it returns a value and the new state, or panics. *)
Definition M (S A : Type) : Type := S -> outcome (A * S).

Definition ret {S A} (a : A) : M S A := fun s => Ok (a, s).
Definition bind {S A B} (m : M S A) (k : A -> M S B) : M S B :=
  fun s => obind (m s) (fun '(a, s') => k a s').
Definition modify {S} (f : S -> S) : M S () := fun s => Ok ((), f s).
Definition gets {S A} (f : S -> A) : M S A := fun s => Ok (f s, s).
Definition panic {S A} (msg : string) : M S A := fun _ => Panic msg.

Notation "'let!' x := m 'in' k" := (bind m (fun x => k))
  (at level 200, x binder, right associativity, format "'let!'  x  :=  m  'in' '//' k") : go_scope.
Notation "'let!' ' p := m 'in' k" := (bind m (fun x => match x with p => k end))
  (at level 200, p pattern, right associativity, format "'let!'  ' p  :=  m  'in' '//' k") : go_scope.

(** It returns, with a result and a state that satisfy [Q]. *)
Definition wp {S A} (m : M S A) (s : S) (Q : A -> S -> Prop) : Prop :=
  match m s with
  | Ok (a, s') => Q a s'
  | Panic _ => False
  end.

Lemma wp_ret {S A} (a : A) (s : S) Q : Q a s -> wp (ret a) s Q.
Proof. done. Qed.
Lemma wp_bind {S A B} (m : M S A) (k : A -> M S B) s Q :
  wp m s (fun a s' => wp (k a) s' Q) -> wp (bind m k) s Q.
Proof. unfold wp, bind. by destruct (m s) as [[a s']|msg]. Qed.
Lemma wp_assoc {S A B C} (m : M S A) (f : A -> M S B) (k : B -> M S C) s Q :
  wp (bind (bind m f) k) s Q -> wp (bind m (fun a => bind (f a) k)) s Q.
Proof. unfold wp, bind. by destruct (m s) as [[a s']|msg]. Qed.
Lemma wp_mono {S A} (m : M S A) s (P Q : A -> S -> Prop) :
  wp m s P -> (forall a s', P a s' -> Q a s') -> wp m s Q.
Proof. unfold wp. destruct (m s) as [[a s']|msg]; auto. Qed.
Lemma wp_modify {S} (f : S -> S) s Q : Q () (f s) -> wp (modify f) s Q.
Proof. done. Qed.
Lemma wp_gets {S A} (f : S -> A) s Q : Q (f s) s -> wp (gets f) s Q.
Proof. done. Qed.
Lemma wp_and {S A} (m : M S A) s (P Q : A -> S -> Prop) :
  wp m s P -> wp m s Q -> wp m s (fun a s' => P a s' /\ Q a s').
Proof. unfold wp. destruct (m s) as [[a s']|msg]; auto. Qed.

(** What holds of every value the code returns. *)
Definition returns_all {S A} (m : M S A) (P : A -> Prop) : Prop := forall s a s', m s = Ok (a, s') -> P a.

Lemma all_ret {S A} (a : A) (P : A -> Prop) : P a -> returns_all (S := S) (ret a) P.
Proof. by intros Ha s ? ? [= <- _]. Qed.
Lemma all_bind {S A B} (m : M S A) (k : A -> M S B) (P : B -> Prop) : (forall a, returns_all (k a) P) -> returns_all (bind m k) P.
Proof. intros Hk s b s'. unfold bind. destruct (m s) as [[a s1]|]; [|done]. apply Hk. Qed.
Lemma all_elim {S A} (m : M S A) (P : A -> Prop) s a s' : returns_all m P -> m s = Ok (a, s') -> P a.
Proof. intros Hp Hm. by eapply Hp. Qed.

(** A Go byte string, as the list of its bytes. *)
Abbreviation gostr := (list ascii).

(** String literals of the sources, as byte lists. *)
Definition lit (s : string) : gostr := String.list_ascii_of_string s.

(** ** Tactics *)

(** Case analysis on every boolean test, option or outcome that blocks the goal
    or a hypothesis, keeping the equations. *)
Ltac go_case :=
  match goal with
  | |- context [if ?b then _ else _] => destruct b eqn:?
  | H : context [if ?b then _ else _] |- _ => destruct b eqn:?
  | |- context [match ?x with _ => _ end] => destruct x eqn:?
  | H : context [match ?x with _ => _ end] |- _ => destruct x eqn:?
  end.

(** Turns the boolean comparisons of the code into propositions. *)
Ltac bool_prop :=
  repeat match goal with
  | H : (_ && _)%bool = true |- _ => apply andb_true_iff in H; destruct H
  | H : (_ || _)%bool = false |- _ => apply orb_false_iff in H; destruct H
  | H : negb _ = true |- _ => apply negb_true_iff in H
  | H : negb _ = false |- _ => apply negb_false_iff in H
  | H : bool_decide _ = true |- _ => apply bool_decide_eq_true in H
  | H : bool_decide _ = false |- _ => apply bool_decide_eq_false in H
  | H : Nat.eqb _ _ = true |- _ => apply Nat.eqb_eq in H
  | H : Nat.eqb _ _ = false |- _ => apply Nat.eqb_neq in H
  | H : Nat.ltb _ _ = true |- _ => apply Nat.ltb_lt in H
  | H : Nat.ltb _ _ = false |- _ => apply Nat.ltb_ge in H
  | H : Nat.leb _ _ = true |- _ => apply Nat.leb_le in H
  | H : Nat.leb _ _ = false |- _ => apply Nat.leb_gt in H
  | H : Z.eqb _ _ = true |- _ => apply Z.eqb_eq in H
  | H : Z.eqb _ _ = false |- _ => apply Z.eqb_neq in H
  | H : Z.ltb _ _ = true |- _ => apply Z.ltb_lt in H
  | H : Z.ltb _ _ = false |- _ => apply Z.ltb_ge in H
  | H : Z.leb _ _ = true |- _ => apply Z.leb_le in H
  | H : Z.leb _ _ = false |- _ => apply Z.leb_gt in H
  | H : Z.gtb _ _ = true |- _ => rewrite Z.gtb_ltb in H
  | H : Z.gtb _ _ = false |- _ => rewrite Z.gtb_ltb in H
  | H : Z.geb _ _ = true |- _ => rewrite Z.geb_leb in H
  | H : Z.geb _ _ = false |- _ => rewrite Z.geb_leb in H
  end.

(** ** Lists *)

(** The last [n] elements of a list (all of it when it is shorter). *)
Definition lastn {A} (n : nat) (l : list A) : list A := drop (length l - n) l.

Lemma length_lastn {A} n (l : list A) : length (lastn n l) = Nat.min n (length l).
Proof. unfold lastn. rewrite length_drop. lia. Qed.

Lemma lookup_lastn {A} n (l : list A) i :
  lastn n l !! i = l !! (length l - n + i).
Proof. unfold lastn. apply lookup_drop. Qed.

(** Two lists of the same length are equal when they agree at each index. *)
Lemma list_eq_len {A} (l k : list A) :
  length l = length k ->
  (forall i, i < length l -> l !! i = k !! i) -> l = k.
Proof.
  intros Hlen H. apply list_eq. intros i.
  destruct (decide (i < length l)) as [Hi|Hi]; [auto|].
  rewrite !lookup_ge_None_2; [done|lia|lia].
Qed.

(** Filters with predicates that agree on the list are equal. *)
Lemma filter_ext_in {A} (P Q : A -> Prop) `{!forall x, Decision (P x)} `{!forall x, Decision (Q x)}
    (l : list A) :
  Forall (fun x => P x <-> Q x) l -> filter P l = filter Q l.
Proof.
  induction 1 as [|x l HPQ _ IH]; [done|]. rewrite !filter_cons, IH.
  destruct (decide (P x)), (decide (Q x)); tauto.
Qed.

Lemma filter_id {A} (P : A -> Prop) `{!forall x, Decision (P x)} (l : list A) :
  Forall P l -> filter P l = l.
Proof. induction 1 as [|x l Hx _ IH]; [done|]. by rewrite filter_cons_True, IH. Qed.

(** [x mod n] is the residue: the form in which the ring-buffer proofs use it. *)
Lemma mod_unique_nat a n q r : r < n -> a = n * q + r -> a mod n = r.
Proof. intros. symmetry. eapply Nat.mod_unique; eauto. Qed.

Lemma mod_inj_window a b n :
  n <> 0 -> a mod n = b mod n -> a <= b -> b < a + n -> a = b.
Proof.
  intros Hn Heq Hle Hlt.
  pose proof (Nat.div_mod_eq a n). pose proof (Nat.div_mod_eq b n).
  assert (a / n = b / n) by nia. congruence.
Qed.

(** ** Lists of threads *)

(** A sum over the threads when one of them moves *)
Lemma sum_list_with_insert {A} (f : A -> nat) (l : list A) i x y :
  l !! i = Some x -> sum_list_with f (<[i := y]> l) + f x = sum_list_with f l + f y.
Proof.
  revert i. induction l as [|a l IH]; intros [|i] H; simplify_eq/=; [lia|].
  specialize (IH _ H). lia.
Qed.

Lemma sum_list_with_lookup {A} (f : A -> nat) (l : list A) i x :
  l !! i = Some x -> f x <= sum_list_with f l.
Proof. intros H. apply sum_list_with_in. by eapply list_elem_of_lookup_2. Qed.

Lemma sum_list_with_pos {A} (f : A -> nat) (l : list A) :
  0 < sum_list_with f l -> exists i x, l !! i = Some x /\ 0 < f x.
Proof.
  induction l as [|a l IH]; simpl; [lia|]. intros H. destruct (f a) eqn:Ha.
  - destruct IH as (i & x & Hi & Hx); [lia|]. by exists (S i), x.
  - exists 0, a. split; [done|lia].
Qed.

(** What the threads hold, when one of them moves *)
Lemma bind_insert_perm {A B} (f : A -> list B) (l : list A) i x y :
  l !! i = Some x -> (<[i := y]> l ≫= f) ++ f x ≡ₚ (l ≫= f) ++ f y.
Proof.
  revert i. induction l as [|a l IH]; intros [|i] H; simplify_eq/=.
  - rewrite (Permutation_app_comm (f y ++ _)), (Permutation_app_comm (f x ++ _)). solve_Permutation.
  - by rewrite <- !app_assoc, (IH _ H).
Qed.

Lemma forallb_lookup {A} (f : A -> bool) (l : list A) i x : forallb f l = true -> l !! i = Some x -> f x = true.
Proof. intros H Hi. eapply forallb_forall; [done|]. by eapply list_elem_of_In, list_elem_of_lookup_2. Qed.

Lemma lookup_insert_cases {A} (l : list A) i k x y :
  <[i := y]> l !! k = Some x -> (k = i /\ x = y) \/ l !! k = Some x.
Proof. rewrite list_lookup_insert_Some. naive_solver. Qed.

(** Two lists that grow together *)
Lemma lookup_both_snoc {A B} (l : list A) (l' : list B) k x x' y y' :
  length l = length l' -> (l ++ [x]) !! k = Some y -> (l' ++ [x']) !! k = Some y' ->
  (l !! k = Some y /\ l' !! k = Some y') \/ (y = x /\ y' = x').
Proof.
  intros Hl Hy Hk. apply lookup_app_Some in Hy as [Hy|[Hle Hy]]; apply lookup_app_Some in Hk as [Hk|[Hle' Hk]].
  - auto.
  - apply lookup_lt_Some in Hy. lia.
  - apply lookup_lt_Some in Hk. lia.
  - rewrite Hl in Hy. destruct (k - length l'); simplify_eq/=. auto.
Qed.

(** The thread that moves, in every sum over the threads *)
Ltac counted :=
  repeat match goal with
  | H : ?l !! ?i = Some ?x |- context [sum_list_with ?f (<[?i := ?y]> ?l)] =>
    pose proof (sum_list_with_insert f l i x y H);
    pose proof (sum_list_with_lookup f l i x H);
    generalize dependent (sum_list_with f (<[i := y]> l)); intros
  | H : ?l !! ?i = Some ?x, _ : context [sum_list_with ?f (<[?i := ?y]> ?l)] |- _ =>
    pose proof (sum_list_with_insert f l i x y H);
    pose proof (sum_list_with_lookup f l i x H);
    generalize dependent (sum_list_with f (<[i := y]> l)); intros
  end; rewrite ?sum_list_with_app in *; simpl in *.

Create Rewrite HintDb golist.
#[export] Hint Rewrite @length_lastn @lookup_lastn @length_insert @length_replicate : golist.
