(* ===== verification/Interfaces.v ===== *)
(** * Interfaces between components

    What one component promises to another, as classes: the operations and, in a
    second class, their laws.  A client is developed against the class; the
    component that implements it gives the instance. *)

From S2P Require Import Prelude.

(** A keyed store of values, as the timing wheel uses [collection.SafeMap]: the
    values are pointers to structs, so a client may also write through the
    pointer it got ([ks_modify]) without calling the store. *)
Class KeyedStore (K P M : Type) := {
  ks_new : M;
  ks_get : K -> M -> option P;
  ks_set : K -> P -> M -> M;
  ks_del : K -> M -> M;
  ks_modify : K -> (P -> P) -> M -> M
}.

Class KeyedStoreLaws (K P M : Type) `{EqDecision K} `{!KeyedStore K P M} := {
  ks_ok : M -> Prop;
  ks_new_ok : ks_ok ks_new;
  ks_set_ok k p m : ks_ok m -> ks_ok (ks_set k p m);
  ks_del_ok k m : ks_ok m -> ks_ok (ks_del k m);
  ks_modify_ok k f m : ks_ok m -> ks_ok (ks_modify k f m);
  ks_get_new k : ks_get k ks_new = None;
  ks_get_set k p k' m : ks_ok m ->
    ks_get k' (ks_set k p m) = if decide (k = k') then Some p else ks_get k' m;
  ks_get_del k k' m : ks_ok m ->
    ks_get k' (ks_del k m) = if decide (k = k') then None else ks_get k' m;
  ks_get_modify k f k' m : ks_ok m ->
    ks_get k' (ks_modify k f m) = if decide (k = k') then f <$> ks_get k' m else ks_get k' m
}.

(** An etcd entry, and what the registry asks of its listeners
    ([core/discov/internal/updatelistener.go]). *)
Record KV := mkKV { Key : string; Val : string }.

Class UpdateListener (L : Type) := {
  OnAdd : KV -> L -> L;
  OnDelete : KV -> L -> L
}.

(** What a listener promises: it shows the entries it was told of, as long as it
    is not told of a new value for an entry it shows. *)
Class UpdateListenerLaws (L : Type) `{!UpdateListener L} := {
  ul_shows : gmap string string -> L -> Prop;
  ul_add m l kv :
    ul_shows m l -> m !! Key kv = None \/ m !! Key kv = Some (Val kv) ->
    ul_shows (<[Key kv := Val kv]> m) (OnAdd kv l);
  ul_delete m l kv : ul_shows m l -> ul_shows (delete (Key kv) m) (OnDelete kv l)
}.
