(* ===== verification/Ring.v ===== *)
(** * [core/collection/ring.go]: the fixed-size ring

    [Ring] keeps the last [n] values added; [Take] lists them oldest first.
    The refinement theorem relates the array with its moving index to the plain
    sequence of all values ever added. *)

From S2P Require Import Prelude.

Section ring.
Context {V : Type} (nil_any : V).

Record Ring := mkRing {
  r_elements : list V;
  r_index : nat
}.

(** [NewRing] panics on a size below one. *)
Definition NewRing (n : Z) : outcome Ring :=
  if (n <? 1)%Z then Panic "n should be greater than 0"
  else Ok (mkRing (replicate (Z.to_nat n) nil_any) 0).

(** [Ring.Add]: writes at [index%rlen], then keeps the index below [2*rlen]. *)
Definition Add (v : V) (r : Ring) : Ring :=
  let rlen := length (r_elements r) in
  let elements := <[r_index r mod rlen := v]> (r_elements r) in
  let index := S (r_index r) in
  mkRing elements (if 2 * rlen <=? index then index - rlen else index).

(** [Ring.Take]: copies [size] elements from [start], cyclically. *)
Definition Take (r : Ring) : list V :=
  let rlen := length (r_elements r) in
  let '(size, start) :=
    if rlen <? r_index r then (rlen, r_index r mod rlen) else (r_index r, 0) in
  (fun i => default nil_any (r_elements r !! ((start + i) mod rlen))) <$> seq 0 size.

(** The ring holds the values [vs], the whole history of additions. *)
Record ring_rep (n : nat) (r : Ring) (vs : list V) : Prop := {
  rr_len : length (r_elements r) = n;
  rr_pos : 0 < n;
  rr_short : length vs < n -> r_index r = length vs;
  rr_full : n <= length vs -> n <= r_index r < 2 * n;
  rr_mod : r_index r mod n = length vs mod n;
  rr_elem : forall i v, vs !! i = Some v -> length vs <= i + n ->
      r_elements r !! (i mod n) = Some v
}.

Lemma NewRing_rep n : (1 <= n)%Z ->
  exists r, NewRing n = Ok r /\ ring_rep (Z.to_nat n) r [].
Proof.
  intros Hn. unfold NewRing. destruct (Z.ltb_spec n 1); [lia|].
  eexists; split; [done|]. split; simpl; rewrite ?length_replicate; try lia; done.
Qed.

Lemma Add_rep n r vs v : ring_rep n r vs -> ring_rep n (Add v r) (vs ++ [v]).
Proof.
  intros [Hlen Hpos Hshort Hfull Hmod Helem]. unfold Add.
  assert (Hidx : r_index r < 2 * n).
  { destruct (decide (length vs < n)); [rewrite Hshort; lia|apply Hfull; lia]. }
  split; cbn [r_elements r_index]; rewrite ?Hlen, ?length_app, ?length_insert; cbn [length];
    try lia.
  - intros ?. specialize (Hshort ltac:(lia)).
    destruct (Nat.leb_spec (2 * n) (S (r_index r))); lia.
  - intros ?. destruct (Nat.leb_spec (2 * n) (S (r_index r))); [lia|].
    destruct (decide (length vs < n)); [rewrite Hshort by lia; lia|].
    specialize (Hfull ltac:(lia)). lia.
  - assert (Hs : S (r_index r) mod n = (length vs + 1) mod n).
    { replace (S (r_index r)) with (r_index r + 1) by lia.
      rewrite Nat.Div0.add_mod, Hmod, <- Nat.Div0.add_mod. done. }
    rewrite <- Hs. destruct (Nat.leb_spec (2 * n) (S (r_index r))); [|done].
    replace (S (r_index r)) with ((S (r_index r) - n) + 1 * n) at 2 by lia.
    by rewrite Nat.Div0.mod_add.
  - intros i w Hi Hge. rewrite Hmod.
    destruct (decide (i = length vs)) as [->|Hne].
    + rewrite lookup_app_r, Nat.sub_diag in Hi by lia. injection Hi as ->.
      apply list_lookup_insert_eq. rewrite Hlen. apply Nat.mod_upper_bound. lia.
    + assert (i < length vs) by (apply lookup_lt_Some in Hi;
        rewrite length_app in Hi; simpl in Hi; lia).
      rewrite lookup_app_l in Hi by lia.
      rewrite list_lookup_insert_ne; [apply Helem; [done|lia]|].
      intros Heq. apply Hne. symmetry in Heq.
      apply (mod_inj_window i (length vs) n); lia.
Qed.

Lemma Take_rep n r vs : ring_rep n r vs -> Take r = lastn n vs.
Proof.
  intros [Hlen Hpos Hshort Hfull Hmod Helem]. unfold Take. rewrite Hlen.
  set (ss := if n <? r_index r then _ else _).
  assert (Hss : exists size start, ss = (size, start) /\ size = Nat.min n (length vs) /\
     forall i, i < size -> (start + i) mod n = (length vs - n + i) mod n).
  { subst ss. destruct (Nat.ltb_spec n (r_index r)) as [Hlt|Hge].
    - assert (n <= length vs) by (destruct (decide (length vs < n)) as [Hs|];
        [specialize (Hshort Hs)|]; lia).
      do 2 eexists; repeat split; [lia|]. intros i Hi.
      rewrite Nat.Div0.add_mod_idemp_l, <- Nat.Div0.add_mod_idemp_l, Hmod,
        Nat.Div0.add_mod_idemp_l.
      replace (length vs + i) with (length vs - n + i + 1 * n) by lia.
      by rewrite Nat.Div0.mod_add.
    - destruct (decide (length vs < n)) as [Hs|Hs].
      + rewrite Hshort by done. do 2 eexists; repeat split; [lia|].
        intros i Hi. f_equal. lia.
      + specialize (Hfull ltac:(lia)).
        assert (Hi : r_index r = n) by lia. rewrite Hi in *.
        rewrite Nat.Div0.mod_same in Hmod.
        do 2 eexists; repeat split; [lia|]. intros i Hi'.
        rewrite <- (Nat.Div0.add_mod_idemp_l (length vs - n)).
        replace ((length vs - n) mod n) with 0; [done|].
        rewrite <- (Nat.Div0.mod_add (length vs - n) 1).
        replace (length vs - n + 1 * n) with (length vs) by lia. done. }
  destruct Hss as (size & start & -> & Hsize & Hidx).
  apply list_eq_len; rewrite length_fmap, length_seq; [rewrite length_lastn; done|].
  intros i Hi. rewrite list_lookup_fmap, lookup_seq_lt by done. simpl.
  rewrite lookup_lastn, Hidx by done.
  destruct (lookup_lt_is_Some_2 vs (length vs - n + i) ltac:(lia)) as [v Hv].
  rewrite Hv. rewrite (Helem _ v) by (done || lia). done.
Qed.

(** A ring of size [n] filled by [Add]ing [vs] in order yields, through [Take],
    exactly the last [n] values in insertion order, and its index stays below [2*n]. *)
Theorem ring_refines_lastn (n : Z) (vs : list V) :
  (1 <= n)%Z ->
  exists r, NewRing n = Ok r /\
    let r' := foldl (fun r v => Add v r) r vs in
    Take r' = lastn (Z.to_nat n) vs /\ r_index r' < 2 * Z.to_nat n.
Proof.
  intros Hn. destruct (NewRing_rep n Hn) as (r & Hr & Hrep).
  exists r. split; [done|]. cbn zeta.
  assert (H : ring_rep (Z.to_nat n) (foldl (fun r v => Add v r) r vs) ([] ++ vs)).
  { clear Hr. revert r Hrep. generalize (@nil V) as us.
    induction vs as [|v vs IH]; intros us r Hrep; simpl; [by rewrite app_nil_r|].
    replace (us ++ v :: vs) with ((us ++ [v]) ++ vs) by by rewrite <- app_assoc.
    by apply IH, Add_rep. }
  simpl in H. split; [by apply Take_rep|].
  destruct H as [? ? Hs Hf ? ?].
  destruct (decide (length vs < Z.to_nat n)); [rewrite Hs; lia|apply Hf; lia].
Qed.
End ring.

Lemma ring_refines_lastn_witness :
  exists r, NewRing 0 3 = Ok r /\
    let r' := foldl (fun r v => Add v r) r [1; 2; 3; 4; 5] in
    Take 0 r' = lastn (Z.to_nat 3) [1; 2; 3; 4; 5] /\ r_index r' < 2 * Z.to_nat 3.
Proof. apply (ring_refines_lastn 0 3 [1; 2; 3; 4; 5]). lia. Defined.
