(* ===== verification/Fifo.v ===== *)
(** * [core/collection/fifo.go]: the growing FIFO queue

    [Queue] is a circular buffer that grows by [size] slots when it is full.
    [q_contents] reads the abstract sequence out of the buffer; [Put] appends to
    it and [Take] removes its head, for every reachable queue. *)

From S2P Require Import Prelude.

Section fifo.
Context {V : Type} (nil_any : V).

Record Queue := mkQueue {
  q_elements : list V;
  q_size : nat;
  q_head : nat;
  q_tail : nat;
  q_count : nat
}.

(** [NewQueue]: [make([]any, size)] panics on a negative size. *)
Definition NewQueue (size : Z) : outcome Queue :=
  if (size <? 0)%Z then Panic "makeslice: len out of range"
  else Ok (mkQueue (replicate (Z.to_nat size) nil_any) (Z.to_nat size) 0 0 0).

Definition Empty (q : Queue) : bool := q_count q =? 0.

(** Go's [copy(dst[from:], src)]: the overlap only. *)
Definition copy_at (dst : list V) (from : nat) (src : list V) : list V :=
  take from dst ++ take (length dst - from) src ++
  drop (from + length src) dst.

(** The growth branch of [Put]: head part first, then the wrapped part. *)
Definition grow (q : Queue) : Queue :=
  let old := q_elements q in
  let nodes := replicate (length old + q_size q) nil_any in
  let nodes := copy_at nodes 0 (drop (q_head q) old) in
  let nodes := copy_at nodes (length old - q_head q) (take (q_head q) old) in
  mkQueue nodes (q_size q) 0 (length old) (q_count q).

(** [Queue.Put]; indexing past the buffer panics. *)
Definition Put (element : V) (q : Queue) : outcome Queue :=
  let q := if (q_head q =? q_tail q) && (0 <? q_count q) then grow q else q in
  if q_tail q <? length (q_elements q) then
    Ok (mkQueue (<[q_tail q := element]> (q_elements q)) (q_size q) (q_head q)
          ((q_tail q + 1) mod length (q_elements q)) (q_count q + 1))
  else Panic "index out of range".

(** [Queue.Take]: the element and [true], or [nil] and [false]. *)
Definition Take (q : Queue) : option V * Queue :=
  if q_count q =? 0 then (None, q)
  else (q_elements q !! q_head q,
        mkQueue (q_elements q) (q_size q)
          ((q_head q + 1) mod length (q_elements q)) (q_tail q) (q_count q - 1)).

(** The abstract contents, oldest first. *)
Definition q_contents (q : Queue) : list V :=
  (fun i => default nil_any (q_elements q !! ((q_head q + i) mod length (q_elements q))))
    <$> seq 0 (q_count q).

(** Well-formedness of a buffer created with a positive size. *)
Record queue_wf (q : Queue) : Prop := {
  qw_size : 0 < q_size q;
  qw_head : q_head q < length (q_elements q);
  qw_count : q_count q <= length (q_elements q);
  qw_tail : q_tail q = (q_head q + q_count q) mod length (q_elements q)
}.

Lemma NewQueue_wf size : (1 <= size)%Z ->
  exists q, NewQueue size = Ok q /\ queue_wf q /\ q_contents q = [].
Proof.
  intros H. unfold NewQueue. destruct (Z.ltb_spec size 0); [lia|].
  eexists; split; [done|]. split; [|done].
  split; simpl; rewrite ?length_replicate; try lia. by rewrite Nat.Div0.mod_0_l.
Qed.

Lemma length_contents q : length (q_contents q) = q_count q.
Proof. unfold q_contents. by rewrite length_fmap, length_seq. Qed.

Lemma lookup_contents q i : i < q_count q ->
  q_contents q !! i =
  Some (default nil_any (q_elements q !! ((q_head q + i) mod length (q_elements q)))).
Proof.
  intros. unfold q_contents. by rewrite list_lookup_fmap, lookup_seq_lt by done.
Qed.

(** The grown buffer starts with the old buffer, rotated to its head. *)
Lemma grow_elements q : q_head q <= length (q_elements q) ->
  q_elements (grow q) =
  drop (q_head q) (q_elements q) ++ take (q_head q) (q_elements q) ++
  replicate (q_size q) nil_any.
Proof.
  intros Hh. unfold grow, copy_at. cbn [q_elements].
  set (old := q_elements q) in *. set (h := q_head q) in *.
  rewrite !take_0, !app_nil_l, !Nat.sub_0_r, !Nat.add_0_l, length_replicate.
  rewrite (take_ge (drop h old)) by (rewrite length_drop; lia).
  rewrite length_app, !length_drop, length_replicate, length_take.
  rewrite take_app_length' by (rewrite length_drop; lia).
  rewrite take_ge by (rewrite length_take; lia). f_equal. f_equal.
  rewrite drop_app_ge by (rewrite length_drop; lia).
  rewrite length_drop, drop_drop. rewrite drop_replicate. f_equal. lia.
Qed.

Lemma grow_spec q :
  queue_wf q -> q_count q = length (q_elements q) ->
  queue_wf (grow q) /\ q_contents (grow q) = q_contents q /\
  q_tail (grow q) < length (q_elements (grow q)).
Proof.
  intros [Hs Hh Hc Ht] Hfull.
  assert (Hlen : length (q_elements (grow q)) = length (q_elements q) + q_size q).
  { rewrite grow_elements by lia.
    rewrite !length_app, length_drop, length_take, length_replicate. lia. }
  split; [|split].
  - split; rewrite ?Hlen.
    1-3: simpl; lia.
    change (length (q_elements q) = (0 + q_count q) mod (length (q_elements q) + q_size q)).
    rewrite Nat.mod_small; lia.
  - apply list_eq_len; rewrite !length_contents; [done|]. intros i Hi.
    simpl in Hi. rewrite !lookup_contents by done. rewrite Hlen.
    change (q_head (grow q)) with 0. rewrite grow_elements by lia.
    rewrite (Nat.mod_small (0 + i)) by lia. simpl.
    destruct (decide (q_head q + i < length (q_elements q))) as [Hin|Hout].
    + rewrite lookup_app_l by (rewrite length_drop; lia).
      rewrite lookup_drop, (Nat.mod_small (q_head q + i)) by lia. done.
    + rewrite lookup_app_r by (rewrite length_drop; lia).
      rewrite length_drop, lookup_app_l by (rewrite length_take; lia).
      rewrite lookup_take_lt by lia.
      rewrite (mod_unique_nat (q_head q + i) _ 1 (i - (length (q_elements q) - q_head q)))
        by lia. done.
  - rewrite Hlen. simpl. lia.
Qed.

(** One [Put] when there is room. *)
Lemma Put_room q v :
  queue_wf q -> q_count q < length (q_elements q) ->
  exists q', (if q_tail q <? length (q_elements q) then
    Ok (mkQueue (<[q_tail q := v]> (q_elements q)) (q_size q) (q_head q)
          ((q_tail q + 1) mod length (q_elements q)) (q_count q + 1))
    else Panic "index out of range") = Ok q' /\
    queue_wf q' /\ q_contents q' = q_contents q ++ [v].
Proof.
  intros [Hs Hh Hc Ht] Hroom.
  assert (Htl : q_tail q < length (q_elements q))
    by (rewrite Ht; apply Nat.mod_upper_bound; lia).
  destruct (Nat.ltb_spec (q_tail q) (length (q_elements q))); [|lia].
  eexists; split; [done|]. split.
  - split; cbn [q_size q_head q_tail q_count q_elements]; rewrite ?length_insert; try lia.
    rewrite Ht, Nat.Div0.add_mod_idemp_l. f_equal. lia.
  - apply list_eq_len; rewrite ?length_app, !length_contents; [done|].
    cbn [q_count length]. intros i Hi. rewrite lookup_contents by done.
    cbn [q_elements q_head]. rewrite length_insert.
    destruct (decide (i = q_count q)) as [->|Hne].
    + rewrite <- Ht, list_lookup_insert_eq by done.
      rewrite lookup_app_r by (rewrite length_contents; lia).
      by rewrite length_contents, Nat.sub_diag.
    + rewrite lookup_app_l by (rewrite length_contents; lia).
      rewrite lookup_contents by lia.
      rewrite list_lookup_insert_ne; [done|]. rewrite Ht. intros Heq.
      assert (q_head q + i = q_head q + q_count q); [|lia].
      apply (mod_inj_window _ _ (length (q_elements q))); lia.
Qed.

(** On a queue created with a positive size, [Put] never panics, preserves the
    buffer's well-formedness (growing it when it is full) and appends the element to
    the abstract contents. *)
Theorem queue_put_appends (q : Queue) (v : V) :
  queue_wf q ->
  exists q', Put v q = Ok q' /\ queue_wf q' /\ q_contents q' = q_contents q ++ [v].
Proof.
  intros Hwf. pose proof Hwf as [Hs Hh Hc Ht]. unfold Put. cbn zeta.
  destruct ((q_head q =? q_tail q) && (0 <? q_count q)) eqn:E.
  - bool_prop. assert (Hfull : q_count q = length (q_elements q)).
    { destruct (decide (q_count q = length (q_elements q))); [done|].
      assert (q_head q = q_head q + q_count q); [|lia].
      apply (mod_inj_window _ _ (length (q_elements q))); try lia.
      rewrite Nat.mod_small by lia. congruence. }
    destruct (grow_spec q Hwf Hfull) as (Hwf' & Hc' & _).
    rewrite <- Hc'. apply Put_room; [done|].
    rewrite grow_elements by lia.
    rewrite !length_app, length_drop, length_take, length_replicate. simpl. lia.
  - apply Put_room; [done|].
    destruct (decide (q_count q = length (q_elements q))) as [Hf|]; [|lia].
    exfalso. apply andb_false_iff in E as [E|E]; bool_prop; [|lia].
    apply E. rewrite Ht, Hf.
    symmetry. apply (mod_unique_nat _ _ 1); lia.
Qed.

(** [Take] returns the oldest element and leaves the rest, in order; on an empty
    queue it returns nothing and changes nothing. *)
Theorem queue_take_pops (q : Queue) :
  queue_wf q ->
  match q_contents q with
  | [] => Take q = (None, q)
  | v :: rest => exists q', Take q = (Some v, q') /\ queue_wf q' /\ q_contents q' = rest
  end.
Proof.
  intros [Hs Hh Hc Ht]. unfold Take. pose proof (length_contents q) as Hl.
  destruct (q_contents q) as [|v rest] eqn:E; simpl in Hl.
  - by rewrite <- Hl.
  - destruct (Nat.eqb_spec (q_count q) 0); [lia|].
    pose proof (lookup_contents q 0 ltac:(lia)) as H0. rewrite E in H0.
    rewrite Nat.add_0_r, Nat.mod_small in H0 by lia.
    destruct (lookup_lt_is_Some_2 (q_elements q) (q_head q) Hh) as [w Hw].
    rewrite Hw in *. simpl in H0. injection H0 as ->.
    eexists; split; [done|]. split.
    + split; cbn [q_size q_head q_tail q_count q_elements]; try lia.
      * apply Nat.mod_upper_bound. lia.
      * rewrite Nat.Div0.add_mod_idemp_l, Ht. f_equal. lia.
    + apply list_eq_len; rewrite length_contents; cbn [q_count]; [lia|]. intros i Hi.
      rewrite lookup_contents by done. cbn [q_elements q_head].
      rewrite Nat.Div0.add_mod_idemp_l.
      pose proof (lookup_contents q (S i) ltac:(lia)) as HSi. rewrite E in HSi.
      change (rest !! i = Some (default nil_any
        (q_elements q !! ((q_head q + S i) mod length (q_elements q))))) in HSi.
      rewrite HSi. by replace (q_head q + 1 + i) with (q_head q + S i) by lia.
Qed.

(** [Empty] answers whether the abstract contents are empty. *)
Lemma Empty_spec q : Empty q = true <-> q_contents q = [].
Proof.
  unfold Empty. rewrite Nat.eqb_eq, <- length_contents. apply length_zero_iff_nil.
Qed.
End fifo.

Definition demo_queue : Queue := mkQueue [7; 8] 2 1 1 2.

Lemma demo_queue_wf : queue_wf demo_queue.
Proof. split; vm_compute; lia. Qed.

Lemma queue_put_appends_witness :
  exists q', Put 0 9 demo_queue = Ok q' /\ queue_wf q' /\ q_contents 0 q' = [8; 7] ++ [9].
Proof. exact (queue_put_appends 0 demo_queue 9 demo_queue_wf). Defined.

Lemma queue_take_pops_witness :
  exists q', Take demo_queue = (Some 8, q') /\ queue_wf q' /\ q_contents 0 q' = [7].
Proof. exact (queue_take_pops 0 demo_queue demo_queue_wf). Defined.
