(* ===== verification/SafeMap.v ===== *)
(** * [core/collection/safemap.go]: the two-generation map

    A [SafeMap] spreads its entries over an old and a new Go map and merges them
    after [maxDeletion] deletions, to give memory back.  The abstraction
    [sm_map] is one finite map; every operation refines the operation of that
    map, whichever generation the key lives in and whether or not it migrates. *)

From S2P Require Import Prelude.
From S2P Require Import Interfaces.

Section safemap.
Context {K V : Type} `{Countable K}.

Definition copyThreshold : Z := 1000.
Definition maxDeletion : Z := 10000.

Record SafeMap := mkSafeMap {
  deletionOld : Z;
  deletionNew : Z;
  dirtyOld : gmap K V;
  dirtyNew : gmap K V
}.

Definition NewSafeMap : SafeMap := mkSafeMap 0 0 ∅ ∅.

(** First part of [SafeMap.Del]: delete the key from the generation that has it. *)
Definition del_key (key : K) (m : SafeMap) : SafeMap :=
  match dirtyOld m !! key with
  | Some _ => mkSafeMap (deletionOld m + 1) (deletionNew m)
                (delete key (dirtyOld m)) (dirtyNew m)
  | None =>
    match dirtyNew m !! key with
    | Some _ => mkSafeMap (deletionOld m) (deletionNew m + 1)
                  (dirtyOld m) (delete key (dirtyNew m))
    | None => m
    end
  end.

(** Second part: move a small, much deleted old generation into the new one,
    which then becomes the old one. Copying overwrites, so the copied map wins. *)
Definition migrate_old (m : SafeMap) : SafeMap :=
  if (maxDeletion <=? deletionOld m)%Z && (Z.of_nat (size (dirtyOld m)) <? copyThreshold)%Z
  then mkSafeMap (deletionNew m) 0 (dirtyOld m ∪ dirtyNew m) ∅
  else m.

(** Third part: the same for the new generation, into the old one. *)
Definition migrate_new (m : SafeMap) : SafeMap :=
  if (maxDeletion <=? deletionNew m)%Z && (Z.of_nat (size (dirtyNew m)) <? copyThreshold)%Z
  then mkSafeMap (deletionOld m) 0 (dirtyNew m ∪ dirtyOld m) ∅
  else m.

(** [SafeMap.Del] *)
Definition Del (key : K) (m : SafeMap) : SafeMap :=
  migrate_new (migrate_old (del_key key m)).

(** [SafeMap.Get] *)
Definition Get (key : K) (m : SafeMap) : option V :=
  match dirtyOld m !! key with
  | Some v => Some v
  | None => dirtyNew m !! key
  end.

(** [SafeMap.Set] *)
Definition Set_ (key : K) (value : V) (m : SafeMap) : SafeMap :=
  if (deletionOld m <=? maxDeletion)%Z then
    match dirtyNew m !! key with
    | Some _ => mkSafeMap (deletionOld m) (deletionNew m + 1)
                  (<[key := value]> (dirtyOld m)) (delete key (dirtyNew m))
    | None => mkSafeMap (deletionOld m) (deletionNew m)
                (<[key := value]> (dirtyOld m)) (dirtyNew m)
    end
  else
    match dirtyOld m !! key with
    | Some _ => mkSafeMap (deletionOld m + 1) (deletionNew m)
                  (delete key (dirtyOld m)) (<[key := value]> (dirtyNew m))
    | None => mkSafeMap (deletionOld m) (deletionNew m)
                (dirtyOld m) (<[key := value]> (dirtyNew m))
    end.

(** [SafeMap.Size] *)
Definition Size (m : SafeMap) : nat := size (dirtyOld m) + size (dirtyNew m).

(** The loop of [SafeMap.Range] over one generation: [f] sees the entries until it
    returns [false]; the result also says whether the iteration went on to the end. *)
Fixpoint range_list {S} (f : K -> V -> S -> bool * S) (l : list (K * V)) (s : S) : bool * S :=
  match l with
  | [] => (true, s)
  | (k, v) :: l =>
    let '(goon, s) := f k v s in
    if goon then range_list f l s else (false, s)
  end.

(** [SafeMap.Range]; [ord_old] and [ord_new] list the two generations in the order
    in which the Go runtime happens to iterate over them. *)
Definition Range {S} (f : K -> V -> S -> bool * S) (ord_old ord_new : list (K * V)) (s : S) : S :=
  let '(goon, s) := range_list f ord_old s in
  if goon then (range_list f ord_new s).2 else s.

(** ** Invariant and abstraction *)

(** A key lives in one generation only. *)
Definition sm_wf (m : SafeMap) : Prop := dirtyOld m ##ₘ dirtyNew m.

Definition sm_map (m : SafeMap) : gmap K V := dirtyOld m ∪ dirtyNew m.

Lemma Get_map m key : Get key m = sm_map m !! key.
Proof.
  unfold Get, sm_map. rewrite lookup_union.
  by destruct (dirtyOld m !! key), (dirtyNew m !! key).
Qed.

Lemma migrate_old_spec m : sm_wf m ->
  sm_wf (migrate_old m) /\ sm_map (migrate_old m) = sm_map m.
Proof.
  intros Hwf. unfold migrate_old. go_case; [|done].
  unfold sm_wf, sm_map. simpl. rewrite map_union_empty.
  split; [apply map_disjoint_empty_r|done].
Qed.

Lemma migrate_new_spec m : sm_wf m ->
  sm_wf (migrate_new m) /\ sm_map (migrate_new m) = sm_map m.
Proof.
  intros Hwf. unfold migrate_new. go_case; [|done].
  unfold sm_wf, sm_map in *. simpl. rewrite map_union_empty.
  split; [apply map_disjoint_empty_r|]. by apply map_union_comm.
Qed.

Lemma del_key_spec m key : sm_wf m ->
  sm_wf (del_key key m) /\ sm_map (del_key key m) = delete key (sm_map m).
Proof.
  intros Hwf. unfold del_key, sm_wf, sm_map in *.
  destruct (dirtyOld m !! key) eqn:Eo; [|destruct (dirtyNew m !! key) eqn:En]; simpl.
  - split; [by apply map_disjoint_delete_l|].
    rewrite delete_union. f_equal. symmetry. apply delete_id.
    by eapply map_disjoint_Some_r in Eo.
  - split; [by apply map_disjoint_delete_r|].
    rewrite delete_union. f_equal. symmetry. by apply delete_id.
  - split; [done|]. symmetry. apply delete_id. by apply lookup_union_None.
Qed.

Lemma Del_spec m key : sm_wf m -> sm_wf (Del key m) /\ sm_map (Del key m) = delete key (sm_map m).
Proof.
  intros Hwf. unfold Del.
  destruct (del_key_spec m key Hwf) as [H1 E1].
  destruct (migrate_old_spec _ H1) as [H2 E2].
  destruct (migrate_new_spec _ H2) as [H3 E3].
  split; [done|]. by rewrite E3, E2, E1.
Qed.

Lemma Set_spec m key v : sm_wf m ->
  sm_wf (Set_ key v m) /\ sm_map (Set_ key v m) = <[key := v]> (sm_map m).
Proof.
  intros Hwf. unfold Set_, sm_wf, sm_map in *.
  destruct (deletionOld m <=? maxDeletion)%Z.
  - assert (E : forall N, (forall k, N !! k = if decide (k = key) then None else dirtyNew m !! k) ->
        <[key:=v]> (dirtyOld m) ##ₘ N /\
        <[key:=v]> (dirtyOld m) ∪ N = <[key:=v]> (dirtyOld m ∪ dirtyNew m)).
    { intros N HN. split.
      - apply map_disjoint_insert_l. split; [by rewrite HN, decide_True|].
        apply map_disjoint_spec. intros k x y Hx Hy. rewrite HN in Hy. case_decide; [done|].
        eapply map_disjoint_spec in Hwf; eauto.
      - apply map_eq. intros k. rewrite lookup_union, HN, !lookup_insert, lookup_union.
        destruct (decide (key = k)) as [->|Hne]; [by rewrite decide_True|].
        by rewrite decide_False by congruence. }
    destruct (dirtyNew m !! key) eqn:En; simpl; apply E; intros k; case_decide; subst.
    + by rewrite lookup_delete_eq.
    + by rewrite lookup_delete_ne.
    + done.
    + done.
  - destruct (dirtyOld m !! key) eqn:Eo; simpl.
    + split.
      * apply map_disjoint_insert_r. split; [by rewrite lookup_delete_eq|].
        by apply map_disjoint_delete_l.
      * apply map_eq. intros k. rewrite lookup_union, !lookup_insert, lookup_delete, lookup_union.
        by destruct (decide (key = k)).
    + split.
      * by apply map_disjoint_insert_r.
      * apply map_eq. intros k. rewrite lookup_union, !lookup_insert, lookup_union.
        destruct (decide (key = k)) as [->|]; [by rewrite Eo|done].
Qed.

(** ** Refinement over whole runs *)

Inductive sm_op :=
| OpSet (k : K) (v : V)
| OpDel (k : K).

Definition sm_step (m : SafeMap) (o : sm_op) : SafeMap :=
  match o with OpSet k v => Set_ k v m | OpDel k => Del k m end.

Definition map_step (m : gmap K V) (o : sm_op) : gmap K V :=
  match o with OpSet k v => <[k := v]> m | OpDel k => delete k m end.

Lemma sm_run_spec os m : sm_wf m ->
  sm_wf (foldl sm_step m os) /\ sm_map (foldl sm_step m os) = foldl map_step (sm_map m) os.
Proof.
  revert m. induction os as [|o os IH]; intros m Hwf; simpl; [done|].
  assert (sm_wf (sm_step m o) /\ sm_map (sm_step m o) = map_step (sm_map m) o) as [Hw <-].
  { destruct o; [by apply Set_spec|by apply Del_spec]. }
  by apply IH.
Qed.

(** After any sequence of [Set]s and [Del]s from a new [SafeMap], however many
    migrations between the generations it causes, [Get] and [Size] answer as one
    ordinary map on which the same operations were run, and no key is in both
    generations. *)
Theorem safemap_refines_map (os : list sm_op) :
  let m := foldl sm_step NewSafeMap os in
  let ref := foldl map_step ∅ os in
  dirtyOld m ##ₘ dirtyNew m /\ (forall k, Get k m = ref !! k) /\ Size m = size ref.
Proof.
  cbn zeta. destruct (sm_run_spec os NewSafeMap) as [Hwf Hmap].
  { apply map_disjoint_empty_l. }
  assert (E0 : sm_map NewSafeMap = ∅) by (unfold sm_map; simpl; apply map_empty_union).
  rewrite E0 in Hmap. split; [done|]. split.
  - intros k. by rewrite Get_map, Hmap.
  - unfold Size. rewrite <- Hmap. unfold sm_map. by rewrite map_size_disj_union.
Qed.

Lemma map_to_list_disj_union (m1 m2 : gmap K V) :
  m1 ##ₘ m2 -> map_to_list (m1 ∪ m2) ≡ₚ map_to_list m1 ++ map_to_list m2.
Proof.
  induction m1 as [|i x m1 Hi IH] using map_ind; intros Hd.
  - by rewrite map_empty_union, map_to_list_empty.
  - apply map_disjoint_insert_l in Hd as [Hi2 Hd].
    rewrite <- insert_union_l, !map_to_list_insert, IH; try done.
    by apply lookup_union_None.
Qed.

(** [Range] with a callback that never stops visits each generation's whole listing,
    so each entry of the abstract map exactly once. *)
Lemma Range_all {S} (f : K -> V -> S -> bool * S) m lo ln s :
  (forall k v s, (f k v s).1 = true) ->
  sm_wf m -> lo ≡ₚ map_to_list (dirtyOld m) -> ln ≡ₚ map_to_list (dirtyNew m) ->
  Range f lo ln s = foldl (fun s kv => (f kv.1 kv.2 s).2) s (lo ++ ln) /\
  lo ++ ln ≡ₚ map_to_list (sm_map m).
Proof.
  intros Hf Hwf Ho Hn.
  assert (Hall : forall l s, range_list f l s = (true, foldl (fun s kv => (f kv.1 kv.2 s).2) s l)).
  { induction l as [|[k v] l IH]; intros s'; simpl; [done|].
    specialize (Hf k v s'). destruct (f k v s') as [g s'']. simpl in *. subst. apply IH. }
  split.
  - unfold Range. rewrite !Hall. simpl. by rewrite foldl_app.
  - rewrite Ho, Hn. symmetry. unfold sm_map. by apply map_to_list_disj_union.
Qed.

(** ** The store interface *)

(** A write through the pointer stored under [key]: the entry changes in place, in
    whichever generation it is, and no map operation happens. *)
Definition sm_modify (key : K) (f : V -> V) (m : SafeMap) : SafeMap :=
  mkSafeMap (deletionOld m) (deletionNew m) (alter f key (dirtyOld m)) (alter f key (dirtyNew m)).

Lemma sm_modify_spec m key f : sm_wf m ->
  sm_wf (sm_modify key f m) /\
  forall k, Get k (sm_modify key f m) = if decide (key = k) then f <$> Get k m else Get k m.
Proof.
  intros Hwf. unfold sm_wf, sm_modify, Get in *. simpl. split.
  - apply map_disjoint_spec. intros k x y Hx Hy.
    rewrite lookup_alter in Hx, Hy. destruct (decide (key = k)) as [<-|_].
    + apply fmap_Some in Hx as (x' & Hx & _). apply fmap_Some in Hy as (y' & Hy & _).
      by apply (map_disjoint_spec (dirtyOld m) (dirtyNew m)) with key x' y' in Hwf.
    + by apply (map_disjoint_spec (dirtyOld m) (dirtyNew m)) with k x y in Hwf.
  - intros k. rewrite !lookup_alter. case_decide; [subst|done].
    by destruct (dirtyOld m !! k), (dirtyNew m !! k).
Qed.

#[export] Instance SafeMap_store : KeyedStore K V SafeMap := {|
  ks_new := NewSafeMap;
  ks_get := Get;
  ks_set := Set_;
  ks_del := Del;
  ks_modify := sm_modify
|}.

#[export] Instance SafeMap_store_laws : KeyedStoreLaws K V SafeMap.
Proof.
  refine {| ks_ok := sm_wf |}.
  - apply map_disjoint_empty_l.
  - intros. by apply Set_spec.
  - intros. by apply Del_spec.
  - intros. by apply sm_modify_spec.
  - done.
  - intros k p k' m Hm. simpl. rewrite !Get_map.
    rewrite (proj2 (Set_spec m k p Hm)). apply lookup_insert.
  - intros k k' m Hm. simpl. rewrite !Get_map.
    rewrite (proj2 (Del_spec m k Hm)). apply lookup_delete.
  - intros k f k' m Hm. by apply sm_modify_spec.
Qed.
End safemap.
