(* ===== verification/TimingWheel.v ===== *)
(** * [core/collection/timingwheel.go]: the timing wheel

    The wheel's state is changed by one goroutine ([run]) that receives set,
    move, remove, drain and tick events; [run_event] is the body of its loop.
    A [timingEntry] is shared between its slot's list and the [timers] map
    through a pointer, so entries live in a store [tw_store] indexed by
    locations, and the slots and the [timers] map hold locations.

    [due] is the number of ticks after which an entry fires; the theorems relate
    it to the delay the caller asked for. *)

From S2P Require Import Prelude.
From S2P Require Import Interfaces.
From S2P Require Import SafeMap.

Abbreviation loc := nat.

(** The errors of the API methods. *)
Inductive tw_error := ErrClosed | ErrArgument.

(** [positionEntry] *)
Record positionEntry := mkPos { pe_pos : nat; pe_item : loc }.

Section wheel.
Context {K V M : Type} `{Countable K} `{!KeyedStore K positionEntry M}.

(** [timingEntry], with the embedded [baseEntry] (delay and key) *)
Record timingEntry := mkEntry {
  te_delay : Z;
  te_key : K;
  te_value : V;
  te_circle : nat;
  te_diff : nat;
  te_removed : bool
}.

Record TimingWheel := mkWheel {
  tw_interval : Z;
  tw_slots : list (list loc);
  tw_timers : M;
  tw_tickedPos : nat;
  tw_numSlots : nat;
  tw_store : gmap loc timingEntry;
  tw_next : loc
}.

(** What the wheel hands to other goroutines: a task given to [tw.execute], or to
    the function passed to [Drain]. *)
Inductive action :=
| Executed (k : K) (v : V)
| Drained (k : K) (v : V).

(** [NewTimingWheel] and [NewTimingWheelWithTicker]: the arguments are checked, the
    slots made empty ([initSlots]) and the position put just before slot 0. *)
Definition initSlots (numSlots : nat) : list (list loc) := replicate numSlots [].

Definition NewTimingWheelWithTicker (interval : Z) (numSlots : nat) : TimingWheel :=
  mkWheel interval (initSlots numSlots) ks_new (numSlots - 1) numSlots ∅ 0.

Definition NewTimingWheel (interval numSlots : Z) (execute_nil : bool) : option TimingWheel :=
  if (interval <=? 0)%Z || (numSlots <=? 0)%Z || execute_nil then None
  else Some (NewTimingWheelWithTicker interval (Z.to_nat numSlots)).

(** ** Writes to the shared state *)

Definition with_slots (f : list (list loc) -> list (list loc)) (tw : TimingWheel) : TimingWheel :=
  mkWheel (tw_interval tw) (f (tw_slots tw)) (tw_timers tw) (tw_tickedPos tw)
    (tw_numSlots tw) (tw_store tw) (tw_next tw).

Definition with_timers (f : M -> M) (tw : TimingWheel) : TimingWheel :=
  mkWheel (tw_interval tw) (tw_slots tw) (f (tw_timers tw)) (tw_tickedPos tw)
    (tw_numSlots tw) (tw_store tw) (tw_next tw).

Definition set_entry (l : loc) (e : timingEntry) (tw : TimingWheel) : TimingWheel :=
  mkWheel (tw_interval tw) (tw_slots tw) (tw_timers tw) (tw_tickedPos tw)
    (tw_numSlots tw) (<[l := e]> (tw_store tw)) (tw_next tw).

Definition alloc (e : timingEntry) (tw : TimingWheel) : loc * TimingWheel :=
  (tw_next tw,
   mkWheel (tw_interval tw) (tw_slots tw) (tw_timers tw) (tw_tickedPos tw)
     (tw_numSlots tw) (<[tw_next tw := e]> (tw_store tw)) (S (tw_next tw))).

(** [tw.slots[pos].PushBack] and [l.Remove(e)] of [container/list] *)
Definition pushBack (pos : nat) (l : loc) : TimingWheel -> TimingWheel :=
  with_slots (alter (fun s => s ++ [l]) pos).

Definition listRemove (pos : nat) (l : loc) : TimingWheel -> TimingWheel :=
  with_slots (alter (filter (fun x => x <> l)) pos).

(** Field writes of one entry *)
Definition te_set_pos (circle diff : nat) (e : timingEntry) : timingEntry :=
  mkEntry (te_delay e) (te_key e) (te_value e) circle diff (te_removed e).

Definition te_set_removed (e : timingEntry) : timingEntry :=
  mkEntry (te_delay e) (te_key e) (te_value e) (te_circle e) (te_diff e) true.

Definition te_set_value (v : V) (e : timingEntry) : timingEntry :=
  mkEntry (te_delay e) (te_key e) v (te_circle e) (te_diff e) (te_removed e).

(** ** The loop's handlers *)

(** [getPositionAndCircle] *)
Definition getPositionAndCircle (tw : TimingWheel) (d : Z) : nat * nat :=
  let steps := Z.to_nat (Z.quot d (tw_interval tw)) in
  ((tw_tickedPos tw + steps) mod tw_numSlots tw, (steps - 1) / tw_numSlots tw).

#[local] Arguments getPositionAndCircle : simpl never.

(** [setTimerPosition]: overwrite through the pointer, or register the key. *)
Definition setTimerPosition (pos : nat) (key : K) (l : loc) (tw : TimingWheel) : TimingWheel :=
  match ks_get key (tw_timers tw) with
  | Some _ => with_timers (ks_modify key (fun _ => mkPos pos l)) tw
  | None => with_timers (ks_set key (mkPos pos l)) tw
  end.

(** [moveTask]: the new state and what is executed at once. *)
Definition moveTask (key : K) (delay : Z) (tw : TimingWheel) : TimingWheel * list action :=
  match ks_get key (tw_timers tw) with
  | None => (tw, [])
  | Some timer =>
    match tw_store tw !! pe_item timer with
    | None => (tw, [])
    | Some item =>
      if (delay <? tw_interval tw)%Z then (tw, [Executed (te_key item) (te_value item)])
      else
        let '(pos, circle) := getPositionAndCircle tw delay in
        if pe_pos timer <=? pos then
          (set_entry (pe_item timer) (te_set_pos circle (pos - pe_pos timer) item) tw, [])
        else if 0 <? circle then
          (set_entry (pe_item timer)
             (te_set_pos (circle - 1) (tw_numSlots tw + pos - pe_pos timer) item) tw, [])
        else
          let tw := set_entry (pe_item timer) (te_set_removed item) tw in
          let '(l, tw) := alloc (mkEntry delay key (te_value item) 0 0 false) tw in
          (setTimerPosition pos key l (pushBack pos l tw), [])
    end
  end.

(** [removeTask] *)
Definition removeTask (key : K) (tw : TimingWheel) : TimingWheel :=
  match ks_get key (tw_timers tw) with
  | None => tw
  | Some timer =>
    match tw_store tw !! pe_item timer with
    | None => tw
    | Some item =>
      with_timers (ks_del key) (set_entry (pe_item timer) (te_set_removed item) tw)
    end
  end.

(** [setTask] *)
Definition setTask (key : K) (value : V) (delay : Z) (tw : TimingWheel) : TimingWheel * list action :=
  let delay := if (delay <? tw_interval tw)%Z then tw_interval tw else delay in
  match ks_get key (tw_timers tw) with
  | Some entry =>
    match tw_store tw !! pe_item entry with
    | None => (tw, [])
    | Some item => moveTask key delay (set_entry (pe_item entry) (te_set_value value item) tw)
    end
  | None =>
    let '(pos, circle) := getPositionAndCircle tw delay in
    let '(l, tw) := alloc (mkEntry delay key value circle 0 false) tw in
    (setTimerPosition pos key l (pushBack pos l tw), [])
  end.

(** One iteration of the loop of [scanAndRunTasks], on the element [l] of the slot
    at [tickedPos]. *)
Definition scanTask (l : loc) (tw : TimingWheel) : TimingWheel * list action :=
  match tw_store tw !! l with
  | None => (tw, [])
  | Some task =>
    if te_removed task then (listRemove (tw_tickedPos tw) l tw, [])
    else if 0 <? te_circle task then
      (set_entry l (te_set_pos (te_circle task - 1) (te_diff task) task) tw, [])
    else if 0 <? te_diff task then
      let tw := listRemove (tw_tickedPos tw) l tw in
      let pos := (tw_tickedPos tw + te_diff task) mod tw_numSlots tw in
      let tw := setTimerPosition pos (te_key task) l (pushBack pos l tw) in
      (set_entry l (te_set_pos (te_circle task) 0 task) tw, [])
    else
      (with_timers (ks_del (te_key task)) (listRemove (tw_tickedPos tw) l tw),
       [Executed (te_key task) (te_value task)])
  end.

(** [scanAndRunTasks] over the slot's elements as they are when the scan starts: a
    re-queued element goes to another slot, see [requeue_other_slot]. *)
Fixpoint scanAndRunTasks (ls : list loc) (tw : TimingWheel) : TimingWheel * list action :=
  match ls with
  | [] => (tw, [])
  | l :: ls =>
    let '(tw, out1) := scanTask l tw in
    let '(tw, out2) := scanAndRunTasks ls tw in
    (tw, out1 ++ out2)
  end.

(** [onTick] *)
Definition onTick (tw : TimingWheel) : TimingWheel * list action :=
  let pos := (tw_tickedPos tw + 1) mod tw_numSlots tw in
  let tw := mkWheel (tw_interval tw) (tw_slots tw) (tw_timers tw) pos
              (tw_numSlots tw) (tw_store tw) (tw_next tw) in
  scanAndRunTasks (default [] (tw_slots tw !! pos)) tw.

(** [drainAll]: every slot is emptied and every entry not marked removed goes to
    [fn]; the [timers] map is not touched. *)
Definition drainAll (tw : TimingWheel) : TimingWheel * list action :=
  (with_slots (fmap (fun _ => [])) tw,
   omap (fun l => match tw_store tw !! l with
         | Some task => if te_removed task then None
                        else Some (Drained (te_key task) (te_value task))
         | None => None
         end) (concat (tw_slots tw))).

(** ** The API and the goroutine *)

Inductive event :=
| EvTick
| EvSet (k : K) (v : V) (d : Z)
| EvRemove (k : K)
| EvMove (k : K) (d : Z)
| EvDrain.

(** The body of [run]'s loop for one received event *)
Definition run_event (ev : event) (tw : TimingWheel) : TimingWheel * list action :=
  match ev with
  | EvTick => onTick tw
  | EvSet k v d => setTask k v d tw
  | EvRemove k => (removeTask k tw, [])
  | EvMove k d => moveTask k d tw
  | EvDrain => drainAll tw
  end.

(** The methods' own checks, before they send an event: a [nil] key is [None]. The
    wheel is closed once [Stop] closed its channel; then nothing is received. *)
Definition SetTimer (closed : bool) (key : option K) (v : V) (d : Z) : tw_error + event :=
  match key with
  | None => inl ErrArgument
  | Some k => if (d <=? 0)%Z then inl ErrArgument
              else if closed then inl ErrClosed else inr (EvSet k v d)
  end.

Definition MoveTimer (closed : bool) (key : option K) (d : Z) : tw_error + event :=
  match key with
  | None => inl ErrArgument
  | Some k => if (d <=? 0)%Z then inl ErrArgument
              else if closed then inl ErrClosed else inr (EvMove k d)
  end.

Definition RemoveTimer (closed : bool) (key : option K) : tw_error + event :=
  match key with
  | None => inl ErrArgument
  | Some k => if closed then inl ErrClosed else inr (EvRemove k)
  end.

Definition Drain (closed : bool) : tw_error + event :=
  if closed then inl ErrClosed else inr EvDrain.

(** [run] over a sequence of events, with what each of them emitted. *)
Fixpoint run (evs : list event) (tw : TimingWheel) : TimingWheel * list (list action) :=
  match evs with
  | [] => (tw, [])
  | ev :: evs =>
    let '(tw, out) := run_event ev tw in
    let '(tw, outs) := run evs tw in
    (tw, out :: outs)
  end.

(** ** The invariant *)

Context `{!KeyedStoreLaws K positionEntry M}.

Definition in_slot (tw : TimingWheel) (l : loc) (p : nat) : Prop :=
  exists s, tw_slots tw !! p = Some s /\ l ∈ s.

(** The invariant, with the keys of [X] exempt from the agreement between slots and
    [timers] (while a handler is moving them). *)
Record tw_inv_ex (X : K -> Prop) (tw : TimingWheel) : Prop := {
  ti_int : (0 < tw_interval tw)%Z;
  ti_len : length (tw_slots tw) = tw_numSlots tw;
  ti_tick : tw_tickedPos tw < tw_numSlots tw;
  ti_ok : ks_ok (tw_timers tw);
  ti_fresh : forall l e, tw_store tw !! l = Some e -> l < tw_next tw;
  ti_slot : forall l p, in_slot tw l p -> is_Some (tw_store tw !! l);
  ti_nodup : forall p s, tw_slots tw !! p = Some s -> NoDup s;
  ti_uniq : forall l p p', in_slot tw l p -> in_slot tw l p' -> p = p';
  ti_live : forall l p e, in_slot tw l p -> tw_store tw !! l = Some e ->
    te_removed e = false ->
    ~ X (te_key e) /\ ks_get (te_key e) (tw_timers tw) = Some (mkPos p l) /\
    te_diff e < tw_numSlots tw;
  ti_timer : forall k pe, ks_get k (tw_timers tw) = Some pe -> ~ X k ->
    in_slot tw (pe_item pe) (pe_pos pe) /\
    exists e, tw_store tw !! pe_item pe = Some e /\ te_key e = k /\ te_removed e = false
}.

Definition tw_inv : TimingWheel -> Prop := tw_inv_ex (fun _ => False).

(** What the wheel knows of a key: its slot and its entry. *)
Definition timer_view (tw : TimingWheel) (k : K) : option (nat * timingEntry) :=
  pe ← ks_get k (tw_timers tw); e ← tw_store tw !! pe_item pe; Some (pe_pos pe, e).

Lemma in_slot_lt X tw l p : tw_inv_ex X tw -> in_slot tw l p -> p < tw_numSlots tw.
Proof.
  intros Hi (s & Hs & _). rewrite <- (ti_len _ _ Hi). by eapply lookup_lt_Some.
Qed.

Lemma in_slot_pushBack tw l p l' p' : p < length (tw_slots tw) ->
  in_slot (pushBack p l tw) l' p' <-> in_slot tw l' p' \/ (l' = l /\ p' = p).
Proof.
  intros Hp. unfold in_slot, pushBack, with_slots. simpl.
  destruct (lookup_lt_is_Some_2 _ _ Hp) as [s0 Hs0].
  destruct (decide (p = p')) as [<-|Hne].
  - rewrite list_lookup_alter_eq, Hs0. simpl. split.
    + intros (s & [= <-] & Hin). apply elem_of_app in Hin as [Hin|Hin].
      * left. eauto.
      * right. split; [|done]. by apply list_elem_of_singleton.
    + intros [(s & [= <-] & Hin)|[-> _]]; eexists; (split; [done|]);
        apply elem_of_app; [by left|right]. by apply list_elem_of_singleton.
  - rewrite list_lookup_alter_ne by done. naive_solver.
Qed.

Lemma in_slot_listRemove tw l p l' p' :
  in_slot (listRemove p l tw) l' p' <-> in_slot tw l' p' /\ ~ (l' = l /\ p' = p).
Proof.
  unfold in_slot, listRemove, with_slots. simpl.
  destruct (decide (p = p')) as [<-|Hne].
  - rewrite list_lookup_alter_eq. destruct (tw_slots tw !! p) as [s0|]; simpl.
    + split.
      * intros (s & [= <-] & Hin). apply list_elem_of_filter in Hin as [? ?]. naive_solver.
      * intros [(s & [= <-] & Hin) Hn]. eexists. split; [done|].
        apply list_elem_of_filter. naive_solver.
    + naive_solver.
  - rewrite list_lookup_alter_ne by done. naive_solver.
Qed.

(** [setTimerPosition] is the update of one key of the [timers] map. *)
Lemma setTimerPosition_get tw pos k l : ks_ok (tw_timers tw) ->
  ks_ok (tw_timers (setTimerPosition pos k l tw)) /\
  forall k', ks_get k' (tw_timers (setTimerPosition pos k l tw)) =
    if decide (k = k') then Some (mkPos pos l) else ks_get k' (tw_timers tw).
Proof.
  intros Hok. unfold setTimerPosition.
  destruct (ks_get k (tw_timers tw)) eqn:E; simpl.
  - split; [by apply ks_modify_ok|]. intros k'. rewrite ks_get_modify by done.
    case_decide; [subst; by rewrite E|done].
  - split; [by apply ks_set_ok|]. intros k'. by apply ks_get_set.
Qed.

Lemma setTimerPosition_fields tw pos k l :
  let tw' := setTimerPosition pos k l tw in
  tw_interval tw' = tw_interval tw /\ tw_slots tw' = tw_slots tw /\
  tw_tickedPos tw' = tw_tickedPos tw /\ tw_numSlots tw' = tw_numSlots tw /\
  tw_store tw' = tw_store tw /\ tw_next tw' = tw_next tw.
Proof. unfold setTimerPosition. by destruct (ks_get k (tw_timers tw)). Qed.

(** Overwriting an entry without changing its key or its removed flag. *)
Lemma inv_set_entry X tw l e e' :
  tw_inv_ex X tw -> tw_store tw !! l = Some e ->
  te_key e' = te_key e -> te_removed e' = te_removed e -> te_diff e' < tw_numSlots tw ->
  tw_inv_ex X (set_entry l e' tw).
Proof.
  intros [Hi1 Hi2 Hi3 Hi4 Hi5 Hi6 Hi7 Hi8 Hi9 Hi10] He Hk Hr Hd.
  split; try done; simpl.
  - intros l' e1. rewrite lookup_insert. case_decide; [subst; eauto|eauto].
  - intros l' p Hin. rewrite lookup_insert. case_decide; [done|eauto].
  - intros l' p e1 Hin. rewrite lookup_insert. case_decide as Hl; [|by eauto].
    intros [= <-] Hlive. subst l'. rewrite Hr in Hlive.
    destruct (Hi9 l p e Hin He Hlive) as (? & ? & ?). by rewrite Hk.
  - intros k pe Hg HX. destruct (Hi10 k pe Hg HX) as (Hin & e1 & Hs & Hke & Hlv).
    split; [done|]. rewrite lookup_insert. case_decide as Hl; [|by eauto].
    exists e'. split; [done|]. subst l. rewrite He in Hs. injection Hs as ->.
    by rewrite Hk, Hr.
Qed.

(** A key without a timer is exempt for free. *)
Lemma inv_but_none tw k : tw_inv tw -> ks_get k (tw_timers tw) = None ->
  tw_inv_ex (eq k) tw.
Proof.
  intros [Hi1 Hi2 Hi3 Hi4 Hi5 Hi6 Hi7 Hi8 Hi9 Hi10] Hk. split; try done.
  - intros l p e Hin He Hl. destruct (Hi9 l p e Hin He Hl) as (_ & Hg & ?).
    split; [|done]. intros ->. congruence.
  - intros k' pe Hg HX. apply Hi10; tauto.
Qed.

(** Marking the timer's entry as removed exempts its key. *)
Lemma inv_but_removed tw k pe item :
  tw_inv tw -> ks_get k (tw_timers tw) = Some pe -> tw_store tw !! pe_item pe = Some item ->
  tw_inv_ex (eq k) (set_entry (pe_item pe) (te_set_removed item) tw).
Proof.
  intros [Hi1 Hi2 Hi3 Hi4 Hi5 Hi6 Hi7 Hi8 Hi9 Hi10] Hk Hit.
  destruct (Hi10 k pe Hk) as (Hin & e0 & He0 & Hk0 & Hl0); [tauto|].
  rewrite Hit in He0. injection He0 as <-.
  split; try done; simpl.
  - intros l e1. rewrite lookup_insert. case_decide; [subst; eauto|eauto].
  - intros l p Hl. rewrite lookup_insert. case_decide; [done|eauto].
  - intros l p e1 Hl. rewrite lookup_insert. case_decide as Hd; [by intros [= <-]|].
    intros He1 Hlv. destruct (Hi9 l p e1 Hl He1 Hlv) as (_ & Hg & ?). split; [|done].
    intros Heq. rewrite <- Heq, Hk in Hg. injection Hg as ->. by apply Hd.
  - intros k' pe' Hg HX. destruct (Hi10 k' pe' Hg) as (Hin' & e1 & He1 & Hk1 & Hl1); [tauto|].
    split; [done|]. exists e1. rewrite lookup_insert_ne; [done|]. intros Heq.
    rewrite <- Heq, Hit in He1. injection He1 as <-. apply HX. congruence.
Qed.

(** Taking the entry of a key out of its slot exempts the key. *)
Lemma inv_but_unlinked tw l p e :
  tw_inv tw -> in_slot tw l p -> tw_store tw !! l = Some e -> te_removed e = false ->
  tw_inv_ex (eq (te_key e)) (listRemove p l tw) /\
  forall p', ~ in_slot (listRemove p l tw) l p'.
Proof.
  intros [Hi1 Hi2 Hi3 Hi4 Hi5 Hi6 Hi7 Hi8 Hi9 Hi10] Hin He Hlv.
  assert (Hno : forall p', ~ in_slot (listRemove p l tw) l p').
  { intros p' [Hp' Hn]%in_slot_listRemove. apply Hn. split; [done|]. eauto. }
  split; [|done]. split; try done; simpl.
  - by rewrite length_alter.
  - intros l' p' [? _]%in_slot_listRemove. eauto.
  - intros p' s Hs. destruct (decide (p = p')) as [<-|].
    + rewrite list_lookup_alter_eq in Hs. apply fmap_Some in Hs as (s' & Hs' & ->).
      apply NoDup_filter. eauto.
    + rewrite list_lookup_alter_ne in Hs by done. eauto.
  - intros l' p1 p2 [? _]%in_slot_listRemove [? _]%in_slot_listRemove. eauto.
  - intros l' p' e' [Hl' Hn]%in_slot_listRemove He' Hlv'.
    destruct (Hi9 l' p' e' Hl' He' Hlv') as (_ & Hg & ?). split; [|done]. intros Heq.
    destruct (Hi9 l p e Hin He Hlv) as (_ & Hg' & _). rewrite Heq, Hg in Hg'.
    injection Hg' as -> ->. by apply Hn.
  - intros k pe Hg HX. destruct (Hi10 k pe Hg) as (Hl & e1 & He1 & Hk1 & Hl1); [tauto|].
    split; [|eauto]. apply in_slot_listRemove. split; [done|]. intros [Heq _].
    rewrite Heq, He in He1. injection He1 as <-. by apply HX.
Qed.

(** Dropping an entry that is marked removed from its slot. *)
Lemma inv_drop_removed tw l p e :
  tw_inv tw -> tw_store tw !! l = Some e -> te_removed e = true ->
  tw_inv (listRemove p l tw).
Proof.
  intros [Hi1 Hi2 Hi3 Hi4 Hi5 Hi6 Hi7 Hi8 Hi9 Hi10] He Hr. split; try done; simpl.
  - by rewrite length_alter.
  - intros l' p' [? _]%in_slot_listRemove. eauto.
  - intros p' s Hs. destruct (decide (p = p')) as [<-|].
    + rewrite list_lookup_alter_eq in Hs. apply fmap_Some in Hs as (s' & Hs' & ->).
      apply NoDup_filter. eauto.
    + rewrite list_lookup_alter_ne in Hs by done. eauto.
  - intros l' p1 p2 [? _]%in_slot_listRemove [? _]%in_slot_listRemove. eauto.
  - intros l' p' e' [Hl' _]%in_slot_listRemove He' Hlv'. eauto.
  - intros k pe Hg HX. destruct (Hi10 k pe Hg) as (Hl & e1 & He1 & Hk1 & Hl1); [tauto|].
    split; [|eauto]. apply in_slot_listRemove. split; [done|]. intros [Heq _].
    rewrite Heq, He in He1. injection He1 as <-. congruence.
Qed.

(** Deleting the exempt key from [timers] restores the invariant. *)
Lemma inv_del X tw k :
  tw_inv_ex X tw -> (forall k', X k' <-> k = k') -> tw_inv (with_timers (ks_del k) tw).
Proof.
  intros [Hi1 Hi2 Hi3 Hi4 Hi5 Hi6 Hi7 Hi8 Hi9 Hi10] HX. split; try done; simpl.
  - by apply ks_del_ok.
  - intros l p e Hin He Hl. destruct (Hi9 l p e Hin He Hl) as (Hn & Hg & ?).
    rewrite ks_get_del by done. rewrite HX in Hn. rewrite decide_False by done. tauto.
  - intros k' pe Hg _. rewrite ks_get_del in Hg by done. case_decide as Hd; [done|].
    apply Hi10; [done|]. by rewrite HX.
Qed.

(** Linking an unlinked entry of the exempt key restores the invariant. *)
Lemma inv_attach tw tw' k l pos e :
  tw_inv_ex (eq k) tw -> pos < tw_numSlots tw -> (forall p, ~ in_slot tw l p) ->
  te_key e = k -> te_removed e = false -> te_diff e < tw_numSlots tw ->
  tw_interval tw' = tw_interval tw -> tw_tickedPos tw' = tw_tickedPos tw ->
  tw_numSlots tw' = tw_numSlots tw -> tw_slots tw' = tw_slots (pushBack pos l tw) ->
  tw_store tw' = <[l := e]> (tw_store tw) -> tw_next tw <= tw_next tw' -> l < tw_next tw' ->
  ks_ok (tw_timers tw') ->
  (forall k', ks_get k' (tw_timers tw') =
     if decide (k = k') then Some (mkPos pos l) else ks_get k' (tw_timers tw)) ->
  tw_inv tw'.
Proof.
  intros [Hi1 Hi2 Hi3 Hi4 Hi5 Hi6 Hi7 Hi8 Hi9 Hi10] Hpos Hno Hke Hrm Hdf
    Ein Eti Enu Esl Est Hn1 Hn2 Hok Hget.
  assert (Hin : forall l' p', in_slot tw' l' p' <-> in_slot tw l' p' \/ (l' = l /\ p' = pos)).
  { intros l' p'. rewrite <- in_slot_pushBack by (rewrite Hi2; done).
    unfold in_slot. by rewrite Esl. }
  split; rewrite ?Ein, ?Eti, ?Enu; try done.
  - rewrite Esl. simpl. by rewrite length_alter.
  - intros l' e1. rewrite Est, lookup_insert. case_decide; [subst; by intros|].
    intros He. specialize (Hi5 _ _ He). lia.
  - intros l' p'. rewrite Hin, Est, lookup_insert. case_decide; [done|].
    intros [?|[-> _]]; [eauto|done].
  - rewrite Esl. simpl. intros p s Hs. destruct (decide (pos = p)) as [<-|].
    + rewrite list_lookup_alter_eq in Hs. apply fmap_Some in Hs as (s' & Hs' & ->).
      apply NoDup_app. split; [eauto|]. split; [|apply NoDup_singleton].
      intros x Hx ->%list_elem_of_singleton. apply (Hno pos). by exists s'.
    + rewrite list_lookup_alter_ne in Hs by done. eauto.
  - intros l' p1 p2. rewrite !Hin.
    intros [?|[-> ->]] [?|[? ?]]; subst; eauto; exfalso; by eapply Hno.
  - intros l' p' e1. rewrite Hin, Est, lookup_insert, Hget.
    intros [Hl|[-> ->]] He Hlv.
    + rewrite decide_False in He by (intros ->; by eapply Hno).
      destruct (Hi9 l' p' e1 Hl He Hlv) as (? & ? & ?). rewrite decide_False by done. tauto.
    + rewrite decide_True in He by done. injection He as <-. rewrite decide_True by done. tauto.
  - intros k' pe. rewrite Hget, Est. case_decide as Hd.
    + intros [= <-] _. simpl. rewrite Hin, lookup_insert_eq. split; [by right|].
      exists e. naive_solver.
    + intros Hg _. destruct (Hi10 k' pe Hg Hd) as (Hl & e1 & He1 & ? & ?).
      rewrite Hin. split; [by left|]. exists e1. rewrite lookup_insert_ne; [done|].
      intros Heq. rewrite <- Heq in Hl. by eapply Hno.
Qed.

(** ** What an event does to the other keys *)

Definition same_clock (tw tw' : TimingWheel) : Prop :=
  tw_interval tw' = tw_interval tw /\ tw_tickedPos tw' = tw_tickedPos tw /\
  tw_numSlots tw' = tw_numSlots tw.

(** The values executed for a key. *)
Definition exec_of (k : K) (out : list action) : list V :=
  omap (fun a => match a with
        | Executed k' v => if decide (k' = k) then Some v else None
        | Drained _ _ => None
        end) out.

Lemma exec_of_app k out1 out2 : exec_of k (out1 ++ out2) = exec_of k out1 ++ exec_of k out2.
Proof. apply omap_app. Qed.

(** The entry of another key is stored elsewhere. *)
Lemma item_ne X tw l e k pe :
  tw_inv_ex X tw -> ~ X k -> ks_get k (tw_timers tw) = Some pe ->
  tw_store tw !! l = Some e -> te_key e <> k -> pe_item pe <> l.
Proof.
  intros Hi HX Hg He Hne Heq. destruct (ti_timer _ _ Hi k pe Hg HX) as (_ & e1 & He1 & Hk & _).
  rewrite Heq, He in He1. injection He1 as ->. done.
Qed.

Lemma view_set_entry X tw l e e' k :
  tw_inv_ex X tw -> ~ X k -> tw_store tw !! l = Some e -> te_key e <> k ->
  timer_view (set_entry l e' tw) k = timer_view tw k.
Proof.
  intros Hi HX He Hne. unfold timer_view. simpl.
  destruct (ks_get k (tw_timers tw)) as [pe|] eqn:Hg; [|done]. simpl.
  rewrite lookup_insert_ne; [done|]. intros ->. by eapply item_ne in He.
Qed.

Lemma view_attach X tw tw' k l pos e :
  tw_inv_ex X tw -> (forall k', k' <> k -> ~ X k') -> (forall p, ~ in_slot tw l p) ->
  tw_store tw' = <[l := e]> (tw_store tw) ->
  (forall k', ks_get k' (tw_timers tw') =
     if decide (k = k') then Some (mkPos pos l) else ks_get k' (tw_timers tw)) ->
  timer_view tw' k = Some (pos, e) /\
  forall k', k' <> k -> timer_view tw' k' = timer_view tw k'.
Proof.
  intros Hi HX Hno Est Hget. unfold timer_view. split.
  - rewrite Hget, decide_True by done. simpl. by rewrite Est, lookup_insert_eq.
  - intros k' Hne. rewrite Hget, decide_False by done.
    destruct (ks_get k' (tw_timers tw)) as [pe|] eqn:Hg; [|done]. simpl.
    rewrite Est, lookup_insert_ne; [done|]. intros ->.
    destruct (ti_timer _ _ Hi k' pe Hg) as (Hin & _); [by apply HX|]. by eapply Hno.
Qed.

Lemma view_Some tw k p e : tw_inv tw -> timer_view tw k = Some (p, e) ->
  exists l, ks_get k (tw_timers tw) = Some (mkPos p l) /\ tw_store tw !! l = Some e /\
    in_slot tw l p /\ te_key e = k /\ te_removed e = false /\ te_diff e < tw_numSlots tw.
Proof.
  intros Hi. unfold timer_view. destruct (ks_get k (tw_timers tw)) as [[p' l]|] eqn:Hg; [|done].
  simpl. destruct (tw_store tw !! l) as [e'|] eqn:He; [|done]. intros [= -> ->].
  destruct (ti_timer _ _ Hi k _ Hg) as (Hin & e1 & He1 & Hk & Hl); [tauto|]. simpl in *.
  rewrite He in He1. injection He1 as <-.
  destruct (ti_live _ _ Hi l p e Hin He Hl) as (_ & _ & Hd). eauto 10.
Qed.

Lemma view_None tw k : tw_inv tw -> timer_view tw k = None -> ks_get k (tw_timers tw) = None.
Proof.
  intros Hi. unfold timer_view. destruct (ks_get k (tw_timers tw)) as [pe|] eqn:Hg; [|done].
  destruct (ti_timer _ _ Hi k pe Hg) as (_ & e & He & _); [tauto|]. simpl. by rewrite He.
Qed.

(** Adding a freshly allocated entry for the exempt key. *)
Lemma insert_new_spec tw k v d circle pos :
  tw_inv_ex (eq k) tw -> pos < tw_numSlots tw ->
  let e := mkEntry d k v circle 0 false in
  let tw' := setTimerPosition pos k (tw_next tw) (pushBack pos (tw_next tw) (alloc e tw).2) in
  tw_inv tw' /\ same_clock tw tw' /\ timer_view tw' k = Some (pos, e) /\
  forall k', k' <> k -> timer_view tw' k' = timer_view tw k'.
Proof.
  intros Hi Hpos e tw'.
  assert (Hno : forall p, ~ in_slot tw (tw_next tw) p).
  { intros p Hin. destruct (ti_slot _ _ Hi _ _ Hin) as [e1 He1].
    apply (ti_fresh _ _ Hi) in He1. lia. }
  destruct (setTimerPosition_fields (pushBack pos (tw_next tw) (alloc e tw).2) pos k (tw_next tw))
    as (E1 & E2 & E3 & E4 & E5 & E6). fold tw' in E1, E2, E3, E4, E5, E6.
  destruct (setTimerPosition_get (pushBack pos (tw_next tw) (alloc e tw).2) pos k (tw_next tw))
    as [Hok Hget]; [apply (ti_ok _ _ Hi)|]. fold tw' in Hok, Hget. simpl in Hget.
  assert (Hlen : 0 < tw_numSlots tw) by (pose proof (ti_tick _ _ Hi); lia).
  split; [|split; [done|]].
  - apply (inv_attach tw tw' k (tw_next tw) pos e); try done; rewrite E6; simpl; lia.
  - apply (view_attach (eq k) tw tw' k (tw_next tw) pos e); done.
Qed.

(** The slots of a delay *)
Lemma getPos_lt tw d : tw_inv tw -> (getPositionAndCircle tw d).1 < tw_numSlots tw.
Proof.
  intros Hi. unfold getPositionAndCircle. simpl. apply Nat.mod_upper_bound. pose proof (ti_tick _ _ Hi). lia.
Qed.

(** [moveTask] in general: the key's entry is replaced, nothing else changes. *)
Lemma moveTask_spec tw k d : tw_inv tw ->
  let '(tw', out) := moveTask k d tw in
  tw_inv tw' /\ same_clock tw tw' /\
  (forall k', k' <> k -> timer_view tw' k' = timer_view tw k' /\ exec_of k' out = []) /\
  match timer_view tw k with
  | None => tw' = tw /\ out = []
  | Some (p, e) =>
    if (d <? tw_interval tw)%Z then tw' = tw /\ out = [Executed k (te_value e)]
    else
      let '(pos, circle) := getPositionAndCircle tw d in
      out = [] /\ exists d',
      timer_view tw' k = Some
        (if p <=? pos then (p, te_set_pos circle (pos - p) e)
         else if 0 <? circle then (p, te_set_pos (circle - 1) (tw_numSlots tw + pos - p) e)
         else (pos, mkEntry d' k (te_value e) 0 0 false))
  end.
Proof.
  intros Hi. unfold moveTask. destruct (timer_view tw k) as [[p e]|] eqn:Hv.
  2: { rewrite (view_None _ _ Hi Hv). done. }
  destruct (view_Some _ _ _ _ Hi Hv) as (l & Hg & He & Hin & Hk & Hl & Hdf).
  rewrite Hg. cbn [pe_item pe_pos]. rewrite He.
  destruct (d <? tw_interval tw)%Z.
  { subst k. split; [done|]. split; [done|]. split; [|done]. intros k' Hne.
    split; [done|]. simpl. by rewrite decide_False. }
  pose proof (getPos_lt tw d Hi) as Hpos.
  destruct (getPositionAndCircle tw d) as [pos circle]. simpl in Hpos.
  assert (Hp : p < tw_numSlots tw) by (eapply in_slot_lt; eauto).
  assert (Hse : forall c df, df < tw_numSlots tw ->
     let tw' := set_entry l (te_set_pos c df e) tw in
     tw_inv tw' /\ same_clock tw tw' /\
     (forall k', k' <> k -> timer_view tw' k' = timer_view tw k' /\ exec_of k' [] = []) /\
     timer_view tw' k = Some (p, te_set_pos c df e)).
  { intros c df Hdf'. split; [eapply inv_set_entry; eauto|]. split; [done|]. split.
    - intros k' Hne. split; [|done]. eapply view_set_entry; eauto. congruence.
    - unfold timer_view. simpl. rewrite Hg. simpl. by rewrite lookup_insert_eq. }
  destruct (Nat.leb_spec p pos).
  { destruct (Hse circle (pos - p)) as (? & ? & ? & ?); [lia|].
    do 4 (split; [done|]). by exists d. }
  destruct (Nat.ltb_spec 0 circle).
  { destruct (Hse (circle - 1) (tw_numSlots tw + pos - p)) as (? & ? & ? & ?); [lia|].
    do 4 (split; [done|]). by exists d. }
  pose proof (inv_but_removed tw k (mkPos p l) e Hi Hg He) as Hb. simpl in Hb.
  destruct (insert_new_spec _ k (te_value e) d 0 pos Hb Hpos) as (? & ? & ? & Hoth).
  simpl in *. split; [done|]. split; [done|]. split; [|eauto].
  intros k' Hne. split; [|done]. rewrite Hoth by done.
  eapply view_set_entry; eauto. congruence.
Qed.

Lemma setTask_fresh_spec tw k v d : tw_inv tw -> ks_get k (tw_timers tw) = None ->
  let d := if (d <? tw_interval tw)%Z then tw_interval tw else d in
  let '(tw', out) := setTask k v d tw in
  tw_inv tw' /\ same_clock tw tw' /\ out = [] /\
  timer_view tw' k = Some ((getPositionAndCircle tw d).1,
                           mkEntry d k v (getPositionAndCircle tw d).2 0 false) /\
  forall k', k' <> k -> timer_view tw' k' = timer_view tw k'.
Proof.
  intros Hi Hg d'. unfold setTask. rewrite Hg.
  replace (if (d' <? tw_interval tw)%Z then tw_interval tw else d') with d'
    by (subst d'; destruct (Z.ltb_spec d (tw_interval tw));
        [by rewrite Z.ltb_irrefl|destruct (Z.ltb_spec d (tw_interval tw)); [lia|done]]).
  pose proof (getPos_lt tw d' Hi) as Hpos.
  destruct (getPositionAndCircle tw d') as [pos circle]. simpl in Hpos.
  destruct (insert_new_spec tw k v d' circle pos) as (? & ? & ? & ?); try done.
  by apply inv_but_none.
Qed.

Lemma setTask_other tw k v d k' : tw_inv tw -> k' <> k ->
  let '(tw', out) := setTask k v d tw in
  tw_inv tw' /\ same_clock tw tw' /\ timer_view tw' k' = timer_view tw k' /\ exec_of k' out = [].
Proof.
  intros Hi Hne. destruct (timer_view tw k) as [[p e]|] eqn:Hv.
  - destruct (view_Some _ _ _ _ Hi Hv) as (l & Hg & He & Hin & Hk & Hl & Hdf).
    unfold setTask. rewrite Hg. cbn [pe_item pe_pos]. rewrite He.
    set (tw1 := set_entry l (te_set_value v e) tw).
    assert (Hi1 : tw_inv tw1) by (eapply inv_set_entry; eauto).
    pose proof (moveTask_spec tw1 k
      (if (d <? tw_interval tw)%Z then tw_interval tw else d) Hi1) as Hm.
    destruct (moveTask k _ tw1) as [tw' out]. destruct Hm as (? & ? & Hoth & _).
    destruct (Hoth k' Hne) as [-> ->]. split; [done|]. split; [done|]. split; [|done].
    eapply view_set_entry; eauto. congruence.
  - apply view_None in Hv; [|done].
    pose proof (setTask_fresh_spec tw k v d Hi Hv) as Hs. cbn zeta in Hs.
    assert (E : setTask k v (if (d <? tw_interval tw)%Z then tw_interval tw else d) tw
              = setTask k v d tw).
    { unfold setTask. destruct (Z.ltb_spec d (tw_interval tw)); [by rewrite Z.ltb_irrefl|].
      destruct (Z.ltb_spec d (tw_interval tw)); [lia|done]. }
    rewrite E in Hs. destruct (setTask k v d tw) as [tw' out].
    destruct Hs as (? & ? & -> & _ & Ho). split; [done|]. split; [done|]. split; [|done]. by apply Ho.
Qed.

Lemma removeTask_spec tw k : tw_inv tw ->
  tw_inv (removeTask k tw) /\ same_clock tw (removeTask k tw) /\
  timer_view (removeTask k tw) k = None /\
  forall k', k' <> k -> timer_view (removeTask k tw) k' = timer_view tw k'.
Proof.
  intros Hi. unfold removeTask. destruct (timer_view tw k) as [[p e]|] eqn:Hv.
  2: { rewrite (view_None _ _ Hi Hv). done. }
  destruct (view_Some _ _ _ _ Hi Hv) as (l & Hg & He & Hin & Hk & Hl & Hdf).
  rewrite Hg. cbn [pe_item pe_pos]. rewrite He.
  pose proof (inv_but_removed tw k (mkPos p l) e Hi Hg He) as Hb. simpl in Hb.
  assert (Hok : ks_ok (tw_timers tw)) by apply Hi.
  split; [by eapply inv_del|]. split; [done|]. unfold timer_view. simpl. split.
  - rewrite ks_get_del by done. by rewrite decide_True.
  - intros k' Hne. rewrite ks_get_del by done. rewrite decide_False by done.
    apply (view_set_entry _ tw l e (te_set_removed e) k' Hi); [tauto|done|congruence].
Qed.

(** ** Ticks *)

(** What one scan makes of the timer of a key that sits in the scanned slot. *)
Definition advance (tw : TimingWheel) (e : timingEntry) : option (nat * timingEntry) :=
  if 0 <? te_circle e then
    Some (tw_tickedPos tw, te_set_pos (te_circle e - 1) (te_diff e) e)
  else if 0 <? te_diff e then
    Some ((tw_tickedPos tw + te_diff e) mod tw_numSlots tw, te_set_pos (te_circle e) 0 e)
  else None.

Definition fired (e : timingEntry) : list V :=
  if 0 <? te_circle e then [] else if 0 <? te_diff e then [] else [te_value e].

(** A re-queued entry goes to a slot other than the one being scanned: the loop of
    [scanAndRunTasks] never meets an element it has pushed itself. *)
Lemma requeue_other_slot tw (diff : nat) :
  tw_inv tw -> 0 < diff < tw_numSlots tw ->
  (tw_tickedPos tw + diff) mod tw_numSlots tw <> tw_tickedPos tw.
Proof.
  intros Hi Hd Heq. pose proof (ti_tick _ _ Hi).
  assert (tw_tickedPos tw = tw_tickedPos tw + diff); [|lia].
  apply (mod_inj_window _ _ (tw_numSlots tw)); try lia.
  rewrite Heq, Nat.mod_small; done.
Qed.

(** What scanning the entry at [l] does: it keeps the invariant, the clock and the other
    entries of the slot, advances the timer of the entry's key and fires it when it is due,
    and leaves the timers of the other keys alone. *)
Definition scan_post (tw : TimingWheel) (l : loc) (tw' : TimingWheel) (out : list action) : Prop :=
  tw_inv tw' /\ same_clock tw tw' /\
  (forall l', l' <> l -> in_slot tw l' (tw_tickedPos tw) -> in_slot tw' l' (tw_tickedPos tw)) /\
  (forall k p e, ks_get k (tw_timers tw) = Some (mkPos p l) -> tw_store tw !! l = Some e ->
    timer_view tw' k = advance tw e /\ exec_of k out = fired e /\
    (forall pe, ks_get k (tw_timers tw') = Some pe -> pe_item pe = l)) /\
  (forall k, (forall p, ks_get k (tw_timers tw) <> Some (mkPos p l)) ->
    timer_view tw' k = timer_view tw k /\ exec_of k out = [] /\
    ks_get k (tw_timers tw') = ks_get k (tw_timers tw)).

(** The timer that owns an entry of the current slot. *)
Lemma slot_owner tw l e k p : tw_inv tw -> in_slot tw l (tw_tickedPos tw) -> tw_store tw !! l = Some e ->
  ks_get k (tw_timers tw) = Some (mkPos p l) ->
  te_key e = k /\ te_removed e = false /\ p = tw_tickedPos tw.
Proof.
  intros Hi Hin He Hg. destruct (ti_timer _ _ Hi k _ Hg) as (Hl & e1 & He1 & Hk & Hlv); [tauto|].
  simpl in *. rewrite He in He1. injection He1 as <-. split; [done|]. split; [done|].
  by eapply ti_uniq.
Qed.

(** A moved timer that is not due yet goes to the slot it was moved to. *)
Lemma scan_moves_on tw l e : tw_inv tw -> in_slot tw l (tw_tickedPos tw) -> tw_store tw !! l = Some e ->
  te_removed e = false -> (0 <? te_circle e) = false -> (0 <? te_diff e) = true ->
  let twr := listRemove (tw_tickedPos tw) l tw in
  let pos := (tw_tickedPos twr + te_diff e) mod tw_numSlots twr in
  scan_post tw l
    (set_entry l (te_set_pos (te_circle e) 0 e) (setTimerPosition pos (te_key e) l (pushBack pos l twr))) [].
Proof.
  intros Hi Hin He Hr Hc Hd twr pos. pose proof (slot_owner tw l e) as Hown.
  destruct (ti_live _ _ Hi l _ e Hin He Hr) as (_ & Hg & Hdf). unfold scan_post, advance, fired.
  destruct (inv_but_unlinked tw l _ e Hi Hin He Hr) as [Hb Hno].
  apply Nat.ltb_lt in Hd.
  assert (Hpos : pos < tw_numSlots tw) by (apply Nat.mod_upper_bound; lia).
  destruct (setTimerPosition_fields (pushBack pos l twr) pos (te_key e) l)
    as (E1 & E2 & E3 & E4 & E5 & E6).
  destruct (setTimerPosition_get (pushBack pos l twr) pos (te_key e) l) as [Hok Hget];
    [apply (ti_ok _ _ Hi)|].
  set (tws := setTimerPosition pos (te_key e) l (pushBack pos l twr)) in *.
  set (tw' := set_entry l (te_set_pos (te_circle e) 0 e) tws).
  assert (Hst : tw_store tw' = <[l := te_set_pos (te_circle e) 0 e]> (tw_store twr)).
  { subst tw'. simpl. by rewrite E5. }
  assert (Hi' : tw_inv tw').
  { apply (inv_attach twr tw' (te_key e) l pos (te_set_pos (te_circle e) 0 e));
      subst tw'; simpl; rewrite ?E6; try done; simpl; try lia.
    apply (ti_fresh _ _ Hi l e He). }
  destruct (view_attach _ twr tw' (te_key e) l pos (te_set_pos (te_circle e) 0 e) Hb)
    as [Hv Hoth]; try done.
  split; [done|]. split; [done|]. split.
  { intros l' Hne Hl'. unfold in_slot. subst tw'. cbn [tw_slots set_entry]. rewrite E2.
    apply (in_slot_pushBack twr l pos l'); [subst twr; simpl; rewrite length_alter,
      (ti_len _ _ Hi); done|]. left. apply in_slot_listRemove. naive_solver. }
  split.
  - intros k p e' Hg' He'. rewrite He in He'. injection He' as <-. rewrite Hc.
    destruct (Hown _ _ Hi Hin He Hg') as (<- & _ & ->).
    destruct (Nat.ltb_spec 0 (te_diff e)); [|lia].
    split; [done|]. split; [done|]. intros pe Hpe.
    subst tw'. simpl in Hpe. rewrite Hget, decide_True in Hpe by done. by injection Hpe as <-.
  - intros k Hk. assert (te_key e <> k) by (intros <-; by eapply Hk).
    split; [by rewrite Hoth|]. split; [done|].
    subst tw'. simpl. rewrite Hget, decide_False by done. done.
Qed.

(** A timer that is due is executed and forgotten. *)
Lemma scan_executes tw l e : tw_inv tw -> in_slot tw l (tw_tickedPos tw) -> tw_store tw !! l = Some e ->
  te_removed e = false -> (0 <? te_circle e) = false -> (0 <? te_diff e) = false ->
  scan_post tw l (with_timers (ks_del (te_key e)) (listRemove (tw_tickedPos tw) l tw))
    [Executed (te_key e) (te_value e)].
Proof.
  intros Hi Hin He Hr Hc Hd. pose proof (slot_owner tw l e) as Hown.
  destruct (ti_live _ _ Hi l _ e Hin He Hr) as (_ & Hg & Hdf). unfold scan_post, advance, fired.
  destruct (inv_but_unlinked tw l _ e Hi Hin He Hr) as [Hb Hno].
  assert (Hok : ks_ok (tw_timers tw)) by apply Hi.
  split; [by eapply inv_del|]. split; [done|]. split.
  { intros l' Hne Hl'. apply (in_slot_listRemove tw l). naive_solver. }
  split.
  - intros k p e' Hg' He'. rewrite He in He'. injection He' as <-. rewrite Hc, Hd.
    destruct (Hown _ _ Hi Hin He Hg') as (<- & _ & ->).
    unfold timer_view. simpl. rewrite ks_get_del by done. rewrite !decide_True by done. done.
  - intros k Hk. assert (te_key e <> k) by (intros <-; by eapply Hk).
    unfold timer_view. simpl. rewrite ks_get_del by done. by rewrite !decide_False.
Qed.

Lemma scanTask_spec tw l : tw_inv tw -> in_slot tw l (tw_tickedPos tw) ->
  let '(tw', out) := scanTask l tw in scan_post tw l tw' out.
Proof.
  intros Hi Hin. unfold scanTask.
  destruct (ti_slot _ _ Hi _ _ Hin) as [e He]. rewrite He.
  pose proof (slot_owner tw l e) as Hown.
  destruct (te_removed e) eqn:Hr.
  { split; [by eapply inv_drop_removed|]. split; [done|]. split.
    - intros l' Hne Hl'. apply in_slot_listRemove. naive_solver.
    - split; [|done]. intros k p e' Hg. apply Hown in Hg; [|done..]. naive_solver. }
  destruct (0 <? te_circle e) eqn:Hc.
  { destruct (ti_live _ _ Hi l _ e Hin He Hr) as (_ & Hg & Hdf). unfold scan_post, advance, fired.
    split; [by eapply inv_set_entry|]. split; [done|]. split; [done|]. split.
    - intros k p e' Hg' He'. rewrite He in He'. injection He' as <-. rewrite Hc.
      destruct (Hown _ _ Hi Hin He Hg') as (<- & _ & ->).
      unfold timer_view. simpl. rewrite Hg. simpl. rewrite lookup_insert_eq.
      split_and!; try done. by intros pe [= <-].
    - intros k Hk. split; [|done]. eapply view_set_entry; try done; [tauto|].
      intros <-. by eapply Hk. }
  destruct (0 <? te_diff e) eqn:Hd; [by apply scan_moves_on|by apply scan_executes].
Qed.

Lemma same_clock_trans tw1 tw2 tw3 : same_clock tw1 tw2 -> same_clock tw2 tw3 -> same_clock tw1 tw3.
Proof. unfold same_clock. intuition congruence. Qed.

(** A whole scan, seen from one key. *)
Lemma scan_spec k ls : forall tw, tw_inv tw -> NoDup ls ->
  Forall (fun l => in_slot tw l (tw_tickedPos tw)) ls ->
  let '(tw', out) := scanAndRunTasks ls tw in
  tw_inv tw' /\ same_clock tw tw' /\
  (timer_view tw k = None -> timer_view tw' k = None /\ exec_of k out = []) /\
  (forall p l e, ks_get k (tw_timers tw) = Some (mkPos p l) -> tw_store tw !! l = Some e ->
    if decide (l ∈ ls) then timer_view tw' k = advance tw e /\ exec_of k out = fired e
    else timer_view tw' k = timer_view tw k /\ exec_of k out = []).
Proof.
  induction ls as [|l ls IH]; intros tw Hi Hnd Hall; cbn [scanAndRunTasks].
  { split; [done|]. split; [done|]. split; [done|]. intros p l e _ _.
    by rewrite decide_False by set_solver. }
  apply NoDup_cons in Hnd as [Hnl Hnd]. apply Forall_cons in Hall as [Hl Hall].
  pose proof (scanTask_spec tw l Hi Hl) as Hs.
  destruct (scanTask l tw) as [tw1 out1]. destruct Hs as (Hi1 & Hc1 & Hin1 & Hown & Hoth).
  specialize (IH tw1 Hi1 Hnd).
  destruct (scanAndRunTasks ls tw1) as [tw2 out2].
  destruct IH as (Hi2 & Hc2 & Hnone & Hsome).
  { rewrite Forall_forall in Hall |- *. intros l' Hl'. destruct Hc1 as (_ & -> & _).
    apply Hin1; [set_solver|by apply Hall]. }
  split; [done|]. split; [by eapply same_clock_trans|]. rewrite exec_of_app. split.
  - intros Hv. destruct (Hoth k) as (E1 & E2 & E3).
    { intros p Hg. by rewrite (view_None _ _ Hi Hv) in Hg. }
    destruct Hnone as [-> ->]; [congruence|]. by rewrite E2.
  - intros p l' e Hg He. destruct (decide (l' = l)) as [->|Hne].
    + destruct (Hown k p e Hg He) as (E1 & E2 & E3).
      rewrite decide_True by set_solver. rewrite E2, <- E1.
      destruct (timer_view tw1 k) as [[p1 e1]|] eqn:Hv1.
      * destruct (view_Some _ _ _ _ Hi1 Hv1) as (l1 & Hg1 & He1 & _).
        specialize (E3 _ Hg1). simpl in E3. subst l1.
        specialize (Hsome p1 l e1 Hg1 He1). rewrite decide_False in Hsome by done.
        destruct Hsome as [-> ->]. by rewrite app_nil_r.
      * destruct Hnone as [-> ->]; [done|]. by rewrite app_nil_r.
    + destruct (Hoth k) as (E1 & E2 & E3); [intros q Hq; congruence|].
      rewrite <- E3 in Hg. rewrite E2. simpl.
      assert (He1 : tw_store tw1 !! l' = Some e).
      { unfold timer_view in E1. rewrite <- E3, Hg in E1. simpl in E1. rewrite He in E1.
        simpl in E1. by destruct (tw_store tw1 !! l'); simplify_eq/=. }
      specialize (Hsome p l' e Hg He1).
      destruct Hc1 as (_ & T1 & N1).
      assert (Ea : advance tw1 e = advance tw e) by (unfold advance; by rewrite T1, N1).
      destruct (decide (l' ∈ ls)).
      * rewrite decide_True by set_solver. by rewrite <- Ea.
      * rewrite decide_False by set_solver. by rewrite <- E1.
Qed.

(** The number of ticks until slot [p] is scanned, from position [t]. *)
Definition dist (n t p : nat) : nat := (p + n - t - 1) mod n + 1.

(** The number of ticks after which an entry in slot [p] fires. *)
Definition due (tw : TimingWheel) (p : nat) (e : timingEntry) : nat :=
  dist (tw_numSlots tw) (tw_tickedPos tw) p + te_circle e * tw_numSlots tw + te_diff e.

Lemma dist_cases n t p : p < n -> t < n -> dist n t p = if t <? p then p - t else p + n - t.
Proof.
  intros Hp Ht. unfold dist. destruct (Nat.ltb_spec t p).
  - rewrite (mod_unique_nat _ n 1 (p - t - 1)); lia.
  - rewrite Nat.mod_small; lia.
Qed.

Lemma mod_cases n a : a < 2 * n -> a mod n = if a <? n then a else a - n.
Proof.
  intros Ha. destruct (Nat.ltb_spec a n); [by apply Nat.mod_small|].
  apply (mod_unique_nat _ n 1); lia.
Qed.

Ltac dist_tac :=
  intros; repeat (rewrite dist_cases in * by (done || (apply Nat.mod_upper_bound; lia)));
  repeat (rewrite mod_cases in * by lia);
  repeat match goal with
  | |- context [?a <? ?b] => destruct (Nat.ltb_spec a b)
  | H : context [?a <? ?b] |- _ => destruct (Nat.ltb_spec a b)
  end; lia.

Lemma dist_tick_other n t p : p < n -> t < n -> p <> (t + 1) mod n ->
  dist n t p = dist n ((t + 1) mod n) p + 1.
Proof. dist_tac. Qed.

Lemma dist_tick_here n t : t < n -> dist n t ((t + 1) mod n) = 1.
Proof. dist_tac. Qed.

Lemma dist_self n t : t < n -> dist n t t = n.
Proof. dist_tac. Qed.

Lemma dist_requeue n t d : t < n -> 0 < d < n -> dist n t ((t + d) mod n) = d.
Proof. dist_tac. Qed.

(** One tick, seen from one key: the timer fires exactly when it is due in one tick,
    and otherwise is one tick nearer. *)
Lemma onTick_spec tw k : tw_inv tw ->
  let '(tw', out) := onTick tw in
  tw_inv tw' /\ tw_interval tw' = tw_interval tw /\ tw_numSlots tw' = tw_numSlots tw /\
  match timer_view tw k with
  | None => timer_view tw' k = None /\ exec_of k out = []
  | Some (p, e) =>
    if due tw p e =? 1 then timer_view tw' k = None /\ exec_of k out = [te_value e]
    else exists p' e', timer_view tw' k = Some (p', e') /\ te_value e' = te_value e /\
         due tw' p' e' + 1 = due tw p e /\ exec_of k out = []
  end.
Proof.
  intros Hi. unfold onTick.
  set (t' := (tw_tickedPos tw + 1) mod tw_numSlots tw).
  set (tw1 := mkWheel _ _ _ t' _ _ _).
  pose proof (ti_tick _ _ Hi) as Ht.
  assert (Ht' : t' < tw_numSlots tw) by (apply Nat.mod_upper_bound; lia).
  assert (Hi1 : tw_inv tw1) by (by destruct Hi).
  set (ls := default [] (tw_slots tw1 !! t')).
  assert (Hls : tw_slots tw !! t' = Some ls).
  { subst ls tw1. simpl. destruct (lookup_lt_is_Some_2 (tw_slots tw) t') as [s Hs];
      [by rewrite (ti_len _ _ Hi)|]. by rewrite Hs. }
  pose proof (scan_spec k ls tw1 Hi1) as Hscan.
  destruct (scanAndRunTasks ls tw1) as [tw' out].
  destruct Hscan as (Hi' & (C1 & C2 & C3) & Hnone & Hsome).
  { by apply (ti_nodup _ _ Hi t'). }
  { apply Forall_forall. intros l Hl. by exists ls. }
  simpl in C1, C2, C3. split; [done|]. split; [done|]. split; [done|].
  destruct (timer_view tw k) as [[p e]|] eqn:Hv; [|by apply Hnone].
  destruct (view_Some _ _ _ _ Hi Hv) as (l & Hg & He & Hin & Hk & Hr & Hdf).
  assert (Hp : p < tw_numSlots tw) by (eapply in_slot_lt; eauto).
  assert (Hmem : l ∈ ls <-> p = t').
  { split.
    - intros Hl. eapply (ti_uniq _ _ Hi); [done|by exists ls].
    - intros ->. destruct Hin as (s & Hs & ?). rewrite Hls in Hs. by injection Hs as ->. }
  specialize (Hsome p l e Hg He). unfold due. rewrite C2, C3.
  destruct (decide (l ∈ ls)) as [Hl|Hl].
  - destruct Hsome as [-> ->]. apply Hmem in Hl. subst p. unfold advance, fired.
    pose proof (dist_tick_here (tw_numSlots tw) (tw_tickedPos tw) Ht) as Hone.
    fold t' in Hone. rewrite Hone.
    destruct (Nat.ltb_spec 0 (te_circle e)) as [Hc|Hc];
      [|destruct (Nat.ltb_spec 0 (te_diff e)) as [Hd|Hd]].
    + rewrite (proj2 (Nat.eqb_neq _ 1)) by nia.
      do 2 eexists. split; [done|]. split; [done|]. split; [|done]. simpl.
      rewrite dist_self by done. nia.
    + rewrite (proj2 (Nat.eqb_neq _ 1)) by nia.
      do 2 eexists. split; [done|]. split; [done|]. split; [|done]. simpl.
      rewrite dist_requeue by done. lia.
    + by rewrite (proj2 (Nat.eqb_eq _ 1)) by nia.
  - destruct Hsome as [E1 ->]. change (timer_view tw1 k) with (timer_view tw k) in E1.
    rewrite Hv in E1.
    assert (Ed : dist (tw_numSlots tw) (tw_tickedPos tw) p = dist (tw_numSlots tw) t' p + 1)
      by (apply dist_tick_other; [done|done|by intros ->; apply Hl, Hmem]).
    rewrite (proj2 (Nat.eqb_neq _ 1)) by (unfold dist in Ed |- *; lia).
    exists p, e. split; [done|]. split; [done|]. split; [lia|done].
Qed.

(** ** Events that leave a key alone *)

(** The event is a tick or about another key. *)
Definition quiet (k : K) (ev : event) : Prop :=
  match ev with
  | EvTick => True
  | EvSet k' _ _ | EvRemove k' | EvMove k' _ => k' <> k
  | EvDrain => False
  end.

Definition is_tick (ev : event) : bool := match ev with EvTick => true | _ => false end.

Lemma quiet_event_spec tw k ev : tw_inv tw -> quiet k ev -> is_tick ev = false ->
  let '(tw', out) := run_event ev tw in
  tw_inv tw' /\ same_clock tw tw' /\ timer_view tw' k = timer_view tw k /\ exec_of k out = [].
Proof.
  intros Hi Hq Ht. destruct ev as [|k' v d|k'|k' d|]; simpl in *; try done.
  - apply setTask_other; [done|congruence].
  - destruct (removeTask_spec tw k' Hi) as (? & ? & _ & Ho).
    split_and!; try done. apply Ho. congruence.
  - pose proof (moveTask_spec tw k' d Hi) as Hm. destruct (moveTask k' d tw) as [tw' out].
    destruct Hm as (? & ? & Ho & _). destruct (Ho k) as [? ?]; [congruence|]. done.
Qed.

(** What a timer with value [v], due in [n] ticks, should execute at each event. *)
Fixpoint expected (n : nat) (v : V) (evs : list event) : list (list V) :=
  match evs with
  | [] => []
  | ev :: evs =>
    if is_tick ev then (if n =? 1 then [v] else []) :: expected (n - 1) v evs
    else [] :: expected n v evs
  end.

Lemma run_quiet_none k evs : forall tw, tw_inv tw -> Forall (quiet k) evs ->
  timer_view tw k = None -> exec_of k <$> (run evs tw).2 = replicate (length evs) [].
Proof.
  induction evs as [|ev evs IH]; intros tw Hi Hq Hv; [done|].
  apply Forall_cons in Hq as [Hq Hqs]. simpl.
  destruct (is_tick ev) eqn:Et.
  - destruct ev; try done. simpl. pose proof (onTick_spec tw k Hi) as Ht. rewrite Hv in Ht.
    destruct (onTick tw) as [tw1 out]. destruct Ht as (Hi1 & _ & _ & Hv1 & E).
    specialize (IH tw1 Hi1 Hqs Hv1). destruct (run evs tw1) as [tw2 outs]. cbn [snd length replicate] in *.
    by rewrite fmap_cons, E, IH.
  - pose proof (quiet_event_spec tw k ev Hi Hq Et) as Hs.
    destruct (run_event ev tw) as [tw1 out]. destruct Hs as (Hi1 & _ & Hv1 & E).
    rewrite Hv in Hv1. specialize (IH tw1 Hi1 Hqs Hv1).
    destruct (run evs tw1) as [tw2 outs]. cbn [snd length replicate] in *.
    by rewrite fmap_cons, E, IH.
Qed.

Lemma expected_0 v evs : expected 0 v evs = replicate (length evs) [].
Proof. induction evs as [|ev evs IH]; simpl; [done|]. destruct (is_tick ev); by rewrite IH. Qed.

Lemma run_quiet_due k evs : forall tw p e, tw_inv tw -> Forall (quiet k) evs ->
  timer_view tw k = Some (p, e) ->
  exec_of k <$> (run evs tw).2 = expected (due tw p e) (te_value e) evs.
Proof.
  induction evs as [|ev evs IH]; intros tw p e Hi Hq Hv; [done|].
  apply Forall_cons in Hq as [Hq Hqs]. cbn [run expected].
  destruct (is_tick ev) eqn:Et.
  - destruct ev; try done. simpl. pose proof (onTick_spec tw k Hi) as Ht. rewrite Hv in Ht.
    destruct (onTick tw) as [tw1 out]. destruct Ht as (Hi1 & _ & _ & Ht).
    destruct (Nat.eqb_spec (due tw p e) 1) as [Hd|Hd].
    + destruct Ht as [Hv1 E]. pose proof (run_quiet_none k evs tw1 Hi1 Hqs Hv1) as Hr.
      destruct (run evs tw1) as [tw2 outs]. cbn [snd] in *.
      rewrite fmap_cons, E, Hr, Hd.
      by rewrite Nat.sub_diag, expected_0.
    + destruct Ht as (p1 & e1 & Hv1 & Hval & Hdue & E).
      specialize (IH tw1 p1 e1 Hi1 Hqs Hv1). destruct (run evs tw1) as [tw2 outs]. cbn [snd] in *.
      rewrite fmap_cons, E, IH, Hval. by replace (due tw p e - 1) with (due tw1 p1 e1) by lia.
  - pose proof (quiet_event_spec tw k ev Hi Hq Et) as Hs.
    destruct (run_event ev tw) as [tw1 out]. destruct Hs as (Hi1 & (C1 & C2 & C3) & Hv1 & E).
    rewrite Hv in Hv1. specialize (IH tw1 p e Hi1 Hqs Hv1).
    destruct (run evs tw1) as [tw2 outs]. cbn [snd] in *. rewrite fmap_cons, E, IH.
    unfold due. by rewrite C2, C3.
Qed.

(** ** The theorems *)

(** The delay in whole ticks: at least one. *)
Definition ticks_of (interval d : Z) : nat := Z.to_nat (Z.quot (Z.max d interval) interval).

Lemma ticks_of_pos interval d : (0 < interval)%Z -> 1 <= ticks_of interval d.
Proof.
  intros Hi. unfold ticks_of. rewrite Z.quot_div_nonneg by lia.
  assert (1 <= Z.max d interval / interval)%Z by (apply Z.div_le_lower_bound; lia). lia.
Qed.

(** The slot and circle of a delay put it exactly that many ticks ahead. *)
Lemma dist_steps n t steps : t < n -> 1 <= steps ->
  dist n t ((t + steps) mod n) + (steps - 1) / n * n = steps.
Proof.
  intros Ht Hs. unfold dist.
  assert (E : ((t + steps) mod n + n - t - 1) mod n = (steps - 1) mod n).
  { rewrite <- (Nat.Div0.mod_add _ ((t + steps) / n)).
    rewrite <- (Nat.Div0.mod_add (steps - 1) 1). f_equal.
    pose proof (Nat.div_mod_eq (t + steps) n).
    pose proof (Nat.mod_upper_bound (t + steps) n). nia. }
  rewrite E. pose proof (Nat.div_mod_eq (steps - 1) n). lia.
Qed.

(** C1: a timer set with delay [d] for a key that has none is executed exactly once,
    with its value, at the tick number [d / interval] (at least 1) after the set, and at
    no other event, whatever other keys' timers are set, moved or removed meanwhile. *)
Theorem set_timer_fires_on_time (tw : TimingWheel) (k : K) (v : V) (d : Z) (evs : list event) :
  tw_inv tw -> ks_get k (tw_timers tw) = None -> Forall (quiet k) evs ->
  exec_of k <$> (run (EvSet k v d :: evs) tw).2 =
  [] :: expected (ticks_of (tw_interval tw) d) v evs.
Proof.
  intros Hi Hg Hq. cbn [run run_event].
  pose proof (setTask_fresh_spec tw k v d Hi Hg) as Hs. cbn zeta in Hs.
  set (d' := if (d <? tw_interval tw)%Z then tw_interval tw else d) in Hs.
  assert (E : setTask k v d' tw = setTask k v d tw).
  { unfold setTask. subst d'. destruct (Z.ltb_spec d (tw_interval tw)).
    - by rewrite Z.ltb_irrefl.
    - destruct (Z.ltb_spec d (tw_interval tw)); [lia|done]. }
  rewrite E in Hs. destruct (setTask k v d tw) as [tw1 out].
  destruct Hs as (Hi1 & (C1 & C2 & C3) & -> & Hv & _).
  pose proof (run_quiet_due k evs tw1 _ _ Hi1 Hq Hv) as Hr.
  destruct (run evs tw1) as [tw2 outs]. cbn [snd] in *. rewrite fmap_cons, Hr. f_equal.
  f_equal. unfold due. rewrite C2, C3. unfold getPositionAndCircle. cbn [fst snd te_circle te_diff].
  assert (Hd : Z.to_nat (d' `quot` tw_interval tw) = ticks_of (tw_interval tw) d).
  { unfold ticks_of. subst d'. destruct (Z.ltb_spec d (tw_interval tw)).
    - by rewrite Z.max_r by lia.
    - by rewrite Z.max_l by lia. }
  rewrite Hd, Nat.add_0_r. apply dist_steps; [apply Hi|apply ticks_of_pos, Hi].
Qed.

(** C2: [MoveTimer] with a delay of at least one interval keeps the timer's value but is
    exact only when the ticked position does not lie between the timer's slot [p] and its
    new slot [pos].  When it does, the timer fires a whole revolution ([numSlots] ticks)
    after the requested number of ticks ([p <= ticked < pos]), or a whole revolution
    before it ([pos <= ticked < p], for delays longer than a revolution). *)
Theorem move_timer_due (tw : TimingWheel) (k : K) (d : Z) (p : nat) (e : timingEntry) :
  tw_inv tw -> timer_view tw k = Some (p, e) -> (tw_interval tw <= d)%Z ->
  let n := Z.of_nat (tw_numSlots tw) in
  let steps := ticks_of (tw_interval tw) d in
  let pos := (tw_tickedPos tw + steps) mod tw_numSlots tw in
  let '(tw', out) := moveTask k d tw in
  out = [] /\ exists p' e', timer_view tw' k = Some (p', e') /\ te_value e' = te_value e /\
    Z.of_nat (due tw' p' e') =
      (Z.of_nat steps +
       (if (p <=? tw_tickedPos tw)%nat && (tw_tickedPos tw <? pos)%nat then n
        else if (pos <=? tw_tickedPos tw)%nat && (tw_tickedPos tw <? p)%nat &&
                (tw_numSlots tw <? steps)%nat then - n
        else 0))%Z.
Proof.
  intros Hi Hv Hd n steps pos. pose proof (moveTask_spec tw k d Hi) as Hm.
  destruct (moveTask k d tw) as [tw' out].
  destruct Hm as (_ & (C1 & C2 & C3) & _ & Hm). rewrite Hv in Hm.
  destruct (Z.ltb_spec d (tw_interval tw)); [lia|].
  unfold getPositionAndCircle in Hm.
  assert (Hst : Z.to_nat (d `quot` tw_interval tw) = steps)
    by (subst steps; unfold ticks_of; by rewrite Z.max_l by lia).
  rewrite Hst in Hm. fold pos in Hm. destruct Hm as (-> & d' & Hv').
  split; [done|].
  destruct (view_Some _ _ _ _ Hi Hv) as (l & Hg & He & Hin & Hk & Hr & Hdf).
  pose proof (ti_tick _ _ Hi) as Ht. pose proof (ti_int _ _ Hi) as Hint.
  assert (Hp : p < tw_numSlots tw) by (eapply in_slot_lt; eauto).
  assert (Hs1 : 1 <= steps) by (by apply ticks_of_pos).
  assert (Hpos : pos < tw_numSlots tw) by (apply Nat.mod_upper_bound; lia).
  pose proof (dist_steps (tw_numSlots tw) (tw_tickedPos tw) steps Ht Hs1) as Hds. fold pos in Hds.
  set (circle := (steps - 1) / tw_numSlots tw) in *.
  assert (Hc : (0 <? circle) = (tw_numSlots tw <? steps)).
  { subst circle. destruct (Nat.ltb_spec (tw_numSlots tw) steps).
    - apply Nat.ltb_lt, Nat.div_str_pos. lia.
    - apply Nat.ltb_ge. rewrite Nat.div_small; lia. }
  rewrite dist_cases in Hds by done. rewrite <- Hc.
  destruct (Nat.leb_spec p pos); [|destruct (Nat.ltb_spec 0 circle)];
    (do 2 eexists; split; [exact Hv'|]; split; [done|];
     unfold due; rewrite C2, C3, dist_cases by done; simpl;
     repeat match goal with
     | |- context [?a <? ?b] => destruct (Nat.ltb_spec a b)
     | |- context [?a <=? ?b] => destruct (Nat.leb_spec a b)
     | H : context [?a <? ?b] |- _ => destruct (Nat.ltb_spec a b)
     end; simpl; subst n; try nia).
Qed.

(** A removed timer is never executed, until its key is set again. *)
Theorem remove_timer_silences (tw : TimingWheel) (k : K) (evs : list event) :
  tw_inv tw -> Forall (quiet k) evs ->
  exec_of k <$> (run (EvRemove k :: evs) tw).2 = replicate (S (length evs)) [].
Proof.
  intros Hi Hq. cbn [run run_event].
  destruct (removeTask_spec tw k Hi) as (Hi1 & _ & Hv & _).
  pose proof (run_quiet_none k evs _ Hi1 Hq Hv) as Hr.
  destruct (run evs (removeTask k tw)) as [tw2 outs]. cbn [snd] in *.
  by rewrite fmap_cons, Hr.
Qed.

(** A new wheel satisfies the invariant. *)
Lemma NewTimingWheel_inv interval numSlots tw :
  NewTimingWheel interval numSlots false = Some tw ->
  tw_inv tw /\ forall k, ks_get k (tw_timers tw) = None.
Proof.
  unfold NewTimingWheel. rewrite orb_false_r.
  destruct (Z.leb_spec interval 0), (Z.leb_spec numSlots 0); try done. intros [= <-].
  assert (Hno : forall l p, ~ in_slot (NewTimingWheelWithTicker interval (Z.to_nat numSlots)) l p).
  { intros l p (s & Hs & Hin). simpl in Hs.
    apply lookup_replicate in Hs as [-> _]. set_solver. }
  split; [|intros k; apply ks_get_new]. split; simpl; try done; try lia.
  - apply length_replicate.
  - apply ks_new_ok.
  - intros l p Hin. by apply Hno in Hin.
  - intros p s Hs. apply lookup_replicate in Hs as [-> _]. constructor.
  - intros l p p' Hin. by apply Hno in Hin.
  - intros k pe Hg. by rewrite ks_get_new in Hg.
Qed.
End wheel.

#[global] Arguments timingEntry : clear implicits.
#[global] Arguments TimingWheel : clear implicits.
#[global] Arguments event : clear implicits.

(** ** Concrete wheels, over [SafeMap] as in the code *)

Abbreviation demo_wheel := (TimingWheel nat nat (@SafeMap nat positionEntry _ _)).

Definition demo_new : demo_wheel := NewTimingWheelWithTicker 1 10.

Lemma demo_new_inv : tw_inv demo_new /\ forall k, ks_get k (tw_timers demo_new) = None.
Proof. by apply (NewTimingWheel_inv 1 10). Qed.

Lemma set_timer_fires_on_time_witness :
  exec_of 7 <$> (run (EvSet 7 42 3 :: [EvTick; EvSet 8 1 1; EvTick; EvTick; EvTick])
                   demo_new).2
  = [] :: [[]; []; []; [42]; []].
Proof.
  apply (set_timer_fires_on_time demo_new 7 42 3 [EvTick; EvSet 8 1 1; EvTick; EvTick; EvTick]
           (proj1 demo_new_inv) (proj2 demo_new_inv 7)).
  repeat constructor. simpl. lia.
Defined.

(** A wheel at position 4 with a timer for key 7 in slot 3, due in 9 ticks. *)
Definition demo_moved : demo_wheel := (run (repeat EvTick 5 ++ [EvSet 7 42 9]) demo_new).1.

Lemma demo_moved_inv : tw_inv demo_moved.
Proof.
  unfold demo_moved.
  assert (Hrun : forall evs (tw : demo_wheel), tw_inv tw ->
    Forall (fun ev => match ev with EvDrain => False | _ => True end) evs ->
    tw_inv (run evs tw).1).
  { induction evs as [|ev evs IH]; intros tw Hi Hq; [done|].
    apply Forall_cons in Hq as [Hq Hqs]. simpl.
    assert (Hi1 : tw_inv (run_event ev tw).1).
    { destruct ev as [|k v d|k|k d|]; simpl; [| | | |done].
      - pose proof (onTick_spec tw 0 Hi) as Ho. destruct (onTick tw). by destruct Ho.
      - pose proof (setTask_other tw k v d (S k) Hi ltac:(lia)) as Ho.
        destruct (setTask k v d tw). by destruct Ho.
      - by apply removeTask_spec.
      - pose proof (moveTask_spec tw k d Hi) as Ho. destruct (moveTask k d tw).
        by destruct Ho. }
    destruct (run_event ev tw) as [tw1 out]. specialize (IH tw1 Hi1 Hqs).
    by destruct (run evs tw1). }
  apply Hrun; [apply demo_new_inv|]. by repeat constructor.
Qed.

(** Moving that timer to 2 ticks from now makes it due in 12. *)
Lemma move_timer_due_witness :
  let '(tw', out) := moveTask 7 2 demo_moved in
  out = [] /\ exists p' e', timer_view tw' 7 = Some (p', e') /\ te_value e' = 42 /\
    Z.of_nat (due tw' p' e') = 12%Z.
Proof.
  apply (move_timer_due demo_moved 7 2 3 (mkEntry 9 7 42 0 0 false) demo_moved_inv);
    [vm_compute; reflexivity | vm_compute; discriminate].
Defined.

Lemma remove_timer_silences_witness :
  exec_of 7 <$> (run (EvRemove 7 :: repeat EvTick 20) demo_moved).2 = replicate 21 [].
Proof.
  apply (remove_timer_silences demo_moved 7 (repeat EvTick 20) demo_moved_inv).
  repeat constructor.
Defined.

(** [Drain] empties the slots but leaves the keys registered in [timers], so a key
    that had a timer before a [Drain] and is set again to the same delay afterwards is not
    executed: here none of the next three revolutions runs it. *)
Theorem drain_then_set_is_lost :
  let evs := [EvSet 7 41 5; EvDrain; EvSet 7 42 5] ++ repeat EvTick 30 in
  let outs := (run evs demo_new).2 in
  concat (exec_of 7 <$> outs) = [] /\ outs !! 1 = Some [Drained 7 41].
Proof. vm_compute. split; reflexivity. Qed.

(** [MoveTimer] with a delay shorter than the interval executes the task at once but
    leaves the timer in the wheel: the same task is executed again when it is due. *)
Theorem move_soon_executes_twice :
  let evs := [EvSet 7 42 100; EvMove 7 1] ++ repeat EvTick 2 in
  exec_of 7 <$> (run evs (NewTimingWheelWithTicker 50 10 : demo_wheel)).2 = [[]; [42]; []; [42]].
Proof. vm_compute. reflexivity. Qed.
