(* ===== verification/RollingWindow.v ===== *)
(** * [core/collection/rollingwindow.go]: the rolling window of buckets

    Time is a parameter: an operation is given the clock readings it makes
    ([timex.Now] and [timex.Since] read the same clock).  The refinement theorem
    relates the circular array of buckets, reset lazily, to the plain list of all
    additions: [Reduce] hands to its function exactly the buckets one gets by
    grouping the additions of the last [size] intervals. *)

From S2P Require Import Prelude.

(** [BucketInterface]: [Add] and [Reset], with the constructor given to
    [NewRollingWindow]. *)
Class BucketInterface (T B : Type) := {
  b_new : B;
  b_add : T -> B -> B;
  b_reset : B -> B
}.

(** What the window relies on: [Reset] gives back a new bucket. *)
Class BucketLaws (T B : Type) `{!BucketInterface T B} := {
  b_reset_new (b : B) : b_reset b = b_new
}.

(** [Bucket]: the sum and the number of the additions. *)
Record Bucket := mkBucket { Sum : Z; Count : Z }.

Definition Bucket_Add (v : Z) (b : Bucket) : Bucket := mkBucket (Sum b + v) (Count b + 1).
Definition Bucket_Reset (b : Bucket) : Bucket := mkBucket 0 0.

#[export] Instance Bucket_interface : BucketInterface Z Bucket :=
  {| b_new := mkBucket 0 0; b_add := Bucket_Add; b_reset := Bucket_Reset |}.

#[export] Instance Bucket_laws : BucketLaws Z Bucket.
Proof. split. done. Qed.

Section rolling.
Context {T B : Type} `{!BucketInterface T B}.

(** [window] and its operations *)
Record window := mkWindow { w_buckets : list B; w_size : nat }.

Definition newWindow (size : nat) : window := mkWindow (replicate size b_new) size.

Definition window_add (offset : nat) (v : T) (w : window) : window :=
  mkWindow (alter (b_add v) (offset mod w_size w) (w_buckets w)) (w_size w).

Definition window_resetBucket (offset : nat) (w : window) : window :=
  mkWindow (alter b_reset (offset mod w_size w) (w_buckets w)) (w_size w).

(** The buckets [fn] is applied to, in order. *)
Definition window_reduce (start count : nat) (w : window) : list B :=
  omap (fun i => w_buckets w !! ((start + i) mod w_size w)) (seq 0 count).

Record RollingWindow := mkRolling {
  rw_size : nat;
  rw_win : window;
  rw_interval : Z;
  rw_offset : nat;
  rw_ignoreCurrent : bool;
  rw_lastTime : Z
}.

(** [NewRollingWindow], with the option [IgnoreCurrentBucket] as a flag. *)
Definition NewRollingWindow (size interval now : Z) (ignoreCurrent : bool) : outcome RollingWindow :=
  if (size <? 1)%Z then Panic "size must be greater than 0"
  else Ok (mkRolling (Z.to_nat size) (newWindow (Z.to_nat size)) interval 0 ignoreCurrent now).

(** [span]: how many intervals passed since [lastTime], [size] when out of range. *)
Definition span (now : Z) (rw : RollingWindow) : nat :=
  let offset := Z.quot (now - rw_lastTime rw) (rw_interval rw) in
  if (0 <=? offset)%Z && (offset <? Z.of_nat (rw_size rw))%Z then Z.to_nat offset
  else rw_size rw.

(** [updateOffset]; [now1] is the reading made by [span], [now2] the later one. *)
Definition updateOffset (now1 now2 : Z) (rw : RollingWindow) : RollingWindow :=
  let sp := span now1 rw in
  if sp <=? 0 then rw
  else
    let offset := rw_offset rw in
    let win := foldl (fun w i => window_resetBucket ((offset + i + 1) mod rw_size rw) w)
                 (rw_win rw) (seq 0 sp) in
    mkRolling (rw_size rw) win (rw_interval rw) ((offset + sp) mod rw_size rw)
      (rw_ignoreCurrent rw) (now2 - Z.rem (now2 - rw_lastTime rw) (rw_interval rw)).

(** [Add] *)
Definition Add (v : T) (now1 now2 : Z) (rw : RollingWindow) : RollingWindow :=
  let rw := updateOffset now1 now2 rw in
  mkRolling (rw_size rw) (window_add (rw_offset rw) v (rw_win rw)) (rw_interval rw)
    (rw_offset rw) (rw_ignoreCurrent rw) (rw_lastTime rw).

(** [Reduce]: the buckets handed to [fn], in order. *)
Definition Reduce (now : Z) (rw : RollingWindow) : list B :=
  let sp := span now rw in
  let diff := if (sp =? 0) && rw_ignoreCurrent rw then rw_size rw - 1 else rw_size rw - sp in
  if 0 <? diff then window_reduce ((rw_offset rw + sp + 1) mod rw_size rw) diff (rw_win rw)
  else [].

(** ** The abstract view: additions with their times *)

Context `{!BucketLaws T B}.

(** The interval number of a time, counted from the window's creation at [t0]. *)
Definition idx (t0 interval t : Z) : Z := ((t - t0) / interval)%Z.

(** An addition and the two clock readings it made. *)
Record addition := mkAddition { a_val : T; a_t1 : Z; a_t2 : Z }.

(** The additions of one interval, and the bucket they make. *)
Definition vals_in (t0 interval n : Z) (adds : list addition) : list T :=
  omap (fun a => if decide (idx t0 interval (a_t1 a) = n) then Some (a_val a) else None) adds.

Definition bucket_of (vs : list T) : B := foldl (fun b v => b_add v b) b_new vs.

(** The interval of the last addition; 0 when there is none. *)
Definition cur_of (t0 interval : Z) (adds : list addition) : Z :=
  match last adds with Some a => idx t0 interval (a_t1 a) | None => 0 end.

(** The readings are ordered, and the two of one addition are in one interval. *)
Inductive timely (t0 interval : Z) : list addition -> Prop :=
| timely_nil : timely t0 interval []
| timely_snoc adds a :
    timely t0 interval adds -> (t0 <= a_t1 a)%Z ->
    (cur_of t0 interval adds <= idx t0 interval (a_t1 a))%Z ->
    (a_t1 a <= a_t2 a)%Z -> idx t0 interval (a_t2 a) = idx t0 interval (a_t1 a) ->
    timely t0 interval (adds ++ [a]).

(** The representation relation, at current interval [c]. *)
Record rw_rep (t0 : Z) (c : Z) (adds : list addition) (rw : RollingWindow) : Prop := {
  rr_size : 0 < rw_size rw;
  rr_wsize : w_size (rw_win rw) = rw_size rw;
  rr_len : length (w_buckets (rw_win rw)) = rw_size rw;
  rr_int : (0 < rw_interval rw)%Z;
  rr_off : rw_offset rw < rw_size rw;
  rr_c : (0 <= c)%Z;
  rr_last : rw_lastTime rw = (t0 + rw_interval rw * c)%Z;
  rr_old : forall a, a ∈ adds -> (idx t0 (rw_interval rw) (a_t1 a) <= c)%Z;
  rr_bkt : forall j, j < rw_size rw ->
    w_buckets (rw_win rw) !! ((rw_offset rw + rw_size rw - j) mod rw_size rw) =
    Some (bucket_of (vals_in t0 (rw_interval rw) (c - Z.of_nat j) adds))
}.

Lemma vals_in_snoc t0 iv n adds a :
  vals_in t0 iv n (adds ++ [a]) =
  vals_in t0 iv n adds ++ (if decide (idx t0 iv (a_t1 a) = n) then [a_val a] else []).
Proof. unfold vals_in. rewrite omap_app. f_equal. simpl. by destruct (decide _). Qed.

Lemma vals_in_future t0 iv n adds :
  (forall a, a ∈ adds -> (idx t0 iv (a_t1 a) < n)%Z) -> vals_in t0 iv n adds = [].
Proof.
  induction adds as [|a adds IH]; intros Hlt; [done|]. unfold vals_in in *. simpl.
  rewrite decide_False; [apply IH; intros b Hb; apply Hlt; set_solver|].
  specialize (Hlt a ltac:(set_solver)). lia.
Qed.

(** [span] counts the intervals between the current one and the one of [now]. *)
Lemma span_spec t0 c adds rw now : rw_rep t0 c adds rw ->
  (c <= idx t0 (rw_interval rw) now)%Z ->
  Z.of_nat (span now rw) = Z.min (idx t0 (rw_interval rw) now - c) (Z.of_nat (rw_size rw)).
Proof.
  intros Hr Hc. destruct Hr as [Hs _ _ Hi _ Hc0 Hl _ _]. unfold span. rewrite Hl.
  unfold idx in *.
  assert (Hd : ((now - (t0 + rw_interval rw * c)) `quot` rw_interval rw =
                (now - t0) / rw_interval rw - c)%Z).
  { replace (now - (t0 + rw_interval rw * c))%Z with ((now - t0) + (- c) * rw_interval rw)%Z by ring.
    pose proof (Z.mul_div_le (now - t0) (rw_interval rw) Hi).
    rewrite Z.quot_div_nonneg; [|nia|done]. by rewrite Z.div_add by lia. }
  rewrite Hd. set (o := ((now - t0) / rw_interval rw - c)%Z).
  destruct (Z.leb_spec 0 o), (Z.ltb_spec o (Z.of_nat (rw_size rw))); simpl; subst o; lia.
Qed.

(** The reset loop: exactly the [sp] positions after the offset are reset. *)
Lemma reset_loop_spec size off sp w q : 0 < size -> w_size w = size -> length (w_buckets w) = size ->
  q < size ->
  let w' := foldl (fun w i => window_resetBucket ((off + i + 1) mod size) w) w (seq 0 sp) in
  w_size w' = size /\ length (w_buckets w') = size /\
  ((exists i, i < sp /\ (off + i + 1) mod size = q) -> w_buckets w' !! q = Some b_new) /\
  ((forall i, i < sp -> (off + i + 1) mod size <> q) -> w_buckets w' !! q = w_buckets w !! q).
Proof.
  intros Hs Hw Hl Hq. induction sp as [|sp IH].
  { cbn. split; [done|]. split; [done|]. split; [intros (i & ? & _); lia|done]. }
  rewrite seq_S, foldl_app. cbn [foldl Nat.add] in *.
  set (w1 := foldl _ w (seq 0 sp)) in *. destruct IH as (W1 & L1 & B1 & B2).
  unfold window_resetBucket. simpl. rewrite length_alter. split; [done|]. split; [done|].
  rewrite W1, Nat.Div0.mod_mod. split.
  - intros (i & Hi & Hm). destruct (decide ((off + sp + 1) mod size = q)) as [<-|Hne].
    + rewrite list_lookup_alter_eq.
      destruct (lookup_lt_is_Some_2 (w_buckets w1) ((off + sp + 1) mod size)) as [b Hb];
        [by rewrite L1|]. rewrite Hb. simpl. by rewrite b_reset_new.
    + rewrite list_lookup_alter_ne by done. apply B1. exists i. split; [|done].
      destruct (decide (i = sp)) as [->|]; [done|lia].
  - intros Hn. rewrite list_lookup_alter_ne by (apply Hn; lia). apply B2.
    intros i Hi. apply Hn. lia.
Qed.

(** Rolling forward to the interval of [now]: the expired buckets are reset. *)
Lemma updateOffset_rep t0 c adds rw now1 now2 : rw_rep t0 c adds rw ->
  (c <= idx t0 (rw_interval rw) now1)%Z ->
  (t0 <= now2)%Z -> idx t0 (rw_interval rw) now2 = idx t0 (rw_interval rw) now1 ->
  rw_rep t0 (idx t0 (rw_interval rw) now1) adds (updateOffset now1 now2 rw).
Proof.
  intros Hr Hc Hn Hid. pose proof (span_spec _ _ _ _ now1 Hr Hc) as Hsp.
  destruct Hr as [Hs Hws Hl Hi Ho Hc0 Hlt Hold Hb]. unfold updateOffset.
  set (sp := span now1 rw) in *. set (n := idx t0 (rw_interval rw) now1) in *.
  destruct (Nat.leb_spec sp 0) as [Hsp0|Hsp0].
  { replace n with c by lia. by split. }
  split; cbn [rw_size rw_win rw_interval rw_offset rw_lastTime]; try done; try lia.
  - by destruct (reset_loop_spec (rw_size rw) (rw_offset rw) sp (rw_win rw) 0) as (? & _).
  - by destruct (reset_loop_spec (rw_size rw) (rw_offset rw) sp (rw_win rw) 0) as (_ & ? & _).
  - apply Nat.mod_upper_bound. lia.
  - rewrite Hlt. rewrite <- Hid. unfold idx in *.
    replace (now2 - (t0 + rw_interval rw * c))%Z with ((now2 - t0) + (- c) * rw_interval rw)%Z by ring.
    pose proof (Z.mul_div_le (now2 - t0) (rw_interval rw) Hi).
    rewrite Z.rem_mod_nonneg by nia. rewrite Z_mod_plus_full.
    pose proof (Z.div_mod (now2 - t0) (rw_interval rw)). lia.
  - intros a Ha. specialize (Hold a Ha). lia.
  - intros j Hj.
    set (q := ((rw_offset rw + sp) mod rw_size rw + rw_size rw - j) mod rw_size rw).
    assert (Hq : q < rw_size rw) by (apply Nat.mod_upper_bound; lia).
    assert (Hqe : q = (rw_offset rw + sp + rw_size rw - j) mod rw_size rw).
    { subst q. replace (rw_offset rw + sp + rw_size rw - j)
        with ((rw_offset rw + sp) + (rw_size rw - j)) by lia.
      replace ((rw_offset rw + sp) mod rw_size rw + rw_size rw - j)
        with ((rw_offset rw + sp) mod rw_size rw + (rw_size rw - j)) by lia.
      by rewrite Nat.Div0.add_mod_idemp_l. }
    destruct (reset_loop_spec (rw_size rw) (rw_offset rw) sp (rw_win rw) q)
      as (_ & _ & B1 & B2); try done.
    destruct (decide (j < sp)) as [Hjs|Hjs].
    + rewrite B1.
      * rewrite vals_in_future; [done|]. intros a Ha. specialize (Hold a Ha). lia.
      * exists (sp - 1 - j). split; [lia|]. rewrite Hqe.
        replace (rw_offset rw + sp + rw_size rw - j)
          with (rw_offset rw + (sp - 1 - j) + 1 + 1 * rw_size rw) by lia.
        by rewrite Nat.Div0.mod_add.
    + rewrite B2.
      * rewrite Hqe. replace (rw_offset rw + sp + rw_size rw - j)
          with (rw_offset rw + rw_size rw - (j - sp)) by lia.
        rewrite Hb by lia. do 3 f_equal. lia.
      * intros i Hi' Hm. rewrite Hqe in Hm.
        assert (rw_offset rw + i + 1 = rw_offset rw + sp + rw_size rw - j); [|lia].
        apply (mod_inj_window _ _ (rw_size rw)); [lia|done|lia|lia].
Qed.

Lemma updateOffset_fields now1 now2 rw :
  rw_interval (updateOffset now1 now2 rw) = rw_interval rw /\
  rw_size (updateOffset now1 now2 rw) = rw_size rw /\
  rw_ignoreCurrent (updateOffset now1 now2 rw) = rw_ignoreCurrent rw.
Proof. unfold updateOffset. by destruct (span now1 rw <=? 0). Qed.

Lemma bucket_of_snoc vs v : bucket_of (vs ++ [v]) = b_add v (bucket_of vs).
Proof. unfold bucket_of. by rewrite foldl_app. Qed.

Lemma rw_Add_rep t0 c adds rw a : rw_rep t0 c adds rw ->
  (c <= idx t0 (rw_interval rw) (a_t1 a))%Z -> (t0 <= a_t2 a)%Z ->
  idx t0 (rw_interval rw) (a_t2 a) = idx t0 (rw_interval rw) (a_t1 a) ->
  rw_rep t0 (idx t0 (rw_interval rw) (a_t1 a)) (adds ++ [a]) (Add (a_val a) (a_t1 a) (a_t2 a) rw).
Proof.
  intros Hr Hc Hn Hid.
  pose proof (updateOffset_rep t0 c adds rw (a_t1 a) (a_t2 a) Hr Hc Hn Hid) as Hu.
  destruct (updateOffset_fields (a_t1 a) (a_t2 a) rw) as (Ei & _ & _).
  unfold Add. set (rw1 := updateOffset (a_t1 a) (a_t2 a) rw) in *.
  rewrite <- Ei in *. set (n := idx t0 (rw_interval rw1) (a_t1 a)) in *.
  destruct Hu as [Hs Hws Hl Hi Ho Hc0 Hlt Hold Hb].
  split; cbn [rw_size rw_win rw_interval rw_offset rw_lastTime window_add w_size w_buckets];
    rewrite ?length_alter; try done.
  - intros b [Hb'|Hb']%elem_of_app; [by apply Hold|].
    apply list_elem_of_singleton in Hb' as ->. subst n. lia.
  - intros j Hj. rewrite Hws, (Nat.mod_small (rw_offset rw1)) by done.
    rewrite vals_in_snoc. fold n.
    destruct (decide (j = 0)) as [->|Hj0].
    + specialize (Hb 0 Hj). rewrite Nat.sub_0_r in *.
      replace ((rw_offset rw1 + rw_size rw1) mod rw_size rw1) with (rw_offset rw1) in *
        by (symmetry; apply (mod_unique_nat _ _ 1); lia).
      rewrite list_lookup_alter_eq, Hb. simpl. rewrite Z.sub_0_r in *.
      rewrite decide_True by done. by rewrite bucket_of_snoc.
    + rewrite decide_False by lia. rewrite app_nil_r. rewrite list_lookup_alter_ne; [by apply Hb|].
      intros Heq. destruct (Nat.le_gt_cases j (rw_offset rw1)).
      * rewrite (mod_unique_nat _ _ 1 (rw_offset rw1 - j)) in Heq; lia.
      * rewrite Nat.mod_small in Heq; lia.
Qed.

Lemma timely_snoc_inv t0 iv adds a : timely t0 iv (adds ++ [a]) ->
  timely t0 iv adds /\ (t0 <= a_t1 a)%Z /\ (cur_of t0 iv adds <= idx t0 iv (a_t1 a))%Z /\
  (a_t1 a <= a_t2 a)%Z /\ idx t0 iv (a_t2 a) = idx t0 iv (a_t1 a).
Proof.
  intros Ht. inversion Ht as [Hnil|adds' a' ? ? ? ? ? Heq].
  - by destruct adds.
  - apply app_inj_2 in Heq as [-> [= ->]]; done.
Qed.

(** The state after a timely sequence of additions represents it. *)
Lemma run_rep t0 size iv ig rw0 adds :
  NewRollingWindow size iv t0 ig = Ok rw0 -> (0 < iv)%Z -> timely t0 iv adds ->
  let rw := foldl (fun rw a => Add (a_val a) (a_t1 a) (a_t2 a) rw) rw0 adds in
  rw_rep t0 (cur_of t0 iv adds) adds rw /\
  rw_interval rw = iv /\ rw_size rw = Z.to_nat size /\ rw_ignoreCurrent rw = ig.
Proof.
  unfold NewRollingWindow. destruct (Z.ltb_spec size 1); [done|]. intros [= <-] Hiv.
  induction adds as [|a adds IH] using rev_ind; intros Ht.
  - split; [|done]. cbn. split; simpl; rewrite ?length_replicate; try done; try lia.
    + intros a Ha. set_solver.
    + intros j Hj. rewrite lookup_replicate_2; [done|]. apply Nat.mod_upper_bound. lia.
  - apply timely_snoc_inv in Ht as (Ht & Ht0 & Hcur & H12 & Hid).
    specialize (IH Ht). rewrite foldl_app. cbn [foldl].
    set (rw := foldl _ _ adds) in *. destruct IH as (Hr & Ei & Es & Eg).
    assert (Hc : cur_of t0 iv (adds ++ [a]) = idx t0 iv (a_t1 a))
      by (unfold cur_of; by rewrite last_snoc).
    rewrite Hc. rewrite <- Ei in Hid, Hcur, Hr |- *.
    destruct (updateOffset_fields (a_t1 a) (a_t2 a) rw) as (F1 & F2 & F3).
    split; [apply (rw_Add_rep t0 (cur_of t0 (rw_interval rw) adds)); [done|done|lia|done]|].
    unfold Add. simpl. by rewrite F1, F2, F3.
Qed.

(** The shared form of the property below. *)
Lemma reduce_groups (t0 size iv now : Z) (ig : bool) (rw0 : RollingWindow)
    (adds : list addition) :
  NewRollingWindow size iv t0 ig = Ok rw0 -> (0 < iv)%Z -> timely t0 iv adds ->
  (cur_of t0 iv adds <= idx t0 iv now)%Z ->
  let rw := foldl (fun rw a => Add (a_val a) (a_t1 a) (a_t2 a) rw) rw0 adds in
  let first := (idx t0 iv now - size + 1)%Z in
  let last := (if bool_decide (idx t0 iv now = cur_of t0 iv adds) && ig
               then cur_of t0 iv adds - 1 else cur_of t0 iv adds)%Z in
  Reduce now rw =
  (fun n => bucket_of (vals_in t0 iv n adds)) <$> seqZ first (last - first + 1).
Proof.
  intros Hnew Hiv Ht Hnow rw first lst.
  destruct (run_rep t0 size iv ig rw0 adds Hnew Hiv Ht) as (Hr & Ei & Es & Eg). fold rw in Hr, Ei, Es, Eg.
  assert (Hsz : (1 <= size)%Z)
    by (unfold NewRollingWindow in Hnew; destruct (Z.ltb_spec size 1); [done|lia]).
  pose proof (span_spec _ _ _ _ now Hr) as Hsp. rewrite Ei in Hsp. specialize (Hsp Hnow).
  set (c := cur_of t0 iv adds) in *. set (n := idx t0 iv now) in *.
  destruct Hr as [Hs Hws Hl Hi Ho Hc0 Hlt Hold Hb]. unfold Reduce.
  set (sp := span now rw) in *.
  assert (Hz : (sp =? 0) = bool_decide (n = c)).
  { destruct (Nat.eqb_spec sp 0).
    - rewrite bool_decide_true; [done|lia].
    - rewrite bool_decide_false; [done|lia]. }
  rewrite Hz, Eg. set (diff := if bool_decide (n = c) && ig then rw_size rw - 1 else rw_size rw - sp).
  assert (Hdiff : Z.of_nat diff = Z.max 0 (lst - first + 1)).
  { subst diff lst first. destruct (bool_decide (n = c)) eqn:E, ig; simpl; bool_prop; lia. }
  assert (Hend : forall i, i < diff -> (lst - first + 1 = Z.of_nat diff)%Z /\
     rw_offset rw + sp + 1 + i <= rw_offset rw + rw_size rw).
  { intros i Hid. split; [lia|]. subst diff.
    destruct (bool_decide (n = c)) eqn:E, ig; simpl in *; bool_prop; lia. }
  destruct (Nat.ltb_spec 0 diff) as [Hd|Hd].
  2: { replace diff with 0 in Hdiff by lia. destruct (seqZ first (lst - first + 1)) eqn:E; [done|].
       apply (f_equal length) in E. rewrite length_seqZ in E. simpl in E. lia. }
  unfold window_reduce. rewrite Hws.
  assert (Hone : forall i, i < diff ->
    w_buckets (rw_win rw) !! (((rw_offset rw + sp + 1) mod rw_size rw + i) mod rw_size rw) =
    Some (bucket_of (vals_in t0 iv (first + Z.of_nat i) adds))).
  { intros i Hid. destruct (Hend i Hid) as [_ Hle].
    rewrite Nat.Div0.add_mod_idemp_l.
    specialize (Hb (rw_size rw - (sp + 1 + i)) ltac:(lia)). rewrite Ei in Hb.
    replace (rw_offset rw + rw_size rw - (rw_size rw - (sp + 1 + i)))
      with (rw_offset rw + sp + 1 + i) in Hb by lia.
    rewrite Hb. do 3 f_equal. subst first. lia. }
  assert (Hlen : Z.to_nat (lst - first + 1) = diff) by lia.
  unfold seqZ. rewrite Hlen. clear - Hone.
  assert (Hgen : forall k s, s + k <= diff ->
     omap (fun i => w_buckets (rw_win rw) !! (((rw_offset rw + sp + 1) mod rw_size rw + i) mod rw_size rw))
       (seq s k) =
     (fun i => bucket_of (vals_in t0 iv (first + Z.of_nat i) adds)) <$> seq s k).
  { induction k as [|k IH]; intros s Hk; [done|]. cbn [seq].
    rewrite fmap_cons, <- (IH (S s)) by lia. cbn [omap list_omap]. by rewrite Hone by lia. }
  rewrite Hgen by lia. rewrite <- list_fmap_compose. apply list_fmap_ext.
  intros i x Hx. simpl. do 2 f_equal. lia.
Qed.

(** For a window created at [t0] and any timely additions, [Reduce] at a later time
    hands over, oldest first, exactly the buckets that group the additions of the last
    [size] intervals up to the interval of the last addition (the current interval left
    out if the option says so), each bucket holding precisely its interval's additions. *)
Theorem reduce_groups_recent_additions (t0 size iv now : Z) (ig : bool) (rw0 : RollingWindow)
    (adds : list addition) :
  NewRollingWindow size iv t0 ig = Ok rw0 -> (0 < iv)%Z -> timely t0 iv adds ->
  (cur_of t0 iv adds <= idx t0 iv now)%Z ->
  let rw := foldl (fun rw a => Add (a_val a) (a_t1 a) (a_t2 a) rw) rw0 adds in
  let first := (idx t0 iv now - size + 1)%Z in
  let last := (if bool_decide (idx t0 iv now = cur_of t0 iv adds) && ig
               then cur_of t0 iv adds - 1 else cur_of t0 iv adds)%Z in
  Reduce now rw =
  (fun n => bucket_of (vals_in t0 iv n adds)) <$> seqZ first (last - first + 1).
Proof. exact (reduce_groups t0 size iv now ig rw0 adds). Qed.
End rolling.

(** Three additions into a window of two intervals of length 10, read at time 21. *)
Definition demo_adds : list (addition (T := Z)) :=
  [mkAddition 5 3 3; mkAddition 7 12 13; mkAddition 9 20 20]%Z.

Lemma demo_adds_timely : timely 0 10 demo_adds.
Proof.
  assert (H0 : timely (T := Z) 0 10 []) by constructor.
  assert (H1 : timely 0 10 ([] ++ [mkAddition 5 3 3]%Z)) by (by constructor).
  assert (H2 : timely 0 10 (([] ++ [mkAddition 5 3 3]%Z) ++ [mkAddition 7 12 13]%Z)) by (by constructor).
  by apply (timely_snoc 0 10 _ (mkAddition 9 20 20)%Z) in H2.
Qed.

Lemma reduce_groups_recent_additions_witness :
  exists rw0, NewRollingWindow 2 10 0 false = Ok rw0 /\
  Reduce 21 (foldl (fun rw a => Add (a_val a) (a_t1 a) (a_t2 a) rw) rw0 demo_adds) =
  [mkBucket 7 1; mkBucket 9 1]%Z.
Proof.
  eexists. split; [reflexivity|].
  etransitivity; [apply (reduce_groups_recent_additions 0 2 10 21 false _ demo_adds eq_refl)|
                  vm_compute; reflexivity].
  - lia.
  - apply demo_adds_timely.
  - vm_compute. discriminate.
Defined.
