(* ===== verification/Breaker.v ===== *)
(** * [core/breaker]: the adaptive circuit breaker

    [googlebreaker.go] and [bucket.go] over the rolling window, and the logged
    throttle, error window and entry points of [breaker.go].

    Floating point is a parameter: the class [Float64] has the operations the
    source applies to [float64] and [Float64Laws] the facts of IEEE 754 arithmetic
    the theorems use (rounding never turns a non-positive exact result into a
    positive one, and integers below 2^53 are represented exactly).  The clock
    readings and the random draw of one call are gathered in [readings]. *)

From S2P Require Import Prelude.
From S2P Require Import RollingWindow.
From Stdlib Require Import QArith Qround.
Local Open Scope Z_scope.

(** ** [bucket.go] *)

Definition success : Z := 0.
Definition fail : Z := 1.
Definition drop_ : Z := 2.

Record bucket := mkB { b_Sum : Z; b_Success : Z; b_Failure : Z; b_Drop : Z }.

Definition bucket_fail (b : bucket) : bucket :=
  mkB (b_Sum b + 1) (b_Success b) (b_Failure b + 1) (b_Drop b).
Definition bucket_drop (b : bucket) : bucket :=
  mkB (b_Sum b + 1) (b_Success b) (b_Failure b) (b_Drop b + 1).
Definition bucket_succeed (b : bucket) : bucket :=
  mkB (b_Sum b + 1) (b_Success b + 1) (b_Failure b) (b_Drop b).

Definition bucket_Add (v : Z) (b : bucket) : bucket :=
  if v =? fail then bucket_fail b
  else if v =? drop_ then bucket_drop b
  else bucket_succeed b.

Definition bucket_Reset (b : bucket) : bucket := mkB 0 0 0 0.

#[export] Instance bucket_interface : BucketInterface Z bucket :=
  {| b_new := mkB 0 0 0 0; b_add := bucket_Add; b_reset := bucket_Reset |}.

#[export] Instance bucket_laws : BucketLaws Z bucket.
Proof. split. done. Qed.

(** ** Floating point *)

Class Float64 (F : Type) := {
  f_of_Z : Z -> F;
  f_1_5 : F;
  f_1_1 : F;
  f_sub : F -> F -> F;
  f_mul : F -> F -> F;
  f_div : F -> F -> F;
  f_ltb : F -> F -> bool
}.

Definition f_leb {F} `{!Float64 F} (a b : F) : bool := negb (f_ltb b a).

(** [2^53]: integers up to it are exact in a [float64]. *)
Definition f_exact : Z := 9007199254740992.

Class Float64Laws (F : Type) `{!Float64 F} := {
  f_sub_nonpos a b : f_leb a b = true -> f_leb (f_sub a b) (f_of_Z 0) = true;
  f_div_nonpos a z : f_leb a (f_of_Z 0) = true -> 0 < z -> f_leb (f_div a (f_of_Z z)) (f_of_Z 0) = true;
  f_mul_weight w m n : f_leb f_1_1 w = true -> 0 <= n < f_exact -> m <= n -> - f_exact < m ->
    f_leb (f_of_Z m) (f_mul w (f_of_Z n)) = true;
  f_leb_refl a : f_leb a a = true
}.

(** [mathx.AtLeast] *)
Definition AtLeast {F} `{!Float64 F} (x lower : F) : F := if f_ltb x lower then lower else x.

(** ** [googlebreaker.go] *)

Definition second : Z := 1000000000.
Definition window_ : Z := second * 10.
Definition buckets : Z := 40.
Definition forcePassDuration : Z := second.
Definition protection : Z := 5.

Record windowResult := mkResult {
  accepts : Z;
  total : Z;
  failingBuckets : Z;
  workingBuckets : Z
}.

(** The function [history] passes to [Reduce]. *)
Definition history_step (result : windowResult) (b : bucket) : windowResult :=
  mkResult (accepts result + b_Success b) (total result + b_Sum b)
    (if 0 <? b_Success b then 0
     else if 0 <? b_Failure b then failingBuckets result + 1 else failingBuckets result)
    (if 0 <? b_Failure b then 0
     else if 0 <? b_Success b then workingBuckets result + 1 else workingBuckets result).

Record googleBreaker := mkGoogle {
  gb_stat : RollingWindow (B := bucket);
  gb_lastPass : Z
}.

(** [newGoogleBreaker] at time [now] *)
Definition newGoogleBreaker (now : Z) : outcome googleBreaker :=
  match NewRollingWindow buckets (Z.quot window_ buckets) now false with
  | Ok st => Ok (mkGoogle st 0)
  | Panic m => Panic m
  end.

Definition history (now : Z) (b : googleBreaker) : windowResult :=
  foldl history_step (mkResult 0 0 0 0) (Reduce now (gb_stat b)).

Section breaker.
Context {F : Type} `{!Float64 F} {E : Type}.

(** The clock readings of one call, in the order in which they are made, and the
    number drawn from the random source. *)
Record readings := mkReadings {
  rd_history : Z;
  rd_since : Z;
  rd_pass : Z;
  rd_draw : F;
  rd_mark1 : Z;
  rd_mark2 : Z
}.

Inductive berror := ErrServiceUnavailable | UserError (e : E).

(** The drop ratio before and after the working-buckets factor *)
Definition dropRatio0 (h : windowResult) : F :=
  let w := f_sub f_1_5 (f_div (f_mul (f_sub f_1_5 f_1_1) (f_of_Z (failingBuckets h))) (f_of_Z buckets)) in
  let weightedAccepts := f_mul (AtLeast w f_1_1) (f_of_Z (accepts h)) in
  f_div (f_sub (f_of_Z (total h - protection)) weightedAccepts) (f_of_Z (total h + 1)).

(** [accept] *)
Definition accept (rd : readings) (b : googleBreaker) : option berror * googleBreaker :=
  let h := history (rd_history rd) b in
  let dropRatio := dropRatio0 h in
  if f_leb dropRatio (f_of_Z 0) then (None, b)
  else
    let lastPass := gb_lastPass b in
    if (0 <? lastPass) && (forcePassDuration <? rd_since rd - lastPass) then
      (None, mkGoogle (gb_stat b) (rd_pass rd))
    else
      let dropRatio := f_mul dropRatio (f_div (f_of_Z (buckets - workingBuckets h)) (f_of_Z buckets)) in
      if f_ltb (rd_draw rd) dropRatio then (Some ErrServiceUnavailable, b)
      else (None, mkGoogle (gb_stat b) (rd_pass rd)).

(** [markDrop], [markFailure], [markSuccess] *)
Definition mark (v : Z) (rd : readings) (b : googleBreaker) : googleBreaker :=
  mkGoogle (Add v (rd_mark1 rd) (rd_mark2 rd) (gb_stat b)) (gb_lastPass b).
Definition markDrop := mark drop_.
Definition markFailure := mark fail.
Definition markSuccess := mark success.

(** [allow]: on success a promise; its [Accept] and [Reject] are [markSuccess] and
    [markFailure] at the time they are called. *)
Definition allow (rd : readings) (b : googleBreaker) : (berror + unit) * googleBreaker :=
  match accept rd b with
  | (Some err, b) => (inl err, markDrop rd b)
  | (None, b) => (inr tt, b)
  end.

(** What a request does: returns an error or [nil], or panics. *)
Inductive reqOutcome := ReqReturns (err : option E) | ReqPanics.

(** What a call returns to its caller; [Panicked] re-raises the request's panic. *)
Inductive callResult := Returned (err : option berror) | Panicked.

(** [doReq]: the result, whether the request was run, and the new state. *)
Definition doReq (req : reqOutcome) (fallback : option (berror -> option berror))
    (acceptable : option E -> bool) (rd : readings) (b : googleBreaker)
    : callResult * bool * googleBreaker :=
  match accept rd b with
  | (Some err, b) =>
    let b := markDrop rd b in
    match fallback with
    | Some fb => (Returned (fb err), false, b)
    | None => (Returned (Some err), false, b)
    end
  | (None, b) =>
    match req with
    | ReqPanics => (Panicked, true, markFailure rd b)
    | ReqReturns err =>
      (Returned (UserError <$> err), true,
       if acceptable err then markSuccess rd b else markFailure rd b)
    end
  end.

(** ** [breaker.go]: error window, logged throttle, entry points *)

Definition numHistoryReasons : nat := 5.

Record errorWindow := mkErrWin { ew_reasons : list gostr; ew_index : nat; ew_count : nat }.

Definition newErrorWindow : errorWindow := mkErrWin (replicate numHistoryReasons []) 0 0.

(** [errorWindow.add]; the argument is the reason with its time stamp. *)
Definition ew_add (reason : gostr) (ew : errorWindow) : errorWindow :=
  mkErrWin (<[ew_index ew := reason]> (ew_reasons ew))
    ((ew_index ew + 1) mod numHistoryReasons) (Nat.min (ew_count ew + 1) numHistoryReasons).

(** The reasons [errorWindow.String] joins: [i] runs down from [index-1]. *)
Definition ew_list (ew : errorWindow) : list gostr :=
  omap (fun j => ew_reasons ew !!
          Z.to_nat (Z.rem (Z.of_nat (ew_index ew) - 1 - Z.of_nat j + Z.of_nat numHistoryReasons)
                      (Z.of_nat numHistoryReasons)))
    (seq 0 (ew_count ew)).

Record circuitBreaker := mkCB { cb_throttle : googleBreaker; cb_errWin : errorWindow }.

(** [loggedThrottle.doReq]: a rejected error is remembered; [reason] is its text as
    stored. *)
Definition lt_doReq (reason : E -> gostr) (req : reqOutcome)
    (fallback : option (berror -> option berror)) (acceptable : option E -> bool)
    (rd : readings) (cb : circuitBreaker) : callResult * bool * circuitBreaker :=
  let '(res, ran, g) := doReq req fallback acceptable rd (cb_throttle cb) in
  let ew :=
    match ran, req with
    | true, ReqReturns (Some e) =>
      if acceptable (Some e) then cb_errWin cb else ew_add (reason e) (cb_errWin cb)
    | _, _ => cb_errWin cb
    end in
  (res, ran, mkCB g ew).

Definition defaultAcceptable (err : option E) : bool :=
  match err with None => true | Some _ => false end.

(** [Do], [DoWithAcceptable], [DoWithFallback], [DoWithFallbackAcceptable] *)
Definition Do reason req rd cb := lt_doReq reason req None defaultAcceptable rd cb.
Definition DoWithAcceptable reason req acceptable rd cb :=
  lt_doReq reason req None acceptable rd cb.
Definition DoWithFallback reason req fallback rd cb :=
  lt_doReq reason req (Some fallback) defaultAcceptable rd cb.
Definition DoWithFallbackAcceptable reason req fallback acceptable rd cb :=
  lt_doReq reason req (Some fallback) acceptable rd cb.

(** The [...Ctx] variants: a done context returns its error and touches nothing. *)
Definition withCtx (ctxDone : option E)
    (f : circuitBreaker -> callResult * bool * circuitBreaker) (cb : circuitBreaker)
    : callResult * bool * circuitBreaker :=
  match ctxDone with
  | Some e => (Returned (Some (UserError e)), false, cb)
  | None => f cb
  end.
Definition DoCtx ctxDone reason req rd cb := withCtx ctxDone (Do reason req rd) cb.
Definition DoWithAcceptableCtx ctxDone reason req acceptable rd cb :=
  withCtx ctxDone (DoWithAcceptable reason req acceptable rd) cb.
Definition DoWithFallbackCtx ctxDone reason req fallback rd cb :=
  withCtx ctxDone (DoWithFallback reason req fallback rd) cb.
Definition DoWithFallbackAcceptableCtx ctxDone reason req fallback acceptable rd cb :=
  withCtx ctxDone (DoWithFallbackAcceptable reason req fallback acceptable rd) cb.

(** [Allow] and the promise with a reason *)
Definition Allow (rd : readings) (cb : circuitBreaker) : (berror + unit) * circuitBreaker :=
  let '(r, g) := allow rd (cb_throttle cb) in (r, mkCB g (cb_errWin cb)).
Definition promise_Accept (rd : readings) (cb : circuitBreaker) : circuitBreaker :=
  mkCB (markSuccess rd (cb_throttle cb)) (cb_errWin cb).
Definition promise_Reject (reason : gostr) (rd : readings) (cb : circuitBreaker) : circuitBreaker :=
  mkCB (markFailure rd (cb_throttle cb)) (ew_add reason (cb_errWin cb)).

(** ** What the window counts *)

Definition zsum (l : list Z) : Z := foldr Z.add 0 l.

Lemma zsum_app l k : zsum (l ++ k) = zsum l + zsum k.
Proof. induction l as [|x l IH]; simpl; [lia|]. unfold zsum in *. simpl. lia. Qed.

(** A mark counts as a success unless it is a failure or a drop. *)
Definition is_success (v : Z) : Z := if v =? fail then 0 else if v =? drop_ then 0 else 1.

Lemma bucket_of_counts vs :
  b_Sum (bucket_of vs) = zsum ((fun _ => 1) <$> vs) /\
  b_Success (bucket_of vs) = zsum (is_success <$> vs).
Proof.
  induction vs as [|v vs IH] using rev_ind; [done|].
  rewrite bucket_of_snoc, !fmap_app, !zsum_app. destruct IH as [<- <-].
  unfold is_success. simpl. unfold bucket_Add.
  destruct (v =? fail); [|destruct (v =? drop_)]; simpl; lia.
Qed.

(** Weights summed interval by interval are weights summed over the additions of
    those intervals. *)
Lemma sum_by_interval (g : Z -> Z) t0 iv (ns : list Z) (adds : list (addition (T := Z))) :
  NoDup ns ->
  zsum ((fun n => zsum (g <$> vals_in t0 iv n adds)) <$> ns) =
  zsum ((fun a => g (a_val a)) <$> filter (fun a => idx t0 iv (a_t1 a) ∈ ns) adds).
Proof.
  intros Hnd. induction adds as [|a adds IH].
  { induction ns as [|n ns IHn]; [done|]. apply NoDup_cons in Hnd as [_ Hnd].
    specialize (IHn Hnd). by rewrite fmap_cons. }
  assert (Hs : zsum ((fun n => zsum (g <$> vals_in t0 iv n (a :: adds))) <$> ns) =
    (if decide (idx t0 iv (a_t1 a) ∈ ns) then g (a_val a) else 0) +
    zsum ((fun n => zsum (g <$> vals_in t0 iv n adds)) <$> ns)).
  { clear IH. induction ns as [|n ns IHn].
    - rewrite decide_False by set_solver. done.
    - apply NoDup_cons in Hnd as [Hn Hnd]. specialize (IHn Hnd).
      rewrite !fmap_cons. change (zsum (?x :: ?l)) with (x + zsum l). rewrite IHn.
      assert (Hv : zsum (g <$> vals_in t0 iv n (a :: adds)) =
        (if decide (idx t0 iv (a_t1 a) = n) then g (a_val a) else 0) + zsum (g <$> vals_in t0 iv n adds)).
      { unfold vals_in. simpl. by destruct (decide (idx t0 iv (a_t1 a) = n)). }
      rewrite Hv. destruct (decide (idx t0 iv (a_t1 a) = n)) as [->|Hne].
      + rewrite (decide_False (P := n ∈ ns)), decide_True by set_solver. lia.
      + destruct (decide (idx t0 iv (a_t1 a) ∈ ns)).
        * rewrite decide_True by set_solver. lia.
        * rewrite decide_False by set_solver. lia. }
  rewrite Hs, filter_cons, IH.
  destruct (decide (idx t0 iv (a_t1 a) ∈ ns)); [done|apply Z.add_0_l].
Qed.

Lemma history_fold bs h :
  accepts (foldl history_step h bs) = accepts h + zsum (b_Success <$> bs) /\
  total (foldl history_step h bs) = total h + zsum (b_Sum <$> bs).
Proof.
  revert h. induction bs as [|b bs IH]; intros h; [unfold zsum; simpl; lia|].
  cbn [foldl]. destruct (IH (history_step h b)) as [-> ->].
  rewrite !fmap_cons. change (zsum (?x :: ?l)) with (x + zsum l). simpl. lia.
Qed.

(** The marks of the last [buckets] intervals at time [now]. *)
Definition recent (t0 now : Z) (marks : list (addition (T := Z))) : list (addition (T := Z)) :=
  let iv := Z.quot window_ buckets in
  filter (fun a => idx t0 iv now - buckets < idx t0 iv (a_t1 a)) marks.

Definition run_marks (b : googleBreaker) (marks : list (addition (T := Z))) : googleBreaker :=
  mkGoogle (foldl (fun rw a => Add (a_val a) (a_t1 a) (a_t2 a) rw) (gb_stat b) marks) (gb_lastPass b).

Lemma timely_le_cur t0 iv (adds : list (addition (T := Z))) a : timely t0 iv adds -> a ∈ adds ->
  idx t0 iv (a_t1 a) <= cur_of t0 iv adds.
Proof.
  intros Ht. revert a. induction Ht as [|adds b Ht IH H1 H2 H3 H4]; intros a Ha; [set_solver|].
  unfold cur_of at 1. rewrite last_snoc.
  apply elem_of_app in Ha as [Ha|Ha]; [specialize (IH a Ha); lia|].
  apply list_elem_of_singleton in Ha as ->. lia.
Qed.

(** The shared form of the property below. *)
Lemma history_counts (t0 now : Z) (b0 : googleBreaker)
    (marks : list (addition (T := Z))) :
  newGoogleBreaker t0 = Ok b0 -> timely t0 (Z.quot window_ buckets) marks ->
  cur_of t0 (Z.quot window_ buckets) marks <= idx t0 (Z.quot window_ buckets) now ->
  let h := history now (run_marks b0 marks) in
  total h = Z.of_nat (length (recent t0 now marks)) /\
  accepts h = zsum ((fun a => is_success (a_val a)) <$> recent t0 now marks).
Proof.
  intros Hnew Ht Hnow h. unfold newGoogleBreaker in Hnew.
  set (iv := Z.quot window_ buckets) in *.
  destruct (NewRollingWindow buckets iv t0 false) as [rw0|] eqn:Hrw; [|done].
  injection Hnew as <-.
  pose proof (reduce_groups t0 buckets iv now false rw0 marks Hrw eq_refl Ht Hnow)
    as Hred. cbn zeta in Hred. rewrite andb_false_r in Hred.
  set (ns := seqZ (idx t0 iv now - buckets + 1)
    (cur_of t0 iv marks - (idx t0 iv now - buckets + 1) + 1)) in Hred.
  subst h. unfold history, run_marks. cbn [gb_stat]. rewrite Hred.
  destruct (history_fold ((fun n => bucket_of (vals_in t0 iv n marks)) <$> ns) (mkResult 0 0 0 0))
    as [-> ->]. rewrite <- !list_fmap_compose. unfold compose.
  assert (Hfil : filter (fun a => idx t0 iv (a_t1 a) ∈ ns) marks = recent t0 now marks).
  { apply filter_ext_in. apply Forall_forall. intros a Ha.
    pose proof (timely_le_cur t0 iv marks a Ht Ha). subst ns. rewrite elem_of_seqZ. fold iv. lia. }
  rewrite (list_fmap_ext _ (fun n => zsum ((fun _ => 1) <$> vals_in t0 iv n marks)))
    by (intros; apply bucket_of_counts).
  rewrite (list_fmap_ext (fun n => b_Success _) (fun n => zsum (is_success <$> vals_in t0 iv n marks)))
    by (intros; apply bucket_of_counts).
  rewrite !sum_by_interval by (apply NoDup_seqZ). rewrite Hfil. simpl. split; [|done].
  clear. induction (recent t0 now marks) as [|a l IH]; [done|].
  rewrite fmap_cons. change (zsum (?x :: ?l)) with (x + zsum l). simpl. lia.
Qed.

(** After any timely sequence of marks on a new breaker, [history] reports as
    [total] the number of marks made in the last 40 intervals of 250ms (the 10-second
    window) and as [accepts] the number of those that are successes. *)
Theorem history_counts_recent_marks (t0 now : Z) (b0 : googleBreaker)
    (marks : list (addition (T := Z))) :
  newGoogleBreaker t0 = Ok b0 -> timely t0 (Z.quot window_ buckets) marks ->
  cur_of t0 (Z.quot window_ buckets) marks <= idx t0 (Z.quot window_ buckets) now ->
  let h := history now (run_marks b0 marks) in
  total h = Z.of_nat (length (recent t0 now marks)) /\
  accepts h = zsum ((fun a => is_success (a_val a)) <$> recent t0 now marks).
Proof. exact (history_counts t0 now b0 marks). Qed.

(** ** Acceptance *)

Section acceptance.
Context `{!Float64Laws F}.

Lemma AtLeast_ge x lower : f_leb lower (AtLeast x lower) = true.
Proof.
  unfold AtLeast. destruct (f_ltb x lower) eqn:Hlt; [apply f_leb_refl|].
  unfold f_leb. by rewrite Hlt.
Qed.

Lemma dropRatio0_nonpos h :
  0 <= accepts h < f_exact -> 0 <= total h < f_exact -> total h - protection <= accepts h ->
  f_leb (dropRatio0 h) (f_of_Z 0) = true.
Proof.
  intros Ha Ht Hle. unfold dropRatio0. apply f_div_nonpos; [|lia].
  apply f_sub_nonpos, f_mul_weight; [apply AtLeast_ge|done|done|].
  unfold protection, f_exact in *. lia.
Qed.

(** The marks in the window that are not successes. *)
Definition unsuccessful (t0 now : Z) (marks : list (addition (T := Z))) : Z :=
  Z.of_nat (length (recent t0 now marks)) -
  zsum ((fun a => is_success (a_val a)) <$> recent t0 now marks).

Lemma is_success_bounds (l : list (addition (T := Z))) :
  0 <= zsum ((fun a => is_success (a_val a)) <$> l) <= Z.of_nat (length l).
Proof.
  induction l as [|a l IH]; [done|]. rewrite fmap_cons.
  change (zsum (?x :: ?l)) with (x + zsum l). cbn [length].
  assert (0 <= is_success (a_val a) <= 1)
    by (unfold is_success; destruct (a_val a =? fail), (a_val a =? drop_); lia).
  lia.
Qed.

(** A breaker with at most [protection] (5) failures and drops among the marks of
    its 10-second window accepts every request, whatever is drawn and whenever the last
    pass was, and its state does not change. *)
Theorem healthy_breaker_accepts (t0 : Z) (b0 : googleBreaker) (marks : list (addition (T := Z)))
    (rd : readings) :
  newGoogleBreaker t0 = Ok b0 -> timely t0 (Z.quot window_ buckets) marks ->
  cur_of t0 (Z.quot window_ buckets) marks <= idx t0 (Z.quot window_ buckets) (rd_history rd) ->
  Z.of_nat (length marks) < f_exact ->
  unsuccessful t0 (rd_history rd) marks <= protection ->
  accept rd (run_marks b0 marks) = (None, run_marks b0 marks).
Proof.
  intros Hnew Ht Hnow Hlen Hun.
  destruct (history_counts t0 (rd_history rd) b0 marks Hnew Ht Hnow) as [Htot Hacc].
  unfold accept, unsuccessful in *.
  set (h := history (rd_history rd) (run_marks b0 marks)) in *.
  pose proof (is_success_bounds (recent t0 (rd_history rd) marks)) as Hb.
  assert (Hr : (length (recent t0 (rd_history rd) marks) <= length marks)%nat)
    by (unfold recent; apply length_filter).
  rewrite dropRatio0_nonpos; [done| | |]; rewrite ?Htot, ?Hacc; lia.
Qed.
End acceptance.

(** Every call of [doReq] leaves exactly one mark in the window: a drop when the
    breaker rejects (and then the request is not run), otherwise a success or a failure
    as [acceptable] judges the returned error, and a failure when the request panics,
    the panic being passed on. *)
Theorem doReq_marks_once (req : reqOutcome) fallback acceptable (rd : readings) (b : googleBreaker) :
  let '(res, ran, b') := doReq req fallback acceptable rd b in
  gb_stat b' =
    Add (if ran then
           match req with
           | ReqReturns err => if acceptable err then success else fail
           | ReqPanics => fail
           end
         else drop_) (rd_mark1 rd) (rd_mark2 rd) (gb_stat b) /\
  ran = bool_decide ((accept rd b).1 = None) /\
  (ran = true -> res = match req with
                       | ReqReturns err => Returned (UserError <$> err)
                       | ReqPanics => Panicked
                       end) /\
  (ran = false -> res = Returned (match fallback with
                                  | Some fb => fb ErrServiceUnavailable
                                  | None => Some ErrServiceUnavailable
                                  end)).
Proof.
  assert (Hst : gb_stat (accept rd b).2 = gb_stat b /\
          forall e, (accept rd b).1 = Some e -> e = ErrServiceUnavailable).
  { unfold accept. repeat go_case; simpl; split; try done; intros e; congruence. }
  destruct Hst as [Hst Herr]. unfold doReq.
  destruct (accept rd b) as [[err|] b1]; simpl in *.
  - rewrite (Herr err eq_refl). destruct fallback; simpl;
      (split; [by rewrite Hst|done]).
  - destruct req as [err|]; simpl.
    + split; [|done].
      destruct (acceptable err); simpl; by rewrite Hst.
    + split; [by rewrite Hst|done].
Qed.

(** ** The error window *)

(** The five slots hold the last five reasons, at their indices modulo five. *)
Definition ew_rep (rs : list gostr) (ew : errorWindow) : Prop :=
  length (ew_reasons ew) = numHistoryReasons /\
  ew_index ew = (length rs mod numHistoryReasons)%nat /\
  ew_count ew = Nat.min (length rs) numHistoryReasons /\
  forall i r, rs !! i = Some r -> (length rs <= i + numHistoryReasons)%nat ->
    ew_reasons ew !! (i mod numHistoryReasons)%nat = Some r.

Lemma ew_add_rep rs ew r : ew_rep rs ew -> ew_rep (rs ++ [r]) (ew_add r ew).
Proof.
  intros (Hl & Hi & Hc & He). unfold ew_rep, ew_add. cbn [ew_reasons ew_index ew_count].
  rewrite length_insert, length_app. cbn [length]. split; [done|]. split_and!.
  - by rewrite Hi, Nat.Div0.add_mod_idemp_l.
  - lia.
  - intros i r' Hr Hge. rewrite Hi. unfold numHistoryReasons in *.
    destruct (decide (i = length rs)) as [->|Hne].
    + rewrite lookup_app_r, Nat.sub_diag in Hr by lia. injection Hr as ->.
      apply list_lookup_insert_eq. rewrite Hl. apply Nat.mod_upper_bound. lia.
    + assert (i < length rs)%nat
        by (apply lookup_lt_Some in Hr; rewrite length_app in Hr; simpl in Hr; lia).
      rewrite lookup_app_l in Hr by lia.
      rewrite list_lookup_insert_ne; [apply He; [done|lia]|].
      intros Heq. apply Hne. symmetry in Heq. apply (mod_inj_window i (length rs) 5); lia.
Qed.

(** [errorWindow.String] lists the last five remembered reasons (or all, when there
    are fewer), the newest first. *)
Theorem error_window_newest_first (rs : list gostr) :
  ew_list (foldl (fun ew r => ew_add r ew) newErrorWindow rs) =
  reverse (lastn numHistoryReasons rs).
Proof.
  assert (Hrep : ew_rep rs (foldl (fun ew r => ew_add r ew) newErrorWindow rs)).
  { induction rs as [|r rs IH] using rev_ind; [done|].
    rewrite foldl_app. by apply ew_add_rep. }
  destruct Hrep as (Hl & Hi & Hc & He).
  set (ew := foldl _ _ rs) in *. unfold ew_list. rewrite Hc.
  set (n := length rs) in *.
  assert (Hone : forall j, (j < Nat.min n numHistoryReasons)%nat ->
    ew_reasons ew !! Z.to_nat (Z.rem (Z.of_nat (ew_index ew) - 1 - Z.of_nat j + Z.of_nat numHistoryReasons)
      (Z.of_nat numHistoryReasons)) = rs !! (n - 1 - j)%nat).
  { intros j Hj. unfold numHistoryReasons in *.
    destruct (lookup_lt_is_Some_2 rs (n - 1 - j)) as [r Hr]; [subst n; lia|].
    rewrite Hr. rewrite <- (He (n - 1 - j)%nat r Hr) by (subst n; lia). f_equal.
    rewrite Hi. rewrite Z.rem_mod_nonneg by lia.
    rewrite Nat2Z.inj_mod. apply Nat2Z.inj. rewrite Z2Nat.id by (apply Z.mod_pos_bound; lia).
    rewrite Nat2Z.inj_mod. change (Z.of_nat 5) with 5.
    replace (Z.of_nat n mod 5 - 1 - Z.of_nat j + 5) with (Z.of_nat n mod 5 + (4 - Z.of_nat j)) by lia.
    rewrite Zplus_mod_idemp_l. rewrite <- (Z_mod_plus_full (Z.of_nat (n - 1 - j)) 1 5).
    f_equal. lia. }
  apply list_eq. intros i.
  assert (Homap : forall k s, (s + k <= Nat.min n numHistoryReasons)%nat ->
     omap (fun j => ew_reasons ew !!
          Z.to_nat (Z.rem (Z.of_nat (ew_index ew) - 1 - Z.of_nat j + Z.of_nat numHistoryReasons)
                      (Z.of_nat numHistoryReasons))) (seq s k) !! i =
     (if decide (i < k)%nat then rs !! (n - 1 - (s + i))%nat else None)).
  { intros k. revert i. induction k as [|k IH]; intros i s Hk.
    - rewrite decide_False by lia. by destruct i.
    - cbn [seq omap list_omap]. rewrite Hone by lia.
      destruct (lookup_lt_is_Some_2 rs (n - 1 - s)) as [r Hr]; [subst n; lia|]. rewrite Hr.
      destruct i as [|i]; cbn [lookup list_lookup].
      + by rewrite decide_True, Nat.add_0_r, Hr by lia.
      + rewrite IH by lia. replace (s + S i)%nat with (S s + i)%nat by lia.
        destruct (decide (i < k)%nat); [by rewrite decide_True by lia|by rewrite decide_False by lia]. }
  rewrite Homap by lia.
  destruct (decide (i < Nat.min n numHistoryReasons)%nat) as [Hlt|Hge].
  - rewrite reverse_lookup by (rewrite length_lastn; fold n; lia).
    rewrite lookup_lastn, length_lastn. fold n. f_equal. lia.
  - symmetry. apply lookup_ge_None_2. rewrite length_reverse, length_lastn. fold n. lia.
Qed.
End breaker.

#[global] Arguments readings : clear implicits.

(** ** Witnesses, with exact rationals as the floating-point numbers *)

#[export] Instance Q_float : Float64 Q := {|
  f_of_Z z := inject_Z z;
  f_1_5 := 3 # 2;
  f_1_1 := 11 # 10;
  f_sub := Qminus;
  f_mul := Qmult;
  f_div := Qdiv;
  f_ltb a b := negb (Qle_bool b a)
|}.

#[export] Instance Q_float_laws : Float64Laws Q.
Proof.
  split; unfold f_leb; simpl; intros *; rewrite ?negb_involutive, ?Qle_bool_iff.
  - intros H. unfold Qminus. rewrite <- (Qplus_opp_r b). by apply Qplus_le_l.
  - intros H Hz. unfold Qdiv. rewrite <- (Qmult_0_l (/ inject_Z z)).
    apply Qmult_le_compat_r; [done|]. apply Qinv_le_0_compat.
    change (inject_Z 0 <= inject_Z z)%Q. rewrite <- Zle_Qle. lia.
  - intros Hw Hn Hm _. apply Qle_trans with (inject_Z n); [by rewrite <- Zle_Qle|].
    rewrite <- (Qmult_1_l (inject_Z n)) at 1. apply Qmult_le_compat_r.
    + by apply Qle_trans with (11 # 10).
    + change (inject_Z 0 <= inject_Z n)%Q. rewrite <- Zle_Qle. lia.
  - apply Qle_refl.
Qed.

(** One success and two failures, one every 100ms. *)
Definition demo_marks : list (addition (T := Z)) :=
  [mkAddition success 100000000 100000000; mkAddition fail 200000000 200000000;
   mkAddition fail 300000000 300000000].

Lemma demo_marks_timely : timely 0 (Z.quot window_ buckets) demo_marks.
Proof.
  assert (H0 : timely (T := Z) 0 (Z.quot window_ buckets) []) by constructor.
  apply (timely_snoc _ _ _ (mkAddition success 100000000 100000000)) in H0; [|done..].
  apply (timely_snoc _ _ _ (mkAddition fail 200000000 200000000)) in H0; [|done..].
  by apply (timely_snoc _ _ _ (mkAddition fail 300000000 300000000)) in H0.
Qed.

Lemma history_counts_recent_marks_witness :
  exists b0, newGoogleBreaker 0 = Ok b0 /\
  total (history 300000001 (run_marks b0 demo_marks)) = 3 /\
  accepts (history 300000001 (run_marks b0 demo_marks)) = 1.
Proof.
  eexists. split; [reflexivity|].
  apply (history_counts_recent_marks 0 300000001 _ demo_marks eq_refl demo_marks_timely).
  vm_compute. discriminate.
Defined.

Lemma healthy_breaker_accepts_witness :
  exists b0, newGoogleBreaker 0 = Ok b0 /\
  accept (E := unit) (mkReadings 300000001 0 0 (1 # 2) 0 0) (run_marks b0 demo_marks) =
  (None, run_marks b0 demo_marks).
Proof.
  eexists. split; [reflexivity|].
  apply (healthy_breaker_accepts (F := Q) (E := unit) 0 _ demo_marks
           (mkReadings 300000001 0 0 (1 # 2) 0 0) eq_refl demo_marks_timely);
    vm_compute; (reflexivity || discriminate).
Defined.
