(* ===== verification/Cache.v ===== *)
(** * [core/collection/cache.go]: the in-memory cache

    A [Cache] is a map whose entries expire through the timing wheel and, with
    [WithLimit], are evicted least recently used first.  The cache talks to the
    wheel by sending it events; [c_out] is the log of what it sent, in order.
    [world] puts cache and wheel together, with the deletions the wheel's callback
    still has to make, and [wstep] is one step of any goroutine on it. *)

From S2P Require Import Prelude.
From S2P Require Import Interfaces.
From S2P Require Import SafeMap.
From S2P Require Import TimingWheel.

Section cache.
Context {V E : Type}.

(** ** [keyLru] *)

(** [evicts] from front to back; [elements] has exactly its keys, so it is read off
    the list. The container/list operations are those of a list without repetitions. *)
Record keyLru := mkLru { kl_limit : nat; kl_evicts : list gostr }.

Definition newKeyLru (limit : nat) : keyLru := mkLru limit [].

Definition MoveToFront (key : gostr) (l : list gostr) : list gostr :=
  key :: filter (fun x => x <> key) l.

(** [removeElement]: the new list and the key for [onEvict] *)
Definition removeElement (key : gostr) (k : keyLru) : keyLru * option gostr :=
  (mkLru (kl_limit k) (filter (fun x => x <> key) (kl_evicts k)), Some key).

(** [removeOldest] *)
Definition removeOldest (k : keyLru) : keyLru * option gostr :=
  match last (kl_evicts k) with
  | Some key => removeElement key k
  | None => (k, None)
  end.

(** [keyLru.add]: the evicted key, if any *)
Definition klru_add (key : gostr) (k : keyLru) : keyLru * option gostr :=
  if decide (key ∈ kl_evicts k) then (mkLru (kl_limit k) (MoveToFront key (kl_evicts k)), None)
  else
    let k := mkLru (kl_limit k) (key :: kl_evicts k) in
    if kl_limit k <? length (kl_evicts k) then removeOldest k else (k, None).

(** [keyLru.remove] *)
Definition klru_remove (key : gostr) (k : keyLru) : keyLru * option gostr :=
  if decide (key ∈ kl_evicts k) then removeElement key k else (k, None).

(** ** [Cache] *)

Record cacheStat := mkStat { st_hit : Z; st_miss : Z }.

Definition u64 (z : Z) : Z := (z mod 2 ^ 64)%Z.
Definition IncrementHit (s : cacheStat) : cacheStat := mkStat (u64 (st_hit s + 1)) (st_miss s).
Definition IncrementMiss (s : cacheStat) : cacheStat := mkStat (st_hit s) (u64 (st_miss s + 1)).

(** The body of [statLoop] at one tick of its ticker: both counters are swapped with 0;
    [Some] is what is logged (total, size, hit, miss), [None] when there was no request. *)
Definition statLoop_tick (size : nat) (s : cacheStat) : cacheStat * option (Z * nat * Z * Z) :=
  let total := u64 (st_hit s + st_miss s) in
  (mkStat 0 0, if (total =? 0)%Z then None else Some (total, size, st_hit s, st_miss s)).

(** [lruCache] is [None] for [emptyLruCache]. *)
Record Cache := mkCache {
  c_data : gmap gostr V;
  c_expire : Z;
  c_lru : option keyLru;
  c_stats : cacheStat;
  c_out : list (event gostr V)
}.

(** [NewCache] with the option [WithLimit]; a limit that is not positive is ignored. *)
Definition WithLimit (limit : Z) : option keyLru :=
  if (0 <? limit)%Z then Some (newKeyLru (Z.to_nat limit)) else None.

Definition NewCache (expire limit : Z) : Cache :=
  mkCache ∅ expire (WithLimit limit) (mkStat 0 0) [].

(** A call of a timing wheel method: what passes its checks is sent. *)
Definition send (r : tw_error + event gostr V) (c : Cache) : Cache :=
  mkCache (c_data c) (c_expire c) (c_lru c) (c_stats c)
    (c_out c ++ match r with inr ev => [ev] | inl _ => [] end).

Definition set_data (f : gmap gostr V -> gmap gostr V) (c : Cache) : Cache :=
  mkCache (f (c_data c)) (c_expire c) (c_lru c) (c_stats c) (c_out c).

Definition set_stats (f : cacheStat -> cacheStat) (c : Cache) : Cache :=
  mkCache (c_data c) (c_expire c) (c_lru c) (f (c_stats c)) (c_out c).

(** [onEvict] *)
Definition onEvict (key : gostr) (c : Cache) : Cache :=
  send (RemoveTimer false (Some key)) (set_data (delete key) c).

(** The calls [c.lruCache.add(key)] and [c.lruCache.remove(key)], with the callback *)
Definition lru_call (f : keyLru -> keyLru * option gostr) (c : Cache) : Cache :=
  match c_lru c with
  | None => c
  | Some k =>
    let '(k, ev) := f k in
    let c := mkCache (c_data c) (c_expire c) (Some k) (c_stats c) (c_out c) in
    match ev with Some key => onEvict key c | None => c end
  end.

(** [Del] *)
Definition Del (key : gostr) (c : Cache) : Cache :=
  send (RemoveTimer false (Some key)) (lru_call (klru_remove key) (set_data (delete key) c)).

(** [doGet] *)
Definition doGet (key : gostr) (c : Cache) : option V * Cache :=
  match c_data c !! key with
  | Some value => (Some value, lru_call (klru_add key) c)
  | None => (None, c)
  end.

(** [Get] *)
Definition Get (key : gostr) (c : Cache) : option V * Cache :=
  match doGet key c with
  | (Some v, c) => (Some v, set_stats IncrementHit c)
  | (None, c) => (None, set_stats IncrementMiss c)
  end.

(** [SetWithExpire]; [expiry] is [expire] as [unstableExpiry.AroundDuration] made it. *)
Definition SetWithExpire (key : gostr) (value : V) (expiry : Z) (c : Cache) : Cache :=
  let ok := bool_decide (is_Some (c_data c !! key)) in
  let c := lru_call (klru_add key) (set_data (insert key value) c) in
  if ok then send (MoveTimer false (Some key) expiry) c
  else send (SetTimer false (Some key) value expiry) c.

(** [Set] uses the cache's own expire; [around] is [AroundDuration]. *)
Definition Set_ (around : Z -> Z) (key : gostr) (value : V) (c : Cache) : Cache :=
  SetWithExpire key value (around (c_expire c)) c.

(** How [barrier.Do] treats one caller: it runs the function itself (after other
    goroutines have changed the cache by [interfere]), or it waits for the call in
    flight and gets that call's result, finding the cache as [c']. *)
Inductive flight :=
| Leader (interfere : Cache -> Cache)
| Follower (result : E + V) (c' : Cache).

(** [Take] *)
Definition Take (around : Z -> Z) (key : gostr) (fetch : E + V) (fl : flight) (c : Cache)
    : (E + V) * Cache :=
  match doGet key c with
  | (Some v, c) => (inr v, set_stats IncrementHit c)
  | (None, c) =>
    match fl with
    | Leader interfere =>
      match doGet key (interfere c) with
      | (Some v, c) => (inr v, set_stats IncrementHit c)
      | (None, c) =>
        match fetch with
        | inl e => (inl e, c)
        | inr v => (inr v, set_stats IncrementMiss (Set_ around key v c))
        end
      end
    | Follower (inl e) c' => (inl e, c')
    | Follower (inr v) c' => (inr v, set_stats IncrementHit c')
    end
  end.

(** [size] *)
Definition size_ (c : Cache) : nat := size (c_data c).

(** ** The recency list *)

(** All keys by last access, the most recent first. *)
Definition recency (accesses : list gostr) : list gostr :=
  foldl (fun l k => MoveToFront k l) [] accesses.

Lemma MoveToFront_nodup key l : NoDup l -> NoDup (MoveToFront key l).
Proof.
  intros Hl. unfold MoveToFront. constructor; [|by apply NoDup_filter].
  rewrite list_elem_of_filter. tauto.
Qed.

(** Dropping one key from a list without repetitions commutes with truncation, up to
    the one element that moves up. *)
Lemma take_filter_ne n key (l : list gostr) : NoDup l ->
  take n (filter (fun x => x <> key) (take (S n) l)) = take n (filter (fun x => x <> key) l).
Proof.
  revert n. induction l as [|x l IH]; intros n Hnd; [done|].
  apply NoDup_cons in Hnd as [Hx Hnd]. cbn [take]. rewrite !filter_cons.
  destruct (decide (x <> key)) as [Hne|He].
  - destruct n as [|n]; [done|]. cbn [take]. f_equal. by apply IH.
  - assert (x = key) as <- by (by destruct (decide (x = key))).
    rewrite !filter_id; [by rewrite take_take, Nat.min_id| |].
    + apply Forall_forall. by intros y Hy ->.
    + apply Forall_forall. intros y Hy ->. apply elem_of_take in Hy as (i & Hi & _).
      by apply list_elem_of_lookup_2 in Hi.
Qed.

Lemma klru_add_take key k : NoDup (kl_evicts k) -> 0 < kl_limit k ->
  length (kl_evicts k) <= kl_limit k ->
  kl_limit (klru_add key k).1 = kl_limit k /\
  kl_evicts (klru_add key k).1 = take (kl_limit k) (MoveToFront key (kl_evicts k)).
Proof.
  intros Hnd Hlim Hlen. unfold klru_add, MoveToFront.
  destruct (decide (key ∈ kl_evicts k)) as [Hin|Hout].
  - split; [done|]. simpl. rewrite take_ge; [done|].
    pose proof (length_filter_lt (fun x => x <> key) _ _ Hin (fun H => H eq_refl)).
    simpl. lia.
  - rewrite (filter_id (fun x => x <> key) (kl_evicts k))
      by (apply Forall_forall; by intros x Hx ->).
    cbn [kl_limit kl_evicts length]. destruct (Nat.ltb_spec (kl_limit k) (S (length (kl_evicts k)))).
    + assert (Heq : length (kl_evicts k) = kl_limit k) by lia.
      destruct (kl_evicts k) as [|y l _] eqn:Ek using rev_ind; [simpl in *; lia|].
      unfold removeOldest. cbn [kl_evicts].
      rewrite app_comm_cons, last_snoc. unfold removeElement. cbn [fst kl_limit kl_evicts].
      split; [done|]. rewrite <- Heq, length_app. simpl length.
      replace (length l + 1) with (length (key :: l)) by (simpl; lia).
      rewrite take_app_length, filter_app, (filter_cons_False _ y []) by tauto.
      rewrite app_nil_r. apply filter_id. apply Forall_forall.
      apply NoDup_app in Hnd as (Hnd & Hd & _).
      intros x Hx ->. apply elem_of_cons in Hx as [->|Hx].
      * apply Hout. set_solver.
      * apply (Hd y Hx). set_solver.
    + split; [done|]. simpl. by rewrite take_ge by (simpl; lia).
Qed.

Lemma NoDup_take {A} n (l : list A) : NoDup l -> NoDup (take n l).
Proof. intros H. rewrite <- (take_drop n l) in H. by apply NoDup_app in H as [? _]. Qed.

Lemma recency_nodup h : NoDup (recency h).
Proof.
  induction h as [|k h IH] using rev_ind; [constructor|].
  unfold recency. rewrite foldl_app. by apply MoveToFront_nodup.
Qed.

(** An LRU list of limit [L] that has seen the accesses [h] holds exactly the [L]
    most recently accessed keys, in order of their last access. *)
Theorem lru_keeps_most_recent (L : nat) (h : list gostr) :
  0 < L ->
  kl_evicts (foldl (fun k key => (klru_add key k).1) (newKeyLru L) h) = take L (recency h).
Proof.
  intros HL.
  assert (H : let k := foldl (fun k key => (klru_add key k).1) (newKeyLru L) h in
              kl_limit k = L /\ kl_evicts k = take L (recency h)); [|apply H].
  induction h as [|key h IH] using rev_ind; [by destruct L|].
  unfold recency in *. rewrite !foldl_app. cbn [foldl].
  set (k := foldl _ (newKeyLru L) h) in *. set (r := foldl _ [] h) in *.
  destruct IH as [Hl He]. pose proof (recency_nodup h) as Hnd. fold (recency h) in r.
  destruct (klru_add_take key k) as [E1 E2]; rewrite ?He, ?Hl, ?length_take; try lia.
  { by apply NoDup_take. }
  split; [congruence|]. rewrite E2, He, Hl. destruct L as [|n]; [lia|].
  unfold MoveToFront. cbn [take]. f_equal. by apply take_filter_ne.
Qed.

(** ** The bound on the size *)

(** Data and LRU list agree, and the limit is kept. *)
Definition cache_inv (limit : nat) (c : Cache) : Prop :=
  exists k, c_lru c = Some k /\ kl_limit k = limit /\ NoDup (kl_evicts k) /\
    length (kl_evicts k) <= limit /\ forall key, is_Some (c_data c !! key) <-> key ∈ kl_evicts k.

Lemma cache_inv_data limit c f : cache_inv limit c ->
  c_data (f c) = c_data c -> c_lru (f c) = c_lru c -> cache_inv limit (f c).
Proof. unfold cache_inv. intros H -> ->. done. Qed.

Lemma klru_add_evicted key k e : (klru_add key k).2 = Some e -> 0 < kl_limit k ->
  key ∉ kl_evicts k /\ kl_evicts (klru_add key k).1 = filter (fun x => x <> e) (key :: kl_evicts k) /\
  e ∈ kl_evicts k.
Proof.
  unfold klru_add. destruct (decide (key ∈ kl_evicts k)); [done|]. simpl.
  destruct (Nat.ltb_spec (kl_limit k) (S (length (kl_evicts k)))); [|done].
  unfold removeOldest. cbn [kl_evicts]. intros He Hlim.
  destruct (kl_evicts k) as [|y l _] eqn:Ek using rev_ind; [simpl in *; lia|].
  rewrite app_comm_cons, last_snoc in *. simpl in He. injection He as <-.
  split; [done|]. split; [done|]. set_solver.
Qed.

Lemma klru_add_none key k : (klru_add key k).2 = None ->
  forall x, x ∈ kl_evicts (klru_add key k).1 <-> x = key \/ x ∈ kl_evicts k.
Proof.
  unfold klru_add. destruct (decide (key ∈ kl_evicts k)) as [Hin|Hin]; simpl.
  - intros _ x. unfold MoveToFront. rewrite elem_of_cons, list_elem_of_filter.
    destruct (decide (x = key)) as [->|]; naive_solver.
  - destruct (Nat.ltb_spec (kl_limit k) (S (length (kl_evicts k)))).
    + unfold removeOldest. cbn [kl_evicts].
      destruct (last (key :: kl_evicts k)) eqn:El; [done|]. intros _ x. simpl. set_solver.
    + intros _ x. simpl. set_solver.
Qed.

(** An LRU touch of a key whose data is already there. *)
Lemma lru_touch_inv limit key c k :
  0 < limit -> c_lru c = Some k -> kl_limit k = limit -> NoDup (kl_evicts k) ->
  length (kl_evicts k) <= limit ->
  (forall x, is_Some (c_data c !! x) <-> x = key \/ x ∈ kl_evicts k) ->
  cache_inv limit (lru_call (klru_add key) c).
Proof.
  intros Hpos Hk Hlim Hnd Hlen Hdata. unfold lru_call. rewrite Hk.
  destruct (klru_add_take key k) as [E1 E2]; try done; [lia..|].
  assert (Hnd' : NoDup (kl_evicts (klru_add key k).1))
    by (rewrite E2; apply NoDup_take, MoveToFront_nodup; done).
  assert (Hlen' : length (kl_evicts (klru_add key k).1) <= limit)
    by (rewrite E2, length_take, Hlim; lia).
  destruct (klru_add key k) as [k' [e|]] eqn:Ea; simpl in *.
  - destruct (klru_add_evicted key k e) as (Hout & Ek & Hin); rewrite ?Ea; [done|lia|].
    rewrite Ea in Ek. simpl in Ek. exists k'. split; [done|]. split; [congruence|].
    split; [done|]. split; [done|]. intros x. simpl.
    rewrite lookup_delete_is_Some, Hdata, Ek, list_elem_of_filter, elem_of_cons. naive_solver.
  - exists k'. split; [done|]. split; [congruence|]. split; [done|]. split; [done|].
    intros x. simpl. rewrite Hdata. pose proof (klru_add_none key k) as Hn. rewrite Ea in Hn.
    simpl in Hn. by rewrite Hn.
Qed.

Lemma SetWithExpire_inv limit key v d c : 0 < limit -> cache_inv limit c ->
  cache_inv limit (SetWithExpire key v d c).
Proof.
  intros Hpos (k & Hk & Hlim & Hnd & Hlen & Hdata). unfold SetWithExpire.
  assert (H : cache_inv limit (lru_call (klru_add key) (set_data (insert key v) c))).
  { eapply lru_touch_inv; eauto. intros x. simpl. rewrite lookup_insert_is_Some, Hdata.
    destruct (decide (key = x)); naive_solver. }
  go_case; by apply (cache_inv_data _ _ (send _)).
Qed.

Lemma doGet_inv limit key c : 0 < limit -> cache_inv limit c -> cache_inv limit (doGet key c).2.
Proof.
  intros Hpos Hc. unfold doGet. destruct (c_data c !! key) eqn:Hd; [|done]. simpl.
  destruct Hc as (k & Hk & Hlim & Hnd & Hlen & Hdata).
  eapply lru_touch_inv; eauto. intros x. rewrite Hdata.
  assert (key ∈ kl_evicts k) by (apply Hdata; eauto). naive_solver.
Qed.

Lemma Del_inv limit key c : cache_inv limit c -> cache_inv limit (Del key c).
Proof.
  intros (k & Hk & Hlim & Hnd & Hlen & Hdata). unfold Del, lru_call. simpl. rewrite Hk.
  unfold klru_remove. destruct (decide (key ∈ kl_evicts k)) as [Hin|Hin]; simpl.
  - eexists. split; [done|]. split; [done|]. split; [by apply NoDup_filter|]. simpl.
    split; [pose proof (length_filter (fun x => x <> key) (kl_evicts k)); lia|].
    intros x. rewrite !lookup_delete_is_Some, Hdata, list_elem_of_filter. naive_solver.
  - exists k. do 4 (split; [done|]). intros x. simpl.
    rewrite lookup_delete_is_Some, Hdata. split; [tauto|]. intros Hx. split; [|done]. by intros <-.
Qed.

(** The calls a client can make, one after the other. *)
Inductive cop :=
| OpSet (key : gostr) (v : V) (expiry : Z)
| OpGet (key : gostr)
| OpDel (key : gostr).

Definition cstep (c : Cache) (o : cop) : Cache :=
  match o with
  | OpSet k v d => SetWithExpire k v d c
  | OpGet k => (Get k c).2
  | OpDel k => Del k c
  end.

Lemma cstep_inv limit c o : 0 < limit -> cache_inv limit c -> cache_inv limit (cstep c o).
Proof.
  intros Hpos Hc. destruct o as [k v d|k|k]; simpl.
  - by apply SetWithExpire_inv.
  - unfold Get. pose proof (doGet_inv limit k c Hpos Hc).
    destruct (doGet k c) as [[v|] c']; simpl in *; by apply (cache_inv_data _ _ (set_stats _)).
  - by apply Del_inv.
Qed.

Lemma cache_inv_size limit c : cache_inv limit c -> size_ c <= limit.
Proof.
  intros (k & Hk & Hlim & Hnd & Hlen & Hdata). unfold size_.
  rewrite <- size_dom.
  assert (dom (c_data c) = list_to_set (kl_evicts k)) as ->
    by (apply set_eq; intros x; rewrite elem_of_dom, elem_of_list_to_set; apply Hdata).
  rewrite size_list_to_set; done.
Qed.

(** A cache created with a positive limit never holds more entries than the limit,
    after any sequence of [Set], [Get] and [Del] and through [Take] with any interference
    of such calls, and the keys it holds are exactly those of its LRU list. *)
Theorem cache_size_bounded (expire limit : Z) (around : Z -> Z) (ops others : list cop)
    (key : gostr) (fetch : E + V) :
  (0 < limit)%Z ->
  let c := foldl cstep (NewCache expire limit) ops in
  let c' := (Take around key fetch (Leader (fun c => foldl cstep c others)) c).2 in
  (size_ c <= Z.to_nat limit /\ cache_inv (Z.to_nat limit) c) /\
  (size_ c' <= Z.to_nat limit /\ cache_inv (Z.to_nat limit) c').
Proof.
  intros Hpos c c'. set (L := Z.to_nat limit). assert (HL : 0 < L) by lia.
  assert (Hrun : forall ops c, cache_inv L c -> cache_inv L (foldl cstep c ops)).
  { induction ops0 as [|o os IH]; intros c0 Hc0; [done|]. by apply IH, cstep_inv. }
  assert (Hc : cache_inv L c).
  { apply Hrun. unfold NewCache, WithLimit. destruct (Z.ltb_spec 0 limit); [|lia].
    exists (newKeyLru L). simpl. do 2 (split; [done|]). split; [constructor|]. split; [lia|].
    intros x. rewrite lookup_empty. split; [by intros []|set_solver]. }
  assert (Hc' : cache_inv L c').
  { subst c'. unfold Take. pose proof (doGet_inv L key c HL Hc) as Hg.
    destruct (doGet key c) as [[v|] c1]; simpl in *; [by apply (cache_inv_data _ _ (set_stats _))|].
    pose proof (doGet_inv L key _ HL (Hrun others c1 Hg)) as Hg2.
    destruct (doGet key (foldl cstep c1 others)) as [[v|] c2]; simpl in *;
      [by apply (cache_inv_data _ _ (set_stats _))|].
    destruct fetch as [e|v]; simpl; [done|]. apply (cache_inv_data _ _ (set_stats _)); [|done..].
    by apply SetWithExpire_inv. }
  split; (split; [by apply cache_inv_size|done]).
Qed.

(** ** Cache and wheel together *)

Abbreviation wheel := (TimingWheel gostr V (@SafeMap gostr positionEntry _ _)).

Definition exec_keys (out : list (action (K := gostr) (V := V))) : list gostr :=
  omap (fun a => match a with Executed k _ => Some k | Drained _ _ => None end) out.

(** The keys in [w_pending] were handed by the wheel to the callback of [NewCache],
    whose goroutine has not yet called [cache.Del]. *)
Record world := mkWorld { w_cache : Cache; w_wheel : wheel; w_pending : list gostr }.

(** The cache does [f]; the wheel then receives what it sent, in order. *)
Definition cache_does (f : Cache -> Cache) (w : world) : world :=
  let c := f (mkCache (c_data (w_cache w)) (c_expire (w_cache w)) (c_lru (w_cache w))
                (c_stats (w_cache w)) []) in
  let '(tw, outs) := run (c_out c) (w_wheel w) in
  mkWorld c tw (w_pending w ++ concat (exec_keys <$> outs)).

Definition wheel_ticks (w : world) : world :=
  let '(tw, out) := onTick (w_wheel w) in
  mkWorld (w_cache w) tw (w_pending w ++ exec_keys out).

Inductive wstep : world -> world -> Prop :=
| ws_op w o :
    match o with OpSet _ _ d => (0 < d)%Z | _ => True end ->
    wstep w (cache_does (fun c => cstep c o) w)
| ws_tick w : wstep w (wheel_ticks w)
| ws_expire w c tw p1 k p2 :
    w = mkWorld c tw (p1 ++ k :: p2) ->
    wstep w (cache_does (Del k) (mkWorld c tw (p1 ++ p2))).

(** Every entry has a timer, or its deletion is on its way. *)
Definition covered (w : world) : Prop :=
  tw_inv (w_wheel w) /\
  forall k, is_Some (c_data (w_cache w) !! k) ->
    timer_view (w_wheel w) k <> None \/ k ∈ w_pending w.

Lemma exec_of_keys (k : gostr) (out : list (action (V := V))) : exec_of k out <> [] -> k ∈ exec_keys out.
Proof.
  induction out as [|a out IH]; [done|]. unfold exec_of, exec_keys in *. simpl.
  destruct a as [k' v|k' v]; simpl; [|done]. destruct (decide (k' = k)) as [->|]; set_solver.
Qed.

Lemma setTask_self (tw : wheel) k v d : tw_inv tw ->
  let '(tw', out) := setTask k v d tw in tw_inv tw' /\ timer_view tw' k <> None.
Proof.
  intros Hi. unfold setTask.
  set (d' := if (d <? tw_interval tw)%Z then tw_interval tw else d).
  assert (Hd' : (d' <? tw_interval tw)%Z = false)
    by (subst d'; destruct (Z.ltb_spec d (tw_interval tw)); apply Z.ltb_ge; lia).
  destruct (timer_view tw k) as [[p e]|] eqn:Hv.
  - destruct (view_Some _ _ _ _ Hi Hv) as (l & Hg & He & Hin & Hk & Hr & Hdf).
    rewrite Hg. cbn [pe_item]. rewrite He.
    set (tw1 := set_entry l (te_set_value v e) tw).
    assert (Hi1 : tw_inv tw1) by (eapply inv_set_entry; eauto).
    assert (Hv1 : timer_view tw1 k = Some (p, te_set_value v e)).
    { unfold timer_view. subst tw1. simpl. simpl in Hg. rewrite Hg. simpl. by rewrite lookup_insert_eq. }
    pose proof (moveTask_spec tw1 k d' Hi1) as Hm. rewrite Hv1 in Hm.
    destruct (moveTask k d' tw1) as [tw' out]. destruct Hm as (Hi' & _ & _ & Hm).
    change (tw_interval tw1) with (tw_interval tw) in Hm. rewrite Hd' in Hm.
    destruct (getPositionAndCircle tw1 d') as [pos circle]. destruct Hm as (_ & d0 & ->). done.
  - apply view_None in Hv; [|done].
    pose proof (setTask_fresh_spec tw k v d' Hi Hv) as Hs. cbn zeta in Hs. rewrite Hd' in Hs.
    unfold setTask in Hs. rewrite Hv, Hd' in Hs. rewrite Hv.
    destruct (getPositionAndCircle tw d') as [pos circle].
    destruct (alloc _ tw) as [l tw1]. destruct Hs as (Hi' & _ & _ & -> & _). done.
Qed.

(** One event keeps a key covered, unless it removes the key. *)
Lemma event_covers (tw : wheel) k ev : tw_inv tw -> ev <> EvDrain ->
  let '(tw', out) := run_event ev tw in
  tw_inv tw' /\
  (ev <> EvRemove k -> timer_view tw k <> None -> timer_view tw' k <> None \/ k ∈ exec_keys out) /\
  ((exists v d, ev = EvSet k v d) -> timer_view tw' k <> None).
Proof.
  intros Hi Hnd. destruct ev as [|k' v d|k'|k' d|]; simpl; [| | | |done].
  - pose proof (onTick_spec tw k Hi) as Ht. destruct (onTick tw) as [tw' out].
    destruct Ht as (Hi' & _ & _ & Ht). split; [done|]. split; [|by intros (? & ? & ?)].
    intros _ Hv. destruct (timer_view tw k) as [[p e]|]; [|done].
    destruct (due tw p e =? 1).
    + right. apply exec_of_keys. by destruct Ht as [_ ->].
    + left. by destruct Ht as (p' & e' & -> & _).
  - destruct (decide (k' = k)) as [->|Hne].
    + pose proof (setTask_self tw k v d Hi) as Hs. destruct (setTask k v d tw) as [tw' out].
      destruct Hs as [? ?]. split; [done|]. split; [by left|done].
    + pose proof (setTask_other tw k' v d k Hi ltac:(congruence)) as Hs.
      destruct (setTask k' v d tw) as [tw' out]. destruct Hs as (? & _ & -> & _).
      split; [done|]. split; [by left|]. intros (? & ? & [= ? _ _]). congruence.
  - destruct (removeTask_spec tw k' Hi) as (? & _ & _ & Ho). split; [done|].
    split; [|by intros (? & ? & ?)]. intros Hn Hv. left. rewrite Ho; congruence.
  - pose proof (moveTask_spec tw k' d Hi) as Hm. destruct (moveTask k' d tw) as [tw' out].
    destruct Hm as (? & _ & Ho & Hself). split; [done|]. split; [|by intros (? & ? & ?)].
    intros _ Hv. destruct (decide (k = k')) as [->|Hne]; [|left; by destruct (Ho k Hne) as [-> _]].
    destruct (timer_view tw k') as [[p e]|] eqn:Hv1; [|done].
    destruct (d <? tw_interval tw)%Z; [destruct Hself as [-> _]; left; by rewrite Hv1|].
    destruct (getPositionAndCircle tw d) as [pos circle]. destruct Hself as (_ & d0 & ->). by left.
Qed.

Lemma run_covers k evs : forall (tw : wheel), tw_inv tw -> EvDrain ∉ evs -> EvRemove k ∉ evs ->
  timer_view tw k <> None \/ (exists v d, EvSet k v d ∈ evs) ->
  let '(tw', outs) := run evs tw in
  timer_view tw' k <> None \/ k ∈ concat (exec_keys <$> outs).
Proof.
  induction evs as [|ev evs IH]; intros tw Hi Hnd Hnr Hcov; simpl.
  { left. destruct Hcov as [?|(? & ? & ?)]; [done|set_solver]. }
  pose proof (event_covers tw k ev Hi ltac:(set_solver)) as He.
  destruct (run_event ev tw) as [tw1 out]. destruct He as (Hi1 & Hkeep & Hset).
  assert (Hc1 : timer_view tw1 k <> None \/ k ∈ exec_keys out \/ (exists v d, EvSet k v d ∈ evs)).
  { destruct Hcov as [Hv|(v & d & Hin)].
    - destruct Hkeep as [?|?]; [set_solver|done|by left|by right; left].
    - apply elem_of_cons in Hin as [<-|Hin]; [left; eauto|right; right; eauto]. }
  specialize (IH tw1 Hi1 ltac:(set_solver) ltac:(set_solver)).
  destruct (run evs tw1) as [tw2 outs]. rewrite fmap_cons. simpl.
  destruct Hc1 as [H1|[H1|H1]].
  - destruct IH as [?|?]; [by left|by left|right; set_solver].
  - right. set_solver.
  - destruct IH as [?|?]; [by right|by left|right; set_solver].
Qed.

Lemma run_tw_inv evs : forall (tw : wheel), tw_inv tw -> EvDrain ∉ evs -> tw_inv (run evs tw).1.
Proof.
  induction evs as [|ev evs IH]; intros tw Hi Hnd; [done|]. simpl.
  pose proof (event_covers tw [] ev Hi ltac:(set_solver)) as He.
  destruct (run_event ev tw) as [tw1 out]. destruct He as (Hi1 & _).
  specialize (IH tw1 Hi1 ltac:(set_solver)). by destruct (run evs tw1).
Qed.

(** What a cache operation sends, relative to what it leaves in the map. *)
Definition sends_ok (c c' : Cache) : Prop :=
  EvDrain ∉ c_out c' /\
  forall k, is_Some (c_data c' !! k) ->
    EvRemove k ∉ c_out c' /\ (is_Some (c_data c !! k) \/ exists v d, EvSet k v d ∈ c_out c').

Lemma lru_call_sends f c : c_out c = [] ->
  (lru_call f c = mkCache (c_data (lru_call f c)) (c_expire c) (c_lru (lru_call f c)) (c_stats c) [] /\
   c_data (lru_call f c) = c_data c) \/
  exists e, c_out (lru_call f c) = [EvRemove e] /\ c_data (lru_call f c) = delete e (c_data c).
Proof.
  intros Ho. unfold lru_call. destruct (c_lru c) as [k|] eqn:Hk.
  - destruct (f k) as [k' [e|]]; simpl; rewrite Ho; [right; eauto|by left].
  - left. split; [|done]. destruct c. simpl in *. by rewrite Ho.
Qed.

Lemma lru_call_out f c : c_out c = [] ->
  (c_out (lru_call f c) = [] /\ c_data (lru_call f c) = c_data c) \/
  exists e, c_out (lru_call f c) = [EvRemove e] /\ c_data (lru_call f c) = delete e (c_data c).
Proof.
  intros Ho. destruct (lru_call_sends f c Ho) as [[H1 H2]|H]; [|by right].
  left. split; [by rewrite H1|done].
Qed.

Lemma cstep_sends c o : c_out c = [] ->
  match o with OpSet _ _ d => (0 < d)%Z | _ => True end -> sends_ok c (cstep c o).
Proof.
  intros Ho Hd. destruct o as [key v d|key|key]; simpl.
  - unfold SetWithExpire.
    destruct (lru_call_out (klru_add key) (set_data (insert key v) c) Ho) as [[E1 E2]|(e & E1 & E2)];
      simpl in E2;
      (destruct (bool_decide (is_Some (c_data c !! key))) eqn:Hok; bool_prop;
       unfold SetTimer, MoveTimer; destruct (Z.leb_spec d 0); try lia;
       unfold sends_ok; simpl; rewrite E1, E2; (split; [set_solver|]); intros k Hk;
       rewrite ?lookup_delete_is_Some, lookup_insert_is_Some in Hk;
       destruct (decide (key = k)) as [<-|]; set_solver).
  - assert (sends_ok c (doGet key c).2).
    { unfold doGet. destruct (c_data c !! key); simpl.
      - destruct (lru_call_out (klru_add key) c Ho) as [[E1 E2]|(e & E1 & E2)];
          unfold sends_ok; rewrite E1, E2; (split; [set_solver|]); intros k Hk;
          rewrite ?lookup_delete_is_Some in Hk; set_solver.
      - unfold sends_ok. rewrite Ho. split; [set_solver|]. intros k Hk. split; [set_solver|by left]. }
    unfold Get. by destruct (doGet key c) as [[v|] c'].
  - unfold Del. destruct (lru_call_out (klru_remove key) (set_data (delete key) c) Ho)
      as [[E1 E2]|(e & E1 & E2)]; unfold sends_ok; simpl; rewrite E1, E2; simpl;
      (split; [set_solver|]); intros k Hk;
      rewrite ?lookup_delete_is_Some in Hk; set_solver.
Qed.

Lemma cache_does_covered f w :
  (forall c, c_out c = [] -> sends_ok c (f c)) ->
  tw_inv (w_wheel w) ->
  (forall k, is_Some (c_data (w_cache w) !! k) -> is_Some (c_data (w_cache (cache_does f w)) !! k) ->
     timer_view (w_wheel w) k <> None \/ k ∈ w_pending w) ->
  covered (cache_does f w).
Proof.
  intros Hf Hi Hcov. unfold cache_does in *.
  set (c0 := mkCache _ _ _ _ []) in *. specialize (Hf c0 eq_refl) as [Hnd Hs].
  pose proof (run_tw_inv (c_out (f c0)) (w_wheel w) Hi Hnd) as Hi'.
  assert (Hr : forall k, is_Some (c_data (f c0) !! k) ->
     timer_view (w_wheel w) k <> None \/ k ∈ w_pending w \/ (exists v d, EvSet k v d ∈ c_out (f c0))).
  { intros k Hk. destruct (Hs k Hk) as [_ [Hold|Hnew]]; [|auto].
    destruct (run (c_out (f c0)) (w_wheel w)). destruct (Hcov k Hold Hk); auto. }
  assert (Hruns : forall k, is_Some (c_data (f c0) !! k) ->
     timer_view (w_wheel w) k <> None \/ (exists v d, EvSet k v d ∈ c_out (f c0)) ->
     let '(tw', outs) := run (c_out (f c0)) (w_wheel w) in
     timer_view tw' k <> None \/ k ∈ concat (exec_keys <$> outs)).
  { intros k Hk Hc. apply run_covers; [done|done|by apply Hs|done]. }
  destruct (run (c_out (f c0)) (w_wheel w)) as [tw' outs]. split; [done|].
  simpl. intros k Hk. specialize (Hruns k Hk). destruct (Hr k Hk) as [H1|[H1|H1]].
  - destruct Hruns as [?|?]; [by left|by left|right; set_solver].
  - right. set_solver.
  - destruct Hruns as [?|?]; [by right|by left|right; set_solver].
Qed.

End cache.

#[global] Arguments Cache : clear implicits.
#[global] Arguments world : clear implicits.

Lemma lru_keeps_most_recent_witness :
  kl_evicts (foldl (fun k key => (klru_add key k).1) (newKeyLru 2)
               [lit "a"; lit "b"; lit "a"; lit "c"]) = [lit "c"; lit "a"].
Proof. apply (lru_keeps_most_recent 2 [lit "a"; lit "b"; lit "a"; lit "c"]). lia. Defined.

Definition demo_ops : list (cop (V := Z)) :=
  [OpSet (lit "a") 1 5; OpSet (lit "b") 2 5; OpGet (lit "a"); OpSet (lit "c") 3 5]%Z.

Lemma cache_size_bounded_witness :
  size_ (foldl cstep (NewCache 10 2) demo_ops) <= Z.to_nat 2.
Proof.
  destruct (cache_size_bounded (E := unit) 10 2 (fun d => d) demo_ops [] (lit "d") (inl tt)
              eq_refl) as [[H _] _]. exact H.
Defined.

