(* ===== verification/SearchTree.v ===== *)
(** * [core/search/tree.go]: the segment search tree

    Routes are split at slashes; a segment of a registered route is a literal or
    [:name].  [Search] backtracks over the children in the order in which Go
    iterates over its maps, which is not specified: the order is a parameter
    ([ord]) of every definition that iterates, and the theorems hold for all of
    them. *)

From Stdlib Require Import Ascii.
From S2P Require Import Prelude.
Local Open Scope go_scope.

Definition colon : ascii := ":"%char.
Definition slash : ascii := "/"%char.

(** The errors of [Add] *)
Inductive add_error := errDupItem | errDupSlash | errEmptyItem | errNotFromRoot.

Section search.
Context {I : Type}.

(** [node]: [children[0]] has the literal keys, [children[1]] the parameters. *)
Inductive node := Node (item : option I) (statics params : gmap gostr node).

Definition n_item (n : node) : option I := let 'Node i _ _ := n in i.
Definition n_statics (n : node) : gmap gostr node := let 'Node _ s _ := n in s.
Definition n_params (n : node) : gmap gostr node := let 'Node _ _ p := n in p.

Definition newNode (item : option I) : node := Node item ∅ ∅.

(** [innerResult] and [match] ([pat[0]] panics on an empty pattern) *)
Record innerResult := mkInner { ir_key : gostr; ir_value : gostr; ir_named : bool; ir_found : bool }.

Definition match_ (pat token : gostr) : outcome innerResult :=
  match pat with
  | [] => Panic "index out of range"
  | c :: rest =>
    if decide (c = colon) then Ok (mkInner rest token true true)
    else Ok (mkInner [] [] false (bool_decide (pat = token)))
  end.

(** The loops over [route] that stop at its first slash: what is before and after. *)
Fixpoint cut_slash (route : gostr) : option (gostr * gostr) :=
  match route with
  | [] => None
  | c :: route =>
    if decide (c = slash) then Some ([], route)
    else match cut_slash route with
         | Some (token, rest) => Some (c :: token, rest)
         | None => None
         end
  end.

(** [getChildren] and the update of the map it returned *)
Definition is_param (route : gostr) : bool :=
  match route with c :: _ => bool_decide (c = colon) | [] => false end.

Definition getChildren (route : gostr) (nd : node) : gmap gostr node :=
  if is_param route then n_params nd else n_statics nd.

Definition setChild (key : gostr) (child : node) (nd : node) : node :=
  if is_param key then Node (n_item nd) (n_statics nd) (<[key := child]> (n_params nd))
  else Node (n_item nd) (<[key := child]> (n_statics nd)) (n_params nd).

(** [add]; the tree is changed in place, so it is returned with the error, as far as it
    was changed. The recursion is on a shorter route: fuel [length route + 1] is enough. *)
Fixpoint add (fuel : nat) (nd : node) (route : gostr) (item : I) : node * option add_error :=
  match fuel with
  | 0 => (nd, None)
  | S fuel =>
    match route with
    | [] =>
      match n_item nd with
      | Some _ => (nd, Some errDupItem)
      | None => (Node (Some item) (n_statics nd) (n_params nd), None)
      end
    | c :: _ =>
      if decide (c = slash) then (nd, Some errDupSlash)
      else
        match cut_slash route with
        | Some (token, rest) =>
          let child := match getChildren token nd !! token with
                       | Some child => child
                       | None => newNode None
                       end in
          let '(child, err) := add fuel child rest item in
          (setChild token child nd, err)
        | None =>
          match getChildren route nd !! route with
          | Some child =>
            match n_item child with
            | Some _ => (nd, Some errDupItem)
            | None => (setChild route (Node (Some item) (n_statics child) (n_params child)) nd, None)
            end
          | None => (setChild route (newNode (Some item)) nd, None)
          end
        end
    end
  end.

(** [Tree.Add] ([item] is [None] for a [nil] item; the two wrapped errors keep their kind) *)
Definition Add (root : node) (route : gostr) (item : option I) : node * option add_error :=
  match route with
  | c :: route' =>
    if decide (c = slash) then
      match item with
      | None => (root, Some errEmptyItem)
      | Some it => add (S (length route')) root route' it
      end
    else (root, Some errNotFromRoot)
  | [] => (root, Some errNotFromRoot)
  end.

Section searching.
Context (ord : list (gostr * node) -> list (gostr * node)).

Definition Result : Type := I * gmap gostr gostr.

(** [addParam] *)
Definition addParam (r : innerResult) (res : Result) : Result :=
  if ir_named r then (res.1, <[ir_key r := ir_value r]> res.2) else res.

(** [node.forEach]: the literal children first, then the parameters *)
Fixpoint forEach_list (fn : gostr -> node -> outcome (option Result)) (l : list (gostr * node))
    : outcome (option Result) :=
  match l with
  | [] => Ok None
  | (k, v) :: l =>
    r <~ fn k v ;;
    match r with
    | Some res => Ok (Some res)
    | None => forEach_list fn l
    end
  end.

Definition forEach (fn : gostr -> node -> outcome (option Result)) (n : node)
    : outcome (option Result) :=
  forEach_list fn (ord (map_to_list (n_statics n)) ++ ord (map_to_list (n_params n))).

(** [Tree.next]; as for [add], fuel [length route + 1] is enough. *)
Fixpoint next (fuel : nat) (n : node) (route : gostr) : outcome (option Result) :=
  match fuel with
  | 0 => Panic "out of fuel"
  | S fuel =>
    match route, n_item n with
    | [], Some it => Ok (Some (it, ∅))
    | _, _ =>
      match cut_slash route with
      | Some (token, rest) =>
        forEach (fun k v =>
          r <~ match_ k token ;;
          if negb (ir_found r) then Ok None
          else
            x <~ next fuel v rest ;;
            Ok (addParam r <$> x)) n
      | None =>
        forEach (fun k v =>
          r <~ match_ k route ;;
          if ir_found r then
            match n_item v with
            | Some it => Ok (Some (addParam r (it, ∅)))
            | None => Ok None
            end
          else Ok None) n
      end
    end
  end.

(** [Tree.Search] *)
Definition Search_ (root : node) (route : gostr) : outcome (option Result) :=
  match route with
  | c :: route' =>
    if decide (c = slash) then next (S (length route')) root route' else Ok None
  | [] => Ok None
  end.
End searching.

(** ** Specification: registered patterns and what they match *)

(** All segments of a route *)
Fixpoint split_slash (route : gostr) : list gostr :=
  match route with
  | [] => [[]]
  | c :: route =>
    if decide (c = slash) then [] :: split_slash route
    else match split_slash route with
         | s :: ss => (c :: s) :: ss
         | [] => [[c]]
         end
  end.

(** The keys under which [Add] stores a route: its segments, less an empty last one. *)
Fixpoint drop_trailing (segs : list gostr) : list gostr :=
  match segs with
  | [] => []
  | [s] => if decide (s = []) then [] else [s]
  | s :: segs => s :: drop_trailing segs
  end.

Definition pat_of (route : gostr) : list gostr := drop_trailing (split_slash route).

Definition child (n : node) (k : gostr) (v : node) : Prop :=
  n_statics n !! k = Some v \/ n_params n !! k = Some v.

(** [registered n pat it]: below [n], the path with the keys [pat] has the item [it]. *)
Fixpoint registered (n : node) (pat : list gostr) (it : I) : Prop :=
  match pat with
  | [] => n_item n = Some it
  | k :: pat => exists v, child n k v /\ registered v pat it
  end.

Definition matches (k token : gostr) : Prop := is_param k = true \/ k = token.

(** A pattern accepts the segments it matches one by one; a trailing slash of the
    searched route is tolerated. *)
Definition accepts (pat segs : list gostr) : Prop :=
  Forall2 matches pat segs \/ exists init, segs = init ++ [[]] /\ Forall2 matches pat init.

(** The parameters bound by a match; an outer name overrides an inner one. *)
Fixpoint bindings (pat segs : list gostr) : gmap gostr gostr :=
  match pat, segs with
  | k :: pat, s :: segs =>
    if is_param k then <[tail k := s]> (bindings pat segs) else bindings pat segs
  | _, _ => ∅
  end.

(** No key is empty, and each is in the map its first byte selects. *)
Inductive wf : node -> Prop :=
| wf_node n :
    (forall k v, child n k v -> k <> []) ->
    (forall k v, n_statics n !! k = Some v -> is_param k = false) ->
    (forall k v, n_params n !! k = Some v -> is_param k = true) ->
    (forall k v, child n k v -> wf v) -> wf n.

Lemma wf_child n k v : wf n -> child n k v -> k <> [] /\ wf v.
Proof. intros [? H1 ? ? H2]. eauto. Qed.

Lemma child_get n k v : wf n -> child n k v <-> getChildren k n !! k = Some v.
Proof.
  intros [? _ Hs Hp _]. unfold child, getChildren. split.
  - intros [H|H]; [by rewrite (Hs _ _ H)|by rewrite (Hp _ _ H)].
  - destruct (is_param k); auto.
Qed.

Lemma child_newNode item k v : ~ child (newNode item) k v.
Proof. intros [H|H]; exact (lookup_empty_Some _ _ H). Qed.

Lemma wf_newNode item : wf (newNode item).
Proof.
  constructor; intros k v H; try (by apply child_newNode in H);
    exfalso; apply (child_newNode item k v); [by left|by right].
Qed.

Lemma child_setChild n key c k v : wf n ->
  child (setChild key c n) k v <-> (k = key /\ v = c) \/ (k <> key /\ child n k v).
Proof.
  intros [? _ Hs Hp _]. unfold child, setChild. destruct (is_param key) eqn:Hk; simpl;
    rewrite lookup_insert_Some; (split; [|naive_solver]).
  - intros [H|[[-> ->]|[? ?]]]; [right|by left|right; auto].
    split; [|by left]. intros ->. apply Hs in H. congruence.
  - intros [[[-> ->]|[? ?]]|H]; [by left|right; auto|right].
    split; [|by right]. intros ->. apply Hp in H. congruence.
Qed.

Lemma wf_setChild n key c : wf n -> key <> [] -> wf c -> wf (setChild key c n).
Proof.
  intros Hn Hkey Hc. constructor.
  - intros k v H%child_setChild; [|done]. destruct H as [[-> ->]|[? H]]; [done|].
    eapply (wf_child n); eassumption.
  - intros k v. destruct Hn as [n _ Hs Hp _]. unfold setChild.
    destruct (is_param key) eqn:?; simpl; [apply Hs|].
    intros [[-> ->]|[_ ?]]%lookup_insert_Some; eauto.
  - intros k v. destruct Hn as [n _ Hs Hp _]. unfold setChild.
    destruct (is_param key) eqn:?; simpl; [|apply Hp].
    intros [[-> ->]|[_ ?]]%lookup_insert_Some; eauto.
  - intros k v H%child_setChild; [|done]. destruct H as [[-> ->]|[? H]]; [done|].
    eapply (wf_child n); eassumption.
Qed.

Lemma wf_setItem n item : wf n -> wf (Node item (n_statics n) (n_params n)).
Proof. intros [? ? ? ? ?]. by constructor. Qed.

Lemma cut_slash_split route :
  match cut_slash route with
  | Some (token, rest) => split_slash route = token :: split_slash rest /\ length rest < length route
  | None => split_slash route = [route]
  end.
Proof.
  induction route as [|c route IH]; [done|]. simpl.
  destruct (decide (c = slash)); [split; [done|lia]|].
  destruct (cut_slash route) as [[token rest]|].
  - destruct IH as [-> ?]. split; [done|lia].
  - by rewrite IH.
Qed.

Lemma split_slash_nonnil route : split_slash route <> [].
Proof.
  pose proof (cut_slash_split route). destruct (cut_slash route) as [[? ?]|];
    [destruct H as [-> _]|rewrite H]; done.
Qed.

Lemma accepts_cons k pat t segs : segs <> [] ->
  accepts (k :: pat) (t :: segs) <-> matches k t /\ accepts pat segs.
Proof.
  intros Hne. unfold accepts. split.
  - intros [H|(init & Heq & H)].
    + apply Forall2_cons in H. tauto.
    + destruct init as [|t' init]; [by injection Heq as -> ->|].
      injection Heq as -> ->. apply Forall2_cons in H as [? ?]. eauto.
  - intros [Hm [H|(init & -> & H)]]; [left; by constructor|].
    right. exists (t :: init). split; [done|by constructor].
Qed.

Lemma accepts_single pat t : accepts pat [t] <->
  (exists k, pat = [k] /\ matches k t) \/ (pat = [] /\ t = []).
Proof.
  unfold accepts. split.
  - intros [H|(init & Heq & H)].
    + left. apply Forall2_cons_inv_r in H as (k & l & Hm & Hl & ->).
      apply Forall2_nil_inv_r in Hl as ->. eauto.
    + right. destruct init as [|? [|]]; try done. injection Heq as ->.
      by apply Forall2_nil_inv_r in H.
  - intros [(k & -> & Hm)|[-> ->]]; [left; constructor; [done|constructor]|].
    right. exists []. by split.
Qed.

Lemma not_accepts_nil t segs : segs <> [] -> ~ accepts [] (t :: segs).
Proof.
  intros Hne [H|(init & Heq & H)]; [inversion H|].
  apply Forall2_nil_inv_l in H as ->. by injection Heq as -> ->.
Qed.

Lemma match_spec k token : k <> [] ->
  exists r, match_ k token = Ok r /\ (ir_found r = true <-> matches k token) /\
    ir_named r = is_param k /\ (is_param k = true -> ir_key r = tail k /\ ir_value r = token).
Proof.
  destruct k as [|c k]; [done|]. intros _. unfold match_, matches, is_param.
  destruct (decide (c = colon)) as [->|Hc]; eexists; (split; [done|]); simpl.
  - replace (bool_decide (colon = colon)) with true by done. split; [tauto|done].
  - rewrite (bool_decide_false (c = colon)) by done. split; [|done].
    rewrite bool_decide_eq_true. naive_solver.
Qed.

(** [forEach] finds a result exactly when some child gives one, in whatever order. *)
Lemma forEach_spec ord fn n : (forall l, ord l ≡ₚ l) ->
  (forall k v, child n k v -> exists r, fn k v = Ok r) ->
  exists res, forEach ord fn n = Ok res /\
    match res with
    | Some r => exists k v, child n k v /\ fn k v = Ok (Some r)
    | None => forall k v, child n k v -> fn k v = Ok None
    end.
Proof.
  intros Hord Hfn. unfold forEach.
  assert (Hl : forall k v, (k, v) ∈ ord (map_to_list (n_statics n)) ++ ord (map_to_list (n_params n))
                 <-> child n k v).
  { intros k v. rewrite elem_of_app, !Hord. unfold child. by rewrite !elem_of_map_to_list. }
  assert (Hgo : forall l, (forall k v, (k, v) ∈ l -> exists r, fn k v = Ok r) ->
    exists res, forEach_list fn l = Ok res /\
    match res with
    | Some r => exists k v, (k, v) ∈ l /\ fn k v = Ok (Some r)
    | None => forall k v, (k, v) ∈ l -> fn k v = Ok None
    end).
  { clear. induction l as [|[k v] l IH]; intros Hfn; simpl.
    - exists None. split; [done|]. set_solver.
    - destruct (Hfn k v ltac:(set_solver)) as [[r|] Hr]; rewrite Hr; simpl.
      + exists (Some r). split; [done|]. exists k, v. set_solver.
      + destruct IH as (res & -> & Hres); [set_solver|]. exists res. split; [done|].
        destruct res; [destruct Hres as (k' & v' & ? & ?); exists k', v'; set_solver|].
        intros k' v' [[= -> ->]|?]%elem_of_cons; auto. }
  destruct (Hgo _ (fun k v H => Hfn k v (proj1 (Hl k v) H))) as (res & -> & Hres).
  exists res. split; [done|]. destruct res.
  - destruct Hres as (k & v & Hin & ?). exists k, v. by rewrite <- Hl.
  - intros k v Hc. apply Hres. by apply Hl.
Qed.

Lemma bindings_cons k pat t segs (r : innerResult) (x : Result) :
  ir_named r = is_param k -> (is_param k = true -> ir_key r = tail k /\ ir_value r = t) ->
  x.2 = bindings pat segs -> (addParam r x).2 = bindings (k :: pat) (t :: segs).
Proof.
  intros Hn Hk Hx. unfold addParam. simpl. rewrite Hn. destruct (is_param k); [|done].
  destruct (Hk eq_refl) as [-> ->]. simpl. by rewrite Hx.
Qed.

Lemma addParam_item r (x : Result) : (addParam r x).1 = x.1.
Proof. unfold addParam. by destruct (ir_named r). Qed.

(** What [next] answers for the routes below a node *)
Definition answers (n : node) (segs : list gostr) (res : option Result) : Prop :=
  match res with
  | Some (it, ps) => exists pat, registered n pat it /\ accepts pat segs /\ ps = bindings pat segs
  | None => forall pat it, registered n pat it -> ~ accepts pat segs
  end.

(** The last segment of a route: a child that matches and has an item. *)
Lemma next_last_spec ord n t : (forall l, ord l ≡ₚ l) -> wf n ->
  (t = [] -> n_item n = None) ->
  exists res, forEach ord (fun k v =>
      (r <~ match_ k t ;;
      if ir_found r then
        match n_item v with
        | Some it => Ok (Some (addParam r (it, ∅)))
        | None => Ok None
        end
      else Ok None)) n = Ok res /\ answers n [t] res.
Proof.
  intros Hord Hwf Hitem.
  destruct (forEach_spec ord (fun k v =>
      (r <~ match_ k t ;;
      if ir_found r then
        match n_item v with
        | Some it => Ok (Some (addParam r (it, ∅)))
        | None => Ok None
        end
      else Ok None)) n Hord) as (res & -> & Hres).
  - intros k v Hc. destruct (wf_child _ _ _ Hwf Hc) as [Hk _].
    destruct (match_spec k t Hk) as (r & -> & _). simpl. repeat go_case; eauto.
  - exists res. split; [done|]. destruct res as [[it ps]|]; simpl.
    + destruct Hres as (k & v & Hc & Hres). destruct (wf_child _ _ _ Hwf Hc) as [Hk _].
      destruct (match_spec k t Hk) as (r & Hr & Hf & Hn & Hp). rewrite Hr in Hres. simpl in Hres.
      destruct (ir_found r); [|done]. destruct (n_item v) as [it'|] eqn:Hv; [|done].
      injection Hres as Hres. exists [k]. split; [|split].
      * exists v. split; [done|]. simpl. rewrite Hv. f_equal.
        pose proof (addParam_item r (it', ∅)) as E. by rewrite Hres in E.
      * apply accepts_single. left. exists k. tauto.
      * change ps with (it, ps).2. rewrite <- Hres. by apply bindings_cons.
    + intros pat it Hreg [(k & -> & Hm)|[-> ->]]%accepts_single; simpl in Hreg.
      * destruct Hreg as (v & Hc & Hv). destruct (wf_child _ _ _ Hwf Hc) as [Hk _].
        destruct (match_spec k t Hk) as (r & Hr & Hf & _).
        specialize (Hres k v Hc). rewrite Hr in Hres. simpl in Hres.
        rewrite (proj2 Hf Hm), Hv in Hres. done.
      * by rewrite Hitem in Hreg.
Qed.

(** One round of [next] on a route that is not at its end in a node with an item. *)
Lemma next_unfold ord fuel n route : (route = [] -> n_item n = None) ->
  next ord (S fuel) n route =
  match cut_slash route with
  | Some (token, rest) =>
    forEach ord (fun k v =>
      r <~ match_ k token ;;
      if negb (ir_found r) then Ok None
      else x <~ next ord fuel v rest ;; Ok (addParam r <$> x)) n
  | None =>
    forEach ord (fun k v =>
      r <~ match_ k route ;;
      if ir_found r then
        match n_item v with
        | Some it => Ok (Some (addParam r (it, ∅)))
        | None => Ok None
        end
      else Ok None) n
  end.
Proof. intros Hi. simpl. destruct route; [|done]. by rewrite Hi. Qed.

Lemma next_spec ord : (forall l, ord l ≡ₚ l) -> forall fuel n route, wf n -> length route < fuel ->
  exists res, next ord fuel n route = Ok res /\ answers n (split_slash route) res.
Proof.
  intros Hord. induction fuel as [|fuel IH]; intros n route Hwf Hlen; [lia|].
  destruct (decide (route = [] /\ n_item n <> None)) as [[-> Hi]|Hi].
  { simpl. destruct (n_item n) as [it|] eqn:Hit; [|done]. exists (Some (it, ∅)). split; [done|].
    exists []. split; [done|]. split; [|done]. apply accepts_single. by right. }
  assert (Hi' : route = [] -> n_item n = None).
  { intros ->. destruct (n_item n); [|done]. destruct Hi. by split. }
  rewrite (next_unfold ord fuel n route Hi'). clear Hi.
  pose proof (cut_slash_split route) as Hcut.
  destruct (cut_slash route) as [[token rest]|]; [|rewrite Hcut; by apply next_last_spec].
  destruct Hcut as [-> Hrest].
  match goal with |- context [forEach ord ?f n] =>
    destruct (forEach_spec ord f n Hord) as (res & -> & Hres) end.
  - intros k v Hc. destruct (wf_child _ _ _ Hwf Hc) as [Hk Hv].
    destruct (match_spec k token Hk) as (r & -> & _). simpl. destruct (ir_found r); simpl; [|eauto].
    destruct (IH v rest Hv ltac:(lia)) as (x & -> & _). simpl. eauto.
  - exists res. split; [done|]. destruct res as [[it ps]|]; simpl.
    + destruct Hres as (k & v & Hc & Hres). destruct (wf_child _ _ _ Hwf Hc) as [Hk Hv].
      destruct (match_spec k token Hk) as (r & Hr & Hf & Hn & Hp). rewrite Hr in Hres. simpl in Hres.
      destruct (ir_found r); [|done]. simpl in Hres.
      destruct (IH v rest Hv ltac:(lia)) as (x & Hx & Hans). rewrite Hx in Hres. simpl in Hres.
      destruct x as [[it' ps']|]; [|done]. injection Hres as Hres.
      destruct Hans as (pat & Hreg & Hacc & Hps).
      exists (k :: pat). split; [|split].
      * exists v. split; [done|]. pose proof (addParam_item r (it', ps')) as E.
        rewrite Hres in E. simpl in E. by rewrite E.
      * apply accepts_cons; [apply split_slash_nonnil|]. tauto.
      * change ps with (it, ps).2. rewrite <- Hres. by apply bindings_cons.
    + intros pat it Hreg Hacc. destruct pat as [|k pat].
      { eapply not_accepts_nil, Hacc. apply split_slash_nonnil. }
      apply accepts_cons in Hacc as [Hm Hacc]; [|apply split_slash_nonnil].
      destruct Hreg as (v & Hc & Hreg). destruct (wf_child _ _ _ Hwf Hc) as [Hk Hv].
      destruct (match_spec k token Hk) as (r & Hr & Hf & _).
      destruct (IH v rest Hv ltac:(lia)) as (x & Hx & Hans).
      specialize (Hres k v Hc). simpl in Hres. rewrite Hr in Hres. simpl in Hres.
      rewrite (proj2 Hf Hm) in Hres. simpl in Hres. rewrite Hx in Hres. simpl in Hres.
      destruct x; [done|]. by apply (Hans pat it).
Qed.

(** ** Registration *)

Lemma pat_of_cut token rest route : split_slash route = token :: split_slash rest ->
  pat_of route = token :: pat_of rest.
Proof.
  unfold pat_of. intros ->. pose proof (split_slash_nonnil rest).
  destruct (split_slash rest); done.
Qed.

Lemma pat_of_last route : split_slash route = [route] -> route <> [] -> pat_of route = [route].
Proof. unfold pat_of. intros -> H. simpl. by destruct (decide (route = [])). Qed.

Lemma registered_newNode pat it : ~ registered (newNode None) pat it.
Proof.
  destruct pat as [|k pat]; simpl; [done|]. by intros (v & H%child_newNode & _).
Qed.

(** Replacing the subtree under one key changes the patterns through that key only. *)
Lemma registered_setChild n key c pat it : wf n ->
  registered (setChild key c n) pat it <->
  match pat with
  | [] => n_item n = Some it
  | k :: pat' => if decide (k = key) then registered c pat' it else registered n pat it
  end.
Proof.
  intros Hn. destruct pat as [|k pat]; simpl.
  { unfold setChild. by destruct (is_param key). }
  destruct (decide (k = key)) as [->|Hk].
  - setoid_rewrite child_setChild; [|done]. naive_solver.
  - setoid_rewrite child_setChild; [|done]. naive_solver.
Qed.

(** The child [add] descends into: the one stored under the key or a fresh one. *)
Definition child_or_new (n : node) (key : gostr) : node :=
  match getChildren key n !! key with Some c => c | None => newNode None end.

Lemma registered_child_or_new n key pat it : wf n ->
  registered (child_or_new n key) pat it <-> registered n (key :: pat) it.
Proof.
  intros Hn. unfold child_or_new. simpl. setoid_rewrite child_get; [|done].
  destruct (getChildren key n !! key) as [c|]; [naive_solver|].
  split; [by intros H%registered_newNode|naive_solver].
Qed.

Lemma wf_child_or_new n key : wf n -> wf (child_or_new n key).
Proof.
  intros Hn. unfold child_or_new. destruct (getChildren key n !! key) as [c|] eqn:H;
    [|apply wf_newNode]. apply child_get in H; [|done]. eapply (wf_child n); eassumption.
Qed.

(** What an [add] of the keys [pat] does to the registered patterns *)
Definition add_result (n n' : node) (pat : list gostr) (item : I) (err : option add_error) : Prop :=
  wf n' /\
  match err with
  | None => Forall (fun k => k <> []) pat /\ (forall it, ~ registered n pat it) /\
      forall p it, registered n' p it <-> registered n p it \/ (p = pat /\ it = item)
  | Some e =>
      match e with
      | errDupSlash => Exists (fun k => k = []) pat
      | errDupItem => Forall (fun k => k <> []) pat /\ exists it, registered n pat it
      | _ => False
      end /\ forall p it, registered n' p it <-> registered n p it
  end.

Lemma add_result_child n key c' pat item err : wf n -> key <> [] ->
  add_result (child_or_new n key) c' pat item err ->
  add_result n (setChild key c' n) (key :: pat) item err.
Proof.
  intros Hn Hkey [Hc Hadd]. split; [by apply wf_setChild|].
  assert (Hsub : forall p it, registered (setChild key c' n) p it <->
    match p with
    | k :: p' => if decide (k = key) then registered c' p' it else registered n p it
    | [] => registered n p it
    end).
  { intros [|k p] it; by rewrite registered_setChild. }
  pose proof (fun p it => registered_child_or_new n key p it Hn) as Hco.
  destruct err as [e|].
  - destruct Hadd as [He Hadd]. split.
    + destruct e; try done; [|by right]. destruct He as [? [it Hit]]. split; [by constructor|].
      exists it. by apply Hco.
    + intros [|k p] it; rewrite Hsub; [done|]. destruct (decide (k = key)) as [->|]; [|done].
      by rewrite Hadd, Hco.
  - destruct Hadd as (Hf & Hno & Hadd). split; [by constructor|]. split.
    + intros it Hit. apply (Hno it). by apply Hco.
    + intros [|k p] it; rewrite Hsub; [naive_solver|].
      destruct (decide (k = key)) as [->|]; [|naive_solver].
      rewrite Hadd, Hco. naive_solver.
Qed.

Lemma add_result_item n item : wf n ->
  add_result n (match n_item n with
                | Some _ => n
                | None => Node (Some item) (n_statics n) (n_params n)
                end) [] item
             (match n_item n with Some _ => Some errDupItem | None => None end).
Proof.
  intros Hn. destruct (n_item n) as [it|] eqn:Hi; (split; [by try apply wf_setItem|]).
  - split; [|done]. split; [constructor|]. by exists it.
  - split; [constructor|]. split; [intros it; simpl; by rewrite Hi|].
    intros [|k p] it; simpl; [rewrite Hi; naive_solver|]. split; [|naive_solver]. by left.
Qed.

Lemma add_spec fuel : forall n route item, wf n -> length route < fuel ->
  let '(n', err) := add fuel n route item in add_result n n' (pat_of route) item err.
Proof.
  induction fuel as [|fuel IH]; intros n route item Hn Hlen; [lia|].
  destruct route as [|c route0].
  { simpl. pose proof (add_result_item n item Hn) as H. by destruct (n_item n). }
  cbn [add]. set (route := c :: route0) in *.
  pose proof (cut_slash_split route) as Hcut.
  destruct (decide (c = slash)) as [->|Hc].
  { destruct (cut_slash route) as [[token rest]|] eqn:E.
    - assert (token = []) as -> by (unfold route in E; simpl in E; by simplify_eq).
      split; [done|]. split; [|done]. rewrite (pat_of_cut _ _ _ (proj1 Hcut)). by left.
    - unfold route in E. simpl in E. by destruct (decide (slash = slash)). }
  destruct (cut_slash route) as [[token rest]|] eqn:E.
  - destruct Hcut as [Hs Hrest]. rewrite (pat_of_cut _ _ _ Hs).
    assert (token <> []).
    { unfold route in E. simpl in E. destruct (decide (c = slash)); [done|].
      destruct (cut_slash route0) as [[? ?]|]; by simplify_eq. }
    fold (child_or_new n token).
    specialize (IH (child_or_new n token) rest item (wf_child_or_new _ _ Hn) ltac:(lia)).
    destruct (add fuel (child_or_new n token) rest item) as [c' err].
    by apply add_result_child.
  - rewrite (pat_of_last route Hcut) by done.
    pose proof (add_result_child n route _ [] item _ Hn ltac:(done)
      (add_result_item (child_or_new n route) item (wf_child_or_new _ _ Hn))) as H.
    unfold child_or_new in H. destruct (getChildren route n !! route) as [ch|]; [|done].
    destruct (n_item ch); [|done]. destruct H as [_ [? _]]. by split.
Qed.

(** [Tree.Add] on a well-formed tree *)
Lemma Add_spec n route item : wf n ->
  let '(n', err) := Add n (slash :: route) (Some item) in add_result n n' (pat_of route) item err.
Proof.
  intros Hn. cbn [Add]. destruct (decide (slash = slash)); [|done]. apply add_spec; [done|lia].
Qed.

Lemma Search_spec ord n route : (forall l, ord l ≡ₚ l) -> wf n ->
  exists res, Search_ ord n (slash :: route) = Ok res /\ answers n (split_slash route) res.
Proof.
  intros Hord Hn. cbn [Search_]. destruct (decide (slash = slash)); [|done].
  apply next_spec; [done..|lia].
Qed.

(** Trees built by the API *)
Definition Add_all (routes : list (gostr * option I)) (n : node) : node :=
  foldl (fun n '(route, item) => (Add n route item).1) n routes.

Lemma Add_wf n route item : wf n -> wf (Add n route item).1.
Proof.
  intros Hn. destruct route as [|c route]; [done|]. cbn [Add].
  destruct (decide (c = slash)); [|done]. destruct item as [it|]; [|done].
  pose proof (add_spec (S (length route)) n route it Hn ltac:(lia)) as H.
  destruct (add _ n route it). by destruct H.
Qed.

Lemma Add_all_wf routes : forall n, wf n -> wf (Add_all routes n).
Proof.
  induction routes as [|[route item] routes IH]; intros n Hn; [done|]. simpl.
  by apply IH, Add_wf.
Qed.

(** C34: for every tree built by [Add] calls and every iteration order of its maps, [Search]
    of a rooted route does not panic; it finds an item exactly when some registered pattern
    accepts the route's segments, and then returns the item of such a pattern with exactly
    the parameters that pattern binds. *)
Theorem search_sound_complete ord routes route :
  (forall l, ord l ≡ₚ l) ->
  let n := Add_all routes (newNode None) in
  exists res, Search_ ord n (slash :: route) = Ok res /\
    match res with
    | Some (it, ps) => exists pat, registered n pat it /\ accepts pat (split_slash route) /\
                         ps = bindings pat (split_slash route)
    | None => forall pat it, registered n pat it -> ~ accepts pat (split_slash route)
    end.
Proof. intros Hord n. by apply Search_spec, Add_all_wf, wf_newNode. Qed.

(** On a tree built by [Add] calls, [Add] of a rooted route with an item succeeds exactly
    when no inner segment is empty and the pattern has no item yet, and then registers that
    pattern and nothing else; it reports a duplicated slash exactly for an empty segment and a
    duplicated item exactly for a pattern that has one, and then registers nothing. *)
Theorem add_registers_exactly routes route item :
  let n := Add_all routes (newNode None) in
  let '(n', err) := Add n (slash :: route) (Some item) in
  match err with
  | None => Forall (fun k => k <> []) (pat_of route) /\ (forall it, ~ registered n (pat_of route) it) /\
      forall p it, registered n' p it <-> registered n p it \/ (p = pat_of route /\ it = item)
  | Some e =>
      match e with
      | errDupSlash => Exists (fun k => k = []) (pat_of route)
      | errDupItem => Forall (fun k => k <> []) (pat_of route) /\ exists it, registered n (pat_of route) it
      | _ => False
      end /\ forall p it, registered n' p it <-> registered n p it
  end.
Proof.
  intros n. pose proof (Add_spec n route item (Add_all_wf routes _ (wf_newNode None))) as H.
  destruct (Add n (slash :: route) (Some item)) as [n' err]. by destruct H as [_ H].
Qed.
End search.

(** The tests' routes [/api/users/:id/posts] and [/api/:name], searched. *)
Lemma search_sound_complete_witness :
  exists res, Search_ (fun l => l)
      (Add_all [(lit "/api/users/:id/posts", Some 1); (lit "/api/:name", Some 2)] (newNode None))
      (lit "/api/users/7/posts") = Ok res /\ res = Some (1, {[ lit "id" := lit "7" ]}).
Proof.
  destruct (search_sound_complete (fun l => l)
    [(lit "/api/users/:id/posts", Some 1); (lit "/api/:name", Some 2)] (lit "api/users/7/posts"))
    as (res & Hres & _); [done|].
  exists res. split; [exact Hres|]. vm_compute in Hres. injection Hres as <-. by vm_compute.
Defined.
