(* ===== verification/ConsistentHash.v ===== *)
(** * [core/hash/consistenthash.go]: the consistent-hash ring

    [keys] holds the hashes of all virtual nodes in order, with duplicates, and [ring] the
    nodes at each hash.  The hash function and the textual representation of a value
    ([lang.Repr], and the [%v] formatting of [innerRepr]) are arguments: every theorem
    holds for all of them, colliding ones included, unless it says otherwise. *)

From Stdlib Require Import Ascii.
From stdpp Require Import pretty.
From S2P Require Import Prelude.
Local Open Scope go_scope.

Definition TopWeight : Z := 100.
Definition minReplicas : Z := 100.

(** [strconv.Itoa] *)
Definition Itoa (i : nat) : gostr := lit (pretty i).

(** [sort.Search]: binary search on [[0, n)]; each round halves the interval, so [n] rounds
    are enough. *)
Fixpoint search_loop (fuel : nat) (f : nat -> bool) (i j : nat) : nat :=
  match fuel with
  | 0 => i
  | S fuel =>
    if i <? j then
      let h := (i + j) / 2 in
      if negb (f h) then search_loop fuel f (h + 1) j else search_loop fuel f i h
    else i
  end.

Definition sort_Search (n : nat) (f : nat -> bool) : nat := search_loop n f 0 n.

Section hash.
Context {A : Type} (hashFunc : gostr -> N) (repr innerRepr : A -> gostr).

Record ConsistentHash := mkHash {
  replicas : Z;
  keys : list N;
  ring : gmap N (list A);
  nodes : gset gostr;
}.

(** [NewCustomConsistentHash] *)
Definition NewCustomConsistentHash (replicas : Z) : ConsistentHash :=
  let replicas := (if replicas <? minReplicas then minReplicas else replicas)%Z in
  mkHash replicas [] ∅ ∅.

Definition NewConsistentHash : ConsistentHash := NewCustomConsistentHash minReplicas.

(** The hash of a virtual node *)
Definition vhash (nodeRepr : gostr) (i : nat) : N := hashFunc (nodeRepr ++ Itoa i).

(** The index of the first key that is at least [hash] *)
Definition key_index (hash : N) (ks : list N) : nat :=
  sort_Search (length ks) (fun i => match ks !! i with Some k => (hash <=? k)%N | None => false end).

(** One round of the loop of [Remove], on the keys *)
Definition removeKey (hash : N) (ks : list N) : list N :=
  let index := key_index hash ks in
  if decide (ks !! index = Some hash) then take index ks ++ drop (S index) ks else ks.

(** [removeRingNode] *)
Definition removeRingNode (hash : N) (nodeRepr : gostr) (r : gmap N (list A)) : gmap N (list A) :=
  match r !! hash with
  | Some ns =>
    let newNodes := filter (fun x => repr x <> nodeRepr) ns in
    if decide (newNodes = []) then delete hash r else <[hash := newNodes]> r
  | None => r
  end.

Definition containsNode (nodeRepr : gostr) (h : ConsistentHash) : bool :=
  bool_decide (nodeRepr ∈ nodes h).

(** [Remove] *)
Definition Remove (node : A) (h : ConsistentHash) : ConsistentHash :=
  let nodeRepr := repr node in
  if negb (containsNode nodeRepr h) then h
  else
    let '(ks, r) := foldl (fun '(ks, r) i =>
        (removeKey (vhash nodeRepr i) ks, removeRingNode (vhash nodeRepr i) nodeRepr r))
      (keys h, ring h) (seq 0 (Z.to_nat (replicas h))) in
    mkHash (replicas h) ks r (nodes h ∖ {[ nodeRepr ]}).

(** [AddWithReplicas]; [sort.Slice] on numbers has one result, that of any sort *)
Definition AddWithReplicas (node : A) (reps : Z) (h : ConsistentHash) : ConsistentHash :=
  let h := Remove node h in
  let reps := (if reps >? replicas h then replicas h else reps)%Z in
  let nodeRepr := repr node in
  let '(ks, r) := foldl (fun '(ks, r) i =>
      let hash := vhash nodeRepr i in
      (ks ++ [hash], <[hash := default [] (r !! hash) ++ [node]]> r))
    (keys h, ring h) (seq 0 (Z.to_nat reps)) in
  mkHash (replicas h) (merge_sort N.le ks) r (nodes h ∪ {[ nodeRepr ]}).

Definition Add (node : A) (h : ConsistentHash) : ConsistentHash :=
  AddWithReplicas node (replicas h) h.

(** [AddWithWeight] (Go's division truncates) *)
Definition AddWithWeight (node : A) (weight : Z) (h : ConsistentHash) : ConsistentHash :=
  AddWithReplicas node (Z.quot (replicas h * weight) TopWeight) h.

(** [Get]: [% len(h.keys)] and the index into [keys] panic when there is no key. *)
Definition Get (v : A) (h : ConsistentHash) : outcome (option A) :=
  if decide (ring h = ∅) then Ok None
  else
    let hash := hashFunc (repr v) in
    match length (keys h) with
    | 0 => Panic "integer divide by zero"
    | n =>
      let index := key_index hash (keys h) mod n in
      match keys h !! index with
      | None => Panic "index out of range"
      | Some k =>
        match default [] (ring h !! k) with
        | [] => Ok None
        | [x] => Ok (Some x)
        | ns =>
          let pos := N.to_nat (hashFunc (innerRepr v) mod N.of_nat (length ns)) in
          match ns !! pos with
          | Some x => Ok (Some x)
          | None => Panic "index out of range"
          end
        end
      end
    end.

(** ** Binary search *)

Lemma search_loop_spec f n : forall fuel i j, i <= j -> j <= n -> j - i <= fuel ->
  (forall a b, a <= b -> b < n -> f a = true -> f b = true) ->
  (forall a, a < i -> f a = false) -> (forall a, j <= a -> a < n -> f a = true) ->
  let r := search_loop fuel f i j in
  r <= n /\ (forall a, a < r -> f a = false) /\ (forall a, r <= a -> a < n -> f a = true).
Proof.
  induction fuel as [|fuel IH]; intros i j Hij Hjn Hf Hmono Hlo Hhi.
  { assert (i = j) as <- by lia. split; [simpl; lia|done]. }
  cbn [search_loop]. destruct (Nat.ltb_spec i j) as [Hlt|Hge].
  - pose proof (Nat.Div0.div_lt_upper_bound (i + j) 2 j ltac:(lia)).
    pose proof (Nat.div_le_lower_bound (i + j) 2 i ltac:(lia) ltac:(lia)).
    set (h := (i + j) / 2) in *. clearbody h.
    destruct (f h) eqn:E; simpl.
    + apply IH; try lia; [done..|]. intros a Ha1 Ha2. by apply (Hmono h a).
    + apply IH; try lia; [done| |done]. intros a Ha. destruct (f a) eqn:Ea; [|done].
      rewrite (Hmono a h) in E; [done|lia|lia|done].
  - assert (i = j) as <- by lia. split; [lia|]. done.
Qed.

Lemma sort_Search_spec f n :
  (forall a b, a <= b -> b < n -> f a = true -> f b = true) ->
  let r := sort_Search n f in
  r <= n /\ (forall a, a < r -> f a = false) /\ (forall a, r <= a -> a < n -> f a = true).
Proof. intros Hmono. apply search_loop_spec; try lia; done. Qed.

Lemma sorted_lookup ks a b x y : StronglySorted N.le ks ->
  ks !! a = Some x -> ks !! b = Some y -> a < b -> (x <= y)%N.
Proof.
  intros Hs. revert a b. induction Hs as [|k ks _ IH Hk]; intros a b Ha Hb Hab; [done|].
  destruct b as [|b]; [lia|]. simpl in Hb. destruct a as [|a]; [|apply (IH a b); [done..|lia]].
  simpl in Ha. simplify_eq. rewrite Forall_lookup in Hk. by eapply Hk.
Qed.

(** On sorted keys, [key_index] splits them at [hash]. *)
Lemma key_index_spec hash ks : StronglySorted N.le ks ->
  let i := key_index hash ks in
  i <= length ks /\ Forall (fun k => k < hash)%N (take i ks) /\ Forall (fun k => hash <= k)%N (drop i ks).
Proof.
  intros Hs i.
  destruct (sort_Search_spec (fun i => match ks !! i with Some k => (hash <=? k)%N | None => false end)
              (length ks)) as (Hle & Hlo & Hhi).
  { intros a b Hab Hb. destruct (lookup_lt_is_Some_2 ks a ltac:(lia)) as [x Hx].
    destruct (lookup_lt_is_Some_2 ks b Hb) as [y Hy]. rewrite Hx, Hy, !N.leb_le. intros.
    destruct (decide (a = b)) as [->|]; [simplify_eq; lia|].
    pose proof (sorted_lookup ks a b x y Hs Hx Hy ltac:(lia)). lia. }
  fold (key_index hash ks) in Hle, Hlo, Hhi. fold i in Hle, Hlo, Hhi.
  split; [done|]. split; apply Forall_lookup; intros a x.
  - intros [Hx Ha]%lookup_take_Some. specialize (Hlo a Ha). rewrite Hx in Hlo.
    apply N.leb_gt in Hlo. lia.
  - rewrite lookup_drop. intros Hx. specialize (Hhi (i + a) ltac:(lia) (lookup_lt_Some _ _ _ Hx)).
    rewrite Hx in Hhi. by apply N.leb_le in Hhi.
Qed.

(** ** The key [Get] selects: the successor of the hash on the ring *)

Definition succ_key (ks : list N) (hash k : N) : Prop :=
  k ∈ ks /\
  ((hash <= k /\ forall k', k' ∈ ks -> hash <= k' -> k <= k')%N \/
   (forall k', k' ∈ ks -> k' < hash /\ k <= k')%N).

Lemma succ_key_unique ks hash k k' : succ_key ks hash k -> succ_key ks hash k' -> k = k'.
Proof.
  intros [Hk [[H1 H2]|H]] [Hk' [[H1' H2']|H']]; apply N.le_antisymm.
  all: try (by apply H2); try (by apply H2').
  all: try (specialize (H _ Hk')); try (specialize (H' _ Hk)); lia.
Qed.

Lemma sorted_head_le k ks x : StronglySorted N.le (k :: ks) -> x ∈ k :: ks -> (k <= x)%N.
Proof.
  intros Hs [->|Hx]%elem_of_cons; [done|]. inversion Hs as [|? ? _ Hf]; subst.
  rewrite Forall_forall in Hf. by apply Hf.
Qed.

Lemma sorted_drop ks n : StronglySorted N.le ks -> StronglySorted N.le (drop n ks).
Proof.
  revert n. induction ks as [|k ks IH]; intros [|n] Hs; try done. simpl. apply IH.
  by inversion Hs.
Qed.

Lemma key_index_succ hash ks : StronglySorted N.le ks -> ks <> [] ->
  exists k, ks !! (key_index hash ks mod length ks) = Some k /\ succ_key ks hash k.
Proof.
  intros Hs Hne. destruct (key_index_spec hash ks Hs) as (Hle & Hlo & Hhi).
  set (i := key_index hash ks) in *.
  assert (Hin : forall k', k' ∈ ks -> (k' < hash)%N \/ k' ∈ drop i ks).
  { intros k'. rewrite <- (take_drop i ks) at 1. rewrite elem_of_app. intros [H|H]; [left|by right].
    rewrite Forall_forall in Hlo. by apply Hlo. }
  destruct (decide (i = length ks)) as [Hi|Hi].
  - rewrite Hi, Nat.Div0.mod_same. destruct ks as [|k ks]; [done|]. exists k. split; [done|].
    split; [set_solver|]. right. intros k' Hk'. split; [|by eapply sorted_head_le].
    destruct (Hin k' Hk') as [|H]; [done|]. rewrite Hi, drop_all in H. set_solver.
  - rewrite Nat.mod_small by lia. destruct (lookup_lt_is_Some_2 ks i ltac:(lia)) as [k Hk].
    exists k. split; [done|]. split; [by eapply list_elem_of_lookup_2|]. left.
    rewrite (drop_S ks k i Hk) in Hhi, Hin. split; [by inversion Hhi|].
    intros k' Hk' Hge. destruct (Hin k' Hk') as [|H]; [lia|].
    eapply sorted_head_le; [|done]. rewrite <- (drop_S ks k i Hk). by apply sorted_drop.
Qed.

(** Removing a key removes one occurrence of it, if there is one. *)
Lemma removeKey_in hash ks : StronglySorted N.le ks -> hash ∈ ks -> ks ≡ₚ hash :: removeKey hash ks.
Proof.
  intros Hs Hin. destruct (key_index_spec hash ks Hs) as (Hle & Hlo & Hhi). unfold removeKey.
  set (i := key_index hash ks) in *.
  assert (Hk : ks !! i = Some hash).
  { rewrite <- (take_drop i ks) in Hin. apply elem_of_app in Hin as [H|H].
    { rewrite Forall_forall in Hlo. specialize (Hlo _ H). lia. }
    pose proof (sorted_drop ks i Hs) as Hsd. rewrite <- (Nat.add_0_r i), <- lookup_drop.
    destruct (drop i ks) as [|k l]; [set_solver|]. simpl. f_equal.
    pose proof (sorted_head_le _ _ _ Hsd H). inversion Hhi. lia. }
  destruct (decide _); [|done]. rewrite <- (take_drop_middle ks i hash Hk) at 1.
  by rewrite Permutation_middle.
Qed.

Lemma removeKey_notin hash ks : hash ∉ ks -> removeKey hash ks = ks.
Proof.
  intros Hin. unfold removeKey. destruct (decide _) as [H|]; [|done].
  destruct Hin. by eapply list_elem_of_lookup_2.
Qed.

Lemma sorted_app_inv l1 l2 x : StronglySorted N.le (l1 ++ x :: l2) -> StronglySorted N.le (l1 ++ l2).
Proof.
  induction l1 as [|k l1 IH]; simpl; inversion 1 as [|? ? ? Hf]; subst; [done|].
  constructor; [auto|]. apply Forall_app in Hf as [? Hf]. apply Forall_app. split; [done|].
  by inversion Hf.
Qed.

Lemma removeKey_sorted hash ks : StronglySorted N.le ks -> StronglySorted N.le (removeKey hash ks).
Proof.
  intros Hs. unfold removeKey. destruct (decide _) as [H|]; [|done].
  apply (sorted_app_inv _ _ hash). by rewrite take_drop_middle.
Qed.

Lemma removeKeys_own l rest : forall ks, StronglySorted N.le ks -> ks ≡ₚ l ++ rest ->
  foldl (fun ks x => removeKey x ks) ks l ≡ₚ rest.
Proof.
  induction l as [|x l IH]; intros ks Hs Hp; [done|]. simpl. apply IH; [by apply removeKey_sorted|].
  apply (Permutation_cons_inv (a := x)). rewrite <- removeKey_in; [done..|].
  rewrite Hp. set_solver.
Qed.

Lemma removeKeys_sorted l : forall ks, StronglySorted N.le ks ->
  StronglySorted N.le (foldl (fun ks x => removeKey x ks) ks l).
Proof. induction l as [|x l IH]; intros ks Hs; [done|]. by apply IH, removeKey_sorted. Qed.

Lemma removeKeys_phantom l : forall ks, Forall (fun x => x ∉ ks) l ->
  foldl (fun ks x => removeKey x ks) ks l = ks.
Proof.
  induction l as [|x l IH]; intros ks Hf; [done|]. simpl. apply Forall_cons in Hf as [? Hf].
  by rewrite removeKey_notin, IH.
Qed.

(** ** The abstract ring: the live nodes with their replica counts, oldest first *)

Definition ne {B} (l : list B) : option (list B) := match l with [] => None | _ => Some l end.

Definition vhashes (nodeRepr : gostr) (c : nat) : list N := vhash nodeRepr <$> seq 0 c.

Definition live_keys (live : list (A * nat)) : list N := live ≫= fun p => vhashes (repr p.1) p.2.

Definition at_hash (x : N) (live : list (A * nat)) : list A :=
  live ≫= fun p => (fun _ => p.1) <$> filter (x =.) (vhashes (repr p.1) p.2).

Definition without (r : gostr) (live : list (A * nat)) : list (A * nat) :=
  filter (fun p => repr p.1 <> r) live.

Record inv (h : ConsistentHash) (live : list (A * nat)) : Prop := {
  inv_sorted : StronglySorted N.le (keys h);
  inv_keys : keys h ≡ₚ live_keys live;
  inv_ring x : ring h !! x = ne (at_hash x live);
  inv_nodes : nodes h = list_to_set ((fun p => repr p.1) <$> live);
  inv_nodup : NoDup ((fun p => repr p.1) <$> live);
  inv_count : Forall (fun p => Z.of_nat p.2 <= replicas h)%Z live;
  inv_replicas : (0 <= replicas h)%Z;
}.

(** Replica hashes [Remove] looks up beyond those the node was added with do not meet
    another node's keys. Vacuous for nodes added with all replicas ([Add]). *)
Definition phantom_free (R : Z) (r : gostr) (live : list (A * nat)) : Prop :=
  forall a c i, (a, c) ∈ live -> repr a = r -> c <= i -> (Z.of_nat i < R)%Z ->
    vhash r i ∉ live_keys (without r live).

Lemma removeRingNode_lookup x r m y :
  removeRingNode x r m !! y =
  if decide (y = x) then m !! y ≫= fun ns => ne (filter (fun a => repr a <> r) ns) else m !! y.
Proof.
  unfold removeRingNode. destruct (m !! x) as [ns|] eqn:E.
  - destruct (decide (y = x)) as [->|Hy]; rewrite ?E; simpl.
    + destruct (filter _ ns) eqn:F; destruct (decide _); try done.
      * by rewrite lookup_delete_eq.
      * by rewrite lookup_insert_eq.
    + destruct (decide _); by rewrite ?lookup_delete_ne, ?lookup_insert_ne by done.
  - destruct (decide (y = x)) as [->|]; by rewrite ?E.
Qed.

Lemma filter_twice {B} (P : B -> Prop) `{!forall x, Decision (P x)} (l : list B) :
  filter P (filter P l) = filter P l.
Proof. apply filter_id, Forall_forall. by intros x [? _]%list_elem_of_filter. Qed.

Lemma removeRing_fold l r : forall m y,
  foldl (fun m x => removeRingNode x r m) m l !! y =
  if decide (y ∈ l) then m !! y ≫= fun ns => ne (filter (fun a => repr a <> r) ns) else m !! y.
Proof.
  induction l as [|x l IH]; intros m y; cbn [foldl].
  { rewrite decide_False by set_solver. done. }
  rewrite IH, removeRingNode_lookup. destruct (decide (y = x)) as [->|Hyx].
  - rewrite (decide_True (P := x ∈ x :: l)) by set_solver.
    destruct (m !! x) as [ns|]; simpl; [|by destruct (decide (x ∈ l))].
    destruct (decide (x ∈ l)); [|done]. rewrite <- (filter_twice _ ns) at 2.
    by destruct (filter (fun a => repr a <> r) ns).
  - destruct (decide (y ∈ l)); [rewrite decide_True by set_solver; done|].
    by rewrite decide_False by set_solver.
Qed.

Lemma foldl_pair {S T X} (f : S -> X -> S) (g : T -> X -> T) (l : list X) : forall s t,
  foldl (fun '(s, t) x => (f s x, g t x)) (s, t) l = (foldl f s l, foldl g t l).
Proof. induction l as [|x l IH]; intros s t; [done|]. apply IH. Qed.

Lemma foldl_fmap' {S X Y} (f : S -> Y -> S) (g : X -> Y) (l : list X) : forall s,
  foldl (fun s x => f s (g x)) s l = foldl f s (g <$> l).
Proof. induction l as [|x l IH]; intros s; [done|]. apply IH. Qed.

Lemma Remove_unfold node h : repr node ∈ nodes h ->
  let l := vhashes (repr node) (Z.to_nat (replicas h)) in
  Remove node h = mkHash (replicas h) (foldl (fun ks x => removeKey x ks) (keys h) l)
    (foldl (fun m x => removeRingNode x (repr node) m) (ring h) l) (nodes h ∖ {[ repr node ]}).
Proof.
  intros Hin l. unfold Remove, containsNode. rewrite bool_decide_true by done. simpl.
  rewrite (foldl_pair (fun ks i => removeKey (vhash (repr node) i) ks)
    (fun r i => removeRingNode (vhash (repr node) i) (repr node) r)).
  by rewrite (foldl_fmap' (fun ks x => removeKey x ks)),
    (foldl_fmap' (fun m x => removeRingNode x (repr node) m)).
Qed.

Lemma at_hash_cons x p live :
  at_hash x (p :: live) = ((fun _ => p.1) <$> filter (x =.) (vhashes (repr p.1) p.2)) ++ at_hash x live.
Proof. done. Qed.

Lemma at_hash_app x l1 l2 : at_hash x (l1 ++ l2) = at_hash x l1 ++ at_hash x l2.
Proof. apply bind_app. Qed.

Lemma at_hash_without x r live :
  filter (fun a => repr a <> r) (at_hash x live) = at_hash x (without r live).
Proof.
  induction live as [|p live IH]; [done|]. unfold without. rewrite filter_cons.
  fold (without r live). rewrite at_hash_cons, filter_app, IH. destruct (decide (repr p.1 <> r)).
  - rewrite at_hash_cons. f_equal. apply filter_id, Forall_forall.
    by intros y (? & -> & ?)%list_elem_of_fmap.
  - induction (filter (x =.) (vhashes (repr p.1) p.2)) as [|y l IHl]; [done|].
    cbn [fmap list_fmap]. by rewrite filter_cons_False.
Qed.

Lemma at_hash_notin x r live : (forall a c, (a, c) ∈ live -> repr a = r -> x ∉ vhashes (repr a) c) ->
  at_hash x live = at_hash x (without r live).
Proof.
  intros H. rewrite <- at_hash_without. symmetry. apply filter_id, Forall_forall.
  intros a (p & (y & -> & [-> Hy]%list_elem_of_filter)%list_elem_of_fmap & Hp)%list_elem_of_bind.
  destruct p as [a c]. intros Hr. by apply (H a c).
Qed.

Lemma vhashes_app r c R : c <= R -> vhashes r R = vhashes r c ++ (vhash r <$> seq c (R - c)).
Proof. intros. unfold vhashes. by rewrite <- fmap_app, <- seq_app, <- Nat.le_add_sub by done. Qed.

Lemma without_notin r live : r ∉ ((fun p => repr p.1) <$> live) -> without r live = live.
Proof.
  intros H. apply filter_id, Forall_forall. intros p Hp <-. apply H.
  by apply (list_elem_of_fmap_2 (fun p => repr p.1)).
Qed.

Lemma live_split live a c : NoDup ((fun p => repr p.1) <$> live) -> (a, c) ∈ live ->
  live ≡ₚ (a, c) :: without (repr a) live.
Proof.
  intros Hnd Hin. apply list_elem_of_split in Hin as (l1 & l2 & ->).
  rewrite fmap_app, fmap_cons, NoDup_app, NoDup_cons in Hnd. destruct Hnd as (_ & Hd & Hn & _).
  unfold without. rewrite filter_app, filter_cons_False by naive_solver.
  fold (without (repr a) l1). fold (without (repr a) l2).
  rewrite !without_notin; [by rewrite Permutation_middle|done|]. intros H. by apply (Hd _ H), elem_of_cons; left.
Qed.

Lemma live_keys_perm l1 l2 : l1 ≡ₚ l2 -> live_keys l1 ≡ₚ live_keys l2.
Proof. intros H. by apply bind_Permutation. Qed.

Lemma without_reprs r live :
  (fun p => repr p.1) <$> without r live = filter (fun x => x <> r) ((fun p => repr p.1) <$> live).
Proof.
  induction live as [|p live IH]; [done|]. unfold without. rewrite fmap_cons, !filter_cons.
  fold (without r live). destruct (decide (repr p.1 <> r)); by rewrite ?fmap_cons, IH.
Qed.

Lemma inv_member h live r : inv h live -> r ∈ nodes h <-> exists a c, (a, c) ∈ live /\ repr a = r.
Proof.
  intros [_ _ _ -> _ _ _]. rewrite elem_of_list_to_set, list_elem_of_fmap. split.
  - intros ([a c] & -> & ?). by exists a, c.
  - intros (a & c & ? & <-). by exists (a, c).
Qed.

Lemma Remove_inv node h live : inv h live -> phantom_free (replicas h) (repr node) live ->
  inv (Remove node h) (without (repr node) live).
Proof.
  intros Hinv Hph. destruct (decide (repr node ∈ nodes h)) as [Hin|Hin].
  2:{ unfold Remove, containsNode. rewrite bool_decide_false by done. simpl.
      rewrite without_notin; [done|]. intros H. apply Hin. by rewrite (inv_nodes _ _ Hinv), elem_of_list_to_set. }
  rewrite Remove_unfold by done. apply (inv_member _ _ _ Hinv) in Hin as (a & c & Hac & Hr).
  destruct Hinv as [Hs Hk Hring Hn Hnd Hc Hnn]. set (r := repr node) in *.
  set (R := Z.to_nat (replicas h)).
  assert (Hle : c <= R) by (rewrite Forall_forall in Hc; specialize (Hc _ Hac); simpl in Hc; lia).
  pose proof (live_split live a c Hnd Hac) as Hsp. rewrite Hr in Hsp.
  assert (Hk' : keys h ≡ₚ vhashes r c ++ live_keys (without r live)).
  { rewrite Hk, (live_keys_perm _ _ Hsp). unfold live_keys. simpl. by rewrite Hr. }
  split; simpl.
  - by apply removeKeys_sorted.
  - rewrite (vhashes_app r c R Hle), foldl_app. rewrite removeKeys_phantom.
    + by apply removeKeys_own.
    + apply Forall_forall. intros x (i & -> & Hi%elem_of_seq)%list_elem_of_fmap Hx.
      rewrite (removeKeys_own _ _ _ Hs Hk') in Hx. revert Hx. eapply Hph; [done|done|lia|lia].
  - intros x. rewrite removeRing_fold, Hring, <- at_hash_without.
    destruct (decide (x ∈ vhashes r R)) as [Hx|Hx].
    + by destruct (at_hash x live).
    + rewrite at_hash_without. f_equal. apply at_hash_notin. intros a' c' Ha' Hr' Hx'.
      rewrite Hsp in Ha'. apply elem_of_cons in Ha' as [[= -> ->]|[? _]%list_elem_of_filter]; [|done].
      apply Hx. rewrite (vhashes_app r c R Hle), elem_of_app, <- Hr. by left.
  - rewrite Hn, without_reprs. apply set_eq. intros x.
    rewrite elem_of_difference, !elem_of_list_to_set, list_elem_of_filter. set_solver.
  - rewrite without_reprs. by apply NoDup_filter.
  - rewrite Forall_forall in Hc |- *. intros p [_ Hp]%list_elem_of_filter. by apply Hc.
  - done.
Qed.

Lemma replicas_Remove node h : replicas (Remove node h) = replicas h.
Proof. unfold Remove. destruct (negb _); [done|]. by destruct (foldl _ _ _). Qed.

Lemma replicas_AddWithReplicas node reps h : replicas (AddWithReplicas node reps h) = replicas h.
Proof. unfold AddWithReplicas. destruct (foldl _ _ _). simpl. apply replicas_Remove. Qed.

Lemma inv_fresh h live r : inv h live -> r ∉ nodes h -> r ∉ ((fun p => repr p.1) <$> live).
Proof. intros Hr Hn H. apply Hn. by rewrite (inv_nodes _ _ Hr), elem_of_list_to_set. Qed.

Lemma live_repr (live : list (A * nat)) a c : (a, c) ∈ live -> repr a ∈ ((fun p => repr p.1) <$> live).
Proof. apply (list_elem_of_fmap_2 (fun p => repr p.1) _ (a, c)). Qed.

Lemma fresh_phantom_free R r live : r ∉ ((fun p => repr p.1) <$> live) -> phantom_free R r live.
Proof. intros Hf a c i Hac <- _ _. by apply live_repr in Hac. Qed.

Lemma without_snoc node c live : repr node ∉ ((fun p => repr p.1) <$> live) ->
  without (repr node) (live ++ [(node, c)]) = live.
Proof.
  intros Hf. unfold without. rewrite filter_app. fold (without (repr node) live).
  rewrite without_notin, filter_cons_False by (simpl; naive_solver). by rewrite app_nil_r.
Qed.

(** The loop of [AddWithReplicas] *)
Lemma add_fold (node : A) nr (l : list nat) : forall (ks : list N) (m : gmap N (list A)),
  foldl (fun '(ks, r) i =>
      let hash := vhash nr i in
      (ks ++ [hash], <[hash := default [] (r !! hash) ++ [node]]> r)) (ks, m) l =
  (ks ++ (vhash nr <$> l),
   foldl (fun m x => <[x := default [] (m !! x) ++ [node]]> m) m (vhash nr <$> l)).
Proof.
  induction l as [|x l IH]; intros ks m; [by rewrite app_nil_r|]. simpl. by rewrite IH, <- app_assoc.
Qed.

Lemma add_ring_fold (node : A) l : forall (m : gmap N (list A)) y,
  (forall x, m !! x <> Some []) ->
  foldl (fun m x => <[x := default [] (m !! x) ++ [node]]> m) m l !! y =
  ne (default [] (m !! y) ++ ((fun _ => node) <$> filter (y =.) l)).
Proof.
  induction l as [|x l IH]; intros m y Hm; simpl.
  { rewrite app_nil_r. destruct (m !! y) as [[|]|] eqn:E; [by destruct (Hm y)|done..]. }
  rewrite IH.
  - destruct (decide (y = x)) as [->|Hy].
    + rewrite lookup_insert_eq. rewrite filter_cons_True by done. simpl. by rewrite <- app_assoc.
    + by rewrite lookup_insert_ne, filter_cons_False by done.
  - intros z [[-> Hz]|[_ Hz]]%lookup_insert_Some; [|by destruct (Hm z)].
    by destruct (default [] (m !! z)).
Qed.

Lemma AddWithReplicas_inv node reps h live : inv h live ->
  phantom_free (replicas h) (repr node) live ->
  inv (AddWithReplicas node reps h) (without (repr node) live ++ [(node, Z.to_nat (reps `min` replicas h))]).
Proof.
  intros Hinv Hph. pose proof (Remove_inv node h live Hinv Hph) as Hrm.
  pose proof (replicas_Remove node h) as Hrep.
  assert (Hfresh : repr node ∉ ((fun p => repr p.1) <$> without (repr node) live)).
  { rewrite without_reprs. by intros [? _]%list_elem_of_filter. }
  unfold AddWithReplicas. rewrite Hrep. set (h' := Remove node h) in *.
  set (live' := without (repr node) live) in *.
  replace (if (reps >? replicas h)%Z then replicas h else reps) with (reps `min` replicas h)%Z
    by (rewrite Z.gtb_ltb; destruct (Z.ltb_spec (replicas h) reps); lia).
  set (c := Z.to_nat (reps `min` replicas h)).
  rewrite add_fold. fold (vhashes (repr node) c).
  destruct Hrm as [Hs Hk Hring Hn Hnd Hc Hnn]. split; simpl.
  - apply StronglySorted_merge_sort; apply _.
  - rewrite merge_sort_Permutation, Hk. unfold live_keys. rewrite bind_app. simpl. by rewrite app_nil_r.
  - intros x. rewrite add_ring_fold.
    + rewrite Hring, at_hash_app, at_hash_cons. unfold at_hash at 3. simpl. rewrite app_nil_r.
      by destruct (at_hash x live').
    + intros y. rewrite Hring. by destruct (at_hash y live').
  - rewrite Hn, fmap_app, list_to_set_app_L. simpl. set_solver.
  - rewrite fmap_app. apply NoDup_app. split; [done|]. split; [|apply NoDup_singleton].
    intros x Hx ->%list_elem_of_singleton. done.
  - rewrite Hrep in Hc, Hnn. apply Forall_app. split; [done|]. constructor; [simpl; lia|constructor].
  - by rewrite Hrep in Hnn.
Qed.

(** ** [Get] *)

(** The node [Get] chooses among those at one hash *)
Definition pick (v : A) (ns : list A) : option A :=
  match ns with
  | [] => None
  | [x] => Some x
  | _ => ns !! N.to_nat (hashFunc (innerRepr v) mod N.of_nat (length ns))
  end.

Lemma pick_some v ns : ns <> [] -> exists x, pick v ns = Some x /\ x ∈ ns.
Proof.
  destruct ns as [|a [|b ns]]; [done| |]; intros _; [exists a; set_solver|].
  unfold pick. set (l := a :: b :: ns).
  destruct (lookup_lt_is_Some_2 l (N.to_nat (hashFunc (innerRepr v) mod N.of_nat (length l)))) as [x Hx].
  { pose proof (N.mod_lt (hashFunc (innerRepr v)) (N.of_nat (length l)) ltac:(done)). lia. }
  exists x. split; [done|]. by eapply list_elem_of_lookup_2.
Qed.

Lemma at_hash_nil x live : x ∈ live_keys live <-> at_hash x live <> [].
Proof.
  unfold live_keys. rewrite list_elem_of_bind. split.
  - intros ([a c] & Hx & Hp) E. assert (a ∈ at_hash x live) as Ha; [|rewrite E in Ha; set_solver].
    apply list_elem_of_bind. exists (a, c). split; [|done]. apply list_elem_of_fmap.
    exists x. split; [done|]. by apply list_elem_of_filter.
  - intros Hne. destruct (at_hash x live) as [|a l] eqn:E; [done|].
    assert (a ∈ at_hash x live) as Ha by (rewrite E; set_solver).
    apply list_elem_of_bind in Ha as (p & (y & _ & [<- Hy]%list_elem_of_filter)%list_elem_of_fmap & Hp).
    by exists p.
Qed.

Lemma at_hash_elem x live a : a ∈ at_hash x live -> exists c, (a, c) ∈ live.
Proof.
  intros ([a' c] & (y & -> & _)%list_elem_of_fmap & Hp)%list_elem_of_bind. by exists c.
Qed.

Lemma succ_key_perm k1 k2 hash k : k1 ≡ₚ k2 -> succ_key k1 hash k -> succ_key k2 hash k.
Proof.
  intros Hp [Hk H]. assert (He : forall x, x ∈ k2 <-> x ∈ k1) by (intros x; by rewrite Hp).
  split; [by apply He|]. destruct H as [[H1 H2]|H]; [left|right].
  - split; [done|]. intros k' Hk'%He. auto.
  - intros k' Hk'%He. auto.
Qed.

Lemma Get_inv h live v : inv h live ->
  match live_keys live with
  | [] => Get v h = Ok None
  | _ => exists k x, succ_key (live_keys live) (hashFunc (repr v)) k /\
           pick v (at_hash k live) = Some x /\ x ∈ at_hash k live /\ Get v h = Ok (Some x)
  end.
Proof.
  intros Hinv. unfold Get. destruct (decide (ring h = ∅)) as [He|He].
  - destruct (live_keys live) as [|k l] eqn:E; [done|].
    assert (Hk : k ∈ live_keys live) by (rewrite E; set_solver). apply at_hash_nil in Hk.
    pose proof (inv_ring _ _ Hinv k) as Hr. rewrite He, lookup_empty in Hr.
    by destruct (at_hash k live).
  - assert (Hne : live_keys live <> []).
    { intros E. apply He, map_empty. intros x. rewrite (inv_ring _ _ Hinv).
      destruct (at_hash x live) eqn:Ex; [done|].
      assert (x ∈ live_keys live) as Hx by (apply at_hash_nil; by rewrite Ex). rewrite E in Hx. set_solver. }
    assert (Hkn : keys h <> []).
    { intros E. pose proof (inv_keys _ _ Hinv) as Hp. rewrite E in Hp. by apply Permutation_nil_l in Hp. }
    destruct (key_index_succ (hashFunc (repr v)) (keys h) (inv_sorted _ _ Hinv) Hkn) as (k & Hk & Hsucc).
    apply (succ_key_perm _ _ _ _ (inv_keys _ _ Hinv)) in Hsucc.
    pose proof (proj1 (at_hash_nil k live) (proj1 Hsucc)) as Hat.
    destruct (pick_some v _ Hat) as (x & Hx & Hin).
    assert (exists n, length (keys h) = S n) as [n Hn] by (destruct (keys h); [done|by eexists]).
    rewrite Hn in Hk |- *. rewrite Hk, (inv_ring _ _ Hinv).
    destruct (live_keys live) eqn:E; [done|]. rewrite <- E in Hsucc |- *.
    exists k, x. split; [done|]. split; [done|]. split; [done|].
    unfold pick in Hx. destruct (at_hash k live) as [|a [|b l']]; [done|simpl; by simplify_eq|].
    cbn [ne default from_option id]. by rewrite Hx.
Qed.

(** Two rings that differ by one node, none of whose hashes the others have, send a value to
    the same node or to that one. *)
Lemma Get_one_more h live h0 r v : inv h live -> inv h0 (without r live) ->
  (forall a c x, (a, c) ∈ live -> repr a = r -> x ∈ vhashes r c -> x ∉ live_keys (without r live)) ->
  Get v h = Get v h0 \/ exists x, Get v h = Ok (Some x) /\ repr x = r.
Proof.
  intros Hinv Hinv0 Hdis. destruct (decide (r ∈ ((fun p => repr p.1) <$> live))) as [Hr|Hr].
  2:{ left. pose proof (Get_inv h live v Hinv) as H. pose proof (Get_inv h0 _ v Hinv0) as H0.
      rewrite (without_notin r live Hr) in H0. destruct (live_keys live); [by rewrite H, H0|].
      destruct H as (k & x & Hk & Hx & _ & ->), H0 as (k0 & x0 & Hk0 & Hx0 & _ & ->).
      rewrite (succ_key_unique _ _ _ _ Hk Hk0) in Hx. congruence. }
  apply list_elem_of_fmap in Hr as ([a c] & Hra & Hac). simpl in Hra.
  pose proof (live_split live a c (inv_nodup _ _ Hinv) Hac) as Hsp. rewrite <- Hra in Hsp.
  pose proof (live_keys_perm _ _ Hsp) as Hkp.
  assert (Heq : live_keys ((a, c) :: without r live) = vhashes r c ++ live_keys (without r live)).
  { unfold live_keys. simpl. by rewrite Hra. }
  rewrite Heq in Hkp.
  assert (Hsame : forall x, x ∉ vhashes r c -> at_hash x live = at_hash x (without r live)).
  { intros x Hx. apply at_hash_notin. intros a' c' Ha' Hr'.
    rewrite Hsp in Ha'. apply elem_of_cons in Ha' as [[= -> ->]|[? _]%list_elem_of_filter]; [|done].
    by rewrite Hr'. }
  pose proof (Get_inv h live v Hinv) as H. pose proof (Get_inv h0 _ v Hinv0) as H0.
  destruct (live_keys live) as [|k1 l1] eqn:E.
  { apply Permutation_nil_l, symmetry, app_eq_nil in Hkp as [_ Hz]. rewrite Hz in H0. left. congruence. }
  rewrite <- E in Hkp, H. destruct H as (k & x & Hk & Hx & Hin & HG). rewrite HG.
  apply (succ_key_perm _ _ _ _ Hkp) in Hk. destruct Hk as [Hkin Hk].
  destruct (decide (k ∈ vhashes r c)) as [Hkv|Hkv].
  - right. exists x. split; [done|]. destruct (decide (repr x = r)) as [|Hxr]; [done|].
    assert (x ∈ at_hash k (without r live)) as Hxw.
    { rewrite <- at_hash_without. by apply list_elem_of_filter. }
    exfalso. apply (Hdis a c k Hac (eq_sym Hra) Hkv). apply at_hash_nil. intros En.
    rewrite En in Hxw. set_solver.
  - left. assert (k ∈ live_keys (without r live)) as Hk0 by set_solver.
    destruct (live_keys (without r live)) as [|k2 l2] eqn:E0; [set_solver|]. rewrite <- E0 in *.
    destruct H0 as (k' & x' & Hk' & Hx' & _ & ->).
    assert (Hsucc : succ_key (live_keys (without r live)) (hashFunc (repr v)) k).
    { split; [done|]. destruct Hk as [[? Hk]|Hk]; [left; split; [done|]|right];
        intros z Hz; apply Hk; set_solver. }
    rewrite (succ_key_unique _ _ _ _ Hk' Hsucc) in Hx'. rewrite (Hsame k Hkv) in Hx. congruence.
Qed.

Lemma inv_unique h h' live : inv h live -> inv h' live -> replicas h = replicas h' -> h = h'.
Proof.
  intros [Hs Hk Hr Hn _ _ _] [Hs' Hk' Hr' Hn' _ _ _] Hrep. destruct h, h'; simpl in *. f_equal.
  - done.
  - apply (StronglySorted_unique N.le); [done..|by rewrite Hk, Hk'].
  - apply map_eq. intros x. by rewrite Hr, Hr'.
  - by rewrite Hn, Hn'.
Qed.

(** Reachable rings, with the nodes that live in them *)
Inductive reachable : ConsistentHash -> list (A * nat) -> Prop :=
| reach_new R : reachable (NewCustomConsistentHash R) []
| reach_add node reps h live : reachable h live -> phantom_free (replicas h) (repr node) live ->
    reachable (AddWithReplicas node reps h)
      (without (repr node) live ++ [(node, Z.to_nat (reps `min` replicas h))])
| reach_remove node h live : reachable h live -> phantom_free (replicas h) (repr node) live ->
    reachable (Remove node h) (without (repr node) live).

Lemma reachable_inv h live : reachable h live -> inv h live.
Proof.
  induction 1 as [R|node reps h live _ IH Hph|node h live _ IH Hph].
  - split; simpl; try done; try constructor.
    unfold NewCustomConsistentHash. simpl. destruct (Z.ltb_spec R minReplicas); unfold minReplicas in *; lia.
  - by apply AddWithReplicas_inv.
  - by apply Remove_inv.
Qed.

(** ** Sequences of [Add] and [Remove] *)

Inductive ch_op := OpAdd (node : A) | OpRemove (node : A).

Definition ch_step (h : ConsistentHash) (o : ch_op) : ConsistentHash :=
  match o with OpAdd node => Add node h | OpRemove node => Remove node h end.

Definition member_step (ms : list A) (o : ch_op) : list A :=
  match o with
  | OpAdd node => filter (fun a => repr a <> repr node) ms ++ [node]
  | OpRemove node => filter (fun a => repr a <> repr node) ms
  end.

Definition full (R : nat) (ms : list A) : list (A * nat) := (fun a => (a, R)) <$> ms.

Lemma full_without R r ms : without r (full R ms) = full R (filter (fun a => repr a <> r) ms).
Proof.
  induction ms as [|a ms IH]; [done|]. unfold without, full. rewrite fmap_cons, !filter_cons. simpl.
  fold (full R ms). fold (without r (full R ms)). destruct (decide (repr a <> r)); by rewrite IH.
Qed.

Lemma full_phantom_free R r ms : phantom_free (Z.of_nat R) r (full R ms).
Proof. intros a c i (x & [= -> ->] & _)%list_elem_of_fmap _ ? ?. lia. Qed.

Lemma step_full h R ms o : inv h (full R ms) -> replicas h = Z.of_nat R ->
  inv (ch_step h o) (full R (member_step ms o)) /\ replicas (ch_step h o) = Z.of_nat R.
Proof.
  intros Hinv HR.
  pose proof (fun r => full_phantom_free R r ms) as Hph. rewrite <- HR in Hph.
  destruct o as [node|node]; simpl.
  - split; [|by unfold Add; rewrite replicas_AddWithReplicas].
    pose proof (AddWithReplicas_inv node (replicas h) h _ Hinv (Hph _)) as H.
    rewrite full_without, Z.min_id in H. fold (Add node h) in H.
    unfold full. rewrite fmap_app. by rewrite HR, Nat2Z.id in H.
  - split; [|by rewrite replicas_Remove]. rewrite <- full_without. by apply Remove_inv.
Qed.

Lemma run_full R ops :
  let h0 := NewCustomConsistentHash R in
  let R' := Z.to_nat (replicas h0) in
  inv (foldl ch_step h0 ops) (full R' (foldl member_step [] ops)) /\
  replicas (foldl ch_step h0 ops) = Z.of_nat R'.
Proof.
  intros h0 R'. pose proof (reachable_inv _ _ (reach_new R)) as H0.
  assert (HR : replicas h0 = Z.of_nat R') by (pose proof (inv_replicas _ _ H0); unfold R', h0; lia).
  change (@nil (A * nat)) with (full R' []) in H0. fold h0 in H0. clearbody h0 R'.
  revert H0 HR. generalize (@nil A). revert h0.
  induction ops as [|o ops IH]; intros h0 ms H0 HR; [done|]. simpl.
  destruct (step_full h0 R' ms o H0 HR) as [? ?]. by apply IH.
Qed.

Lemma full_keys R ms : 0 < R -> live_keys (full R ms) = [] -> ms = [].
Proof. intros HR. destruct R; [lia|]. by destruct ms. Qed.

(** After any sequence of [Add] and [Remove] calls and for any hash function, [Get] does
    not panic: it finds no node exactly when none is left, and otherwise returns one of the
    nodes that were added and not removed since. *)
Theorem get_returns_member R ops v :
  match foldl member_step [] ops with
  | [] => Get v (foldl ch_step (NewCustomConsistentHash R) ops) = Ok None
  | ms => exists x, Get v (foldl ch_step (NewCustomConsistentHash R) ops) = Ok (Some x) /\ x ∈ ms
  end.
Proof.
  destruct (run_full R ops) as [Hinv HR]. cbn zeta in *.
  set (R' := Z.to_nat (replicas (NewCustomConsistentHash R))) in *.
  assert (0 < R').
  { subst R'. unfold NewCustomConsistentHash, minReplicas. simpl. destruct (Z.ltb_spec R 100); lia. }
  pose proof (Get_inv _ _ v Hinv) as HG. set (ms := foldl member_step [] ops) in *.
  pose proof (full_keys R' ms ltac:(done)) as Hne.
  destruct (live_keys (full R' ms)) as [|k ks] eqn:E.
  - by rewrite (Hne eq_refl).
  - destruct HG as (k' & x & _ & _ & Hin & HG). apply at_hash_elem in Hin as (c & Hin).
    apply list_elem_of_fmap in Hin as (a & [= <- _] & Hin).
    destruct ms as [|m ms]; [done|]. exists x. by split.
Qed.

(** Adding a node to a ring in which it is not present, with hashes that no present node
    has, moves values to the new node only: every value stays where it was or goes to it. *)
Theorem add_moves_only_to_new node reps h live v :
  reachable h live -> repr node ∉ nodes h ->
  Forall (fun x => x ∉ live_keys live) (vhashes (repr node) (Z.to_nat (reps `min` replicas h))) ->
  Get v (AddWithReplicas node reps h) = Get v h \/
  exists x, Get v (AddWithReplicas node reps h) = Ok (Some x) /\ repr x = repr node.
Proof.
  intros Hr%reachable_inv Hn Hd. pose proof (inv_fresh _ _ _ Hr Hn) as Hfresh.
  pose proof (AddWithReplicas_inv node reps h live Hr (fresh_phantom_free _ _ _ Hfresh)) as Hinv.
  rewrite without_notin in Hinv by done.
  eapply Get_one_more; [exact Hinv|by rewrite without_snoc|]. rewrite without_snoc by done.
  intros a c x [Hin|Hin]%elem_of_app Hra Hx.
  - destruct Hfresh. rewrite <- Hra. by eapply live_repr.
  - apply list_elem_of_singleton in Hin as [= -> ->]. rewrite Forall_forall in Hd. by apply Hd.
Qed.

(** Removing a node none of whose replica hashes another node has moves only the values
    that were on it. *)
Theorem remove_moves_only_own node h live v x :
  reachable h live ->
  Forall (fun y => y ∉ live_keys (without (repr node) live)) (vhashes (repr node) (Z.to_nat (replicas h))) ->
  Get v h = Ok (Some x) -> repr x <> repr node ->
  Get v (Remove node h) = Ok (Some x).
Proof.
  intros Hr%reachable_inv Hd HG Hx. set (r := repr node) in *. rewrite Forall_forall in Hd.
  assert (Hph : phantom_free (replicas h) r live).
  { intros a c i _ _ _ Hi. apply Hd. apply (list_elem_of_fmap_2 (vhash r)), elem_of_seq. lia. }
  pose proof (Remove_inv node h live Hr Hph) as Hinv.
  destruct (Get_one_more h live (Remove node h) r v Hr Hinv) as [H|(y & H & Hy)]; [|congruence..].
  intros a c z Hac Hra Hz. apply Hd. pose proof (inv_count _ _ Hr) as Hc. rewrite Forall_forall in Hc.
  specialize (Hc _ Hac). simpl in Hc. rewrite (vhashes_app r c); [|lia]. set_solver.
Qed.

(** Adding a node that is not present and removing it again restores the ring exactly,
    whatever its hashes collide with. *)
Theorem remove_undoes_add node h live :
  reachable h live -> repr node ∉ nodes h -> Remove node (Add node h) = h.
Proof.
  intros Hr%reachable_inv Hn. pose proof (inv_fresh _ _ _ Hr Hn) as Hfresh.
  pose proof (AddWithReplicas_inv node (replicas h) h live Hr (fresh_phantom_free _ _ _ Hfresh)) as Hinv.
  fold (Add node h) in Hinv. rewrite without_notin, Z.min_id in Hinv by done.
  assert (Hrep : replicas (Add node h) = replicas h) by apply replicas_AddWithReplicas.
  pose proof (Remove_inv node (Add node h) _ Hinv) as Hinv2. rewrite without_snoc in Hinv2 by done.
  apply (inv_unique _ _ live); [|done|by rewrite replicas_Remove]. apply Hinv2.
  intros a c i [Hin|Hin]%elem_of_app Hra Hi HiR.
  - destruct Hfresh. rewrite <- Hra. by eapply live_repr.
  - apply list_elem_of_singleton in Hin as [= -> ->]. lia.
Qed.

(** ** Phantom replicas *)

Definition occ (y : N) (l : list N) : nat := length (filter (y =.) l).

Lemma occ_perm y l1 l2 : l1 ≡ₚ l2 -> occ y l1 = occ y l2.
Proof. intros H. unfold occ. by rewrite H. Qed.

Lemma occ_zero y l : y ∉ l <-> occ y l = 0.
Proof.
  unfold occ. rewrite length_zero_iff_nil. split.
  - intros Hy. destruct (filter (y =.) l) as [|z l'] eqn:E; [done|].
    assert (z ∈ filter (y =.) l) as [<- ?]%list_elem_of_filter by (rewrite E; set_solver). done.
  - intros E Hy. assert (y ∈ filter (y =.) l) as H by (by apply list_elem_of_filter).
    rewrite E in H. set_solver.
Qed.

Lemma removeKeys_occ l y : forall ks, StronglySorted N.le ks ->
  occ y (foldl (fun ks x => removeKey x ks) ks l) = occ y ks - occ y l.
Proof.
  induction l as [|x l IH]; intros ks Hs; [simpl; unfold occ; simpl; lia|]. simpl.
  rewrite IH by (by apply removeKey_sorted).
  assert (occ y (removeKey x ks) = occ y ks - occ y [x]); [|unfold occ in *; rewrite !filter_cons in *; repeat case_decide; simpl in *; lia].
  destruct (decide (x ∈ ks)) as [Hx|Hx].
  - rewrite (occ_perm y _ _ (removeKey_in x ks Hs Hx)). unfold occ. rewrite !filter_cons.
    destruct (decide (y = x)); simpl; lia.
  - rewrite removeKey_notin by done. destruct (decide (y = x)) as [->|Hne].
    + apply occ_zero in Hx. lia.
    + unfold occ. rewrite (filter_cons _ x), decide_False by done. simpl. lia.
Qed.

Lemma removeKeys_all l1 l2 l ks : StronglySorted N.le ks -> ks ≡ₚ l1 -> l ≡ₚ l1 ++ l2 ->
  foldl (fun ks x => removeKey x ks) ks l = [].
Proof.
  intros Hs Hk Hl. destruct (foldl _ _ _) as [|y r] eqn:E; [done|].
  assert (occ y (y :: r) = 0).
  { rewrite <- E, removeKeys_occ by done. rewrite (occ_perm y _ _ Hk), (occ_perm y _ _ Hl).
    unfold occ. rewrite filter_app, length_app. lia. }
  exfalso. apply (proj2 (occ_zero y (y :: r))); set_solver.
Qed.

Lemma New_replicas R : (100 <= replicas (NewCustomConsistentHash R))%Z.
Proof. unfold NewCustomConsistentHash, minReplicas. simpl. destruct (Z.ltb_spec R 100); lia. Qed.

Lemma two_adds_inv R (a b : A) : repr a <> repr b ->
  let h := AddWithReplicas b 10 (AddWithReplicas a 1 (NewCustomConsistentHash R)) in
  inv h [(a, 1); (b, 10)] /\ (100 <= replicas h)%Z.
Proof.
  intros Hab. pose proof (New_replicas R) as HR. set (h0 := NewCustomConsistentHash R) in *.
  pose proof (reachable_inv _ _ (reach_new R)) as H0. fold h0 in H0.
  pose proof (AddWithReplicas_inv a 1 h0 [] H0 (fresh_phantom_free _ _ [] (not_elem_of_nil _))) as H1.
  pose proof (replicas_AddWithReplicas a 1 h0) as Hr1. set (h1 := AddWithReplicas a 1 h0) in *.
  replace (1 `min` replicas h0)%Z with 1%Z in H1 by lia. cbn [without filter list_filter app] in H1.
  assert (Hf : repr b ∉ ((fun p => repr p.1) <$> [(a, Z.to_nat 1)])).
  { simpl. rewrite list_elem_of_singleton. congruence. }
  pose proof (AddWithReplicas_inv b 10 h1 _ H1 (fresh_phantom_free _ _ _ Hf)) as H2.
  rewrite without_notin, Hr1 in H2 by done. replace (10 `min` replicas h0)%Z with 10%Z in H2 by lia.
  split; [exact H2|]. by rewrite replicas_AddWithReplicas, Hr1.
Qed.

(** The replicas [Remove] looks up beyond those a node was added with can be another
    node's: with [a] added with one replica, [b] with ten and [repr b] being [repr a]
    followed by [1], removing [a] takes every key of [b] as well, for every hash function,
    and [Get] then divides by zero although [b] is still in the ring. *)
Theorem remove_light_node_breaks_get R (a b v : A) :
  repr b = repr a ++ lit "1" ->
  let h := Remove a (AddWithReplicas b 10 (AddWithReplicas a 1 (NewCustomConsistentHash R))) in
  keys h = [] /\ repr b ∈ nodes h /\ Get v h = Panic "integer divide by zero".
Proof.
  intros Hb h. subst h.
  assert (Hab : repr a <> repr b).
  { intros E. apply (f_equal length) in Hb. rewrite E, length_app in Hb. simpl in Hb. lia. }
  pose proof (two_adds_inv R a b Hab) as H2. cbn zeta in H2. revert H2.
  generalize (AddWithReplicas b 10 (AddWithReplicas a 1 (NewCustomConsistentHash R))).
  intros h2 [H2 HR].
  assert (Hin : repr a ∈ nodes h2) by (apply (inv_member _ _ _ H2); exists a, 1; split; [left|done]).
  assert (Hbs : vhashes (repr b) 10 = vhash (repr a) <$> seq 10 10).
  { unfold vhashes, vhash. rewrite Hb. simpl. rewrite <- !app_assoc. reflexivity. }
  assert (Hk2 : keys h2 ≡ₚ vhashes (repr a) 1 ++ (vhash (repr a) <$> seq 10 10)).
  { rewrite (inv_keys _ _ H2), <- Hbs. unfold live_keys. simpl. by rewrite ?app_nil_r. }
  rewrite (Remove_unfold a h2 Hin). set (l := vhashes (repr a) (Z.to_nat (replicas h2))).
  set (h := mkHash _ _ _ _).
  assert (Hks : keys h = []).
  { apply (removeKeys_all _ ((vhash (repr a) <$> seq 1 9) ++
      (vhash (repr a) <$> seq 20 (Z.to_nat (replicas h2) - 20))) _ _ (inv_sorted _ _ H2) Hk2).
    unfold l. rewrite (vhashes_app _ 20) by lia. unfold vhashes. rewrite <- !fmap_app. simpl. solve_Permutation. }
  split; [done|]. split.
  { apply elem_of_difference. split; [|rewrite elem_of_singleton; congruence].
    apply (inv_member _ _ _ H2). exists b, 10. split; [right; left|done]. }
  unfold Get. rewrite Hks. destruct (decide (ring h = ∅)) as [He|]; [|done].
  assert (Hl : ring h !! vhash (repr b) 0 = None) by (rewrite He; apply lookup_empty).
  unfold h in Hl. simpl in Hl. rewrite removeRing_fold, (inv_ring _ _ H2) in Hl.
  assert (Hbin : b ∈ at_hash (vhash (repr b) 0) [(a, 1); (b, 10)]).
  { apply list_elem_of_bind. exists (b, 10). split; [|right; left]. apply list_elem_of_fmap.
    exists (vhash (repr b) 0). split; [done|]. apply list_elem_of_filter. split; [done|]. left. }
  assert (Hbin' : b ∈ filter (fun x => repr x <> repr a) (at_hash (vhash (repr b) 0) [(a, 1); (b, 10)])).
  { apply list_elem_of_filter. split; [congruence|done]. }
  destruct (at_hash _ _) as [|x l1]; [by apply not_elem_of_nil in Hbin|]. simpl in Hl.
  destruct (decide _); [|done]. destruct (filter _ (x :: l1)); [by apply not_elem_of_nil in Hbin'|done].
Qed.
End hash.

(** ** Concrete rings: strings as nodes, their base-256 value as hash *)

Definition demo_hash (s : gostr) : N := foldl (fun n c => n * 256 + N_of_ascii c)%N 0%N s.
Definition demo_inner (s : gostr) : gostr := lit "16777619:" ++ s.

Definition demo_ring : ConsistentHash :=
  AddWithReplicas demo_hash id (lit "n1") 2 (NewCustomConsistentHash (A := gostr) 100).

Lemma demo_reachable : reachable demo_hash id demo_ring [(lit "n1", 2)].
Proof.
  apply (reach_add demo_hash id (lit "n1") 2 (NewCustomConsistentHash 100) []); [constructor|].
  intros a c i H. by apply not_elem_of_nil in H.
Qed.

Definition demo_ring2 : ConsistentHash := AddWithReplicas demo_hash id (lit "n2") 2 demo_ring.

Lemma demo_fresh : Forall (fun x => x ∉ live_keys demo_hash id [(lit "n1", 2)])
  (vhashes demo_hash (lit "n2") (Z.to_nat (2 `min` replicas demo_ring))).
Proof. apply Forall_forall. intros x Hx Hy. vm_compute in Hx, Hy. set_solver. Qed.

Lemma demo_reachable2 : reachable demo_hash id demo_ring2 [(lit "n1", 2); (lit "n2", 2)].
Proof.
  apply (reach_add demo_hash id (lit "n2") 2 demo_ring _ demo_reachable).
  intros a c i H. apply list_elem_of_singleton in H as [= -> ->]. done.
Qed.

(** The value [n19] moves to the new node. *)
Lemma add_moves_only_to_new_witness :
  Get demo_hash id demo_inner (lit "n19") demo_ring = Ok (Some (lit "n1")) /\
  (Get demo_hash id demo_inner (lit "n19") demo_ring2 = Get demo_hash id demo_inner (lit "n19") demo_ring \/
   exists x, Get demo_hash id demo_inner (lit "n19") demo_ring2 = Ok (Some x) /\ id x = lit "n2").
Proof.
  split; [by vm_compute|].
  apply (add_moves_only_to_new demo_hash id demo_inner (lit "n2") 2 demo_ring _ (lit "n19")
    demo_reachable); [by vm_compute|apply demo_fresh].
Defined.

Lemma remove_moves_only_own_witness :
  Get demo_hash id demo_inner (lit "n11") (Remove demo_hash id (lit "n2") demo_ring2) = Ok (Some (lit "n1")).
Proof.
  apply (remove_moves_only_own demo_hash id demo_inner (lit "n2") demo_ring2 _ (lit "n11") (lit "n1")
    demo_reachable2); [|by vm_compute|by vm_compute].
  apply (bool_decide_unpack _). by vm_compute.
Defined.

Lemma remove_undoes_add_witness :
  Remove demo_hash id (lit "n2") (Add demo_hash id (lit "n2") demo_ring) = demo_ring.
Proof. apply (remove_undoes_add demo_hash id demo_inner (lit "n2") demo_ring _ demo_reachable). by vm_compute. Defined.

(** The pair of addresses [10.0.0.1:808] and [10.0.0.1:8081] *)
Lemma remove_light_node_breaks_get_witness :
  Get demo_hash id demo_inner (lit "user") (Remove demo_hash id (lit "10.0.0.1:808")
    (AddWithReplicas demo_hash id (lit "10.0.0.1:8081") 10
      (AddWithReplicas demo_hash id (lit "10.0.0.1:808") 1 (NewCustomConsistentHash 100))))
  = Panic "integer divide by zero".
Proof.
  apply (remove_light_node_breaks_get demo_hash id demo_inner 100 (lit "10.0.0.1:808")
    (lit "10.0.0.1:8081") (lit "user")). by vm_compute.
Defined.
