(* ===== verification/Token.v ===== *)
(** * [tools/fastgoctl/pkg/parser/api/token]: the tokens of the API language

    Runes are integers and a text is the list of its runes, as the scanner keeps them. *)

From Stdlib Require Import Ascii String.
From stdpp Require Import pretty.
From S2P Require Import Prelude.
Local Open Scope Z_scope.

Abbreviation rune := Z.
Abbreviation text := (list Z).

Definition rn (c : ascii) : rune := Z.of_N (N_of_ascii c).
(** A literal of the sources as runes *)
Definition rs (s : string) : text := rn <$> list_ascii_of_string s.
Arguments rn c%_char.

(** [strconv] decimal numbers, as [fmt] prints them *)
Definition rnum (z : Z) : text := rs (pretty z).

(** ** [Position] *)

Record Position := mkPos { Filename : text; Line_ : Z; Column : Z }.

#[export] Instance Position_eq_dec : EqDecision Position.
Proof. solve_decision. Defined.

Definition Position_String (p : Position) : text :=
  if decide (Filename p = []) then rnum (Line_ p) ++ rs ":" ++ rnum (Column p)
  else Filename p ++ rs " " ++ rnum (Line_ p) ++ rs ":" ++ rnum (Column p).

(** ** [Type], in the order of its [iota] block *)

Inductive Type_ :=
| token_bg | error_ | ILLEGAL | EOF | COMMENT | DOCUMENT
| literal_beg
| IDENT | INT | DURATION | STRING | RAW_STRING | PATH | KEY
| literal_end
| operator_beg
| SUB | MUL | QUO | ASSIGN
| LPAREN | LBRACK | LBRACE | COMMA | DOT
| RPAREN | RBRACE | RBRACK | SEMICOLON | COLON | ELLIPSIS
| operator_end
| golang_keyword_beg
| BREAK | CASE | CHAN | CONST | CONTINUE
| DEFAULT | DEFER | ELSE | FALLTHROUGH | FOR
| FUNC | GO | GOTO | IF | IMPORT
| INTERFACE | MAP | PACKAGE | RANGE | RETURN
| SELECT | STRUCT | SWITCH | TYPE | VAR
| golang_keyword_end
| api_keyword_bg
| AT_DOC | AT_HANDLER | AT_SERVER | ANY
| api_keyword_end
| token_end.

#[export] Instance Type_eq_dec : EqDecision Type_.
Proof. solve_decision. Defined.

Definition all_types : list Type_ :=
  [token_bg; error_; ILLEGAL; EOF; COMMENT; DOCUMENT;
   literal_beg; IDENT; INT; DURATION; STRING; RAW_STRING; PATH; KEY; literal_end;
   operator_beg; SUB; MUL; QUO; ASSIGN; LPAREN; LBRACK; LBRACE; COMMA; DOT;
   RPAREN; RBRACE; RBRACK; SEMICOLON; COLON; ELLIPSIS; operator_end;
   golang_keyword_beg; BREAK; CASE; CHAN; CONST; CONTINUE;
   DEFAULT; DEFER; ELSE; FALLTHROUGH; FOR; FUNC; GO; GOTO; IF; IMPORT;
   INTERFACE; MAP; PACKAGE; RANGE; RETURN; SELECT; STRUCT; SWITCH; TYPE; VAR; golang_keyword_end;
   api_keyword_bg; AT_DOC; AT_HANDLER; AT_SERVER; ANY; api_keyword_end; token_end].

(** The value of a constant: its place in the block *)
Fixpoint index_of (t : Type_) (l : list Type_) : Z :=
  match l with
  | [] => 0
  | u :: l => if decide (u = t) then 0 else 1 + index_of t l
  end.
Definition iota (t : Type_) : Z := index_of t all_types.

(** The table [tokens]; entries that are not listed are empty. *)
Definition tokens (t : Type_) : text :=
  match t with
  | ILLEGAL => rs "ILLEGAL"
  | EOF => rs "EOF" | COMMENT => rs "COMMENT" | DOCUMENT => rs "DOCUMENT"
  | IDENT => rs "IDENT" | INT => rs "INT" | DURATION => rs "DURATION" | STRING => rs "STRING"
  | RAW_STRING => rs "RAW_STRING" | PATH => rs "PATH" | KEY => rs "KEY"
  | SUB => rs "-" | MUL => rs "*" | QUO => rs "/" | ASSIGN => rs "="
  | LPAREN => rs "(" | LBRACK => rs "[" | LBRACE => rs "{" | COMMA => rs "," | DOT => rs "."
  | RPAREN => rs ")" | RBRACK => rs "]" | RBRACE => rs "}" | SEMICOLON => rs ";"
  | COLON => rs ":" | ELLIPSIS => rs "..."
  | BREAK => rs "break" | CASE => rs "case" | CHAN => rs "chan" | CONST => rs "const"
  | CONTINUE => rs "continue"
  | DEFAULT => rs "default" | DEFER => rs "defer" | ELSE => rs "else"
  | FALLTHROUGH => rs "fallthrough" | FOR => rs "for"
  | FUNC => rs "func" | GO => rs "go" | GOTO => rs "goto" | IF => rs "if" | IMPORT => rs "import"
  | INTERFACE => rs "interface" | MAP => rs "map" | PACKAGE => rs "package" | RANGE => rs "range"
  | RETURN => rs "return"
  | SELECT => rs "select" | STRUCT => rs "struct" | SWITCH => rs "switch" | TYPE => rs "type"
  | VAR => rs "var"
  | AT_DOC => rs "@doc" | AT_HANDLER => rs "@handler" | AT_SERVER => rs "@server"
  | ANY => rs "interface{}"
  | _ => []
  end.

(** [Type.String] *)
Definition Type_String (t : Type_) : text :=
  if (iota token_bg <=? iota t) && (iota t <? iota token_end) then tokens t else [].

(** The map [keywords] and [LookupKeyword] *)
Definition keywords : list (text * Type_) :=
  [(rs "break", BREAK); (rs "case", CASE); (rs "chan", CHAN); (rs "const", CONST);
   (rs "continue", CONTINUE);
   (rs "default", DEFAULT); (rs "defer", DEFER); (rs "else", ELSE);
   (rs "fallthrough", FALLTHROUGH); (rs "for", FOR);
   (rs "func", FUNC); (rs "go", GO); (rs "goto", GOTO); (rs "if", IF); (rs "import", IMPORT);
   (rs "interface", INTERFACE); (rs "map", MAP); (rs "package", PACKAGE); (rs "range", RANGE);
   (rs "return", RETURN);
   (rs "select", SELECT); (rs "struct", STRUCT); (rs "switch", SWITCH); (rs "type", TYPE);
   (rs "var", VAR)].

Definition LookupKeyword (ident : text) : option Type_ :=
  snd <$> head (filter (fun p => p.1 = ident) keywords).

Definition httpMethod : list text :=
  [rs "get"; rs "head"; rs "post"; rs "put"; rs "patch"; rs "delete"; rs "connect"; rs "options";
   rs "trace"].

Definition baseDataType : list text :=
  [rs "bool"; rs "uint8"; rs "uint16"; rs "uint32"; rs "uint64"; rs "int8"; rs "int16"; rs "int32";
   rs "int64"; rs "float32"; rs "float64"; rs "complex64"; rs "complex128"; rs "string"; rs "int";
   rs "uint"; rs "uintptr"; rs "byte"; rs "rune"; rs "any"].

(** ** [Token] *)

Record Token := mkToken { Type__ : Type_; Text : text; Pos : Position }.

#[export] Instance Token_eq_dec : EqDecision Token.
Proof. solve_decision. Defined.

Definition IllegalPosition : Position := mkPos [] 0 0.
Definition EofToken : Token := mkToken EOF [] IllegalPosition.
Definition ErrorToken : Token := mkToken error_ [] IllegalPosition.

Definition Fork (tp : Type_) (t : Token) : Token := mkToken tp (Text t) (Pos t).
Definition IsType (tp : Type_) (t : Token) : bool := bool_decide (Type__ t = tp).
Definition IsComment (t : Token) : bool := IsType COMMENT t.
Definition IsDocument (t : Token) : bool := IsType DOCUMENT t.
Definition Line (t : Token) : Z := Line_ (Pos t).

Definition TrimWhiteSpace (s : text) : text :=
  filter (fun c => ~ (c ∈ [rn " "; rn "009"; rn "010"; rn "012"; rn "013"])) s.

Definition IsEmptyString (t : Token) : bool :=
  if negb (IsType STRING t) && negb (IsType RAW_STRING t) then false
  else
    let text := TrimWhiteSpace (Text t) in
    bool_decide (text = [34; 34]) || bool_decide (text = [96; 96]).

Definition Token_String (t : Token) : text :=
  if decide (t = ErrorToken) then Type_String (Type__ t)
  else Position_String (Pos t) ++ rs " " ++ Type_String (Type__ t) ++ rs " " ++ Text t.

Definition Valid (t : Token) : bool := negb (bool_decide (Type__ t = token_bg)).

Definition IsKeyword (t : Token) : bool :=
  (iota golang_keyword_beg <? iota (Type__ t)) && (iota (Type__ t) <? iota golang_keyword_end).

Definition IsBaseType (t : Token) : bool := bool_decide (Text t ∈ baseDataType).
Definition IsHttpMethod (t : Token) : bool := bool_decide (Text t ∈ httpMethod).
Definition Is (texts : list text) (t : Token) : bool := bool_decide (Text t ∈ texts).

Definition NewIllegalToken (b : rune) (pos : Position) : Token := mkToken ILLEGAL [b] pos.

(** ** The keyword table is the inverse of [String] on the keyword types *)


Lemma keywords_IsKeyword p : p ∈ keywords -> IsKeyword (mkToken p.2 p.1 IllegalPosition) = true
  /\ Type_String p.2 = p.1.
Proof.
  assert (H : Forall (fun p => IsKeyword (mkToken p.2 p.1 IllegalPosition) = true /\ Type_String p.2 = p.1)
                keywords) by (apply (bool_decide_unpack _); by vm_compute).
  rewrite Forall_forall in H. apply H.
Qed.

(** [LookupKeyword] and [String] are inverse on the keyword types: a token has a keyword
    type exactly when looking up its type's name gives that type, and a name that looks up to
    a type is that type's name. *)
Theorem keyword_lookup_inverse (t : Token) (ident : text) (tp : Type_) :
  (IsKeyword t = true <-> LookupKeyword (Type_String (Type__ t)) = Some (Type__ t)) /\
  (LookupKeyword ident = Some tp -> Type_String tp = ident /\ IsKeyword (mkToken tp ident (Pos t)) = true).
Proof.
  split.
  - destruct t as [[] txt pos]; vm_compute; by split.
  - unfold LookupKeyword. destruct (filter _ keywords) as [|p l] eqn:E; [done|]. intros [= <-].
    assert (Hp : p ∈ filter (fun p => p.1 = ident) keywords) by (rewrite E; set_solver).
    apply list_elem_of_filter in Hp as [<- Hp]. by apply keywords_IsKeyword in Hp as [? ?].
Qed.
