(* ===== verification/Scanner.v ===== *)
(** * [tools/fastgoctl/pkg/parser/api/scanner/scanner.go]: the scanner of the API language

    The scanner's state is threaded through every function.  The loops run with fuel
    [size + 1] or more; running out of it, an index out of range and a slice out of bounds
    are panics, and the theorems show that none happens. *)

From Stdlib Require Import Ascii String.
From S2P Require Import Prelude Token.
Local Open Scope Z_scope.
Local Open Scope go_scope.

Inductive mode :=
| initMode
| documentHalfOpen | documentOpen | documentHalfClose | documentClose
| stringOpen | stringClose.

Record Scanner := mkScanner {
  filename : text;
  size_ : nat;
  data : list rune;
  position : nat;
  readPosition : nat;
  ch : rune;
  lines : list Z;
}.

(** What a scanning function returns: a token, or [token.ErrorToken] and an error *)
Inductive scanResult := Tok (t : Token) | Error_ (err : text).

Definition scan (A : Type) : Type := outcome (A * Scanner).

(** ** Reading *)

Definition readRune (s : Scanner) : Scanner :=
  let c := if (size_ s <=? readPosition s)%nat then 0 else default 0 (data s !! readPosition s) in
  mkScanner (filename s) (size_ s) (data s) (readPosition s) (S (readPosition s)) c (lines s).

Definition peekRune (s : Scanner) : rune :=
  if (size_ s <=? readPosition s)%nat then 0 else default 0 (data s !! readPosition s).

Definition isDigit (b : rune) : bool := (rn "0" <=? b) && (b <=? rn "9").
Definition isLetter (b : rune) : bool :=
  ((rn "a" <=? b) && (b <=? rn "z")) || ((rn "A" <=? b) && (b <=? rn "Z")).
Definition isIdentifierLetter (b : rune) : bool := if isLetter b then true else b =? rn "_".

(** [isWhiteSpace] records the position of a newline. *)
Definition isWhiteSpace (b : rune) (s : Scanner) : bool * Scanner :=
  let s := if b =? rn "010"
           then mkScanner (filename s) (size_ s) (data s) (position s) (readPosition s) (ch s)
                  (lines s ++ [Z.of_nat (position s)])
           else s in
  ((b =? rn " ") || (b =? rn "009") || (b =? rn "013") || (b =? rn "012") || (b =? rn "011")
    || (b =? rn "010"), s).

Fixpoint skipWhiteSpace (fuel : nat) (s : Scanner) : outcome Scanner :=
  match fuel with
  | O => Panic "out of fuel"
  | S fuel =>
    let '(w, s) := isWhiteSpace (ch s) s in
    if w then skipWhiteSpace fuel (readRune s) else Ok s
  end.

(** The loops [for p(s.ch) { s.readRune() }] *)
Fixpoint readWhile (fuel : nat) (p : rune -> bool) (s : Scanner) : outcome Scanner :=
  match fuel with
  | O => Panic "out of fuel"
  | S fuel => if p (ch s) then readWhile fuel p (readRune s) else Ok s
  end.

Definition fuel_of (s : Scanner) : nat := S (S (size_ s)).

(** ** Positions and tokens *)

Definition lineCount (s : Scanner) : Z := Z.of_nat (length (lines s)).

Definition newPosition (pos : nat) (s : Scanner) : outcome Position :=
  match last (lines s) with
  | None => Panic "index out of range"
  | Some l => Ok (mkPos (filename s) (lineCount s) (Z.of_nat pos - l))
  end.

Definition positionAt (s : Scanner) : outcome Position := newPosition (position s) s.

(** [string(s.data[lo:hi])] *)
Definition slice (lo hi : nat) (s : Scanner) : outcome text :=
  if ((lo <=? hi) && (hi <=? length (data s)))%nat then Ok (take (hi - lo) (drop lo (data s)))
  else Panic "slice bounds out of range".

(** The token of the given type from [pos] to the current position *)
Definition tokenFrom (tp : Type_) (pos : nat) (s : Scanner) : scan Token :=
  t <~ slice pos (position s) s ;;
  p <~ newPosition pos s ;;
  Ok (mkToken tp t p, s).

Definition newToken (tp : Type_) (s : Scanner) : scan Token :=
  p <~ positionAt s ;;
  Ok (mkToken tp [ch s] p, readRune s).

Definition illegalToken (s : Scanner) : scan Token :=
  p <~ newPosition (position s) s ;;
  Ok (NewIllegalToken (ch s) p, readRune s).

Fixpoint join (sep : text) (l : list text) : text :=
  match l with
  | [] => []
  | [x] => x
  | x :: l => x ++ sep ++ join sep l
  end.

Definition assertExpectedString (actual : text) (expected : list text) (s : Scanner) : outcome text :=
  p <~ positionAt s ;;
  Ok (Position_String p ++ rs " " ++ rs "expected " ++
      join (rs " | ") ((fun v => rs "'" ++ v ++ rs "'") <$> expected) ++
      rs ", got '" ++ actual ++ rs "'").

Definition assertExpected (actual : Type_) (expected : list Type_) (s : Scanner) : outcome text :=
  assertExpectedString (Type_String actual) (Type_String <$> expected) s.

Definition failWith (e : outcome text) (s : Scanner) : scan scanResult :=
  m <~ e ;; Ok (Error_ m, s).

Definition ret (r : scan Token) : scan scanResult :=
  r <~ r ;; Ok (Tok r.1, r.2).

(** ** Literals *)

Fixpoint scanString_loop (fuel : nat) (delim : rune) (tp : Type_) (pos : nat) (stringMode : mode)
    (s : Scanner) : scan scanResult :=
  match fuel with
  | O => Panic "out of fuel"
  | S fuel =>
    if ch s =? delim then
      match stringMode with
      | initMode => scanString_loop fuel delim tp pos stringOpen (readRune s)
      | stringOpen => ret (tokenFrom tp pos (readRune s))
      | _ => scanString_loop fuel delim tp pos stringMode (readRune s)
      end
    else if ch s =? 0 then
      match stringMode with
      | initMode => failWith (assertExpected EOF [tp] s) s
      | stringOpen => failWith (assertExpectedString (Type_String EOF) [[delim]] s) s
      | stringClose => ret (tokenFrom tp pos s)
      | _ => scanString_loop fuel delim tp pos stringMode (readRune s)
      end
    else scanString_loop fuel delim tp pos stringMode (readRune s)
  end.

Definition scanString (delim : rune) (tp : Type_) (s : Scanner) : scan scanResult :=
  scanString_loop (fuel_of s) delim tp (position s) initMode s.

Definition scanLetterSet (s : Scanner) : scan text :=
  let pos := position s in
  s <~ readWhile (fuel_of s) isLetter s ;;
  t <~ slice pos (position s) s ;;
  Ok (t, s).

Definition scanAt (s : Scanner) : scan scanResult :=
  let pos := position s in
  let peek := peekRune s in
  if negb (isLetter peek) then
    if peek =? 0 then
      p <~ positionAt s ;; Ok (Tok (NewIllegalToken (ch s) p), s)
    else failWith (assertExpectedString [peek] [Type_String IDENT] s) s
  else
    let s := readRune s in
    r <~ scanLetterSet s ;;
    let '(letters, s) := r in
    if decide (letters = rs "handler") then
      p <~ newPosition pos s ;; Ok (Tok (mkToken AT_HANDLER (rs "@handler") p), s)
    else if decide (letters = rs "server") then
      p <~ newPosition pos s ;; Ok (Tok (mkToken AT_SERVER (rs "@server") p), s)
    else if decide (letters = rs "doc") then
      p <~ newPosition pos s ;; Ok (Tok (mkToken AT_DOC (rs "@doc") p), s)
    else failWith (assertExpectedString (rs "@" ++ letters)
                    [Type_String AT_DOC; Type_String AT_HANDLER; Type_String AT_SERVER] s) s.

(** ** Durations *)

(** The micro sign U+00B5 *)
Definition micro : rune := 181.

Definition scanNanosecond (bgPos : nat) (s : Scanner) : scan Token :=
  let s := readRune s in
  if negb (ch s =? rn "s") then illegalToken s
  else tokenFrom DURATION bgPos (readRune s).

Definition scanMicrosecond (bgPos : nat) (s : Scanner) : scan Token :=
  let s := readRune s in
  if negb (ch s =? rn "s") then illegalToken s
  else
    let s := readRune s in
    if negb (isDigit (ch s)) then tokenFrom DURATION bgPos s
    else
      s <~ readWhile (fuel_of s) isDigit s ;;
      if negb (ch s =? rn "n") then illegalToken s
      else scanNanosecond bgPos s.

Definition scanMillisecond (bgPos : nat) (s : Scanner) : scan Token :=
  let s := readRune s in
  if negb (isDigit (ch s)) then tokenFrom DURATION bgPos s
  else
    s <~ readWhile (fuel_of s) isDigit s ;;
    if ch s =? rn "n" then scanNanosecond bgPos s
    else if ch s =? micro then scanMicrosecond bgPos s
    else illegalToken s.

Definition scanSecond (bgPos : nat) (s : Scanner) : scan Token :=
  let s := readRune s in
  if negb (isDigit (ch s)) then tokenFrom DURATION bgPos s
  else
    s <~ readWhile (fuel_of s) isDigit s ;;
    if ch s =? rn "n" then scanNanosecond bgPos s
    else if ch s =? micro then scanMicrosecond bgPos s
    else if ch s =? rn "m" then
      let s := readRune s in
      if negb (ch s =? rn "s") then illegalToken s else scanMillisecond bgPos s
    else illegalToken s.

Definition scanMinute (bgPos : nat) (s : Scanner) : scan Token :=
  if negb (isDigit (ch s)) then tokenFrom DURATION bgPos s
  else
    s <~ readWhile (fuel_of s) isDigit s ;;
    if ch s =? rn "n" then scanNanosecond bgPos s
    else if ch s =? micro then scanMicrosecond bgPos s
    else if ch s =? rn "m" then
      let s := readRune s in
      if negb (ch s =? rn "s") then illegalToken s else scanMillisecond bgPos s
    else if ch s =? rn "s" then scanSecond bgPos s
    else illegalToken s.

Definition scanMillisecondOrMinute (bgPos : nat) (s : Scanner) : scan Token :=
  let s := readRune s in
  if negb (ch s =? rn "s") then
    if (ch s =? 0) || negb (isDigit (ch s)) then tokenFrom DURATION bgPos s
    else scanMinute bgPos s
  else scanMillisecond bgPos s.

Definition scanHour (bgPos : nat) (s : Scanner) : scan Token :=
  let s := readRune s in
  if negb (isDigit (ch s)) then tokenFrom DURATION bgPos s
  else
    s <~ readWhile (fuel_of s) isDigit s ;;
    if ch s =? rn "n" then scanNanosecond bgPos s
    else if ch s =? micro then scanMicrosecond bgPos s
    else if ch s =? rn "m" then scanMillisecondOrMinute bgPos s
    else if ch s =? rn "s" then scanSecond bgPos s
    else illegalToken s.

Definition scanDuration (bgPos : nat) (s : Scanner) : scan Token :=
  if ch s =? rn "n" then scanNanosecond bgPos s
  else if ch s =? micro then scanMicrosecond bgPos s
  else if ch s =? rn "m" then scanMillisecondOrMinute bgPos s
  else if ch s =? rn "s" then scanSecond bgPos s
  else if ch s =? rn "h" then scanHour bgPos s
  else illegalToken s.

Definition scanIntOrDuration (s : Scanner) : scan Token :=
  let pos := position s in
  s <~ readWhile (fuel_of s) isDigit s ;;
  if bool_decide (ch s ∈ [rn "n"; micro; rn "m"; rn "s"; rn "h"]) then scanDuration pos s
  else tokenFrom INT pos s.

(** ** Identifiers and comments *)

Definition isIdentRune (b : rune) : bool := isIdentifierLetter b || isDigit b.

Definition scanIdent (s : Scanner) : scan Token :=
  let pos := position s in
  s <~ readWhile (fuel_of s) isIdentRune s ;;
  ident <~ slice pos (position s) s ;;
  if ch s =? rn ":" then tokenFrom KEY pos (readRune s)
  else if bool_decide (ident = rs "interface") && (ch s =? rn "{") && (peekRune s =? rn "}")
  then tokenFrom ANY pos (readRune (readRune s))
  else
    p <~ newPosition pos s ;; Ok (mkToken IDENT ident p, s).

Definition scanLineComment (s : Scanner) : scan Token :=
  let pos := position s in
  s <~ readWhile (fuel_of s) (fun c => negb (c =? rn "010") && negb (c =? 0)) s ;;
  tokenFrom COMMENT pos s.

Fixpoint scanDocument_loop (fuel : nat) (pos : nat) (documentMode : mode) (s : Scanner)
    : scan scanResult :=
  match fuel with
  | O => Panic "out of fuel"
  | S fuel =>
    if ch s =? rn "*" then
      match documentMode with
      | documentHalfOpen => scanDocument_loop fuel pos documentOpen (readRune s)
      | documentOpen | documentHalfClose => scanDocument_loop fuel pos documentHalfClose (readRune s)
      | _ => scanDocument_loop fuel pos documentMode (readRune s)
      end
    else if ch s =? 0 then
      match documentMode with
      | initMode | documentHalfOpen => failWith (assertExpected EOF [MUL] s) s
      | documentOpen => failWith (assertExpected EOF [MUL] s) s
      | documentHalfClose => failWith (assertExpected EOF [QUO] s) s
      | _ => scanDocument_loop fuel pos documentMode (readRune s)
      end
    else if ch s =? rn "/" then
      match documentMode with
      | initMode => scanDocument_loop fuel pos documentHalfOpen (readRune s)
      | documentHalfOpen => failWith (assertExpected QUO [MUL] s) s
      | documentHalfClose => ret (tokenFrom DOCUMENT pos (readRune s))
      | _ => scanDocument_loop fuel pos documentMode (readRune s)
      end
    else scanDocument_loop fuel pos documentMode (readRune s)
  end.

Definition scanDocument (s : Scanner) : scan scanResult :=
  scanDocument_loop (fuel_of s) (position s) initMode s.

(** ** [NextToken] *)

Definition scanDots (s : Scanner) : scan Token :=
  let pos := position s in
  if negb (peekRune s =? rn ".") then newToken DOT s
  else
    let s := readRune s in
    if negb (peekRune s =? rn ".") then newToken DOT s
    else
      let s := readRune (readRune s) in
      p <~ newPosition pos s ;; Ok (mkToken ELLIPSIS (rs "...") p, s).

Definition NextToken (s : Scanner) : scan scanResult :=
  s <~ skipWhiteSpace (fuel_of s) s ;;
  if ch s =? rn "/" then
    if peekRune s =? rn "/" then ret (scanLineComment s)
    else if peekRune s =? rn "*" then scanDocument s
    else ret (newToken QUO s)
  else if ch s =? rn "-" then ret (newToken SUB s)
  else if ch s =? rn "*" then ret (newToken MUL s)
  else if ch s =? rn "(" then ret (newToken LPAREN s)
  else if ch s =? rn "[" then ret (newToken LBRACK s)
  else if ch s =? rn "{" then ret (newToken LBRACE s)
  else if ch s =? rn "," then ret (newToken COMMA s)
  else if ch s =? rn "." then ret (scanDots s)
  else if ch s =? rn ")" then ret (newToken RPAREN s)
  else if ch s =? rn "]" then ret (newToken RBRACK s)
  else if ch s =? rn "}" then ret (newToken RBRACE s)
  else if ch s =? rn ";" then ret (newToken SEMICOLON s)
  else if ch s =? rn ":" then ret (newToken COLON s)
  else if ch s =? rn "=" then ret (newToken ASSIGN s)
  else if ch s =? rn "@" then scanAt s
  else if ch s =? 34 then scanString 34 STRING s
  else if ch s =? rn "`" then scanString (rn "`") RAW_STRING s
  else if ch s =? 0 then Ok (Tok EofToken, s)
  else if isIdentifierLetter (ch s) then ret (scanIdent s)
  else if isDigit (ch s) then ret (scanIntOrDuration s)
  else
    p <~ newPosition (position s) s ;;
    Ok (Tok (NewIllegalToken (ch s) p), readRune s).

(** ** [NewScanner] *)

(** [range] over a string: the runes of its UTF-8 bytes, U+FFFD for each byte that does not
    start a valid encoding. *)
Definition cont (lo hi b : Z) : bool := (lo <=? b) && (b <=? hi).

Fixpoint decodeRunes (fuel : nat) (bs : list Z) : list rune :=
  match fuel, bs with
  | S fuel, b0 :: r0 =>
    if b0 <? 128 then b0 :: decodeRunes fuel r0
    else
      match r0 with
      | b1 :: r1 =>
        if cont 194 223 b0 && cont 128 191 b1 then
          ((b0 - 192) * 64 + (b1 - 128)) :: decodeRunes fuel r1
        else
          match r1 with
          | b2 :: r2 =>
            if cont 224 239 b0 &&
               cont (if b0 =? 224 then 160 else 128) (if b0 =? 237 then 159 else 191) b1 &&
               cont 128 191 b2 then
              ((b0 - 224) * 4096 + (b1 - 128) * 64 + (b2 - 128)) :: decodeRunes fuel r2
            else
              match r2 with
              | b3 :: r3 =>
                if cont 240 244 b0 &&
                   cont (if b0 =? 240 then 144 else 128) (if b0 =? 244 then 143 else 191) b1 &&
                   cont 128 191 b2 && cont 128 191 b3 then
                  ((b0 - 240) * 262144 + (b1 - 128) * 4096 + (b2 - 128) * 64 + (b3 - 128))
                    :: decodeRunes fuel r3
                else 65533 :: decodeRunes fuel r0
              | [] => 65533 :: decodeRunes fuel r0
              end
          | [] => 65533 :: decodeRunes fuel r0
          end
      | [] => 65533 :: decodeRunes fuel r0
      end
  | _, _ => []
  end.

(** The sources [readData] accepts *)
Inductive source := SrcBytes (b : list Z) | SrcBuffer (b : list Z) | SrcString (b : list Z) | SrcOther.

Inductive scanner_error := missingInput | unsupportedType | readFileError.

(** [readData]; [file] is [None] when there is no file of that name, and otherwise what
    reading it gives. *)
Definition readData (isApi : bool) (file : option (option (list Z))) (src : source)
    : scanner_error + list Z :=
  match isApi, file with
  | true, Some (Some d) => inr d
  | true, Some None => inl readFileError
  | _, _ =>
    match src with
    | SrcBytes v | SrcBuffer v | SrcString v => inr v
    | SrcOther => inl unsupportedType
    end
  end.

Definition NewScanner (base : text) (isApi : bool) (file : option (option (list Z))) (src : source)
    : scanner_error + Scanner :=
  match readData isApi file src with
  | inl e => inl e
  | inr d =>
    if decide (d = []) then inl missingInput
    else
      let runeList := decodeRunes (length d) d in
      inr (readRune (mkScanner base (length runeList) runeList 0 0 0 [-1]))
  end.

(** ** Well-formed scanners: the current rune is the one at the current position *)

Definition at_ (s : Scanner) (i : nat) : rune :=
  if (size_ s <=? i)%nat then 0 else default 0 (data s !! i).

Definition seek (s : Scanner) (q : nat) : Scanner :=
  mkScanner (filename s) (size_ s) (data s) q (S q) (at_ s q) (lines s).

Record ok (s : Scanner) : Prop := {
  ok_size : size_ s = length (data s);
  ok_lines : lines s <> [];
  ok_seek : s = seek s (position s);
}.

Definition sl (s : Scanner) (lo hi : nat) : text := take (hi - lo) (drop lo (data s)).

Definition posOf (s : Scanner) (pos : nat) : Position :=
  mkPos (filename s) (lineCount s) (Z.of_nat pos - default 0 (last (lines s))).

Lemma ok_of_seek s q : ok s -> ok (seek s q).
Proof. intros [H1 H2 H3]. by split. Qed.

Lemma at_nonzero s q : at_ s q <> 0 -> (q < size_ s)%nat.
Proof. unfold at_. destruct (Nat.leb_spec (size_ s) q); [done|lia]. Qed.

Lemma readRune_seek s q : readRune (seek s q) = seek s (S q).
Proof. done. Qed.

Lemma peekRune_seek s q : peekRune (seek s q) = at_ s (S q).
Proof. done. Qed.

Lemma slice_seek s q lo hi : ok s -> (lo <= hi)%nat -> (hi <= size_ s)%nat ->
  slice lo hi (seek s q) = Ok (sl s lo hi).
Proof.
  intros Hok H1 H2. unfold slice. simpl. rewrite <- (ok_size s Hok).
  by rewrite (proj2 (Nat.leb_le _ _) H1), (proj2 (Nat.leb_le _ _) H2).
Qed.

Lemma newPosition_seek s q pos : ok s -> newPosition pos (seek s q) = Ok (posOf s pos).
Proof.
  intros Hok. unfold newPosition, posOf. simpl. destruct (last (lines s)) eqn:E; [done|].
  apply last_None in E. by destruct (ok_lines s Hok).
Qed.

(** A run of runes that satisfy [p] *)
Definition run (p : rune -> bool) (s : Scanner) (lo hi : nat) : Prop :=
  forall i, (lo <= i)%nat -> (i < hi)%nat -> p (at_ s i) = true.

Lemma readWhile_spec p s : p 0 = false -> forall fuel q, (size_ s < fuel + q)%nat -> (0 < fuel)%nat ->
  exists q', readWhile fuel p (seek s q) = Ok (seek s q') /\ (q <= q')%nat /\
    (q < q' -> q' <= size_ s)%nat /\ run p s q q' /\ p (at_ s q') = false.
Proof.
  intros Hp0. induction fuel as [|fuel IH]; intros q Hf Hpos; [lia|]. simpl.
  destruct (p (at_ s q)) eqn:E.
  - assert (q < size_ s)%nat by (apply at_nonzero; congruence).
    destruct (IH (S q)) as (q' & Hr & Hle & Hsz & Hrun & Hstop); [lia|lia|].
    exists q'. split; [by rewrite readRune_seek|]. split; [lia|]. split; [lia|]. split; [|done].
    intros i Hi1 Hi2. destruct (decide (i = q)) as [->|]; [done|]. apply Hrun; lia.
  - exists q. split; [done|]. split; [lia|]. split; [lia|]. split; [intros i ? ?; lia|done].
Qed.

Lemma readWhile_fuel p s q : ok s -> p 0 = false ->
  exists q', readWhile (fuel_of (seek s q)) p (seek s q) = Ok (seek s q') /\ (q <= q')%nat /\
    (q < q' -> q' <= size_ s)%nat /\ run p s q q' /\ p (at_ s q') = false.
Proof. intros _ Hp. apply readWhile_spec; [done|unfold fuel_of; simpl; lia..]. Qed.

(** Slices *)
Lemma sl_app s a b c : (a <= b)%nat -> (b <= c)%nat -> sl s a c = sl s a b ++ sl s b c.
Proof.
  intros H1 H2. unfold sl. replace (c - a)%nat with (b - a + (c - b))%nat by lia.
  rewrite <- take_take_drop. f_equal. rewrite drop_drop. do 2 f_equal. lia.
Qed.

Lemma sl_one s q : ok s -> (q < size_ s)%nat -> sl s q (S q) = [at_ s q].
Proof.
  intros Hok Hq. unfold sl, at_. destruct (Nat.leb_spec (size_ s) q); [lia|].
  rewrite (ok_size s Hok) in Hq. destruct (lookup_lt_is_Some_2 _ _ Hq) as [c Hc].
  rewrite (drop_S _ _ _ Hc), Hc. replace (S q - q)%nat with 1%nat by lia. done.
Qed.

Lemma run_Forall p s lo hi : ok s -> (lo <= hi)%nat -> (hi <= size_ s)%nat -> run p s lo hi ->
  Forall (fun c => p c = true) (sl s lo hi).
Proof.
  intros Hok Hle Hsz Hrun. apply Forall_lookup. intros i c. unfold sl.
  intros [Hc Hi]%lookup_take_Some. rewrite lookup_drop in Hc.
  specialize (Hrun (lo + i)%nat). unfold at_ in Hrun. destruct (Nat.leb_spec (size_ s) (lo + i)); [lia|].
  rewrite Hc in Hrun. apply Hrun; lia.
Qed.

Lemma length_sl s lo hi : ok s -> (lo <= hi)%nat -> (hi <= size_ s)%nat -> length (sl s lo hi) = (hi - lo)%nat.
Proof. intros Hok H1 H2. unfold sl. rewrite length_take, length_drop, <- (ok_size s Hok). lia. Qed.

(** ** What a scanning function does *)

(** The token [t] is the source from [lo] to [hi] and carries the position of [lo]. *)
Definition lexeme (s : Scanner) (lo hi : nat) (t : Token) : Prop :=
  Text t = sl s lo hi /\ Pos t = posOf s lo /\ (hi <= size_ s)%nat.

(** A scan that started at [lo] moves on past it and returns a token that satisfies [P] *)
Definition scans (s : Scanner) (lo : nat) (P : nat -> Token -> Prop) (r : scan Token) : Prop :=
  exists q t, r = Ok (t, seek s q) /\ (lo < q)%nat /\ P q t.

(** An illegal token, or a lexeme of type [tp] whose text satisfies [K] *)
Definition legal (s : Scanner) (lo : nat) (tp : Type_) (K : text -> Prop) (q : nat) (t : Token) : Prop :=
  Type__ t = ILLEGAL \/ (Type__ t = tp /\ lexeme s lo q t /\ K (Text t)).

Lemma tokenFrom_eq s tp lo q : ok s -> (lo <= q)%nat -> (q <= size_ s)%nat ->
  tokenFrom tp lo (seek s q) = Ok (mkToken tp (sl s lo q) (posOf s lo), seek s q).
Proof.
  intros Hok Hlo Hq. unfold tokenFrom. change (position (seek s q)) with q.
  rewrite slice_seek by (done || lia). simpl. by rewrite newPosition_seek.
Qed.

Lemma tokenFrom_scans s tp lo q (K : text -> Prop) : ok s -> (lo < q)%nat -> (q <= size_ s)%nat -> K (sl s lo q) ->
  scans s lo (legal s lo tp K) (tokenFrom tp lo (seek s q)).
Proof.
  intros Hok Hlo Hq HK. rewrite tokenFrom_eq by (done || lia).
  eexists q, _. split; [done|]. split; [done|]. by right.
Qed.

Lemma illegalToken_scans s tp lo q K : ok s -> (lo <= q)%nat ->
  scans s lo (legal s lo tp K) (illegalToken (seek s q)).
Proof.
  intros Hok Hlo. unfold illegalToken. rewrite newPosition_seek by done. simpl.
  eexists (S q), _. split; [done|]. split; [lia|]. by left.
Qed.

(** ** Durations: a number and a unit, then smaller ones *)

Definition unit_ (k : nat) : text :=
  match k with
  | 0 => rs "ns" | 1 => [micro; rn "s"] | 2 => rs "ms" | 3 => rs "s" | 4 => rs "m" | _ => rs "h"
  end%nat.

Definition digits (d : text) : Prop := d <> [] /\ Forall (fun c => isDigit c = true) d.

Inductive duration : nat -> text -> Prop :=
| dur_last b k d : (k < b)%nat -> digits d -> duration b (d ++ unit_ k)
| dur_more b k d t : (k < b)%nat -> digits d -> duration k t -> duration b (d ++ unit_ k ++ t).

(** The scan stands at [q], behind the digits from [dg] on, and what is scanned before them
    can be completed by a duration with units below [b]. *)
Record behind_digits (s : Scanner) (lo dg q b : nat) (K : text -> Prop) : Prop := {
  bd_lo : (lo <= dg)%nat;
  bd_dg : (dg < q)%nat;
  bd_q : (q <= size_ s)%nat;
  bd_run : run isDigit s dg q;
  bd_K t : duration b t -> K (sl s lo dg ++ t);
}.

Lemma bd_digits s lo dg q b K : ok s -> behind_digits s lo dg q b K -> digits (sl s dg q).
Proof.
  intros Hok [H1 H2 H3 H4 _]. split.
  - intros E. pose proof (length_sl s dg q Hok ltac:(lia) H3) as H. rewrite E in H. simpl in H. lia.
  - by apply run_Forall; [done|lia|..].
Qed.

Lemma bd_weaken s lo dg q b b' K : (b' <= b)%nat -> behind_digits s lo dg q b K -> behind_digits s lo dg q b' K.
Proof.
  intros Hb [H1 H2 H3 H4 H5]. split; try done. intros t Ht. apply H5.
  destruct Ht; [apply dur_last|apply dur_more]; (done || lia).
Qed.

(** The unit [k] follows the digits: the token may end there, or a smaller unit follows. *)
Lemma bd_unit s lo dg q e b k K : ok s -> behind_digits s lo dg q b K -> (k < b)%nat ->
  (q <= e)%nat -> (e <= size_ s)%nat -> sl s q e = unit_ k ->
  K (sl s lo e) /\ (forall q', (e < q')%nat -> (q' <= size_ s)%nat -> run isDigit s e q' -> behind_digits s lo e q' k K).
Proof.
  intros Hok Hbd Hk Hqe He Hu. pose proof (bd_digits _ _ _ _ _ _ Hok Hbd) as Hd.
  destruct Hbd as [H1 H2 H3 H4 H5].
  assert (Hsl : sl s lo e = sl s lo dg ++ sl s dg q ++ unit_ k).
  { rewrite (sl_app s lo dg e), (sl_app s dg q e), Hu by lia. done. }
  split.
  - rewrite Hsl. apply H5. by apply dur_last.
  - intros q' Hq' Hq'' Hrun. split; try done; try lia.
    intros t Ht. rewrite Hsl, <- !app_assoc. apply H5. by apply dur_more.
Qed.

Lemma sl_two s q a b : ok s -> at_ s q = a -> at_ s (S q) = b -> a <> 0 -> b <> 0 ->
  sl s q (S (S q)) = [a; b] /\ (S (S q) <= size_ s)%nat.
Proof.
  intros Hok <- <- Ha%at_nonzero Hb%at_nonzero. rewrite (sl_app s q (S q)) by lia.
  rewrite !sl_one by (done || lia). split; [done|lia].
Qed.

Section durations.
Context (s : Scanner) (Hok : ok s) (lo : nat) (K : text -> Prop).

Abbreviation done_with := (scans s lo (legal s lo DURATION K)).

Lemma scanNanosecond_spec dg q b : behind_digits s lo dg q b K -> (0 < b)%nat -> at_ s q = rn "n" ->
  done_with (scanNanosecond lo (seek s q)).
Proof.
  intros Hbd Hb Hn. pose proof (bd_lo _ _ _ _ _ _ Hbd). pose proof (bd_dg _ _ _ _ _ _ Hbd).
  unfold scanNanosecond. rewrite !readRune_seek. simpl ch.
  destruct (Z.eqb_spec (at_ s (S q)) (rn "s")) as [E|E]; simpl.
  - destruct (sl_two s q _ _ Hok Hn E) as [Hs Hsz]; [done..|].
    destruct (bd_unit s lo dg q (S (S q)) b 0 K) as [HK _]; try done; try lia.
    apply tokenFrom_scans; try done; lia.
  - apply illegalToken_scans; [done|lia].
Qed.

(** After a unit that ended at [e]: the token ends, or digits follow *)
Lemma after_unit e k next : (lo < e)%nat -> (e <= size_ s)%nat -> K (sl s lo e) ->
  (forall q', (e < q')%nat -> (q' <= size_ s)%nat -> run isDigit s e q' -> behind_digits s lo e q' k K) ->
  (forall q', behind_digits s lo e q' k K -> done_with (next (seek s q'))) ->
  done_with (if negb (isDigit (ch (seek s e))) then tokenFrom DURATION lo (seek s e)
             else (s' <~ readWhile (fuel_of (seek s e)) isDigit (seek s e) ;; next s')).
Proof.
  intros Hlo He HK Hbd Hnext. simpl ch. destruct (isDigit (at_ s e)) eqn:E; simpl negb.
  - destruct (readWhile_fuel isDigit s e Hok eq_refl) as (q' & -> & H1 & H2 & H3 & H4). simpl.
    assert (e <> q') by congruence. apply Hnext, Hbd; [lia|lia|done].
  - by apply tokenFrom_scans.
Qed.

Lemma scanMicrosecond_spec dg q b : behind_digits s lo dg q b K -> (1 < b)%nat -> at_ s q = micro ->
  done_with (scanMicrosecond lo (seek s q)).
Proof.
  intros Hbd Hb Hn. pose proof (bd_lo _ _ _ _ _ _ Hbd). pose proof (bd_dg _ _ _ _ _ _ Hbd).
  unfold scanMicrosecond. rewrite !readRune_seek. simpl ch at 1.
  destruct (Z.eqb_spec (at_ s (S q)) (rn "s")) as [E|E]; simpl negb.
  - destruct (sl_two s q _ _ Hok Hn E) as [Hs Hsz]; [done..|].
    destruct (bd_unit s lo dg q (S (S q)) b 1 K) as [HK Hnext]; try done; try lia.
    apply (after_unit (S (S q)) 1); try done; [lia|].
    intros q' Hbd'. simpl ch. destruct (Z.eqb_spec (at_ s q') (rn "n")) as [E'|]; simpl negb.
    + eapply scanNanosecond_spec; [done|lia|done].
    + apply illegalToken_scans; [done|]. destruct Hbd'; lia.
  - apply illegalToken_scans; [done|lia].
Qed.

Lemma scanMillisecond_spec dg q b : behind_digits s lo dg q b K -> (2 < b)%nat -> at_ s q = rn "m" ->
  at_ s (S q) = rn "s" -> done_with (scanMillisecond lo (seek s (S q))).
Proof.
  intros Hbd Hb Hm Hs. pose proof (bd_lo _ _ _ _ _ _ Hbd). pose proof (bd_dg _ _ _ _ _ _ Hbd).
  destruct (sl_two s q _ _ Hok Hm Hs) as [Hu Hsz]; [done..|].
  destruct (bd_unit s lo dg q (S (S q)) b 2 K) as [HK Hnext]; try done; try lia.
  unfold scanMillisecond. rewrite !readRune_seek.
  apply (after_unit (S (S q)) 2); try done; [lia|].
  intros q' Hbd'. simpl ch. destruct (Z.eqb_spec (at_ s q') (rn "n")) as [E'|].
  { eapply scanNanosecond_spec; [done|lia|done]. }
  destruct (Z.eqb_spec (at_ s q') micro) as [E'|].
  { eapply scanMicrosecond_spec; [done|lia|done]. }
  apply illegalToken_scans; [done|]. destruct Hbd'; lia.
Qed.

(** The case ['m'] of [scanSecond] and [scanMinute] *)
Lemma ms_case_spec dg q b : behind_digits s lo dg q b K -> (2 < b)%nat -> at_ s q = rn "m" ->
  done_with (if negb (ch (readRune (seek s q)) =? rn "s") then illegalToken (readRune (seek s q))
             else scanMillisecond lo (readRune (seek s q))).
Proof.
  intros Hbd Hb Hm. rewrite !readRune_seek. simpl ch.
  destruct (Z.eqb_spec (at_ s (S q)) (rn "s")) as [E|E]; simpl negb.
  - eapply scanMillisecond_spec; [done|lia|done..].
  - apply illegalToken_scans; [done|]. destruct Hbd; lia.
Qed.

Lemma sl_unit1 q c : at_ s q = c -> c <> 0 -> sl s q (S q) = [c] /\ (S q <= size_ s)%nat.
Proof. intros <- H%at_nonzero. split; [by apply sl_one|lia]. Qed.

Lemma scanSecond_spec dg q b : behind_digits s lo dg q b K -> (3 < b)%nat -> at_ s q = rn "s" ->
  done_with (scanSecond lo (seek s q)).
Proof.
  intros Hbd Hb Hn. pose proof (bd_lo _ _ _ _ _ _ Hbd). pose proof (bd_dg _ _ _ _ _ _ Hbd).
  destruct (sl_unit1 q _ Hn) as [Hu Hsz]; [done|].
  destruct (bd_unit s lo dg q (S q) b 3 K) as [HK Hnext]; try done; try lia.
  unfold scanSecond. rewrite !readRune_seek. apply (after_unit (S q) 3); try done; [lia|].
  intros q' Hbd'. simpl ch at 1 2 3. destruct (Z.eqb_spec (at_ s q') (rn "n")) as [E'|].
  { eapply scanNanosecond_spec; [done|lia|done]. }
  destruct (Z.eqb_spec (at_ s q') micro) as [E'|].
  { eapply scanMicrosecond_spec; [done|lia|done]. }
  destruct (Z.eqb_spec (at_ s q') (rn "m")) as [E'|].
  { eapply ms_case_spec; [done|lia|done]. }
  apply illegalToken_scans; [done|]. destruct Hbd'; lia.
Qed.

Lemma scanMinute_spec dg q b : behind_digits s lo dg q b K -> (4 < b)%nat -> at_ s q = rn "m" ->
  done_with (scanMinute lo (seek s (S q))).
Proof.
  intros Hbd Hb Hn. pose proof (bd_lo _ _ _ _ _ _ Hbd). pose proof (bd_dg _ _ _ _ _ _ Hbd).
  destruct (sl_unit1 q _ Hn) as [Hu Hsz]; [done|].
  destruct (bd_unit s lo dg q (S q) b 4 K) as [HK Hnext]; try done; try lia.
  unfold scanMinute. apply (after_unit (S q) 4); try done; [lia|].
  intros q' Hbd'. simpl ch at 1 2 3. destruct (Z.eqb_spec (at_ s q') (rn "n")) as [E'|].
  { eapply scanNanosecond_spec; [done|lia|done]. }
  destruct (Z.eqb_spec (at_ s q') micro) as [E'|].
  { eapply scanMicrosecond_spec; [done|lia|done]. }
  destruct (Z.eqb_spec (at_ s q') (rn "m")) as [E'|].
  { eapply ms_case_spec; [done|lia|done]. }
  simpl ch. destruct (Z.eqb_spec (at_ s q') (rn "s")) as [E'|].
  { eapply scanSecond_spec; [done|lia|done]. }
  apply illegalToken_scans; [done|]. destruct Hbd'; lia.
Qed.

Lemma scanMillisecondOrMinute_spec dg q b : behind_digits s lo dg q b K -> (4 < b)%nat -> at_ s q = rn "m" ->
  done_with (scanMillisecondOrMinute lo (seek s q)).
Proof.
  intros Hbd Hb Hn. pose proof (bd_lo _ _ _ _ _ _ Hbd). pose proof (bd_dg _ _ _ _ _ _ Hbd).
  destruct (sl_unit1 q _ Hn) as [Hu Hsz]; [done|].
  destruct (bd_unit s lo dg q (S q) b 4 K) as [HK Hnext]; try done; try lia.
  unfold scanMillisecondOrMinute. rewrite !readRune_seek. simpl ch.
  destruct (Z.eqb_spec (at_ s (S q)) (rn "s")) as [E|E]; simpl negb.
  - eapply scanMillisecond_spec; [done|lia|done..].
  - destruct (_ || _); [by apply tokenFrom_scans; [done|lia|..]|].
    eapply scanMinute_spec; [done|lia|done].
Qed.

Lemma scanHour_spec dg q b : behind_digits s lo dg q b K -> (5 < b)%nat -> at_ s q = rn "h" ->
  done_with (scanHour lo (seek s q)).
Proof.
  intros Hbd Hb Hn. pose proof (bd_lo _ _ _ _ _ _ Hbd). pose proof (bd_dg _ _ _ _ _ _ Hbd).
  destruct (sl_unit1 q _ Hn) as [Hu Hsz]; [done|].
  destruct (bd_unit s lo dg q (S q) b 5 K) as [HK Hnext]; try done; try lia.
  unfold scanHour. rewrite !readRune_seek. apply (after_unit (S q) 5); try done; [lia|].
  intros q' Hbd'. simpl ch. destruct (Z.eqb_spec (at_ s q') (rn "n")) as [E'|].
  { eapply scanNanosecond_spec; [done|lia|done]. }
  destruct (Z.eqb_spec (at_ s q') micro) as [E'|].
  { eapply scanMicrosecond_spec; [done|lia|done]. }
  destruct (Z.eqb_spec (at_ s q') (rn "m")) as [E'|].
  { eapply scanMillisecondOrMinute_spec; [done|lia|done]. }
  destruct (Z.eqb_spec (at_ s q') (rn "s")) as [E'|].
  { eapply scanSecond_spec; [done|lia|done]. }
  apply illegalToken_scans; [done|]. destruct Hbd'; lia.
Qed.

Lemma scanDuration_spec dg q : behind_digits s lo dg q 6 K -> done_with (scanDuration lo (seek s q)).
Proof.
  intros Hbd. unfold scanDuration. simpl ch.
  destruct (Z.eqb_spec (at_ s q) (rn "n")); [eapply scanNanosecond_spec; [done|lia|done]|].
  destruct (Z.eqb_spec (at_ s q) micro); [eapply scanMicrosecond_spec; [done|lia|done]|].
  destruct (Z.eqb_spec (at_ s q) (rn "m")); [eapply scanMillisecondOrMinute_spec; [done|lia|done]|].
  destruct (Z.eqb_spec (at_ s q) (rn "s")); [eapply scanSecond_spec; [done|lia|done]|].
  destruct (Z.eqb_spec (at_ s q) (rn "h")); [eapply scanHour_spec; [done|lia|done]|].
  apply illegalToken_scans; [done|]. destruct Hbd; lia.
Qed.
End durations.

(** ** Tokens by type: what a lexeme of each type looks like *)

(** The runes before the end of a comment *)
Definition in_comment (c : rune) : bool := negb (c =? rn "010") && negb (c =? 0).

(** The shape of a token's text, by its type; [next] is the rune behind it. *)
Definition shape (tp : Type_) (t : text) (next : rune) : Prop :=
  match tp with
  | IDENT => t <> [] /\ Forall (fun c => isIdentRune c = true) t /\ isIdentRune next = false /\
             (forall c r, t = c :: r -> isDigit c = false)
  | KEY => exists i, t = i ++ rs ":" /\ i <> [] /\ Forall (fun c => isIdentRune c = true) i
  | ANY => t = rs "interface{}"
  | INT => digits t /\ isDigit next = false
  | DURATION => duration 6 t
  | COMMENT => Forall (fun c => in_comment c = true) t /\ in_comment next = false /\
               exists r, t = rs "//" ++ r
  | STRING => exists b, t = [34] ++ b ++ [34] /\ 34 ∉ b
  | RAW_STRING => exists b, t = rs "`" ++ b ++ rs "`" /\ rn "`" ∉ b
  | DOCUMENT => exists a b, t = rs "/*" ++ a ++ rs "*" ++ b ++ rs "/" /\
                rn "*" ∉ a /\ rn "/" ∉ b
  | AT_DOC | AT_HANDLER | AT_SERVER | ELLIPSIS
  | SUB | MUL | QUO | ASSIGN | LPAREN | LBRACK | LBRACE | COMMA | DOT
  | RPAREN | RBRACE | RBRACK | SEMICOLON | COLON => t = Type_String tp
  | _ => False
  end.

(** A token that is not illegal is the source from [lo] to [q], of its type's shape. *)
Definition token_ok (s : Scanner) (lo q : nat) (t : Token) : Prop :=
  Type__ t = ILLEGAL \/ (lexeme s lo q t /\ shape (Type__ t) (Text t) (at_ s q)).

Lemma scanIntOrDuration_spec s lo : ok s -> isDigit (at_ s lo) = true ->
  scans s lo (token_ok s lo) (scanIntOrDuration (seek s lo)).
Proof.
  intros Hok Hd. unfold scanIntOrDuration. change (position (seek s lo)) with lo.
  destruct (readWhile_fuel isDigit s lo Hok eq_refl) as (q & -> & H1 & H2 & H3 & H4). simpl obind.
  assert (lo <> q) by congruence. simpl ch.
  assert (Hbd : behind_digits s lo lo q 6 (duration 6)).
  { split; try done; try lia. intros t Ht. unfold sl. by rewrite Nat.sub_diag. }
  destruct (bool_decide _).
  - destruct (scanDuration_spec s Hok lo (duration 6) lo q Hbd) as (q' & t & Hr & Hq' & Ht).
    exists q', t. split; [done|]. split; [done|].
    destruct Ht as [|(Ht & Hl & HK)]; [by left|right]. split; [done|]. by rewrite Ht.
  - rewrite tokenFrom_eq by (done || lia). eexists q, _. split; [done|]. split; [lia|]. right.
    split; [split; [done|split; [done|lia]]|]. split; [|done]. by eapply bd_digits.
Qed.

Lemma tokenFrom_token_ok s tp lo q : ok s -> (lo < q)%nat -> (q <= size_ s)%nat ->
  shape tp (sl s lo q) (at_ s q) -> scans s lo (token_ok s lo) (tokenFrom tp lo (seek s q)).
Proof.
  intros Hok Hlo Hq Hs. rewrite tokenFrom_eq by (done || lia). eexists q, _. split; [done|].
  split; [done|]. right. by split; [split; [done|split; [done|lia]]|].
Qed.

Lemma ident_letter_not_digit c : isIdentifierLetter c = true -> isDigit c = false.
Proof.
  unfold isIdentifierLetter, isLetter, isDigit.
  change (rn "a") with 97. change (rn "z") with 122. change (rn "A") with 65. change (rn "Z") with 90.
  change (rn "0") with 48. change (rn "9") with 57. change (rn "_") with 95.
  intros H. apply andb_false_iff. rewrite !Z.leb_gt.
  destruct (_ || _) eqn:E in H; [|apply Z.eqb_eq in H; lia].
  apply orb_true_iff in E as [E|E]; bool_prop; lia.
Qed.

Lemma sl_nonempty s lo q : ok s -> (lo < q)%nat -> (q <= size_ s)%nat -> sl s lo q <> [].
Proof. intros Hok H1 H2 E. pose proof (length_sl s lo q Hok ltac:(lia) H2) as H. rewrite E in H. simpl in H. lia. Qed.

Lemma sl_cons s lo q : ok s -> (lo < q)%nat -> (q <= size_ s)%nat -> sl s lo q = at_ s lo :: sl s (S lo) q.
Proof. intros. rewrite (sl_app s lo (S lo)) by lia. by rewrite sl_one by (done || lia). Qed.

Lemma scanIdent_spec s lo : ok s -> isIdentifierLetter (at_ s lo) = true ->
  scans s lo (token_ok s lo) (scanIdent (seek s lo)).
Proof.
  intros Hok Hl. unfold scanIdent. change (position (seek s lo)) with lo.
  destruct (readWhile_fuel isIdentRune s lo Hok eq_refl) as (q & -> & H1 & H2 & H3 & H4). simpl obind.
  assert (lo <> q) by (intros <-; unfold isIdentRune in H4; by rewrite Hl in H4).
  specialize (H2 ltac:(lia)). change (position (seek s q)) with q.
  rewrite slice_seek by (done || lia). simpl obind. simpl ch.
  pose proof (run_Forall _ s lo q Hok ltac:(lia) H2 H3) as Hall.
  pose proof (sl_nonempty s lo q Hok ltac:(lia) H2) as Hne.
  assert (Hid : scans s lo (token_ok s lo)
    (p <~ newPosition lo (seek s q) ;; Ok (mkToken IDENT (sl s lo q) p, seek s q))).
  { rewrite newPosition_seek by done. eexists q, _. split; [done|]. split; [lia|]. right.
    split; [split; [done|split; [done|lia]]|]. split; [done|]. split; [done|]. split; [done|].
    intros c r Ht. simpl in Ht. rewrite sl_cons in Ht by (done || lia). injection Ht as <- _.
    by apply ident_letter_not_digit. }
  destruct (Z.eqb_spec (at_ s q) (rn ":")) as [E|E].
  { rewrite readRune_seek. pose proof (at_nonzero s q ltac:(by rewrite E)).
    apply tokenFrom_token_ok; [done|lia|lia|].
    exists (sl s lo q). split; [|done]. rewrite (sl_app s lo q) by lia. by rewrite sl_one, E. }
  destruct (bool_decide (sl s lo q = rs "interface")) eqn:Ei; [|done]. bool_prop.
  destruct (Z.eqb_spec (at_ s q) (rn "{")) as [E1|]; [|done]. rewrite peekRune_seek.
  destruct (Z.eqb_spec (at_ s (S q)) (rn "}")) as [E2|]; [|done]. simpl andb. rewrite !readRune_seek.
  destruct (sl_two s q _ _ Hok E1 E2) as [Hu Hsz]; [done..|].
  apply tokenFrom_token_ok; [done|lia|done|]. simpl. by rewrite (sl_app s lo q), Hu, Ei by lia.
Qed.

Lemma scanLineComment_spec s lo : ok s -> at_ s lo = rn "/" -> at_ s (S lo) = rn "/" ->
  scans s lo (token_ok s lo) (scanLineComment (seek s lo)).
Proof.
  intros Hok H1 H2. unfold scanLineComment. change (position (seek s lo)) with lo.
  change (fun c => negb (c =? rn "010") && negb (c =? 0)) with in_comment.
  destruct (readWhile_fuel in_comment s lo Hok eq_refl) as (q & -> & Hq1 & Hq2 & Hrun & Hstop). simpl obind.
  destruct (sl_two s lo _ _ Hok H1 H2) as [Hu Hsz]; [done..|].
  assert (lo <> q) by (intros <-; by rewrite H1 in Hstop).
  assert (S lo <> q) by (intros <-; by rewrite H2 in Hstop).
  apply tokenFrom_token_ok; [done|lia|lia|]. split; [|split; [done|]].
  - apply run_Forall; (done || lia).
  - exists (sl s (S (S lo)) q). change (rs "//") with [rn "/"; rn "/"].
    by rewrite <- Hu, <- sl_app by lia.
Qed.

(** ** Functions that may fail *)

(** They stop at or behind [lo], and a token they return satisfies [P]. *)
Definition yields (s : Scanner) (lo : nat) (P : nat -> Token -> Prop) (r : scan scanResult) : Prop :=
  exists q res, r = Ok (res, seek s q) /\ (lo <= q)%nat /\
    match res with Tok t => P q t | Error_ _ => True end.

Lemma ret_yields s lo P (r : scan Token) : scans s lo P r -> yields s lo (fun q t => (lo < q)%nat /\ P q t) (ret r).
Proof. intros (q & t & -> & Hq & HP). exists q, (Tok t). split; [done|]. split; [lia|done]. Qed.

Lemma failWith_yields s lo P q actual expected : ok s -> (lo <= q)%nat ->
  yields s lo P (failWith (assertExpectedString actual expected (seek s q)) (seek s q)).
Proof.
  intros Hok Hq. unfold failWith, assertExpectedString, positionAt. rewrite newPosition_seek by done.
  eexists q, (Error_ _). split; [done|]. by split.
Qed.

Definition progress (s : Scanner) (lo q : nat) (t : Token) : Prop := (lo < q)%nat /\ token_ok s lo q t.

Lemma scanString_open s delim tp lo : ok s -> delim <> 0 ->
  (forall b next, delim ∉ b -> shape tp ([delim] ++ b ++ [delim]) next) ->
  at_ s lo = delim -> forall fuel q, (size_ s < fuel + q)%nat -> (0 < fuel)%nat -> (lo < q)%nat ->
  (q <= size_ s)%nat -> delim ∉ sl s (S lo) q ->
  yields s lo (progress s lo) (scanString_loop fuel delim tp lo stringOpen (seek s q)).
Proof.
  intros Hok Hd Hshape Hlo. induction fuel as [|fuel IH]; intros q Hf Hf0 Hq Hsz Hin; [lia|].
  cbn [scanString_loop]. simpl ch. rewrite readRune_seek.
  destruct (Z.eqb_spec (at_ s q) delim) as [E|E].
  - pose proof (at_nonzero s q ltac:(by rewrite E)). apply ret_yields, tokenFrom_token_ok; [done|lia|lia|].
    rewrite (sl_app s lo (S lo)), (sl_app s (S lo) q) by lia.
    rewrite sl_one, sl_one by (done || lia). rewrite Hlo, E. by apply Hshape.
  - destruct (Z.eqb_spec (at_ s q) 0) as [E0|E0].
    + apply failWith_yields; [done|lia].
    + pose proof (at_nonzero s q E0). apply IH; try lia.
      rewrite (sl_app s (S lo) q), sl_one by (done || lia). set_solver.
Qed.

Lemma scanString_spec s delim tp lo : ok s -> delim <> 0 ->
  (forall b next, delim ∉ b -> shape tp ([delim] ++ b ++ [delim]) next) ->
  at_ s lo = delim -> yields s lo (progress s lo) (scanString delim tp (seek s lo)).
Proof.
  intros Hok Hd Hshape Hlo. unfold scanString. change (fuel_of (seek s lo)) with (S (S (size_ s))).
  change (position (seek s lo)) with lo. cbn [scanString_loop]. simpl ch.
  rewrite (proj2 (Z.eqb_eq _ _) Hlo), readRune_seek.
  pose proof (at_nonzero s lo ltac:(by rewrite Hlo)).
  change (yields s lo (progress s lo) (scanString_loop (S (size_ s)) delim tp lo stringOpen (seek s (S lo)))).
  apply scanString_open; try done; try lia. unfold sl. rewrite Nat.sub_diag. set_solver.
Qed.

(** Inside a document: behind [/*], and, once a star was read at [p], without a slash since *)
Definition in_document (s : Scanner) (lo q : nat) (m : mode) : Prop :=
  match m with
  | documentOpen => (S (S lo) <= q)%nat /\ rn "*" ∉ sl s (S (S lo)) q
  | documentHalfClose => exists p, (S (S lo) <= p)%nat /\ (p < q)%nat /\
      rn "*" ∉ sl s (S (S lo)) p /\ at_ s p = rn "*" /\ rn "/" ∉ sl s (S p) q
  | _ => False
  end.

Lemma in_document_step s lo q m c : ok s -> in_document s lo q m -> at_ s q = c -> c <> 0 ->
  (c = rn "/" -> m = documentOpen) ->
  in_document s lo (S q) (if decide (c = rn "*") then documentHalfClose else m).
Proof.
  intros Hok Hin Hc Hc0 Hm. pose proof (at_nonzero s q ltac:(congruence)).
  destruct m; try done; simpl in Hin.
  - destruct Hin as [Hq Hn]. destruct (decide (c = rn "*")) as [->|Hne]; simpl.
    + exists q. split; [done|]. split; [lia|]. split; [done|]. split; [done|]. unfold sl.
      rewrite Nat.sub_diag. set_solver.
    + split; [lia|]. rewrite (sl_app s _ q), sl_one, Hc by (done || lia). set_solver.
  - destruct Hin as (p & Hp1 & Hp2 & Hn & Hs & Hsl).
    assert (in_document s lo (S q) documentHalfClose); [|by destruct (decide _)].
    exists p. split; [done|]. split; [lia|]. split; [done|]. split; [done|].
    rewrite (sl_app s _ q), sl_one, Hc by (done || lia).
    rewrite not_elem_of_app. split; [done|]. rewrite list_elem_of_singleton. intros E.
    by specialize (Hm (eq_sym E)).
Qed.

Lemma scanDocument_open s lo : ok s -> sl s lo (S (S lo)) = rs "/*" ->
  forall fuel q m, (size_ s < fuel + q)%nat -> (0 < fuel)%nat -> (q <= size_ s)%nat ->
  in_document s lo q m ->
  yields s lo (progress s lo) (scanDocument_loop fuel lo m (seek s q)).
Proof.
  intros Hok Hlo. induction fuel as [|fuel IH]; intros q m Hf Hf0 Hsz Hm; [lia|].
  assert (Hq : (S (S lo) <= q)%nat).
  { destruct m; try done; [by destruct Hm|]. destruct Hm as (p & ? & ? & _). lia. }
  pose proof (in_document_step s lo q m (at_ s q) Hok Hm eq_refl) as Hstep.
  cbn [scanDocument_loop]. simpl ch. rewrite readRune_seek.
  destruct (Z.eqb_spec (at_ s q) 0) as [E0|E0].
  { rewrite E0. change (0 =? rn "*") with false. cbn iota.
    destruct m; try done; apply failWith_yields; (done || lia). }
  pose proof (at_nonzero s q E0). specialize (Hstep E0).
  destruct (Z.eqb_spec (at_ s q) (rn "*")) as [E|E].
  { rewrite E in Hstep. specialize (Hstep ltac:(done)). rewrite decide_True in Hstep by done.
    destruct m; try done; apply IH; (done || lia). }
  rewrite decide_False in Hstep by done.
  destruct (Z.eqb_spec (at_ s q) (rn "/")) as [E1|E1].
  2:{ assert (Hs' : in_document s lo (S q) m) by (by apply Hstep). destruct m; try done; apply IH; (done || lia). }
  destruct m; try done.
  { apply IH; try lia. by apply Hstep. }
  destruct Hm as (p & Hp1 & Hp2 & Hn & Hs & Hsl).
  apply ret_yields, tokenFrom_token_ok; [done|lia|lia|].
  exists (sl s (S (S lo)) p), (sl s (S p) q). split; [|done].
  rewrite (sl_app s lo (S (S lo))), (sl_app s (S (S lo)) p), (sl_app s p (S p)), (sl_app s (S p) q) by lia.
  rewrite Hlo, !sl_one, Hs, E1 by (done || lia). done.
Qed.

Lemma scanDocument_spec s lo : ok s -> at_ s lo = rn "/" -> at_ s (S lo) = rn "*" ->
  yields s lo (progress s lo) (scanDocument (seek s lo)).
Proof.
  intros Hok H1 H2. destruct (sl_two s lo _ _ Hok H1 H2) as [Hu Hsz]; [done..|].
  assert (Hopen : scanDocument (seek s lo) = scanDocument_loop (size_ s) lo documentOpen (seek s (S (S lo)))).
  { unfold scanDocument. change (fuel_of (seek s lo)) with (S (S (size_ s))).
    transitivity (scanDocument_loop (S (size_ s)) lo documentHalfOpen (seek s (S lo))).
    - cbn [scanDocument_loop]. change (ch (seek s lo)) with (at_ s lo). by rewrite H1.
    - cbn [scanDocument_loop]. change (ch (seek s (S lo))) with (at_ s (S lo)). by rewrite H2. }
  rewrite Hopen. apply scanDocument_open; try done; try lia. split; [lia|].
  unfold sl. rewrite Nat.sub_diag. set_solver.
Qed.

Lemma newToken_spec s tp lo : ok s -> at_ s lo <> 0 -> Type_String tp = [at_ s lo] ->
  (forall t next, t = Type_String tp -> shape tp t next) ->
  scans s lo (token_ok s lo) (newToken tp (seek s lo)).
Proof.
  intros Hok H0 Hs Hshape. pose proof (at_nonzero s lo H0). unfold newToken, positionAt.
  rewrite newPosition_seek by done. eexists (S lo), _. split; [done|]. split; [lia|]. right.
  split; [split; [simpl; by rewrite sl_one|split; [done|lia]]|]. simpl. by apply Hshape.
Qed.

(** [scanDots]: a dot, an ellipsis, or the second of two dots *)
Definition second_dot (s : Scanner) (lo q : nat) (t : Token) : Prop :=
  at_ s lo = rn "." /\ at_ s (S lo) = rn "." /\ Type__ t = DOT /\ lexeme s (S lo) q t /\ q = S (S lo).

Lemma scanDots_spec s lo : ok s -> at_ s lo = rn "." ->
  scans s lo (fun q t => token_ok s lo q t \/ second_dot s lo q t) (scanDots (seek s lo)).
Proof.
  intros Hok H1. pose proof (at_nonzero s lo ltac:(by rewrite H1)).
  unfold scanDots. change (position (seek s lo)) with lo. rewrite !readRune_seek, !peekRune_seek.
  destruct (Z.eqb_spec (at_ s (S lo)) (rn ".")) as [E|E]; cbn [negb].
  - pose proof (at_nonzero s (S lo) ltac:(by rewrite E)).
    destruct (Z.eqb_spec (at_ s (S (S lo))) (rn ".")) as [E2|E2]; cbn [negb].
    + pose proof (at_nonzero s (S (S lo)) ltac:(by rewrite E2)).
      rewrite newPosition_seek by done. eexists (S (S (S lo))), _. split; [done|]. split; [lia|]. left. right.
      split; [|done]. split; [|split; [done|lia]]. simpl Text.
      rewrite (sl_app s lo (S (S lo))) by lia.
      destruct (sl_two s lo _ _ Hok H1 E) as [-> _]; [done..|]. by rewrite sl_one, E2 by (done || lia).
    + unfold newToken, positionAt. rewrite newPosition_seek by done. simpl obind.
      eexists (S (S lo)), _. split; [done|]. split; [lia|]. right.
      split; [done|]. split; [done|]. split; [done|]. split; [|done].
      split; [simpl; by rewrite sl_one|split; [done|lia]].
  - destruct (newToken_spec s DOT lo Hok) as (q & t & Hr & Hq & Ht); [by rewrite H1..|done|].
    exists q, t. split; [done|]. split; [done|by left].
Qed.

(** [scanAt]: at the end of the input the sign is reported and not consumed. *)
Lemma scanAt_spec s lo : ok s -> at_ s lo = rn "@" ->
  yields s lo (fun q t => progress s lo q t \/ (Type__ t = ILLEGAL /\ q = lo /\ at_ s (S lo) = 0))
    (scanAt (seek s lo)).
Proof.
  intros Hok H1. pose proof (at_nonzero s lo ltac:(by rewrite H1)). unfold scanAt.
  change (position (seek s lo)) with lo. rewrite !readRune_seek, !peekRune_seek.
  destruct (isLetter (at_ s (S lo))) eqn:E; cbn [negb].
  - unfold scanLetterSet. change (position (seek s (S lo))) with (S lo).
    destruct (readWhile_fuel isLetter s (S lo) Hok eq_refl) as (q & -> & Hq1 & Hq2 & Hrun & Hstop).
    cbn [obind]. assert (S lo <> q) by congruence. change (position (seek s q)) with q.
    rewrite slice_seek by (done || lia). cbn [obind].
    assert (Htok : forall tp, shape tp (Type_String tp) (at_ s q) -> Type_String tp = [rn "@"] ++ sl s (S lo) q ->
      yields s lo (fun q t => progress s lo q t \/ (Type__ t = ILLEGAL /\ q = lo /\ at_ s (S lo) = 0))
        (p <~ newPosition lo (seek s q) ;; Ok (Tok (mkToken tp (Type_String tp) p), seek s q))).
    { intros tp Hs Ht. rewrite newPosition_seek by done. eexists q, (Tok _). split; [done|]. split; [lia|].
      left. split; [lia|]. right. split; [|done]. split; [|split; [done|lia]]. simpl Text.
      rewrite sl_cons by (done || lia). by rewrite H1, Ht. }
    destruct (decide (sl s (S lo) q = rs "handler")) as [Eh|]; [apply (Htok AT_HANDLER); by rewrite ?Eh|].
    destruct (decide (sl s (S lo) q = rs "server")) as [Eh|]; [apply (Htok AT_SERVER); by rewrite ?Eh|].
    destruct (decide (sl s (S lo) q = rs "doc")) as [Eh|]; [apply (Htok AT_DOC); by rewrite ?Eh|].
    apply failWith_yields; [done|lia].
  - destruct (Z.eqb_spec (at_ s (S lo)) 0) as [E0|E0].
    + unfold positionAt. rewrite newPosition_seek by done. eexists lo, (Tok _). split; [done|].
      split; [lia|]. by right.
    + apply failWith_yields; [done|lia].
Qed.

(** ** White space and line starts *)

Definition is_white (b : rune) : bool :=
  (b =? rn " ") || (b =? rn "009") || (b =? rn "013") || (b =? rn "012") || (b =? rn "011")
    || (b =? rn "010").

Definition addLines (s : Scanner) (ls : list Z) : Scanner :=
  mkScanner (filename s) (size_ s) (data s) (position s) (readPosition s) (ch s) (lines s ++ ls).

(** The positions of the newlines from [lo] to [hi] *)
Definition newlines (s : Scanner) (lo hi : nat) : list Z :=
  Z.of_nat <$> filter (fun i => at_ s i = rn "010") (seq lo (hi - lo)).

Lemma newlines_app s a b c : (a <= b)%nat -> (b <= c)%nat -> newlines s a c = newlines s a b ++ newlines s b c.
Proof.
  intros H1 H2. unfold newlines. rewrite <- fmap_app, <- filter_app. do 2 f_equal.
  replace (c - a)%nat with (b - a + (c - b))%nat by lia. rewrite seq_app. do 2 f_equal. lia.
Qed.

Lemma newlines_one s q : newlines s q (S q) = if decide (at_ s q = rn "010") then [Z.of_nat q] else [].
Proof.
  unfold newlines. replace (S q - q)%nat with 1%nat by lia. cbn [seq]. rewrite filter_cons.
  by destruct (decide _).
Qed.

Lemma ok_addLines s ls q : ok s -> ok (seek (addLines s ls) q).
Proof. intros [H1 H2 H3]. split; [done| |done]. simpl. by destruct (lines s). Qed.

Lemma addLines_app s a b q : seek (addLines (addLines s a) b) q = seek (addLines s (a ++ b)) q.
Proof. unfold seek, addLines. simpl. by rewrite <- app_assoc. Qed.

Lemma skipWhiteSpace_spec fuel : forall s q, (size_ s < fuel + q)%nat -> (0 < fuel)%nat ->
  exists q', skipWhiteSpace fuel (seek s q) = Ok (seek (addLines s (newlines s q q')) q') /\ (q <= q')%nat /\
    (q < q' -> q' <= size_ s)%nat /\ run is_white s q q' /\ is_white (at_ s q') = false.
Proof.
  induction fuel as [|fuel IH]; intros s q Hf Hf0; [lia|]. cbn [skipWhiteSpace].
  unfold isWhiteSpace. fold (is_white (ch (seek s q))). simpl ch.
  destruct (is_white (at_ s q)) eqn:E.
  - assert (q < size_ s)%nat by (apply at_nonzero; intros E0; by rewrite E0 in E).
    assert (Hstep : readRune (if at_ s q =? rn "010"
        then mkScanner (filename s) (size_ s) (data s) q (S q) (at_ s q) (lines s ++ [Z.of_nat q])
        else seek s q) = seek (addLines s (newlines s q (S q))) (S q)).
    { rewrite newlines_one. destruct (Z.eqb_spec (at_ s q) (rn "010")) as [E1|E1].
      - by rewrite decide_True.
      - rewrite decide_False by done. unfold addLines, seek, readRune. simpl. by rewrite app_nil_r. }
    change (lines (seek s q)) with (lines s). change (position (seek s q)) with q.
    change (filename (seek s q)) with (filename s). change (size_ (seek s q)) with (size_ s).
    change (data (seek s q)) with (data s). change (readPosition (seek s q)) with (S q).
    rewrite Hstep.
    destruct (IH (addLines s (newlines s q (S q))) (S q)) as (q' & -> & H1 & H2 & H3 & H4); [simpl; lia|lia|].
    exists q'. split; [|split; [lia|split; [simpl in *; lia|split; [|done]]]].
    + rewrite (newlines_app s q (S q) q') by lia. apply (f_equal Ok), addLines_app.
    + intros i Hi1 Hi2. destruct (decide (i = q)) as [->|]; [done|]. apply H3; lia.
  - assert (Hne : at_ s q =? rn "010" = false).
    { apply Z.eqb_neq. intros E1. by rewrite E1 in E. }
    rewrite Hne. exists q. unfold newlines. rewrite Nat.sub_diag. unfold addLines, seek. simpl.
    rewrite app_nil_r. split; [done|]. split; [lia|]. split; [lia|]. split; [intros i ? ?; lia|done].
Qed.

(** ** [NextToken] *)

(** The four ways a token can come about at [lo] *)
Definition next_ok (s : Scanner) (lo q : nat) (t : Token) : Prop :=
  progress s lo q t \/ second_dot s lo q t \/
  (t = EofToken /\ q = lo /\ at_ s lo = 0) \/
  (Type__ t = ILLEGAL /\ q = lo /\ at_ s lo = rn "@" /\ at_ s (S lo) = 0).

Lemma yields_weaken s lo (P Q : nat -> Token -> Prop) r : (forall q t, P q t -> Q q t) -> yields s lo P r -> yields s lo Q r.
Proof. intros H (q & res & Hr & Hq & HP). exists q, res. split; [done|]. split; [done|]. destruct res; auto. Qed.

Lemma progress_next s lo r : yields s lo (progress s lo) r -> yields s lo (next_ok s lo) r.
Proof. apply yields_weaken. intros q t H. by left. Qed.

Lemma newToken_next s tp lo c : ok s -> at_ s lo = c -> c <> 0 -> Type_String tp = [c] ->
  (forall t next, t = Type_String tp -> shape tp t next) ->
  yields s lo (next_ok s lo) (ret (newToken tp (seek s lo))).
Proof. intros Hok <- H0 Ht Hs. by apply progress_next, ret_yields, newToken_spec. Qed.

(** One operator: the rune [c] is a token of type [tp] *)
Ltac operator :=
  lazymatch goal with
  | Hok : ok ?s1 |- yields ?s ?lo _ (if ?x =? ?c then ret (newToken ?tp _) else _) =>
    destruct (Z.eqb_spec x c) as [E|_]; [apply (newToken_next s tp lo c); [exact Hok|exact E|discriminate|reflexivity|by intros ? ? ->]|]
  end.

Lemma skip_none s lo : is_white (at_ s lo) = false ->
  skipWhiteSpace (fuel_of (seek s lo)) (seek s lo) = Ok (seek s lo).
Proof.
  intros Hw. change (fuel_of (seek s lo)) with (S (S (size_ s))).
  assert (Hne : at_ s lo =? rn "010" = false) by (apply Z.eqb_neq; intros E1; by rewrite E1 in Hw).
  cbn [skipWhiteSpace]. unfold isWhiteSpace. change (ch (seek s lo)) with (at_ s lo).
  fold (is_white (at_ s lo)). by rewrite Hw, Hne.
Qed.

Lemma NextToken_at s lo : ok s -> is_white (at_ s lo) = false ->
  yields s lo (next_ok s lo) (NextToken (seek s lo)).
Proof.
  intros Hok Hw. pose proof (skip_none s lo Hw) as Hskip.
  unfold NextToken. rewrite Hskip. cbn [obind]. rewrite !peekRune_seek. change (ch (seek s lo)) with (at_ s lo).
  destruct (Z.eqb_spec (at_ s lo) (rn "/")) as [E|_].
  { destruct (Z.eqb_spec (at_ s (S lo)) (rn "/")) as [E1|_].
    { by apply progress_next, ret_yields, scanLineComment_spec. }
    destruct (Z.eqb_spec (at_ s (S lo)) (rn "*")) as [E1|_].
    { by apply progress_next, scanDocument_spec. }
    apply (newToken_next s QUO lo (rn "/")); [done..|by intros ? ? ->]. }
  do 6 operator.
  destruct (Z.eqb_spec (at_ s lo) (rn ".")) as [E|_].
  { destruct (scanDots_spec s lo Hok E) as (q & t & -> & Hq & Ht). exists q, (Tok t).
    split; [done|]. split; [lia|]. destruct Ht; [by left|by right; left]. }
  do 6 operator.
  destruct (Z.eqb_spec (at_ s lo) (rn "@")) as [E|_].
  { eapply yields_weaken; [|by apply scanAt_spec]. intros q t [|(? & ? & ?)]; [by left|].
    by do 3 right. }
  destruct (Z.eqb_spec (at_ s lo) 34) as [E|_].
  { apply progress_next, scanString_spec; try done. intros b next Hb. by exists b. }
  destruct (Z.eqb_spec (at_ s lo) (rn "`")) as [E|_].
  { apply progress_next, scanString_spec; try done. intros b next Hb. by exists b. }
  destruct (Z.eqb_spec (at_ s lo) 0) as [E|E0].
  { exists lo, (Tok EofToken). split; [done|]. split; [done|]. by right; right; left. }
  destruct (isIdentifierLetter (at_ s lo)) eqn:El; [by apply progress_next, ret_yields, scanIdent_spec|].
  destruct (isDigit (at_ s lo)) eqn:Ed; [by apply progress_next, ret_yields, scanIntOrDuration_spec|].
  rewrite newPosition_seek by done. eexists (S lo), (Tok _). split; [done|]. split; [lia|].
  left. split; [lia|]. by left.
Qed.

(** The scanner behind the white space from its position to [lo] *)
Definition behind_white (s : Scanner) (lo : nat) : Scanner :=
  seek (addLines s (newlines s (position s) lo)) lo.

Lemma NextToken_spec s : ok s ->
  exists lo, (position s <= lo)%nat /\ (position s < lo -> lo <= size_ s)%nat /\
    run is_white s (position s) lo /\ is_white (at_ s lo) = false /\
    yields (behind_white s lo) lo (next_ok (behind_white s lo) lo) (NextToken s).
Proof.
  intros Hok. destruct (skipWhiteSpace_spec (fuel_of s) s (position s)) as (lo & Hs & H1 & H2 & H3 & H4);
    [unfold fuel_of; lia..|].
  exists lo. split; [done|]. split; [done|]. split; [done|]. split; [done|].
  pose proof (ok_addLines s (newlines s (position s) lo) lo Hok) as Hok1.
  fold (behind_white s lo) in Hok1, Hs. rewrite <- (ok_seek s Hok) in Hs.
  replace (NextToken s) with (NextToken (seek (behind_white s lo) lo)).
  - by apply NextToken_at.
  - unfold NextToken. rewrite Hs. rewrite skip_none by done. done.
Qed.

Lemma NextToken_ok s r s' : ok s -> NextToken s = Ok (r, s') -> ok s'.
Proof.
  intros Hok Hr. destruct (NextToken_spec s Hok) as (lo & _ & _ & _ & _ & q & res & Hr' & _).
  rewrite Hr' in Hr. injection Hr as _ <-. by apply ok_of_seek, ok_addLines.
Qed.

(** Scanners on their way through a source *)
Inductive scanning : Scanner -> Prop :=
| scan_new base isApi file src s : NewScanner base isApi file src = inr s -> scanning s
| scan_next s r s' : scanning s -> NextToken s = Ok (r, s') -> scanning s'.

Lemma scanning_ok s : scanning s -> ok s.
Proof.
  induction 1 as [base isApi file src s H|s r s' _ IH H]; [|by eapply NextToken_ok].
  unfold NewScanner in H. destruct (readData isApi file src) as [|d]; [done|].
  destruct (decide (d = [])); [done|]. injection H as <-. by split.
Qed.

(** On any scanner built by [NewScanner] and any number of [NextToken] calls later,
    [NextToken] returns (no loop runs on, no index or slice is out of range), and it moves
    forward unless it reports the end of the input, an error, or an [@] that the input ends
    with. *)
Theorem next_token_total_progress s :
  scanning s ->
  exists r s', NextToken s = Ok (r, s') /\ (position s <= position s')%nat /\
    match r with
    | Error_ _ => True
    | Tok t => (position s < position s')%nat \/ t = EofToken \/
               (Type__ t = ILLEGAL /\ ch s' = rn "@" /\ peekRune s' = 0)
    end.
Proof.
  intros Hok%scanning_ok. destruct (NextToken_spec s Hok) as (lo & H1 & _ & _ & _ & q & res & Hr & Hq & Hres).
  exists res, (seek (behind_white s lo) q). split; [done|]. split; [simpl; lia|].
  destruct res as [t|]; [|done]. simpl position.
  destruct Hres as [[? _]|[(_ & _ & _ & _ & ?)|[(-> & _)|(Ht & -> & E1 & E2)]]].
  - left. lia.
  - left. lia.
  - right. by left.
  - right. right. split; [done|]. split; [exact E1|exact E2].
Qed.

(** C37: lexing loses nothing: the source between two [NextToken] calls that return a token
    other than [ILLEGAL] and [EOF] is white space followed by the token's text, except that
    two dots give one [DOT] token and the first of them is dropped; and the text has the shape
    of its type (maximal identifiers, numbers and comments, well-formed durations with
    descending units, closed strings, the operators' own texts). *)
Theorem next_token_lossless s t s' :
  scanning s -> NextToken s = Ok (Tok t, s') -> Type__ t <> ILLEGAL -> Type__ t <> EOF ->
  exists ws dropped,
    sl s (position s) (position s') = ws ++ dropped ++ Text t /\
    Forall (fun c => is_white c = true) ws /\
    (dropped = [] \/ (dropped = rs "." /\ Type__ t = DOT)) /\
    shape (Type__ t) (Text t) (ch s').
Proof.
  intros Hok%scanning_ok Hn Hi He.
  destruct (NextToken_spec s Hok) as (lo & H1 & H2 & Hrun & _ & q & res & Hr & Hq & Hres).
  rewrite Hr in Hn. injection Hn as -> <-. set (s1 := behind_white s lo) in *. simpl position. simpl ch.
  assert (Hsl : forall a b, sl s1 a b = sl s a b) by done.
  assert (Hws : (lo <= size_ s)%nat -> Forall (fun c => is_white c = true) (sl s (position s) lo)).
  { intros Hlo. by apply run_Forall. }
  exists (sl s (position s) lo).
  destruct Hres as [[Hlt Ht]|[(E1 & E2 & Ht & [HT [_ Hsz]] & ->)|[(-> & _)|(? & _)]]]; [| |done..].
  - destruct Ht as [|[[HT [_ Hsz]] Hsh]]; [done|]. change (size_ s1) with (size_ s) in Hsz.
    exists []. rewrite (sl_app s _ lo), HT, Hsl by lia. split; [done|]. split; [apply Hws; lia|].
    split; [by left|]. by rewrite HT, Hsl in Hsh.
  - change (size_ s1) with (size_ s) in Hsz. exists (sl s lo (S lo)).
    rewrite (sl_app s _ lo), (sl_app s lo (S lo)), HT, Hsl by lia. split; [done|].
    split; [apply Hws; lia|]. change (at_ s1 lo) with (at_ s lo) in E1. change (at_ s1 (S lo)) with (at_ s (S lo)) in E2.
    rewrite !sl_one, E1, E2, Ht by (done || lia). split; [by right|]. done.
Qed.

(** ** Positions *)

(** Every newline before the current position is recorded. *)
Definition lines_true (s : Scanner) : Prop := lines s = -1 :: newlines s 0 (position s).

(** The line and column of an offset of the source, counted from 1 *)
Definition true_pos (s : Scanner) (p : nat) : Position :=
  mkPos (filename s) (1 + Z.of_nat (length (newlines s 0 p)))
    (Z.of_nat p - default (-1) (last (newlines s 0 p))).

Lemma newlines_none s lo q : ok s -> (lo <= q)%nat -> (q <= size_ s)%nat -> rn "010" ∉ sl s lo q -> newlines s lo q = [].
Proof.
  intros Hok Hlo Hq Hn. unfold newlines.
  destruct (filter _ _) as [|i l] eqn:E; [done|]. exfalso. apply Hn.
  assert (i ∈ filter (fun i => at_ s i = rn "010") (seq lo (q - lo))) as [Hi Hr]%list_elem_of_filter
    by (rewrite E; left).
  apply elem_of_seq in Hr. rewrite (sl_app s lo i), (sl_app s i (S i)), sl_one, Hi by (done || lia).
  apply elem_of_app. right. apply elem_of_app. left. left.
Qed.

Lemma posOf_true s lo : lines s = -1 :: newlines s 0 lo -> posOf s lo = true_pos s lo.
Proof.
  intros Hl. unfold posOf, true_pos, lineCount. rewrite Hl. f_equal; [simpl length; lia|].
  f_equal. rewrite last_cons. by destruct (last (newlines s 0 lo)).
Qed.

Lemma lines_behind_white s lo : lines_true s -> (position s <= lo)%nat ->
  lines (behind_white s lo) = -1 :: newlines (behind_white s lo) 0 lo.
Proof.
  intros Hl Hlo. simpl. rewrite Hl. cbn [app]. f_equal.
  by rewrite (newlines_app (behind_white s lo) 0 (position s) lo) by lia.
Qed.

(** As long as every newline so far is recorded, a token other than [ILLEGAL] and [EOF]
    carries the line and column at which its text starts; and if its text has no newline, all
    newlines are still recorded behind it. *)
Theorem next_token_position s t s' :
  scanning s -> lines_true s -> NextToken s = Ok (Tok t, s') -> Type__ t <> ILLEGAL -> Type__ t <> EOF ->
  Pos t = true_pos s (position s' - length (Text t)) /\ (rn "010" ∉ Text t -> lines_true s').
Proof.
  intros Hok%scanning_ok Hl Hn Hi He.
  destruct (NextToken_spec s Hok) as (lo & H1 & H2 & Hrun & _ & q & res & Hr & Hq & Hres).
  rewrite Hr in Hn. injection Hn as -> <-.
  pose proof (lines_behind_white s lo Hl H1) as Hl1.
  assert (Hok1 : ok (behind_white s lo)) by by apply ok_addLines.
  set (s1 := behind_white s lo) in *. simpl position.
  assert (Htrue : forall p, true_pos s p = true_pos s1 p) by done. rewrite Htrue.
  assert (Hkeep : (q <= size_ s1)%nat -> rn "010" ∉ sl s1 lo q -> lines_true (seek s1 q)).
  { intros Hsz Hnl. unfold lines_true. change (lines (seek s1 q)) with (lines s1).
    change (newlines (seek s1 q) 0 (position (seek s1 q))) with (newlines s1 0 q).
    rewrite Hl1, (newlines_app s1 0 lo q) by lia.
    by rewrite (newlines_none s1 lo q), app_nil_r by done. }
  destruct Hres as [[Hlt Ht]|[(E1 & E2 & Ht & [HT [HP Hsz]] & ->)|[(-> & _)|(? & _)]]]; [| |done..].
  - destruct Ht as [|[[HT [HP Hsz]] Hsh]]; [done|].
    rewrite HP, HT, length_sl by (done || lia). replace (q - (q - lo))%nat with lo by lia.
    split; [by apply posOf_true|]. by apply Hkeep.
  - rewrite HP, HT, length_sl by (done || lia).
    replace (S (S lo) - (S (S lo) - S lo))%nat with (S lo) by lia.
    assert (Hnl : newlines s1 0 (S lo) = newlines s1 0 lo).
    { rewrite (newlines_app s1 0 lo) by lia. by rewrite newlines_one, E1, decide_False, app_nil_r. }
    split.
    + apply posOf_true. by rewrite Hnl.
    + intros Hn. apply Hkeep; [done|]. rewrite (sl_app s1 lo (S lo)), sl_one, E1 by (done || lia).
      set_solver.
Qed.

(** ** Concrete sources *)

Definition newS (t : string) : Scanner :=
  match NewScanner [] false None (SrcString (rs t)) with
  | inr s => s
  | inl _ => mkScanner [] 0 [] 0 1 0 [-1]
  end.

(** The results of the first [n] calls *)
Fixpoint tokens_of (n : nat) (s : Scanner) : list scanResult :=
  match n with
  | O => []
  | S n =>
    match NextToken s with
    | Ok (r, s') => r :: tokens_of n s'
    | Panic _ => []
    end
  end.

Definition nl : string := String "010" EmptyString.

(** A newline inside a document is not counted: the identifier on the second line of the
    source is reported on line 1. *)
Theorem document_newlines_not_counted :
  (fun r => match r with Tok t => (Type__ t, Line t) | Error_ _ => (error_, 0) end)
    <$> tokens_of 2 (newS ("/* a" ++ nl ++ " b */ x")) = [(DOCUMENT, 1); (IDENT, 1)] /\
  Line_ (true_pos (newS ("/* a" ++ nl ++ " b */ x")) 11) = 2.
Proof. by vm_compute. Qed.

(** A document ends at the first slash after any star, adjacent or not: the comment
    [/* 2*3 a/b */] is cut in the middle and its rest becomes tokens. *)
Theorem document_closes_at_any_slash :
  (fun r => match r with Tok t => (Type__ t, Text t) | Error_ _ => (error_, []) end)
    <$> tokens_of 4 (newS "/* 2*3 a/b */") =
  [(DOCUMENT, rs "/* 2*3 a/"); (IDENT, rs "b"); (MUL, rs "*"); (QUO, rs "/")].
Proof. by vm_compute. Qed.

(** An [@] that ends the input is reported again by every later call. *)
Theorem at_sign_at_end_never_consumed n :
  Forall (fun r => exists p, r = Tok (mkToken ILLEGAL (rs "@") p)) (tokens_of n (newS "@")).
Proof.
  assert (Hn : NextToken (newS "@") = Ok (Tok (mkToken ILLEGAL (rs "@") (mkPos [] 1 1)), newS "@")) by by vm_compute.
  induction n as [|n IH]; [constructor|]. cbn [tokens_of]. rewrite Hn. constructor; [by eexists|done].
Qed.

Lemma newS_scanning t : list_ascii_of_string t <> [] -> scanning (newS t).
Proof.
  intros Ht. apply (scan_new [] false None (SrcString (rs t))). unfold newS, NewScanner. simpl.
  destruct (decide (rs t = [])) as [E|]; [|done]. by destruct t.
Qed.

Lemma next_token_total_progress_witness :
  exists r s', NextToken (newS " 1h20m ") = Ok (r, s') /\ position s' = 6%nat.
Proof.
  destruct (next_token_total_progress (newS " 1h20m ")) as (r & s' & H & _); [by apply newS_scanning|].
  exists r, s'. split; [done|]. vm_compute in H. by injection H as <- <-.
Defined.

Lemma next_token_lossless_witness :
  exists t s', NextToken (newS " 1h20m ") = Ok (Tok t, s') /\ Type__ t = DURATION /\ duration 6 (Text t).
Proof.
  destruct (NextToken (newS " 1h20m ")) as [[[t|] s']|] eqn:E; [|by vm_compute in E..].
  exists t, s'. split; [done|].
  assert (Ht : Type__ t = DURATION) by (vm_compute in E; by injection E as <- _). split; [done|].
  destruct (next_token_lossless (newS " 1h20m ") t s') as (_ & _ & _ & _ & _ & Hs);
    [by apply newS_scanning|done|by rewrite Ht|by rewrite Ht|]. by rewrite Ht in Hs.
Defined.

Lemma next_token_position_witness :
  exists t s', NextToken (newS (nl ++ " foo")) = Ok (Tok t, s') /\ Pos t = mkPos [] 2 2 /\
    (rn "010" ∉ Text t -> lines_true s').
Proof.
  destruct (NextToken (newS (nl ++ " foo"))) as [[[t|] s']|] eqn:E; [|by vm_compute in E..].
  exists t, s'. split; [done|].
  assert (Ht : Type__ t = IDENT) by (vm_compute in E; by injection E as <- _).
  destruct (next_token_position (newS (nl ++ " foo")) t s') as [-> Hl];
    [by apply newS_scanning|by vm_compute|done|by rewrite Ht|by rewrite Ht|].
  split; [|done]. vm_compute in E. injection E as <- <-. by vm_compute.
Defined.
