(* ===== verification/CleanPath.v ===== *)
(** * [rest/router/internal/httprouter/path.go]: canonical URL paths

    [CleanPath] reads the path at [r] and writes the result at [w], into a buffer that is
    only allocated when the result starts to differ from the path itself.  Out-of-range
    accesses are panics; the theorems show that there is none and that the result is the
    textbook one, computed on the list of path elements. *)

From Stdlib Require Import Ascii String.
From S2P Require Import Prelude SearchTree.
Local Open Scope go_scope.

Definition dot : ascii := "."%char.
Definition nul : ascii := "000"%char.

Definition idx (s : gostr) (i : nat) : outcome ascii :=
  match s !! i with Some c => Ok c | None => Panic "index out of range" end.

Definition set_byte (b : gostr) (w : nat) (c : ascii) : outcome gostr :=
  if w <? length b then Ok (<[w := c]> b) else Panic "index out of range".

(** [bufApp]: an empty buffer means that nothing differs from [s] so far. *)
Definition bufApp (buf s : gostr) (w : nat) (c : ascii) : outcome gostr :=
  if length buf =? 0 then
    c0 <~ idx s w ;;
    if decide (c0 = c) then Ok buf
    else set_byte (take w s ++ drop w (replicate (length s) nul)) w c
  else set_byte buf w c.

(** The loops [for w > 1 && src[w] != '/' { w-- }] *)
Fixpoint back (src : gostr) (w : nat) : outcome nat :=
  match w with
  | 0 => Ok 0
  | S w' =>
    if w <=? 1 then Ok w
    else c <~ idx src w ;; if decide (c = slash) then Ok w else back src w'
  end.

(** The loop that copies an element *)
Fixpoint copyElement (fuel : nat) (p buf : gostr) (r w : nat) : outcome (gostr * nat * nat) :=
  match fuel with
  | 0 => Panic "out of fuel"
  | S fuel =>
    match p !! r with
    | None => Ok (buf, r, w)
    | Some c =>
      if decide (c = slash) then Ok (buf, r, w)
      else buf <~ bufApp buf p w c ;; copyElement fuel p buf (r + 1) (w + 1)
    end
  end.

(** The main loop, from [r] on; the result is the buffer, [w] and [trailing]. *)
Fixpoint cleanLoop (fuel : nat) (p buf : gostr) (r w : nat) (trailing : bool)
    : outcome (gostr * nat * bool) :=
  match fuel with
  | 0 => Panic "out of fuel"
  | S fuel =>
    let n := length p in
    match p !! r with
    | None => Ok (buf, w, trailing)
    | Some c =>
      if decide (c = slash) then cleanLoop fuel p buf (r + 1) w trailing
      else if bool_decide (c = dot) && (r + 1 =? n) then cleanLoop fuel p buf (r + 1) w true
      else if bool_decide (c = dot) && bool_decide (p !! (r + 1) = Some slash) then
        cleanLoop fuel p buf (r + 2) w trailing
      else if bool_decide (c = dot) && bool_decide (p !! (r + 1) = Some dot) &&
              ((r + 2 =? n) || bool_decide (p !! (r + 2) = Some slash)) then
        w <~ (if 1 <? w then back (if length buf =? 0 then p else buf) (w - 1) else Ok w) ;;
        cleanLoop fuel p buf (r + 3) w trailing
      else
        bw <~ (if 1 <? w then buf <~ bufApp buf p w slash ;; Ok (buf, w + 1) else Ok (buf, w)) ;;
        brw <~ copyElement (S (n - r)) p bw.1 r bw.2 ;;
        let '(buf, r, w) := brw in
        cleanLoop fuel p buf r w trailing
    end
  end.

Definition CleanPath (p : gostr) : outcome gostr :=
  match p with
  | [] => Ok [slash]
  | c :: _ =>
    let n := length p in
    let r := if decide (c = slash) then 1 else 0 in
    let buf := if decide (c = slash) then [] else slash :: replicate n nul in
    let trailing := (1 <? n) && bool_decide (last p = Some slash) in
    res <~ cleanLoop (S n) p buf r 1 trailing ;;
    let '(buf, w, trailing) := res in
    bw <~ (if trailing && (1 <? w) then buf <~ bufApp buf p w slash ;; Ok (buf, w + 1)
           else Ok (buf, w)) ;;
    Ok (take bw.2 (if length bw.1 =? 0 then p else bw.1))
  end.

(** ** Reference: a stack of path elements *)

Definition push (stack : list gostr) (e : gostr) : list gostr :=
  if decide (e = [] \/ e = [dot]) then stack
  else if decide (e = [dot; dot]) then removelast stack
  else stack ++ [e].

Definition ends_open (segs : list gostr) : bool :=
  match last segs with Some e => bool_decide (e = [] \/ e = [dot]) | None => false end.

Definition render (stack : list gostr) : gostr := stack ≫= fun e => slash :: e.

Definition clean (p : gostr) : gostr :=
  let segs := split_slash p in
  let stack := foldl push [] segs in
  match stack with
  | [] => [slash]
  | _ => render stack ++ (if ends_open segs then [slash] else [])
  end.

(** What the buffer holds for a stack *)
Definition outpath (stack : list gostr) : gostr :=
  match stack with [] => [slash] | _ => render stack end.

(** ** Buffers *)

Definition src (p buf : gostr) : gostr := if length buf =? 0 then p else buf.

(** The buffer is unallocated, or has room for the path and [off] bytes more; it holds [o]. *)
Record store (p : gostr) (off : nat) (buf o : gostr) : Prop := {
  st_empty : buf = [] -> off = 0;
  st_room : buf <> [] -> length buf = length p + off;
  st_holds : take (length o) (src p buf) = o;
}.

Lemma length_src p off buf o : store p off buf o -> length (src p buf) = length p + off.
Proof.
  intros [He Hr _]. unfold src. destruct buf as [|c buf]; [simpl; rewrite He; [lia|done]|].
  simpl (_ =? 0). cbn iota. by apply Hr.
Qed.

Lemma store_le p off buf o : store p off buf o -> length o <= length p + off.
Proof.
  intros H. pose proof (length_src _ _ _ _ H) as Hl. pose proof (st_holds _ _ _ _ H) as Ht.
  apply (f_equal length) in Ht. rewrite length_take in Ht. lia.
Qed.

Lemma take_insert_snoc (b o : gostr) c : take (length o) b = o -> length o < length b ->
  take (length (o ++ [c])) (<[length o := c]> b) = o ++ [c].
Proof.
  intros Ht Hl. rewrite length_app. simpl. rewrite Nat.add_1_r.
  erewrite take_S_r; [|by apply list_lookup_insert_eq]. by rewrite take_insert_ge, Ht.
Qed.

(** Appending one byte *)
Lemma bufApp_spec p off buf o c : store p off buf o -> length o < length p + off ->
  exists buf', bufApp buf p (length o) c = Ok buf' /\ store p off buf' (o ++ [c]).
Proof.
  intros Hst Hlt. destruct Hst as [He Hr Ht]. unfold bufApp, src in *.
  destruct buf as [|b0 buf].
  - simpl in *. rewrite He in * by done. rewrite Nat.add_0_r in Hlt. unfold idx.
    destruct (lookup_lt_is_Some_2 p (length o) Hlt) as [c0 Hc0]. rewrite Hc0. simpl.
    destruct (decide (c0 = c)) as [->|Hne].
    + exists []. split; [done|]. split; [done|done|]. unfold src. simpl. rewrite length_app. simpl.
      by rewrite Nat.add_1_r, (take_S_r _ _ _ Hc0), Ht.
    + unfold set_byte. set (b := take (length o) p ++ drop (length o) (replicate (length p) nul)).
      assert (Hb : length b = length p).
      { unfold b. rewrite length_app, length_take, length_drop, length_replicate. lia. }
      rewrite Hb, (proj2 (Nat.ltb_lt _ _) Hlt). eexists. split; [done|].
      assert (Hb' : length (<[length o := c]> b) = length p) by by rewrite length_insert.
      split.
      * intros E. rewrite E in Hb'. simpl in Hb'. lia.
      * intros _. lia.
      * unfold src. rewrite Hb'. destruct (Nat.eqb_spec (length p) 0); [lia|].
        apply take_insert_snoc; [|lia]. unfold b. rewrite take_app_le by (rewrite length_take; lia).
        by rewrite take_take, Nat.min_id.
  - specialize (Hr ltac:(done)). cbn [length Nat.eqb] in Ht |- *. unfold set_byte.
    rewrite Hr, (proj2 (Nat.ltb_lt _ _) Hlt). eexists. split; [done|].
    assert (Hb' : length (<[length o := c]> (b0 :: buf)) = length p + off) by by rewrite length_insert.
    split.
    + intros E. rewrite E in Hb'. simpl in Hb'. lia.
    + done.
    + unfold src. rewrite Hb'. destruct (Nat.eqb_spec (length p + off) 0); [lia|].
      apply take_insert_snoc; [done|lia].
Qed.

(** Copying an element *)
Lemma copyElement_spec p off e : slash ∉ e -> forall fuel buf o r rest, store p off buf o ->
  drop r p = e ++ rest -> (forall c rest', rest = c :: rest' -> c = slash) ->
  length e < fuel -> length o + length e <= length p + off ->
  exists buf', copyElement fuel p buf r (length o) = Ok (buf', r + length e, length o + length e) /\
    store p off buf' (o ++ e).
Proof.
  induction e as [|c e IH]; intros Hns fuel buf o r rest Hst Hd Hrest Hf Hroom;
    (destruct fuel as [|fuel]; [simpl in Hf; lia|]); cbn [copyElement].
  - simpl in Hd. rewrite !Nat.add_0_r, app_nil_r. exists buf. split; [|done].
    assert (Hl : p !! r = head rest) by (rewrite <- (Nat.add_0_r r), <- lookup_drop, Hd; by destruct rest).
    rewrite Hl. destruct rest as [|c rest]; [done|]. simpl.
    by rewrite decide_True by (by eapply Hrest).
  - assert (Hl : p !! r = Some c) by (rewrite <- (Nat.add_0_r r), <- lookup_drop, Hd; done).
    rewrite Hl. rewrite decide_False by set_solver. simpl in Hf, Hroom.
    destruct (bufApp_spec p off buf o c Hst ltac:(lia)) as (buf1 & -> & Hst1). cbn [obind].
    destruct (IH ltac:(set_solver) fuel buf1 (o ++ [c]) (r + 1) rest Hst1) as (buf' & Hc & Hst').
    + by rewrite <- drop_drop, Hd.
    + done.
    + lia.
    + rewrite length_app. simpl. lia.
    + exists buf'. rewrite length_app in Hc. simpl in Hc. rewrite Hc.
      simpl length. rewrite <- !Nat.add_assoc. split; [done|]. by rewrite <- app_assoc in Hst'.
Qed.

(** Going back to the previous element *)
Lemma back_run b j : 1 <= j -> (1 < j -> b !! j = Some slash) ->
  forall k, (forall i, j < i -> i <= j + k -> exists c, b !! i = Some c /\ c <> slash) ->
  back b (j + k) = Ok j.
Proof.
  intros Hj Hs. induction k as [|k IH]; intros Hk.
  - rewrite Nat.add_0_r. destruct j as [|[|j]]; [lia|done|]. cbn [back]. simpl (_ <=? _). cbn iota.
    unfold idx. rewrite Hs by lia. cbn [obind]. by rewrite decide_True.
  - destruct (Hk (j + S k)) as (c & Hc & Hne); [lia..|]. rewrite Nat.add_succ_r in *. cbn [back].
    destruct (Nat.leb_spec (S (j + k)) 1); [lia|]. unfold idx. rewrite Hc. cbn [obind].
    rewrite decide_False by done. apply IH. intros i Hi1 Hi2. apply Hk; lia.
Qed.

Definition is_elem (e : gostr) : Prop := e <> [] /\ slash ∉ e /\ e <> [dot] /\ e <> [dot; dot].

Lemma outpath_snoc stack e : outpath (stack ++ [e]) =
  match stack with [] => [slash] ++ e | _ => outpath stack ++ [slash] ++ e end.
Proof.
  destruct stack as [|a stack]; [simpl; by rewrite app_nil_r|]. unfold outpath, render. simpl.
  rewrite bind_app. simpl. by rewrite app_nil_r, <- app_assoc.
Qed.

Lemma outpath_len stack : Forall is_elem stack -> (stack <> [] <-> 1 < length (outpath stack)) /\ 1 <= length (outpath stack).
Proof.
  intros Hf. destruct stack as [|a stack]; [simpl; split; [split; [done|lia]|lia]|].
  apply Forall_cons in Hf as [[Ha _] _]. destruct a as [|c a]; [done|]. simpl. split; [split; [lia|done]|lia].
Qed.

Lemma back_spec p off buf stack e : Forall is_elem stack -> is_elem e ->
  store p off buf (outpath (stack ++ [e])) ->
  back (src p buf) (length (outpath (stack ++ [e])) - 1) = Ok (length (outpath stack)).
Proof.
  intros Hf [Hne [Hns _]] Hst. pose proof (st_holds _ _ _ _ Hst) as Ht.
  set (b := src p buf) in *.
  assert (Hb : forall i, i < length (outpath (stack ++ [e])) -> b !! i = outpath (stack ++ [e]) !! i).
  { intros i Hi. symmetry. rewrite <- Ht at 1. by apply lookup_take_lt. }
  assert (Hin : forall k c, e !! k = Some c -> c <> slash).
  { intros k c Hc ->. apply Hns. by eapply list_elem_of_lookup_2. }
  destruct e as [|e0 e]; [done|]. rewrite outpath_snoc in *.
  destruct (outpath_len stack Hf) as [Hl Hl1]. destruct stack as [|a stack].
  - simpl length at 1. replace (S (S (length e)) - 1) with (1 + length e) by lia.
    apply back_run; [done|simpl; lia|]. intros i Hi1 Hi2. cbn [outpath length] in Hi1, Hi2.
    destruct (lookup_lt_is_Some_2 (e0 :: e) (i - 1)) as [c Hc]; [simpl; lia|].
    exists c. split; [|by eapply Hin]. rewrite Hb by (simpl in *; lia).
    rewrite lookup_app_r by (simpl; lia). exact Hc.
  - set (o := outpath (a :: stack)) in *. rewrite !length_app. cbn [length].
    replace (length o + (1 + S (length e)) - 1) with (length o + S (length e)) by lia.
    assert (Hol : 1 < length o) by (by apply Hl).
    clearbody o. apply back_run; [lia| |].
    + intros _. rewrite Hb by (rewrite !length_app; simpl; lia).
      by rewrite lookup_app_r, Nat.sub_diag by lia.
    + intros i Hi1 Hi2. destruct (lookup_lt_is_Some_2 (e0 :: e) (i - length o - 1)) as [c Hc]; [simpl; lia|].
      exists c. split; [|by eapply Hin]. rewrite Hb by (rewrite !length_app; simpl; lia).
      rewrite lookup_app_r by lia. rewrite lookup_app_r by (simpl; lia). exact Hc.
Qed.

(** ** Elements of a path *)

Lemma split_cons_slash rest : split_slash (slash :: rest) = [] :: split_slash rest.
Proof. done. Qed.

Lemma split_elem e rest : slash ∉ e ->
  split_slash (e ++ rest) =
  match split_slash rest with s :: ss => (e ++ s) :: ss | [] => [e] end.
Proof.
  intros Hns. induction e as [|c e IH]; simpl.
  { pose proof (split_slash_nonnil rest). by destruct (split_slash rest). }
  rewrite decide_False by set_solver. rewrite IH by set_solver. by destruct (split_slash rest).
Qed.

(** The next element and what follows it *)
Lemma next_elem (l : gostr) : exists e rest, l = e ++ rest /\ slash ∉ e /\
  (forall c rest', rest = c :: rest' -> c = slash).
Proof.
  induction l as [|c l (e & rest & -> & Hns & Hr)]; [by exists [], []; set_solver|].
  destruct (decide (c = slash)) as [->|Hc].
  - exists [], (slash :: e ++ rest). split; [done|]. split; [set_solver|]. by intros ? ? [= <- _].
  - exists (c :: e), rest. split; [done|]. split; [set_solver|done].
Qed.

(** Behind an element, the rest of the path still has that element's empty remainder. *)
Lemma split_behind e rest : slash ∉ e -> (forall c rest', rest = c :: rest' -> c = slash) ->
  exists ss, split_slash (e ++ rest) = e :: ss /\ split_slash rest = [] :: ss.
Proof.
  intros Hns Hr. rewrite split_elem by done. destruct rest as [|c rest].
  - exists []. simpl. by rewrite app_nil_r.
  - rewrite (Hr c rest eq_refl). exists (split_slash rest). rewrite split_cons_slash. by rewrite app_nil_r.
Qed.

Lemma push_nil stack : push stack [] = stack.
Proof. unfold push. by rewrite decide_True by (by left). Qed.

Lemma push_elem stack e : is_elem e -> push stack e = stack ++ [e].
Proof.
  intros (? & _ & ? & ?). unfold push. rewrite decide_False by naive_solver. by rewrite decide_False.
Qed.

Lemma removelast_snoc_elem (stack : list gostr) : stack <> [] -> exists st e, stack = st ++ [e] /\ removelast stack = st.
Proof.
  intros Hne. destruct (exists_last Hne) as (st & e & ->). exists st, e. split; [done|].
  by rewrite removelast_last.
Qed.

(** ** The main loop *)

Record loop_inv (p : gostr) (off : nat) (trailing : bool) (stack : list gostr) (buf : gostr) (r w : nat) : Prop := {
  li_store : store p off buf (outpath stack);
  li_w : w = length (outpath stack);
  li_elems : Forall is_elem stack;
  li_behind : w <= r + off;
  li_gap : 1 < w -> w + 1 <= r + off \/
             (r <= length p /\ (r < length p -> p !! r = Some slash) /\ (r = length p -> trailing = false));
  li_trailing : trailing = true -> last p = Some slash \/ length p <= r;
  li_end : r <= length p \/ trailing = false;
}.

(** What the loop promises from [r] on *)
Definition loop_post (p : gostr) (off : nat) (trailing : bool) (stack : list gostr) (r : nat)
    (res : outcome (gostr * nat * bool)) : Prop :=
  let segs := split_slash (drop r p) in
  let stack' := foldl push stack segs in
  exists buf' tr', res = Ok (buf', length (outpath stack'), tr') /\
    store p off buf' (outpath stack') /\ Forall is_elem stack' /\
    tr' = trailing || bool_decide (last segs = Some [dot]) /\
    (tr' = true -> stack' <> [] -> length (outpath stack') < length p + off).

Lemma loop_post_cons p off tr stack stack' r r' res e :
  split_slash (drop r p) = e :: split_slash (drop r' p) -> push stack e = stack' ->
  loop_post p off tr stack' r' res -> loop_post p off tr stack r res.
Proof.
  intros Hs <- H. unfold loop_post. rewrite Hs. cbn [foldl].
  pose proof (split_slash_nonnil (drop r' p)). unfold loop_post in H.
  by destruct (split_slash (drop r' p)).
Qed.

Lemma loop_post_last p off tr tr' stack stack' r r' res e :
  split_slash (drop r p) = [e] -> drop r' p = [] -> push stack e = stack' ->
  tr' = tr || bool_decide (e = [dot]) ->
  loop_post p off tr' stack' r' res -> loop_post p off tr stack r res.
Proof.
  intros Hs Hd <- -> H. unfold loop_post in *. rewrite Hs. rewrite Hd in H. cbn [foldl split_slash last] in *.
  rewrite push_nil in H. destruct H as (buf' & tr' & Hr & Hst & Hf & Htr & Hroom). exists buf', tr'.
  split; [done|]. split; [done|]. split; [done|]. split; [|done]. rewrite Htr.
  rewrite (bool_decide_false (Some [] = Some [dot])) by done. rewrite orb_false_r. f_equal.
  apply bool_decide_ext. naive_solver.
Qed.

Lemma loop_post_elem p off tr stack r r' res e ss : is_elem e ->
  split_slash (drop r p) = e :: ss -> split_slash (drop r' p) = [] :: ss ->
  loop_post p off tr (stack ++ [e]) r' res -> loop_post p off tr stack r res.
Proof.
  intros He Hs Hs' H. unfold loop_post in *. rewrite Hs. rewrite Hs' in H. cbn [foldl] in *.
  rewrite push_nil in H. rewrite push_elem by done.
  assert (Hl : bool_decide (last (e :: ss) = Some [dot]) = bool_decide (last ([] :: ss) = Some [dot])).
  { apply bool_decide_ext. destruct He as (_ & _ & ? & _). destruct ss; [|done]. naive_solver. }
  by rewrite Hl.
Qed.

Lemma drop_head (p : gostr) r c : p !! r = Some c -> drop r p = c :: drop (r + 1) p.
Proof. intros H. by rewrite (drop_S p c r H), Nat.add_1_r. Qed.

Lemma last_elem_char (p : gostr) r e : drop r p = e -> e <> [] -> slash ∉ e -> last p <> Some slash.
Proof.
  intros <- Hne Hns Hl. rewrite <- (take_drop r p) in Hl.
  destruct (exists_last Hne) as (l & c & Hc). rewrite Hc in Hl, Hns. rewrite app_assoc, last_snoc in Hl.
  set_solver.
Qed.

(** At an element the result is at least one byte behind. *)
Lemma li_at_elem p off tr stack buf r w c : loop_inv p off tr stack buf r w -> p !! r = Some c -> c <> slash ->
  1 < w -> w + 1 <= r + off.
Proof.
  intros H Hc Hns Hw. destruct (li_gap _ _ _ _ _ _ _ H Hw) as [|(_ & Hs & _)]; [done|].
  rewrite Hs in Hc by (by eapply lookup_lt_Some). congruence.
Qed.

(** Moving on without writing *)
Lemma li_skip p off tr stack buf r w k c : loop_inv p off tr stack buf r w -> p !! r = Some c -> 0 < k ->
  r + k <= length p \/ tr = false -> loop_inv p off tr stack buf (r + k) w.
Proof.
  intros [H1 H2 H3 H4 H5 H6 H7] Hc Hk Hend. split; try done; try lia.
  intros Ht. destruct (H6 Ht); [by left|right; lia].
Qed.

(** Dropping the last element, for [..] *)
Lemma li_pop p off tr stack buf r w : loop_inv p off tr stack buf r w ->
  (1 < w -> w + 1 <= r + off) ->
  exists w', (if 1 <? w then back (if length buf =? 0 then p else buf) (w - 1) else Ok w) = Ok w' /\
    w' <= w /\ loop_inv p off tr (removelast stack) buf r w'.
Proof.
  intros Hli Hgap. destruct Hli as [H1 H2 H3 H4 H5 H6 H7]. destruct (outpath_len stack H3) as [Hlen Hlen1].
  fold (src p buf). destruct (Nat.ltb_spec 1 w) as [Hw|Hw].
  - destruct (removelast_snoc_elem stack) as (st & e & -> & Hst); [apply Hlen; lia|]. rewrite Hst.
    apply Forall_app in H3 as [Hf He]. rewrite Forall_singleton in He.
    exists (length (outpath st)). rewrite H2. split; [by eapply back_spec|].
    assert (Hle : length (outpath st) <= length (outpath (st ++ [e]))).
    { rewrite outpath_snoc. destruct st; [simpl; lia|]. rewrite length_app. lia. }
    split; [done|]. split; try done; try lia.
    destruct H1 as [Ha Hb Hc]. split; try done.
    apply (f_equal (take (length (outpath st)))) in Hc. rewrite take_take, Nat.min_l in Hc by done.
    rewrite Hc, outpath_snoc. destruct st; [done|]. by rewrite take_app_length.
  - assert (stack = []) as -> by (destruct stack; [done|]; specialize (proj1 Hlen ltac:(done)); lia).
    exists w. split; [done|]. split; [done|]. by split.
Qed.

(** Appending an element *)
Lemma li_push p off tr stack buf r w e rest fuel : loop_inv p off tr stack buf r w ->
  drop r p = e ++ rest -> is_elem e -> (forall c rest', rest = c :: rest' -> c = slash) -> length p - r < fuel ->
  exists buf' w',
    (bw <~ (if 1 <? w then buf <~ bufApp buf p w slash ;; Ok (buf, w + 1) else Ok (buf, w)) ;;
     copyElement fuel p bw.1 r bw.2) = Ok (buf', r + length e, w') /\
    loop_inv p off tr (stack ++ [e]) buf' (r + length e) w'.
Proof.
  intros Hli Hd He Hrest Hfuel. pose proof He as (Hne & Hns & _).
  assert (Hlen : length p - r = length e + length rest) by (by rewrite <- length_drop, Hd, length_app).
  destruct e as [|c0 e0] eqn:Ee; [done|]. rewrite <- Ee in *.
  assert (Hc0 : p !! r = Some c0) by (rewrite <- (Nat.add_0_r r), <- lookup_drop, Hd, Ee; done).
  assert (Hgap : 1 < w -> w + 1 <= r + off).
  { eapply li_at_elem; [done|done|]. rewrite Ee in Hns. set_solver. }
  pose proof (lookup_lt_Some _ _ _ Hc0) as Hrp.
  assert (Hnew : forall buf', store p off buf' (outpath (stack ++ [e])) ->
    length (outpath (stack ++ [e])) <= r + length e + off ->
    loop_inv p off tr (stack ++ [e]) buf' (r + length e) (length (outpath (stack ++ [e])))).
  { intros buf' Hst' Hle. destruct Hli as [H1 H2 H3 H4 H5 H6 H7]. split; try done; try lia.
    - apply Forall_app. split; [done|]. by apply Forall_singleton.
    - intros _. right. split; [lia|]. split.
      + intros Hlt. rewrite <- lookup_drop, Hd, lookup_app_r, Nat.sub_diag by lia.
        destruct rest as [|c rest]; [simpl in Hlen; lia|]. by rewrite (Hrest c rest).
      + intros Heq. destruct tr; [|done]. destruct rest as [|]; [|simpl in Hlen; lia]. rewrite app_nil_r in Hd.
        exfalso. destruct (H6 eq_refl) as [Hl|]; [|lia]. by eapply (last_elem_char p r e).
    - intros Ht. destruct (H6 Ht); [by left|lia]. }
  destruct Hli as [H1 H2 H3 H4 H5 H6 H7]. destruct (outpath_len stack H3) as [Hol Hol1].
  destruct (Nat.ltb_spec 1 w) as [Hw|Hw].
  - destruct stack as [|a stack]; [simpl in *; lia|]. rewrite H2 in *.
    destruct (bufApp_spec p off buf _ slash H1) as (buf1 & -> & Hst1); [lia|]. cbn [obind fst snd].
    replace (length (outpath (a :: stack)) + 1) with (length (outpath (a :: stack) ++ [slash]))
      by (by rewrite length_app).
    destruct (copyElement_spec p off e Hns fuel buf1 _ r rest Hst1 Hd Hrest) as (buf' & -> & Hst');
      [lia|rewrite length_app; cbn [length]; lia|].
    rewrite outpath_snoc in Hnew. rewrite <- app_assoc in Hst'.
    exists buf', (length (outpath (a :: stack) ++ [slash] ++ e)). split.
    + by rewrite !length_app, <- Nat.add_assoc.
    + apply Hnew; [done|]. rewrite !length_app. cbn [length]. lia.
  - assert (stack = []) as -> by (destruct stack; [done|]; specialize (proj1 Hol ltac:(done)); lia).
    cbn [obind fst snd]. simpl outpath in *. rewrite H2 in *.
    destruct (copyElement_spec p off e Hns fuel buf [slash] r rest H1 Hd Hrest) as (buf' & Hc & Hst');
      [lia|simpl in *; lia|]. simpl length in Hc at 1. cbn [length] in *. rewrite Hc.
    exists buf', (length ([slash] ++ e)). split; [done|]. rewrite app_nil_r in *.
    apply Hnew; [done|]. simpl. lia.
Qed.

(** The last branch of the loop is only reached at a proper element. *)
Lemma default_elem p r c e rest : p !! r = Some c -> c <> slash -> drop r p = e ++ rest -> slash ∉ e ->
  (forall c rest', rest = c :: rest' -> c = slash) ->
  bool_decide (c = dot) && (r + 1 =? length p) = false ->
  bool_decide (c = dot) && bool_decide (p !! (r + 1) = Some slash) = false ->
  bool_decide (c = dot) && bool_decide (p !! (r + 1) = Some dot) &&
    ((r + 2 =? length p) || bool_decide (p !! (r + 2) = Some slash)) = false ->
  is_elem e.
Proof.
  intros Hc Hns Hd Hse Hrest E1 E2 E3.
  assert (Hlk : forall k, p !! (r + k) = (e ++ rest) !! k) by (intros k; by rewrite <- Hd, lookup_drop).
  assert (Hlen : length p - r = length (e ++ rest)) by (by rewrite <- Hd, length_drop).
  pose proof (lookup_lt_Some _ _ _ Hc). pose proof (Hlk 0) as H0. rewrite Nat.add_0_r, Hc in H0.
  rewrite (Hlk 1) in E2, E3. rewrite (Hlk 2) in E3.
  destruct e as [|c0 e].
  { destruct rest as [|c1 rest]; [done|]. simpl in H0. specialize (Hrest c1 rest eq_refl). congruence. }
  simpl in H0. injection H0 as <-. split; [done|]. split; [done|]. split.
  - intros [= -> ->]. destruct rest as [|c1 rest].
    + simpl in Hlen. rewrite (proj2 (Nat.eqb_eq (r + 1) (length p))) in E1 by lia. done.
    + rewrite (Hrest c1 rest eq_refl) in E2. done.
  - intros [= -> ->]. destruct rest as [|c1 rest].
    + simpl in Hlen. rewrite (proj2 (Nat.eqb_eq (r + 2) (length p))) in E3 by lia. done.
    + rewrite (Hrest c1 rest eq_refl) in E3. apply not_true_iff_false in E3. apply E3.
      rewrite !andb_true_iff, orb_true_iff, !bool_decide_eq_true. split; [done|]. by right.
Qed.

Lemma cleanLoop_end p off tr stack buf r w : loop_inv p off tr stack buf r w -> p !! r = None ->
  loop_post p off tr stack r (Ok (buf, w, tr)).
Proof.
  intros [H1 H2 H3 H4 H5 H6 H7] Hn%lookup_ge_None_1. unfold loop_post. rewrite drop_ge by done.
  cbn [split_slash foldl last]. rewrite push_nil. exists buf, tr. rewrite <- H2. split; [done|].
  split; [done|]. split; [done|]. split; [by rewrite orb_false_r|].
  intros Htr Hne. destruct (outpath_len stack H3) as [Hl _].
  destruct H5 as [|(? & _ & Hf)]; [rewrite H2; by apply Hl|..].
  - destruct H7 as [|H7]; [lia|congruence].
  - rewrite Hf in Htr; [done|lia].
Qed.

(** The branch for [..] *)
Lemma cleanLoop_dotdot p off tr stack buf r w : loop_inv p off tr stack buf r w ->
  p !! r = Some dot -> p !! (r + 1) = Some dot -> r + 2 = length p \/ p !! (r + 2) = Some slash ->
  (forall w', loop_inv p off tr (removelast stack) buf (r + 3) w' -> forall res,
     loop_post p off tr (removelast stack) (r + 3) res -> loop_post p off tr stack r res) /\
  exists w', (if 1 <? w then back (if length buf =? 0 then p else buf) (w - 1) else Ok w) = Ok w' /\
    loop_inv p off tr (removelast stack) buf (r + 3) w'.
Proof.
  intros Hli Hc Hc1 Hend.
  assert (Hpush : push stack [dot; dot] = removelast stack) by done.
  assert (Hd : drop r p = dot :: dot :: drop (r + 2) p).
  { rewrite (drop_head _ _ _ Hc), (drop_head _ _ _ Hc1). by rewrite <- Nat.add_assoc. }
  pose proof (lookup_lt_Some _ _ _ Hc1).
  split.
  - intros _ _ res Hpost. destruct Hend as [Hend|Hs].
    + apply (loop_post_last p off tr tr stack (removelast stack) r (r + 3) res [dot; dot]); try done.
      * rewrite Hd, drop_ge by lia. done.
      * apply drop_ge. lia.
      * by rewrite orb_false_r.
    + apply (loop_post_cons p off tr stack (removelast stack) r (r + 3) res [dot; dot]); try done.
      by rewrite Hd, (drop_head _ _ _ Hs), <- Nat.add_assoc.
  - destruct (li_pop _ _ _ _ _ _ _ Hli) as (w' & Hw' & _ & Hli').
    { eapply li_at_elem; [done|exact Hc|done]. }
    exists w'. split; [done|]. apply (li_skip _ _ _ _ _ _ _ 3 dot Hli' Hc); [lia|].
    destruct Hend as [Hend|Hs%lookup_lt_Some]; [right|left; lia].
    destruct tr; [|done]. destruct (li_trailing _ _ _ _ _ _ _ Hli eq_refl) as [Hl|]; [|lia].
    exfalso. revert Hl. apply (last_elem_char p r [dot; dot]); [|done|set_solver].
    by rewrite Hd, drop_ge by lia.
Qed.

Lemma cleanLoop_spec p off : forall fuel tr stack buf r w, loop_inv p off tr stack buf r w ->
  length p - r < fuel -> loop_post p off tr stack r (cleanLoop fuel p buf r w tr).
Proof.
  induction fuel as [|fuel IH]; intros tr stack buf r w Hli Hf; [lia|]. cbn [cleanLoop].
  destruct (p !! r) as [c|] eqn:Hc; [|by apply cleanLoop_end].
  pose proof (lookup_lt_Some _ _ _ Hc) as Hr.
  destruct (decide (c = slash)) as [->|Hns].
  { eapply (loop_post_cons p off tr stack stack r (r + 1)); [by rewrite (drop_head _ _ _ Hc)|apply push_nil|].
    apply IH; [|lia]. eapply li_skip; [done|done|lia|left; lia]. }
  destruct (bool_decide (c = dot) && (r + 1 =? length p)) eqn:E1.
  { bool_prop. subst c.
    eapply (loop_post_last p off tr true stack stack r (r + 1) _ [dot]).
    - by rewrite (drop_head _ _ _ Hc), drop_ge by lia.
    - apply drop_ge. lia.
    - done.
    - by rewrite orb_true_r.
    - apply IH; [|lia]. pose proof (li_at_elem _ _ _ _ _ _ _ _ Hli Hc Hns).
      destruct Hli as [H1 H2 H3 H4 H5 H6 H7]. split; try done; try lia. }
  destruct (bool_decide (c = dot) && bool_decide (p !! (r + 1) = Some slash)) eqn:E2.
  { bool_prop. subst c. pose proof (lookup_lt_Some _ _ _ H0).
    eapply (loop_post_cons p off tr stack stack r (r + 2) _ [dot]); [|done|].
    - by rewrite (drop_head _ _ _ Hc), (drop_head _ _ _ H0), <- Nat.add_assoc.
    - apply IH; [|lia]. eapply li_skip; [done|done|lia|left; lia]. }
  destruct (_ && _ && _) eqn:E3.
  { apply andb_true_iff in E3 as [E3 E4]. bool_prop. subst c.
    destruct (cleanLoop_dotdot p off tr stack buf r w Hli Hc) as (Hpost & w' & -> & Hli'); [done| |].
    { apply orb_true_iff in E4 as [E4|E4]; bool_prop; auto. }
    cbn [obind]. apply (Hpost w' Hli'), IH; [done|lia]. }
  destruct (next_elem (drop r p)) as (e & rest & Hd & Hse & Hrest).
  pose proof (default_elem p r c e rest Hc Hns Hd Hse Hrest E1 E2 E3) as He.
  destruct (li_push p off tr stack buf r w e rest (S (length p - r)) Hli Hd He Hrest) as (buf' & w' & Hcp & Hli'); [lia|].
  destruct (split_behind e rest Hse Hrest) as (ss & Hs1 & Hs2).
  destruct (if 1 <? w then _ else _) as [bw|]; [|done]. cbn [obind] in Hcp |- *. rewrite Hcp. cbn [obind].
  apply (loop_post_elem p off tr stack r (r + length e) _ e ss He); [by rewrite Hd| |].
  - by rewrite <- drop_drop, Hd, drop_app_length.
  - apply IH; [done|]. destruct e; [by destruct He|]. simpl. lia.
Qed.

(** ** [CleanPath] is [clean] *)

Lemma last_split p : p <> [] -> last p = Some slash <-> last (split_slash p) = Some [].
Proof.
  induction p as [|c p IH]; [done|]. intros _. simpl.
  destruct p as [|c' p].
  - simpl. destruct (decide (c = slash)) as [->|]; simpl; naive_solver.
  - rewrite last_cons_cons, IH by done. pose proof (split_slash_nonnil (c' :: p)) as Hne.
    destruct (split_slash (c' :: p)) as [|s0 [|s1 ss]] eqn:Hq; [done| |by destruct (decide (c = slash))].
    destruct (decide (c = slash)); [done|]. cbn [last]. split; [|done]. intros [= ->]. exfalso.
    simpl in Hq. pose proof (split_slash_nonnil p).
    destruct (decide (c' = slash)); by destruct (split_slash p).
Qed.

Definition start_stack (p : gostr) : list gostr := foldl push [] (split_slash p).

(** The loop from the start: all elements of the path are processed. *)
Lemma cleanLoop_start (c : ascii) (p' : gostr) :
  let p := c :: p' in
  let rooted := bool_decide (c = slash) in
  exists buf' tr',
    cleanLoop (S (length p)) p (if decide (c = slash) then [] else slash :: replicate (length p) nul)
      (if decide (c = slash) then 1 else 0) 1 ((1 <? length p) && bool_decide (last p = Some slash))
    = Ok (buf', length (outpath (start_stack p)), tr') /\
    store p (if rooted then 0 else 1) buf' (outpath (start_stack p)) /\
    Forall is_elem (start_stack p) /\
    (start_stack p <> [] -> tr' = ends_open (split_slash p) /\
       (tr' = true -> length (outpath (start_stack p)) < length p + (if rooted then 0 else 1))).
Proof.
  intros p rooted. set (off := if rooted then 0 else 1). set (r := if decide (c = slash) then 1 else 0).
  set (buf := if decide (c = slash) then [] else slash :: replicate (length p) nul).
  set (tr := (1 <? length p) && bool_decide (last p = Some slash)).
  assert (Hli : loop_inv p off tr [] buf r 1).
  { split; try done.
    - unfold buf, off, rooted. destruct (decide (c = slash)) as [->|Hc].
      + rewrite bool_decide_true by done. split; try done.
      + rewrite bool_decide_false by done. split; [done| |done].
        intros _. cbn [length]. rewrite length_replicate. simpl. lia.
    - unfold r, off, rooted. destruct (decide (c = slash)); [lia|]. rewrite bool_decide_false by done. lia.
    - lia.
    - unfold tr. intros H. bool_prop. by left.
    - unfold r. simpl length. destruct (decide (c = slash)); lia. }
  destruct (cleanLoop_spec p off (S (length p)) tr [] buf r 1 Hli ltac:(lia)) as (buf' & tr' & Hr & Hst & Hf & Htr & Hroom).
  assert (Hsegs : split_slash p = split_slash (drop r p) \/ split_slash p = [] :: split_slash (drop r p)).
  { unfold r, p. destruct (decide (c = slash)) as [->|]; [by right|by left]. }
  assert (Hstack : foldl push [] (split_slash (drop r p)) = start_stack p).
  { unfold start_stack. destruct Hsegs as [->| ->]; [done|]. cbn [foldl]. by rewrite push_nil. }
  assert (Hlast : last (split_slash (drop r p)) = last (split_slash p)).
  { destruct Hsegs as [->| ->]; [done|]. pose proof (split_slash_nonnil (drop r p)).
    by destruct (split_slash (drop r p)). }
  rewrite Hstack, Hlast in *. exists buf', tr'. split; [done|]. split; [done|]. split; [done|].
  intros Hne. split; [|auto]. rewrite Htr. unfold ends_open, tr.
  pose proof (last_split p ltac:(done)) as Hls.
  assert (Hone : last p = Some slash -> 1 < length p).
  { intros Hl. destruct p' as [|c' p']; [|simpl; lia]. simpl in Hl. injection Hl as ->. by destruct Hne. }
  destruct (last (split_slash p)) as [e|] eqn:El; [|by apply last_None in El; apply split_slash_nonnil in El].
  destruct (decide (e = [])) as [->|He].
  - destruct Hls as [_ Hls]. specialize (Hls eq_refl). specialize (Hone Hls).
    by rewrite (proj2 (Nat.ltb_lt _ _) Hone), (bool_decide_true (last p = Some slash)) by done.
  - rewrite (bool_decide_false (last p = Some slash)) by (rewrite Hls; congruence).
    rewrite andb_false_r. simpl. apply bool_decide_ext. naive_solver.
Qed.

Lemma CleanPath_clean p : CleanPath p = Ok (clean p).
Proof.
  destruct p as [|c p']; [done|]. unfold CleanPath.
  destruct (cleanLoop_start c p') as (buf & tr & -> & Hst & Hf & Htr). cbn [obind].
  set (p := c :: p') in *. unfold clean. fold (start_stack p). set (stack := start_stack p) in *.
  destruct (outpath_len stack Hf) as [Hl _].
  destruct (Nat.ltb_spec 1 (length (outpath stack))) as [Hw|Hw].
  - specialize (Htr (proj2 Hl Hw)) as [-> Hroom].
    destruct stack as [|a stack]; [simpl in Hw; lia|]. change (outpath (a :: stack)) with (render (a :: stack)) in *.
    destruct (ends_open (split_slash p)); simpl andb; cbn iota.
    + destruct (bufApp_spec _ _ _ _ slash Hst (Hroom eq_refl)) as (buf' & -> & Hst'). cbn [obind fst snd].
      pose proof (st_holds _ _ _ _ Hst') as Ht. rewrite length_app in Ht. f_equal. exact Ht.
    + cbn [obind fst snd]. rewrite app_nil_r. f_equal. apply (st_holds _ _ _ _ Hst).
  - rewrite andb_false_r. cbn [obind fst snd]. f_equal.
    assert (stack = []) as E by (destruct stack; [done|]; specialize (proj1 Hl ltac:(done)); lia).
    pose proof (st_holds _ _ _ _ Hst) as Ht. rewrite E in *. exact Ht.
Qed.

(** ** Canonical paths *)

Lemma push_all es : Forall is_elem es -> forall stack, foldl push stack es = stack ++ es.
Proof.
  induction 1 as [|e es He _ IH]; intros stack; [by rewrite app_nil_r|]. cbn [foldl].
  rewrite push_elem by done. by rewrite IH, <- app_assoc.
Qed.

Lemma push_Forall segs : Forall (fun e => slash ∉ e) segs -> forall stack, Forall is_elem stack ->
  Forall is_elem (foldl push stack segs).
Proof.
  induction 1 as [|e segs He _ IH]; intros stack Hst; [done|]. cbn [foldl]. apply IH. unfold push.
  destruct (decide (e = [] \/ e = [dot])) as [|Hn]; [done|].
  destruct (decide (e = [dot; dot])) as [|Hn2].
  - destruct stack as [|a st]; [done|]. destruct (removelast_snoc_elem (a :: st)) as (st' & e' & Hs & ->); [done|].
    rewrite Hs in Hst. by apply Forall_app in Hst as [? _].
  - apply Forall_app. split; [done|]. apply Forall_singleton. split; [tauto|]. split; [done|]. tauto.
Qed.

Lemma split_no_slash p : Forall (fun e => slash ∉ e) (split_slash p).
Proof.
  induction p as [|c p IH]; simpl; [constructor; [set_solver|done]|].
  destruct (decide (c = slash)); [constructor; [set_solver|done]|].
  destruct (split_slash p) as [|s ss]; [constructor; [set_solver|done]|].
  apply Forall_cons in IH as [? ?]. constructor; [set_solver|done].
Qed.

Lemma split_render stack t : Forall is_elem stack ->
  split_slash (render stack ++ (if t : bool then [slash] else [])) =
  if t then [] :: stack ++ [[]] else match stack with [] => [[]] | _ => [] :: stack end.
Proof.
  induction 1 as [|e es He _ IH]; [by destruct t|]. unfold render. cbn [mbind list_bind]. fold (render es).
  change (render (e :: es)) with ((slash :: e) ++ render es). rewrite <- app_assoc. cbn [app].
  rewrite split_cons_slash, split_elem, IH by (by destruct He as (_ & ? & _)).
  destruct t; [by rewrite app_nil_r|]. destruct es; by rewrite app_nil_r.
Qed.

Lemma ends_open_elems stack : Forall is_elem stack -> stack <> [] -> ends_open ([] :: stack) = false.
Proof.
  intros Hf Hne. destruct (exists_last Hne) as (l & e & ->). unfold ends_open.
  rewrite app_comm_cons, last_snoc. apply Forall_app in Hf as [_ Hf]. rewrite Forall_singleton in Hf.
  destruct Hf as (? & _ & ? & _). apply bool_decide_eq_false. tauto.
Qed.

Lemma clean_render a st (t : bool) : Forall is_elem (a :: st) ->
  clean (render (a :: st) ++ (if t then [slash] else [])) = render (a :: st) ++ (if t then [slash] else []).
Proof.
  intros Hf. unfold clean. rewrite split_render by done. destruct t.
  - assert (Hs : foldl push [] ([] :: (a :: st) ++ [[]]) = a :: st).
    { change (foldl push (push [] []) ((a :: st) ++ [[]]) = a :: st).
      rewrite push_nil, foldl_app, (push_all (a :: st)) by done. apply push_nil. }
    rewrite Hs. unfold ends_open. by rewrite app_comm_cons, last_snoc.
  - assert (Hs : foldl push [] ([] :: a :: st) = a :: st).
    { change (foldl push (push [] []) (a :: st) = a :: st). by rewrite push_nil, push_all. }
    by rewrite Hs, ends_open_elems.
Qed.

Lemma clean_idem p : clean (clean p) = clean p.
Proof.
  assert (Hf : Forall is_elem (foldl push [] (split_slash p))) by (apply push_Forall; [apply split_no_slash|done]).
  unfold clean at 2 3. destruct (foldl push [] (split_slash p)) as [|a st]; [done|].
  by apply clean_render.
Qed.

(** C38: for every path, [CleanPath] reads and writes in range and returns the path of the
    elements that remain when empty elements and [.] are dropped and [..] removes its
    predecessor, with a trailing slash exactly when the path ended in a slash or in [.]. *)
Theorem clean_path_correct p : CleanPath p = Ok (clean p).
Proof. apply CleanPath_clean. Qed.

(** The result is canonical: it is [/], or slash-separated proper elements (not empty,
    not [.], not [..]) with at most one trailing slash, and cleaning it again changes
    nothing. *)
Theorem clean_path_canonical p :
  exists q stack t, CleanPath p = Ok q /\ CleanPath q = Ok q /\ Forall is_elem stack /\
    q = (match stack with [] => [slash] | _ => render stack ++ (if t : bool then [slash] else []) end).
Proof.
  exists (clean p), (foldl push [] (split_slash p)), (ends_open (split_slash p)).
  rewrite !CleanPath_clean, clean_idem. split; [done|]. split; [done|].
  split; [apply push_Forall; [apply split_no_slash|done]|done].
Qed.
