(* ===== verification/AhoCorasick.v ===== *)
(** * [core/stringx/node.go]: the keyword automaton of the trie and the replacer

    The nodes are objects of a heap; [children] and [fail] hold their addresses, and a nil
    dereference is a panic.  A node is allocated at the address of its parent extended by
    its rune: the address is fresh, because a node makes one child per rune.  The order in
    which Go iterates over [children] is the parameter [ord]. *)

From S2P Require Import Prelude.
Local Open Scope go_scope.

Abbreviation loc := (list Z).

Record node := mkNode { children : gmap Z loc; fail : option loc; depth : nat; end_ : bool }.

Abbreviation heap := (gmap loc node).

Definition root : loc := [].
Definition new_node : node := mkNode ∅ None 0 false.
Definition new_heap : heap := {[ root := new_node ]}.

Definition deref (h : heap) (l : loc) : outcome node :=
  match h !! l with Some n => Ok n | None => Panic "nil pointer dereference" end.

(** [node.add]; the cases of a nil and of a non-nil [children] without the rune coincide. *)
Fixpoint add_loop (h : heap) (nd : loc) (i : nat) (chars : list Z) : outcome (heap * loc) :=
  match chars with
  | [] => Ok (h, nd)
  | char :: chars =>
    n <~ deref h nd ;;
    match children n !! char with
    | Some child => add_loop h child (S i) chars
    | None =>
      let child := nd ++ [char] in
      let h := <[nd := mkNode (<[char := child]> (children n)) (fail n) (depth n) (end_ n)]> h in
      let h := <[child := mkNode ∅ None (S i) false]> h in
      add_loop h child (S i) chars
    end
  end.

Definition add (word : list Z) (h : heap) : outcome heap :=
  match word with
  | [] => Ok h
  | _ =>
    r <~ add_loop h root 0 word ;;
    let '(h, nd) := r in
    n <~ deref h nd ;;
    Ok (<[nd := mkNode (children n) (fail n) (depth n) true]> h)
  end.

Definition set_fail (l f : loc) (h : heap) : outcome heap :=
  n <~ deref h l ;; Ok (<[l := mkNode (children n) (Some f) (depth n) (end_ n)]> h).

(** The loop over [cur] in [build]: the failure target of the child of [cur] at [key] *)
Fixpoint fail_loop (fuel : nat) (h : heap) (cur : loc) (key : Z) : outcome loc :=
  match fuel with
  | 0 => Panic "out of fuel"
  | S fuel =>
    n <~ deref h cur ;;
    match fail n with
    | None => Ok root
    | Some f =>
      fn <~ deref h f ;;
      match children fn !! key with
      | Some x => Ok x
      | None => fail_loop fuel h f key
      end
    end
  end.

Section build.
Context (ord : list (Z * loc) -> list (Z * loc)).

(** The loop over the children of [nd], which are appended to the queue *)
Fixpoint children_loop (h : heap) (nd : loc) (kids : list (Z * loc)) (nodes : list loc)
    : outcome (heap * list loc) :=
  match kids with
  | [] => Ok (h, nodes)
  | (key, child) :: kids =>
    f <~ fail_loop (S (size h)) h nd key ;;
    h <~ set_fail child f h ;;
    children_loop h nd kids (nodes ++ [child])
  end.

Fixpoint bfs (fuel : nat) (h : heap) (nodes : list loc) : outcome heap :=
  match fuel with
  | 0 => Panic "out of fuel"
  | S fuel =>
    match nodes with
    | [] => Ok h
    | nd :: nodes =>
      n <~ deref h nd ;;
      r <~ children_loop h nd (ord (map_to_list (children n))) nodes ;;
      let '(h, nodes) := r in
      bfs fuel h nodes
    end
  end.

(** The first loop: the children of the root *)
Fixpoint root_loop (h : heap) (kids : list (Z * loc)) (nodes : list loc) : outcome (heap * list loc) :=
  match kids with
  | [] => Ok (h, nodes)
  | (_, child) :: kids =>
    h <~ set_fail child root h ;;
    root_loop h kids (nodes ++ [child])
  end.

(** [node.build] *)
Definition build (h : heap) : outcome heap :=
  n <~ deref h root ;;
  r <~ root_loop h (ord (map_to_list (children n))) [] ;;
  let '(h, nodes) := r in
  bfs (S (size h)) h nodes.
End build.

Record scope := mkScope { start : Z; stop : Z }.

(** The failure loop of [find]: the new [cur], and the [child] if there is one *)
Fixpoint next_loop (fuel : nat) (h : heap) (cur : loc) (char : Z) : outcome (loc * option loc) :=
  match fuel with
  | 0 => Panic "out of fuel"
  | S fuel =>
    if decide (cur = root) then Ok (cur, None)
    else
      n <~ deref h cur ;;
      match fail n with
      | None => Panic "nil pointer dereference"
      | Some cur =>
        n <~ deref h cur ;;
        match children n !! char with
        | Some child => Ok (child, Some child)
        | None => next_loop fuel h cur char
        end
      end
  end.

(** The loop over [child]: the scopes of the words that end at [stop] *)
Fixpoint report_loop (fuel : nat) (h : heap) (child : loc) (stop : Z) : outcome (list scope) :=
  match fuel with
  | 0 => Panic "out of fuel"
  | S fuel =>
    if decide (child = root) then Ok []
    else
      n <~ deref h child ;;
      match fail n with
      | None => Panic "nil pointer dereference"
      | Some f =>
        rest <~ report_loop fuel h f stop ;;
        Ok (if end_ n then mkScope (stop - Z.of_nat (depth n)) stop :: rest else rest)
      end
  end.

Fixpoint find_loop (h : heap) (cur : loc) (i : Z) (chars : list Z) : outcome (list scope) :=
  match chars with
  | [] => Ok []
  | char :: chars =>
    n <~ deref h cur ;;
    r <~ match children n !! char with
         | Some child => Ok (child, Some child)
         | None => next_loop (S (size h)) h cur char
         end ;;
    let '(cur, child) := r in
    found <~ match child with
             | Some child => report_loop (S (size h)) h child (i + 1)
             | None => Ok []
             end ;;
    rest <~ find_loop h cur (i + 1) chars ;;
    Ok (found ++ rest)
  end.

(** [node.find] *)
Definition find (chars : list Z) (h : heap) : outcome (list scope) := find_loop h root 0 chars.

(** [NewTrie] and [NewReplacer]: all words, then the failure links *)
Fixpoint add_all (words : list (list Z)) (h : heap) : outcome heap :=
  match words with
  | [] => Ok h
  | w :: words => h <~ add w h ;; add_all words h
  end.

Definition new_automaton (ord : list (Z * loc) -> list (Z * loc)) (words : list (list Z)) : outcome heap :=
  h <~ add_all words new_heap ;; build ord h.

(** ** Suffixes *)

(** All suffixes, longest first *)
Fixpoint tails (p : list Z) : list (list Z) :=
  match p with
  | [] => [[]]
  | _ :: p' => p :: tails p'
  end.

Section suffixes.
Context (N : gset loc) (Hroot : [] ∈ N).

(** The suffixes that are nodes, and the longest of them *)
Definition nodes_of (p : list Z) : list (list Z) := filter (.∈ N) (tails p).
Definition lsuf (p : list Z) : list Z := default [] (head (nodes_of p)).

Lemma nodes_of_cons c p : nodes_of (c :: p) = if decide (c :: p ∈ N) then (c :: p) :: nodes_of p else nodes_of p.
Proof. unfold nodes_of. cbn [tails]. by rewrite filter_cons. Qed.

Lemma nodes_of_nil : nodes_of [] = [[]].
Proof using Hroot. unfold nodes_of. cbn [tails]. rewrite filter_cons, decide_True by exact Hroot. done. Qed.

Lemma nodes_of_lsuf p : nodes_of (lsuf p) = nodes_of p /\ lsuf p ∈ N /\ length (lsuf p) <= length p.
Proof.
  unfold lsuf. induction p as [|c p IH].
  { rewrite nodes_of_nil. cbn [head default from_option id]. by rewrite nodes_of_nil. }
  rewrite nodes_of_cons. destruct (decide (c :: p ∈ N)) as [Hin|Hn].
  - cbn [head default from_option id]. by rewrite nodes_of_cons, decide_True by done.
  - destruct IH as (? & ? & ?). simpl. split; [done|]. split; [done|]. lia.
Qed.

(** The nodes among the suffixes of a node: itself, then those of its failure target *)
Lemma nodes_of_node p : p ∈ N -> p <> [] -> nodes_of p = p :: nodes_of (lsuf (tail p)).
Proof.
  intros Hin Hne. destruct p as [|c p]; [done|]. rewrite nodes_of_cons, decide_True by done.
  f_equal. symmetry. apply nodes_of_lsuf.
Qed.

Lemma lsuf_tail_shorter p : p <> [] -> length (lsuf (tail p)) < length p.
Proof. destruct p as [|c p]; [done|]. intros _. simpl. pose proof (nodes_of_lsuf p) as (_ & _ & ?). lia. Qed.

Lemma tails_snoc p c : tails (p ++ [c]) = ((.++ [c]) <$> tails p) ++ [[]].
Proof. induction p as [|d p IH]; [done|]. cbn [app tails]. by rewrite IH. Qed.

(** The first suffix in a list of nodes that can be extended by [c] *)
Fixpoint extend (c : Z) (l : list (list Z)) : list Z :=
  match l with
  | [] => []
  | s :: l => if decide (s ++ [c] ∈ N) then s ++ [c] else extend c l
  end.

Lemma lsuf_snoc (Hpre : forall l c, l ++ [c] ∈ N -> l ∈ N) p c : lsuf (p ++ [c]) = extend c (nodes_of p).
Proof.
  unfold lsuf, nodes_of. rewrite tails_snoc.
  induction (tails p) as [|s l IH].
  - cbn [fmap list_fmap app]. by rewrite filter_cons_True by done.
  - cbn [fmap list_fmap app]. rewrite !filter_cons. destruct (decide (s ∈ N)) as [Hs|Hs].
    + cbn [extend]. destruct (decide (s ++ [c] ∈ N)); [done|]. apply IH.
    + rewrite decide_False; [apply IH|]. intros H. by apply Hpre in H.
Qed.
End suffixes.

(** ** The trie of a set of words *)

Record trie (W : loc -> Prop) (h : heap) : Prop := {
  tr_root : root ∈ dom h;
  tr_prefix l c : l ++ [c] ∈ dom h -> l ∈ dom h;
  tr_words l : W l -> l ∈ dom h;
  tr_depth l n : h !! l = Some n -> depth n = length l;
  tr_children l n c x : h !! l = Some n -> children n !! c = Some x <-> x = l ++ [c] /\ x ∈ dom h;
  tr_end l n : h !! l = Some n -> end_ n = true <-> W l /\ l <> [];
}.

Lemma deref_dom h l : l ∈ dom h -> exists n, h !! l = Some n /\ deref h l = Ok n.
Proof. intros [n Hn]%elem_of_dom. exists n. unfold deref. by rewrite Hn. Qed.

Lemma tr_child_dec W h l n c : trie W h -> h !! l = Some n ->
  children n !! c = if decide (l ++ [c] ∈ dom h) then Some (l ++ [c]) else None.
Proof.
  intros Ht Hn. pose proof (fun x => tr_children W h Ht l n c x Hn) as Hc.
  destruct (decide (l ++ [c] ∈ dom h)) as [Hin|Hin]; [by apply Hc|].
  destruct (children n !! c) as [x|]; [|done]. by destruct (proj1 (Hc x) eq_refl) as [-> ?].
Qed.

Lemma trie_new : trie (fun _ => False) new_heap.
Proof.
  unfold new_heap. split.
  - by rewrite dom_singleton, elem_of_singleton.
  - intros l c. rewrite dom_singleton, elem_of_singleton. by destruct l.
  - done.
  - intros l n [<- <-]%lookup_singleton_Some. done.
  - intros l n c x [<- <-]%lookup_singleton_Some. simpl. rewrite lookup_empty, dom_singleton, elem_of_singleton.
    split; [done|]. by intros [-> ?].
  - intros l n [<- <-]%lookup_singleton_Some. by simpl; split; [|intros []].
Qed.

(** Nodes that differ in their failure links only *)
Definition same_but_fail (n n' : node) : Prop :=
  children n = children n' /\ depth n = depth n' /\ end_ n = end_ n'.

Lemma trie_grow W h nd n c : trie W h -> h !! nd = Some n -> nd ++ [c] ∉ dom h ->
  trie W (<[nd ++ [c] := mkNode ∅ None (S (length nd)) false]>
    (<[nd := mkNode (<[c := nd ++ [c]]> (children n)) (fail n) (depth n) (end_ n)]> h)).
Proof.
  intros Ht Hn Hfresh. set (child := nd ++ [c]) in *. set (h' := <[child := _]> _).
  assert (Hnd : nd ∈ dom h) by (by apply elem_of_dom).
  assert (Hne : nd <> child) by (intros E; rewrite <- E in Hfresh; done).
  assert (Hdom : forall x, x ∈ dom h' <-> x = child \/ x ∈ dom h).
  { intros x. unfold h'. rewrite !dom_insert. set_solver. }
  assert (Hlk : forall l m, h' !! l = Some m ->
    (l = child /\ m = mkNode ∅ None (S (length nd)) false) \/
    (l = nd /\ m = mkNode (<[c := child]> (children n)) (fail n) (depth n) (end_ n)) \/
    (l <> child /\ l <> nd /\ h !! l = Some m)).
  { intros l m. unfold h'. rewrite !lookup_insert_Some. naive_solver. }
  split.
  - apply Hdom. right. apply (tr_root _ _ Ht).
  - intros l d [E|H]%Hdom; apply Hdom; right; [|by eapply tr_prefix].
    apply app_inj_2 in E as [-> _]; [|done]. done.
  - intros l Hl. apply Hdom. right. by eapply tr_words.
  - intros l m [[-> ->]|[[-> ->]|(_ & _ & H)]]%Hlk; simpl.
    + unfold child. rewrite length_app. simpl. lia.
    + by eapply tr_depth.
    + by eapply tr_depth.
  - intros l m d x [[-> ->]|[[-> ->]|(Hl1 & Hl2 & H)]]%Hlk; simpl; rewrite Hdom.
    + rewrite lookup_empty. split; [done|]. intros [-> [E|E%(tr_prefix _ _ Ht)]]; [|done].
      apply (f_equal length) in E. rewrite length_app in E. simpl in E. lia.
    + rewrite lookup_insert_Some, (tr_children _ _ Ht nd n d x Hn). split.
      * intros [[-> <-]|[? [-> ?]]]; [by split; [|left]|by split; [|right]].
      * intros [-> [E|E]].
        -- left. apply app_inj_2 in E as [_ [= ->]]; [|done]. done.
        -- right. split; [|done]. intros ->. done.
    + rewrite (tr_children _ _ Ht l m d x H). split; [naive_solver|]. intros [-> [E|E]]; [|done].
      apply app_inj_2 in E as [-> _]; done.
  - intros l m [[-> ->]|[[-> ->]|(Hl1 & Hl2 & H)]]%Hlk; simpl.
    + split; [done|]. intros [Hw _]. by apply (tr_words _ _ Ht) in Hw.
    + by eapply tr_end.
    + by eapply tr_end.
Qed.

Definition no_fails (h : heap) : Prop := forall l n, h !! l = Some n -> fail n = None.

Lemma add_loop_spec W chars : forall h nd i, trie W h -> no_fails h -> nd ∈ dom h -> i = length nd ->
  exists h', add_loop h nd i chars = Ok (h', nd ++ chars) /\ trie W h' /\ no_fails h' /\ nd ++ chars ∈ dom h'.
Proof.
  induction chars as [|c chars IH]; intros h nd i Ht Hnf Hnd ->; cbn [add_loop].
  { exists h. by rewrite app_nil_r. }
  destruct (deref_dom h nd Hnd) as (n & Hn & ->). cbn [obind].
  rewrite (tr_child_dec W h nd n c Ht Hn). destruct (decide (nd ++ [c] ∈ dom h)) as [Hin|Hin].
  - destruct (IH h (nd ++ [c]) (S (length nd)) Ht Hnf Hin) as (h' & -> & H); [rewrite length_app; simpl; lia|].
    exists h'. by rewrite <- app_assoc in *.
  - pose proof (trie_grow W h nd n c Ht Hn Hin) as Ht'. set (h1 := <[nd ++ [c] := _]> _) in *.
    destruct (IH h1 (nd ++ [c]) (S (length nd)) Ht') as (h' & -> & H).
    + intros l m. unfold h1. rewrite !lookup_insert_Some.
      intros [[_ <-]|[_ [[_ <-]|[_ H]]]]; simpl; [done|by apply (Hnf nd)|by eapply Hnf].
    + unfold h1. rewrite dom_insert. set_solver.
    + rewrite length_app. simpl. lia.
    + exists h'. by rewrite <- app_assoc in *.
Qed.

Lemma ac_add_spec W word h : trie W h -> no_fails h ->
  exists h', add word h = Ok h' /\ trie (fun l => W l \/ (l = word /\ l <> [])) h' /\ no_fails h'.
Proof.
  intros Ht Hnf. destruct word as [|c w]; cbn [add].
  { exists h. split; [done|]. split; [|done]. destruct Ht as [H1 H2 H3 H4 H5 H6]. split; try done.
    - intros l [?|[-> ?]]; [auto|done].
    - intros l n Hn. rewrite (H6 l n Hn). naive_solver. }
  set (word := c :: w) in *.
  destruct (add_loop_spec W word h root 0 Ht Hnf (tr_root _ _ Ht) eq_refl) as (h1 & -> & Ht1 & Hnf1 & Hin).
  cbn [obind app root] in *. destruct (deref_dom h1 word Hin) as (n & Hn & ->). cbn [obind].
  eexists. split; [done|]. set (h2 := <[word := _]> h1).
  assert (Hdom : dom h2 = dom h1) by (unfold h2; rewrite dom_insert_L; set_solver).
  assert (Hlk : forall l m, h2 !! l = Some m -> (l = word /\ m = mkNode (children n) (fail n) (depth n) true) \/ (l <> word /\ h1 !! l = Some m)).
  { intros l m. unfold h2. rewrite lookup_insert_Some. naive_solver. }
  split; [|intros l m [[-> ->]|[_ H]]%Hlk; [simpl; by eapply Hnf1|by eapply Hnf1]].
  destruct Ht1 as [H1 H2 H3 H4 H5 H6]. split; rewrite ?Hdom; try done.
  - intros l [?|[-> _]]; [auto|done].
  - intros l m [[-> ->]|[_ H]]%Hlk; [by apply (H4 word n)|eauto].
  - intros l m d x [[-> ->]|[_ H]]%Hlk; rewrite ?Hdom; [by apply (H5 word n)|eauto].
  - intros l m [[-> ->]|[Hl H]]%Hlk; simpl; [by split; [split; [right|]|]|].
    rewrite (H6 l m H). naive_solver.
Qed.

Definition is_word (words : list (list Z)) (l : loc) : Prop := l ∈ words /\ l <> [].

Lemma add_all_spec words : forall W h, trie W h -> no_fails h ->
  exists h', add_all words h = Ok h' /\ trie (fun l => W l \/ is_word words l) h' /\ no_fails h'.
Proof.
  induction words as [|w words IH]; intros W h Ht Hnf; cbn [add_all].
  - exists h. split; [done|]. split; [|done]. destruct Ht as [H1 H2 H3 H4 H5 H6]. split; try done.
    + intros l [?|[Hl _]]; [auto|set_solver].
    + intros l n Hn. rewrite (H6 l n Hn). unfold is_word. set_solver.
  - destruct (ac_add_spec W w h Ht Hnf) as (h1 & -> & Ht1 & Hnf1). cbn [obind].
    destruct (IH _ h1 Ht1 Hnf1) as (h2 & -> & Ht2 & Hnf2). exists h2. split; [done|]. split; [|done].
    destruct Ht2 as [H1 H2 H3 H4 H5 H6]. split; try done.
    + intros l Hl. apply H3. unfold is_word in *. set_solver.
    + intros l n Hn. rewrite (H6 l n Hn). unfold is_word. set_solver.
Qed.

(** ** Failure links *)

Section links.
Context (W : loc -> Prop) (N : gset loc).

(** A trie with the nodes [N] under construction *)
Record building (h : heap) : Prop := {
  bu_trie : trie W h;
  bu_dom : dom h = N;
  bu_root n : h !! root = Some n -> fail n = None;
}.

(** The failure link of [l] is set, and to the longest proper suffix that is a node. *)
Definition linked (h : heap) (l : loc) : Prop :=
  exists n, h !! l = Some n /\ fail n = Some (lsuf N (tail l)).

Lemma N_root h : building h -> [] ∈ N.
Proof. intros H. rewrite <- (bu_dom h H). apply (tr_root _ _ (bu_trie h H)). Qed.

Lemma N_prefix h l c : building h -> l ++ [c] ∈ N -> l ∈ N.
Proof. intros H. rewrite <- (bu_dom h H). apply (tr_prefix _ _ (bu_trie h H)). Qed.

Lemma N_prefix_of h x y : building h -> x ∈ N -> y `prefix_of` x -> y ∈ N.
Proof.
  intros H Hx [k ->]. revert Hx. induction k as [|c k IH] using rev_ind; [by rewrite app_nil_r|].
  rewrite app_assoc. intros Hx. by apply IH, (N_prefix h _ c).
Qed.

(** A path is shorter than the number of nodes. *)
Lemma N_length h l : building h -> l ∈ N -> length l < size h.
Proof.
  intros H Hl. rewrite <- (size_dom h), (bu_dom h H).
  set (ps := (fun i => take i l) <$> seq 0 (S (length l))).
  assert (Hnd : NoDup ps).
  { apply NoDup_fmap_2_strong; [|apply NoDup_seq]. intros i j Hi%elem_of_seq Hj%elem_of_seq E.
    apply (f_equal length) in E. rewrite !length_take in E. lia. }
  assert (Hsub : list_to_set ps ⊆ N).
  { intros x (i & -> & _)%elem_of_list_to_set%list_elem_of_fmap. eapply N_prefix_of; [done|done|].
    exists (drop i l). by rewrite take_drop. }
  apply subseteq_size in Hsub. rewrite size_list_to_set in Hsub by done.
  unfold ps in Hsub. rewrite length_fmap, length_seq in Hsub. lia.
Qed.

Lemma child_lookup h l n c : building h -> h !! l = Some n ->
  children n !! c = if decide (l ++ [c] ∈ N) then Some (l ++ [c]) else None.
Proof. intros H Hn. rewrite (tr_child_dec _ _ _ _ _ (bu_trie h H) Hn). by rewrite (bu_dom h H). Qed.

Lemma fail_loop_spec h key : building h -> forall fuel cur, length cur < fuel -> cur ∈ N ->
  (forall l, l ∈ N -> l <> [] -> length l <= length cur -> linked h l) ->
  fail_loop fuel h cur key = Ok (if decide (cur = []) then [] else extend N key (nodes_of N (tail cur))).
Proof.
  intros H. pose proof (N_root h H) as Hr.
  induction fuel as [|fuel IH]; intros cur Hf Hcur Hl; [lia|]. cbn [fail_loop].
  destruct (decide (cur = [])) as [->|Hne].
  - destruct (deref_dom h []) as (n & Hn & ->); [apply (tr_root _ _ (bu_trie h H))|].
    cbn [obind]. by rewrite (bu_root h H n Hn).
  - destruct (Hl cur Hcur Hne ltac:(lia)) as (n & Hn & Hfn). unfold deref at 1. rewrite Hn. cbn [obind].
    rewrite Hfn. destruct (nodes_of_lsuf N Hr (tail cur)) as (Hno & HfN & _).
    set (f := lsuf N (tail cur)) in *.
    destruct (deref_dom h f) as (fn & Hfn' & ->); [by rewrite (bu_dom h H)|]. cbn [obind].
    rewrite (child_lookup h f fn key H Hfn'), <- Hno.
    assert (Hlen : length f < length cur) by (by apply lsuf_tail_shorter).
    destruct (decide (f = [])) as [Ef|Hfne].
    + rewrite Ef, nodes_of_nil by done. cbn [extend app]. destruct (decide ([key] ∈ N)); [done|].
      rewrite IH; [by rewrite decide_True|simpl; lia|done|]. intros l Hl1 Hl2 Hl3. simpl in Hl3. destruct l; [done|simpl in Hl3; lia].
    + rewrite (nodes_of_node N Hr f HfN Hfne). cbn [extend]. destruct (decide (f ++ [key] ∈ N)); [done|].
      rewrite IH; [|lia|done|intros l ? ? ?; apply Hl; [done|done|lia]].
      rewrite decide_False by done. by rewrite (proj1 (nodes_of_lsuf N Hr (tail f))).
Qed.

Lemma fail_target h key cur : building h -> cur ∈ N -> cur <> [] ->
  (forall l, l ∈ N -> l <> [] -> length l <= length cur -> linked h l) ->
  fail_loop (S (size h)) h cur key = Ok (lsuf N (tail (cur ++ [key]))).
Proof.
  intros H Hcur Hne Hl. rewrite (fail_loop_spec h key H); [|by apply Nat.lt_lt_succ_r, N_length|done|done].
  rewrite decide_False by done. destruct cur as [|c cur]; [done|]. cbn [app tail].
  f_equal. symmetry. apply lsuf_snoc; [by eapply N_root|]. intros l d. by apply (N_prefix h).
Qed.

(** Setting a link of a node other than the root *)
Lemma set_fail_spec h l f : building h -> l ∈ N -> l <> [] ->
  exists h', set_fail l f h = Ok h' /\ building h' /\
    (exists n, h' !! l = Some n /\ fail n = Some f) /\
    (forall x, x <> l -> h' !! x = h !! x).
Proof.
  intros H Hl Hne. unfold set_fail. destruct (deref_dom h l) as (n & Hn & ->); [by rewrite (bu_dom h H)|].
  cbn [obind]. eexists. split; [done|]. set (h' := <[l := _]> h).
  assert (Hdom : dom h' = dom h) by (unfold h'; rewrite dom_insert_L; apply elem_of_dom_2 in Hn; set_solver).
  assert (Hlk : forall x m, h' !! x = Some m -> exists m0, h !! x = Some m0 /\ children m = children m0 /\
                  depth m = depth m0 /\ end_ m = end_ m0).
  { intros x m. unfold h'. rewrite lookup_insert_Some. intros [[<- <-]|[_ ?]]; [by exists n|by exists m]. }
  destruct H as [[H1 H2 H3 H4 H5 H6] Hd Hr]. split; [|split].
  - split; [split; rewrite ?Hdom; try done| |].
    + intros x m (m0 & Hm0 & _ & -> & _)%Hlk. eauto.
    + intros x m c y (m0 & Hm0 & -> & _ & _)%Hlk. rewrite ?Hdom. eauto.
    + intros x m (m0 & Hm0 & _ & _ & ->)%Hlk. eauto.
    + by rewrite Hdom.
    + intros m. unfold h'. rewrite lookup_insert_ne by done. apply Hr.
  - eexists. unfold h'. by rewrite lookup_insert_eq.
  - intros x Hx. unfold h'. by rewrite lookup_insert_ne.
Qed.

Lemma linked_other h h' l x : (forall x, x <> l -> h' !! x = h !! x) -> linked h' l -> linked h x -> linked h' x.
Proof.
  intros Heq Hl (n & Hn & Hf). destruct (decide (x = l)) as [->|Hx]; [done|].
  exists n. by rewrite Heq.
Qed.

(** The children of a node that are still to be linked *)
Definition kids_ok (nd : loc) (kids : list (Z * loc)) : Prop :=
  Forall (fun p => p.2 = nd ++ [p.1] /\ p.2 ∈ N) kids.

Lemma children_loop_spec nd kids : nd ∈ N -> nd <> [] -> kids_ok nd kids -> forall h nodes, building h ->
  (forall l, l ∈ N -> l <> [] -> length l <= length nd -> linked h l) ->
  exists h', children_loop h nd kids nodes = Ok (h', nodes ++ kids.*2) /\ building h' /\
    Forall (fun p => linked h' p.2) kids /\ (forall x, linked h x -> linked h' x).
Proof.
  intros Hnd Hne. induction 1 as [|[key child] kids [Hc HcN] Hk IH]; intros h nodes H Hl; cbn [children_loop].
  { exists h. by rewrite app_nil_r. }
  simpl in Hc, HcN. subst child.
  rewrite (fail_target h key nd H Hnd Hne Hl). cbn [obind].
  destruct (set_fail_spec h (nd ++ [key]) (lsuf N (tail (nd ++ [key]))) H HcN) as (h1 & -> & H1 & Hlk & Heq);
    [by destruct nd|]. cbn [obind].
  pose proof (fun x => linked_other h h1 _ x Heq Hlk) as Hoth.
  destruct (IH h1 (nodes ++ [nd ++ [key]]) H1) as (h' & -> & H' & Hf & Hmono).
  { intros l ? ? ?. by apply Hoth, Hl. }
  exists h'. rewrite <- app_assoc. split; [done|]. split; [done|]. split; [constructor; [by apply Hmono|done]|].
  intros x Hx. by apply Hmono, Hoth.
Qed.

Lemma root_loop_spec kids : kids_ok root kids -> forall h nodes, building h ->
  exists h', root_loop h kids nodes = Ok (h', nodes ++ kids.*2) /\ building h' /\
    Forall (fun p => linked h' p.2) kids /\ (forall x, linked h x -> linked h' x).
Proof.
  induction 1 as [|[key child] kids [Hc HcN] Hk IH]; intros h nodes H; cbn [root_loop].
  { exists h. by rewrite app_nil_r. }
  simpl in Hc, HcN. subst child.
  destruct (set_fail_spec h [key] root H HcN) as (h1 & -> & H1 & Hlk & Heq); [done|]. cbn [obind].
  assert (Hlk1 : linked h1 [key]).
  { destruct Hlk as (n & Hn & Hf). exists n. split; [done|]. rewrite Hf. f_equal. simpl.
    unfold lsuf. by rewrite nodes_of_nil by (by eapply N_root). }
  destruct (IH h1 (nodes ++ [[key]]) H1) as (h' & -> & H' & Hf & Hmono).
  exists h'. rewrite <- app_assoc. split; [done|]. split; [done|]. split; [constructor; [by apply Hmono|done]|].
  intros x Hx. apply Hmono. by eapply linked_other.
Qed.

(** ** Breadth-first order *)

Record queue_inv (h : heap) (queue : list loc) : Prop := {
  qi_nodes x : x ∈ queue -> x ∈ N /\ x <> [] /\ linked h x;
  qi_levels : exists d a b, queue = a ++ b /\ Forall (fun x => length x = d) a /\ Forall (fun x => length x = S d) b;
  qi_nodup : NoDup queue;
  qi_antichain x y : x ∈ queue -> y ∈ queue -> x `prefix_of` y -> x = y;
  qi_rest x : x ∈ N -> x <> [] -> linked h x \/ exists y, y ∈ queue /\ y `prefix_of` x /\ y <> x;
}.

Lemma qi_head_shortest h nd queue x : queue_inv h (nd :: queue) -> x ∈ nd :: queue -> length nd <= length x.
Proof.
  intros H Hx. destruct (qi_levels _ _ H) as (d & a & b & Hq & Ha & Hb). rewrite Hq in Hx.
  rewrite Forall_forall in Ha, Hb. apply elem_of_app in Hx.
  assert (length nd = d \/ (a = [] /\ length nd = S d)).
  { destruct a as [|a0 a]; simpl in Hq; [|left; injection Hq as -> _; apply Ha; left].
    right. split; [done|]. apply Hb. rewrite <- Hq. left. }
  destruct Hx as [Hx|Hx]; [specialize (Ha _ Hx)|specialize (Hb _ Hx)].
  - destruct H0 as [|[-> _]]; [lia|set_solver].
  - lia.
Qed.

Lemma proper_prefix_step (x y : loc) : x `prefix_of` y -> x <> y -> exists c, x ++ [c] `prefix_of` y.
Proof.
  intros [k ->] Hne. destruct k as [|c k]; [by rewrite app_nil_r in Hne|]. exists c, k.
  by rewrite <- app_assoc.
Qed.

Definition unprocessed (queue : list loc) : gset loc := filter (fun x => Exists (fun y => y `prefix_of` x) queue) N.

Lemma elem_unprocessed queue x : x ∈ unprocessed queue <-> x ∈ N /\ exists y, y ∈ queue /\ y `prefix_of` x.
Proof. unfold unprocessed. rewrite elem_of_filter, Exists_exists. naive_solver. Qed.

(** All children of a node, in whatever order *)
Definition all_kids (nd : loc) (kids : list (Z * loc)) : Prop :=
  kids_ok nd kids /\ NoDup (kids.*2) /\ forall c, nd ++ [c] ∈ N -> nd ++ [c] ∈ kids.*2.

Lemma kids_elem nd kids x : kids_ok nd kids -> x ∈ kids.*2 -> exists c, x = nd ++ [c] /\ x ∈ N.
Proof.
  intros Hk ([c y] & -> & Hin)%list_elem_of_fmap. unfold kids_ok in Hk. rewrite Forall_forall in Hk.
  destruct (Hk _ Hin) as [? ?]. by exists c.
Qed.

Lemma children_all_kids ord h nd n : (forall l, ord l ≡ₚ l) -> building h -> h !! nd = Some n ->
  all_kids nd (ord (map_to_list (children n))).
Proof.
  intros Hord H Hn. set (kids := ord _).
  assert (Hin : forall c x, (c, x) ∈ kids <-> x = nd ++ [c] /\ x ∈ N).
  { intros c x. unfold kids. rewrite Hord, elem_of_map_to_list, <- (bu_dom h H).
    apply (tr_children W h (bu_trie h H) nd n c x Hn). }
  assert (Hk : kids_ok nd kids) by (apply Forall_forall; intros [c x] Hx; by apply Hin).
  split; [done|]. split.
  - apply NoDup_fmap_2_strong.
    + intros [c x] [d y] [-> _]%Hin [-> _]%Hin E. simpl in E. apply app_inj_2 in E as [_ [= ->]]; [|done]. done.
    + unfold kids. rewrite Hord. apply NoDup_map_to_list.
  - intros c Hc. apply list_elem_of_fmap. exists (c, nd ++ [c]). split; [done|]. by apply Hin.
Qed.

(** The children of a node of the queue. *)
Lemma kids_linked h' nd kids x : kids_ok nd kids -> Forall (fun p => linked h' p.2) kids -> x ∈ kids.*2 ->
  exists c, x = nd ++ [c] /\ x ∈ N /\ linked h' x.
Proof.
  intros Hk Hkl Hx. destruct (kids_elem nd kids x Hk Hx) as (c & -> & HN). exists c. split; [done|]. split; [done|].
  apply list_elem_of_fmap in Hx as (p & -> & Hp). rewrite Forall_forall in Hkl. by apply Hkl.
Qed.

(** The rest of the queue is not comparable with the first node, nor with its children. *)
Lemma queue_not_prefix h nd queue y : queue_inv h (nd :: queue) -> y ∈ queue -> ~ y `prefix_of` nd.
Proof.
  intros Hq Hy Hp. pose proof (qi_nodup _ _ Hq) as Hnd. apply NoDup_cons in Hnd as [Hndq Hnd].
  apply Hndq. rewrite <- (qi_antichain _ _ Hq y nd); [done|by right|left|done].
Qed.

Lemma queue_incomparable h nd queue y c : queue_inv h (nd :: queue) -> y ∈ queue ->
  ~ y `prefix_of` (nd ++ [c]) /\ ~ (nd ++ [c]) `prefix_of` y.
Proof.
  intros Hq Hy. pose proof (qi_nodup _ _ Hq) as Hnd. apply NoDup_cons in Hnd as [Hndq Hnd]. split.
  - intros [k E]. destruct k as [|d k _] using rev_ind.
    + rewrite app_nil_r in E. apply Hndq. rewrite (qi_antichain _ _ Hq nd y); [done|left|by right|].
      rewrite <- E. by exists [c].
    + rewrite app_assoc in E. apply app_inj_2 in E as [E _]; [|done].
      apply (queue_not_prefix h nd queue y Hq Hy). by exists k.
  - intros [k ->]. apply Hndq. rewrite (qi_antichain _ _ Hq nd (((nd ++ [c]) ++ k))); [done|left|by right|].
    exists ([c] ++ k). by rewrite app_assoc.
Qed.

(** One round of the search keeps the invariant of the queue. *)
Lemma queue_inv_step h h' nd queue kids : building h -> queue_inv h (nd :: queue) -> all_kids nd kids ->
  Forall (fun p => linked h' p.2) kids -> (forall x, linked h x -> linked h' x) ->
  queue_inv h' (queue ++ kids.*2).
Proof.
  intros Hb Hq (Hk & Hknd & Hkall) Hkl Hmono.
  pose proof (fun x => kids_linked h' nd kids x Hk Hkl) as Hkid.
  destruct (qi_nodes _ _ Hq nd ltac:(left)) as (HndN & Hndne & Hndl).
  pose proof (qi_nodup _ _ Hq) as Hnd. apply NoDup_cons in Hnd as [Hndq Hnd].
  pose proof (fun y c => queue_incomparable h nd queue y c Hq) as Hnokid.
  split.
  + intros x [Hx|Hx]%elem_of_app.
    * destruct (qi_nodes _ _ Hq x ltac:(by right)) as (? & ? & ?). auto.
    * destruct (Hkid x Hx) as (c & -> & ? & ?). split; [done|]. split; [by destruct nd|done].
  + destruct (qi_levels _ _ Hq) as (d & a & b & E & Ha & Hbb).
    assert (Hkd : forall d, length nd = d -> Forall (fun x => length x = S d) (kids.*2)).
    { intros d0 <-. apply Forall_forall. intros x Hx. destruct (Hkid x Hx) as (c & -> & _).
      rewrite length_app. simpl. lia. }
    destruct a as [|a0 a]; simpl in E.
    * destruct b as [|b0 b]; [done|]. injection E as <- ->. apply Forall_cons in Hbb as [Hb0 Hbb].
      exists (S d), b, (kids.*2). split; [done|]. split; [done|]. by apply Hkd.
    * injection E as <- ->. apply Forall_cons in Ha as [Ha0 Ha].
      exists d, a, (b ++ kids.*2). split; [by rewrite app_assoc|]. split; [done|].
      apply Forall_app. split; [done|]. by apply Hkd.
  + apply NoDup_app. split; [done|]. split; [|done]. intros x Hx Hx'.
    destruct (Hkid x Hx') as (c & -> & _). by destruct (Hnokid _ c Hx) as [[] _].
  + intros x y [Hx|Hx]%elem_of_app [Hy|Hy]%elem_of_app Hp.
    * apply (qi_antichain _ _ Hq); [by right|by right|done].
    * destruct (Hkid y Hy) as (c & -> & _). by destruct (Hnokid x c Hx).
    * destruct (Hkid x Hx) as (c & -> & _). by destruct (Hnokid y c Hy).
    * destruct (Hkid x Hx) as (c & -> & _), (Hkid y Hy) as (d & -> & _).
      apply prefix_length_eq; [done|]. rewrite !length_app. done.
  + intros x HxN Hxne. destruct (qi_rest _ _ Hq x HxN Hxne) as [|(y & Hy & Hp & Hyx)]; [left; auto|].
    apply elem_of_cons in Hy as [->|Hy]; [|right; exists y; split; [set_solver|done]].
    destruct (proper_prefix_step nd x Hp Hyx) as (c & Hc).
    assert (Hin : nd ++ [c] ∈ kids.*2) by (apply Hkall; by eapply N_prefix_of).
    destruct (decide (nd ++ [c] = x)) as [<-|Hne].
    * left. by destruct (Hkid _ Hin) as (? & _ & _ & ?).
    * right. exists (nd ++ [c]). split; [set_solver|done].
Qed.

(** One step of the search: the head leaves the queue, its children join it. *)
Lemma queue_step h h' nd queue kids : building h -> queue_inv h (nd :: queue) -> all_kids nd kids ->
  Forall (fun p => linked h' p.2) kids -> (forall x, linked h x -> linked h' x) ->
  queue_inv h' (queue ++ kids.*2) /\ size (unprocessed (queue ++ kids.*2)) < size (unprocessed (nd :: queue)).
Proof.
  intros Hb Hq Hks Hkl Hmono. split; [by eapply queue_inv_step|]. destruct Hks as (Hk & Hknd & Hkall).
  pose proof (fun x => kids_linked h' nd kids x Hk Hkl) as Hkid.
  destruct (qi_nodes _ _ Hq nd ltac:(left)) as (HndN & Hndne & Hndl).
  pose proof (fun y => queue_not_prefix h nd queue y Hq) as Hnopre.
  apply subset_size. apply strict_spec. split.
  + intros x (HxN & y & Hy & Hp)%elem_unprocessed. apply elem_unprocessed. split; [done|].
    apply elem_of_app in Hy as [Hy|Hy]; [exists y; split; [by right|done]|].
    destruct (Hkid y Hy) as (c & -> & _). exists nd. split; [left|].
    etransitivity; [|exact Hp]. by exists [c].
  + intros Hsub. assert (Hin : nd ∈ unprocessed (nd :: queue)).
    { apply elem_unprocessed. split; [done|]. exists nd. split; [left|done]. }
    apply Hsub, elem_unprocessed in Hin as (_ & y & [Hy|Hy]%elem_of_app & Hp); [by apply (Hnopre y)|].
    destruct (Hkid y Hy) as (c & -> & _). apply prefix_length in Hp. rewrite length_app in Hp. simpl in Hp. lia.
Qed.

Lemma bfs_spec ord : (forall l, ord l ≡ₚ l) -> forall fuel h queue, building h -> queue_inv h queue ->
  size (unprocessed queue) < fuel ->
  exists h', bfs ord fuel h queue = Ok h' /\ building h' /\ forall x, x ∈ N -> x <> [] -> linked h' x.
Proof.
  intros Hord. induction fuel as [|fuel IH]; intros h queue Hb Hq Hf; [lia|]. cbn [bfs].
  destruct queue as [|nd queue].
  { exists h. split; [done|]. split; [done|]. intros x Hx Hne.
    destruct (qi_rest _ _ Hq x Hx Hne) as [|(y & Hy & _)]; [done|set_solver]. }
  destruct (qi_nodes _ _ Hq nd ltac:(left)) as (HndN & Hndne & _).
  destruct (deref_dom h nd) as (n & Hn & ->); [by rewrite (bu_dom h Hb)|]. cbn [obind].
  pose proof (children_all_kids ord h nd n Hord Hb Hn) as Hkids.
  destruct (children_loop_spec nd _ HndN Hndne (proj1 Hkids) h queue Hb) as (h' & -> & Hb' & Hl & Hmono).
  { intros l HlN Hlne Hlen. destruct (qi_rest _ _ Hq l HlN Hlne) as [|(y & Hy & Hp & Hyl)]; [done|].
    pose proof (qi_head_shortest _ _ _ _ Hq Hy). apply prefix_length_eq in Hp; [done|lia]. }
  cbn [obind]. destruct (queue_step h h' nd queue _ Hb Hq Hkids Hl Hmono) as [Hq' Hlt].
  destruct (IH h' _ Hb' Hq') as (h'' & -> & H); [lia|]. by exists h''.
Qed.

Lemma build_spec ord h : (forall l, ord l ≡ₚ l) -> building h ->
  exists h', build ord h = Ok h' /\ building h' /\ forall x, x ∈ N -> x <> [] -> linked h' x.
Proof.
  intros Hord Hb. unfold build. destruct (deref_dom h root) as (n & Hn & ->); [apply (tr_root _ _ (bu_trie h Hb))|].
  cbn [obind]. pose proof (children_all_kids ord h root n Hord Hb Hn) as (Hk & Hnd & Hall).
  destruct (root_loop_spec _ Hk h [] Hb) as (h1 & -> & Hb1 & Hl & _). cbn [obind app].
  assert (Hkid : forall x, x ∈ (ord (map_to_list (children n))).*2 -> exists c, x = [c] /\ x ∈ N /\ linked h1 x).
  { intros x Hx. destruct (kids_elem root _ x Hk Hx) as (c & -> & HN). exists c. split; [done|]. split; [done|].
    apply list_elem_of_fmap in Hx as (p & -> & Hp). rewrite Forall_forall in Hl. by apply Hl. }
  apply bfs_spec; [done|done| |].
  - split.
    + intros x Hx. destruct (Hkid x Hx) as (c & -> & ? & ?). done.
    + exists 1, (ord (map_to_list (children n))).*2, []. split; [by rewrite app_nil_r|]. split; [|done].
      apply Forall_forall. intros x Hx. by destruct (Hkid x Hx) as (c & -> & _).
    + done.
    + intros x y Hx Hy Hp. destruct (Hkid x Hx) as (c & -> & _), (Hkid y Hy) as (d & -> & _).
      by apply prefix_length_eq.
    + intros x HxN Hxne. destruct x as [|c x]; [done|].
      assert (Hc : [c] ∈ (ord (map_to_list (children n))).*2).
      { apply (Hall c). eapply N_prefix_of; [exact Hb|exact HxN|]. by exists x. }
      destruct (decide (x = [])) as [->|Hx]; [left; by destruct (Hkid _ Hc) as (? & _ & _ & ?)|].
      right. exists [c]. split; [done|]. split; [by exists x|]. intros [= <-]. done.
  - rewrite <- (size_dom h1), (bu_dom h1 Hb1). apply Nat.lt_succ_r, subseteq_size. intros x.
    rewrite elem_unprocessed. tauto.
Qed.
End links.

(** ** Searching *)

#[export] Instance is_word_dec words l : Decision (is_word words l).
Proof. unfold is_word. apply _. Defined.

(** The words that end at the end of [t], longest first *)
Definition words_at (words : list (list Z)) (t : list Z) : list (list Z) := filter (is_word words) (tails t).

Definition scope_of (stop : Z) (w : list Z) : scope := mkScope (stop - Z.of_nat (length w)) stop.

(** What [find] returns: for each position the words that end there *)
Definition occurrences (words : list (list Z)) (chars : list Z) : list scope :=
  seq 1 (length chars) ≫= fun j => scope_of (Z.of_nat j) <$> words_at words (take j chars).

Lemma bind_fmap {A B C} (f : A -> B) (g : B -> list C) (l : list A) : (f <$> l) ≫= g = l ≫= fun x => g (f x).
Proof. induction l as [|x l IH]; [done|]. by rewrite fmap_cons, !bind_cons, IH. Qed.

Section searching.
Context (words : list (list Z)) (N : gset loc) (h : heap).
Context (Hb : building (is_word words) N h) (Hlinks : forall x, x ∈ N -> x <> [] -> linked N h x).

Lemma next_loop_spec char : forall fuel cur, length cur < fuel -> cur ∈ N ->
  let e := if decide (cur = []) then [] else extend N char (nodes_of N (tail cur)) in
  next_loop fuel h cur char = Ok (e, if decide (e = []) then None else Some e).
Proof using Hb Hlinks.
  pose proof (N_root _ _ h Hb) as Hr.
  induction fuel as [|fuel IH]; intros cur Hf Hcur; [lia|]. cbn [next_loop].
  change root with (@nil Z) in *. destruct (decide (cur = [])) as [->|Hne]; [done|].
  destruct (Hlinks cur Hcur Hne) as (n & Hn & Hfn). unfold deref at 1. rewrite Hn. cbn [obind]. rewrite Hfn.
  destruct (nodes_of_lsuf N Hr (tail cur)) as (Hno & HfN & _). set (f := lsuf N (tail cur)) in *.
  destruct (deref_dom h f) as (fn & Hfn' & ->); [by rewrite (bu_dom _ _ h Hb)|]. cbn [obind].
  rewrite (child_lookup _ _ h f fn char Hb Hfn'), <- Hno.
  assert (Hlen : length f < length cur) by (by apply lsuf_tail_shorter).
  assert (Hcons : nodes_of N f = f :: (if decide (f = []) then [] else nodes_of N (tail f))).
  { destruct (decide (f = [])) as [->|Hfne]; [by apply nodes_of_nil|].
    rewrite nodes_of_node by done. by rewrite (proj1 (nodes_of_lsuf N Hr (tail f))). }
  rewrite Hcons. cbn [extend]. destruct (decide (f ++ [char] ∈ N)) as [Hin|Hin].
  { by rewrite decide_False by (by destruct f). }
  rewrite (IH f) by (done || lia). by destruct (decide (f = [])).
Qed.

Lemma report_loop_spec stop : forall fuel child, length child < fuel -> child ∈ N ->
  report_loop fuel h child stop = Ok (scope_of stop <$> filter (is_word words) (nodes_of N child)).
Proof using Hb Hlinks.
  pose proof (N_root _ _ h Hb) as Hr.
  induction fuel as [|fuel IH]; intros child Hf Hc; [lia|]. cbn [report_loop].
  change root with (@nil Z) in *. destruct (decide (child = [])) as [->|Hne].
  { rewrite nodes_of_nil by done. rewrite filter_cons_False; [done|]. by intros [_ ?]. }
  destruct (Hlinks child Hc Hne) as (n & Hn & Hfn). unfold deref at 1. rewrite Hn. cbn [obind]. rewrite Hfn.
  destruct (nodes_of_lsuf N Hr (tail child)) as (Hno & HfN & _).
  rewrite IH; [|pose proof (lsuf_tail_shorter N Hr child Hne); lia|done]. cbn [obind].
  rewrite (nodes_of_node N Hr child Hc Hne), filter_cons.
  pose proof (tr_end _ _ (bu_trie _ _ h Hb) child n Hn) as He.
  destruct (end_ n).
  - rewrite decide_True by (by destruct He as [He _]; destruct (He eq_refl)). cbn [fmap list_fmap]. f_equal.
    f_equal. unfold scope_of. by rewrite (tr_depth _ _ (bu_trie _ _ h Hb) child n Hn).
  - rewrite decide_False; [done|]. intros Hw. by destruct He as [_ He]; specialize (He (conj Hw Hne)).
Qed.

(** All words are nodes, so looking at the nodes among the suffixes is enough. *)
Lemma words_at_nodes t : filter (is_word words) (nodes_of N t) = words_at words t.
Proof using Hb.
  unfold nodes_of, words_at. rewrite list_filter_filter. apply filter_ext_in, Forall_forall.
  intros x _. split; [tauto|]. intros Hw. split; [done|]. rewrite <- (bu_dom _ _ h Hb).
  by apply (tr_words _ _ (bu_trie _ _ h Hb)).
Qed.

Lemma find_loop_spec chars : forall t i, i = Z.of_nat (length t) ->
  find_loop h (lsuf N t) i chars =
  Ok (seq 1 (length chars) ≫= fun j => scope_of (i + Z.of_nat j) <$> words_at words (t ++ take j chars)).
Proof using Hb Hlinks.
  pose proof (N_root _ _ h Hb) as Hr.
  induction chars as [|c chars IH]; intros t i Hi; [done|]. cbn [find_loop].
  destruct (nodes_of_lsuf N Hr t) as (Hno & HN & _).
  destruct (deref_dom h (lsuf N t)) as (n & Hn & ->); [by rewrite (bu_dom _ _ h Hb)|]. cbn [obind].
  assert (Hnext : lsuf N (t ++ [c]) = extend N c (nodes_of N (lsuf N t))).
  { rewrite Hno. apply lsuf_snoc; [done|]. intros l d. by apply (N_prefix (is_word words) N h). }
  set (cur' := lsuf N (t ++ [c])) in *.
  assert (Hstep : (match children n !! c with
         | Some child => Ok (child, Some child)
         | None => next_loop (S (size h)) h (lsuf N t) c
         end) = Ok (cur', if decide (cur' = []) then None else Some cur')).
  { rewrite (child_lookup _ _ h _ n c Hb Hn). rewrite Hnext.
    assert (Hcons : nodes_of N (lsuf N t) = lsuf N t :: (if decide (lsuf N t = []) then [] else nodes_of N (tail (lsuf N t)))).
    { destruct (decide (lsuf N t = [])) as [->|Hfne]; [by apply nodes_of_nil|].
      rewrite nodes_of_node by done. by rewrite (proj1 (nodes_of_lsuf N Hr (tail (lsuf N t)))). }
    rewrite Hcons. cbn [extend]. destruct (decide (lsuf N t ++ [c] ∈ N)) as [Hin|Hin].
    - by rewrite decide_False by (by destruct (lsuf N t)).
    - rewrite next_loop_spec; [|by apply Nat.lt_lt_succ_r, (N_length (is_word words) N h)|done].
      by destruct (decide (lsuf N t = [])). }
  rewrite Hstep. cbn [obind].
  destruct (nodes_of_lsuf N Hr (t ++ [c])) as (Hno' & HN' & _). fold cur' in Hno', HN'.
  assert (Hrep : (match (if decide (cur' = []) then None else Some cur') with
             | Some child => report_loop (S (size h)) h child (i + 1)
             | None => Ok []
             end) = Ok (scope_of (i + 1) <$> words_at words (t ++ [c]))).
  { rewrite <- words_at_nodes, <- Hno'. destruct (decide (cur' = [])) as [->|Hne].
    - rewrite nodes_of_nil, filter_cons_False by (done || by intros [_ ?]). done.
    - apply report_loop_spec; [by apply Nat.lt_lt_succ_r, (N_length (is_word words) N h)|done]. }
  rewrite Hrep. cbn [obind].
  specialize (IH (t ++ [c]) (i + 1)%Z ltac:(rewrite length_app; simpl; lia)). fold cur' in IH.
  rewrite IH. cbn [obind length seq].
  rewrite bind_cons. apply (f_equal Ok), (f_equal2 app).
  - cbn [take]. by rewrite take_0.
  - rewrite <- (fmap_S_seq 1), bind_fmap. apply list_bind_ext; [|done]. intros j. cbn [take].
    rewrite <- app_assoc. cbn [app]. f_equal. f_equal. lia.
Qed.
End searching.

Lemma automaton_built ord words : (forall l, ord l ≡ₚ l) ->
  exists h N, new_automaton ord words = Ok h /\ building (is_word words) N h /\
    forall x, x ∈ N -> x <> [] -> linked N h x.
Proof.
  intros Hord. unfold new_automaton.
  destruct (add_all_spec words _ _ trie_new) as (h & -> & Ht & Hnf).
  { intros l n Hn. unfold new_heap in Hn. apply lookup_singleton_Some in Hn as [<- <-]. done. }
  cbn [obind]. assert (Hb : building (is_word words) (dom h) h).
  { split; [|done|intros n; apply Hnf]. destruct Ht as [H1 H2 H3 H4 H5 H6]. split; try done.
    - intros l Hl. apply H3. by right.
    - intros l n Hn. rewrite (H6 l n Hn). tauto. }
  destruct (build_spec _ _ ord h Hord Hb) as (h' & -> & Hb' & Hl). by exists h', (dom h).
Qed.

Lemma find_occurrences ord words chars : (forall l, ord l ≡ₚ l) ->
  exists h, new_automaton ord words = Ok h /\ find chars h = Ok (occurrences words chars).
Proof.
  intros Hord. destruct (automaton_built ord words Hord) as (h & N & -> & Hb & Hl).
  exists h. split; [done|]. unfold find. pose proof (N_root _ _ h Hb) as Hr.
  replace root with (lsuf N []) by (unfold lsuf; by rewrite nodes_of_nil).
  by rewrite (find_loop_spec words N h Hb Hl chars [] 0).
Qed.

(** ** Occurrences *)

Lemma elem_tails s t : s ∈ tails t <-> exists k, t = k ++ s.
Proof.
  induction t as [|c t IH]; cbn [tails].
  - rewrite list_elem_of_singleton. split; [intros ->; by exists []|]. intros (k & E).
    symmetry in E. by apply app_eq_nil in E as [_ ->].
  - rewrite elem_of_cons, IH. split.
    + intros [->|(k & ->)]; [by exists []|by exists (c :: k)].
    + intros ([|d k] & E); [by left|right]. injection E as _ ->. by exists k.
Qed.

Lemma tails_nodup t : NoDup (tails t).
Proof.
  induction t as [|c t IH]; cbn [tails]; [apply NoDup_singleton|]. constructor; [|done].
  rewrite elem_tails. intros (k & E). apply (f_equal length) in E. rewrite length_app in E. simpl in E. lia.
Qed.

Lemma tails_length_inj t s s' : s ∈ tails t -> s' ∈ tails t -> length s = length s' -> s = s'.
Proof. intros (k & ->)%elem_tails (k' & E)%elem_tails Hl. by apply app_inj_2 in E as [_ ->]. Qed.

Definition slice (chars : list Z) (i j : nat) : list Z := take (j - i) (drop i chars).

Lemma elem_occurrences words chars sc : sc ∈ occurrences words chars <->
  exists i j, i < j /\ j <= length chars /\ slice chars i j ∈ words /\ sc = mkScope (Z.of_nat i) (Z.of_nat j).
Proof.
  unfold occurrences. rewrite list_elem_of_bind. split.
  - intros (j & (w & -> & [[Hw Hne] (k & Hk)%elem_tails]%list_elem_of_filter)%list_elem_of_fmap & Hj%elem_of_seq).
    assert (Hl : j = length k + length w).
    { apply (f_equal length) in Hk. rewrite length_take, length_app in Hk. lia. }
    exists (length k), j. split; [destruct w; [done|simpl in *; lia]|]. split; [lia|].
    assert (Hs : slice chars (length k) j = w).
    { unfold slice. rewrite take_drop_commute.
      replace (length k + (j - length k)) with j by lia. rewrite Hk. by rewrite drop_app_length. }
    rewrite Hs. split; [done|]. unfold scope_of. f_equal. lia.
  - intros (i & j & Hij & Hj & Hw & ->). exists j. split; [|apply elem_of_seq; lia].
    apply list_elem_of_fmap. exists (slice chars i j).
    assert (Hl : length (slice chars i j) = j - i) by (unfold slice; rewrite length_take, length_drop; lia).
    split; [unfold scope_of; rewrite Hl; f_equal; lia|]. apply list_elem_of_filter. split.
    + split; [done|]. intros E. rewrite E in Hl. simpl in Hl. lia.
    + apply elem_tails. exists (take i chars). unfold slice.
      replace j with (i + (j - i)) at 1 by lia. by rewrite take_take_drop.
Qed.

Lemma occurrences_nodup words chars : NoDup (occurrences words chars).
Proof.
  unfold occurrences. apply NoDup_bind.
  - intros j j' sc _ _ (w & -> & _)%list_elem_of_fmap (w' & E & _)%list_elem_of_fmap.
    unfold scope_of in E. injection E as E1 E2. lia.
  - intros j _. apply NoDup_fmap_2_strong; [|apply NoDup_filter, tails_nodup].
    intros s s' [_ Hs]%list_elem_of_filter [_ Hs']%list_elem_of_filter E. unfold scope_of in E.
    injection E as E. eapply tails_length_inj; [done|done|lia].
  - apply NoDup_seq.
Qed.

(** C35: for all words and any iteration order of the child maps, building the automaton and
    searching a text with it does not panic or run on, and [find] reports each occurrence of a
    non-empty word in the text exactly once, and nothing else. *)
Theorem automaton_finds_all_occurrences ord words chars :
  (forall l, ord l ≡ₚ l) ->
  exists h scopes, new_automaton ord words = Ok h /\ find chars h = Ok scopes /\ NoDup scopes /\
    forall sc, sc ∈ scopes <->
      exists i j, i < j /\ j <= length chars /\ slice chars i j ∈ words /\ sc = mkScope (Z.of_nat i) (Z.of_nat j).
Proof.
  intros Hord. destruct (find_occurrences ord words chars Hord) as (h & Hh & Hf).
  exists h, (occurrences words chars). split; [done|]. split; [done|]. split; [apply occurrences_nodup|].
  apply elem_occurrences.
Qed.

(** The words [he], [she], [hers] in [ushers], with the runes of the letters *)
Lemma automaton_finds_all_occurrences_witness :
  exists h, new_automaton (fun l => l) [[104; 101]; [115; 104; 101]; [104; 101; 114; 115]]%Z = Ok h /\
    find [117; 115; 104; 101; 114; 115]%Z h = Ok [mkScope 1 4; mkScope 2 4; mkScope 2 6].
Proof.
  destruct (automaton_finds_all_occurrences (fun l => l) [[104; 101]; [115; 104; 101]; [104; 101; 114; 115]]%Z
    [117; 115; 104; 101; 114; 115]%Z) as (h & scopes & Hh & Hf & _); [done|].
  exists h. split; [done|]. rewrite Hf. vm_compute in Hh. injection Hh as <-. vm_compute in Hf. by injection Hf as <-.
Defined.
