(* ===== verification/Trie.v ===== *)
(** * [core/stringx/trie.go] and [core/stringx/replacer.go]

    Keyword filtering and replacement on top of the automaton.  Texts are the lists of their
    runes.  The keywords a trie reports come out of a Go map, in no particular order, and are
    a set here. *)

From S2P Require Import Prelude AhoCorasick.
Local Open Scope go_scope.

(** [chars[i:j]] and [chars[i] = c] with Go's bounds checks *)
Definition go_slice (chars : list Z) (i j : Z) : outcome (list Z) :=
  if ((0 <=? i) && (i <=? j) && (j <=? Z.of_nat (length chars)))%Z%bool
  then Ok (slice chars (Z.to_nat i) (Z.to_nat j)) else Panic "slice bounds out of range".

Definition set_rune (chars : list Z) (i : nat) (c : Z) : outcome (list Z) :=
  if i <? length chars then Ok (<[i := c]> chars) else Panic "index out of range".

(** ** [Trie] *)

Definition defaultMask : Z := 42.

Record trieNode := mkTrie { t_heap : heap; t_mask : Z }.

(** [NewTrie]; the mask is 0 without the option [WithMask] *)
Definition NewTrie (ord : list (Z * loc) -> list (Z * loc)) (words : list (list Z)) (mask : Z)
    : outcome trieNode :=
  let mask := if (mask =? 0)%Z then defaultMask else mask in
  h <~ new_automaton ord words ;; Ok (mkTrie h mask).

(** [collectKeywords] *)
Fixpoint collectKeywords (chars : list Z) (scopes : list scope) : outcome (gset (list Z)) :=
  match scopes with
  | [] => Ok ∅
  | v :: scopes =>
    k <~ go_slice chars (start v) (stop v) ;;
    ks <~ collectKeywords chars scopes ;;
    Ok ({[ k ]} ∪ ks)
  end.

(** [replaceWithAsterisk]: the loop from [i] over [n] runes *)
Fixpoint mask_loop (mask : Z) (n : nat) (chars : list Z) (i : nat) : outcome (list Z) :=
  match n with
  | 0 => Ok chars
  | S n => chars <~ set_rune chars i mask ;; mask_loop mask n chars (S i)
  end.

Definition replaceWithAsterisk (mask : Z) (chars : list Z) (v : scope) : outcome (list Z) :=
  mask_loop mask (Z.to_nat (stop v - start v)) chars (Z.to_nat (start v)).

Fixpoint replaceAll (mask : Z) (chars : list Z) (scopes : list scope) : outcome (list Z) :=
  match scopes with
  | [] => Ok chars
  | v :: scopes => chars <~ replaceWithAsterisk mask chars v ;; replaceAll mask chars scopes
  end.

(** [Filter] *)
Definition Filter (chars : list Z) (t : trieNode) : outcome (list Z * gset (list Z) * bool) :=
  if decide (chars = []) then Ok (chars, ∅, false)
  else
    scopes <~ find chars (t_heap t) ;;
    keywords <~ collectKeywords chars scopes ;;
    sentence <~ replaceAll (t_mask t) chars scopes ;;
    Ok (sentence, keywords, 0 <? size keywords).

(** [FindKeywords] *)
Definition FindKeywords (chars : list Z) (t : trieNode) : outcome (gset (list Z)) :=
  if decide (chars = []) then Ok ∅
  else scopes <~ find chars (t_heap t) ;; collectKeywords chars scopes.

(** ** [Replacer] *)

Definition replaceTimes : nat := 2.

Record replacer := mkReplacer { r_heap : heap; r_mapping : gmap (list Z) (list Z) }.

(** [NewReplacer]; [keys] is the order in which Go iterates over the mapping. *)
Definition NewReplacer (ord : list (Z * loc) -> list (Z * loc))
    (keys : list (list Z) -> list (list Z)) (mapping : gmap (list Z) (list Z)) : outcome replacer :=
  h <~ new_automaton ord (keys (map_to_list mapping).*1) ;; Ok (mkReplacer h mapping).

(** The comparison function of [doReplace], and the order it sorts by *)
Definition scope_less (a b : scope) : bool :=
  if (start a <? start b)%Z then true
  else if (start a =? start b)%Z then (stop b <? stop a)%Z
  else false.

Definition scope_le (a b : scope) : Prop := scope_less b a = false.

#[export] Instance scope_le_dec : RelDecision scope_le.
Proof. intros a b. unfold scope_le. apply _. Defined.

(** The loop of [doReplace]; what it writes, and at the end what is left *)
Fixpoint replace_loop (mapping : gmap (list Z) (list Z)) (chars : list Z) (index : Z)
    (scopes : list scope) : outcome (list Z) :=
  match scopes with
  | [] => if (index <? Z.of_nat (length chars))%Z then go_slice chars index (Z.of_nat (length chars)) else Ok []
  | scp :: scopes =>
    if (start scp <? index)%Z then replace_loop mapping chars index scopes
    else
      before <~ go_slice chars index (start scp) ;;
      key <~ go_slice chars (start scp) (stop scp) ;;
      rest <~ replace_loop mapping chars (stop scp) scopes ;;
      Ok (before ++ default [] (mapping !! key) ++ rest)
  end.

Definition doReplace (chars : list Z) (r : replacer) : outcome (list Z * bool) :=
  scopes <~ find chars (r_heap r) ;;
  match scopes with
  | [] => Ok (chars, false)
  | _ => out <~ replace_loop (r_mapping r) chars 0 (merge_sort scope_le scopes) ;; Ok (out, true)
  end.

Fixpoint replace_times (n : nat) (chars : list Z) (r : replacer) : outcome (list Z) :=
  match n with
  | 0 => Ok chars
  | S n =>
    x <~ doReplace chars r ;;
    let '(chars, replaced) := x in
    if negb replaced then Ok chars else replace_times n chars r
  end.

(** [Replace] *)
Definition Replace (chars : list Z) (r : replacer) : outcome (list Z) :=
  replace_times replaceTimes chars r.

(** ** Filtering masks exactly the occurrences *)

(** The runes of [chars] that an occurrence of a word covers *)
Definition covered (words : list (list Z)) (chars : list Z) (k : nat) : Prop :=
  exists i j, i <= k /\ k < j /\ j <= length chars /\ slice chars i j ∈ words.

Lemma go_slice_in chars i j : i <= j -> j <= length chars ->
  go_slice chars (Z.of_nat i) (Z.of_nat j) = Ok (slice chars i j).
Proof.
  intros Hi Hj. unfold go_slice. rewrite !Nat2Z.id.
  destruct (Z.leb_spec 0 (Z.of_nat i)); [|lia]. destruct (Z.leb_spec (Z.of_nat i) (Z.of_nat j)); [|lia].
  by destruct (Z.leb_spec (Z.of_nat j) (Z.of_nat (length chars))); [|lia].
Qed.

(** Scopes inside a text *)
Definition inside (n : nat) (sc : scope) : Prop :=
  exists i j, i < j /\ j <= n /\ sc = mkScope (Z.of_nat i) (Z.of_nat j).

Definition text_of (chars : list Z) (sc : scope) : list Z := slice chars (Z.to_nat (start sc)) (Z.to_nat (stop sc)).

Lemma collectKeywords_spec chars scopes : Forall (inside (length chars)) scopes ->
  exists ks, collectKeywords chars scopes = Ok ks /\ forall k, k ∈ ks <-> exists sc, sc ∈ scopes /\ k = text_of chars sc.
Proof.
  induction 1 as [|sc scopes (i & j & Hij & Hj & ->) _ (ks & Hks & Hin)]; cbn [collectKeywords].
  { exists ∅. split; [done|]. set_solver. }
  cbn [start stop]. rewrite go_slice_in by lia. cbn [obind]. rewrite Hks. cbn [obind]. eexists. split; [done|].
  intros k. rewrite elem_of_union, elem_of_singleton, Hin.
  assert (Ht : text_of chars (mkScope (Z.of_nat i) (Z.of_nat j)) = slice chars i j).
  { unfold text_of. simpl. by rewrite !Nat2Z.id. }
  split.
  - intros [->|(sc & ? & ->)]; [exists (mkScope (Z.of_nat i) (Z.of_nat j)); split; [left|done]|].
    exists sc. split; [by right|done].
  - intros (sc & [->|?]%elem_of_cons & ->); [left; done|right; eauto].
Qed.

Lemma mask_loop_spec mask n : forall chars i, i + n <= length chars ->
  exists chars', mask_loop mask n chars i = Ok chars' /\ length chars' = length chars /\
    forall k, chars' !! k = if decide (i <= k < i + n) then Some mask else chars !! k.
Proof.
  induction n as [|n IH]; intros chars i Hi; cbn [mask_loop].
  { exists chars. split; [done|]. split; [done|]. intros k. rewrite decide_False by lia. done. }
  unfold set_rune. rewrite (proj2 (Nat.ltb_lt i (length chars))) by lia. cbn [obind].
  destruct (IH (<[i := mask]> chars) (S i)) as (chars' & -> & Hl & Hk); [rewrite length_insert; lia|].
  exists chars'. split; [done|]. split; [by rewrite Hl, length_insert|]. intros k. rewrite Hk.
  destruct (decide (k = i)) as [->|Hne].
  - rewrite decide_False by lia. rewrite decide_True by lia. by rewrite list_lookup_insert_eq by lia.
  - rewrite list_lookup_insert_ne by done. destruct (decide (S i <= k < S i + n)).
    + by rewrite decide_True by lia.
    + by rewrite decide_False by lia.
Qed.

Lemma replaceAll_spec mask scopes n : Forall (inside n) scopes -> forall chars, length chars = n ->
  exists chars', replaceAll mask chars scopes = Ok chars' /\ length chars' = n /\
    forall k, (chars' !! k = if decide (Exists (fun sc => start sc <= Z.of_nat k < stop sc)%Z scopes)
                             then Some mask else chars !! k).
Proof.
  induction 1 as [|sc scopes (i & j & Hij & Hj & ->) _ IH]; intros chars Hn; cbn [replaceAll].
  { exists chars. split; [done|]. split; [done|]. intros k. rewrite decide_False; [done|].
    by intros ?%Exists_nil. }
  unfold replaceWithAsterisk. cbn [start stop]. rewrite Nat2Z.id.
  replace (Z.to_nat (Z.of_nat j - Z.of_nat i)) with (j - i) by lia.
  destruct (mask_loop_spec mask (j - i) chars i) as (chars1 & -> & Hl1 & Hk1); [lia|]. cbn [obind].
  destruct (IH chars1) as (chars2 & -> & Hl2 & Hk2); [congruence|]. exists chars2.
  split; [done|]. split; [done|]. intros k. rewrite Hk2, Hk1.
  destruct (decide (Exists _ scopes)) as [He|He].
  - by rewrite decide_True by (by right).
  - destruct (decide (i <= k < i + (j - i))).
    + rewrite decide_True; [done|]. left. simpl. lia.
    + rewrite decide_False; [done|]. intros [H|?]%Exists_cons; [simpl in H; lia|done].
Qed.

Lemma occurrences_inside words chars : Forall (inside (length chars)) (occurrences words chars).
Proof.
  apply Forall_forall. intros sc (i & j & ? & ? & _ & ->)%elem_occurrences. by exists i, j.
Qed.

(** C39: filtering a text with a trie of words does not panic; it reports as keywords exactly
    the non-empty words that occur in the text, says so exactly when there is one, and masks
    exactly the runes that an occurrence covers, keeping all others and the length. *)
Theorem filter_masks_occurrences ord words mask chars :
  (forall l, ord l ≡ₚ l) ->
  exists t sentence keywords found,
    NewTrie ord words mask = Ok t /\ Filter chars t = Ok (sentence, keywords, found) /\
    (forall w, w ∈ keywords <-> w ∈ words /\ exists i j, i < j /\ j <= length chars /\ slice chars i j = w) /\
    (found = true <-> keywords <> ∅) /\
    length sentence = length chars /\
    (forall k, (covered words chars k -> sentence !! k = Some (t_mask t)) /\
               (~ covered words chars k -> sentence !! k = chars !! k)).
Proof.
  intros Hord. destruct (find_occurrences ord words chars Hord) as (h & Hh & Hf).
  unfold NewTrie. rewrite Hh. cbn [obind]. eexists. set (t := mkTrie h _).
  pose proof (occurrences_inside words chars) as Hins.
  destruct (collectKeywords_spec chars _ Hins) as (ks & Hks & Hin).
  destruct (replaceAll_spec (t_mask t) _ _ Hins chars eq_refl) as (s' & Hs & Hl & Hk).
  assert (Hfilter : Filter chars t = Ok (s', ks, 0 <? size ks)).
  { unfold Filter. change (t_heap t) with h. rewrite Hf. cbn [obind]. rewrite Hks, Hs. cbn [obind].
    destruct (decide (chars = [])) as [->|]; [|done].
    assert (ks = ∅) as ->.
    { apply set_eq. intros k. rewrite Hin. split; [|set_solver].
      intros (sc & (i & j & ? & Hj & _)%elem_occurrences & _). simpl in Hj. lia. }
    destruct s'; [by rewrite size_empty|done]. }
  exists s', ks, (0 <? size ks). split; [done|]. split; [done|]. split; [|split; [|split; [done|]]].
  - intros w. rewrite Hin. split.
    + intros (sc & (i & j & Hij & Hj & Hw & ->)%elem_occurrences & ->). unfold text_of. simpl.
      rewrite !Nat2Z.id. split; [done|]. eauto.
    + intros (Hw & i & j & Hij & Hj & <-). exists (mkScope (Z.of_nat i) (Z.of_nat j)). split.
      * apply elem_occurrences. exists i, j. done.
      * unfold text_of. simpl. by rewrite !Nat2Z.id.
  - rewrite Nat.ltb_lt. split; [intros H ->; rewrite size_empty in H; lia|].
    intros H. destruct (decide (size ks = 0)) as [E%size_empty_inv|]; [|lia].
    by apply leibniz_equiv in E.
  - intros k. rewrite Hk.
    assert (Hcov : covered words chars k <-> Exists (fun sc => start sc <= Z.of_nat k < stop sc)%Z (occurrences words chars)).
    { rewrite Exists_exists. split.
      - intros (i & j & Hi & Hk' & Hj & Hw). exists (mkScope (Z.of_nat i) (Z.of_nat j)). split; [|simpl; lia].
        apply elem_occurrences. exists i, j. split; [lia|done].
      - intros (sc & (i & j & Hij & Hj & Hw & ->)%elem_occurrences & Hr). simpl in Hr.
        exists i, j. split; [lia|]. split; [lia|done]. }
    split; intros H; [by rewrite decide_True by (by apply Hcov)|by rewrite decide_False by (by rewrite <- Hcov)].
Qed.

(** ** Replacing is leftmost-longest *)

(** The longest word at the start of [chars] *)
Definition longest (words : list (list Z)) (chars : list Z) : option (list Z) :=
  head (filter (is_word words) ((fun j => take j chars) <$> reverse (seq 1 (length chars)))).

(** Reading from left to right, the longest word at a position is replaced and skipped; [skip]
    is the number of runes still to be skipped. *)
Fixpoint greedy (words : list (list Z)) (mapping : gmap (list Z) (list Z)) (skip : nat) (chars : list Z)
    : list Z :=
  match chars with
  | [] => []
  | c :: rest =>
    match skip with
    | S skip => greedy words mapping skip rest
    | 0 =>
      match longest words (c :: rest) with
      | Some w => default [] (mapping !! w) ++ greedy words mapping (length w - 1) rest
      | None => c :: greedy words mapping 0 rest
      end
    end
  end.

Lemma greedy_skip words mapping k : forall chars, greedy words mapping k chars = greedy words mapping 0 (drop k chars).
Proof.
  induction k as [|k IH]; intros chars; [by rewrite drop_0|]. destruct chars as [|c chars]; [done|]. apply IH.
Qed.

(** The words at the start of [chars]: those of its prefixes that are words *)
Definition starts (words : list (list Z)) (chars : list Z) (m : nat) : Prop :=
  0 < m /\ m <= length chars /\ take m chars ∈ words.

Lemma longest_none words chars : (forall m, ~ starts words chars m) -> longest words chars = None.
Proof.
  intros H. unfold longest. destruct (filter _ _) as [|w l] eqn:E; [done|]. exfalso.
  assert (Hw : w ∈ filter (is_word words) ((fun j => take j chars) <$> reverse (seq 1 (length chars)))) by (rewrite E; left).
  apply list_elem_of_filter in Hw as [[Hw _] (j & -> & Hj)%list_elem_of_fmap].
  rewrite elem_of_reverse, elem_of_seq in Hj. apply (H j). split; [lia|]. split; [lia|done].
Qed.

Lemma longest_some words chars m : starts words chars m -> (forall m', starts words chars m' -> m' <= m) ->
  longest words chars = Some (take m chars).
Proof.
  intros Hm Hmax. unfold longest. destruct Hm as (H0 & Hlen & Hw).
  replace (length chars) with ((m - 1) + (1 + (length chars - m))) by lia.
  rewrite (seq_app (m - 1)), seq_app, !reverse_app, !fmap_app, !filter_app.
  replace (1 + (m - 1)) with m by lia.
  assert (Hnone : filter (is_word words) ((fun j => take j chars) <$> reverse (seq (m + 1) (length chars - m))) = []).
  { destruct (filter _ _) as [|w l] eqn:E; [done|]. exfalso.
    assert (Hw' : w ∈ filter (is_word words) ((fun j => take j chars) <$> reverse (seq (m + 1) (length chars - m))))
      by (rewrite E; left).
    apply list_elem_of_filter in Hw' as [[Hw' _] (j & -> & Hj)%list_elem_of_fmap].
    rewrite elem_of_reverse, elem_of_seq in Hj.
    assert (j <= m); [|lia]. apply Hmax. split; [lia|]. split; [lia|done]. }
  rewrite Hnone. cbn [app seq reverse rev_append fmap list_fmap].
  rewrite filter_cons_True; [done|]. split; [done|]. intros E. apply (f_equal length) in E.
  rewrite length_take in E. simpl in E. lia.
Qed.

(** Runes before the first word are copied. *)
Lemma greedy_copy words mapping n : forall chars,
  (forall k m, k < n -> ~ starts words (drop k chars) m) -> n <= length chars ->
  greedy words mapping 0 chars = take n chars ++ greedy words mapping 0 (drop n chars).
Proof.
  induction n as [|n IH]; intros chars Hno Hn; [by rewrite drop_0|].
  destruct chars as [|c rest]; [simpl in Hn; lia|]. cbn [greedy]. rewrite longest_none.
  - cbn [take drop app]. f_equal. apply IH; [|simpl in Hn; lia]. intros k m Hk. apply (Hno (S k)). lia.
  - intros m. apply (Hno 0). lia.
Qed.

Lemma scope_le_spec a b : scope_le a b <-> (start a < start b \/ (start a = start b /\ stop b <= stop a))%Z.
Proof.
  unfold scope_le, scope_less. destruct (Z.ltb_spec (start b) (start a)); [split; [done|lia]|].
  destruct (Z.eqb_spec (start b) (start a)); [|split; [lia|done]]. rewrite Z.ltb_ge. lia.
Qed.

#[export] Instance scope_le_trans : Transitive scope_le.
Proof. intros a b c. rewrite !scope_le_spec. lia. Qed.
#[export] Instance scope_le_total : Total scope_le.
Proof. intros a b. rewrite !scope_le_spec. lia. Qed.

(** A keyword that starts in the text from [index] on, in positions of the whole text. *)
Lemma starts_slice words chars index k m : starts words (drop k (drop index chars)) m ->
  0 < m /\ index + k + m <= length chars /\ slice chars (index + k) (index + k + m) ∈ words.
Proof.
  unfold starts, slice. rewrite drop_drop, length_drop.
  replace (index + k + m - (index + k)) with m by lia. intros (? & ? & ?).
  split; [done|]. split; [lia|done].
Qed.

(** The replacement at [a] when the longest keyword that starts there ends at [b]. *)
Lemma greedy_at words mapping chars a b : a < b -> b <= length chars -> slice chars a b ∈ words ->
  (forall j, a < j -> j <= length chars -> slice chars a j ∈ words -> j <= b) ->
  greedy words mapping 0 (drop a chars) =
  default [] (mapping !! slice chars a b) ++ greedy words mapping 0 (drop b chars).
Proof.
  intros Hab Hb Hw Hmax. destruct (drop a chars) as [|c rest] eqn:Ed.
  { apply (f_equal length) in Ed. rewrite length_drop in Ed. simpl in Ed. lia. }
  cbn [greedy]. rewrite (longest_some words (c :: rest) (b - a)).
  - unfold slice. rewrite Ed. f_equal.
    assert (Hlt : length (take (b - a) (c :: rest)) = b - a).
    { rewrite length_take, <- Ed, length_drop. lia. }
    rewrite Hlt, (greedy_skip words mapping (b - a - 1)). f_equal.
    assert (Hdb : drop b chars = drop (b - a) (c :: rest)) by (rewrite <- Ed, drop_drop; f_equal; lia).
    rewrite Hdb. destruct (b - a) as [|n] eqn:En; [lia|]. simpl. by rewrite Nat.sub_0_r.
  - rewrite <- Ed. split; [lia|]. split; [rewrite length_drop; lia|]. exact Hw.
  - intros m' (Hm0 & Hml & Hmw). rewrite <- Ed in Hml, Hmw. rewrite length_drop in Hml.
    cut (a + m' <= b); [lia|]. apply Hmax; [lia|lia|]. unfold slice. by replace (a + m' - a) with m' by lia.
Qed.

(** From [index] on, the remaining scopes are all occurrences that start there or later. *)
Lemma replace_loop_spec words mapping chars scopes : StronglySorted scope_le scopes ->
  forall index, index <= length chars ->
  (forall sc, sc ∈ scopes -> sc ∈ occurrences words chars) ->
  (forall i j, index <= i -> i < j -> j <= length chars -> slice chars i j ∈ words ->
     mkScope (Z.of_nat i) (Z.of_nat j) ∈ scopes) ->
  replace_loop mapping chars (Z.of_nat index) scopes = Ok (greedy words mapping 0 (drop index chars)).
Proof.
  induction 1 as [|sc scopes Hss IH Hle]; intros index Hidx Hin Hall; cbn [replace_loop].
  - assert (Hg : greedy words mapping 0 (drop index chars) = drop index chars).
    { rewrite (greedy_copy words mapping (length (drop index chars))); [|intros k m _ H|done].
      - by rewrite take_ge, drop_all, app_nil_r by done.
      - apply starts_slice in H as (? & ? & Hw).
        specialize (Hall (index + k) (index + k + m) ltac:(lia) ltac:(lia) ltac:(lia) Hw). set_solver. }
    rewrite Hg. destruct (Z.ltb_spec (Z.of_nat index) (Z.of_nat (length chars))).
    + rewrite go_slice_in by lia. unfold slice. by rewrite <- (length_drop chars index), firstn_all.
    + by rewrite drop_ge by lia.
  - destruct (proj1 (elem_occurrences words chars sc) (Hin sc ltac:(left))) as (a & b & Hab & Hb & Hw & ->).
    cbn [start stop]. destruct (Z.ltb_spec (Z.of_nat a) (Z.of_nat index)).
    { apply IH; [done|intros sc Hsc; apply Hin; by right|].
      intros i j Hi Hij Hj Hwij. specialize (Hall i j Hi Hij Hj Hwij).
      apply elem_of_cons in Hall as [[= E1 E2]|]; [lia|done]. }
    rewrite go_slice_in, go_slice_in by lia. cbn [obind].
    rewrite IH; [|lia|intros sc Hsc; apply Hin; by right|].
    2:{ intros i j Hi Hij Hj Hwij. specialize (Hall i j ltac:(lia) Hij Hj Hwij).
        apply elem_of_cons in Hall as [[= E1 E2]|]; [lia|done]. }
    cbn [obind]. f_equal. rewrite Forall_forall in Hle.
    (* every occurrence from [index] on comes after this one *)
    assert (Hfirst : forall i j, index <= i -> i < j -> j <= length chars -> slice chars i j ∈ words ->
              a < i \/ (a = i /\ j <= b)).
    { intros i j Hi Hij Hj Hwij. specialize (Hall i j Hi Hij Hj Hwij).
      apply elem_of_cons in Hall as [[= E1 E2]|Hs]; [lia|]. specialize (Hle _ Hs).
      apply scope_le_spec in Hle. simpl in Hle. lia. }
    rewrite (greedy_copy words mapping (a - index) (drop index chars)); [|intros k m Hk Hs|rewrite length_drop; lia].
    2:{ apply starts_slice in Hs as (? & ? & Hws).
        destruct (Hfirst (index + k) (index + k + m)); try done; lia. }
    unfold slice at 1. f_equal. rewrite drop_drop. replace (index + (a - index)) with a by lia.
    symmetry. apply greedy_at; [lia|done|done|]. intros j Hj Hjl Hwj. destruct (Hfirst a j); lia || done.
Qed.

Lemma doReplace_spec ord keys mapping : (forall l, ord l ≡ₚ l) -> (forall l, keys l ≡ₚ l) ->
  exists r, NewReplacer ord keys mapping = Ok r /\ forall chars, exists b,
    doReplace chars r = Ok (greedy (keys (map_to_list mapping).*1) mapping 0 chars, b) /\
    (b = false -> greedy (keys (map_to_list mapping).*1) mapping 0 chars = chars).
Proof.
  intros Hord Hkeys. set (words := keys (map_to_list mapping).*1).
  destruct (automaton_built ord words Hord) as (h & N & Hh & Hb & Hl).
  unfold NewReplacer. fold words. rewrite Hh. cbn [obind]. eexists. split; [done|]. intros chars.
  destruct (find_occurrences ord words chars Hord) as (h' & Hh' & Hf).
  assert (h' = h) as -> by congruence. unfold doReplace. cbn [r_heap r_mapping]. rewrite Hf. cbn [obind].
  assert (Hloop : replace_loop mapping chars (Z.of_nat 0) (merge_sort scope_le (occurrences words chars)) =
                  Ok (greedy words mapping 0 (drop 0 chars))).
  { apply replace_loop_spec.
    - apply StronglySorted_merge_sort; apply _.
    - lia.
    - intros sc. by rewrite merge_sort_Permutation.
    - intros i j _ Hij Hj Hw. rewrite merge_sort_Permutation. apply elem_occurrences. by exists i, j. }
  rewrite drop_0 in Hloop. destruct (occurrences words chars) as [|sc scs] eqn:E.
  - exists false. assert (Hid : greedy words mapping 0 chars = chars).
    { change (merge_sort scope_le []) with (@nil scope) in Hloop. cbn [replace_loop] in Hloop.
      change (Z.of_nat 0) with 0%Z in Hloop.
      destruct (Z.ltb_spec 0 (Z.of_nat (length chars))).
      - change 0%Z with (Z.of_nat 0) in Hloop. rewrite go_slice_in in Hloop by lia. unfold slice in Hloop.
        rewrite Nat.sub_0_r, drop_0, firstn_all in Hloop. congruence.
      - destruct chars; [done|simpl in *; lia]. }
    rewrite Hid. by split.
  - exists true. change 0%Z with (Z.of_nat 0). rewrite Hloop. by split.
Qed.

(** [Replace] does not panic and is at most two rounds of leftmost-longest replacement:
    reading the text from left to right, the longest key that starts at a position is replaced
    by its value and skipped, every other rune is kept; the second round only happens when the
    first one found a key. *)
Theorem replace_leftmost_longest ord keys mapping chars :
  (forall l, ord l ≡ₚ l) -> (forall l, keys l ≡ₚ l) ->
  let round := greedy (keys (map_to_list mapping).*1) mapping 0 in
  exists r, NewReplacer ord keys mapping = Ok r /\
    (Replace chars r = Ok (round (round chars)) \/ (round chars = chars /\ Replace chars r = Ok chars)).
Proof.
  intros Hord Hkeys round. destruct (doReplace_spec ord keys mapping Hord Hkeys) as (r & Hr & Hdo).
  exists r. split; [done|]. unfold Replace, replaceTimes. cbn [replace_times].
  destruct (Hdo chars) as (b & -> & Hb). cbn [obind]. fold round in Hb |- *. destruct b; cbn [negb].
  - left. destruct (Hdo (round chars)) as (b & -> & Hb'). cbn [obind]. by destruct b.
  - right. rewrite (Hb eq_refl). done.
Qed.

(** The words [ab] (masked) and the mapping of [a] to [b] and [ab] to [c] *)
Lemma filter_masks_occurrences_witness :
  exists t sentence keywords found, NewTrie (fun l => l) [[97; 98]]%Z 0 = Ok t /\
    Filter [120; 97; 98; 97]%Z t = Ok (sentence, keywords, found) /\ sentence = [120; 42; 42; 97]%Z.
Proof.
  destruct (filter_masks_occurrences (fun l => l) [[97; 98]]%Z 0 [120; 97; 98; 97]%Z)
    as (t & s & ks & f & Ht & Hf & _); [done|].
  exists t, s, ks, f. split; [done|]. split; [done|].
  vm_compute in Ht. injection Ht as <-. vm_compute in Hf. by injection Hf as <- <- <-.
Defined.

Lemma replace_leftmost_longest_witness :
  exists r, NewReplacer (fun l => l) (fun l => l) (<[[97] := [98]]> {[ [97; 98] := [99] ]})%Z = Ok r /\
    Replace [97; 97; 98; 97]%Z r = Ok [98; 99; 98]%Z.
Proof.
  destruct (replace_leftmost_longest (fun l => l) (fun l => l) (<[[97] := [98]]> {[ [97; 98] := [99] ]})%Z
    [97; 97; 98; 97]%Z) as (r & Hr & _); [done|done|].
  exists r. split; [done|]. vm_compute in Hr. injection Hr as <-. by vm_compute.
Defined.
