(* ===== verification/Strings.v ===== *)
(** * [core/stringx/strings.go]: string helpers

    The functions that convert to runes work on lists of runes; those on bytes and on slices
    of strings work on lists.  The loops that compact or swap a slice in place are written
    out and shown to be the list functions they stand for.  [FirstN] and [ToCamelCase], which
    index the bytes of a string by its runes, are not modelled. *)

From S2P Require Import Prelude.
Local Open Scope go_scope.

Inductive str_error := ErrInvalidStartPosition | ErrInvalidStopPosition.

Section strings.
Context {A : Type} `{!EqDecision A}.
Implicit Types s : list A.

Fixpoint Contains (list_ : list (list A)) (str : list A) : bool :=
  match list_ with
  | [] => false
  | each :: list_ => if decide (each = str) then true else Contains list_ str
  end.

(** [Filter]: one pass that moves the kept runes to the front; [n] is their number. *)
Fixpoint Filter_loop (filter_ : A -> bool) (todo i n : nat) (chars : list A) : outcome (list A * nat) :=
  match todo with
  | 0 => Ok (chars, n)
  | S todo =>
    match chars !! i with
    | None => Panic "index out of range"
    | Some x =>
      let chars := if n <? i then <[n := x]> chars else chars in
      let n := if negb (filter_ x) then S n else n in
      Filter_loop filter_ todo (S i) n chars
    end
  end.

Definition Filter (filter_ : A -> bool) (s : list A) : outcome (list A) :=
  r <~ Filter_loop filter_ (length s) 0 0 s ;; Ok (take r.2 r.1).

Fixpoint HasEmpty (args : list (list A)) : bool :=
  match args with
  | [] => false
  | arg :: args => if length arg =? 0 then true else HasEmpty args
  end.

Definition NotEmpty (args : list (list A)) : bool := negb (HasEmpty args).

(** [Join] *)
Fixpoint Join_loop (sep : A) (elem : list (list A)) (buf : list A) : list A :=
  match elem with
  | [] => buf
  | e :: elem =>
    if length e =? 0 then Join_loop sep elem buf
    else
      let buf := if 0 <? length buf then buf ++ [sep] else buf in
      Join_loop sep elem (buf ++ e)
  end.

Definition Join (sep : A) (elem : list (list A)) : list A :=
  let size := foldl (fun n e => n + length e) 0 elem in
  if size =? 0 then [] else Join_loop sep elem [].

(** [Remove]: for each [str], a pass that compacts [out] in place *)
Fixpoint compact_loop (str : list A) (todo i n : nat) (out : list (list A)) : outcome (list (list A) * nat) :=
  match todo with
  | 0 => Ok (out, n)
  | S todo =>
    match out !! i with
    | None => Panic "index out of range"
    | Some v =>
      if decide (v = str) then compact_loop str todo (S i) n out
      else if n <? length out then compact_loop str todo (S i) (S n) (<[n := v]> out)
      else Panic "index out of range"
    end
  end.

Fixpoint Remove (out strs : list (list A)) : outcome (list (list A)) :=
  match strs with
  | [] => Ok out
  | str :: strs =>
    r <~ compact_loop str (length out) 0 0 out ;;
    Remove (take r.2 r.1) strs
  end.

(** [Reverse]: the swaps of [from] and [to]; each round brings them two closer *)
Fixpoint Reverse_loop (fuel : nat) (from to : Z) (runes : list A) : outcome (list A) :=
  match fuel with
  | 0 => Panic "out of fuel"
  | S fuel =>
    if (from <? to)%Z then
      match runes !! Z.to_nat from, runes !! Z.to_nat to with
      | Some x, Some y =>
        Reverse_loop fuel (from + 1) (to - 1) (<[Z.to_nat to := x]> (<[Z.to_nat from := y]> runes))
      | _, _ => Panic "index out of range"
      end
    else Ok runes
  end.

Definition Reverse (s : list A) : outcome (list A) :=
  Reverse_loop (S (length s)) 0 (Z.of_nat (length s) - 1) s.

(** [Substr]; [rs[start:stop]] panics when [start] is behind [stop]. *)
Definition Substr (rs : list A) (start stop : Z) : outcome (str_error + list A) :=
  let length_ := Z.of_nat (length rs) in
  if (start <? 0)%Z || (length_ <? start)%Z then Ok (inl ErrInvalidStartPosition)
  else if (stop <? 0)%Z || (length_ <? stop)%Z then Ok (inl ErrInvalidStopPosition)
  else if (stop <? start)%Z then Panic "slice bounds out of range"
  else Ok (inr (take (Z.to_nat (stop - start)) (drop (Z.to_nat start) rs))).

Definition TakeOne (valid or : list A) : list A := if 0 <? length valid then valid else or.

Fixpoint TakeWithPriority (fns : list (unit -> list A)) : list A :=
  match fns with
  | [] => []
  | fn :: fns => let val := fn tt in if 0 <? length val then val else TakeWithPriority fns
  end.

(** ** The in-place loops *)

Lemma Filter_loop_spec f todo : forall i n chars done_,
  i + todo = length chars -> n <= i -> take n chars = done_ -> length done_ = n ->
  exists chars', Filter_loop f todo i n chars = Ok (chars', n + length (filter (fun x => f x = false) (drop i chars))) /\
    take (n + length (filter (fun x => f x = false) (drop i chars))) chars' =
    done_ ++ filter (fun x => f x = false) (drop i chars).
Proof.
  induction todo as [|todo IH]; intros i n chars done_ Hlen Hn Ht Hl; cbn [Filter_loop].
  { rewrite drop_ge by lia. exists chars. by rewrite Nat.add_0_r, app_nil_r. }
  destruct (lookup_lt_is_Some_2 chars i ltac:(lia)) as [x Hx]. rewrite Hx.
  set (chars1 := if n <? i then <[n := x]> chars else chars).
  assert (Hlen1 : length chars1 = length chars) by (unfold chars1; destruct (n <? i); by rewrite ?length_insert).
  assert (Hdrop : drop (S i) chars1 = drop (S i) chars).
  { unfold chars1. destruct (n <? i); [|done]. by rewrite drop_insert_lt by lia. }
  assert (Hn1 : chars1 !! n = Some x).
  { unfold chars1. destruct (Nat.ltb_spec n i); [by rewrite list_lookup_insert_eq by lia|].
    by replace n with i by lia. }
  assert (Ht1 : take n chars1 = done_).
  { unfold chars1. destruct (n <? i); [|done]. by rewrite take_insert_ge. }
  rewrite (drop_S chars x i Hx), filter_cons. destruct (f x) eqn:Ef; cbn [negb].
  - rewrite (decide_False (P := true = false)) by done.
    destruct (IH (S i) n chars1 done_) as (chars' & Hr & Ht'); try lia; [done|].
    rewrite Hdrop in *. by exists chars'.
  - rewrite (decide_True (P := false = false)) by done.
    destruct (IH (S i) (S n) chars1 (done_ ++ [x])) as (chars' & Hr & Ht'); try lia.
    + by rewrite (take_S_r _ _ _ Hn1), Ht1.
    + rewrite length_app. simpl. lia.
    + rewrite Hdrop in *. exists chars'. cbn [length]. rewrite Nat.add_succ_r. split; [done|].
      by rewrite <- app_assoc in Ht'.
Qed.

Lemma compact_loop_spec str todo : forall i n out done_,
  i + todo = length out -> n <= i -> take n out = done_ -> length done_ = n ->
  exists out', compact_loop str todo i n out = Ok (out', n + length (filter (fun v => v <> str) (drop i out))) /\
    take (n + length (filter (fun v => v <> str) (drop i out))) out' =
    done_ ++ filter (fun v => v <> str) (drop i out).
Proof.
  induction todo as [|todo IH]; intros i n out done_ Hlen Hn Ht Hl; cbn [compact_loop].
  { rewrite drop_ge by lia. exists out. by rewrite Nat.add_0_r, app_nil_r. }
  destruct (lookup_lt_is_Some_2 out i ltac:(lia)) as [v Hv]. rewrite Hv.
  rewrite (drop_S out v i Hv), filter_cons. destruct (decide (v = str)) as [->|Hne].
  - rewrite decide_False by tauto. by apply IH; [lia|lia|..].
  - rewrite decide_True by done. rewrite (proj2 (Nat.ltb_lt n (length out))) by lia.
    destruct (IH (S i) (S n) (<[n := v]> out) (done_ ++ [v])) as (out' & Hr & Ht').
    + rewrite length_insert. lia.
    + lia.
    + erewrite take_S_r; [|apply list_lookup_insert_eq; lia]. by rewrite take_insert_ge, Ht.
    + rewrite length_app. simpl. lia.
    + rewrite drop_insert_lt in * by lia. exists out'. cbn [length]. rewrite Nat.add_succ_r. split; [done|].
      by rewrite <- app_assoc in Ht'.
Qed.

Lemma str_Remove_spec strs : forall out, Remove out strs = Ok (filter (fun v => v ∉ strs) out).
Proof.
  induction strs as [|str strs IH]; intros out; cbn [Remove].
  { f_equal. symmetry. apply filter_id, Forall_forall. intros v _. apply not_elem_of_nil. }
  destruct (compact_loop_spec str (length out) 0 0 out []) as (out' & -> & Ht); [done..|]. cbn [obind fst snd].
  rewrite drop_0 in Ht |- *. cbn [app] in Ht. rewrite Ht, IH, list_filter_filter. f_equal. apply filter_ext_in, Forall_forall.
  intros v _. rewrite not_elem_of_cons. tauto.
Qed.

(** After [k] rounds the outer [k] runes on each side are swapped. *)
Lemma Reverse_loop_spec s fuel : forall k runes, length runes = length s -> 2 * k <= length s + 1 ->
  (length s - k < fuel + k) -> 0 < fuel ->
  (forall i, runes !! i = if decide (k <= i < length s - k) then s !! i else
                            if decide (i < length s) then s !! (length s - 1 - i) else None) ->
  Reverse_loop fuel (Z.of_nat k) (Z.of_nat (length s) - 1 - Z.of_nat k) runes = Ok (reverse s).
Proof.
  induction fuel as [|fuel IH]; intros k runes Hlen Hk Hf Hf0 Hr; [lia|]. cbn [Reverse_loop].
  destruct (Z.ltb_spec (Z.of_nat k) (Z.of_nat (length s) - 1 - Z.of_nat k)) as [Hlt|Hge].
  - rewrite Nat2Z.id. replace (Z.to_nat (Z.of_nat (length s) - 1 - Z.of_nat k)) with (length s - 1 - k) by lia.
    destruct (lookup_lt_is_Some_2 runes k ltac:(lia)) as [x Hx].
    destruct (lookup_lt_is_Some_2 runes (length s - 1 - k) ltac:(lia)) as [y Hy]. rewrite Hx, Hy.
    replace (Z.of_nat k + 1)%Z with (Z.of_nat (S k)) by lia.
    replace (Z.of_nat (length s) - 1 - Z.of_nat k - 1)%Z with (Z.of_nat (length s) - 1 - Z.of_nat (S k))%Z by lia.
    apply IH; try lia; [by rewrite !length_insert|]. intros i.
    rewrite Hr in Hx, Hy. rewrite decide_True in Hx by lia. rewrite decide_True in Hy by lia.
    destruct (decide (i = length s - 1 - k)) as [->|Hi1].
    { rewrite list_lookup_insert_eq by (rewrite length_insert; lia).
      rewrite decide_False by lia. rewrite decide_True by lia.
      by replace (length s - 1 - (length s - 1 - k)) with k by lia. }
    rewrite list_lookup_insert_ne by done. destruct (decide (i = k)) as [->|Hi2].
    { rewrite list_lookup_insert_eq by lia. rewrite decide_False by lia. by rewrite decide_True by lia. }
    rewrite list_lookup_insert_ne, Hr by done.
    repeat case_decide; (done || lia).
  - f_equal. apply list_eq. intros i. rewrite Hr.
    destruct (decide (i < length s)) as [Hi|Hi].
    + rewrite reverse_lookup by done. case_decide; f_equal; lia.
    + rewrite decide_False by lia. symmetry. apply lookup_ge_None_2. rewrite length_reverse. lia.
Qed.

(** The in-place loops compute what they stand for, without an index out of range:
    [Filter] drops exactly the runes the function holds of, [Remove] drops exactly the strings
    of the list, [Reverse] reverses. *)
Theorem string_loops_correct (f : A -> bool) (s : list A) (out strs : list (list A)) :
  Filter f s = Ok (filter (fun x => f x = false) s) /\
  Remove out strs = Ok (filter (fun v => v ∉ strs) out) /\
  Reverse s = Ok (reverse s).
Proof.
  split; [|split; [apply str_Remove_spec|]].
  - unfold Filter. destruct (Filter_loop_spec f (length s) 0 0 s []) as (chars & -> & Ht); [done..|].
    cbn [obind fst snd]. rewrite drop_0 in Ht |- *. by rewrite Ht.
  - unfold Reverse. pose proof (Reverse_loop_spec s (S (length s)) 0 s eq_refl ltac:(lia) ltac:(lia) ltac:(lia)) as H.
    rewrite Z.sub_0_r in H. apply H. intros i. destruct (decide (i < length s)) as [Hi|Hi].
    + by rewrite decide_True by lia.
    + rewrite decide_False by lia. apply lookup_ge_None_2. lia.
Qed.

(** [Substr] on every branch: an error for a start or stop outside the string, the runes
    from start to stop when start is not behind stop, and a panic otherwise, although both
    positions are valid. *)
Theorem substr_all_branches (rs : list A) (start stop : Z) :
  Substr rs start stop =
  (if decide (0 <= start <= Z.of_nat (length rs))%Z then
     if decide (0 <= stop <= Z.of_nat (length rs))%Z then
       if decide (start <= stop)%Z then
         Ok (inr (take (Z.to_nat stop - Z.to_nat start) (drop (Z.to_nat start) rs)))
       else Panic "slice bounds out of range"
     else Ok (inl ErrInvalidStopPosition)
   else Ok (inl ErrInvalidStartPosition)).
Proof.
  unfold Substr.
  destruct (Z.ltb_spec start 0), (Z.ltb_spec (Z.of_nat (length rs)) start); simpl; case_decide; try lia; try done.
  destruct (Z.ltb_spec stop 0), (Z.ltb_spec (Z.of_nat (length rs)) stop); simpl; case_decide; try lia; try done.
  destruct (Z.ltb_spec stop start); case_decide; try lia; try done. do 3 f_equal. lia.
Qed.
End strings.
