(* ===== verification/AesEcb.v ===== *)
(** * [core/codec/aesecb.go]: ECB encryption with PKCS#5 padding

    The block cipher ([aes.NewCipher] and its [Block]) and the base64 encoding belong to the
    Go library: the cipher of a key is an argument with the law that decrypting an encrypted
    block gives it back, and so is the encoding.  Everything around them is modelled: the
    block loops, padding and its removal with Go's index checks, and the error paths. *)

From S2P Require Import Prelude.
Local Open Scope Z_scope.
Local Open Scope go_scope.

Abbreviation bytes := (list Z).

(** [cipher.Block]: one block each way *)
Record Block := mkBlock { BlockSize : nat; Encrypt : bytes -> bytes; Decrypt : bytes -> bytes }.

(** What the package relies on: full blocks stay full blocks and decryption inverts
    encryption; the size fits a byte. *)
Class BlockLaws (b : Block) : Prop := {
  bl_size : (0 < BlockSize b < 256)%nat;
  bl_enc_len x : length x = BlockSize b -> length (Encrypt b x) = BlockSize b;
  bl_dec_len x : length x = BlockSize b -> length (Decrypt b x) = BlockSize b;
  bl_inverse x : length x = BlockSize b -> Decrypt b (Encrypt b x) = x;
}.

Inductive codec_error := ErrPaddingSize | KeySizeError | CorruptInputError.

Section ecb.
Context (b : Block).

(** The loop of [CryptBlocks]: one block after the other is written to [dst]; what [src] does
    not reach keeps its bytes.  Each round shortens [src], so its length is enough fuel. *)
Fixpoint cryptLoop (fuel : nat) (crypt : bytes -> bytes) (dst src : bytes) : outcome bytes :=
  match fuel with
  | O => Panic "out of fuel"
  | S fuel =>
    match src with
    | [] => Ok dst
    | _ =>
      rest <~ cryptLoop fuel crypt (drop (BlockSize b) dst) (drop (BlockSize b) src) ;;
      Ok (crypt (take (BlockSize b) src) ++ rest)
    end
  end.

(** [CryptBlocks] of both modes: bad lengths are logged and leave [dst] as it is. *)
Definition CryptBlocks (crypt : bytes -> bytes) (dst src : bytes) : outcome bytes :=
  if negb (length src mod BlockSize b =? 0)%nat then Ok dst
  else if (length dst <? length src)%nat then Ok dst
  else cryptLoop (S (length src)) crypt dst src.

Definition pkcs5Padding (ciphertext : bytes) (blockSize : nat) : bytes :=
  let padding := (blockSize - length ciphertext mod blockSize)%nat in
  ciphertext ++ replicate padding (Z.of_nat padding mod 256).

(** [src[length-1]] panics on an empty [src]. *)
Definition pkcs5Unpadding (src : bytes) (blockSize : nat) : outcome (codec_error + bytes) :=
  let length_ := Z.of_nat (length src) in
  match last src with
  | None => Panic "index out of range [-1]"
  | Some unpadding =>
    if (length_ <=? unpadding) || (Z.of_nat blockSize <? unpadding) then Ok (inl ErrPaddingSize)
    else Ok (inr (take (Z.to_nat (length_ - unpadding)) src))
  end.

(** [EcbEncrypt] and [EcbDecrypt] with the cipher of the key *)
Definition encryptWith (src : bytes) : outcome bytes :=
  let padded := pkcs5Padding src (BlockSize b) in
  CryptBlocks (Encrypt b) (replicate (length padded) 0) padded.

Definition decryptWith (src : bytes) : outcome (codec_error + bytes) :=
  decrypted <~ CryptBlocks (Decrypt b) (replicate (length src) 0) src ;;
  pkcs5Unpadding decrypted (BlockSize b).
End ecb.

Section keys.
(** [aes.NewCipher]: [None] for a key of a wrong size; base64: [None] for a corrupt input *)
Context (NewCipher : bytes -> option Block) (decode64 : bytes -> option bytes) (encode64 : bytes -> bytes).

Definition EcbEncrypt (key src : bytes) : outcome (codec_error + bytes) :=
  match NewCipher key with
  | None => Ok (inl KeySizeError)
  | Some block => crypted <~ encryptWith block src ;; Ok (inr crypted)
  end.

Definition EcbDecrypt (key src : bytes) : outcome (codec_error + bytes) :=
  match NewCipher key with
  | None => Ok (inl KeySizeError)
  | Some block => decryptWith block src
  end.

Definition getKeyBytes (key : bytes) : codec_error + bytes :=
  if (length key <=? 32)%nat then inr key
  else match decode64 key with Some k => inr k | None => inl CorruptInputError end.

(** The two base64 wrappers *)
Definition viaBase64 (f : bytes -> bytes -> outcome (codec_error + bytes)) (key src : bytes)
    : outcome (codec_error + bytes) :=
  match getKeyBytes key with
  | inl e => Ok (inl e)
  | inr keyBytes =>
    match decode64 src with
    | None => Ok (inl CorruptInputError)
    | Some srcBytes =>
      r <~ f keyBytes srcBytes ;;
      match r with
      | inl e => Ok (inl e)
      | inr out => Ok (inr (encode64 out))
      end
    end
  end.

Definition EcbEncryptBase64 (key src : bytes) := viaBase64 EcbEncrypt key src.
Definition EcbDecryptBase64 (key src : bytes) := viaBase64 EcbDecrypt key src.
End keys.

(** ** Whole blocks *)

Section laws.
Context (b : Block) `{!BlockLaws b}.

(** The blocks of a text whose length is a multiple of the block size *)
Fixpoint blockwise (n : nat) (crypt : bytes -> bytes) (src : bytes) : bytes :=
  match n with
  | O => []
  | S n => crypt (take (BlockSize b) src) ++ blockwise n crypt (drop (BlockSize b) src)
  end.

Lemma cryptLoop_blocks crypt n : forall fuel src dst, length src = (n * BlockSize b)%nat ->
  length dst = length src -> (n < fuel)%nat -> cryptLoop b fuel crypt dst src = Ok (blockwise n crypt src).
Proof using BlockLaws0.
  pose proof bl_size as Hs.
  induction n as [|n IH]; intros fuel src dst Hlen Hd Hf; (destruct fuel as [|fuel]; [lia|]); cbn [cryptLoop].
  - destruct src; [|simpl in Hlen; lia]. by destruct dst.
  - destruct src as [|c src]; [simpl in Hlen; lia|].
    rewrite IH; [done| | |lia].
    + rewrite length_drop, Hlen. lia.
    + rewrite !length_drop, Hd. done.
Qed.

Lemma CryptBlocks_blocks crypt n src : length src = (n * BlockSize b)%nat ->
  CryptBlocks b crypt (replicate (length src) 0) src = Ok (blockwise n crypt src).
Proof using BlockLaws0.
  intros Hlen. pose proof bl_size as Hs. unfold CryptBlocks.
  rewrite Hlen at 1. rewrite Nat.Div0.mod_mul. cbn [Nat.eqb negb]. rewrite length_replicate, Nat.ltb_irrefl.
  apply cryptLoop_blocks; [done|by rewrite length_replicate|]. rewrite Hlen. nia.
Qed.

Lemma blockwise_length crypt n src : (forall x, length x = BlockSize b -> length (crypt x) = BlockSize b) ->
  length src = (n * BlockSize b)%nat -> length (blockwise n crypt src) = length src.
Proof.
  intros Hc. revert src. induction n as [|n IH]; intros src Hlen; [simpl in *; lia|]. cbn [blockwise].
  rewrite length_app, IH, Hc; rewrite ?length_take, ?length_drop, ?Hlen; lia.
Qed.

Lemma blockwise_inverse n : forall src, length src = (n * BlockSize b)%nat ->
  blockwise n (Decrypt b) (blockwise n (Encrypt b) src) = src.
Proof using BlockLaws0.
  induction n as [|n IH]; intros src Hlen; [by destruct src|]. cbn [blockwise].
  assert (Ht : length (take (BlockSize b) src) = BlockSize b) by (rewrite length_take, Hlen; lia).
  assert (He : length (Encrypt b (take (BlockSize b) src)) = BlockSize b) by (by apply bl_enc_len).
  rewrite take_app_length', drop_app_length' by done.
  rewrite bl_inverse by done. rewrite IH by (rewrite length_drop, Hlen; lia). apply take_drop.
Qed.

Lemma padding_spec src : let k := (BlockSize b - length src mod BlockSize b)%nat in
  (0 < k <= BlockSize b)%nat /\ pkcs5Padding src (BlockSize b) = src ++ replicate k (Z.of_nat k) /\
  exists n, length (pkcs5Padding src (BlockSize b)) = (n * BlockSize b)%nat /\ (0 < n)%nat.
Proof using BlockLaws0.
  pose proof bl_size as Hs. intros k.
  pose proof (Nat.mod_upper_bound (length src) (BlockSize b) ltac:(lia)) as Hm.
  assert (Hk : (0 < k <= BlockSize b)%nat) by lia.
  assert (Hp : pkcs5Padding src (BlockSize b) = src ++ replicate k (Z.of_nat k)).
  { unfold pkcs5Padding. fold k. by rewrite Z.mod_small by lia. }
  split; [done|]. split; [done|]. exists (S (length src / BlockSize b))%nat.
  rewrite Hp, length_app, length_replicate. split; [|lia].
  pose proof (Nat.div_mod_eq (length src) (BlockSize b)). subst k. nia.
Qed.

(** The cipher of one key gives every plaintext back but the empty one. *)
Lemma with_roundtrip (src : bytes) :
  exists crypted, encryptWith b src = Ok crypted /\
    decryptWith b crypted = Ok (if decide (src = []) then inl ErrPaddingSize else inr src).
Proof using BlockLaws0.
  pose proof bl_size as Hs. destruct (padding_spec src) as (Hk & Hp & n & Hn & Hn0).
  set (k := (BlockSize b - length src mod BlockSize b)%nat) in *.
  set (padded := pkcs5Padding src (BlockSize b)) in *.
  unfold encryptWith. fold padded. rewrite (CryptBlocks_blocks _ n) by done.
  eexists. split; [done|]. unfold decryptWith.
  assert (Hc : length (blockwise n (Encrypt b) padded) = (n * BlockSize b)%nat).
  { rewrite blockwise_length; [done|apply bl_enc_len|done]. }
  rewrite (CryptBlocks_blocks _ n) by done. cbn [obind]. rewrite blockwise_inverse by done.
  unfold pkcs5Unpadding. rewrite Hp.
  assert (Hlast : last (src ++ replicate k (Z.of_nat k)) = Some (Z.of_nat k)).
  { destruct k as [|k0]; [lia|]. rewrite replicate_S_end, app_assoc. by rewrite last_snoc. }
  rewrite Hlast, length_app, length_replicate.
  destruct (Z.ltb_spec (Z.of_nat (BlockSize b)) (Z.of_nat k)); [lia|].
  destruct (decide (src = [])) as [->|Hne].
  - simpl length. by destruct (Z.leb_spec (Z.of_nat (0 + k)) (Z.of_nat k)); [|lia].
  - assert (0 < length src)%nat by (destruct src; [done|simpl; lia]).
    destruct (Z.leb_spec (Z.of_nat (length src + k)) (Z.of_nat k)); [lia|]. simpl orb. cbn iota.
    replace (Z.to_nat (Z.of_nat (length src + k) - Z.of_nat k)) with (length src) by lia.
    by rewrite take_app_length.
Qed.

Lemma with_bad_input (src : bytes) :
  (length src mod BlockSize b <> 0)%nat ->
  decryptWith b src = Ok (inr (replicate (length src) 0)) /\
  decryptWith b [] = Panic "index out of range [-1]".
Proof using BlockLaws0.
  pose proof bl_size as Hs. intros Hm. split.
  - unfold decryptWith, CryptBlocks. rewrite (proj2 (Nat.eqb_neq _ _) Hm). cbn [negb obind].
    unfold pkcs5Unpadding. destruct src as [|c src]; [by rewrite Nat.Div0.mod_0_l in Hm|].
    set (n := length (c :: src)) in *. assert (Hn : (0 < n)%nat) by (unfold n; simpl; lia). clearbody n.
    assert (Hlast : last (replicate n 0) = Some 0).
    { destruct n as [|n0]; [lia|]. rewrite replicate_S_end. by rewrite last_snoc. }
    rewrite Hlast, length_replicate. destruct (Z.leb_spec (Z.of_nat n) 0); [lia|].
    destruct (Z.ltb_spec (Z.of_nat (BlockSize b)) 0); [lia|]. simpl orb. cbn iota.
    rewrite Z.sub_0_r, Nat2Z.id. by rewrite take_ge by (by rewrite length_replicate).
  - unfold decryptWith, CryptBlocks. rewrite Nat.Div0.mod_0_l. done.
Qed.

Context (NewCipher : bytes -> option Block) (key : bytes) (Hkey : NewCipher key = Some b).

(** With a key of a valid size encrypting never fails, and decrypting what was
    encrypted gives the plaintext back, unless the plaintext is empty: then decryption
    reports a padding error.  The base64 wrappers give the encoded plaintext back, for a key
    given as it is or encoded, when decoding inverts encoding. *)
Theorem ecb_roundtrip (decode64 : bytes -> option bytes) (encode64 : bytes -> bytes) (key64 src : bytes) :
  (forall x, decode64 (encode64 x) = Some x) -> getKeyBytes decode64 key64 = inr key ->
  (exists crypted, EcbEncrypt NewCipher key src = Ok (inr crypted) /\
    EcbDecrypt NewCipher key crypted = Ok (if decide (src = []) then inl ErrPaddingSize else inr src)) /\
  (exists crypted64, EcbEncryptBase64 NewCipher decode64 encode64 key64 (encode64 src) = Ok (inr crypted64) /\
    EcbDecryptBase64 NewCipher decode64 encode64 key64 crypted64 =
      Ok (if decide (src = []) then inl ErrPaddingSize else inr (encode64 src))).
Proof using BlockLaws0 Hkey.
  intros H64 Hk. destruct (with_roundtrip src) as (c & Hc & Hd).
  assert (He : EcbEncrypt NewCipher key src = Ok (inr c)) by (unfold EcbEncrypt; by rewrite Hkey, Hc).
  assert (Hdec : EcbDecrypt NewCipher key c = Ok (if decide (src = []) then inl ErrPaddingSize else inr src))
    by (unfold EcbDecrypt; by rewrite Hkey).
  split; [eauto|]. exists (encode64 c). unfold EcbEncryptBase64, EcbDecryptBase64, viaBase64.
  rewrite Hk, !H64, He, Hdec. cbn [obind]. split; [done|]. by destruct (decide (src = [])).
Qed.

(** Decryption of an input that is not a whole number of blocks is not rejected: it
    returns as many zero bytes as the input is long; and the empty input panics. *)
Theorem ecb_decrypt_bad_input (src : bytes) :
  (length src mod BlockSize b <> 0)%nat ->
  EcbDecrypt NewCipher key src = Ok (inr (replicate (length src) 0)) /\
  EcbDecrypt NewCipher key [] = Panic "index out of range [-1]".
Proof using BlockLaws0 Hkey. intros Hm. unfold EcbDecrypt. rewrite Hkey. by apply with_bad_input. Qed.
End laws.

(** A cipher that satisfies the laws: the bytes of a block in reverse order *)
Definition demo_block : Block := mkBlock 16 reverse reverse.

#[export] Instance demo_laws : BlockLaws demo_block.
Proof.
  split; simpl; intros; rewrite ?length_reverse, ?reverse_involutive; (done || lia).
Qed.

Definition demo_cipher (key : bytes) : option Block :=
  if (length key =? 16)%nat then Some demo_block else None.
Definition demo_key : bytes := replicate 16 9.

Lemma ecb_roundtrip_witness :
  exists crypted, EcbEncrypt demo_cipher demo_key [1; 2; 3] = Ok (inr crypted) /\
    EcbDecrypt demo_cipher demo_key crypted = Ok (inr [1; 2; 3]).
Proof.
  destruct (ecb_roundtrip demo_block demo_cipher demo_key eq_refl Some id demo_key [1; 2; 3]
    (fun x => eq_refl) eq_refl) as [(c & Hc & Hd) _].
  exists c. split; [done|]. by rewrite Hd.
Defined.

Lemma ecb_decrypt_bad_input_witness : EcbDecrypt demo_cipher demo_key [7; 7] = Ok (inr [0; 0]).
Proof. apply (ecb_decrypt_bad_input demo_block demo_cipher demo_key eq_refl [7; 7]). by vm_compute. Defined.
