(* ===== verification/Subscriber.v ===== *)
(** * [core/discov/subscriber.go]: the values a subscriber shows

    A [container] keeps, for each value (a server address), the slice of the etcd
    keys that carry it, and for each key its value.  Slices share their backing
    arrays: [doRemoveKey] compacts [c.values[server]] in place while [addKv] may
    be ranging over the same array, so the arrays live in a store and a slice is
    a location and a length.  The spare capacity the runtime leaves when
    [append] grows an array is the argument [growth]; the order of a range over
    a map is the argument [ord]; a callback is a value of the type [F]. *)

From S2P Require Import Prelude.
From S2P Require Import Interfaces.

(** ** Slices over shared arrays *)

Record store := mkStore { cells : gmap nat (list string); next_loc : nat }.
Record slice := mkSlice { s_loc : nat; s_len : nat }.

Definition empty_store : store := mkStore ∅ 0.
Definition array_of (h : store) (l : nat) : list string := default [] (cells h !! l).
Definition contents (h : store) (s : slice) : list string := take (s_len s) (array_of h (s_loc s)).
(** The contents of a possibly nil slice. *)
Definition elems (h : store) (s : option slice) : list string := from_option (contents h) [] s.

(** [append(s, x)]: in place while there is capacity, else into a new array. *)
Definition go_append (growth : nat -> nat) (s : option slice) (x : string) (h : store)
  : slice * store :=
  let realloc :=
    let l := next_loc h in
    let n := length (elems h s) in
    (mkSlice l (S n),
     mkStore (<[l := elems h s ++ x :: replicate (growth (S n)) EmptyString]> (cells h)) (S l)) in
  match s with
  | Some s' =>
    if s_len s' <? length (array_of h (s_loc s'))
    then (mkSlice (s_loc s') (S (s_len s')),
          mkStore (<[s_loc s' := <[s_len s' := x]> (array_of h (s_loc s'))]> (cells h)) (next_loc h))
    else realloc
  | None => realloc
  end.

Section container.
Context {F : Type} (growth : nat -> nat).

Record container := mkContainer {
  exclusive : bool;
  heap : store;
  values : gmap string slice;
  mapping : gmap string string;
  snapshot : option (list string);
  dirty : bool;
  listeners : list F
}.

Definition newContainer (exclusive : bool) : container :=
  mkContainer exclusive empty_store ∅ ∅ None true [].

(** The loop of [doRemoveKey]: [todo] elements of [keys] from index [i] on are
    left to be read; those other than [key] are appended to [remain]. *)
Fixpoint remove_loop (key : string) (keys : slice) (todo i : nat) (remain : slice) (h : store)
  : slice * store :=
  match todo with
  | 0 => (remain, h)
  | S todo =>
    let k := default EmptyString (array_of h (s_loc keys) !! i) in
    if decide (k <> key)
    then let '(remain, h) := go_append growth (Some remain) k h in
         remove_loop key keys todo (S i) remain h
    else remove_loop key keys todo (S i) remain h
  end.

Definition doRemoveKey (key : string) (c : container) : container :=
  match mapping c !! key with
  | None => c
  | Some server =>
    let mapping' := delete key (mapping c) in
    let '(remain, h) :=
      match values c !! server with
      | Some keys =>
        let '(remain, h) := remove_loop key keys (s_len keys) 0 (mkSlice (s_loc keys) 0) (heap c) in
        (Some remain, h)
      | None => (None, heap c)
      end in
    let values' :=
      match remain with
      | Some remain => if 0 <? s_len remain then <[server := remain]> (values c)
                       else delete server (values c)
      | None => delete server (values c)
      end in
    mkContainer (exclusive c) h values' mapping' (snapshot c) (dirty c) (listeners c)
  end.

(** [for _, each := range keys { c.doRemoveKey(each) }]: the slice is fixed, its
    elements are read from the array as the loop goes. *)
Fixpoint exclusive_loop (keys : slice) (todo i : nat) (c : container) : container :=
  match todo with
  | 0 => c
  | S todo =>
    let each := default EmptyString (array_of (heap c) (s_loc keys) !! i) in
    exclusive_loop keys todo (S i) (doRemoveKey each c)
  end.

Definition setDirty (b : bool) (c : container) : container :=
  mkContainer (exclusive c) (heap c) (values c) (mapping c) (snapshot c) b (listeners c).

(** [addKv] returns the keys the value had before, and whether there were any. *)
Definition addKv (key value : string) (c : container) : (list string * bool) * container :=
  let c := setDirty true c in
  let keys := values c !! value in
  let previous := elems (heap c) keys in
  let early := 0 <? length previous in
  let c := match keys with
           | Some keys => if exclusive c && early then exclusive_loop keys (s_len keys) 0 c else c
           | None => c
           end in
  let '(s, h) := go_append growth (values c !! value) key (heap c) in
  let c := mkContainer (exclusive c) h (<[value := s]> (values c)) (<[key := value]> (mapping c))
             (snapshot c) (dirty c) (listeners c) in
  (if early then (previous, true) else ([], false), c).

Definition removeKey (key : string) (c : container) : container :=
  doRemoveKey key (setDirty true c).

Definition addListener (listener : F) (c : container) : container :=
  mkContainer (exclusive c) (heap c) (values c) (mapping c) (snapshot c) (dirty c)
    (listeners c ++ [listener]).

(** [notifyChange]: the callbacks that run, in order. *)
Definition notifyChange (c : container) : list F := listeners c.

Definition container_OnAdd (kv : KV) (c : container) : list F * container :=
  let c := snd (addKv (Key kv) (Val kv) c) in (notifyChange c, c).

Definition container_OnDelete (kv : KV) (c : container) : list F * container :=
  let c := removeKey (Key kv) c in (notifyChange c, c).

Definition getValues (ord : list string -> list string) (c : container)
  : outcome (list string) * container :=
  if negb (dirty c) then
    (match snapshot c with
     | Some vals => Ok vals
     | None => Panic "interface conversion: interface {} is nil, not []string"
     end, c)
  else
    let vals := ord (map fst (map_to_list (values c))) in
    (Ok vals, mkContainer (exclusive c) (heap c) (values c) (mapping c) (Some vals) false (listeners c)).

End container.
Arguments container : clear implicits.

(** ** Lemmas on slices *)

Definition slice_ok (h : store) (s : slice) : Prop :=
  s_loc s < next_loc h /\ s_len s <= length (array_of h (s_loc s)).

Lemma array_of_insert l l' A h n :
  array_of (mkStore (<[l := A]> (cells h)) n) l' = if decide (l = l') then A else array_of h l'.
Proof.
  unfold array_of. simpl. destruct (decide (l = l')) as [->|Hne].
  - by rewrite lookup_insert_eq.
  - by rewrite lookup_insert_ne.
Qed.

Lemma length_slice h s : slice_ok h s -> length (contents h s) = s_len s.
Proof. intros [_ H]. unfold contents. rewrite length_take. lia. Qed.

(** What [append] does, in place or not: the new slice holds the old elements
    and the new one, and only its own array is written. *)
Lemma go_append_spec growth s x h s' h' :
  (forall s0, s = Some s0 -> slice_ok h s0) ->
  go_append growth s x h = (s', h') ->
  contents h' s' = elems h s ++ [x] /\ slice_ok h' s' /\
  (s_loc s' = next_loc h \/ exists s0, s = Some s0 /\ s_loc s' = s_loc s0) /\
  next_loc h <= next_loc h' /\
  (forall l, l <> s_loc s' -> array_of h' l = array_of h l).
Proof.
  intros Hok.
  assert (Hre : (mkSlice (next_loc h) (S (length (elems h s))),
     mkStore (<[next_loc h := elems h s ++ x :: replicate (growth (S (length (elems h s)))) EmptyString]>
       (cells h)) (S (next_loc h))) = (s', h') ->
    contents h' s' = elems h s ++ [x] /\ slice_ok h' s' /\
    (s_loc s' = next_loc h \/ exists s0, s = Some s0 /\ s_loc s' = s_loc s0) /\
    next_loc h <= next_loc h' /\ (forall l, l <> s_loc s' -> array_of h' l = array_of h l)).
  { intros [= <- <-]. unfold contents, slice_ok. simpl. rewrite !array_of_insert, !decide_True by done.
    split_and!; auto; try lia.
    - rewrite (cons_middle x (elems h s)), app_assoc. apply take_app_length'. rewrite length_app. simpl. lia.
    - rewrite length_app. simpl. lia.
    - intros l Hl. by rewrite array_of_insert, decide_False by congruence. }
  destruct s as [s|]; [|exact Hre]. simpl.
  destruct (s_len s <? length (array_of h (s_loc s))) eqn:E; [|exact Hre]. bool_prop.
  intros [= <- <-]. destruct (Hok s eq_refl) as [Hl _].
  unfold contents, slice_ok. simpl. rewrite !array_of_insert, !decide_True, length_insert by done.
  split_and!; eauto.
  - rewrite (take_S_r _ _ x) by (by rewrite list_lookup_insert_eq).
    by rewrite take_insert_ge by lia.
  - intros l Hne. by rewrite array_of_insert, decide_False by congruence.
Qed.

(** The compaction loop of [doRemoveKey]. *)
Lemma remove_loop_spec growth key keys todo : forall i remain h r h',
  s_loc remain = s_loc keys -> s_len remain <= i -> i + todo <= length (array_of h (s_loc keys)) ->
  remove_loop growth key keys todo i remain h = (r, h') ->
  s_loc r = s_loc keys /\ s_len r <= i + todo /\
  contents h' r = contents h remain ++
    filter (fun k => k <> key) (take todo (drop i (array_of h (s_loc keys)))) /\
  length (array_of h' (s_loc keys)) = length (array_of h (s_loc keys)) /\
  next_loc h' = next_loc h /\
  (forall l, l <> s_loc keys -> array_of h' l = array_of h l).
Proof.
  induction todo as [|todo IH]; intros i remain h r h' Hloc Hlen Hi Hrun; simpl in Hrun.
  { injection Hrun as <- <-. rewrite take_0, app_nil_r. split_and!; auto; lia. }
  destruct (lookup_lt_is_Some_2 (array_of h (s_loc keys)) i ltac:(lia)) as [k Hk].
  rewrite Hk in Hrun. rewrite (drop_S _ k i Hk). simpl in Hrun |- *.
  rewrite filter_cons. destruct (decide (k <> key)) as [Hne|Hne].
  - rewrite Hloc, (proj2 (Nat.ltb_lt _ _)) in Hrun by lia.
    apply IH in Hrun; simpl in *; try rewrite array_of_insert, decide_True, ?length_insert in * by done; try lia.
    rewrite ?length_insert in Hrun.
    destruct Hrun as (H1 & H2 & H3 & H4 & H5 & H6). split_and!; auto; try lia.
    + rewrite H3. unfold contents at 1. simpl. rewrite array_of_insert, decide_True by done.
      rewrite (take_S_r _ _ k) by (rewrite list_lookup_insert_eq; [done|lia]).
      rewrite take_insert_ge, drop_insert_lt by lia.
      unfold contents. by rewrite Hloc, <- app_assoc.
    + intros l Hl. by rewrite H6, array_of_insert, decide_False by congruence.
  - apply IH in Hrun; try lia; try done.
    destruct Hrun as (H1 & H2 & H3 & H4 & H5 & H6). split_and!; auto; lia.
Qed.

(** ** The operations on the abstract lists of keys *)

Section lemmas.
Context {F : Type} (growth : nat -> nat).
Implicit Types c : container F.

Definition keys_of c (v : string) : list string := elems (heap c) (values c !! v).

(** Every slice is within its array and not empty, and no two values share one. *)
Record heap_wf c : Prop := {
  hw_slice v s : values c !! v = Some s -> slice_ok (heap c) s /\ 0 < s_len s;
  hw_sep v v' s s' :
    values c !! v = Some s -> values c !! v' = Some s' -> s_loc s = s_loc s' -> v = v'
}.

Lemma keys_of_nil c v : heap_wf c -> keys_of c v = [] <-> values c !! v = None.
Proof.
  intros Hwf. unfold keys_of. destruct (values c !! v) as [s|] eqn:E; simpl; [|done].
  destruct (hw_slice c Hwf v s E) as [Hok Hpos]. split; [|done]. intros Hn.
  apply (f_equal length) in Hn. rewrite length_slice in Hn by done. simpl in Hn. lia.
Qed.

(** Changing the slice of one value, in its own array or in a new one, leaves the
    keys of the other values alone. *)
Lemma update_slice c c' v s :
  heap_wf c -> values c' = <[v := s]> (values c) -> slice_ok (heap c') s -> 0 < s_len s ->
  next_loc (heap c) <= next_loc (heap c') ->
  (s_loc s = next_loc (heap c) \/ exists s0, values c !! v = Some s0 /\ s_loc s = s_loc s0) ->
  (forall l, l <> s_loc s -> array_of (heap c') l = array_of (heap c) l) ->
  heap_wf c' /\ forall v', v' <> v -> keys_of c' v' = keys_of c v'.
Proof.
  intros Hwf Hv Hs Hpos Hnext Hloc Harr.
  assert (Hother : forall v' s', v' <> v -> values c !! v' = Some s' -> s_loc s' <> s_loc s).
  { intros v' s' Hne Hv' Heq. destruct (hw_slice c Hwf v' s' Hv') as [[Hlt _] _].
    destruct Hloc as [Hloc|(s0 & Hs0 & Hloc)]; [lia|].
    apply Hne. eapply hw_sep; eauto. congruence. }
  split; [split|].
  - intros v' s'. rewrite Hv. destruct (decide (v' = v)) as [->|Hne].
    + rewrite lookup_insert_eq. intros [= <-]. auto.
    + rewrite lookup_insert_ne by done. intros Hv'.
      destruct (hw_slice c Hwf v' s' Hv') as [[H1 H2] H3].
      split; [split|done]; [lia|]. rewrite Harr by eauto. done.
  - intros v1 v2 s1 s2. rewrite Hv.
    destruct (decide (v1 = v)) as [->|H1], (decide (v2 = v)) as [->|H2];
      rewrite ?lookup_insert_eq, ?lookup_insert_ne by done; intros; simplify_eq; auto.
    + exfalso. eapply (Hother v2); eauto.
    + exfalso. eapply (Hother v1); eauto.
    + eapply hw_sep; eauto.
  - intros v' Hne. unfold keys_of. rewrite Hv, lookup_insert_ne by done.
    destruct (values c !! v') as [s'|] eqn:E; simpl; [|done].
    unfold contents. by rewrite Harr by eauto.
Qed.

Lemma delete_slice c c' v :
  heap_wf c -> values c' = delete v (values c) -> next_loc (heap c) <= next_loc (heap c') ->
  (forall l, (forall s, values c !! v = Some s -> l <> s_loc s) -> array_of (heap c') l = array_of (heap c) l) ->
  heap_wf c' /\ keys_of c' v = [] /\ forall v', v' <> v -> keys_of c' v' = keys_of c v'.
Proof.
  intros Hwf Hv Hnext Harr.
  assert (Hother : forall v' s', v' <> v -> values c !! v' = Some s' ->
            array_of (heap c') (s_loc s') = array_of (heap c) (s_loc s')).
  { intros v' s' Hne Hv'. apply Harr. intros s Hs Heq. apply Hne. eapply hw_sep; eauto. }
  assert (Hlook : forall v' s', values c' !! v' = Some s' -> v' <> v /\ values c !! v' = Some s').
  { intros v' s'. rewrite Hv, lookup_delete_Some. intuition congruence. }
  split; [split|split].
  - intros v' s' [Hne Hv']%Hlook. destruct (hw_slice c Hwf v' s' Hv') as [[H1 H2] H3].
    split; [split|done]; [lia|]. by rewrite (Hother v').
  - intros v1 v2 s1 s2 [_ H1]%Hlook [_ H2]%Hlook. eapply hw_sep; eauto.
  - unfold keys_of. by rewrite Hv, lookup_delete_eq.
  - intros v' Hne. unfold keys_of. rewrite Hv, lookup_delete_ne by done.
    destruct (values c !! v') as [s'|] eqn:E; simpl; [|done].
    unfold contents. by rewrite (Hother v').
Qed.

Lemma doRemoveKey_spec key c :
  heap_wf c ->
  let c' := doRemoveKey growth key c in
  heap_wf c' /\ mapping c' = delete key (mapping c) /\ exclusive c' = exclusive c /\
  dirty c' = dirty c /\
  forall v, keys_of c' v = if decide (mapping c !! key = Some v)
                           then filter (fun k => k <> key) (keys_of c v) else keys_of c v.
Proof.
  intros Hwf. unfold doRemoveKey. destruct (mapping c !! key) as [server|] eqn:Em.
  2: { simpl. rewrite delete_id by done. auto. }
  destruct (values c !! server) as [keys|] eqn:Ev.
  2: { simpl. destruct (delete_slice c (mkContainer (exclusive c) (heap c) (delete server (values c))
         (delete key (mapping c)) (snapshot c) (dirty c) (listeners c)) server) as (H1 & H2 & H3); simpl; auto.
       split_and!; auto. intros v. destruct (decide _) as [Heq|Hne].
       - injection Heq as <-. rewrite H2. unfold keys_of. by rewrite Ev.
       - apply H3. congruence. }
  destruct (hw_slice c Hwf server keys Ev) as [[Hlt Hle] Hpos].
  destruct (remove_loop _ _ _ _ _ _ _) as [r h'] eqn:Eloop.
  apply remove_loop_spec in Eloop; simpl; try lia; try done.
  destruct Eloop as (H1 & H2 & H3 & H4 & H5 & H6).
  assert (Hkeys : contents h' r = filter (fun k => k <> key) (keys_of c server)).
  { rewrite H3. unfold keys_of. rewrite Ev. simpl. unfold contents at 1. by rewrite drop_0. }
  assert (Hrok : slice_ok h' r) by (split; [congruence|rewrite H1, H4; lia]).
  destruct (0 <? s_len r) eqn:Elen; bool_prop; simpl.
  - edestruct (update_slice c (mkContainer (exclusive c) h' (<[server := r]> (values c))
      (delete key (mapping c)) (snapshot c) (dirty c) (listeners c)) server r) as [Hwf' Hkeep];
      simpl; eauto; try lia; [intros; apply H6; congruence|].
    split_and!; auto. intros v. destruct (decide _) as [Heq|Hne].
    + injection Heq as <-. rewrite <- Hkeys. unfold keys_of. simpl. by rewrite lookup_insert_eq.
    + apply Hkeep. congruence.
  - edestruct (delete_slice c (mkContainer (exclusive c) h' (delete server (values c))
      (delete key (mapping c)) (snapshot c) (dirty c) (listeners c)) server) as (Hwf' & Hnil & Hkeep);
      simpl; eauto; try lia.
    split_and!; auto. intros v. destruct (decide _) as [Heq|Hne].
    + injection Heq as <-. rewrite Hnil, <- Hkeys. symmetry. apply nil_length_inv.
      rewrite length_slice by done. lia.
    + apply Hkeep. congruence.
Qed.


(** The last part of [addKv]: append the key to the slice of its value. *)
Definition append_key (key value : string) c : container F :=
  let '(s, h) := go_append growth (values c !! value) key (heap c) in
  mkContainer (exclusive c) h (<[value := s]> (values c)) (<[key := value]> (mapping c))
    (snapshot c) (dirty c) (listeners c).

Lemma append_key_spec key value c :
  heap_wf c ->
  let c' := append_key key value c in
  heap_wf c' /\ mapping c' = <[key := value]> (mapping c) /\ exclusive c' = exclusive c /\
  dirty c' = dirty c /\
  forall v, keys_of c' v = if decide (v = value) then keys_of c v ++ [key] else keys_of c v.
Proof.
  intros Hwf. unfold append_key. destruct (go_append _ _ _ _) as [s h] eqn:E.
  apply go_append_spec in E.
  2: { intros s0 Hs0. by destruct (hw_slice c Hwf value s0 Hs0). }
  destruct E as (H1 & H2 & H3 & H4 & H5).
  assert (0 < s_len s).
  { rewrite <- (length_slice h s H2), H1, length_app. simpl. lia. }
  edestruct (update_slice c (mkContainer (exclusive c) h (<[value := s]> (values c))
    (<[key := value]> (mapping c)) (snapshot c) (dirty c) (listeners c)) value s) as [Hwf' Hkeep];
    simpl; eauto.
  split_and!; auto. intros v. destruct (decide (v = value)) as [->|Hne]; [|by apply Hkeep].
  unfold keys_of. simpl. rewrite lookup_insert_eq. done.
Qed.

(** The container agrees with its own [mapping]. *)
Record consistent c : Prop := {
  co_wf : heap_wf c;
  co_keys v k : k ∈ keys_of c v <-> mapping c !! k = Some v;
  co_single v : exclusive c = true -> length (keys_of c v) <= 1;
  co_dirty : dirty c = false ->
    exists vals, snapshot c = Some vals /\ vals ≡ₚ map fst (map_to_list (values c))
}.

(** What the operations mean: a finite map from keys to values, on which an
    exclusive container first drops the keys with the same value. *)
Definition spec_add (ex : bool) (kv : KV) (m : gmap string string) : gmap string string :=
  <[Key kv := Val kv]> (if ex then filter (fun p => p.2 <> Val kv) m else m).
Definition spec_delete (kv : KV) (m : gmap string string) : gmap string string := delete (Key kv) m.

(** An entry that is shown keeps its value. *)
Definition keeps_value (kv : KV) (m : gmap string string) : Prop :=
  m !! Key kv = None \/ m !! Key kv = Some (Val kv).

(** The first part of [addKv]: an exclusive container drops the keys of the value. *)
Definition pre_append (value : string) c : container F :=
  match values c !! value with
  | Some keys =>
    if exclusive c && (0 <? length (elems (heap c) (values c !! value)))
    then exclusive_loop growth keys (s_len keys) 0 (setDirty true c) else setDirty true c
  | None => setDirty true c
  end.

Lemma snd_addKv key value c :
  snd (addKv growth key value c) =
  append_key key value (pre_append value c).
Proof.
  unfold addKv, append_key, pre_append. simpl. by destruct (values c !! value) as [keys|]; simpl;
    destruct (go_append _ _ _ _).
Qed.

(** In a consistent exclusive container the loop removes the one key there is. *)
Lemma exclusive_loop_single keys value k c :
  heap_wf c -> values c !! value = Some keys -> keys_of c value = [k] ->
  exclusive_loop growth keys (s_len keys) 0 c = doRemoveKey growth k c.
Proof.
  intros Hwf Hv Hk. destruct (hw_slice c Hwf value keys Hv) as [Hok _].
  unfold keys_of in Hk. rewrite Hv in Hk. simpl in Hk.
  assert (Hlen : s_len keys = 1) by (rewrite <- (length_slice _ _ Hok), Hk; done).
  rewrite Hlen. simpl. f_equal.
  assert (Hi : contents (heap c) keys !! 0 = Some k) by by rewrite Hk.
  unfold contents in Hi. rewrite lookup_take_lt in Hi by lia. by rewrite Hi.
Qed.

(** The state [append_key] starts from, in a consistent container. *)
Lemma before_append value c :
  consistent c ->
  let c1 := pre_append value c in
  heap_wf c1 /\ exclusive c1 = exclusive c /\ dirty c1 = true /\
  mapping c1 = (if exclusive c then filter (fun p => p.2 <> value) (mapping c) else mapping c) /\
  forall v, keys_of c1 v = if decide (v = value /\ exclusive c = true) then [] else keys_of c v.
Proof.
  intros Hc. pose proof (co_wf c Hc) as Hwf. unfold pre_append.
  assert (Hwf' : heap_wf (setDirty true c)) by (destruct Hwf; split; auto).
  assert (Hnone : keys_of c value = [] -> mapping c = filter (fun p => p.2 <> value) (mapping c)).
  { intros Hn. symmetry. apply map_filter_id. intros k v Hk Heq. simpl in Heq. subst v.
    apply (co_keys c Hc) in Hk. rewrite Hn in Hk. by apply not_elem_of_nil in Hk. }
  change (elems (heap c) (values c !! value)) with (keys_of c value).
  destruct (exclusive c) eqn:Eex; simpl.
  2: { destruct (values c !! value); simpl; split_and!; auto;
       intros v; by rewrite decide_False by (intros [_ ?]; discriminate). }
  destruct (values c !! value) as [keys|] eqn:Ev.
  2: { pose proof (proj2 (keys_of_nil c value Hwf) Ev) as Hn. split_and!; auto.
       intros v. destruct (decide _) as [[-> _]|]; auto. }
  pose proof (co_single c Hc value Eex) as Hone.
  destruct (keys_of c value) as [|k [|]] eqn:Ek; simpl in Hone |- *; [|clear Hone|lia].
  { apply (keys_of_nil c value Hwf) in Ek. congruence. }
  rewrite (exclusive_loop_single keys value k) by done.
  assert (Hmk : mapping c !! k = Some value) by (apply (co_keys c Hc); rewrite Ek; set_solver).
  destruct (doRemoveKey_spec k _ Hwf') as (H1 & H2 & H3 & H4 & H5). simpl in *.
  split_and!; auto; [congruence| |].
  - rewrite H2. apply map_eq. intros k'. destruct (decide (k' = k)) as [->|Hne].
    + rewrite lookup_delete_eq. symmetry. apply map_lookup_filter_None. right.
      intros v Hv. simpl. rewrite Hmk in Hv. injection Hv as <-. tauto.
    + rewrite lookup_delete_ne by done. symmetry. destruct (mapping c !! k') as [v|] eqn:Ek'.
      * apply map_lookup_filter_Some. split; [done|]. simpl. intros ->.
        apply (co_keys c Hc) in Ek'. rewrite Ek in Ek'. by apply list_elem_of_singleton in Ek'.
      * apply map_lookup_filter_None. auto.
  - intros v. rewrite H5. change (keys_of (setDirty true c) v) with (keys_of c v).
    destruct (decide _) as [Heq|Hne].
    + rewrite Hmk in Heq. injection Heq as <-. rewrite decide_True by done. rewrite Ek.
      rewrite filter_cons_False by tauto. done.
    + destruct (decide (v = value /\ true = true)) as [[-> _]|]; [|done]. congruence.
Qed.

(** [addKv] of a container that is not exclusive, consistent or not. *)
Lemma addKv_shared key value c :
  heap_wf c -> exclusive c = false ->
  let c' := snd (addKv growth key value c) in
  heap_wf c' /\ mapping c' = <[key := value]> (mapping c) /\ exclusive c' = false /\ dirty c' = true /\
  forall v, keys_of c' v = if decide (v = value) then keys_of c v ++ [key] else keys_of c v.
Proof.
  intros Hwf Hex. rewrite snd_addKv.
  assert (Hwf' : heap_wf (setDirty true c)) by (destruct Hwf; split; auto).
  replace (pre_append value c) with (setDirty true c).
  2: { unfold pre_append. rewrite Hex. by destruct (values c !! value). }
  destruct (append_key_spec key value _ Hwf') as (H1 & H2 & H3 & H4 & H5).
  split_and!; auto. by rewrite H3.
Qed.

Lemma addKv_consistent kv c :
  consistent c -> keeps_value kv (mapping c) ->
  let c' := snd (addKv growth (Key kv) (Val kv) c) in
  consistent c' /\ exclusive c' = exclusive c /\ mapping c' = spec_add (exclusive c) kv (mapping c).
Proof.
  intros Hc Hkeep. rewrite snd_addKv.
  destruct (before_append (Val kv) c Hc) as (H1 & H2 & H3 & H4 & H5).
  revert H1 H2 H3 H4 H5. generalize (pre_append (Val kv) c). intros c1 H1 H2 H3 H4 H5.
  destruct (append_key_spec (Key kv) (Val kv) c1 H1) as (A1 & A2 & A3 & A4 & A5).
  assert (Hm : mapping (append_key (Key kv) (Val kv) c1) = spec_add (exclusive c) kv (mapping c)).
  { rewrite A2, H4. done. }
  split_and!; [split; auto| congruence | done].
  - intros v k. rewrite Hm, A5, H5. unfold spec_add.
    destruct (decide (k = Key kv)) as [->|Hne].
    + rewrite lookup_insert_eq. destruct (decide (v = Val kv)) as [->|Hv]; [set_solver|].
      rewrite decide_False by tauto. rewrite (co_keys c Hc).
      destruct Hkeep as [->| ->]; split; congruence.
    + rewrite lookup_insert_ne by done. destruct (exclusive c) eqn:Ex; simpl.
      * rewrite map_lookup_filter_Some. simpl. destruct (decide (v = Val kv)) as [->|Hv].
        { rewrite decide_True by done. set_solver. }
        rewrite decide_False by tauto. rewrite (co_keys c Hc). tauto.
      * rewrite !(decide_False (P := _ /\ false = true)) by naive_solver.
        destruct (decide (v = Val kv)); rewrite <- (co_keys c Hc); set_solver.
  - intros v Hex. rewrite A3, H2 in Hex. rewrite A5, H5. pose proof (co_single c Hc v Hex).
    destruct (decide (v = Val kv)); [rewrite decide_True by done; simpl; lia|].
    rewrite decide_False by tauto. done.
  - rewrite A4, H3. done.
Qed.

Lemma removeKey_consistent kv c :
  consistent c ->
  let c' := removeKey growth (Key kv) c in
  consistent c' /\ exclusive c' = exclusive c /\ mapping c' = spec_delete kv (mapping c).
Proof.
  intros Hc. pose proof (co_wf c Hc) as Hwf. unfold removeKey.
  assert (Hwf' : heap_wf (setDirty true c)) by (destruct Hwf; split; auto).
  destruct (doRemoveKey_spec (Key kv) _ Hwf') as (H1 & H2 & H3 & H4 & H5). simpl in *.
  split_and!; [split; auto|done|done].
  - intros v k. rewrite H2, lookup_delete_Some, <- (co_keys c Hc), H5.
    change (keys_of (setDirty true c) v) with (keys_of c v).
    destruct (decide _) as [Heq|Hne].
    + rewrite list_elem_of_filter. naive_solver.
    + split; [|tauto]. intros Hk. split; [|done]. intros <-. apply (co_keys c Hc) in Hk. congruence.
  - intros v Hex. rewrite H3 in Hex. pose proof (co_single c Hc v Hex). rewrite H5.
    change (keys_of (setDirty true c) v) with (keys_of c v).
    destruct (decide _); [|done]. etrans; [apply length_filter|done].
  - rewrite H4. done.
Qed.

Lemma newContainer_consistent ex : consistent (newContainer (F := F) ex).
Proof.
  assert (Hv : forall v, values (newContainer (F := F) ex) !! v = None) by (intros v; apply lookup_empty).
  assert (Hk : forall v, keys_of (newContainer ex) v = []) by (intros v; unfold keys_of; by rewrite Hv).
  split; [split| | |done].
  - intros v s Hs. by rewrite Hv in Hs.
  - intros v v' s s' Hs. by rewrite Hv in Hs.
  - intros v k. rewrite Hk, elem_of_nil. simpl. by rewrite lookup_empty.
  - intros v _. rewrite Hk. simpl. lia.
Qed.

(** *** Sequences of calls *)

Variant call := CAdd (kv : KV) | CDelete (kv : KV) | CListen (f : F) | CValues (ord : list string -> list string).

Definition perform (op : call) c : container F :=
  match op with
  | CAdd kv => snd (container_OnAdd growth kv c)
  | CDelete kv => snd (container_OnDelete growth kv c)
  | CListen f => addListener f c
  | CValues ord => snd (getValues ord c)
  end.

Definition spec_perform (ex : bool) (op : call) (m : gmap string string) : gmap string string :=
  match op with
  | CAdd kv => spec_add ex kv m
  | CDelete kv => spec_delete kv m
  | _ => m
  end.

(** No call gives a shown entry another value; ranges over maps are permutations. *)
Fixpoint well_behaved (ex : bool) (m : gmap string string) (ops : list call) : Prop :=
  match ops with
  | [] => True
  | op :: ops =>
    match op with CAdd kv => keeps_value kv m | CValues ord => forall l, ord l ≡ₚ l | _ => True end /\
    well_behaved ex (spec_perform ex op m) ops
  end.

Lemma perform_consistent op c :
  consistent c ->
  match op with CAdd kv => keeps_value kv (mapping c) | CValues ord => forall l, ord l ≡ₚ l | _ => True end ->
  consistent (perform op c) /\ exclusive (perform op c) = exclusive c /\
  mapping (perform op c) = spec_perform (exclusive c) op (mapping c).
Proof.
  intros Hc. destruct op as [kv|kv|f|ord]; simpl; intros Hop.
  - by apply addKv_consistent.
  - by apply removeKey_consistent.
  - split_and!; [|done|done]. destruct Hc as [[] ???]. by split.
  - unfold getValues. destruct (dirty c) eqn:Ed; simpl; [|auto].
    split_and!; [|done|done]. destruct Hc as [[] ???]. split; simpl; eauto. by split.
Qed.

Lemma getValues_shown ord c :
  heap_wf c -> (forall l, ord l ≡ₚ l) ->
  (dirty c = false -> exists vals, snapshot c = Some vals /\ vals ≡ₚ map fst (map_to_list (values c))) ->
  exists vals, fst (getValues ord c) = Ok vals /\ NoDup vals /\
    forall v, v ∈ vals <-> keys_of c v <> [].
Proof.
  intros Hwf Hord Hsnap.
  assert (Hp : exists vals, fst (getValues ord c) = Ok vals /\ vals ≡ₚ map fst (map_to_list (values c))).
  { unfold getValues. destruct (dirty c) eqn:Ed; simpl; [eauto|].
    destruct (Hsnap eq_refl) as (vals & -> & ?). eauto. }
  destruct Hp as (vals & -> & Hp). exists vals. split_and!; [done| |].
  - rewrite Hp. apply (NoDup_fst_map_to_list (values c)).
  - intros v. rewrite Hp, (keys_of_nil c v Hwf). split.
    + intros ([v' s] & -> & Hs%elem_of_map_to_list)%list_elem_of_fmap. simpl. congruence.
    + destruct (values c !! v) as [s|] eqn:Es; [|done]. intros _. apply list_elem_of_fmap.
      exists (v, s). split; [done|]. by apply elem_of_map_to_list.
Qed.

Lemma getValues_current ord c :
  consistent c -> (forall l, ord l ≡ₚ l) ->
  exists vals, fst (getValues ord c) = Ok vals /\ NoDup vals /\
    forall v, v ∈ vals <-> exists k, mapping c !! k = Some v.
Proof.
  intros Hc Hord. destruct (getValues_shown ord c (co_wf c Hc) Hord (co_dirty c Hc)) as (vals & H1 & H2 & H3).
  exists vals. split_and!; auto. intros v. rewrite H3. split.
  - destruct (keys_of c v) as [|k l] eqn:Ek; [done|]. intros _. exists k.
    apply (co_keys c Hc). rewrite Ek. apply list_elem_of_here.
  - intros [k Hk%(co_keys c Hc)] Hn. rewrite Hn in Hk. by apply elem_of_nil in Hk.
Qed.

Lemma run_consistent ops : forall c,
  consistent c -> well_behaved (exclusive c) (mapping c) ops ->
  let c' := foldl (fun c op => perform op c) c ops in
  consistent c' /\ exclusive c' = exclusive c /\
  mapping c' = foldl (fun m op => spec_perform (exclusive c) op m) (mapping c) ops.
Proof.
  induction ops as [|op ops IH]; intros c Hc Hops; simpl; [auto|]. destruct Hops as [Hop Hops].
  destruct (perform_consistent op c Hc Hop) as (H1 & H2 & H3).
  rewrite <- H3, <- H2 in *. apply IH; auto.
Qed.

(** After any sequence of notifications, [AddListener] and [Values] calls that
    never gives a shown entry another value, [Values] returns (from the snapshot
    or not) exactly the values of the entries that were added and not deleted,
    each once; in an exclusive subscriber every value belongs to one key, the
    last one added with it. *)
Theorem subscriber_values_current ex ops ord :
  well_behaved ex ∅ ops -> (forall l, ord l ≡ₚ l) ->
  let c := foldl (fun c op => perform op c) (newContainer ex) ops in
  let m := foldl (fun m op => spec_perform ex op m) ∅ ops in
  (exists vals, fst (getValues ord c) = Ok vals /\ NoDup vals /\
    forall v, v ∈ vals <-> exists k, m !! k = Some v) /\
  (ex = true -> forall k k' v, m !! k = Some v -> m !! k' = Some v -> k = k').
Proof.
  intros Hops Hord c m.
  destruct (run_consistent ops (newContainer ex) (newContainer_consistent ex) Hops) as (H1 & H2 & H3).
  subst c m. simpl in *. rewrite <- H3. split; [by apply getValues_current|].
  intros Hex k k' v Hk%(co_keys _ H1) Hk'%(co_keys _ H1).
  pose proof (co_single _ H1 v ltac:(congruence)) as Hlen.
  destruct (keys_of _ v) as [|x [|]]; simpl in Hlen; [by apply elem_of_nil in Hk| |lia].
  apply list_elem_of_singleton in Hk, Hk'. congruence.
Qed.

End lemmas.
Arguments call : clear implicits.

(** The container is a listener of the registry. *)
#[export] Instance container_listener {F} (growth : nat -> nat) : UpdateListener (container F) := {
  OnAdd kv c := snd (container_OnAdd growth kv c);
  OnDelete kv c := snd (container_OnDelete growth kv c)
}.

#[export] Program Instance container_listener_laws {F} (growth : nat -> nat) :
  UpdateListenerLaws (container F) (UpdateListener0 := container_listener growth) := {
  ul_shows m c := consistent c /\ exclusive c = false /\ mapping c = m
}.
Next Obligation.
  intros F growth m c kv (Hc & Hex & <-) Hkeep.
  destruct (addKv_consistent growth kv c Hc Hkeep) as (H1 & H2 & H3).
  rewrite Hex in *. auto.
Qed.
Next Obligation.
  intros F growth m c kv (Hc & Hex & <-).
  destruct (removeKey_consistent growth kv c Hc) as (H1 & H2 & H3). exact (conj H1 (conj (eq_trans H2 Hex) H3)).
Qed.

(** The concrete calls of the witness: two keys of one address in an exclusive
    subscriber, a snapshot in between, and a deletion. *)
Definition demo_calls : list (call nat) :=
  [CAdd (mkKV "k1" "host1"); CListen 0; CAdd (mkKV "k2" "host2"); CValues id;
   CAdd (mkKV "k3" "host1"); CDelete (mkKV "k2" "host2")].

Lemma subscriber_values_current_witness :
  well_behaved true ∅ demo_calls /\
  let c := foldl (fun c op => perform (fun n => n) op c) (newContainer true) demo_calls in
  fst (getValues id c) = Ok ["host1"] /\
  exists vals, fst (getValues id c) = Ok vals /\ NoDup vals.
Proof.
  assert (H : well_behaved true ∅ demo_calls).
  { vm_compute. intuition (auto; reflexivity). }
  split; [exact H|]. split; [vm_compute; reflexivity|].
  destruct (subscriber_values_current (fun n => n) true demo_calls id H ltac:(done)) as [(vals & H1 & H2 & _) _].
  eauto.
Defined.

(** Adding an entry again with another value, then deleting it, leaves the old
    value shown and the new one not: [doRemoveKey] only looks under the value the
    key has now. *)
Lemma stale_after_change {F} growth k v1 v2 (c : container F) :
  heap_wf c -> exclusive c = false ->
  let c' := snd (container_OnDelete growth (mkKV k v1) (snd (container_OnAdd growth (mkKV k v2) c))) in
  heap_wf c' /\ dirty c' = true /\ mapping c' = delete k (mapping c) /\
  forall v, keys_of c' v = if decide (v = v2) then filter (fun j => j <> k) (keys_of c v) else keys_of c v.
Proof.
  intros Hwf Hex. unfold container_OnDelete, container_OnAdd, removeKey. cbv zeta. cbn [fst snd Key Val].
  destruct (addKv_shared growth k v2 c Hwf Hex) as (A1 & A2 & A3 & A4 & A5).
  set (c1 := snd (addKv growth k v2 c)) in *.
  assert (Hwf1 : heap_wf (setDirty true c1)) by (destruct A1; by split).
  destruct (doRemoveKey_spec growth k _ Hwf1) as (B1 & B2 & B3 & B4 & B5).
  change (mapping (setDirty true c1)) with (mapping c1) in *.
  assert (Hkeys : forall v, keys_of (setDirty true c1) v = keys_of c1 v) by done.
  split_and!; auto.
  - rewrite B2, A2. apply delete_insert_eq.
  - intros v. rewrite B5, A2, lookup_insert_eq, Hkeys, A5. destruct (decide (v = v2)) as [->|Hne].
    + rewrite decide_True by done. rewrite filter_app, filter_cons_False by tauto. by rewrite app_nil_r.
    + by rewrite decide_False by congruence.
Qed.
