(* ===== verification/Registry.v ===== *)
(** * [core/discov/internal/registry.go]: the registry of watched etcd keys

    A [cluster] keeps, for each watched key, the etcd entries under it and the
    listeners to notify.  The listeners are known through the interface
    [UpdateListener] only; [Subscriber.container] is the implementation.  The
    answers of etcd (a third-party service) are arguments: the results of the
    [Get] attempts of [load] and the messages of the watch channel.  The order of
    a range over a map is the argument [ord].  Goroutines are sequences of the
    operations below; their interleaving on the cluster's lock is the step
    relation of the last section. *)

From S2P Require Import Prelude.
From S2P Require Import Interfaces.
From S2P Require Import Subscriber.


Definition Delimiter : string := "/".
Definition endpointsSeparator : string := ",".

(** [getClusterKey]: [sort.Strings] and [strings.Join] *)
Definition getClusterKey (endpoints : list string) : string :=
  String.concat endpointsSeparator (merge_sort String.le endpoints).

Definition makeKeyPrefix (key : string) : string := key +:+ Delimiter.

Variant EventType := EventTypePut | EventTypeDelete | EventTypeOther (t : Z).
Record Event := mkEvent { ev_type : EventType; ev_key : string; ev_value : string }.

(** What [load] asks of etcd, and the answer: the entries and the revision. *)
Variant query := GetKey (key : string) | GetPrefix (prefix : string).
Record GetResponse := mkGetResponse { resp_kvs : list KV; resp_revision : Z }.

(** What the select of [watchStream] receives. *)
Variant watch_error := ErrCompacted | ErrOther (msg : string).
Record WatchResponse := mkWatchResponse
  { w_canceled : bool; w_err : option watch_error; w_events : list Event }.
Variant received := RMessage (w : WatchResponse) | RClosed | RDone.

(** The errors of [watchStream]: two of them wrap that of the response. *)
Variant stream_error := errClosed | errCanceled (e : option watch_error) | errChan (e : watch_error).
Definition is_compacted (e : stream_error) : bool :=
  match e with
  | errCanceled (Some ErrCompacted) | errChan ErrCompacted => true
  | _ => false
  end.

Section cluster.
Context {L : Type} `{!UpdateListener L}.
Variable ord : list (string * string) -> list (string * string).

Record cluster := mkCluster {
  endpoints : list string;
  c_key : string;
  c_values : gmap string (gmap string string);
  c_listeners : gmap string (list L);
  exactMatch : bool
}.

(** [getClusterKey] sorts its argument in place, and the cluster keeps that slice. *)
Definition newCluster (endpoints : list string) : cluster :=
  mkCluster (merge_sort String.le endpoints) (getClusterKey endpoints) ∅ ∅ false.

Definition getCurrent (key : string) (c : cluster) : list KV :=
  map (fun '(k, v) => mkKV k v) (ord (map_to_list (default ∅ (c_values c !! key)))).

(** [for _, kv := range kvs { for _, l := range listeners { l.On...(kv) } }] *)
Definition notify (on : KV -> L -> L) (kvs : list KV) (listeners : list L) : list L :=
  foldl (fun ls kv => map (on kv) ls) listeners kvs.

(** [m := make(...); for _, kv := range kvs { m[kv.Key] = kv.Val }] *)
Definition kvs_map (kvs : list KV) : gmap string string :=
  foldl (fun m kv => <[Key kv := Val kv]> m) ∅ kvs.

(** The entries of [a] that [b] has not, or has with another value. *)
Definition changed_in (a b : gmap string string) : list KV :=
  map (fun '(k, v) => mkKV k v)
    (List.filter (fun '(k, v) => match b !! k with
                                 | Some val => negb (bool_decide (v = val))
                                 | None => true
                                 end) (ord (map_to_list a))).

Definition handleChanges (key : string) (kvs : list KV) (c : cluster) : cluster :=
  let '(add, remove, vals) :=
    match c_values c !! key with
    | None => (kvs, [], kvs_map kvs)
    | Some vals =>
      let m := kvs_map kvs in
      (changed_in m vals, changed_in vals m, m)
    end in
  mkCluster (endpoints c) (c_key c) (<[key := vals]> (c_values c))
    (alter (fun ls => notify OnDelete remove (notify OnAdd add ls)) key (c_listeners c))
    (exactMatch c).

Definition handleWatchEvent (key : string) (c : cluster) (ev : Event) : cluster :=
  let kv := mkKV (ev_key ev) (ev_value ev) in
  match ev_type ev with
  | EventTypePut =>
    mkCluster (endpoints c) (c_key c)
      (match c_values c !! key with
       | Some vals => <[key := <[ev_key ev := ev_value ev]> vals]> (c_values c)
       | None => <[key := {[ ev_key ev := ev_value ev ]}]> (c_values c)
       end)
      (alter (map (OnAdd kv)) key (c_listeners c)) (exactMatch c)
  | EventTypeDelete =>
    mkCluster (endpoints c) (c_key c)
      (match c_values c !! key with
       | Some vals => <[key := delete (ev_key ev) vals]> (c_values c)
       | None => c_values c
       end)
      (alter (map (OnDelete kv)) key (c_listeners c)) (exactMatch c)
  | EventTypeOther _ => c
  end.

Definition handleWatchEvents (key : string) (events : list Event) (c : cluster) : cluster :=
  foldl (handleWatchEvent key) c events.

Definition load_query (key : string) (c : cluster) : query :=
  if exactMatch c then GetKey key else GetPrefix (makeKeyPrefix key).

(** [load] retries until etcd answers: [attempts] are the results of its [Get]
    calls, and [None] says that none of them has succeeded yet. *)
Fixpoint load (attempts : list (query -> option GetResponse)) (key : string) (c : cluster)
  : option (Z * cluster) :=
  match attempts with
  | [] => None
  | Get :: attempts =>
    match Get (load_query key c) with
    | Some resp => Some (resp_revision resp, handleChanges key (resp_kvs resp) c)
    | None => load attempts key c
    end
  end.

(** [monitor]: the revision to watch from is what it hands to [watch]; [inl] is
    the error of [getClient]. *)
Definition monitor (client : string + list (query -> option GetResponse)) (key : string) (l : L)
    (exact : bool) (c : cluster) : option ((string + Z) * cluster) :=
  let c := mkCluster (endpoints c) (c_key c) (c_values c)
             (<[key := default [] (c_listeners c !! key) ++ [l]]> (c_listeners c)) exact in
  match client with
  | inl err => Some (inl err, c)
  | inr attempts =>
    match load attempts key c with
    | Some (rev, c) => Some (inr rev, c)
    | None => None
    end
  end.

(** [watchStream]: [None] while it waits for the next message. *)
Fixpoint watchStream (key : string) (rch : list received) (c : cluster)
  : option (option stream_error) * cluster :=
  match rch with
  | [] => (None, c)
  | RClosed :: _ => (Some (Some errClosed), c)
  | RDone :: _ => (Some None, c)
  | RMessage w :: rch =>
    if w_canceled w then (Some (Some (errCanceled (w_err w))), c)
    else match w_err w with
         | Some e => (Some (Some (errChan e)), c)
         | None => watchStream key rch (handleWatchEvents key (w_events w) c)
         end
  end.

(** [watch]: one list of messages per stream it opens, with the [Get] attempts it
    makes after the stream when the revision was compacted.  The result is the
    cluster and whether [watch] has returned. *)
Fixpoint watch (key : string) (rev : Z)
    (streams : list (list received * list (query -> option GetResponse))) (c : cluster)
  : bool * cluster :=
  match streams with
  | [] => (false, c)
  | (rch, attempts) :: streams =>
    match watchStream key rch c with
    | (None, c) => (false, c)
    | (Some None, c) => (true, c)
    | (Some (Some err), c) =>
      if (negb (rev =? 0)%Z && is_compacted err)%bool then
        match load attempts key c with
        | Some (rev, c) => watch key rev streams c
        | None => (false, c)
        end
      else watch key rev streams c
    end
  end.

(** The part of [reload] after the old watchers are gone: every watched key is
    loaded again; the loads are independent, [keys] is the order they happen in. *)
Fixpoint reload_keys (keys : list string) (attempts : string -> list (query -> option GetResponse))
    (c : cluster) : option cluster :=
  match keys with
  | [] => Some c
  | k :: keys =>
    match load (attempts k) k c with
    | Some (_, c) => reload_keys keys attempts c
    | None => None
    end
  end.

(** The registry is the map of the clusters by their key. *)
Definition getCluster (endpoints : list string) (r : gmap string cluster)
  : cluster * bool * gmap string cluster :=
  let clusterKey := getClusterKey endpoints in
  match r !! clusterKey with
  | Some c => (c, true, r)
  | None => let c := newCluster endpoints in (c, false, <[clusterKey := c]> r)
  end.

(** [Registry.Monitor], with nothing in between its steps. *)
Definition Monitor (eps : list string) (client : string + list (query -> option GetResponse))
    (key : string) (l : L) (exact : bool) (r : gmap string cluster)
  : option ((string + Z) * gmap string cluster) :=
  let '(c, exists_, r) := getCluster eps r in
  let l := if exists_ then foldl (fun l kv => OnAdd kv l) l (getCurrent key c) else l in
  match monitor client key l exact c with
  | Some (res, c) => Some (res, <[getClusterKey eps := c]> r)
  | None => None
  end.

End cluster.
Arguments cluster : clear implicits.
Abbreviation Registry L := (gmap string (cluster L)).

(** ** The listeners show the entries of the cluster *)

Section tracking.
Context {L : Type} `{!UpdateListener L} `{!UpdateListenerLaws L}.
Variable ord : list (string * string) -> list (string * string).
Hypothesis ord_perm : forall l, ord l ≡ₚ l.
Implicit Types (c : cluster L) (r : Registry L).

Definition shown (key : string) c : gmap string string := default ∅ (c_values c !! key).

Definition tracks c : Prop :=
  forall key ls, c_listeners c !! key = Some ls -> Forall (ul_shows (shown key c)) ls.

(** An answer of etcd with distinct keys that gives no known entry another value. *)
Definition steady (key : string) (kvs : list KV) c : Prop :=
  NoDup (map Key kvs) /\ Forall (fun kv => keeps_value kv (shown key c)) kvs.

Lemma elem_of_changed_in a b kv :
  kv ∈ changed_in ord a b <-> a !! Key kv = Some (Val kv) /\ b !! Key kv <> Some (Val kv).
Proof.
  unfold changed_in. rewrite list_elem_of_fmap. split.
  - intros ([k v] & -> & Hin). apply list_elem_of_In, List.filter_In in Hin as [Hin Hb].
    apply list_elem_of_In in Hin. rewrite ord_perm, elem_of_map_to_list in Hin. simpl. split; [done|].
    destruct (b !! k); [|done]. apply negb_true_iff, bool_decide_eq_false in Hb. congruence.
  - destruct kv as [k v]. simpl. intros [Ha Hb]. exists (k, v). split; [done|].
    apply list_elem_of_In, List.filter_In. split.
    + apply list_elem_of_In. by rewrite ord_perm, elem_of_map_to_list.
    + destruct (b !! k); [|done]. apply negb_true_iff, bool_decide_eq_false. congruence.
Qed.

(** Adding entries of a map [T] to listeners that show part of [T]. *)
Lemma notify_add T kvs : forall M ls,
  M ⊆ T -> Forall (fun kv => T !! Key kv = Some (Val kv)) kvs -> Forall (ul_shows M) ls ->
  (forall k v, T !! k = Some v -> M !! k = Some v \/ mkKV k v ∈ kvs) ->
  Forall (ul_shows T) (notify OnAdd kvs ls).
Proof.
  induction kvs as [|[k v] kvs IH]; intros M ls Hsub Hkvs Hls Hall; simpl.
  - replace T with M; [done|]. apply map_eq. intros i. destruct (T !! i) as [v|] eqn:E.
    + destruct (Hall i v E) as [?|Hin]; [done|]. by apply elem_of_nil in Hin.
    + by eapply lookup_weaken_None.
  - apply Forall_cons in Hkvs as [Hk Hkvs]. simpl in Hk. apply (IH (<[k := v]> M)); auto.
    + by apply insert_subseteq_l.
    + apply Forall_fmap. eapply Forall_impl; [exact Hls|]. simpl. intros l Hl.
      apply (ul_add M l (mkKV k v)); [done|]. simpl.
      destruct (M !! k) as [v'|] eqn:E; [right|by left].
      assert (T !! k = Some v') by by eapply lookup_weaken. congruence.
    + intros k' v' Hv'. destruct (decide (k' = k)) as [->|Hne].
      * rewrite lookup_insert_eq. left. congruence.
      * rewrite lookup_insert_ne by done. destruct (Hall k' v' Hv') as [?|Hin]; [by left|].
        apply elem_of_cons in Hin as [[= -> _]|?]; [done|by right].
Qed.

Lemma notify_delete kvs : forall M ls,
  Forall (ul_shows M) ls ->
  Forall (ul_shows (foldl (fun m kv => delete (Key kv) m) M kvs)) (notify OnDelete kvs ls).
Proof.
  induction kvs as [|kv kvs IH]; intros M ls Hls; simpl; [done|]. apply IH.
  apply Forall_fmap. eapply Forall_impl; [exact Hls|]. simpl. intros l Hl. by apply ul_delete.
Qed.

Lemma lookup_foldl_delete kvs k : forall M : gmap string string,
  foldl (fun m kv => delete (Key kv) m) M kvs !! k =
  if decide (k ∈ map Key kvs) then None else M !! k.
Proof.
  induction kvs as [|[k' v'] kvs IH]; intros M; cbn [foldl map].
  - case_decide as H; [by apply elem_of_nil in H|done].
  - rewrite IH. cbn [Key]. case_decide as Hin.
    + rewrite decide_True; [done|]. by right.
    + destruct (decide (k = k')) as [->|Hne].
      * rewrite lookup_delete_eq. rewrite decide_True; [done|]. left.
      * rewrite lookup_delete_ne by done. rewrite decide_False; [done|].
        intros [?|?]%elem_of_cons; auto.
Qed.

Lemma lookup_kvs_map kvs kv : NoDup (map Key kvs) -> kv ∈ kvs -> kvs_map kvs !! Key kv = Some (Val kv).
Proof.
  unfold kvs_map. revert kvs. induction kvs as [|kv' kvs IH] using rev_ind.
  { intros _ H. by apply elem_of_nil in H. }
  rewrite map_app, foldl_app. simpl. intros (Hnd & Hdis & _)%NoDup_app Hin.
  apply elem_of_app in Hin as [Hin|Hin%list_elem_of_singleton].
  - rewrite lookup_insert_ne; [by apply IH|]. intros Heq. apply (Hdis (Key kv)).
    + apply list_elem_of_fmap. eauto.
    + rewrite Heq. left.
  - subst kv'. by rewrite lookup_insert_eq.
Qed.

Lemma elem_of_kvs_map kvs k v : kvs_map kvs !! k = Some v -> mkKV k v ∈ kvs.
Proof.
  unfold kvs_map. induction kvs as [|[k' v'] kvs IH] using rev_ind; [done|].
  rewrite foldl_app. simpl. intros [[-> ->]|[_ H]]%lookup_insert_Some; apply elem_of_app;
    [right; left|left; auto].
Qed.

(** A change of the entries and listeners of one key. *)
Lemma tracks_alter key f m c c' :
  tracks c -> c_listeners c' = alter f key (c_listeners c) ->
  (forall key', shown key' c' = if decide (key' = key) then m else shown key' c) ->
  (forall ls, Forall (ul_shows (shown key c)) ls -> Forall (ul_shows m) (f ls)) ->
  tracks c'.
Proof.
  intros Hc Hl Hs Hf key' ls. rewrite Hl, Hs. destruct (decide (key' = key)) as [->|Hne].
  - rewrite lookup_alter_eq. intros (ls0 & Hls0 & ->)%fmap_Some. eauto.
  - rewrite lookup_alter_ne by done. apply Hc.
Qed.

Lemma shown_insert key m vs c c' key' :
  vs = <[key := m]> (c_values c) -> c_values c' = vs ->
  shown key' c' = if decide (key' = key) then m else shown key' c.
Proof.
  intros -> Hv. unfold shown. rewrite Hv. destruct (decide (key' = key)) as [->|Hne].
  - by rewrite lookup_insert_eq.
  - by rewrite lookup_insert_ne.
Qed.

(** The two notification loops of a reload lead from the old entries to the new ones. *)
Lemma notify_changes vals m ls :
  (forall k v v', vals !! k = Some v -> m !! k = Some v' -> v = v') ->
  Forall (ul_shows vals) ls ->
  Forall (ul_shows m) (notify OnDelete (changed_in ord vals m) (notify OnAdd (changed_in ord m vals) ls)).
Proof.
  intros Hagree Hls.
  assert (Hadd : Forall (ul_shows (vals ∪ m)) (notify OnAdd (changed_in ord m vals) ls)).
  { apply (notify_add _ _ vals); [apply map_union_subseteq_l| |done|].
    - apply Forall_forall. intros kv [H1 H2]%elem_of_changed_in.
      rewrite lookup_union_r; [done|]. destruct (vals !! Key kv) as [v|] eqn:E; [|done].
      exfalso. apply H2. f_equal. by eapply Hagree.
    - intros k v [H|[Hn H]]%lookup_union_Some_raw; [by left|right].
      apply elem_of_changed_in. simpl. split; congruence. }
  apply (notify_delete (changed_in ord vals m)) in Hadd.
  replace m with (foldl (fun m kv => delete (Key kv) m) (vals ∪ m) (changed_in ord vals m)) at 1; [done|].
  apply map_eq. intros k. rewrite lookup_foldl_delete. destruct (decide _) as [Hin|Hin].
  - apply list_elem_of_fmap in Hin as (kv & -> & [H1 H2]%elem_of_changed_in).
    destruct (m !! Key kv) as [v|] eqn:E; [|done]. exfalso. apply H2. f_equal. symmetry. by eapply Hagree.
  - destruct (vals !! k) as [v|] eqn:E; [|by rewrite lookup_union_r].
    rewrite (lookup_union_Some_l _ _ _ _ E). symmetry. apply dec_stable. intros Hm. apply Hin.
    apply list_elem_of_fmap. exists (mkKV k v). split; [done|]. by apply elem_of_changed_in.
Qed.

Lemma handleChanges_spec key kvs c :
  steady key kvs c -> tracks c ->
  tracks (handleChanges ord key kvs c) /\ shown key (handleChanges ord key kvs c) = kvs_map kvs /\
  forall key', key' <> key -> shown key' (handleChanges ord key kvs c) = shown key' c.
Proof.
  intros [Hnd Hkeep] Hc.
  assert (Hs : forall key', shown key' (handleChanges ord key kvs c) =
    if decide (key' = key) then kvs_map kvs else shown key' c).
  { intros key'. eapply shown_insert; [done|]. unfold handleChanges. by destruct (c_values c !! key). }
  split; [|split; [by rewrite Hs, decide_True|intros; by rewrite Hs, decide_False]].
  revert Hs. unfold handleChanges. rewrite Forall_forall in Hkeep.
  destruct (c_values c !! key) as [vals|] eqn:Ev; intros Hs; (eapply tracks_alter; [exact Hc|done|exact Hs|]);
    intros ls; unfold shown; rewrite Ev; simpl; intros Hls.
  - apply notify_changes; [|done]. intros k v v' Hv Hv'%elem_of_kvs_map.
    destruct (Hkeep _ Hv') as [Hk|Hk]; unfold shown in Hk; rewrite Ev in Hk; simpl in Hk; congruence.
  - apply (notify_add _ _ ∅); [apply map_empty_subseteq| |done|].
    + apply Forall_forall. intros kv Hin. by apply lookup_kvs_map.
    + intros k v Hkv. right. by apply elem_of_kvs_map.
Qed.

Lemma handleWatchEvent_spec key c ev :
  (ev_type ev = EventTypePut -> keeps_value (mkKV (ev_key ev) (ev_value ev)) (shown key c)) ->
  tracks c -> tracks (handleWatchEvent key c ev).
Proof.
  intros Hkeep Hc. unfold handleWatchEvent. destruct (ev_type ev) eqn:Et; [| |done].
  - eapply (tracks_alter key _ (<[ev_key ev := ev_value ev]> (shown key c))); [exact Hc|done| |].
    + intros key'. unfold shown. simpl. destruct (c_values c !! key) as [vals|] eqn:Ev;
        destruct (decide (key' = key)) as [->|Hne]; rewrite ?lookup_insert_eq, ?lookup_insert_ne by done;
        rewrite ?Ev; simpl; done.
    + intros ls Hls. apply Forall_fmap. eapply Forall_impl; [exact Hls|]. simpl. intros l Hl.
      apply (ul_add _ _ (mkKV (ev_key ev) (ev_value ev))); auto. by apply Hkeep.
  - eapply (tracks_alter key _ (delete (ev_key ev) (shown key c))); [exact Hc|done| |].
    + intros key'. unfold shown. simpl. destruct (c_values c !! key) as [vals|] eqn:Ev;
        destruct (decide (key' = key)) as [->|Hne]; rewrite ?lookup_insert_eq, ?lookup_insert_ne by done;
        rewrite ?Ev; simpl; rewrite ?delete_empty; done.
    + intros ls Hls. apply Forall_fmap. eapply Forall_impl; [exact Hls|]. simpl. intros l Hl.
      apply (ul_delete _ _ (mkKV (ev_key ev) (ev_value ev))); auto.
Qed.

(** A batch of events in which no put gives a present entry another value. *)
Fixpoint steady_events (key : string) (events : list Event) c : Prop :=
  match events with
  | [] => True
  | ev :: events =>
    (ev_type ev = EventTypePut -> keeps_value (mkKV (ev_key ev) (ev_value ev)) (shown key c)) /\
    steady_events key events (handleWatchEvent key c ev)
  end.

Lemma handleWatchEvents_spec key events : forall c,
  steady_events key events c -> tracks c -> tracks (handleWatchEvents key events c).
Proof.
  unfold handleWatchEvents. induction events as [|ev events IH]; simpl; [done|].
  intros c [Hev Hevs] Hc. apply IH; [done|]. by apply handleWatchEvent_spec.
Qed.

Lemma load_spec attempts key c rev c' :
  Forall (fun Get => forall q resp, Get q = Some resp -> steady key (resp_kvs resp) c) attempts ->
  tracks c -> load ord attempts key c = Some (rev, c') -> tracks c'.
Proof.
  intros Hat Hc. induction Hat as [|Get attempts Hget _ IH]; simpl; [done|].
  destruct (Get (load_query key c)) as [resp|] eqn:E; [|done].
  intros [= _ <-]. by eapply handleChanges_spec; [eapply Hget|].
Qed.

(** A new listener is brought up to date before it is registered. *)
Lemma replay_shows key l c :
  ul_shows ∅ l -> ul_shows (shown key c) (foldl (fun l kv => OnAdd kv l) l (getCurrent ord key c)).
Proof.
  intros Hl. set (kvs := getCurrent ord key c).
  assert (Hn : forall kvs ls, notify OnAdd kvs ls = map (fun l => foldl (fun l kv => OnAdd kv l) l kvs) ls).
  { clear. intros kvs. induction kvs as [|kv kvs IH]; intros ls; simpl.
    - symmetry. apply map_id.
    - rewrite IH, map_map. done. }
  assert (Hin : forall k v, mkKV k v ∈ kvs <-> shown key c !! k = Some v).
  { intros k v. subst kvs. unfold getCurrent. rewrite list_elem_of_fmap. split.
    - intros ([k' v'] & Heq & Hin). injection Heq as <- <-. by rewrite ord_perm, elem_of_map_to_list in Hin.
    - intros Hk. exists (k, v). split; [done|]. by rewrite ord_perm, elem_of_map_to_list. }
  assert (H : Forall (ul_shows (shown key c)) (notify OnAdd kvs [l])).
  { apply (notify_add _ _ ∅); [apply map_empty_subseteq| |by repeat constructor|].
    - apply Forall_forall. intros [k v] Hkv. by apply Hin.
    - intros k v Hk. right. by apply Hin. }
  rewrite Hn in H. by apply Forall_inv in H.
Qed.

Lemma monitor_spec client key l exact c res c' :
  match client with
  | inl _ => True
  | inr attempts =>
    Forall (fun Get => forall q resp, Get q = Some resp -> steady key (resp_kvs resp) c) attempts
  end ->
  ul_shows (shown key c) l -> tracks c -> monitor ord client key l exact c = Some (res, c') -> tracks c'.
Proof.
  intros Hat Hl Hc. unfold monitor. set (c1 := mkCluster _ _ _ _ _).
  assert (Hc1 : tracks c1).
  { intros key' ls. unfold c1. simpl. change (shown key' _) with (shown key' c).
    intros [[<- <-]|[_ H]]%lookup_insert_Some; [|by apply Hc].
    apply Forall_app. split; [|by apply Forall_singleton].
    destruct (c_listeners c !! key) eqn:E; [by apply Hc|done]. }
  destruct client as [err|attempts]; [intros [= _ <-]; done|].
  destruct (load _ _ _ _) as [[rev c2]|] eqn:E; [|done]. intros [= _ <-].
  eapply load_spec; [|exact Hc1|exact E]. exact Hat.
Qed.

(** The steps of the registry: whole [Monitor] calls of new listeners, batches of
    watch events and loads, in any order and for any keys and clusters. *)
Inductive rstep : Registry L -> Registry L -> Prop :=
| step_monitor eps client key l exact r res r' :
    ul_shows ∅ l ->
    match client with
    | inl _ => True
    | inr attempts =>
      Forall (fun Get => forall q resp, Get q = Some resp ->
        steady key (resp_kvs resp) (fst (fst (getCluster eps r)))) attempts
    end ->
    Monitor ord eps client key l exact r = Some (res, r') ->
    rstep r r'
| step_events ck c key events r :
    r !! ck = Some c -> steady_events key events c ->
    rstep r (<[ck := handleWatchEvents key events c]> r)
| step_load ck c key attempts rev c' r :
    r !! ck = Some c ->
    Forall (fun Get => forall q resp, Get q = Some resp -> steady key (resp_kvs resp) c) attempts ->
    load ord attempts key c = Some (rev, c') ->
    rstep r (<[ck := c']> r).

Lemma rstep_tracks r r' :
  rstep r r' -> map_Forall (fun _ c => tracks c) r -> map_Forall (fun _ c => tracks c) r'.
Proof.
  intros Hstep Hr. destruct Hstep as [eps client key l exact r res r' Hl Hat HM|ck c key events r Hc Hev
    |ck c key attempts rev c' r Hc Hat Hload].
  - unfold Monitor, getCluster in *. set (ck := getClusterKey eps) in *.
    destruct (r !! ck) as [c|] eqn:Ec; simpl in Hat.
    + destruct (monitor _ _ _ _ _ _) as [[res' c']|] eqn:EM; [|done]. injection HM as _ <-.
      apply map_Forall_insert_2; [|done]. eapply monitor_spec; [exact Hat| |exact (Hr _ _ Ec)|exact EM].
      by apply replay_shows.
    + destruct (monitor _ _ _ _ _ _) as [[res' c']|] eqn:EM; [|done]. injection HM as _ <-.
      assert (Hnew : tracks (newCluster eps)) by (intros key' ls E; simpl in E; by rewrite lookup_empty in E).
      apply map_Forall_insert_2; [|by apply map_Forall_insert_2].
      eapply monitor_spec; [exact Hat| |exact Hnew|exact EM]. unfold shown. simpl. by rewrite lookup_empty.
  - apply map_Forall_insert_2; [|done]. apply handleWatchEvents_spec; [done|]. exact (Hr _ _ Hc).
  - apply map_Forall_insert_2; [|done]. eapply load_spec; [exact Hat|exact (Hr _ _ Hc)|exact Hload].
Qed.

Lemma reach_tracks r : rtc rstep ∅ r -> map_Forall (fun _ c => tracks c) r.
Proof.
  intros Hr. assert (H0 : map_Forall (fun _ c => tracks c) (∅ : Registry L)) by apply map_Forall_empty.
  revert H0. generalize (∅ : Registry L), r, Hr. clear r Hr.
  induction 1; [done|]. intros. eauto using rstep_tracks.
Qed.

End tracking.

(** ** The registry with its subscribers *)

Section subscribers.
Context {F : Type} (growth : nat -> nat).
Existing Instance container_listener.
Existing Instance container_listener_laws.
#[local] Instance the_listener : UpdateListener (container F) := container_listener growth.
#[local] Instance the_laws : UpdateListenerLaws (container F) := container_listener_laws growth.


(** When an entry changed its value while the watch was down, the reload
    leaves the subscriber with the old value and without the new one: the new
    entry is added before the old one is removed, and removing goes by key. *)
Theorem reload_keeps_old_value ord ord' key k v1 v2 (c : cluster (container F)) l :
  (forall x, ord x ≡ₚ x) -> (forall x, ord' x ≡ₚ x) -> v1 <> v2 ->
  c_values c !! key = Some {[ k := v1 ]} -> c_listeners c !! key = Some [l] ->
  consistent l -> exclusive l = false -> mapping l = {[ k := v1 ]} ->
  let c' := handleChanges ord key [mkKV k v2] c in
  c_values c' !! key = Some {[ k := v2 ]} /\
  exists l', c_listeners c' !! key = Some [l'] /\ fst (getValues ord' l') = Ok [v1].
Proof.
  intros Hord Hord' Hne Hv Hl Hcon Hex Hm.
  assert (Hone : forall a b w x, ({[ k := x ]} : gmap string string) = a -> b = ({[ k := w ]} : gmap string string) ->
     x <> w -> changed_in ord a b = [mkKV k x]).
  { intros a b w x <- -> Hxw. unfold changed_in. rewrite map_to_list_singleton.
    rewrite (proj1 (Permutation_singleton_r _ _) (Hord [(k, x)])). simpl.
    rewrite lookup_singleton_eq, bool_decide_eq_false_2 by done. done. }
  unfold handleChanges. rewrite Hv. unfold kvs_map. simpl. rewrite insert_empty.
  rewrite (Hone {[ k := v1 ]} {[ k := v2 ]} v2 v1), (Hone {[ k := v2 ]} {[ k := v1 ]} v1 v2) by done.
  rewrite lookup_insert_eq, lookup_alter_eq, Hl. split; [done|]. simpl. eexists. split; [done|].
  assert (Hk : forall v k', k' ∈ keys_of l v <-> k' = k /\ v = v1).
  { intros v k'. rewrite (co_keys l Hcon), Hm, lookup_singleton_Some. intuition congruence. }
  destruct (stale_after_change growth k v1 v2 l (co_wf l Hcon) Hex) as (H1 & H2 & _ & H4).
  change (fst (getValues ord' (snd (container_OnDelete growth (mkKV k v1)
    (snd (container_OnAdd growth (mkKV k v2) l))))) = Ok [v1]).
  edestruct (getValues_shown ord' _ H1 Hord') as (vals & -> & Hnd & Hvals); [by rewrite H2|].
  f_equal. apply Permutation_singleton_r. apply NoDup_Permutation; [done|apply NoDup_singleton|].
  intros v. rewrite Hvals, list_elem_of_singleton, H4.
  assert (Hnil : forall x : list string, x <> [] <-> exists y, y ∈ x).
  { intros [|y x]; [set_solver|]. split; [|done]. intros _. exists y. left. }
  rewrite Hnil. case_decide as E.
  - subst v. setoid_rewrite list_elem_of_filter. setoid_rewrite Hk. naive_solver.
  - setoid_rewrite Hk. naive_solver.
Qed.

End subscribers.

(** ** Concrete runs *)

Section demo.
#[local] Instance demo_listener : UpdateListener (container nat) := container_listener (fun n => n).
#[local] Instance demo_laws : UpdateListenerLaws (container nat) := container_listener_laws (fun n => n).

Definition demo_answer : query -> option GetResponse :=
  fun q => match q with
           | GetPrefix "svc/" => Some (mkGetResponse [mkKV "svc/1" "host1"; mkKV "svc/2" "host2"] 7)
           | _ => None
           end.

Definition demo_registry : Registry (container nat) :=
  match Monitor id ["b"; "a"] (inr [(fun _ => None); demo_answer]) "svc" (newContainer false) false ∅ with
  | Some (_, r) => r
  | None => ∅
  end.

Definition demo_container : container nat :=
  foldl (fun l kv => snd (container_OnAdd (fun n => n) kv l)) (newContainer false)
    [mkKV "svc/1" "host1"; mkKV "svc/2" "host2"].

Definition demo_cluster : cluster (container nat) :=
  mkCluster ["a"; "b"] "a,b" {[ "svc" := {[ "svc/1" := "host1"; "svc/2" := "host2" ]} ]}
    {[ "svc" := [demo_container] ]} false.

Lemma demo_registry_eq : demo_registry = {[ "a,b" := demo_cluster ]}.
Proof. vm_compute. reflexivity. Qed.


Definition one_container : container nat :=
  snd (container_OnAdd (fun n => n) (mkKV "svc/1" "host1") (newContainer false)).

Definition one_cluster : cluster (container nat) :=
  mkCluster ["a"] "a" {[ "svc" := {[ "svc/1" := "host1" ]} ]} {[ "svc" := [one_container] ]} false.

Lemma reload_keeps_old_value_witness :
  exists l', c_listeners (handleChanges id "svc" [mkKV "svc/1" "host9"] one_cluster) !! "svc" = Some [l'] /\
    fst (getValues id l') = Ok ["host1"].
Proof.
  assert (Hcon : consistent one_container).
  { apply (addKv_consistent (fun n => n) (mkKV "svc/1" "host1")); [apply newContainer_consistent|by left]. }
  destruct (reload_keeps_old_value (fun n => n) id id "svc" "svc/1" "host1" "host9" one_cluster one_container)
    as [_ H]; try done.
Defined.

(** A watch event that is handled after [Monitor] copied the current entries and
    before it registered the listener reaches the cluster but never the listener:
    the load that follows sees no difference. *)
Lemma monitor_race_loses_event :
  let c0 := one_cluster in
  let l := foldl (fun l kv => OnAdd kv l) (newContainer false : container nat) (getCurrent id "svc" c0) in
  let c1 := handleWatchEvents "svc" [mkEvent EventTypePut "svc/2" "host2"] c0 in
  match monitor id (inr [demo_answer]) "svc" l false c1 with
  | Some (inr _, c2) =>
    default ∅ (c_values c2 !! "svc") !! "svc/2" = Some "host2" /\
    map (fun l => fst (getValues id l)) (default [] (c_listeners c2 !! "svc"))
    = [Ok ["host1"; "host2"]; Ok ["host1"]]
  | _ => False
  end.
Proof. vm_compute. done. Qed.

End demo.

(** ** [reload] and the watchers on the cluster's lock *)

(** A watcher waits in the select of [watchStream], holds a message and wants the
    lock ([handleWatchEvents]), or has returned; [reload] locks, closes [done],
    waits for the watcher with the lock held, and unlocks. *)
Variant watcher_pc := WSelect | WHandle | WReturned.
Variant reload_pc := RStart | RLocked | RWaiting | RUnlocked.
Record lock_state := mkLockState { w_pc : watcher_pc; r_pc : reload_pc; locked : bool; done_closed : bool }.

Inductive lstep : lock_state -> lock_state -> Prop :=
| l_receive r b d : lstep (mkLockState WSelect r b d) (mkLockState WHandle r b d)
| l_stop r b : lstep (mkLockState WSelect r b true) (mkLockState WReturned r b true)
| l_handle r d : lstep (mkLockState WHandle r false d) (mkLockState WSelect r false d)
| l_lock w d : lstep (mkLockState w RStart false d) (mkLockState w RLocked true d)
| l_close w d : lstep (mkLockState w RLocked true d) (mkLockState w RWaiting true true)
| l_unlock d : lstep (mkLockState WReturned RWaiting true d) (mkLockState WReturned RUnlocked false d).

Definition linit : lock_state := mkLockState WSelect RStart false false.

Definition lstuck (s : lock_state) : Prop := forall s', ~ lstep s s'.

(** The lock is held exactly while [reload] is between its lock and its unlock. *)
Lemma lock_held s :
  rtc lstep linit s ->
  (locked s = true <-> r_pc s = RLocked \/ r_pc s = RWaiting) /\
  (done_closed s = true <-> r_pc s = RWaiting \/ r_pc s = RUnlocked).
Proof.
  revert s. apply rtc_ind_r.
  - simpl. intuition congruence.
  - intros y z _ Hs IH. destruct Hs; simpl in *; intuition congruence.
Qed.

Ltac finish_step :=
  first [eapply l_unlock | eapply l_handle | eapply l_stop | eapply l_close | eapply l_lock].

(** [reload] can wait for ever: it waits for the watchers while it holds the
    lock, and a watcher that has just received a message needs that lock.  This
    is the only way it gets stuck: every other reachable state can go on to the
    end of [reload]. *)
Theorem reload_deadlock s :
  rtc lstep linit s ->
  (lstuck s /\ r_pc s <> RUnlocked <-> s = mkLockState WHandle RWaiting true true) /\
  (exists t, rtc lstep linit t /\ lstuck t /\ r_pc t = RWaiting) /\
  (w_pc s <> WHandle \/ locked s = false -> exists t, rtc lstep s t /\ r_pc t = RUnlocked).
Proof.
  intros Hs. destruct (lock_held s Hs) as [Hl Hd].
  assert (Hstuck : lstuck (mkLockState WHandle RWaiting true true)) by (intros s' H; inversion H).
  split_and!.
  - split; [|intros ->; done].
    destruct s as [w r b d]; simpl in *. intros [Hst Hr].
    destruct w; [exfalso; eapply Hst; constructor| |];
      destruct r, b, d; try (exfalso; eapply Hst; constructor); try done; intuition congruence.
  - exists (mkLockState WHandle RWaiting true true). split_and!; [|done|done].
    do 2 (eapply rtc_l; [finish_step|]). apply rtc_once, l_receive.
  - destruct s as [w r b d]; simpl in *. intros Hgo.
    destruct w, r, b, d; try (exfalso; clear Hs Hstuck; intuition congruence); eexists;
      (split; [repeat (eapply rtc_l; [finish_step|]); apply rtc_refl|reflexivity]).
Qed.

Lemma reload_deadlock_witness :
  (exists t, rtc lstep linit t /\ lstuck t /\ r_pc t = RWaiting) /\
  (exists t, rtc lstep linit t /\ r_pc t = RUnlocked).
Proof.
  destruct (reload_deadlock linit (rtc_refl _ _)) as (_ & H1 & H2). split; [exact H1|].
  apply H2. by right.
Defined.

(** ** [statewatcher.go]: a reload per reconnection *)

Variant conn_state := Idle | Connecting | Ready | TransientFailure | Shutdown.
Record stateWatcher := mkStateWatcher { disconnected : bool; currentState : conn_state }.
Definition newStateWatcher : stateWatcher := mkStateWatcher false Idle.

(** [updateState]: the new state, and whether the listeners are notified. *)
Definition updateState (conn : conn_state) (sw : stateWatcher) : stateWatcher * bool :=
  match conn with
  | TransientFailure | Shutdown => (mkStateWatcher true conn, false)
  | Ready => if disconnected sw then (mkStateWatcher false conn, true)
             else (mkStateWatcher (disconnected sw) conn, false)
  | _ => (mkStateWatcher (disconnected sw) conn, false)
  end.

(** The loop of [stateWatcher.watch], over the states the connection takes: the
    number of times the listeners were notified. *)
Fixpoint sw_watch (states : list conn_state) (sw : stateWatcher) : stateWatcher * nat :=
  match states with
  | [] => (sw, 0)
  | s :: states =>
    let '(sw, b) := updateState s sw in
    let '(sw, n) := sw_watch states sw in
    (sw, (if b then 1 else 0) + n)
  end.

Definition is_failure (s : conn_state) : bool :=
  match s with TransientFailure | Shutdown => true | _ => false end.

(** The reconnections of a run: the [Ready] states after a failure that no other
    [Ready] state precedes. *)
Fixpoint reconnections (down : bool) (states : list conn_state) : nat :=
  match states with
  | [] => 0
  | Ready :: states => (if down then 1 else 0) + reconnections false states
  | s :: states => reconnections (down || is_failure s) states
  end.

Lemma sw_watch_reconnections states : forall sw,
  snd (sw_watch states sw) = reconnections (disconnected sw) states.
Proof.
  induction states as [|s states IH]; intros [d cur]; simpl; [done|].
  destruct s; simpl; try (destruct d; simpl);
    match goal with |- context [sw_watch states ?sw] => pose proof (IH sw) as E; destruct (sw_watch states sw) end;
    simpl in *; congruence || lia.
Qed.

(** ** The cluster of a set of endpoints does not depend on their order *)

Lemma getClusterKey_perm eps eps' : eps ≡ₚ eps' -> getClusterKey eps = getClusterKey eps'.
Proof.
  intros Hp. unfold getClusterKey. f_equal. apply (Sorted_unique String.le).
  - apply Sorted_merge_sort. apply _.
  - apply Sorted_merge_sort. apply _.
  - by rewrite !merge_sort_Permutation.
Qed.
