(* ===== verification/SortedMap.v ===== *)
(** * [tools/fastgoctl/pkg/collection/sortedmap.go]: the insertion-ordered map

    A doubly linked list of key-value cells and a Go map from keys to list
    elements.  An element is modelled by its identity (a number, unique in the
    map): the list holds the elements in order with their cells, the map holds
    identities, and writing through [e.Value.(KV)[1]] changes the cell of the
    element wherever it is.  Keys and values are of type [any], here a countable
    type [A] that the strings embed into, with the type assertion to a string. *)

From S2P Require Import Prelude.
From Stdlib Require Import Ascii.

Variant sm_error := ErrInvalidKVExpression | ErrInvalidKVS.

(** Go's [any], as far as the map uses it: strings, and the assertion [x.(string)]. *)
Class AnyString (A : Type) := {
  of_str : gostr -> A;
  as_str : A -> option gostr;
  as_of_str s : as_str (of_str s) = Some s
}.

(** [util/stringx]: the white space runes are ASCII, so a string holds one of them
    exactly when its bytes do. *)
Definition WhiteSpace : list ascii := ["010"; "009"; "012"; "011"; " "]%char.

Fixpoint ContainsAny (s : gostr) (runes : list ascii) : bool :=
  match runes with
  | [] => true
  | _ => match s with
         | [] => false
         | r :: s => if bool_decide (r ∈ runes) then true else ContainsAny s runes
         end
  end.

Definition ContainsWhiteSpace (s : gostr) : bool := ContainsAny s WhiteSpace.

(** [strings.Index(s, "=")] *)
Fixpoint index_eq (s : gostr) : option nat :=
  match s with
  | [] => None
  | c :: s => if bool_decide (c = "="%char) then Some 0 else S <$> index_eq s
  end.

Section sortedmap.
Context {A : Type} `{Countable A} `{!AnyString A}.

Record SortedMap := mkSortedMap {
  kv : list (nat * (A * A));
  keys : gmap A nat;
  next_elem : nat
}.

Definition New : SortedMap := mkSortedMap [] ∅ 0.

(** The cell of an element. *)
Fixpoint cell (e : nat) (l : list (nat * (A * A))) : option (A * A) :=
  match l with
  | [] => None
  | (e', kv) :: l => if e =? e' then Some kv else cell e l
  end.

(** [e.Value.(KV)[1] = value] *)
Definition write_value (e : nat) (value : A) (l : list (nat * (A * A))) : list (nat * (A * A)) :=
  map (fun '(e', (k, v)) => if e =? e' then (e', (k, value)) else (e', (k, v))) l.

Definition SetKV (key value : A) (m : SortedMap) : SortedMap :=
  match keys m !! key with
  | None =>
    let e := next_elem m in
    mkSortedMap (kv m ++ [(e, (key, value))]) (<[key := e]> (keys m)) (S e)
  | Some e => mkSortedMap (write_value e value (kv m)) (<[key := e]> (keys m)) (next_elem m)
  end.

(** [SetExpression] returns the key and the value it has set. *)
Definition SetExpression (expression : gostr) (m : SortedMap) : (sm_error + A * A) * SortedMap :=
  match index_eq expression with
  | None => (inl ErrInvalidKVExpression, m)
  | Some idx =>
    let key := take idx expression in
    let value := if length expression =? idx then [] else drop (idx + 1) expression in
    if ContainsWhiteSpace key then (inl ErrInvalidKVExpression, m)
    else if ContainsWhiteSpace value then (inl ErrInvalidKVExpression, m)
    else if length key =? 0 then (inl ErrInvalidKVExpression, m)
    else (inr (of_str key, of_str value), SetKV (of_str key) (of_str value) m)
  end.

(** The loop of [Set]: two arguments at a time. *)
Fixpoint Set_loop (kvs : list A) (m : SortedMap) : SortedMap :=
  match kvs with
  | k :: v :: kvs => Set_loop kvs (SetKV k v m)
  | _ => m
  end.

Definition Set_ (kvs : list A) (m : SortedMap) : option sm_error * SortedMap :=
  if length kvs =? 0 then (None, m)
  else if negb (length kvs mod 2 =? 0) then (Some ErrInvalidKVS, m)
  else (None, Set_loop kvs m).

(** [e.Value.(KV)[1]]; an element that is not in the list keeps its cell, but no
    operation keeps such an element. *)
Definition value_of (m : SortedMap) (e : nat) : outcome A :=
  match cell e (kv m) with
  | Some (_, v) => Ok v
  | None => Panic "nil pointer dereference"
  end.

Definition Get (key : A) (m : SortedMap) : outcome (option A) :=
  match keys m !! key with
  | None => Ok None
  | Some e => (v <~ value_of m e ;; Ok (Some v))%go
  end.

Definition GetOr (key dft : A) (m : SortedMap) : outcome A :=
  match keys m !! key with
  | None => Ok dft
  | Some e => value_of m e
  end.

Definition GetString (key : A) (m : SortedMap) : outcome (option gostr) :=
  (value <~ Get key m ;; Ok (value ≫= as_str))%go.

Definition GetStringOr (key : A) (dft : gostr) (m : SortedMap) : outcome gostr :=
  (value <~ GetString key m ;; Ok (default dft value))%go.

Definition HasKey (key : A) (m : SortedMap) : bool :=
  match keys m !! key with Some _ => true | None => false end.

(** [RangeIf] with an iterator that carries a state: it stops at the first [false]. *)
Fixpoint RangeIf_loop {S} (iterator : A -> A -> S -> bool * S) (l : list (nat * (A * A))) (s : S) : S :=
  match l with
  | [] => s
  | (_, (k, v)) :: l =>
    let '(loop, s) := iterator k v s in
    if negb loop then s else RangeIf_loop iterator l s
  end.

Definition RangeIf {S} (iterator : A -> A -> S -> bool * S) (m : SortedMap) (s : S) : S :=
  RangeIf_loop iterator (kv m) s.

Definition Range {S} (iterator : A -> A -> S -> S) (m : SortedMap) (s : S) : S :=
  foldl (fun s '(_, (k, v)) => iterator k v s) s (kv m).

Definition HasValue (value : A) (m : SortedMap) : bool :=
  RangeIf (fun _ v contains => if bool_decide (value = v) then (false, true) else (true, contains)) m false.

Definition Keys (m : SortedMap) : list A := map (fun '(_, (k, _)) => k) (kv m).

(** The loop of [Values] over the keys. *)
Fixpoint Values_loop (ks : list A) (m : SortedMap) : outcome (list A) :=
  match ks with
  | [] => Ok []
  | k :: ks =>
    match keys m !! k with
    | Some e => (v <~ value_of m e ;; vs <~ Values_loop ks m ;; Ok (v :: vs))%go
    | None => Panic "nil pointer dereference"
    end
  end.

Definition Values (m : SortedMap) : outcome (list A) := Values_loop (Keys m) m.

Definition Remove (key : A) (m : SortedMap) : outcome (option A) * SortedMap :=
  match keys m !! key with
  | None => (Ok None, m)
  | Some e =>
    ((v <~ value_of m e ;; Ok (Some v))%go,
     mkSortedMap (filter (fun p => p.1 <> e) (kv m)) (delete key (keys m)) (next_elem m))
  end.

Definition Insert (sm m : SortedMap) : SortedMap := Range SetKV sm m.
Definition Copy (m : SortedMap) : SortedMap := Range SetKV m New.

(** [Format]; the formatting of a key and its value ([fmt.Sprintf]) is an argument. *)
Definition Format (sprintf : A -> A -> gostr) (m : SortedMap) : list gostr :=
  Range (fun k v format => format ++ [sprintf k v]) m [].

Definition Reset (m : SortedMap) : SortedMap := mkSortedMap [] ∅ (next_elem m).

End sortedmap.
Arguments SortedMap : clear implicits.
Arguments SortedMap A {_ _}.

(** ** The ordered association list it stands for *)

Section spec.
Context {A : Type} `{Countable A} `{!AnyString A}.
Implicit Types m : SortedMap A.

Fixpoint assoc (k : A) (al : list (A * A)) : option A :=
  match al with
  | [] => None
  | (k', v) :: al => if decide (k = k') then Some v else assoc k al
  end.

(** A known key keeps its place; a new one comes last. *)
Definition assoc_set (k v : A) (al : list (A * A)) : list (A * A) :=
  match assoc k al with
  | Some _ => map (fun '(k', v') => if decide (k = k') then (k', v) else (k', v')) al
  | None => al ++ [(k, v)]
  end.

Definition assoc_remove (k : A) (al : list (A * A)) : list (A * A) := filter (fun p => p.1 <> k) al.

Definition entries m : list (A * A) := map snd (kv m).

Record sm_wf m : Prop := {
  wf_elems : NoDup (map fst (kv m));
  wf_keys : NoDup (map fst (entries m));
  wf_index e k v : (e, (k, v)) ∈ kv m -> keys m !! k = Some e;
  wf_back e k : keys m !! k = Some e -> exists v, (e, (k, v)) ∈ kv m;
  wf_fresh e c : (e, c) ∈ kv m -> e < next_elem m
}.

Lemma cell_in e (l : list (nat * (A * A))) kv_ :
  NoDup (map fst l) -> (e, kv_) ∈ l -> cell e l = Some kv_.
Proof.
  induction l as [|[e' kv'] l IH]; [intros _ Hin; by apply elem_of_nil in Hin|].
  simpl. intros [Hn Hnd]%NoDup_cons [[= -> ->]|Hin]%elem_of_cons; [by rewrite Nat.eqb_refl|].
  destruct (Nat.eqb_spec e e') as [->|]; [|auto]. exfalso. apply Hn. apply list_elem_of_fmap. by exists (e', kv_).
Qed.

Lemma assoc_in k v (al : list (A * A)) : NoDup (map fst al) -> (k, v) ∈ al -> assoc k al = Some v.
Proof.
  induction al as [|[k' v'] al IH]; [intros _ Hin; by apply elem_of_nil in Hin|].
  simpl. intros [Hn Hnd]%NoDup_cons [[= -> ->]|Hin]%elem_of_cons; [by rewrite decide_True|].
  case_decide as E; [|auto]. subst k'. exfalso. apply Hn. apply list_elem_of_fmap. by exists (k, v).
Qed.

Lemma assoc_None k (al : list (A * A)) : assoc k al = None <-> k ∉ map fst al.
Proof.
  induction al as [|[k' v'] al IH]; simpl; [split; [intros _; apply not_elem_of_nil|done]|].
  rewrite not_elem_of_cons, <- IH. case_decide; naive_solver.
Qed.

Lemma in_entries k v m : (k, v) ∈ entries m <-> exists e, (e, (k, v)) ∈ kv m.
Proof.
  unfold entries. rewrite list_elem_of_fmap. split.
  - intros ([e p] & -> & Hin). eauto.
  - intros [e Hin]. by exists (e, (k, v)).
Qed.

(** The index and the list agree on what a key holds. *)
Lemma lookup_keys k m : sm_wf m ->
  match keys m !! k with
  | Some e => exists v, (e, (k, v)) ∈ kv m /\ cell e (kv m) = Some (k, v) /\ assoc k (entries m) = Some v
  | None => assoc k (entries m) = None
  end.
Proof.
  intros Hwf. destruct (keys m !! k) as [e|] eqn:Ek.
  - destruct (wf_back m Hwf e k Ek) as [v Hin]. exists v. split_and!; [done| |].
    + apply cell_in; [by apply wf_elems|done].
    + apply assoc_in; [by apply wf_keys|]. apply in_entries. eauto.
  - apply assoc_None. intros ([k' v] & -> & [e Hin]%in_entries)%list_elem_of_fmap.
    apply (wf_index m Hwf) in Hin. simpl in Ek. congruence.
Qed.

Lemma map_fst_write e v (l : list (nat * (A * A))) : map fst (write_value e v l) = map fst l.
Proof. induction l as [|[e' [k' v']] l IH]; simpl; [done|]. rewrite IH. by destruct (e =? e'). Qed.

Lemma keys_write e v (l : list (nat * (A * A))) : map fst (map snd (write_value e v l)) = map fst (map snd l).
Proof. induction l as [|[e' [k' v']] l IH]; simpl; [done|]. rewrite IH. by destruct (e =? e'). Qed.

Lemma in_write e v (l : list (nat * (A * A))) e' k' v' :
  (e', (k', v')) ∈ write_value e v l ->
  exists v0, (e', (k', v0)) ∈ l.
Proof.
  unfold write_value. intros ([e0 [k0 v0]] & Heq & Hin)%list_elem_of_fmap.
  destruct (e =? e0); injection Heq as -> -> _; eauto.
Qed.

Lemma write_in e v (l : list (nat * (A * A))) e' k' v' :
  (e', (k', v')) ∈ l -> exists v0, (e', (k', v0)) ∈ write_value e v l.
Proof.
  intros Hin. exists (if e =? e' then v else v'). apply list_elem_of_fmap. exists (e', (k', v')).
  split; [|done]. by destruct (e =? e').
Qed.

(** Writing through the element of a key changes the entry of that key. *)
Lemma entries_write e k v m :
  sm_wf m -> keys m !! k = Some e ->
  map snd (write_value e v (kv m)) =
  map (fun '(k', v') => if decide (k = k') then (k', v) else (k', v')) (entries m).
Proof.
  intros Hwf Hk. unfold entries, write_value. rewrite !map_map. apply map_ext_Forall.
  apply Forall_forall. intros [e' [k' v']] Hin. simpl.
  pose proof (wf_index m Hwf _ _ _ Hin) as Hk'.
  destruct (Nat.eqb_spec e e') as [->|Hne]; case_decide as E; simpl; try done; exfalso.
  - apply E. destruct (wf_back m Hwf e' k Hk) as [v0 Hin0].
    pose proof (cell_in e' _ _ (wf_elems m Hwf) Hin). pose proof (cell_in e' _ _ (wf_elems m Hwf) Hin0). congruence.
  - congruence.
Qed.

Lemma SetKV_spec k v m : sm_wf m -> sm_wf (SetKV k v m) /\ entries (SetKV k v m) = assoc_set k v (entries m).
Proof.
  intros Hwf. pose proof (lookup_keys k m Hwf) as Hk. unfold SetKV, assoc_set.
  destruct (keys m !! k) as [e|] eqn:Ek.
  - destruct Hk as (v0 & Hin & Hcell & ->). split; [split; simpl|].
    + rewrite map_fst_write. by apply wf_elems.
    + unfold entries. simpl. rewrite keys_write. by apply wf_keys.
    + intros e' k' v' [v1 Hin']%in_write. rewrite insert_id by done. by eapply wf_index.
    + intros e' k'. rewrite insert_id by done. intros [v1 Hin']%(wf_back m Hwf). by eapply write_in.
    + intros e' [k' v'] [v1 Hin']%in_write. by eapply wf_fresh.
    + unfold entries at 1. simpl. by apply entries_write.
  - rewrite Hk. split; [split; simpl|].
    + rewrite map_app. apply NoDup_app. split_and!; [by apply wf_elems| |apply NoDup_singleton].
      intros x ([e' c] & -> & Hin)%list_elem_of_fmap Heq%list_elem_of_singleton. simpl in Heq.
      apply (wf_fresh m Hwf) in Hin. lia.
    + unfold entries. simpl. rewrite !map_app. apply NoDup_app. split_and!; [by apply wf_keys| |apply NoDup_singleton].
      apply assoc_None in Hk. intros x Hx ->%list_elem_of_singleton. by apply Hk.
    + intros e k' v' [Hin|[= -> -> ->]%list_elem_of_singleton]%elem_of_app; [|by rewrite lookup_insert_eq].
      rewrite lookup_insert_ne; [by eapply wf_index|]. intros <-. apply (wf_index m Hwf) in Hin. congruence.
    + intros e k' [[<- <-]|[_ Hk']]%lookup_insert_Some.
      * exists v. apply elem_of_app. right. left.
      * destruct (wf_back m Hwf e k' Hk') as [v' Hin]. exists v'. apply elem_of_app. by left.
    + intros e c [Hin|[= -> ->]%list_elem_of_singleton]%elem_of_app; [|lia].
      apply (wf_fresh m Hwf) in Hin. lia.
    + unfold entries. simpl. by rewrite map_app.
Qed.

Lemma sorted_Remove_spec k m : sm_wf m ->
  sm_wf (snd (Remove k m)) /\ entries (snd (Remove k m)) = assoc_remove k (entries m) /\
  fst (Remove k m) = Ok (assoc k (entries m)).
Proof.
  intros Hwf. pose proof (lookup_keys k m Hwf) as Hk. unfold Remove, value_of, assoc_remove.
  destruct (keys m !! k) as [e|] eqn:Ek.
  2: { simpl. rewrite Hk. split_and!; [done| |done]. symmetry. apply filter_id.
       apply Forall_forall. intros [k' v'] Hin Heq. simpl in Heq. subst k'.
       apply assoc_None in Hk. apply Hk. apply list_elem_of_fmap. by exists (k, v'). }
  destruct Hk as (v & Hin & Hcell & Has). rewrite Hcell, Has. simpl. split_and!; [|clear Hcell Has|done].
  - assert (Hsub : forall x, x ∈ filter (fun p => p.1 <> e) (kv m) -> x ∈ kv m /\ x.1 <> e)
      by (intros x; rewrite list_elem_of_filter; tauto).
    split; simpl.
    + eapply sublist_NoDup; [apply (wf_elems m Hwf)|]. apply fmap_sublist, sublist_filter.
    + unfold entries. simpl. eapply sublist_NoDup; [apply (wf_keys m Hwf)|].
      apply fmap_sublist, fmap_sublist, sublist_filter.
    + intros e' k' v' [Hin' Hne]%Hsub. rewrite lookup_delete_ne; [by eapply wf_index|].
      intros <-. apply (wf_index m Hwf) in Hin'. simpl in Hne. congruence.
    + intros e' k' [Hne Hk']%lookup_delete_Some. destruct (wf_back m Hwf e' k' Hk') as [v' Hin'].
      exists v'. apply list_elem_of_filter. split; [|done]. simpl. intros ->.
      pose proof (cell_in e _ _ (wf_elems m Hwf) Hin). pose proof (cell_in e _ _ (wf_elems m Hwf) Hin'). congruence.
    + intros e' c [Hin' _]%Hsub. by eapply wf_fresh.
  - unfold entries. simpl.
    assert (Hall : Forall (fun p => p.1 <> e <-> p.2.1 <> k) (kv m)).
    { apply Forall_forall. intros [e' [k' v']] Hin'. simpl. pose proof (wf_index m Hwf _ _ _ Hin').
      split; intros Hne Heq; apply Hne; subst; [congruence|].
      pose proof (cell_in e _ _ (wf_elems m Hwf) Hin). pose proof (cell_in e _ _ (wf_elems m Hwf) Hin'). congruence. }
    rewrite (filter_ext_in _ (fun p => p.2.1 <> k)) by exact Hall.
    clear. induction (kv m) as [|[e' [k' v']] l IH]; simpl; [done|].
    rewrite !filter_cons. simpl. case_decide; simpl; [f_equal|]; apply IH.
Qed.

Lemma New_wf : sm_wf (New (A := A)).
Proof.
  split; simpl; try apply NoDup_nil_2.
  - intros e k v Hin. by apply elem_of_nil in Hin.
  - intros e k Hk. by rewrite lookup_empty in Hk.
  - intros e c Hin. by apply elem_of_nil in Hin.
Qed.

Lemma Reset_wf m : sm_wf (Reset m).
Proof. destruct New_wf. split; simpl in *; auto. intros e c Hin. by apply elem_of_nil in Hin. Qed.

(** Setting the entries of one map in another, in order. *)
Lemma Range_SetKV_spec sm : forall m, sm_wf m ->
  sm_wf (Range SetKV sm m) /\
  entries (Range SetKV sm m) = foldl (fun al p => assoc_set p.1 p.2 al) (entries m) (entries sm).
Proof.
  unfold Range, entries at 3. induction (kv sm) as [|[e [k v]] l IH]; intros m Hwf; simpl; [done|].
  destruct (SetKV_spec k v m Hwf) as [H1 H2]. rewrite <- H2. by apply IH.
Qed.

Lemma Set_loop_spec kvs : forall m, sm_wf m -> sm_wf (Set_loop kvs m).
Proof.
  assert (H0 : forall n kvs, length kvs <= n -> forall m, sm_wf m -> sm_wf (Set_loop kvs m)).
  { induction n as [|n IH]; intros [|k [|v l]] Hlen m Hm; simpl in *; try done; try lia.
    apply IH; [lia|]. by apply SetKV_spec. }
  eauto.
Qed.

(** Appending distinct new keys one by one rebuilds a list. *)
Lemma foldl_assoc_set al : forall acc,
  NoDup (map fst (acc ++ al)) -> foldl (fun al p => assoc_set p.1 p.2 al) acc al = acc ++ al.
Proof.
  induction al as [|[k v] al IH]; intros acc Hnd; simpl; [by rewrite app_nil_r|].
  assert (Hk : assoc k acc = None).
  { apply assoc_None. rewrite map_app in Hnd. apply NoDup_app in Hnd as (_ & Hdis & _).
    intros Hin. apply (Hdis k Hin). left. }
  unfold assoc_set at 2. rewrite Hk, IH; rewrite <- app_assoc; done.
Qed.

(** The pairs [Set] stores. *)
Fixpoint set_pairs (kvs : list A) (al : list (A * A)) : list (A * A) :=
  match kvs with
  | k :: v :: kvs => set_pairs kvs (assoc_set k v al)
  | _ => al
  end.

Lemma sorted_Set_spec kvs m : sm_wf m ->
  sm_wf (snd (Set_ kvs m)) /\
  entries (snd (Set_ kvs m)) = if length kvs mod 2 =? 0 then set_pairs kvs (entries m) else entries m.
Proof.
  intros Hwf. unfold Set_. destruct kvs as [|x kvs]; [done|]. simpl (length _ =? 0). cbv iota.
  destruct (length (x :: kvs) mod 2 =? 0); cbn [snd negb]; [|done]. split; [by apply Set_loop_spec|].
  assert (H0 : forall n l m, length l <= n -> sm_wf m -> entries (Set_loop l m) = set_pairs l (entries m)).
  { clear. induction n as [|n IH]; intros [|k [|v l]] m Hlen Hm; simpl in *; try done; try lia.
    destruct (SetKV_spec k v m Hm) as [H1 H2]. rewrite IH by (done || lia). by rewrite H2. }
  by eapply (H0 _ (x :: kvs)).
Qed.

(** *** Sequences of operations *)

Inductive sm_op :=
| OSetKV (k v : A) | OSet (kvs : list A) | ORemove (k : A) | OReset | OCopy
| OInsert (ops : list sm_op).

Fixpoint sm_run (op : sm_op) m : SortedMap A :=
  match op with
  | OSetKV k v => SetKV k v m
  | OSet kvs => snd (Set_ kvs m)
  | ORemove k => snd (Remove k m)
  | OReset => Reset m
  | OCopy => Copy m
  | OInsert ops => Insert (foldl (fun m op => sm_run op m) New ops) m
  end.

Fixpoint al_run (op : sm_op) (al : list (A * A)) : list (A * A) :=
  match op with
  | OSetKV k v => assoc_set k v al
  | OSet kvs => if length kvs mod 2 =? 0 then set_pairs kvs al else al
  | ORemove k => assoc_remove k al
  | OReset => []
  | OCopy => al
  | OInsert ops =>
    foldl (fun al p => assoc_set p.1 p.2 al) al (foldl (fun al op => al_run op al) [] ops)
  end.

Lemma Copy_spec m : sm_wf m -> sm_wf (Copy m) /\ entries (Copy m) = entries m.
Proof.
  intros Hwf. destruct (Range_SetKV_spec m New New_wf) as [H1 H2]. split; [done|].
  unfold Copy. rewrite H2. apply foldl_assoc_set. by apply wf_keys.
Qed.

Lemma sorted_run_spec : forall op m, sm_wf m -> sm_wf (sm_run op m) /\ entries (sm_run op m) = al_run op (entries m).
Proof.
  fix IH 1. intros [k v|kvs|k| | |ops] m Hm; simpl.
  - by apply SetKV_spec.
  - by apply sorted_Set_spec.
  - by destruct (sorted_Remove_spec k m Hm) as (? & ? & _).
  - split; [apply Reset_wf|done].
  - by apply Copy_spec.
  - assert (Hops : forall m, sm_wf m -> sm_wf (foldl (fun m op => sm_run op m) m ops) /\
      entries (foldl (fun m op => sm_run op m) m ops) = foldl (fun al op => al_run op al) (entries m) ops).
    { induction ops as [|op ops IHops]; intros m0 Hm0; simpl; [done|].
      destruct (IH op m0 Hm0) as [H1 H2]. rewrite <- H2. by apply IHops. }
    destruct (Hops New New_wf) as [_ H2]. unfold Insert.
    destruct (Range_SetKV_spec (foldl (fun m op => sm_run op m) New ops) m Hm) as [H3 H4].
    split; [done|]. by rewrite H4, H2.
Qed.

Lemma Get_spec k m : sm_wf m -> Get k m = Ok (assoc k (entries m)).
Proof.
  intros Hwf. pose proof (lookup_keys k m Hwf) as Hk. unfold Get, value_of.
  destruct (keys m !! k) as [e|]; [|by rewrite Hk]. destruct Hk as (v & _ & -> & ->). done.
Qed.

Lemma Values_spec m : sm_wf m -> Values m = Ok (map snd (entries m)).
Proof.
  intros Hwf. unfold Values, Keys.
  assert (Hall : Forall (fun '(e, (k, v)) => keys m !! k = Some e /\ value_of m e = Ok v) (kv m)).
  { apply Forall_forall. intros [e [k v]] Hin. split; [by eapply wf_index|].
    unfold value_of. by rewrite (cell_in e _ _ (wf_elems m Hwf) Hin). }
  unfold entries. induction Hall as [|[e [k v]] l [Hk Hv] _ IH]; simpl; [done|].
  by rewrite Hk, Hv, IH.
Qed.

Lemma HasValue_spec v m : HasValue v m = true <-> v ∈ map snd (entries m).
Proof.
  unfold HasValue, RangeIf, entries. induction (kv m) as [|[e [k v']] l IH]; simpl.
  - split; [done|]. intros Hin. by apply elem_of_nil in Hin.
  - rewrite elem_of_cons, <- IH. case_bool_decide; simpl; naive_solver.
Qed.

(** After any sequence of [SetKV], [Set], [Remove], [Reset], [Copy] and [Insert]
    calls, the map is the ordered association list of its entries: keys in the
    order of their first insertion, [Get] and [Remove] look the key up, [Keys],
    [Values] and [HasValue] list the entries, and no call panics. *)
Theorem sortedmap_refines ops :
  let m := foldl (fun m op => sm_run op m) (New (A := A)) ops in
  let al := foldl (fun al op => al_run op al) [] ops in
  NoDup (Keys m) /\ Keys m = map fst al /\ Values m = Ok (map snd al) /\
  forall k, Get k m = Ok (assoc k al) /\ fst (Remove k m) = Ok (assoc k al) /\
            HasKey k m = bool_decide (k ∈ map fst al) /\ (HasValue k m = true <-> k ∈ map snd al).
Proof.
  intros m al.
  assert (H0 : sm_wf m /\ entries m = al).
  { subst m al. change (@nil (A * A)) with (entries (New (A := A))). generalize New_wf. generalize (New (A := A)).
    induction ops as [|op ops IH]; intros m Hm; simpl; [done|].
    destruct (sorted_run_spec op m Hm) as [H1 H2]. rewrite <- H2. by apply IH. }
  destruct H0 as [Hwf Hal]. rewrite <- Hal.
  assert (Hkeys : Keys m = map fst (entries m)).
  { unfold Keys, entries. rewrite map_map. apply map_ext. by intros [e [k v]]. }
  split_and!; [rewrite Hkeys; by apply wf_keys|done|by apply Values_spec|].
  intros k. split_and!; [by apply Get_spec|by apply sorted_Remove_spec| |apply HasValue_spec].
  unfold HasKey. pose proof (lookup_keys k m Hwf) as Hk. destruct (keys m !! k) as [e|].
  - destruct Hk as (v & _ & _ & Has). symmetry. apply bool_decide_eq_true. apply dec_stable.
    intros Hn%assoc_None. congruence.
  - symmetry. apply bool_decide_eq_false. by apply assoc_None.
Qed.

Lemma index_eq_spec s :
  match index_eq s with
  | Some i => take i s ++ "="%char :: drop (i + 1) s = s /\ "="%char ∉ take i s
  | None => "="%char ∉ s
  end.
Proof.
  induction s as [|c s IH]; simpl; [apply not_elem_of_nil|].
  case_bool_decide as Ec; [subst; simpl; split; [by rewrite drop_0|apply not_elem_of_nil]|].
  destruct (index_eq s) as [i|]; simpl.
  - destruct IH as [H1 H2]. split; [by rewrite H1|]. rewrite not_elem_of_cons. split; [congruence|done].
  - rewrite not_elem_of_cons. split; [congruence|done].
Qed.

Lemma split_unique (c : ascii) (a b k v : gostr) :
  a ++ c :: b = k ++ c :: v -> c ∉ a -> c ∉ k -> k = a /\ v = b.
Proof.
  revert k. induction a as [|x a IH]; intros [|y k] E Ha Hk; simpl in E.
  - by injection E as ->.
  - injection E as -> _. exfalso. apply Hk. left.
  - injection E as -> _. exfalso. apply Ha. left.
  - injection E as E1 E2. apply not_elem_of_cons in Ha as [_ Ha]. apply not_elem_of_cons in Hk as [_ Hk].
    destruct (IH k E2 Ha Hk) as [-> ->]. by subst.
Qed.

(** [SetExpression] stores the pair exactly when the text is a non-empty key
    without [=], an [=] and a value, both without white space; every other text
    is an error and changes nothing. *)
Theorem set_expression_branches s m :
  (exists key value, s = key ++ "="%char :: value /\ "="%char ∉ key /\ key <> [] /\
    ContainsWhiteSpace key = false /\ ContainsWhiteSpace value = false /\
    SetExpression s m = (inr (of_str key, of_str value), SetKV (of_str key) (of_str value) m)) \/
  ((forall key value, s = key ++ "="%char :: value -> "="%char ∉ key ->
     key = [] \/ ContainsWhiteSpace key = true \/ ContainsWhiteSpace value = true) /\
   SetExpression s m = (inl ErrInvalidKVExpression, m)).
Proof.
  unfold SetExpression. pose proof (index_eq_spec s) as Hi. destruct (index_eq s) as [i|].
  2: { right. split; [|done]. intros key value -> _. exfalso. apply Hi. set_solver. }
  destruct Hi as [Hs Hn].
  assert (Hv : (if length s =? i then [] else drop (i + 1) s) = drop (i + 1) s).
  { destruct (Nat.eqb_spec (length s) i) as [<-|]; [|done]. by rewrite drop_ge by lia. }
  rewrite Hv.
  assert (Huniq : forall key value, s = key ++ "="%char :: value -> "="%char ∉ key ->
            key = take i s /\ value = drop (i + 1) s).
  { intros key value Heq Hk. apply (split_unique "="%char); congruence. }
  destruct (ContainsWhiteSpace (take i s)) eqn:E1.
  { right. split; [|done]. intros key value Heq Hk. destruct (Huniq _ _ Heq Hk) as [-> _]. auto. }
  destruct (ContainsWhiteSpace (drop (i + 1) s)) eqn:E2.
  { right. split; [|done]. intros key value Heq Hk. destruct (Huniq _ _ Heq Hk) as [_ ->]. auto. }
  destruct (Nat.eqb_spec (length (take i s)) 0) as [E3|E3].
  { right. split; [|done]. intros key value Heq Hk. destruct (Huniq _ _ Heq Hk) as [-> _].
    left. by apply nil_length_inv. }
  left. exists (take i s), (drop (i + 1) s). split_and!; auto. intros E; apply E3; by rewrite E.
Qed.

End spec.

(** Strings alone are an instance of [any]. *)
#[export] Instance gostr_any : AnyString gostr := {
  of_str s := s; as_str s := Some s; as_of_str s := eq_refl
}.

Example set_expression_demo :
  let m := snd (SetExpression (lit "b=2") (snd (SetExpression (lit "a=1=x") New))) in
  Keys (SetKV (lit "a") (lit "9") m) = [lit "a"; lit "b"] /\
  Get (lit "a") (SetKV (lit "a") (lit "9") m) = Ok (Some (lit "9")) /\
  fst (SetExpression (lit "a b=1") m) = inl ErrInvalidKVExpression.
Proof. vm_compute. done. Qed.
