(* ===== verification/Redis.v ===== *)
(** * The redis server, as the limiters, the bloom filter and the caches use it

    Redis is a service outside the repository: a class of the commands the embedded scripts
    call, and a class of the documented behaviour the theorems rely on.  A command is given
    the clock of the server in seconds.  [mini] is a small implementation that satisfies the
    laws; the witnesses run on it. *)

From S2P Require Import Prelude.
Local Open Scope Z_scope.

Class RedisCommands (R : Type) := {
  redis_incr : Z -> string -> R -> Z * R;
  redis_expire : Z -> string -> Z -> R -> R;
  redis_get : Z -> string -> R -> option Z;
  (** [None] is the error of a command, here "invalid expire time" *)
  redis_setex : Z -> string -> Z -> Z -> R -> option R;
  redis_setbit : string -> N -> R -> R;
  redis_getbit : string -> N -> R -> bool
}.

(** A key holds a value and, possibly, the time it expires at. *)
Definition live_at (clock : Z) (expiry : option Z) : bool :=
  match expiry with Some t => clock <? t | None => true end.

Definition alive {V} (clock : Z) (e : option (V * option Z)) : option (V * option Z) :=
  match e with
  | Some (v, t) => if live_at clock t then Some (v, t) else None
  | None => None
  end.

Class RedisLaws (R : Type) `{!RedisCommands R} := {
  redis_entry : R -> string -> option (Z * option Z);
  redis_get_law c k r : redis_get c k r = fst <$> alive c (redis_entry r k);
  redis_incr_law c k r :
    let n := from_option fst 0 (alive c (redis_entry r k)) + 1 in
    fst (redis_incr c k r) = n /\
    forall k', redis_entry (snd (redis_incr c k r)) k' =
      if decide (k' = k) then Some (n, alive c (redis_entry r k) ≫= snd) else redis_entry r k';
  redis_expire_law c k secs r : 0 < secs ->
    forall k', redis_entry (redis_expire c k secs r) k' =
      if decide (k' = k) then (fun e => (fst e, Some (c + secs))) <$> alive c (redis_entry r k)
      else redis_entry r k';
  redis_setex_law c k ttl v r :
    match redis_setex c k ttl v r with
    | None => ttl <= 0
    | Some r' => 0 < ttl /\ forall k', redis_entry r' k' =
        if decide (k' = k) then Some (v, Some (c + ttl)) else redis_entry r k'
    end;
  redis_bit_law k i r k' i' :
    redis_getbit k' i' (redis_setbit k i r) =
      if decide (k' = k /\ i' = i) then true else redis_getbit k' i' r
}.

(** The commands on strings the caches use.  An expiration that is not positive sets none
    ([Set] of the client), and is an error for [SetNX] when it is negative. *)
Class RedisStrings (R : Type) := {
  rs_get : Z -> string -> R -> option string;
  rs_set : Z -> string -> string -> Z -> R -> R;
  rs_setnx : Z -> string -> string -> Z -> R -> option (bool * R);
  rs_del : Z -> list string -> R -> Z * R
}.

Definition expires (clock secs : Z) : option Z := if 0 <? secs then Some (clock + secs) else None.

Class RedisStringsLaws (R : Type) `{!RedisStrings R} := {
  rs_view : R -> string -> option (string * option Z);
  rs_get_law c k r : rs_get c k r = fst <$> alive c (rs_view r k);
  rs_set_law c k v secs r k' :
    rs_view (rs_set c k v secs r) k' = if decide (k' = k) then Some (v, expires c secs) else rs_view r k';
  rs_setnx_law c k v secs r :
    match rs_setnx c k v secs r with
    | None => secs < 0
    | Some (done, r') => (done = true <-> alive c (rs_view r k) = None) /\
        forall k', rs_view r' k' =
          if done && bool_decide (k' = k) then Some (v, expires c secs) else rs_view r k'
    end;
  rs_del_law c ks r k' :
    rs_view (snd (rs_del c ks r)) k' = if decide (k' ∈ ks) then None else rs_view r k'
}.

(** What a client sees of a call: it is answered, it never reached the server, or the answer
    was lost after the script had run. *)
Variant delivery (E : Type) := Answered | NotRun (e : E) | AnswerLost (e : E).
Arguments Answered {E}.
Arguments NotRun {E} e.
Arguments AnswerLost {E} e.

(** ** An implementation *)

Record mini := mkMini { m_entries : gmap string (Z * option Z); m_bits : gset (string * N) }.

#[export] Instance mini_commands : RedisCommands mini := {
  redis_incr c k r :=
    let e := alive c (m_entries r !! k) in
    let n := from_option fst 0 e + 1 in
    (n, mkMini (<[k := (n, e ≫= snd)]> (m_entries r)) (m_bits r));
  redis_expire c k secs r :=
    mkMini (partial_alter (fun _ => if secs <=? 0 then None
        else (fun e => (fst e, Some (c + secs))) <$> alive c (m_entries r !! k)) k (m_entries r))
      (m_bits r);
  redis_get c k r := fst <$> alive c (m_entries r !! k);
  redis_setex c k ttl v r :=
    if ttl <=? 0 then None else Some (mkMini (<[k := (v, Some (c + ttl))]> (m_entries r)) (m_bits r));
  redis_setbit k i r := mkMini (m_entries r) ({[ (k, i) ]} ∪ m_bits r);
  redis_getbit k i r := bool_decide ((k, i) ∈ m_bits r)
}.

#[export] Program Instance mini_laws : RedisLaws mini := { redis_entry r k := m_entries r !! k }.
Next Obligation. done. Qed.
Next Obligation.
  intros c k r n. split; [done|]. intros k'. simpl. destruct (decide (k' = k)) as [->|Hne].
  - by rewrite lookup_insert_eq.
  - by rewrite lookup_insert_ne.
Qed.
Next Obligation.
  intros c k secs r Hs k'. simpl. destruct (Z.leb_spec secs 0); [lia|].
  destruct (decide (k' = k)) as [->|Hne].
  - by rewrite lookup_partial_alter_eq.
  - by rewrite lookup_partial_alter_ne.
Qed.
Next Obligation.
  intros c k ttl v r. simpl. destruct (Z.leb_spec ttl 0); [done|]. split; [done|].
  intros k'. simpl. destruct (decide (k' = k)) as [->|Hne].
  - by rewrite lookup_insert_eq.
  - by rewrite lookup_insert_ne.
Qed.
Next Obligation.
  intros k i r k' i'. simpl. destruct (decide (k' = k /\ i' = i)) as [[-> ->]|Hne].
  - apply bool_decide_eq_true_2. apply elem_of_union_l. by apply elem_of_singleton.
  - apply bool_decide_ext. rewrite elem_of_union, elem_of_singleton. split; [|by right].
    intros [[= -> ->]|?]; [|done]. by destruct Hne.
Qed.

(** ** Strings *)

Abbreviation strings_db := (gmap string (string * option Z)).

#[export] Instance strings_commands : RedisStrings strings_db := {
  rs_get c k r := fst <$> alive c (r !! k);
  rs_set c k v secs r := <[k := (v, expires c secs)]> r;
  rs_setnx c k v secs r :=
    if secs <? 0 then None
    else match alive c (r !! k) with
         | None => Some (true, <[k := (v, expires c secs)]> r)
         | Some _ => Some (false, r)
         end;
  rs_del c ks r :=
    (Z.of_nat (length (filter (fun k => is_Some (alive c (r !! k))) (remove_dups ks))), foldr delete r ks)
}.

#[export] Program Instance strings_laws : RedisStringsLaws strings_db := { rs_view r k := r !! k }.
Next Obligation. done. Qed.
Next Obligation.
  intros c k v secs r k'. simpl. destruct (decide (k' = k)) as [->|Hne].
  - by rewrite lookup_insert_eq.
  - by rewrite lookup_insert_ne.
Qed.
Next Obligation.
  intros c k v secs r. simpl. destruct (Z.ltb_spec secs 0); [done|].
  destruct (alive c (r !! k)) eqn:Ha; split; try done. intros k'. simpl.
  case_bool_decide as Hk; [subst; by rewrite lookup_insert_eq|by rewrite lookup_insert_ne].
Qed.
Next Obligation.
  intros c ks r k'. simpl. induction ks as [|k ks IH]; simpl; [by destruct (decide (k' ∈ [])); [set_solver|]|].
  destruct (decide (k' = k)) as [->|Hne].
  - rewrite lookup_delete_eq. by destruct (decide (k ∈ k :: ks)); [|set_solver].
  - rewrite lookup_delete_ne by done. rewrite IH. by destruct (decide (k' ∈ ks)), (decide (k' ∈ k :: ks)); set_solver.
Qed.
