(* ===== verification/Limit.v ===== *)
(** * [core/limit]: the period limiter and the token limiter

    Both limiters run a Lua script in redis ([periodscript.lua], [tokenscript.lua], embedded by
    the Go files); the scripts are modelled command by command on the redis of [Redis.v].
    Lua's numbers are doubles; the models keep the integers the scripts compute, and the one
    quotient, [math.floor(capacity/rate*2)], as the floor of the exact quotient.  The
    in-process limiter of [golang.org/x/time/rate] that takes over when redis is down is a
    parameter. *)

From S2P Require Import Prelude.
From S2P Require Import Redis.
Local Open Scope Z_scope.

(** ** [periodlimit.go] *)

Definition Unknown : Z := 0.
Definition Allowed : Z := 1.
Definition HitQuota : Z := 2.
Definition OverQuota : Z := 3.
Definition internalOverQuota : Z := 0.
Definition internalAllowed : Z := 1.
Definition internalHitQuota : Z := 2.

Variant limit_error := ErrUnknownCode | ErrRedis (msg : string).

(** A reply of redis as the client decodes it: an [int64] or something else. *)
Variant reply := RInt (z : Z) | ROther.

Record PeriodLimit := mkPeriodLimit { period : Z; quota : Z; keyPrefix : string; align : bool }.

Definition NewPeriodLimit (period quota : Z) (keyPrefix : string) (opts : list (PeriodLimit -> PeriodLimit))
  : PeriodLimit :=
  foldl (fun l opt => opt l) (mkPeriodLimit period quota keyPrefix false) opts.

Definition Align (l : PeriodLimit) : PeriodLimit :=
  mkPeriodLimit (period l) (quota l) (keyPrefix l) true.

(** The clock of the process: seconds since the epoch and the offset of the time zone. *)
Record reading := mkReading { now_unix : Z; zone_offset : Z }.

Definition calcExpireSeconds (now : reading) (h : PeriodLimit) : outcome Z :=
  if align h then
    let unix := now_unix now + zone_offset now in
    if period h =? 0 then Panic "integer divide by zero"
    else Ok (period h - Z.rem unix (period h))
  else Ok (period h).

Section period.
Context {R : Type} `{!RedisCommands R}.

Definition periodScript (clock : Z) (key : string) (limit window : Z) (r : R) : reply * R :=
  let '(current, r) := redis_incr clock key r in
  let r := if current =? 1 then redis_expire clock key window r else r in
  (RInt (if current <? limit then 1 else if current =? limit then 2 else 0), r).

(** The switch of [TakeCtx] on the answer. *)
Definition permit (resp : reply) : Z * option limit_error :=
  match resp with
  | ROther => (Unknown, Some ErrUnknownCode)
  | RInt code =>
    if code =? internalOverQuota then (OverQuota, None)
    else if code =? internalAllowed then (Allowed, None)
    else if code =? internalHitQuota then (HitQuota, None)
    else (Unknown, Some ErrUnknownCode)
  end.

Definition TakeCtx (d : delivery string) (clock : Z) (now : reading) (key : string) (h : PeriodLimit) (r : R)
  : outcome ((Z * option limit_error) * R) :=
  (window <~ calcExpireSeconds now h ;;
   let '(resp, r') := periodScript clock (keyPrefix h +:+ key) (quota h) window r in
   match d with
   | Answered => Ok (permit resp, r')
   | NotRun e => Ok ((Unknown, Some (ErrRedis e)), r)
   | AnswerLost e => Ok ((Unknown, Some (ErrRedis e)), r')
   end)%go.

End period.

(** ** [tokenlimit.go] *)

(** [L] is the state of the in-process limiter, [RescueAllowN] its [AllowN]. *)
Section token.
Context {R : Type} `{!RedisCommands R}.
Context {L : Type} (RescueNew : Z -> Z -> L) (RescueAllowN : Z -> Z -> L -> bool * L).

Definition tokenKeyOf (key : string) : string := "{" +:+ key +:+ "}.tokens".
Definition timestampKeyOf (key : string) : string := "{" +:+ key +:+ "}.ts".

Record TokenLimiter := mkTokenLimiter {
  rate : Z;
  burst : Z;
  tokenKey : string;
  timestampKey : string;
  redisAlive : bool;
  monitorStarted : bool;
  rescueLimiter : L
}.

(** [time.Second/time.Duration(rate)] panics for a rate of 0. *)
Definition NewTokenLimiter (rate burst : Z) (key : string) : outcome TokenLimiter :=
  if rate =? 0 then Panic "integer divide by zero"
  else Ok (mkTokenLimiter rate burst (tokenKeyOf key) (timestampKeyOf key) true false
             (RescueNew (1000000000 ÷ rate) burst)).

(** [None]: the script ends with the error of a command, and nothing is written after it. *)
Definition tokenScript (clock : Z) (key1 key2 : string) (rate capacity now requested : Z) (r : R)
  : option bool * R :=
  let ttl := (2 * capacity) / rate in
  let last_tokens := default capacity (redis_get clock key1 r) in
  let last_refreshed := default 0 (redis_get clock key2 r) in
  let delta := Z.max 0 (now - last_refreshed) in
  let filled_tokens := Z.min capacity (last_tokens + delta * rate) in
  let allowed := requested <=? filled_tokens in
  let new_tokens := if allowed then filled_tokens - requested else filled_tokens in
  match redis_setex clock key1 ttl new_tokens r with
  | None => (None, r)
  | Some r =>
    match redis_setex clock key2 ttl now r with
    | None => (None, r)
    | Some r => (Some allowed, r)
    end
  end.

Definition startMonitor (lim : TokenLimiter) : TokenLimiter :=
  if monitorStarted lim then lim
  else mkTokenLimiter (rate lim) (burst lim) (tokenKey lim) (timestampKey lim) false true (rescueLimiter lim).

Definition rescue (now n : Z) (lim : TokenLimiter) : bool * TokenLimiter :=
  let '(b, l) := RescueAllowN now n (rescueLimiter lim) in
  (b, mkTokenLimiter (rate lim) (burst lim) (tokenKey lim) (timestampKey lim) (redisAlive lim)
        (monitorStarted lim) l).

(** Whether an error of the call is that of the caller's context. *)
Variant call_error := ContextDone | OtherError (msg : string).

(** The switch of [reserveN] on what the call gives: [Lua]'s true is the integer 1, false the
    nil reply, which the client reports as [redis.Nil]. *)
Definition reserveN (d : delivery call_error) (clock now n : Z) (lim : TokenLimiter) (r : R)
  : bool * TokenLimiter * R :=
  if negb (redisAlive lim) then (rescue now n lim, r)
  else
    let '(res, r') := tokenScript clock (tokenKey lim) (timestampKey lim) (rate lim) (burst lim) now n r in
    match d with
    | NotRun ContextDone => (false, lim, r)
    | NotRun (OtherError _) => (rescue now n (startMonitor lim), r)
    | AnswerLost ContextDone => (false, lim, r')
    | AnswerLost (OtherError _) => (rescue now n (startMonitor lim), r')
    | Answered =>
      match res with
      | Some true => (true, lim, r')
      | Some false => (false, lim, r')
      | None => (rescue now n (startMonitor lim), r')
      end
    end.

Definition AllowN (d : delivery call_error) (clock now n : Z) (lim : TokenLimiter) (r : R) :=
  reserveN d clock now n lim r.
Definition Allow (d : delivery call_error) (clock now : Z) (lim : TokenLimiter) (r : R) :=
  AllowN d clock now 1 lim r.

(** [waitForRedis]: a tick with the result of the ping; the deferred part. *)
Definition pingTick (ping : bool) (lim : TokenLimiter) : TokenLimiter :=
  if ping then
    mkTokenLimiter (rate lim) (burst lim) (tokenKey lim) (timestampKey lim) true (monitorStarted lim)
      (rescueLimiter lim)
  else lim.

Definition monitorEnd (lim : TokenLimiter) : TokenLimiter :=
  mkTokenLimiter (rate lim) (burst lim) (tokenKey lim) (timestampKey lim) (redisAlive lim) false
    (rescueLimiter lim).

End token.
Arguments TokenLimiter : clear implicits.

(** ** The period limiter: at most [quota] permits per window *)

Section period_proofs.
Context {R : Type} `{!RedisCommands R} `{!RedisLaws R}.
Implicit Types (r : R) (h : PeriodLimit).

(** What the [j]-th take of a window gives. *)
Definition verdict (quota j : Z) : Z :=
  if j <? quota then Allowed else if j =? quota then HitQuota else OverQuota.

(** A take of some key, with the clocks and the fate of its call. *)
Record take_call := mkTake { t_key : string; t_clock : Z; t_now : reading; t_fate : delivery string }.

Fixpoint take_all h (ts : list take_call) r : outcome (list (Z * option limit_error) * R) :=
  match ts with
  | [] => Ok ([], r)
  | t :: ts =>
    (x <~ TakeCtx (t_fate t) (t_clock t) (t_now t) (t_key t) h r ;;
     y <~ take_all h ts (snd x) ;;
     Ok (fst x :: fst y, snd y))%go
  end.

(** The answers the takes of [key] get when [j] takes have already counted: a take counts
    unless it never reached redis. *)
Fixpoint expected (quota : Z) (key : string) (j : Z) (ts : list take_call) : list (Z * option limit_error) :=
  match ts with
  | [] => []
  | t :: ts =>
    if decide (t_key t = key) then
      match t_fate t with
      | Answered => (verdict quota (j + 1), None) :: expected quota key (j + 1) ts
      | NotRun e => (Unknown, Some (ErrRedis e)) :: expected quota key j ts
      | AnswerLost e => (Unknown, Some (ErrRedis e)) :: expected quota key (j + 1) ts
      end
    else expected quota key j ts
  end.

(** The answers of the takes of one key. *)
Definition answers_of (key : string) (ts : list take_call) (out : list (Z * option limit_error))
  : list (Z * option limit_error) :=
  map snd (filter (fun p => t_key p.1 = key) (zip ts out)).

Lemma calcExpireSeconds_ok now h : 0 < period h -> exists w, calcExpireSeconds now h = Ok w.
Proof.
  intros Hp. unfold calcExpireSeconds. destruct (align h); [|eauto].
  destruct (Z.eqb_spec (period h) 0); [lia|eauto].
Qed.

Lemma calcExpireSeconds_range now h w :
  0 < period h -> (align h = true -> 0 <= now_unix now + zone_offset now) ->
  calcExpireSeconds now h = Ok w ->
  0 < w <= period h /\ (align h = true -> (now_unix now + zone_offset now + w) mod period h = 0).
Proof.
  intros Hp Hpos. unfold calcExpireSeconds. destruct (align h).
  2: { intros [= <-]. split; [lia|done]. }
  destruct (Z.eqb_spec (period h) 0); [lia|]. intros [= <-]. specialize (Hpos eq_refl).
  set (u := now_unix now + zone_offset now) in *.
  rewrite Z.rem_mod_nonneg by lia. pose proof (Z.mod_pos_bound u (period h) Hp). split; [lia|]. intros _.
  pose proof (Z.div_mod u (period h) ltac:(lia)).
  replace (u + (period h - u mod period h)) with ((u / period h + 1) * period h) by nia. apply Z_mod_mult.
Qed.

Lemma permit_verdict q j :
  permit (RInt (if j <? q then 1 else if j =? q then 2 else 0)) = (verdict q j, None).
Proof. unfold verdict. by destruct (j <? q), (j =? q). Qed.

(** One run of the script on a key of the window. *)
Lemma periodScript_counted c k q w r j T :
  alive c (redis_entry r k) = Some (j, Some T) -> 0 < j ->
  let '(resp, r') := periodScript c k q w r in
  permit resp = (verdict q (j + 1), None) /\
  forall k', redis_entry r' k' = if decide (k' = k) then Some (j + 1, Some T) else redis_entry r k'.
Proof.
  intros Ha Hj. unfold periodScript. destruct (redis_incr_law c k r) as [Hn He]. rewrite Ha in Hn, He. simpl in Hn, He.
  destruct (redis_incr c k r) as [n r1]. simpl in *. subst n.
  destruct (Z.eqb_spec (j + 1) 1); [lia|]. split; [apply permit_verdict|exact He].
Qed.

Lemma periodScript_first c k q w r :
  alive c (redis_entry r k) = None -> 0 < w ->
  let '(resp, r') := periodScript c k q w r in
  permit resp = (verdict q 1, None) /\
  forall k', redis_entry r' k' = if decide (k' = k) then Some (1, Some (c + w)) else redis_entry r k'.
Proof.
  intros Ha Hw. unfold periodScript. destruct (redis_incr_law c k r) as [Hn He]. rewrite Ha in Hn, He. simpl in Hn, He.
  destruct (redis_incr c k r) as [n r1]. simpl in *. subst n. rewrite Z.eqb_refl.
  split; [apply permit_verdict|]. intros k'. rewrite redis_expire_law by done.
  destruct (decide (k' = k)) as [->|Hne]; rewrite He; [|by rewrite decide_False].
  by rewrite decide_True.
Qed.

(** A script on another key leaves the entry alone. *)
Lemma periodScript_other c k k' q w r :
  k' <> k -> 0 < w -> redis_entry (snd (periodScript c k q w r)) k' = redis_entry r k'.
Proof.
  intros Hne Hw. unfold periodScript. destruct (redis_incr_law c k r) as [Hn He].
  destruct (redis_incr c k r) as [n r1]. simpl in *.
  destruct (n =? 1); simpl; rewrite ?redis_expire_law by done; rewrite ?He, ?decide_False by done; done.
Qed.

Lemma prefix_key_inj (p k k' : string) : p +:+ k = p +:+ k' -> k = k'.
Proof. induction p as [|a p IH]; simpl; [done|]. intros [= H]. auto. Qed.

Lemma take_all_window h key T ts : forall r j,
  0 < period h -> Forall (fun t => align h = true -> 0 <= now_unix (t_now t) + zone_offset (t_now t)) ts ->
  Forall (fun t => t_clock t < T) ts -> 0 < j ->
  redis_entry r (keyPrefix h +:+ key) = Some (j, Some T) ->
  exists out r', take_all h ts r = Ok (out, r') /\ length out = length ts /\
    answers_of key ts out = expected (quota h) key j ts.
Proof.
  induction ts as [|t ts IH]; intros r j Hp Hal Hcl Hj He; [by exists [], r|].
  apply Forall_cons in Hal as [Hat Hal]. apply Forall_cons in Hcl as [Hct Hcl].
  destruct (calcExpireSeconds_ok (t_now t) h Hp) as [w Hw].
  destruct (calcExpireSeconds_range (t_now t) h w Hp Hat Hw) as [[Hw0 _] _].
  cbn [take_all expected]. unfold TakeCtx. rewrite Hw. cbn [obind].
  assert (Hlive : alive (t_clock t) (redis_entry r (keyPrefix h +:+ key)) = Some (j, Some T)).
  { rewrite He. simpl. by rewrite (proj2 (Z.ltb_lt _ _) Hct). }
  assert (Hgo : forall res r1 j1, redis_entry r1 (keyPrefix h +:+ key) = Some (j1, Some T) -> 0 < j1 ->
    exists out r', (x <~ Ok (res, r1) ;; y <~ take_all h ts (snd x) ;; Ok (fst x :: fst y, snd y))%go = Ok (out, r') /\
      length out = length (t :: ts) /\
      answers_of key (t :: ts) out =
        if decide (t_key t = key) then res :: expected (quota h) key j1 ts else expected (quota h) key j1 ts).
  { intros res r1 j1 He1 Hj1. destruct (IH r1 j1 Hp Hal Hcl Hj1 He1) as (out & r' & Hrun & Hlen & Hans).
    exists (res :: out), r'. cbn [obind snd fst]. rewrite Hrun. split; [done|]. split; [simpl; lia|].
    unfold answers_of in *. cbn [zip zip_with]. rewrite filter_cons. simpl (t_key _).
    destruct (decide (t_key t = key)); simpl; by rewrite Hans. }
  destruct (decide (t_key t = key)) as [<-|Hne].
  - pose proof (periodScript_counted (t_clock t) _ (quota h) w r j T Hlive Hj) as Hs.
    destruct (periodScript _ _ _ _ r) as [resp r1]. destruct Hs as [Hresp Hent].
    specialize (Hent (keyPrefix h +:+ t_key t)). rewrite decide_True in Hent by done.
    destruct (t_fate t) as [|e|e]; [rewrite Hresp| |]; eapply Hgo; eauto; lia.
  - pose proof (periodScript_other (t_clock t) (keyPrefix h +:+ t_key t) (keyPrefix h +:+ key) (quota h) w r) as Hs.
    destruct (periodScript _ _ _ _ r) as [resp r1].
    assert (Hent : redis_entry r1 (keyPrefix h +:+ key) = Some (j, Some T)).
    { simpl in Hs. rewrite Hs; [done| |done]. intros E. apply Hne. symmetry. by eapply prefix_key_inj. }
    destruct (t_fate t) as [|e|e]; by eapply Hgo.
Qed.

(** From a take that finds no live counter on, until the window it opens ends, the takes
    of a key are numbered: the [j]-th that reaches redis is allowed for [j < quota], hits the
    quota for [j = quota] and is over it afterwards, whatever happens to other keys in
    between; a take whose call fails reports the error.  The window is positive, not longer
    than the period, and with [Align] it ends at a multiple of the period in local time. *)
Theorem period_limit_window h key now c0 ts r w :
  0 < period h -> (align h = true -> 0 <= now_unix now + zone_offset now) ->
  calcExpireSeconds now h = Ok w ->
  alive c0 (redis_entry r (keyPrefix h +:+ key)) = None ->
  Forall (fun t => align h = true -> 0 <= now_unix (t_now t) + zone_offset (t_now t)) ts ->
  Forall (fun t => t_clock t < c0 + w) ts ->
  0 < w <= period h /\ (align h = true -> (now_unix now + zone_offset now + w) mod period h = 0) /\
  exists out r', take_all h (mkTake key c0 now Answered :: ts) r = Ok (out, r') /\
    answers_of key (mkTake key c0 now Answered :: ts) out =
      expected (quota h) key 0 (mkTake key c0 now Answered :: ts).
Proof.
  intros Hp Hal Hw Hdead Halts Hts. destruct (calcExpireSeconds_range now h w Hp Hal Hw) as [Hrange Hmod].
  split; [done|]. split; [done|]. cbn [take_all expected t_key t_fate t_clock t_now].
  unfold TakeCtx. rewrite Hw. cbn [obind].
  pose proof (periodScript_first c0 _ (quota h) w r Hdead ltac:(lia)) as Hs.
  destruct (periodScript _ _ _ _ r) as [resp r1]. destruct Hs as [-> Hent].
  specialize (Hent (keyPrefix h +:+ key)). rewrite decide_True in Hent by done.
  destruct (take_all_window h key (c0 + w) ts r1 1 Hp Halts Hts ltac:(lia) Hent) as (out & r' & Hrun & _ & Hans).
  cbn [obind snd fst]. rewrite Hrun. eexists _, _. split; [done|].
  unfold answers_of in *. cbn [zip zip_with fst]. rewrite filter_cons. simpl (t_key _).
  rewrite !decide_True by done. simpl. by rewrite Hans.
Qed.

End period_proofs.

(** ** The token limiter: an ideal token bucket *)

(** The bucket: [level] tokens at the time [last], refilled at [rate] up to [burst]. *)
Definition refill (burst rate level last t : Z) : Z := Z.min burst (level + (t - last) * rate).

(** The requests [(time, n)] an ideal bucket grants. *)
Fixpoint ideal (burst rate level last : Z) (reqs : list (Z * Z)) : list bool :=
  match reqs with
  | [] => []
  | (t, n) :: reqs =>
    let filled := refill burst rate level last t in
    (n <=? filled) :: ideal burst rate (if n <=? filled then filled - n else filled) t reqs
  end.

(** Times do not go back; a request is not negative. *)
Fixpoint in_order (last : Z) (reqs : list (Z * Z)) : Prop :=
  match reqs with
  | [] => True
  | (t, n) :: reqs => last <= t /\ 0 <= n /\ in_order t reqs
  end.

(** The tokens granted, and the time of the last request. *)
Fixpoint granted (reqs : list (Z * Z)) (out : list bool) : Z :=
  match reqs, out with
  | (_, n) :: reqs, b :: out => (if b then n else 0) + granted reqs out
  | _, _ => 0
  end.
Definition end_time (t0 : Z) (reqs : list (Z * Z)) : Z := default t0 (fst <$> last reqs).

Lemma end_time_cons t0 t n reqs : end_time t0 ((t, n) :: reqs) = end_time t reqs.
Proof. unfold end_time. destruct reqs as [|p reqs]; [done|]. by rewrite last_cons_cons; destruct (last (p :: reqs)) eqn:E; [|by apply last_None in E]. Qed.

Lemma end_time_ge reqs : forall t0, in_order t0 reqs -> t0 <= end_time t0 reqs.
Proof.
  induction reqs as [|[t n] reqs IH]; intros t0 Ho; [unfold end_time; simpl; lia|].
  destruct Ho as (H1 & _ & Ho). rewrite end_time_cons. specialize (IH t Ho). lia.
Qed.

(** An ideal bucket grants at most its level and what flows in. *)
Lemma ideal_bound burst rate reqs : forall level last,
  0 <= rate -> 0 <= level -> 0 <= burst -> in_order last reqs ->
  granted reqs (ideal burst rate level last reqs) <= level + (end_time last reqs - last) * rate.
Proof.
  induction reqs as [|[t n] reqs IH]; intros level last Hr Hl Hb Ho.
  { unfold end_time. simpl. lia. }
  destruct Ho as (H1 & H2 & Ho). rewrite end_time_cons. cbn [ideal granted].
  set (filled := refill burst rate level last t).
  assert (Hf : 0 <= filled <= level + (t - last) * rate) by (unfold filled, refill; nia).
  destruct (Z.leb_spec n filled) as [Hn|Hn].
  - specialize (IH (filled - n) t Hr ltac:(lia) Hb Ho). nia.
  - specialize (IH filled t Hr ltac:(lia) Hb Ho). nia.
Qed.

Section token_proofs.
Context {R : Type} `{!RedisCommands R} `{!RedisLaws R}.
Context {L : Type} (RescueNew : Z -> Z -> L) (RescueAllowN : Z -> Z -> L -> bool * L).
Implicit Types (r : R) (lim : TokenLimiter L).

(** Requests that redis answers, with the clocks of the process and of redis in step. *)
Fixpoint allow_all lim (reqs : list (Z * Z)) r : list bool * TokenLimiter L * R :=
  match reqs with
  | [] => ([], lim, r)
  | (t, n) :: reqs =>
    let '(b, lim, r) := AllowN RescueAllowN Answered t t n lim r in
    let '(bs, lim, r) := allow_all lim reqs r in
    (b :: bs, lim, r)
  end.

(** The keys hold the bucket, or have expired when it is full again. *)
Definition holds_bucket (ttl level last : Z) (k1 k2 : string) r : Prop :=
  redis_entry r k1 = Some (level, Some (last + ttl)) /\ redis_entry r k2 = Some (last, Some (last + ttl)).

Lemma tokenScript_spec c k1 k2 rate burst n r level last :
  k1 <> k2 -> 0 < rate -> rate <= 2 * burst -> 0 <= c -> last <= c -> 0 <= level -> 0 <= n ->
  (holds_bucket (2 * burst / rate) level last k1 k2 r \/
   alive c (redis_entry r k1) = None /\ alive c (redis_entry r k2) = None /\ level = burst /\ last = c) ->
  let filled := refill burst rate level last c in
  exists r', tokenScript c k1 k2 rate burst c n r = (Some (n <=? filled), r') /\
    holds_bucket (2 * burst / rate) (if n <=? filled then filled - n else filled) c k1 k2 r'.
Proof.
  intros Hne Hr Hb Hc Hlast Hlevel Hn Hstate filled.
  set (ttl := 2 * burst / rate) in *.
  assert (Httl : 0 < ttl) by (unfold ttl; apply Z.div_str_pos; lia).
  assert (Hcover : burst <= ttl * rate).
  { unfold ttl. pose proof (Z.div_mod (2 * burst) rate ltac:(lia)).
    pose proof (Z.mod_pos_bound (2 * burst) rate Hr). unfold ttl in Httl. nia. }
  assert (Hfill : Z.min burst (default burst (redis_get c k1 r) +
            Z.max 0 (c - default 0 (redis_get c k2 r)) * rate) = filled).
  { rewrite !redis_get_law. unfold filled, refill. destruct Hstate as [[E1 E2]|(E1 & E2 & -> & ->)].
    - rewrite E1, E2. simpl. destruct (Z.ltb_spec c (last + ttl)); simpl; [|nia].
      rewrite Z.max_r by lia. done.
    - rewrite E1, E2. simpl. nia. }
  unfold tokenScript. cbv zeta. rewrite Hfill. fold ttl.
  set (new := if n <=? filled then filled - n else filled).
  pose proof (redis_setex_law c k1 ttl new r) as L1. destruct (redis_setex c k1 ttl new r) as [r1|]; [|lia].
  pose proof (redis_setex_law c k2 ttl c r1) as L2. destruct (redis_setex c k2 ttl c r1) as [r2|]; [|lia].
  destruct L1 as [_ L1], L2 as [_ L2]. eexists. split; [done|]. split.
  - rewrite L2, decide_False, L1, decide_True by done. done.
  - rewrite L2, decide_True by done. done.
Qed.

Lemma allow_all_ideal lim reqs : forall r level last,
  tokenKey lim <> timestampKey lim -> redisAlive lim = true -> 0 < rate lim -> rate lim <= 2 * burst lim ->
  0 <= last -> 0 <= level -> in_order last reqs ->
  holds_bucket (2 * burst lim / rate lim) level last (tokenKey lim) (timestampKey lim) r ->
  exists r', allow_all lim reqs r = (ideal (burst lim) (rate lim) level last reqs, lim, r').
Proof.
  induction reqs as [|[t n] reqs IH]; intros r level last Hk Ha Hr Hb Hlast Hlevel Ho Hst; simpl; [eauto|].
  destruct Ho as (H1 & H2 & Ho).
  destruct (tokenScript_spec t _ _ (rate lim) (burst lim) n r level last Hk Hr Hb ltac:(lia) H1 Hlevel H2
    (or_introl Hst)) as (r1 & Hrun & Hst1).
  unfold AllowN, reserveN. rewrite Ha. cbn [negb]. rewrite Hrun.
  set (filled := refill _ _ _ _ _) in *.
  assert (Hf : 0 <= filled) by (unfold filled, refill; nia).
  destruct (IH r1 (if n <=? filled then filled - n else filled) t Hk Ha Hr Hb ltac:(lia)
    ltac:(destruct (Z.leb_spec n filled); lia) Ho Hst1) as [r' Hr'].
  exists r'. destruct (n <=? filled); by rewrite Hr'.
Qed.

Lemma token_keys_distinct key : tokenKeyOf key <> timestampKeyOf key.
Proof.
  unfold tokenKeyOf, timestampKeyOf. intros H. apply (prefix_key_inj "{") in H.
  by apply (prefix_key_inj key) in H.
Qed.


(** With a burst below half the rate the keys would have to expire at once: redis refuses,
    every call of the script fails and the in-process limiter decides. *)
Lemma small_burst_always_rescues d clock now n lim r :
  0 < rate lim -> 0 <= burst lim -> 2 * burst lim < rate lim -> redisAlive lim = true -> d = Answered ->
  reserveN RescueAllowN d clock now n lim r = (rescue RescueAllowN now n (startMonitor lim), r).
Proof.
  intros Hr Hb Hsmall Ha ->. unfold reserveN. rewrite Ha. cbn [negb]. unfold tokenScript. cbv zeta.
  rewrite (Z.div_small (2 * burst lim) (rate lim)) by lia.
  match goal with |- context [redis_setex clock ?k 0 ?v r] =>
    pose proof (redis_setex_law clock k 0 v r) as L1; destruct (redis_setex clock k 0 v r) end; [lia|done].
Qed.

(** *** The monitor that waits for redis *)

(** The goroutine of [waitForRedis]: none, pinging, or about to leave. *)
Variant monitor_pc := MNone | MPinging | MLeaving.

Inductive mstep : TokenLimiter L * monitor_pc -> TokenLimiter L * monitor_pc -> Prop :=
| ms_call d clock now n lim r b lim' r' pc :
    reserveN RescueAllowN d clock now n lim r = (b, lim', r') ->
    mstep (lim, pc) (lim', if monitorStarted lim then pc else if monitorStarted lim' then MPinging else pc)
| ms_ping ping lim : mstep (lim, MPinging) (pingTick ping lim, if ping then MLeaving else MPinging)
| ms_leave lim : mstep (lim, MLeaving) (monitorEnd lim, MNone).

Lemma reserveN_monitor d clock now n lim r b lim' r' :
  reserveN RescueAllowN d clock now n lim r = (b, lim', r') ->
  (redisAlive lim' = redisAlive lim /\ monitorStarted lim' = monitorStarted lim) \/
  (redisAlive lim = true /\ monitorStarted lim = false /\ redisAlive lim' = false /\ monitorStarted lim' = true).
Proof.
  unfold reserveN, rescue, startMonitor.
  destruct (redisAlive lim) eqn:Ha, (monitorStarted lim) eqn:Hm; cbn [negb];
    repeat match goal with
    | |- context [let '(_, _) := ?x in _] => destruct x
    | |- context [match ?x with _ => _ end] => destruct x
    end; intros; simplify_eq; simpl; auto.
Qed.

(** The limiter uses the in-process limiter exactly while the monitor is pinging redis,
    and there is a monitor exactly while it is marked as started: it never stays on the
    in-process limiter without a monitor that will bring it back. *)
Theorem rescue_monitor_runs lim s :
  redisAlive lim = true -> monitorStarted lim = false -> rtc mstep (lim, MNone) s ->
  (redisAlive (fst s) = false <-> snd s = MPinging) /\
  (monitorStarted (fst s) = true <-> snd s <> MNone) /\
  (redisAlive (fst s) = false -> exists s', rtc mstep s s' /\ redisAlive (fst s') = true /\ monitorStarted (fst s') = false).
Proof.
  intros Ha Hm Hs.
  assert (Hinv : (redisAlive (fst s) = false <-> snd s = MPinging) /\ (monitorStarted (fst s) = true <-> snd s <> MNone)).
  { revert s Hs. apply rtc_ind_r; simpl; [rewrite Ha, Hm; split; split; (done || congruence)|].
    intros y z _ Hstep [I1 I2]. destruct Hstep as [d clock now n l r b l' r' pc Hres|ping l|l]; simpl in *.
    - destruct (reserveN_monitor _ _ _ _ _ _ _ _ _ Hres) as [[E1 E2]|(E1 & E2 & E3 & E4)].
      + rewrite E1, E2. by destruct (monitorStarted l).
      + rewrite E2, E3, E4. split; split; (done || congruence).
    - destruct ping; simpl; split; split; try done; try congruence; intros; by apply I2 || by apply I1.
    - split; split; try done. intros E. by apply I1 in E. }
  destruct Hinv as [I1 I2]. split; [done|]. split; [done|]. intros Hdead.
  destruct s as [l pc]. simpl in *. apply I1 in Hdead as ->.
  exists (monitorEnd (pingTick true l), MNone). split; [|done].
  eapply rtc_l; [apply (ms_ping true)|]. apply rtc_once. apply ms_leave.
Qed.

End token_proofs.

(** ** Concrete runs *)

Definition demo_limit : PeriodLimit := NewPeriodLimit 60 2 "p:" [Align].
Definition demo_now : reading := mkReading 130 3600.
Definition demo_takes : list take_call :=
  [mkTake "u" 105 demo_now Answered; mkTake "v" 106 demo_now Answered; mkTake "u" 110 demo_now (NotRun "eof");
   mkTake "u" 120 demo_now Answered].

Lemma period_limit_window_witness :
  exists out r', take_all demo_limit (mkTake "u" 100 demo_now Answered :: demo_takes) (mkMini ∅ ∅) = Ok (out, r') /\
    answers_of "u" (mkTake "u" 100 demo_now Answered :: demo_takes) out =
      [(Allowed, None); (HitQuota, None); (Unknown, Some (ErrRedis "eof")); (OverQuota, None)].
Proof.
  destruct (period_limit_window demo_limit "u" demo_now 100 demo_takes (mkMini ∅ ∅) 50) as (_ & _ & out & r' & H1 & H2).
  - done.
  - done.
  - reflexivity.
  - reflexivity.
  - by repeat constructor.
  - by repeat constructor.
  - exists out, r'. split; [exact H1|]. rewrite H2. reflexivity.
Defined.

Definition demo_rescue (_ _ : Z) (l : Z) : bool * Z := (0 <? l, l - 1).
Definition demo_reqs : list (Z * Z) := [(1000, 3); (1001, 3); (1001, 1); (1050, 5)].

Definition demo_token : TokenLimiter Z :=
  mkTokenLimiter 2 5 "{k}.tokens" "{k}.ts" true false 5.


Definition demo_rescued : TokenLimiter Z :=
  mkTokenLimiter 2 5 "{k}.tokens" "{k}.ts" false true 4.

Lemma rescue_monitor_runs_witness :
  exists s', rtc (mstep (R := mini) demo_rescue) (demo_rescued, MPinging) s' /\ redisAlive (fst s') = true.
Proof.
  destruct (rescue_monitor_runs (R := mini) demo_rescue demo_token (demo_rescued, MPinging))
    as (_ & _ & H); [done|done| |].
  - apply rtc_once. eapply (ms_call demo_rescue (NotRun (OtherError "eof")) 0 0 0 demo_token (mkMini ∅ ∅)).
    reflexivity.
  - destruct (H eq_refl) as (s' & H1 & H2 & _). eauto.
Defined.
