(* ===== verification/Bloom.v ===== *)
(** * [core/bloom/bloom.go]: the bloom filter on a redis bit set

    The filter hashes a datum [maps] times and sets, or tests, the bits at the hashes.  The
    hash function ([core/hash] calls murmur3) is an argument; the bit set is the redis of
    [Redis.v], reached through the scripts [setscript.lua] and [testscript.lua]. *)

From S2P Require Import Prelude.
From S2P Require Import Redis.

Definition maps : nat := 14.

Variant bloom_error := ErrTooLargeOffset | ErrStore (msg : string).

(** What a script run gives the client: an integer, another reply, or [redis.Nil]. *)
Variant script_reply := SInt (z : Z) | SOther | SNil.

Section bloom.
Context {R : Type} `{!RedisCommands R}.
Context (Hash : list N -> N).

Record redisBitSet := mkBitSet { bs_key : string; bs_bits : N }.
Record Filter := mkFilter { bits : N; bitSet : redisBitSet }.

Definition newRedisBitSet (key : string) (bits : N) : redisBitSet := mkBitSet key bits.
Definition New (key : string) (bits : N) : Filter := mkFilter bits (newRedisBitSet key bits).

(** The loop of [getLocations] from [i] on; [%] by a filter of no bits panics. *)
Fixpoint locations_loop (data : list N) (bits : N) (todo : nat) (i : N) : outcome (list N) :=
  match todo with
  | 0 => Ok []
  | S todo =>
    let hashValue := Hash (data ++ [(i mod 256)%N]) in
    if decide (bits = 0%N) then Panic "integer divide by zero"
    else (rest <~ locations_loop data bits todo (i + 1)%N ;; Ok ((hashValue mod bits)%N :: rest))%go
  end.

Definition getLocations (data : list N) (f : Filter) : outcome (list N) :=
  locations_loop data (bits f) maps 0.

Fixpoint buildOffsetArgs (offsets : list N) (s : redisBitSet) : bloom_error + list N :=
  match offsets with
  | [] => inr []
  | offset :: offsets =>
    if (bs_bits s <=? offset)%N then inl ErrTooLargeOffset
    else match buildOffsetArgs offsets s with
         | inl e => inl e
         | inr args => inr (offset :: args)
         end
  end.

(** [setscript.lua] returns nothing, which is the nil reply; [testscript.lua] returns true
    (the integer 1) or false (the nil reply). *)
Definition setScript (key : string) (args : list N) (r : R) : script_reply * R :=
  (SNil, foldl (fun r offset => redis_setbit key offset r) r args).

Fixpoint testScript (key : string) (args : list N) (r : R) : script_reply :=
  match args with
  | [] => SInt 1
  | offset :: args => if redis_getbit key offset r then testScript key args r else SNil
  end.

Definition set (d : delivery string) (offsets : list N) (s : redisBitSet) (r : R) : option bloom_error * R :=
  match buildOffsetArgs offsets s with
  | inl e => (Some e, r)
  | inr args =>
    match d with
    | Answered => (None, snd (setScript (bs_key s) args r))
    | NotRun e => (Some (ErrStore e), r)
    | AnswerLost e => (Some (ErrStore e), snd (setScript (bs_key s) args r))
    end
  end.

Definition check (d : delivery string) (offsets : list N) (s : redisBitSet) (r : R) : bool * option bloom_error :=
  match buildOffsetArgs offsets s with
  | inl e => (false, Some e)
  | inr args =>
    match d with
    | Answered =>
      match testScript (bs_key s) args r with
      | SNil => (false, None)
      | SOther => (false, None)
      | SInt exists_ => ((exists_ =? 1)%Z, None)
      end
    | NotRun e | AnswerLost e => (false, Some (ErrStore e))
    end
  end.

Definition AddCtx (d : delivery string) (data : list N) (f : Filter) (r : R) : outcome (option bloom_error * R) :=
  (locations <~ getLocations data f ;; Ok (set d locations (bitSet f) r))%go.

Definition ExistsCtx (d : delivery string) (data : list N) (f : Filter) (r : R)
  : outcome (bool * option bloom_error) :=
  (locations <~ getLocations data f ;;
   match check d locations (bitSet f) r with
   | (_, Some err) => Ok (false, Some err)
   | (isSet, None) => Ok (isSet, None)
   end)%go.

End bloom.

(** ** No false negatives, and exactly the bits of the hashes *)

Section bloom_proofs.
Context {R : Type} `{!RedisCommands R} `{!RedisLaws R}.
Context (Hash : list N -> N).
Implicit Types r : R.

(** The bits of a datum in a filter of [bits] bits. *)
Definition bits_of (data : list N) (bits : N) : list N :=
  map (fun i => (Hash (data ++ [N.of_nat i]) mod bits)%N) (seq 0 maps).

Lemma locations_loop_spec data bits todo : forall i, bits <> 0%N -> i + todo <= 256 ->
  locations_loop Hash data bits todo (N.of_nat i) =
  Ok (map (fun i => (Hash (data ++ [N.of_nat i]) mod bits)%N) (seq i todo)).
Proof.
  induction todo as [|todo IH]; intros i Hb Hi; simpl; [done|]. rewrite decide_False by done.
  replace (N.of_nat i + 1)%N with (N.of_nat (S i)) by lia. rewrite IH by (done || lia).
  rewrite (N.mod_small (N.of_nat i) 256) by lia. done.
Qed.

Lemma getLocations_spec data f : bits f <> 0%N -> getLocations Hash data f = Ok (bits_of data (bits f)).
Proof. intros Hb. apply (locations_loop_spec data (bits f) maps 0); [done|unfold maps; lia]. Qed.

Lemma buildOffsetArgs_ok offsets s : Forall (fun o => o < bs_bits s)%N offsets -> buildOffsetArgs offsets s = inr offsets.
Proof.
  induction 1 as [|o offsets Ho _ IH]; simpl; [done|]. rewrite IH.
  by rewrite (proj2 (N.leb_gt _ _) Ho).
Qed.

Lemma bits_of_range data bits : bits <> 0%N -> Forall (fun o => o < bits)%N (bits_of data bits).
Proof. intros Hb. apply Forall_fmap, Forall_forall. intros i _. simpl. by apply N.mod_lt. Qed.

Lemma getbit_set key args r k i :
  redis_getbit k i (foldl (fun r offset => redis_setbit key offset r) r args) =
  (bool_decide (k = key /\ i ∈ args) || redis_getbit k i r)%bool.
Proof.
  revert r. induction args as [|o args IH]; intros r; simpl.
  - rewrite bool_decide_eq_false_2; [done|]. intros [_ Hin]. by apply elem_of_nil in Hin.
  - rewrite IH, redis_bit_law. destruct (decide (k = key /\ i = o)) as [[-> ->]|Hne].
    + rewrite orb_true_r. rewrite bool_decide_eq_true_2; [done|]. split; [done|left].
    + f_equal. apply bool_decide_ext. rewrite elem_of_cons. intuition congruence.
Qed.

Lemma testScript_spec key args r :
  testScript key args r = if forallb (fun o => redis_getbit key o r) args then SInt 1 else SNil.
Proof. induction args as [|o args IH]; simpl; [done|]. by destruct (redis_getbit key o r). Qed.

Lemma check_answered offsets s r : Forall (fun o => o < bs_bits s)%N offsets ->
  check Answered offsets s r = (forallb (fun o => redis_getbit (bs_key s) o r) offsets, None).
Proof.
  intros Ho. unfold check. rewrite buildOffsetArgs_ok, testScript_spec by done.
  by destruct (forallb _ offsets).
Qed.

(** The calls on filters of one store, with the fate of each. *)
Record add_call := mkAdd { a_key : string; a_bits : N; a_data : list N; a_fate : delivery string }.

Fixpoint add_all (calls : list add_call) r : outcome R :=
  match calls with
  | [] => Ok r
  | a :: calls =>
    (x <~ AddCtx Hash (a_fate a) (a_data a) (New (a_key a) (a_bits a)) r ;; add_all calls (snd x))%go
  end.

(** The bits the calls that ran have set for a key. *)
Definition set_by (key : string) (calls : list add_call) (i : N) : Prop :=
  exists a, a ∈ calls /\ a_key a = key /\ (forall e, a_fate a <> NotRun e) /\ i ∈ bits_of (a_data a) (a_bits a).

Lemma AddCtx_spec a r : a_bits a <> 0%N ->
  exists err r', AddCtx Hash (a_fate a) (a_data a) (New (a_key a) (a_bits a)) r = Ok (err, r') /\
    forall k i, redis_getbit k i r' = true <-> set_by k [a] i \/ redis_getbit k i r = true.
Proof.
  intros Hb. unfold AddCtx. rewrite getLocations_spec by done. cbn [obind bits New]. unfold set.
  rewrite buildOffsetArgs_ok by by apply bits_of_range.
  assert (Hnot : forall e, a_fate a = NotRun e -> forall k i, ~ set_by k [a] i).
  { intros e He k i (a' & Hin%list_elem_of_singleton & _ & Hf & _). subst a'. by eapply Hf. }
  assert (Hrun : (forall e, a_fate a <> NotRun e) -> forall k i, redis_getbit k i
      (snd (setScript (a_key a) (bits_of (a_data a) (a_bits a)) r)) = true <->
      set_by k [a] i \/ redis_getbit k i r = true).
  { intros Hf k i. unfold setScript. cbn [snd]. rewrite getbit_set, orb_true_iff, bool_decide_eq_true. unfold set_by. split.
    - intros [[-> Hin]|?]; [left|by right]. exists a. split; [left|done].
    - intros [(a' & Hin%list_elem_of_singleton & Hk & _ & Hi)|?]; [left|by right]. by subst. }
  destruct (a_fate a) as [|e|e] eqn:Ef; eexists _, _; (split; [done|]).
  - by apply Hrun.
  - intros k i. split; [by right|]. intros [Hs|?]; [by eapply Hnot in Hs|done].
  - by apply Hrun.
Qed.

Lemma bloom_add_all_spec calls : forall r, Forall (fun a => a_bits a <> 0%N) calls ->
  exists r', add_all calls r = Ok r' /\
    forall k i, redis_getbit k i r' = true <-> set_by k calls i \/ redis_getbit k i r = true.
Proof.
  induction calls as [|a calls IH]; intros r Hb.
  - exists r. split; [done|]. intros k i. split; [by right|]. intros [(a & Hin & _)|?]; [|done]. by apply elem_of_nil in Hin.
  - apply Forall_cons in Hb as [Ha Hb]. destruct (AddCtx_spec a r Ha) as (err & r1 & Hrun & H1).
    destruct (IH r1 Hb) as (r' & Hr' & H2). exists r'. cbn [add_all]. rewrite Hrun. split; [done|].
    intros k i. rewrite H2, H1. unfold set_by. split.
    + intros [(b & Hin & Hrest)|[(b & Hin%list_elem_of_singleton & Hrest)|?]]; [| |by right];
        left; exists b; (split; [|done]); [by right|subst; left].
    + intros [(b & Hin & Hrest)|?]; [|by right; right].
      apply elem_of_cons in Hin as [->|Hin].
      * right. left. exists a. split; [left|done].
      * left. exists b. split; done.
Qed.

(** After any calls of [Add], on filters of any keys and sizes, some of which failed, an
    answered [Exists] is true exactly when all the bits of the datum have been set by calls
    that ran on the same key (or were set before): an element that was added is always found.
    A failed [Exists] reports the error and false. *)
Theorem bloom_exists_exact calls r key bits data :
  Forall (fun a => a_bits a <> 0%N) calls -> bits <> 0%N ->
  exists r', add_all calls r = Ok r' /\
    (exists b, ExistsCtx Hash Answered data (New key bits) r' = Ok (b, None) /\
       (b = true <-> Forall (fun i => set_by key calls i \/ redis_getbit key i r = true) (bits_of data bits))) /\
    (forall e, ExistsCtx Hash (NotRun e) data (New key bits) r' = Ok (false, Some (ErrStore e))) /\
    (forall a, a ∈ calls -> a_key a = key -> a_bits a = bits -> a_data a = data -> (forall e, a_fate a <> NotRun e) ->
       ExistsCtx Hash Answered data (New key bits) r' = Ok (true, None)).
Proof.
  intros Hcalls Hb. destruct (bloom_add_all_spec calls r Hcalls) as (r' & Hrun & Hbits). exists r'. split; [done|].
  assert (Hex : ExistsCtx Hash Answered data (New key bits) r' =
    Ok (forallb (fun o => redis_getbit key o r') (bits_of data bits), None)).
  { unfold ExistsCtx. rewrite getLocations_spec by done. cbn [obind].
    rewrite check_answered by by apply bits_of_range. done. }
  assert (Hall : forallb (fun o => redis_getbit key o r') (bits_of data bits) = true <->
    Forall (fun i => set_by key calls i \/ redis_getbit key i r = true) (bits_of data bits)).
  { rewrite forallb_forall, Forall_forall. setoid_rewrite <- Hbits. by setoid_rewrite list_elem_of_In. }
  split; [eauto|]. split.
  - intros e. unfold ExistsCtx. rewrite getLocations_spec by done. cbn [obind]. unfold check.
    by rewrite buildOffsetArgs_ok by by apply bits_of_range.
  - intros a Hin Hk Hab Hd Hf. rewrite Hex. do 2 f_equal. apply Hall. apply Forall_forall. intros i Hi. left.
    exists a. split_and!; try done. by subst.
Qed.

End bloom_proofs.

Definition demo_hash (l : list N) : N := (foldl (fun h x => h * 31 + x) 7 l)%N.

Lemma bloom_exists_exact_witness :
  exists r', add_all demo_hash [mkAdd "k" 100 [1; 2]%N Answered; mkAdd "k" 100 [3]%N (NotRun "eof")] (mkMini ∅ ∅) = Ok r' /\
    ExistsCtx demo_hash Answered [1; 2]%N (New "k" 100) r' = Ok (true, None) /\
    ExistsCtx demo_hash Answered [9; 9]%N (New "k" 100) r' = Ok (false, None).
Proof.
  destruct (bloom_exists_exact demo_hash [mkAdd "k" 100 [1; 2]%N Answered; mkAdd "k" 100 [3]%N (NotRun "eof")]
    (mkMini ∅ ∅) "k" 100%N [1; 2]%N) as (r' & H1 & _ & _ & H2).
  - by repeat constructor.
  - done.
  - exists r'. split; [exact H1|]. split.
    + eapply H2; [left|done..].
    + vm_compute in H1. injection H1 as <-. vm_compute. reflexivity.
Defined.
