(* ===== verification/HttpTree.v ===== *)
(** * [rest/router/internal/httprouter/tree.go]: the radix tree of routes

    The nodes form a tree (no node is shared), so a node is a value with its children in it and
    the walk of [addRoute] is a recursion that rebuilds the nodes on its way.  A path is a byte
    string; indices and slices are those of the code, and a run-time panic or a call of [panic]
    is a [Panic].  A handler is a value of the type [H], nil is [None].

    A route is read as a list of tokens ([toks]): literal bytes, [:name] parameters and a final
    [*name].  The routes of a tree ([entries]) are the token lists from the root to the nodes
    with a handler.  [addRoute_registers] shows that adding a route adds exactly that route and
    keeps the invariant [wf_tree]; the lookup is in [HttpRouter.v]. *)

From S2P Require Import Prelude.
From Stdlib Require Import Ascii.
From Stdlib Require Strings.String.

Definition colon : ascii := ":"%char.
Definition star : ascii := "*"%char.
Definition slash : ascii := "/"%char.

(** [min] and [longestCommonPrefix] *)
Fixpoint longestCommonPrefix (a b : gostr) : nat :=
  match a, b with
  | x :: a, y :: b => if bool_decide (x = y) then S (longestCommonPrefix a b) else 0
  | _, _ => 0
  end.

Definition countByte (c : ascii) (s : gostr) : N := N.of_nat (length (filter (fun x => x = c) s)).

(** 16-bit and 32-bit counters *)
Definition uint16 (n : N) : N := (n mod 65536)%N.
Definition uint32 (n : N) : N := (n mod 4294967296)%N.

Definition countParams (path : gostr) : N := uint16 (countByte colon path + countByte star path).
Definition countSections (path : gostr) : N := uint16 (countByte slash path).

Variant nodeType := static | root | param | catchAll.
#[export] Instance nodeType_eq_dec : EqDecision nodeType.
Proof. solve_decision. Defined.

Section tree.
Context {H : Type}.

Inductive node := mkNode {
  path : gostr;
  indices : gostr;
  wildChild : bool;
  nType : nodeType;
  priority : N;
  children : list node;
  handlers : option H;
  fullPath : gostr
}.

(** [new(node)] and the field updates *)
Definition zero_node : node := mkNode [] [] false static 0 [] None [].
Definition set_path p n := mkNode p (indices n) (wildChild n) (nType n) (priority n) (children n) (handlers n) (fullPath n).
Definition set_indices i n := mkNode (path n) i (wildChild n) (nType n) (priority n) (children n) (handlers n) (fullPath n).
Definition set_wildChild b n := mkNode (path n) (indices n) b (nType n) (priority n) (children n) (handlers n) (fullPath n).
Definition set_nType t n := mkNode (path n) (indices n) (wildChild n) t (priority n) (children n) (handlers n) (fullPath n).
Definition set_priority p n := mkNode (path n) (indices n) (wildChild n) (nType n) p (children n) (handlers n) (fullPath n).
Definition set_children c n := mkNode (path n) (indices n) (wildChild n) (nType n) (priority n) c (handlers n) (fullPath n).
Definition set_handler h fp n := mkNode (path n) (indices n) (wildChild n) (nType n) (priority n) (children n) h fp.

Definition prio_inc n : node := set_priority (uint32 (priority n + 1)) n.

Definition addChild (child n : node) : node :=
  if wildChild n && (0 <? length (children n)) then
    match last (children n) with
    | Some wildcardChild => set_children (take (length (children n) - 1) (children n) ++ [child; wildcardChild]) n
    | None => n
    end
  else set_children (children n ++ [child]) n.

(** The loop of [incrementChildPrio]: swap the node at [newPos] with the one before it as long
    as that one has a smaller priority. *)
Fixpoint bubble (newPos : nat) (prio : N) (cs : list node) : nat * list node :=
  match newPos with
  | 0 => (0, cs)
  | S p =>
    match cs !! p, cs !! S p with
    | Some a, Some b =>
      if (priority a <? prio)%N then bubble p prio (<[p := b]> (<[S p := a]> cs)) else (S p, cs)
    | _, _ => (S p, cs)
    end
  end.

(** [incrementChildPrio] returns the new position; a position out of range panics. *)
Definition incrementChildPrio (pos : nat) (n : node) : outcome (nat * node) :=
  match children n !! pos with
  | None => Panic "index out of range"
  | Some c =>
    let c := prio_inc c in
    let '(newPos, cs) := bubble pos (priority c) (<[pos := c]> (children n)) in
    if newPos =? pos then Ok (newPos, set_children cs n)
    else match indices n !! pos with
         | None => Panic "slice bounds out of range"
         | Some b =>
           Ok (newPos, set_indices (take newPos (indices n) ++ [b] ++
                 (take (pos - newPos) (drop newPos (indices n)) ++ drop (pos + 1) (indices n)))
               (set_children cs n))
         end
  end.

(** The inner loop of [findWildcard] on the bytes after the wildcard's first: the length of the
    name up to a slash, and whether it holds no other wildcard byte. *)
Fixpoint wildcardEnd (s : gostr) : nat * bool :=
  match s with
  | [] => (0, true)
  | c :: s =>
    if decide (c = slash) then (0, true)
    else let '(e, valid) := wildcardEnd s in
         (S e, if decide (c = colon \/ c = star) then false else valid)
  end.

(** [findWildcard]: [None] is the index -1. *)
Fixpoint findWildcard_from (start : nat) (s : gostr) : option (gostr * nat * bool) :=
  match s with
  | [] => None
  | c :: s =>
    if decide (c <> colon /\ c <> star) then findWildcard_from (S start) s
    else let '(e, valid) := wildcardEnd s in Some (c :: take e s, start, valid)
  end.
Definition findWildcard (path : gostr) : option (gostr * nat * bool) := findWildcard_from 0 path.

(** [strings.SplitN(s, "/", 2)[0]] and [strings.Index] *)
Fixpoint firstSegment (s : gostr) : gostr :=
  match s with
  | [] => []
  | c :: s => if decide (c = slash) then [] else c :: firstSegment s
  end.
Fixpoint indexOf (s sub : gostr) : nat :=
  match s with
  | [] => 0
  | _ :: s' => if decide (take (length sub) s = sub) then 0 else S (indexOf s' sub)
  end.

Definition str (s : gostr) : string := Stdlib.Strings.String.string_of_list_ascii s.

(** [insertChild]: a child is put into its parent once it is complete. *)
Fixpoint insertChild (fuel : nat) (n : node) (p fp : gostr) (h : H) : outcome node :=
  match fuel with
  | 0 => Panic "out of fuel"
  | S fuel =>
    match findWildcard p with
    | None => Ok (set_handler (Some h) fp (set_path p n))
    | Some (wildcard, i, valid) =>
      if negb valid then
        Panic ("only one wildcard per path segment is allowed, has: '" +:+ str wildcard +:+
               "' in path '" +:+ str fp +:+ "'")
      else if length wildcard <? 2 then
        Panic ("wildcards must be named with a non-empty name in path '" +:+ str fp +:+ "'")
      else if bool_decide (head wildcard = Some colon) then
        let '(n, p) := if 0 <? i then (set_path (take i p) n, drop i p) else (n, p) in
        let child := mkNode wildcard [] false param 1 [] None fp in
        (child <~ (if length wildcard <? length p then
                     sub <~ insertChild fuel (mkNode [] [] false static 1 [] None fp)
                              (drop (length wildcard) p) fp h ;;
                     Ok (addChild sub child)
                   else Ok (set_handler (Some h) fp child)) ;;
         Ok (set_wildChild true (addChild child n)))%go
      else if negb (i + length wildcard =? length p) then
        Panic ("catch-all routes are only allowed at the end of the path in path '" +:+ str fp +:+ "'")
      else if bool_decide (last (path n) = Some slash) then
        let pathSeg := match children n with [] => [] | c :: _ => firstSegment (path c) end in
        Panic ("catch-all wildcard '" +:+ str p +:+ "' in new path '" +:+ str fp +:+
               "' conflicts with existing path segment '" +:+ str pathSeg +:+
               "' in existing prefix '" +:+ str (path n ++ pathSeg) +:+ "'")
      else match i with
      | 0 => Panic "index out of range [-1]"
      | S i =>
        if bool_decide (p !! i <> Some slash) then
          Panic ("no / before catch-all in path '" +:+ str fp +:+ "'")
        else
          let leaf := mkNode (drop i p) [] false catchAll 1 [] (Some h) fp in
          let child := mkNode [] [] true catchAll 1 [leaf] None fp in
          Ok (set_indices [slash] (addChild child (set_path (take i p) n)))
      end
    end
  end.

(** The position of the first byte [c] of the indices. *)
Fixpoint indexByte (c : ascii) (s : gostr) : option nat :=
  match s with
  | [] => None
  | x :: s => if decide (c = x) then Some 0 else S <$> indexByte c s
  end.

(** Splitting an edge: the node keeps the common prefix of length [i], and what it had moves
    to a new child. *)
Definition splitEdge (i : nat) (p fp : gostr) (parentFullPathIndex : nat) (n : node) : node :=
  match path n !! i with
  | None => n
  | Some b =>
    let child := mkNode (drop i (path n)) (indices n) (wildChild n) static
                   (uint32 (priority n + 4294967295)) (children n) (handlers n) (fullPath n) in
    mkNode (take i p) [b] false (nType n) (priority n) [child] None (take (parentFullPathIndex + i) fp)
  end.

(** The second half of a round of [addRoute]: the rest [p] of the path goes below the node [n]
    whose path it left; [walk] is the next round, on a child. *)
Definition addBelow (walk : node -> gostr -> nat -> outcome node)
    (n : node) (p fp : gostr) (h : H) (parentFullPathIndex : nat) : outcome node :=
  match p with
  | [] =>
    match handlers n with
    | Some _ => Panic ("handler are already registered for path '" +:+ str fp +:+ "'")
    | None => Ok (set_handler (Some h) fp n)
    end
  | c :: _ =>
    let insert n := insertChild (S (length p)) n p fp h in
    if bool_decide (nType n = param /\ c = slash /\ length (children n) = 1) then
      match children n with
      | [] => Panic "index out of range"
      | child :: _ =>
        (child <~ walk (prio_inc child) p (parentFullPathIndex + length (path n)) ;;
         Ok (set_children [child] n))%go
      end
    else match indexByte c (indices n) with
    | Some k =>
      (x <~ incrementChildPrio k n ;;
       match children (snd x) !! fst x with
       | None => Panic "index out of range"
       | Some child =>
         child <~ walk child p (parentFullPathIndex + length (path n)) ;;
         Ok (set_children (<[fst x := child]> (children (snd x))) (snd x))
       end)%go
    | None =>
      if bool_decide (c <> colon /\ c <> star /\ nType n <> catchAll) then
        let n := addChild (mkNode [] [] false static 0 [] None fp) (set_indices (indices n ++ [c]) n) in
        (x <~ incrementChildPrio (length (indices n) - 1) n ;;
         match children (snd x) !! fst x with
         | None => Panic "index out of range"
         | Some child =>
           child <~ insert child ;;
           Ok (set_children (<[fst x := child]> (children (snd x))) (snd x))
         end)%go
      else if wildChild n then
        match last (children n) with
        | None => Panic "index out of range [-1]"
        | Some w =>
          let w := prio_inc w in
          if bool_decide (path w = take (length (path w)) p /\ nType w <> catchAll /\
               (length p <= length (path w) \/ p !! length (path w) = Some slash))
          then
            (w <~ walk w p parentFullPathIndex ;;
             Ok (set_children (take (length (children n) - 1) (children n) ++ [w]) n))%go
          else
            let pathSeg := if decide (nType w <> catchAll) then firstSegment p else p in
            Panic ("'" +:+ str pathSeg +:+ "' in new path '" +:+ str fp +:+
                   "' conflicts with existing wildcard '" +:+ str (path w) +:+
                   "' in existing prefix '" +:+ str (take (indexOf fp pathSeg) fp ++ path w) +:+ "'")
        end
      else insert n
    end
  end.

(** The walk of [addRoute] from the node [n]; every round goes to a child, so that the
    height of the tree bounds the rounds. *)
Fixpoint addWalk (fuel : nat) (fp : gostr) (h : H) (n : node) (p : gostr) (parentFullPathIndex : nat) : outcome node :=
  match fuel with
  | 0 => Panic "out of fuel"
  | S fuel =>
    let i := longestCommonPrefix p (path n) in
    let n := if i <? length (path n) then splitEdge i p fp parentFullPathIndex n else n in
    addBelow (addWalk fuel fp h) n (drop i p) fp h parentFullPathIndex
  end.

(** The height of a tree. *)
Fixpoint height (n : node) : nat := S (foldr (fun c m => Nat.max (height c) m) 0 (children n)).

Definition addRoute (p : gostr) (h : H) (n : node) : outcome node :=
  let n := prio_inc n in
  if bool_decide (path n = [] /\ children n = []) then
    (n <~ insertChild (S (length p)) n p p h ;; Ok (set_nType root n))%go
  else addWalk (S (height n)) p h n p 0.

End tree.
Arguments node : clear implicits.

(** ** Routes as tokens *)

Variant tok := Lit (c : ascii) | Par (name : gostr) | All (name : gostr).
#[export] Instance tok_eq_dec : EqDecision tok.
Proof. solve_decision. Defined.

(** [skip] is set inside the name of a parameter. *)
Fixpoint toks_from (skip : bool) (s : gostr) : list tok :=
  match s with
  | [] => []
  | c :: s =>
    if decide (skip = true /\ c <> slash) then toks_from true s
    else if decide (c = colon) then Par (firstSegment s) :: toks_from true s
    else if decide (c = star) then [All s]
    else Lit c :: toks_from false s
  end.
Definition toks (s : gostr) : list tok := toks_from false s.

(** A byte that starts no wildcard. *)
Definition litb (c : ascii) : Prop := c <> colon /\ c <> star.
(** The rest of a path behind a segment. *)
Definition seg_end (s : gostr) : Prop := s = [] \/ head s = Some slash.

Lemma toks_lits l p : Forall litb l -> toks (l ++ p) = map Lit l ++ toks p.
Proof.
  unfold toks. induction 1 as [|c l [H1 H2] _ IH]; simpl; [done|].
  rewrite decide_False by naive_solver. rewrite !decide_False by done. by rewrite IH.
Qed.

Lemma toks_from_name name p : Forall (fun c => c <> slash) name -> seg_end p ->
  toks_from true (name ++ p) = toks p.
Proof.
  intros Hn Hp. induction Hn as [|c name Hc _ IH]; simpl.
  - destruct p as [|c p]; [done|]. destruct Hp as [|[= ->]]; [done|]. done.
  - by rewrite decide_True.
Qed.

Lemma firstSegment_name name p : Forall (fun c => c <> slash) name -> seg_end p ->
  firstSegment (name ++ p) = name.
Proof.
  intros Hn Hp. induction Hn as [|c name Hc _ IH]; simpl.
  - destruct p as [|c p]; [done|]. destruct Hp as [|[= ->]]; [done|]. done.
  - rewrite decide_False by done. by rewrite IH.
Qed.

Lemma toks_param name p : Forall (fun c => c <> slash) name -> seg_end p ->
  toks (colon :: name ++ p) = Par name :: toks p.
Proof.
  intros Hn Hp. unfold toks. simpl. rewrite firstSegment_name, toks_from_name by done. done.
Qed.

Lemma toks_star name : toks (star :: name) = [All name].
Proof. done. Qed.

(** ** [findWildcard] *)

Lemma wildcardEnd_spec s : let '(e, valid) := wildcardEnd s in
  e <= length s /\ Forall (fun c => c <> slash) (take e s) /\ seg_end (drop e s) /\
  (valid = true -> Forall litb (take e s)).
Proof.
  induction s as [|c s IH]; simpl.
  - split_and!; [lia|constructor|by left|by constructor].
  - case_decide as Hc.
    + subst c. simpl. split_and!; [lia|constructor|by right|by constructor].
    + destruct (wildcardEnd s) as [e valid]. destruct IH as (H1 & H2 & H3 & H4). simpl.
      split_and!; [lia|by constructor|done|]. case_decide as Hw; [done|]. intros Hv.
      constructor; [|by apply H4]. split; intros ->; apply Hw; auto.
Qed.

Lemma findWildcard_from_spec s : forall start,
  match findWildcard_from start s with
  | None => Forall litb s
  | Some (w, i, valid) =>
    exists pre c name rest, s = pre ++ c :: name ++ rest /\ Forall litb pre /\ i = start + length pre /\
      w = c :: name /\ (c = colon \/ c = star) /\ Forall (fun c => c <> slash) name /\ seg_end rest /\
      (valid = true -> Forall litb name)
  end.
Proof.
  induction s as [|c s IH]; intros start; simpl; [constructor|]. case_decide as Hc.
  - specialize (IH (S start)). destruct (findWildcard_from (S start) s) as [[[w i] valid]|].
    + destruct IH as (pre & c' & name & rest & -> & H1 & -> & H2). exists (c :: pre), c', name, rest.
      split_and!; try tauto; [by constructor|simpl; lia].
    + by constructor.
  - pose proof (wildcardEnd_spec s) as He. destruct (wildcardEnd s) as [e valid].
    destruct He as (H1 & H2 & H3 & H4). exists [], c, (take e s), (drop e s).
    split_and!; try (done || (simpl; lia)); [simpl; by rewrite take_drop|].
    destruct (decide (c = colon)); [by left|]. destruct (decide (c = star)); [by right|]. tauto.
Qed.

Lemma findWildcard_spec s :
  match findWildcard s with
  | None => Forall litb s
  | Some (w, i, valid) =>
    exists pre c name rest, s = pre ++ c :: name ++ rest /\ Forall litb pre /\ i = length pre /\
      w = c :: name /\ (c = colon \/ c = star) /\ Forall (fun c => c <> slash) name /\ seg_end rest /\
      (valid = true -> Forall litb name)
  end.
Proof. apply (findWildcard_from_spec s 0). Qed.

(** ** Moving a child to the front *)

Section moving.
Context {H : Type}.
Implicit Types (n : node H) (cs : list (node H)).

Lemma bubble_spec prio : forall pos cs np cs', pos < length cs -> bubble pos prio cs = (np, cs') ->
  exists l0 m x l2, cs = l0 ++ m ++ x :: l2 /\ length (l0 ++ m) = pos /\ np = length l0 /\
    cs' = l0 ++ x :: m ++ l2.
Proof.
  induction pos as [|p IH]; intros cs np cs' Hlt Hb; simpl in Hb.
  - injection Hb as <- <-. destruct cs as [|x cs]; [simpl in Hlt; lia|]. by exists [], [], x, cs.
  - destruct (lookup_lt_is_Some_2 cs p ltac:(lia)) as [a Ha].
    destruct (lookup_lt_is_Some_2 cs (S p) Hlt) as [b Hb']. rewrite Ha, Hb' in Hb.
    assert (Hcs : exists l1 l2, cs = l1 ++ a :: b :: l2 /\ length l1 = p).
    { exists (take p cs), (drop (S (S p)) cs). split; [|rewrite length_take; lia].
      rewrite <- (drop_S cs b (S p) Hb'), <- (drop_S cs a p Ha). by rewrite take_drop. }
    destruct Hcs as (l1 & l2 & -> & Hl1). destruct (priority a <? prio)%N.
    + rewrite insert_app_r_alt in Hb by lia. rewrite insert_app_r_alt in Hb by lia.
      rewrite Hl1 in Hb. replace (S p - p) with 1 in Hb by lia. rewrite Nat.sub_diag in Hb. simpl in Hb.
      apply IH in Hb; [|rewrite length_app; simpl; lia].
      destruct Hb as (l0 & m & x & l2' & Heq & Hlen & -> & ->).
      rewrite app_assoc in Heq. apply app_inj_1 in Heq as [-> [= <- <-]]; [|congruence].
      exists l0, (m ++ [a]), b, l2. rewrite length_app in *. rewrite length_app. simpl.
      rewrite <- !app_assoc. simpl. split_and!; try done. lia.
    + injection Hb as <- <-. exists (l1 ++ [a]), [], b, l2. rewrite app_nil_r, length_app. simpl.
      rewrite <- !app_assoc. simpl. split_and!; try done; lia.
Qed.

Lemma incrementChildPrio_spec pos n cs ws :
  children n = cs ++ ws -> length (indices n) = length cs -> pos < length cs ->
  exists l0 m x l2 i0 im b i2,
    cs = l0 ++ m ++ x :: l2 /\ indices n = i0 ++ im ++ b :: i2 /\
    length i0 = length l0 /\ length im = length m /\ length (i0 ++ im) = pos /\
    incrementChildPrio pos n =
      Ok (length l0, set_indices (i0 ++ b :: im ++ i2) (set_children ((l0 ++ prio_inc x :: m ++ l2) ++ ws) n)).
Proof.
  intros Hc Hlen Hpos. unfold incrementChildPrio.
  destruct (lookup_lt_is_Some_2 cs pos Hpos) as [y Hy].
  assert (Hy' : children n !! pos = Some y) by (rewrite Hc; by apply lookup_app_l_Some).
  rewrite Hy'. destruct (bubble _ _ _) as [np cs'] eqn:Hb.
  assert (Hin : <[pos := prio_inc y]> (children n) = take pos cs ++ prio_inc y :: drop (S pos) cs ++ ws).
  { rewrite Hc, insert_app_l by done. rewrite insert_take_drop by done. by rewrite <- app_assoc. }
  rewrite Hin in Hb. apply bubble_spec in Hb; [|rewrite length_app, length_take; simpl; lia].
  destruct Hb as (l0 & m & x & l2 & Heq & Hlm & -> & ->).
  rewrite app_assoc in Heq. apply app_inj_1 in Heq as [Htake [= <- <-]]; [|rewrite length_take; lia].
  destruct (lookup_lt_is_Some_2 (indices n) pos ltac:(lia)) as [b Hbi].
  exists l0, m, y, (drop (S pos) cs), (take (length l0) (indices n)),
    (take (length m) (drop (length l0) (indices n))), b, (drop (S pos) (indices n)).
  rewrite length_app in Hlm.
  assert (Hi : indices n = take (length l0) (indices n) ++
     take (length m) (drop (length l0) (indices n)) ++ b :: drop (S pos) (indices n)).
  { rewrite <- (drop_S _ b pos Hbi). rewrite <- Hlm, <- drop_drop, take_drop, take_drop. done. }
  split_and!; try done.
  - rewrite app_assoc, <- Htake, <- (drop_S cs y pos Hy). by rewrite take_drop.
  - rewrite length_take. lia.
  - rewrite length_take, length_drop. lia.
  - rewrite length_app, !length_take, length_drop. lia.
  - rewrite <- !app_assoc. simpl. rewrite <- !app_assoc. destruct (Nat.eqb_spec (length l0) pos) as [He|Hne].
    + assert (m = []) as -> by (apply nil_length_inv; lia). simpl. rewrite He.
      rewrite <- (drop_S _ b pos Hbi), take_drop. by destruct n.
    + rewrite Hbi. replace (pos - length l0) with (length m) by lia. rewrite Nat.add_1_r. done.
Qed.

End moving.

(** ** The routes of a tree and its invariant *)

Section routes.
Context {H : Type}.
Implicit Types (n c w : node H) (cs ws : list (node H)).

(** A registered route: its tokens, its handler and the path it was registered with. *)
Definition entry : Type := list tok * (H * gostr).
Definition under (t : list tok) (l : list entry) : list entry := map (fun e => (t ++ fst e, snd e)) l.
Definition own n : list entry :=
  match handlers n with Some h => [([], (h, fullPath n))] | None => [] end.

Fixpoint entries n : list entry := under (toks (path n)) (own n ++ concat (map entries (children n))).
Definition kids n : list entry := concat (map entries (children n)).

(** The name of a wildcard. *)
Definition name_ok (name : gostr) : Prop := name <> [] /\ Forall (fun b => litb b /\ b <> slash) name.

(** The child [c] is the one for the index byte [b]. *)
Definition idx_ok (b : ascii) c : Prop :=
  litb b /\ ((nType c = static /\ (head (path c) = Some b \/ (path c = [] /\ b = slash))) \/
             (nType c = catchAll /\ path c = [] /\ b = slash)).

(** The children without an index byte: the parameter child. *)
Definition wild_ok (wild : bool) ws : Prop := if wild then exists w, ws = [w] /\ nType w = param else ws = [].

(** A static node or the root: one child per index byte, then the parameter child.  A node
    without a path stands before the slash of a catch-all. *)
Record static_at n cs ws : Prop := {
  sa_type : nType n = static \/ nType n = root;
  sa_lits : Forall litb (path n);
  sa_children : children n = cs ++ ws;
  sa_indices : Forall2 idx_ok (indices n) cs;
  sa_nodup : NoDup (indices n);
  sa_wild : wild_ok (wildChild n) ws;
  sa_empty : path n = [] -> handlers n = None /\ wildChild n = false /\ indices n = [slash] /\
    exists w, children n = [w] /\ nType w = catchAll;
  sa_live : handlers n <> None \/ children n <> []
}.

(** In every shape a node has a handler or children: a route ends at or below every node. *)
Variant shape n : Prop :=
| shape_static cs ws : static_at n cs ws -> shape n
| shape_param name :
    nType n = param -> path n = colon :: name -> name_ok name -> wildChild n = false ->
    (children n = [] /\ indices n = [] \/
     exists c, children n = [c] /\ idx_ok slash c /\ (indices n = [] \/ indices n = [slash])) ->
    handlers n <> None \/ children n <> [] ->
    shape n
| shape_wrapper w :
    nType n = catchAll -> path n = [] -> indices n = [] -> wildChild n = true -> handlers n = None ->
    children n = [w] -> nType w = catchAll -> path w <> [] -> shape n
| shape_leaf name :
    nType n = catchAll -> path n = slash :: star :: name -> name_ok name -> indices n = [] ->
    wildChild n = false -> handlers n <> None -> children n = [] -> shape n.

Definition shape_static_at n cs ws h1 h2 h3 h4 h5 h6 h7 h8 : shape n :=
  shape_static n cs ws (Build_static_at n cs ws h1 h2 h3 h4 h5 h6 h7 h8).

Fixpoint wf_node n : Prop := shape n /\ foldr (fun c P => wf_node c /\ P) True (children n).

Lemma wf_node_unfold n : wf_node n <-> shape n /\ Forall wf_node (children n).
Proof.
  assert (Hf : forall cs, foldr (fun c P => wf_node c /\ P) True cs <-> Forall wf_node cs).
  { induction cs as [|c cs IH]; simpl; [done|]. by rewrite IH, Forall_cons. }
  destruct n. simpl. by rewrite Hf.
Qed.

Lemma entries_unfold n : entries n = under (toks (path n)) (own n ++ kids n).
Proof. by destruct n. Qed.

Lemma under_app t l1 l2 : under t (l1 ++ l2) = under t l1 ++ under t l2.
Proof. apply map_app. Qed.
Lemma under_nil l : under [] l = l.
Proof. unfold under. rewrite <- (map_id l) at 2. apply map_ext. by intros []. Qed.
Lemma under_under t u l : under t (under u l) = under (t ++ u) l.
Proof. unfold under. rewrite map_map. apply map_ext. intros []. simpl. by rewrite app_assoc. Qed.
#[export] Instance under_perm t : Proper ((≡ₚ) ==> (≡ₚ)) (under t).
Proof. intros l1 l2 Hl. by apply Permutation_map. Qed.

(** Adding a route below a node adds it with the tokens of the node's path in front. *)
Lemma entries_grow n n' t u v : path n' = path n -> own n' ++ kids n' ≡ₚ (u, v) :: own n ++ kids n ->
  t = toks (path n) ++ u -> entries n' ≡ₚ (t, v) :: entries n.
Proof. intros Hp Hk ->. by rewrite !entries_unfold, Hp, Hk. Qed.

Lemma kids_app cs ws : concat (map entries (cs ++ ws)) = concat (map entries cs) ++ concat (map entries ws).
Proof. by rewrite map_app, concat_app. Qed.

Lemma entries_prio n : entries (prio_inc n) = entries n.
Proof. by destruct n. Qed.
Lemma shape_prio n : shape n -> shape (prio_inc n).
Proof.
  intros [cs ws []| | |]; [eapply shape_static, Build_static_at|eapply shape_param|eapply shape_wrapper|
    eapply shape_leaf]; simpl; eauto.
Qed.
Lemma wf_prio n : wf_node n -> wf_node (prio_inc n).
Proof. rewrite !wf_node_unfold. intros [Hs Hc]. split; [by apply shape_prio|done]. Qed.
Lemma idx_prio b n : idx_ok b n -> idx_ok b (prio_inc n).
Proof. done. Qed.

#[local] Arguments wf_node : simpl never.

(** A node has a handler or children. *)
Ltac live :=
  lazymatch goal with
  | |- _ <> None \/ _ <> [] =>
    first [done|by left|by right|
           right; intros Hnil; apply (f_equal length) in Hnil; rewrite ?length_app in Hnil; simpl in Hnil; lia]
  end.

(** ** [insertChild] *)

Definition paramNode (name fp : gostr) cs (oh : option H) : node H :=
  mkNode (colon :: name) [] false param 1 cs oh fp.
Definition catchAllNode (name fp : gostr) (h : H) : node H :=
  mkNode [] [] true catchAll 1 [mkNode (slash :: star :: name) [] false catchAll 1 [] (Some h) fp] None fp.
Definition freshNode (fp : gostr) : node H := mkNode [] [] false static 1 [] None fp.

(** What [insertChild] does to the node it is called on when it succeeds: a path without
    wildcards ends at the node, a parameter becomes its wildcard child, a catch-all its only
    indexed child. *)
Variant inserted (fuel : nat) n (p fp : gostr) (h : H) : node H -> Prop :=
| ins_static : Forall litb p -> inserted fuel n p fp h (set_handler (Some h) fp (set_path p n))
| ins_param pre name rest c :
    p = pre ++ colon :: name ++ rest -> Forall litb pre -> name_ok name -> seg_end rest ->
    (rest = [] /\ c = paramNode name fp [] (Some h) \/
     exists sub, head rest = Some slash /\ insertChild fuel (freshNode fp) rest fp h = Ok sub /\
       c = paramNode name fp [sub] None) ->
    inserted fuel n p fp h
      (set_wildChild true (addChild c (set_path (match pre with [] => path n | _ => pre end) n)))
| ins_catchAll pre name :
    p = pre ++ slash :: star :: name -> Forall litb pre -> name_ok name ->
    inserted fuel n p fp h (set_indices [slash] (addChild (catchAllNode name fp h) (set_path pre n))).

Lemma insertChild_inserted fuel n p fp h n' :
  insertChild (S fuel) n p fp h = Ok n' -> inserted fuel n p fp h n'.
Proof.
  cbn [insertChild]. pose proof (findWildcard_spec p) as Hf.
  destruct (findWildcard p) as [[[wc i] valid]|]; [|intros [= <-]; by constructor].
  destruct Hf as (pre & b & name & rest & -> & Hpre & -> & -> & Hb & Hns & Hrest & Hv).
  destruct valid; cbn [negb]; [|done]. specialize (Hv eq_refl).
  destruct (Nat.ltb_spec (length (b :: name)) 2) as [|Hlen]; [done|]. simpl in Hlen.
  assert (Hname : name_ok name).
  { split; [by destruct name; simpl in *; [lia|]|]. apply Forall_and. by split. }
  case_bool_decide as Hhd.
  - injection Hhd as ->.
    assert (Hif : (if 0 <? length pre then (set_path (take (length pre) (pre ++ colon :: name ++ rest)) n,
        drop (length pre) (pre ++ colon :: name ++ rest)) else (n, pre ++ colon :: name ++ rest))
      = (set_path (match pre with [] => path n | _ => pre end) n, colon :: name ++ rest)).
    { destruct pre as [|a pre]; [by destruct n|]. simpl length. simpl Nat.ltb. cbv iota.
      by rewrite take_app_length', drop_app_length'. }
    rewrite Hif. destruct (Nat.ltb_spec (length (colon :: name)) (length (colon :: name ++ rest))) as [Hl|Hl];
      simpl in Hl; rewrite length_app in Hl.
    + destruct Hrest as [->|Hsl]; [simpl in Hl; lia|]. change (colon :: name ++ rest) with ((colon :: name) ++ rest).
      rewrite drop_app_length. destruct (insertChild fuel _ rest fp h) as [sub|] eqn:Hsub; [|done].
      intros [= <-]. eapply ins_param; try done; [by right|]. right. by exists sub.
    + assert (rest = []) as -> by (apply nil_length_inv; lia). intros [= <-].
      eapply ins_param; try done. by left.
  - assert (b = star) as -> by (destruct Hb; [subst; done|done]).
    destruct (Nat.eqb_spec (length pre + length (star :: name)) (length (pre ++ star :: name ++ rest))) as [Hl|Hl];
      [|done]. rewrite length_app in Hl. simpl in Hl. rewrite length_app in Hl.
    assert (rest = []) as -> by (apply nil_length_inv; lia). rewrite app_nil_r. cbn [negb].
    case_bool_decide; [done|]. destruct (length pre) as [|i] eqn:Hi; [done|].
    destruct (exists_last (l := pre)) as (pre' & d & ->); [by intros ->|].
    rewrite length_app in Hi. simpl in Hi. assert (i = length pre') as -> by lia.
    rewrite <- app_assoc. simpl. rewrite lookup_app_r, Nat.sub_diag by lia. simpl.
    case_bool_decide as Hd; [done|]. injection Hd as ->.
    rewrite take_app_length, drop_app_length. intros [= <-].
    apply Forall_app in Hpre as [Hpre _]. by apply ins_catchAll.
Qed.

#[local] Arguments insertChild : simpl never.

Definition fresh n : Prop :=
  path n = [] /\ indices n = [] /\ wildChild n = false /\ nType n = static /\ children n = [] /\
  handlers n = None.

Lemma name_ns name : name_ok name -> Forall (fun b => b <> slash) name.
Proof. intros [_ Hn]. eapply Forall_impl; [exact Hn|]. by intros b []. Qed.

Lemma litb_slash : litb slash.
Proof. by split. Qed.

Lemma entries_param name fp cs oh : name_ok name ->
  entries (paramNode name fp cs oh) = under [Par name] (own (paramNode name fp cs oh) ++ concat (map entries cs)).
Proof.
  intros Hn. rewrite entries_unfold. f_equal. simpl. rewrite <- (app_nil_r name) at 1.
  apply toks_param; [by apply name_ns|by left].
Qed.

Lemma entries_catchAll name fp h : entries (catchAllNode name fp h) = [([Lit slash; All name], (h, fp))].
Proof. done. Qed.

Lemma wf_catchAll name fp h : name_ok name -> wf_node (catchAllNode name fp h).
Proof.
  intros Hn. apply wf_node_unfold. split; [by eapply shape_wrapper|].
  apply Forall_singleton, wf_node_unfold. split; [by eapply shape_leaf|constructor].
Qed.

(** The wildcard child that [insertChild] builds, from what it does on the rest of the path. *)
Lemma param_child fuel name rest fp h c :
  (forall sub, insertChild fuel (freshNode fp) rest fp h = Ok sub -> head rest = Some slash ->
     wf_node sub /\ nType sub = static /\ idx_ok slash sub /\ entries sub = [(toks rest, (h, fp))]) ->
  name_ok name -> seg_end rest ->
  (rest = [] /\ c = paramNode name fp [] (Some h) \/
   exists sub, head rest = Some slash /\ insertChild fuel (freshNode fp) rest fp h = Ok sub /\
     c = paramNode name fp [sub] None) ->
  wf_node c /\ nType c = param /\ entries c = [(toks (colon :: name ++ rest), (h, fp))].
Proof.
  intros IH Hname Hrest Hc. rewrite toks_param by (done || by apply name_ns).
  destruct Hc as [[-> ->]|(sub & Hsl & Hsub & ->)]; rewrite entries_param by done.
  - split_and!; [|done|done]. apply wf_node_unfold. split; [|by constructor].
    eapply shape_param; simpl; try (done || live). by left.
  - apply IH in Hsub as (Hw & Hty & Hix & He); [|done]. split_and!; [|done|].
    + apply wf_node_unfold. split; [|by constructor]. eapply shape_param; simpl; try (done || live).
      right. exists sub. split_and!; [done|done|by left].
    + simpl. by rewrite He.
Qed.

Lemma insertChild_fresh fuel : forall n p fp h b n', fresh n -> head p = Some b -> litb b ->
  insertChild fuel n p fp h = Ok n' ->
  wf_node n' /\ nType n' = static /\ idx_ok b n' /\ entries n' = [(toks p, (h, fp))].
Proof.
  induction fuel as [|fuel IH]; [done|]. intros n p fp h b n' Hn Hb Hlb Hi.
  apply insertChild_inserted in Hi. destruct n as [pa ix wc nt pr cs hd fpn].
  destruct Hn as (Hpa & Hix & Hwc & Hnt & Hcs & Hhd). simpl in *. subst.
  destruct Hi as [Hp|pre name rest c -> Hpre Hname Hrest Hc|pre name -> Hpre Hname]; simpl.
  - split_and!; try done.
    + apply wf_node_unfold. split; [|by constructor]. eapply (shape_static_at _ [] []); simpl; try (done || live || by left || by constructor).
      intros ->. done.
    + split; [done|]. left. split; [done|]. by left.
    + rewrite <- (app_nil_r p), toks_lits by done. by rewrite !app_nil_r.
  - destruct pre as [|a pre]; [injection Hb as <-; by destruct Hlb|]. injection Hb as ->.
    assert (Hcw : wf_node c /\ nType c = param /\ entries c = [(toks (colon :: name ++ rest), (h, fp))]).
    { eapply param_child; try done. intros sub Hsub Hsl.
      apply (IH _ _ _ _ slash) in Hsub; [tauto|done|done|apply litb_slash]. }
    destruct Hcw as (Hw & Hty & He). split_and!; try done.
    + apply wf_node_unfold. split; [|by constructor]. eapply (shape_static_at _ [] [c]); simpl; try (done || live || by left || by constructor).
      by exists c.
    + split; [done|]. left. split; [done|]. by left.
    + rewrite He. simpl. change (b :: pre ++ ?q) with ((b :: pre) ++ q).
      rewrite <- (app_nil_r (b :: pre)) at 1. by rewrite !toks_lits, app_nil_r by done.
  - split_and!; try done.
    + apply wf_node_unfold. split; [|apply Forall_singleton; by apply wf_catchAll].
      eapply (shape_static_at _ [catchAllNode name fp h] []); simpl; try (done || live || by left || apply NoDup_singleton).
      * constructor; [|constructor]. split; [apply litb_slash|]. by right.
      * intros ->. split_and!; try done. by exists (catchAllNode name fp h).
    + split; [done|]. left. split; [done|]. destruct pre as [|a pre]; [right|left]; by injection Hb as ->.
    + rewrite <- (app_nil_r pre) at 1. rewrite !toks_lits, app_nil_r by done. done.
Qed.

(** On a node with a path, a rest of a route that starts with a wildcard is a new parameter
    child. *)
Lemma insertChild_wild fuel n p fp h b n' : head p = Some b -> ~ litb b ->
  insertChild fuel n p fp h = Ok n' ->
  b = colon /\ exists c, n' = set_wildChild true (addChild c n) /\ wf_node c /\ nType c = param /\
    entries c = [(toks p, (h, fp))].
Proof.
  destruct fuel as [|fuel]; [done|]. intros Hb Hlb Hi. apply insertChild_inserted in Hi.
  destruct Hi as [Hp|pre name rest c -> Hpre Hname Hrest Hc|pre name -> Hpre Hname].
  - destruct Hp; [done|]. by injection Hb as ->.
  - destruct Hpre as [|a pre Ha Hpre]; [|by injection Hb as ->]. injection Hb as <-. split; [done|].
    exists c. split; [by destruct n|]. eapply param_child; try done. intros sub Hsub Hsl.
    eapply insertChild_fresh; [|done|apply litb_slash|done]. done.
  - destruct Hpre; injection Hb as <-; [|done]. by destruct Hlb.
Qed.

(** ** Splitting an edge *)

Lemma toks_litl l : Forall litb l -> toks l = map Lit l.
Proof. intros Hl. rewrite <- (app_nil_r l) at 1. rewrite toks_lits by done. apply app_nil_r. Qed.

Lemma lcp_split a : forall b, exists x, a = x ++ drop (longestCommonPrefix a b) a /\
  b = x ++ drop (longestCommonPrefix a b) b /\ length x = longestCommonPrefix a b /\
  (forall d, head (drop (longestCommonPrefix a b) a) = Some d ->
     head (drop (longestCommonPrefix a b) b) <> Some d).
Proof.
  induction a as [|c a IH]; intros [|d b]; simpl; try (by exists []).
  case_bool_decide as Hcd; [|exists []; split_and!; try done; by intros ? [= <-] [= <-]].
  destruct (IH b) as (x & Ha & Hb & Hl & Hne). subst d. exists (c :: x). simpl.
  split_and!; [by f_equal|by f_equal|by f_equal|done].
Qed.

(** The common prefix [x] of the path and of the node's path stays, the rest [b :: y] of the
    node's path moves down. *)
Lemma splitEdge_spec n p fp k x b y : wf_node n -> nType n = static \/ nType n = root ->
  path n = x ++ b :: y -> take (length x) p = x -> x <> [] ->
  let n' := splitEdge (length x) p fp k n in
  wf_node n' /\ nType n' = nType n /\ path n' = x /\ indices n' = [b] /\ wildChild n' = false /\
  entries n' = entries n.
Proof.
  intros Hw Hty Hp Hx Hne. apply wf_node_unfold in Hw as [Hs Hc]. simpl. unfold splitEdge. rewrite Hp.
  rewrite lookup_app_r, Nat.sub_diag by lia. simpl. rewrite drop_app_length, Hx.
  destruct Hs as [cs ws [_ Hl Hcs Hix Hnd Hwc _ ?]| | |]; [|destruct Hty; congruence..].
  rewrite Hp in Hl. apply Forall_app in Hl as [Hlx Hly].
  split_and!; try done.
  - apply wf_node_unfold. split; simpl.
    + eapply (shape_static_at _ [_] []); simpl; try (done || live); [|apply NoDup_singleton].
      constructor; [|constructor]. split; [by inv Hly|]. left. split; [done|]. by left.
    + apply Forall_singleton, wf_node_unfold. split; [|done].
      eapply (shape_static_at _ cs ws); simpl; try (done || live). by left.
  - rewrite !entries_unfold. unfold kids. simpl. rewrite app_nil_r, under_under, Hp.
    rewrite toks_lits by done. by rewrite (toks_litl x).
Qed.

(** ** Going below a node *)

Lemma indexByte_Some b (l : gostr) k : indexByte b l = Some k -> l !! k = Some b.
Proof.
  revert k. induction l as [|a l IH]; intros k; simpl; [done|]. case_decide as Hb; [by intros [= <-]; subst|].
  intros (j & Hj & ->)%fmap_Some. by apply IH.
Qed.
Lemma indexByte_None b (l : gostr) : indexByte b l = None -> b ∉ l.
Proof.
  induction l as [|a l IH]; simpl; [set_solver|]. case_decide; [done|]. intros Hn%fmap_None.
  apply not_elem_of_cons. auto.
Qed.

Lemma addChild_spec n cs ws c : children n = cs ++ ws -> wild_ok (wildChild n) ws ->
  addChild c n = set_children (cs ++ c :: ws) n.
Proof.
  intros Hc Hw. unfold addChild. rewrite Hc. destruct (wildChild n); simpl in *.
  - destruct Hw as (w & -> & _). rewrite length_app. simpl. rewrite last_snoc.
    destruct (Nat.ltb_spec 0 (length cs + 1)); [|lia]. by rewrite Nat.add_sub, take_app_length.
  - subst ws. by rewrite app_nil_r.
Qed.

(** The rest [p] of a route can enter the node. *)
Definition enters (p : gostr) n : Prop :=
  match nType n with
  | param => exists rest, p = path n ++ rest /\ seg_end rest
  | catchAll => path n = [] /\ head p = Some slash
  | _ => head p = Some (default slash (head (path n)))
  end.

(** What a round does when it succeeds. *)
Definition grows (p : gostr) (v : H * gostr) n n' : Prop :=
  wf_node n' /\ nType n' = nType n /\ nType n <> catchAll /\ head (path n') = head (path n) /\
  (nType n = param -> path n' = path n) /\ entries n' ≡ₚ (toks p, v) :: entries n.

Lemma idx_enters b c p : idx_ok b c -> head p = Some b -> enters p (prio_inc c).
Proof.
  intros [_ [[Ht Hp]|(Ht & Hp & ->)]] Hh; unfold enters; simpl; rewrite Ht.
  - destruct Hp as [->|[-> ->]]; done.
  - done.
Qed.

Lemma idx_grows p v b c c' : idx_ok b c -> grows p v (prio_inc c) c' -> idx_ok b c'.
Proof.
  intros [Hb Hi] (_ & Ht & _ & Hh & _). simpl in *. split; [done|].
  assert (Hnil : path c = [] -> path c' = []) by (intros Hp; rewrite Hp in Hh; by destruct (path c')).
  rewrite Ht, Hh. naive_solver.
Qed.

(** Moving a child to the front with its index byte, and replacing it. *)
Lemma Forall2_moved (i0 im i2 : gostr) b l0 m x l2 y :
  Forall2 idx_ok (i0 ++ im ++ b :: i2) (l0 ++ m ++ x :: l2) -> length i0 = length l0 -> length im = length m ->
  (idx_ok b x -> idx_ok b y) -> Forall2 idx_ok (i0 ++ b :: im ++ i2) (l0 ++ y :: m ++ l2).
Proof.
  intros HF H0 Hm Hxy. apply Forall2_app_inv in HF as [HF0 HF]; [|done].
  apply Forall2_app_inv in HF as [HFm HF]; [|done]. inv HF.
  apply Forall2_app; [done|]. constructor; [auto|]. by apply Forall2_app.
Qed.

Lemma prefix_enters (a q : gostr) : a = take (length a) q ->
  length q <= length a \/ q !! length a = Some slash -> exists rest, q = a ++ rest /\ seg_end rest.
Proof.
  intros Ha Hr. exists (drop (length a) q). split; [rewrite Ha at 1; by rewrite take_drop|].
  destruct Hr as [Hr|Hr]; [left; by apply drop_ge|right]. by rewrite (drop_S _ _ _ Hr).
Qed.

Definition grows_below (q : gostr) (v : H * gostr) n n' : Prop :=
  wf_node n' /\ nType n' = nType n /\ nType n <> catchAll /\ path n' = path n /\
  own n' ++ kids n' ≡ₚ (toks q, v) :: own n ++ kids n.

Section below.
Context (walk : node H -> gostr -> nat -> outcome (node H)) (fp : gostr) (h : H).
Hypothesis walk_ok : forall n p k n', wf_node n -> enters p n -> walk n p k = Ok n' -> grows p (h, fp) n n'.

Lemma below_handler n : wf_node n -> path n <> [] -> nType n <> catchAll -> handlers n = None ->
  grows_below [] (h, fp) n (set_handler (Some h) fp n).
Proof.
  intros Hw Hp Ht Hh. apply wf_node_unfold in Hw as [Hs Hc]. split_and!; try done.
  - apply wf_node_unfold. split; [|done]. destruct Hs as [cs ws []| | |]; try done.
    + eapply (shape_static_at _ cs ws); simpl; try (done || live).
    + eapply shape_param; simpl; try (done || live).
  - unfold own. rewrite Hh. done.
Qed.

(** The child at position [length l0] is walked into. *)
Lemma below_replace n cs ws l0 m x l2 (i0 im : gostr) b (i2 : gostr) x' q :
  wf_node n -> static_at n cs ws -> cs = l0 ++ m ++ x :: l2 ->
  indices n = i0 ++ im ++ b :: i2 -> length i0 = length l0 -> length im = length m ->
  grows q (h, fp) (prio_inc x) x' ->
  grows_below q (h, fp) n (set_children ((l0 ++ x' :: m ++ l2) ++ ws) (set_indices (i0 ++ b :: im ++ i2) n)).
Proof.
  intros Hw [Ht Hl Hc HF Hnd Hwc He] -> Hi H0 Hm Hg.
  apply wf_node_unfold in Hw as [_ Hcs]. rewrite Hc, !Forall_app, Forall_cons in Hcs.
  destruct Hcs as [[Hw0 [Hwm [Hwx Hw2]]] Hww]. pose proof Hg as (Hx' & Htx & Hnc & _ & _ & Hex).
  split_and!; try done; simpl.
  - apply wf_node_unfold. split.
    + eapply (shape_static_at _ (l0 ++ x' :: m ++ l2) ws); simpl; try (done || live).
      * rewrite Hi in HF. eapply Forall2_moved; try done. intros Hix. by eapply idx_grows.
      * rewrite Hi in Hnd. by rewrite Permutation_middle.
      * intros Hp. destruct (He Hp) as (_ & _ & _ & w & Hcw & Hwt).
        assert (Hx : x ∈ [w]) by (rewrite <- Hcw, Hc; set_solver). apply list_elem_of_singleton in Hx. by subst.
    + simpl. rewrite !Forall_app, Forall_cons, Forall_app. done.
  - destruct Ht; congruence.
  - unfold own, kids. simpl. rewrite Hc, !kids_app. simpl. rewrite !kids_app, Hex, entries_prio. simpl.
    solve_Permutation.
Qed.

(** A child behind its index byte: what the code does after [incrementChildPrio]. *)
Lemma at_child (f : node H -> outcome (node H)) n (i : gostr) l0 x r ws n' :
  (x0 <~ Ok (length l0, set_indices i (set_children ((l0 ++ x :: r) ++ ws) n)) ;;
   match children (snd x0) !! fst x0 with
   | None => Panic "index out of range"
   | Some child => child <~ f child ;; Ok (set_children (<[fst x0 := child]> (children (snd x0))) (snd x0))
   end)%go = Ok n' ->
  exists x', f x = Ok x' /\ n' = set_children ((l0 ++ x' :: r) ++ ws) (set_indices i n).
Proof.
  simpl. rewrite <- app_assoc, lookup_app_r, Nat.sub_diag by lia. simpl.
  destruct (f x) as [x'|]; [|done]. intros [= <-]. exists x'. split; [done|].
  rewrite insert_app_r_alt, Nat.sub_diag by lia. by rewrite <- app_assoc.
Qed.

Lemma below_index n cs ws q b k i n' :
  wf_node n -> static_at n cs ws -> head q = Some b -> indices n !! k = Some b ->
  (x <~ incrementChildPrio k n ;;
   match children (snd x) !! fst x with
   | None => Panic "index out of range"
   | Some child => child <~ walk child q i ;; Ok (set_children (<[fst x := child]> (children (snd x))) (snd x))
   end)%go = Ok n' ->
  grows_below q (h, fp) n n'.
Proof.
  intros Hw Hsa Hq Hk. pose proof Hsa as [Ht Hl Hc HF Hnd Hwc He].
  pose proof (Forall2_length _ _ _ HF) as Hlen. pose proof (lookup_lt_Some _ _ _ Hk) as Hlt.
  destruct (incrementChildPrio_spec k n cs ws Hc Hlen ltac:(lia))
    as (l0 & m & x & l2 & i0 & im & b' & i2 & Hcs & Hi & H0 & Hm & Hpos & ->).
  assert (b' = b) as ->.
  { rewrite Hi, app_assoc, lookup_app_r, Hpos, Nat.sub_diag in Hk by lia. by injection Hk. }
  intros (x' & Hx & ->)%at_child. eapply below_replace; try done. apply walk_ok in Hx; [done|..].
  - apply wf_prio. apply wf_node_unfold in Hw as [_ Hwf]. rewrite Hc, Hcs in Hwf.
    eapply Forall_forall in Hwf; [exact Hwf|]. set_solver.
  - eapply idx_enters; [|done]. rewrite Hi, Hcs in HF. apply Forall2_app_inv in HF as [_ HF]; [|done].
    apply Forall2_app_inv in HF as [_ HF]; [|done]. by inv HF.
Qed.

(** The new child gets the index byte [b] and may move to the front. *)
Lemma new_child_pos n cs ws b :
  children n = cs ++ ws -> length (indices n) = length cs -> wild_ok (wildChild n) ws ->
  exists l0 m (i0 im : gostr), cs = l0 ++ m /\ indices n = i0 ++ im /\ length i0 = length l0 /\
    incrementChildPrio
      (length (indices (addChild (mkNode [] [] false static 0 [] None fp) (set_indices (indices n ++ [b]) n))) - 1)
      (addChild (mkNode [] [] false static 0 [] None fp) (set_indices (indices n ++ [b]) n)) =
    Ok (length l0, set_indices (i0 ++ b :: im) (set_children ((l0 ++ freshNode fp :: m) ++ ws) n)).
Proof.
  intros Hc Hlen Hwc. erewrite addChild_spec by done. simpl. rewrite length_app. simpl.
  rewrite Nat.add_sub.
  match goal with |- context [incrementChildPrio _ ?n1] =>
    destruct (incrementChildPrio_spec (length (indices n)) n1 (cs ++ [mkNode [] [] false static 0 [] None fp]) ws)
      as (l0 & m & x & l2 & i0 & im & b' & i2 & Hcs & Hi & H0 & Hm & Hpos & ->)
  end; simpl; [by rewrite <- app_assoc|rewrite !length_app; simpl; lia|rewrite length_app; simpl; lia|].
  rewrite app_assoc in Hcs, Hi. apply app_inj_1 in Hcs as [-> [= <- <-]]; [|rewrite !length_app in *; lia].
  apply app_inj_1 in Hi as [Hi [= <- <-]]; [|done]. rewrite !app_nil_r.
  by exists l0, m, i0, im.
Qed.

Lemma new_child n cs ws q b n' :
  children n = cs ++ ws -> length (indices n) = length cs -> wild_ok (wildChild n) ws ->
  head q = Some b -> litb b ->
  (x <~ incrementChildPrio
          (length (indices (addChild (mkNode [] [] false static 0 [] None fp) (set_indices (indices n ++ [b]) n))) - 1)
          (addChild (mkNode [] [] false static 0 [] None fp) (set_indices (indices n ++ [b]) n)) ;;
   match children (snd x) !! fst x with
   | None => Panic "index out of range"
   | Some child =>
     child <~ insertChild (S (length q)) child q fp h ;;
     Ok (set_children (<[fst x := child]> (children (snd x))) (snd x))
   end)%go = Ok n' ->
  exists l0 m (i0 im : gostr) x, cs = l0 ++ m /\ indices n = i0 ++ im /\ length i0 = length l0 /\
    n' = set_children ((l0 ++ x :: m) ++ ws) (set_indices (i0 ++ b :: im) n) /\
    wf_node x /\ idx_ok b x /\ entries x = [(toks q, (h, fp))].
Proof.
  intros Hc Hlen Hwc Hq Hb.
  destruct (new_child_pos n cs ws b Hc Hlen Hwc) as (l0 & m & i0 & im & ? & ? & ? & ->).
  intros (x' & Hx & ->)%at_child. eapply insertChild_fresh in Hx as (Hw & _ & Hix & He); try done.
  exists l0, m, i0, im, x'. done.
Qed.

Lemma below_new_static n cs ws q b l0 m (i0 im : gostr) x :
  wf_node n -> static_at n cs ws -> path n <> [] -> b ∉ indices n ->
  cs = l0 ++ m -> indices n = i0 ++ im -> length i0 = length l0 ->
  wf_node x -> idx_ok b x -> entries x = [(toks q, (h, fp))] ->
  grows_below q (h, fp) n (set_children ((l0 ++ x :: m) ++ ws) (set_indices (i0 ++ b :: im) n)).
Proof.
  intros Hw [Ht Hl Hc HF Hnd Hwc He] Hp Hb -> Hi H0 Hx Hix Hex.
  apply wf_node_unfold in Hw as [_ Hcs]. rewrite Hc, !Forall_app in Hcs. rewrite Hi in HF, Hnd, Hb.
  split_and!; try done; simpl.
  - apply wf_node_unfold. split; simpl; [|rewrite !Forall_app, Forall_cons; tauto].
    eapply (shape_static_at _ (l0 ++ x :: m) ws); simpl; try (done || live).
    + apply Forall2_app_inv in HF as [HF0 HF]; [|done]. apply Forall2_app; [done|by constructor].
    + rewrite <- Permutation_middle. by constructor.
  - destruct Ht; congruence.
  - unfold own, kids. simpl. rewrite Hc, !kids_app. simpl. rewrite Hex. solve_Permutation.
Qed.

Lemma below_new_param n name q x : wf_node n -> nType n = param -> path n = colon :: name -> name_ok name ->
  children n = [] -> wildChild n = false -> wf_node x -> idx_ok slash x -> entries x = [(toks q, (h, fp))] ->
  grows_below q (h, fp) n (set_children [x] (set_indices [slash] n)).
Proof.
  intros Hw Ht Hp Hn Hc Hwc Hx Hix Hex. split_and!; simpl; try done; [| |].
  - apply wf_node_unfold. split; simpl; [|by constructor]. eapply shape_param; simpl; try (done || live).
    right. exists x. split_and!; [done|done|by right].
  - congruence.
  - unfold own, kids. simpl. rewrite Hc, Hex. simpl. rewrite app_nil_r. solve_Permutation.
Qed.

(** The only child of a parameter is walked into. *)
Lemma below_param_child n c c' q : wf_node n -> nType n = param -> children n = [c] ->
  grows q (h, fp) (prio_inc c) c' -> grows_below q (h, fp) n (set_children [c'] n).
Proof.
  intros Hw Ht Hc Hg. pose proof Hg as (Hw' & Ht' & _ & _ & _ & Hex).
  apply wf_node_unfold in Hw as [Hs _]. split_and!; simpl; try done.
  - apply wf_node_unfold. split; simpl; [|by constructor].
    destruct Hs as [? ? [[]]|name _ Hp Hn Hwc [[Hc' _]|(d & Hd & Hix & Hi)]| |]; try congruence.
    eapply shape_param; simpl; try (done || live). right. exists c'. split_and!; try done.
    eapply idx_grows; [exact Hix|]. by replace d with c by congruence.
  - congruence.
  - unfold own, kids. simpl. rewrite Hc. simpl. rewrite Hex, entries_prio. solve_Permutation.
Qed.

(** The parameter child is walked into. *)
Lemma below_wild n cs w q w' :
  wf_node n -> static_at n cs [w] -> wildChild n = true -> grows q (h, fp) (prio_inc w) w' ->
  grows_below q (h, fp) n (set_children (cs ++ [w']) n).
Proof.
  intros Hw [Ht Hl Hc HF Hnd Hwc He] Hwt (Hw' & Ht' & Hnc & _ & _ & Hex).
  apply wf_node_unfold in Hw as [_ Hcs]. rewrite Hc, !Forall_app in Hcs.
  rewrite Hwt in Hwc, He. destruct Hwc as (? & [= <-] & Hwp).
  split_and!; try done; simpl.
  - apply wf_node_unfold. split; simpl; [|rewrite !Forall_app; split; [tauto|by constructor]].
    eapply (shape_static_at _ cs [w']); simpl; try (done || live).
    + rewrite Hwt. exists w'. split; [done|]. by rewrite Ht'.
    + intros Hp. by destruct (He Hp) as (_ & ? & _).
  - destruct Ht; congruence.
  - unfold own, kids. simpl. rewrite Hc, !kids_app. simpl. rewrite Hex, entries_prio. solve_Permutation.
Qed.

(** A new parameter child. *)
Lemma below_insert n cs q c :
  wf_node n -> static_at n cs [] -> wildChild n = false -> path n <> [] -> wf_node c -> nType c = param ->
  entries c = [(toks q, (h, fp))] -> grows_below q (h, fp) n (set_wildChild true (addChild c n)).
Proof.
  intros Hw [Ht Hl Hc HF Hnd Hwc _] Hwf Hp Hcw Hct Hex. rewrite app_nil_r in Hc.
  rewrite (addChild_spec n cs [] c); [|by rewrite Hc, app_nil_r|by rewrite Hwf].
  apply wf_node_unfold in Hw as [_ Hcs]. rewrite Hc in Hcs. split_and!; try done; simpl.
  - apply wf_node_unfold. split; simpl; [|rewrite !Forall_app; split; [done|by constructor]].
    eapply (shape_static_at _ cs [c]); simpl; try (done || live). by exists c.
  - destruct Ht; congruence.
  - unfold own, kids. simpl. rewrite Hc, !kids_app. simpl. rewrite Hex. solve_Permutation.
Qed.

(** The case analysis of a round. *)
Lemma addBelow_spec n q i n' : wf_node n -> (nType n = param -> seg_end q) ->
  (path n = [] -> head q = Some slash) -> (nType n = catchAll -> path n = []) ->
  addBelow walk n q fp h i = Ok n' -> grows_below q (h, fp) n n'.
Proof.
  intros Hw Hpar Hnil Hcat. unfold addBelow. destruct q as [|b q'].
  { destruct (handlers n) eqn:Hh; [done|]. intros [= <-]. apply below_handler; try done; [|].
    - intros Hp. by specialize (Hnil Hp).
    - intros Ht. by specialize (Hnil (Hcat Ht)). }
  set (q := b :: q') in *. pose proof (proj1 (wf_node_unfold n) Hw) as [Hs Hcs].
  destruct Hs as [cs ws Hsa|name Ht Hp Hn Hwc Hc|w Ht Hp Hi Hwc Hh Hc Hwt _|name Ht Hp]; [| | |].
  - rewrite bool_decide_eq_false_2 by (destruct Hsa as [[]]; naive_solver congruence).
    destruct (indexByte b (indices n)) as [k|] eqn:Hk.
    { apply indexByte_Some in Hk. by eapply below_index. }
    apply indexByte_None in Hk. pose proof Hsa as [Ht Hl Hc HF Hnd Hwc He].
    assert (Hpn : path n <> []).
    { intros Hp. destruct (He Hp) as (_ & _ & Hix & _). rewrite Hix in Hk.
      specialize (Hnil Hp) as [= ->]. set_solver. }
    case_bool_decide as Hb.
    + intros (l0 & m & i0 & im & x & ? & ? & ? & -> & ? & ? & ?)%(new_child n cs ws); try done.
      * by eapply below_new_static.
      * by eapply Forall2_length.
      * by destruct Hb as (? & ? & _).
    + destruct (wildChild n) eqn:Hwd.
      * destruct Hwc as (w & -> & Hwt). rewrite Hc, last_snoc, length_app. simpl.
        rewrite Nat.add_sub, take_app_length. case_bool_decide as Hm; [|done].
        destruct (walk (prio_inc w) q i) as [w'|] eqn:Hww; [|done]. intros [= <-].
        rewrite Hc, Forall_app, Forall_singleton in Hcs. apply walk_ok in Hww.
        -- by eapply below_wild.
        -- apply wf_prio, Hcs.
        -- unfold enters. simpl. rewrite Hwt. destruct Hm as (Hm & _ & Hr). by apply prefix_enters.
      * simpl in Hwc. subst ws. intros (-> & c & -> & ? & ? & ?)%(insertChild_wild _ _ _ _ _ b).
        -- by eapply below_insert.
        -- done.
        -- intros [? ?]. apply Hb. destruct Ht as [Ht|Ht]; rewrite Ht; done.
  - assert (b = slash) as -> by (destruct (Hpar Ht) as [|[= ->]]; done).
    destruct Hc as [[Hc Hi]|(c & Hc & Hix & Hi)]; rewrite Hc.
    + rewrite bool_decide_eq_false_2 by (intros (_ & _ & ?); done). assert (indexByte slash (indices n) = None) as -> by (by rewrite Hi).
      rewrite bool_decide_eq_true_2 by (rewrite Ht; done).
      intros (l0 & m & i0 & im & x & Hl & ? & Hlen & -> & ? & ? & ?)%(new_child n [] []); try done.
      * symmetry in Hl. apply app_nil in Hl as [-> ->]. apply nil_length_inv in Hlen as ->. simpl in *.
        assert (im = []) as -> by congruence. by eapply below_new_param.
      * by rewrite Hi.
      * by rewrite Hwc.
    + rewrite bool_decide_eq_true_2 by done.
      destruct (walk (prio_inc c) q _) as [c'|] eqn:Hww; [|done]. intros [= <-].
      rewrite Hc, Forall_singleton in Hcs. apply walk_ok in Hww; [|by apply wf_prio|by eapply idx_enters].
      by eapply (below_param_child n c c').
  - rewrite bool_decide_eq_false_2 by (rewrite Ht; naive_solver). rewrite Hi. simpl indexByte. cbv iota.
    rewrite bool_decide_eq_false_2 by naive_solver. rewrite Hwc, Hc. simpl last. cbv iota beta zeta.
    rewrite bool_decide_eq_false_2; [done|]. simpl. rewrite Hwt. naive_solver.
  - rewrite (Hcat Ht) in Hp. done.
Qed.

End below.
(** ** The rounds suffice *)

Definition returns (o : outcome (node H)) : Prop := o <> Panic "out of fuel".

Lemma insertChild_returns fuel : forall n p fp h, length p < fuel -> returns (insertChild fuel n p fp h).
Proof.
  induction fuel as [|fuel IH]; intros n p fp h Hlt; [lia|]. unfold returns, insertChild. fold (@insertChild H).
  pose proof (findWildcard_spec p) as Hf.
  destruct (findWildcard p) as [[[wc i] valid]|]; [|done].
  destruct Hf as (pre & b & name & rest & -> & _ & -> & -> & _). destruct valid; [|done].
  cbn [negb]. destruct (length (b :: name) <? 2); [done|]. case_bool_decide.
  - match goal with |- context [if 0 <? length pre then ?x else ?y] =>
      assert (Hif : exists n1, (if 0 <? length pre then x else y) = (n1, b :: name ++ rest)) end.
    { destruct pre as [|a pre]; [by exists n|]. simpl. eexists. by rewrite drop_app_length. }
    destruct Hif as [n1 ->]. destruct (_ <? _); [|done].
    change (b :: name ++ rest) with ((b :: name) ++ rest). rewrite drop_app_length.
    match goal with |- context [insertChild fuel ?m rest fp h] => pose proof (IH m rest fp h) as Hr end.
    destruct (insertChild fuel _ rest fp h); [done|]. simpl. intros [= ->]. apply Hr; [|done].
    rewrite !length_app in Hlt. simpl in Hlt. rewrite length_app in Hlt. lia.
  - destruct (_ + _ =? _); [|done]. cbn [negb]. case_bool_decide; [done|].
    destruct (length pre); [done|]. by case_bool_decide.
Qed.

Lemma height_child n c : c ∈ children n -> height c < height n.
Proof.
  destruct n as [pa ix wc nt pr cs hd fp]. simpl. intros Hc.
  assert (height c <= foldr (fun c m => Nat.max (height c) m) 0 cs); [|lia].
  induction cs as [|d cs IH]; [by apply not_elem_of_nil in Hc|]. simpl.
  apply elem_of_cons in Hc as [->|Hc]; [lia|]. specialize (IH Hc). lia.
Qed.

Lemma at_child_returns (f : node H -> outcome (node H)) n (i : gostr) l0 x r ws :
  returns (f x) ->
  returns (x0 <~ Ok (length l0, set_indices i (set_children ((l0 ++ x :: r) ++ ws) n)) ;;
   match children (snd x0) !! fst x0 with
   | None => Panic "index out of range"
   | Some child => child <~ f child ;; Ok (set_children (<[fst x0 := child]> (children (snd x0))) (snd x0))
   end)%go.
Proof.
  intros Hf. unfold returns. simpl. rewrite <- app_assoc, lookup_app_r, Nat.sub_diag by lia. simpl.
  destruct (f x); simpl; [done|]. intros [= ->]. by apply Hf.
Qed.

(** The rounds of the children that a round may enter. *)
Definition kids_return (walk : node H -> gostr -> nat -> outcome (node H)) n (q : gostr) : Prop :=
  forall c i, c ∈ children n -> (exists b, head q = Some b /\ b ∈ indices n) \/ wildChild n = true \/ nType n = param ->
    wf_node c -> enters q (prio_inc c) -> returns (walk (prio_inc c) q i).

Lemma addBelow_returns walk fp h n q i : wf_node n -> (nType n = param -> seg_end q) ->
  (path n = [] -> head q = Some slash) -> (nType n = catchAll -> path n = []) -> kids_return walk n q ->
  returns (addBelow walk n q fp h i).
Proof.
  intros Hw Hpar Hnil Hcat Hk. unfold addBelow. destruct q as [|b q']; [by destruct (handlers n)|].
  set (q := b :: q') in *. pose proof (proj1 (wf_node_unfold n) Hw) as [Hs Hcs]. rewrite Forall_forall in Hcs.
  destruct Hs as [cs ws Hsa|name Ht Hp Hn Hwc Hc|w Ht Hp Hi Hwc Hh Hc Hwt _|name Ht Hp]; [| | |].
  - pose proof Hsa as [Ht Hl Hc HF Hnd Hwc He]. pose proof (Forall2_length _ _ _ HF) as Hlen.
    rewrite bool_decide_eq_false_2 by (destruct Ht; naive_solver congruence).
    destruct (indexByte b (indices n)) as [k|] eqn:Hkb.
    { apply indexByte_Some in Hkb. pose proof (lookup_lt_Some _ _ _ Hkb) as Hlt.
      destruct (incrementChildPrio_spec k n cs ws Hc Hlen ltac:(lia))
        as (l0 & m & x & l2 & i0 & im & b' & i2 & Hcx & Hi & H0 & Hm & Hpos & ->).
      assert (b' = b) as ->.
      { rewrite Hi, app_assoc, lookup_app_r, Hpos, Nat.sub_diag in Hkb by lia. by injection Hkb. }
      apply at_child_returns. assert (Hx : x ∈ children n) by (rewrite Hc, Hcx; set_solver).
      apply Hk; [done| |by apply Hcs|].
      - left. exists b. split; [done|]. rewrite Hi. set_solver.
      - eapply idx_enters; [|done]. rewrite Hi, Hcx in HF. apply Forall2_app_inv in HF as [_ HF]; [|done].
        apply Forall2_app_inv in HF as [_ HF]; [|done]. by inv HF. }
    case_bool_decide as Hb.
    + destruct (new_child_pos fp n cs ws b Hc Hlen Hwc) as (l0 & m & i0 & im & ? & ? & ? & ->).
      apply (at_child_returns (fun child => insertChild (S (length q)) child q fp h)).
      apply insertChild_returns. lia.
    + destruct (wildChild n) eqn:Hwd; [|apply insertChild_returns; lia].
      destruct Hwc as (w & -> & Hwt). rewrite Hc, last_snoc. case_bool_decide as Hm; [|done].
      unfold returns. destruct (walk (prio_inc w) q i) as [w'|] eqn:Hww; [done|]. simpl. intros [= ->].
      revert Hww. assert (Hin : w ∈ children n) by (rewrite Hc; set_solver).
      apply Hk; [done|by right; left|by apply Hcs|].
      unfold enters. simpl. rewrite Hwt. destruct Hm as (Hm & _ & Hr). by apply prefix_enters.
  - assert (b = slash) as -> by (destruct (Hpar Ht) as [|[= ->]]; done).
    destruct Hc as [[Hc Hi]|(c & Hc & Hix & Hi)]; rewrite Hc.
    + rewrite bool_decide_eq_false_2 by (intros (_ & _ & ?); done).
      assert (indexByte slash (indices n) = None) as -> by (by rewrite Hi).
      rewrite bool_decide_eq_true_2 by (rewrite Ht; done).
      destruct (new_child_pos fp n [] [] slash) as (l0 & m & i0 & im & ? & ? & ? & ->);
        [done|by rewrite Hi|by rewrite Hwc|].
      apply (at_child_returns (fun child => insertChild (S (length q)) child q fp h)).
      apply insertChild_returns. lia.
    + rewrite bool_decide_eq_true_2 by done. unfold returns.
      destruct (walk (prio_inc c) q _) as [c'|] eqn:Hww; [done|]. simpl. intros [= ->]. revert Hww.
      assert (Hin : c ∈ children n) by (rewrite Hc; set_solver).
      apply Hk; [done|by right; right|by apply Hcs|by eapply idx_enters].
  - rewrite bool_decide_eq_false_2 by (rewrite Ht; naive_solver). rewrite Hi. simpl indexByte. cbv iota.
    rewrite bool_decide_eq_false_2 by naive_solver. rewrite Hwc, Hc. simpl last. cbv iota beta zeta.
    rewrite bool_decide_eq_false_2; [done|]. simpl. rewrite Hwt. naive_solver.
  - rewrite (Hcat Ht) in Hp. done.
Qed.

(** ** The walk *)

Lemma lcp_prefix (a r : gostr) : longestCommonPrefix (a ++ r) a = length a.
Proof. induction a as [|b a IH]; simpl; [by destruct r|]. rewrite bool_decide_eq_true_2 by done. by rewrite IH. Qed.

Lemma toks_node n q : wf_node n -> nType n <> catchAll -> (nType n = param -> seg_end q) ->
  toks (path n ++ q) = toks (path n) ++ toks q.
Proof.
  intros [Hs _]%wf_node_unfold Hnc Hpar. destruct Hs as [cs ws Hsa|name Ht Hp Hn| |]; try done.
  - by rewrite toks_lits, (toks_litl (path n)) by apply Hsa.
  - rewrite Hp, <- app_comm_cons, toks_param by (auto using name_ns).
    pose proof (toks_param name [] (name_ns _ Hn) (or_introl eq_refl)) as Hnil. rewrite app_nil_r in Hnil.
    by rewrite Hnil.
Qed.

Lemma grows_of_below n q v n' : wf_node n -> (nType n = param -> seg_end q) ->
  grows_below q v n n' -> grows (path n ++ q) v n n'.
Proof.
  intros Hw Hpar (Hw' & Ht & Hnc & Hp & He). split_and!; try done; [by rewrite Hp|].
  eapply entries_grow; [done|exact He|]. by apply toks_node.
Qed.

(** The first half of a round: the node that takes the rest [q] of the path is the one the walk
    is at, or the upper half of it when its edge is split. *)
Lemma walk_round fp h n p i : wf_node n -> enters p n -> exists n1 q,
  (forall fuel, addWalk (S fuel) fp h n p i = addBelow (addWalk fuel fp h) n1 q fp h i) /\
  wf_node n1 /\ nType n1 = nType n /\ head (path n1) = head (path n) /\ entries n1 = entries n /\
  p = path n1 ++ q /\ (nType n1 = param -> path n1 = path n /\ seg_end q) /\
  (path n1 = [] -> head q = Some slash) /\ (nType n1 = catchAll -> path n1 = []) /\
  (n1 = n \/ (forall b, head q = Some b -> b ∉ indices n1) /\ wildChild n1 = false /\ nType n1 <> param).
Proof.
  intros Hw Hen. destruct (decide (nType n = param \/ path n = [])) as [Hc|Hc].
  - assert (Hp : exists q, p = path n ++ q /\ (nType n = param -> path n = path n /\ seg_end q) /\
        (path n = [] -> head q = Some slash)).
    { assert (Hnp : nType n = param -> path n <> []).
      { apply wf_node_unfold in Hw as [[? ? [[]]|? ? Hp ?| |] _]; congruence. }
      unfold enters in Hen. destruct (decide (nType n = param)) as [Ht|Ht].
      - rewrite Ht in Hen. destruct Hen as (rest & -> & Hr). exists rest. split_and!; try done.
        intros Hp. by specialize (Hnp Ht).
      - destruct Hc as [|Hp]; [done|]. exists p. rewrite Hp in *. split_and!; try done.
        destruct (nType n); tauto. }
    destruct Hp as (q & -> & Hpar & Hnil). exists n, q. simpl.
    rewrite lcp_prefix, Nat.ltb_irrefl, drop_app_length. split_and!; try done; [|by left].
    intros Ht. unfold enters in Hen. rewrite Ht in Hen. tauto.
  - assert (Hst : nType n = static \/ nType n = root).
    { unfold enters in Hen. destruct (nType n); tauto. }
    assert (Hnp : nType n <> param) by tauto. assert (Hnc : nType n <> catchAll) by (destruct Hst; congruence).
    assert (Hh : head p = head (path n)).
    { unfold enters in Hen. destruct (path n); [tauto|]. destruct Hst as [Ht|Ht]; by rewrite Ht in Hen. }
    destruct (lcp_split p (path n)) as (x & Hp & Hn & Hx & Hd). simpl. rewrite <- Hx in *.
    set (q := drop (length x) p) in *. destruct (drop (length x) (path n)) as [|b y].
    + rewrite app_nil_r in Hn. exists n, q. rewrite <- Hn, Nat.ltb_irrefl in *. split_and!; tauto.
    + assert (Hxn : x <> []).
      { intros ->. simpl in *. destruct (path n) as [|d z] eqn:Hpn; [tauto|]. apply (Hd d); [done|congruence]. }
      rewrite (proj2 (Nat.ltb_lt _ _)) by (rewrite Hn, length_app; simpl; lia).
      assert (Htk : take (length x) p = x) by (rewrite Hp; apply take_app_length).
      destruct (splitEdge_spec n p fp i x b y) as (Hw1 & Ht1 & Hp1 & Hi1 & Hwc1 & He1); try done.
      exists (splitEdge (length x) p fp i n), q. rewrite Ht1, Hp1, Hi1. split_and!; try done.
      * rewrite Hn. by destruct x.
      * right. split_and!; try done. intros d Hdq Hin%list_elem_of_singleton. subst d. by apply (Hd b).
Qed.

Lemma addWalk_spec fuel fp h : forall n p i n', wf_node n -> enters p n ->
  addWalk fuel fp h n p i = Ok n' -> grows p (h, fp) n n'.
Proof.
  induction fuel as [|fuel IH]; [done|]. intros n p i n' Hw Hen.
  destruct (walk_round fp h n p i Hw Hen) as (n1 & q & -> & Hw1 & Ht1 & Hh1 & He1 & -> & Hpar & Hnil & Hcat & _).
  intros Hr. eapply addBelow_spec in Hr; try done; [|by intros [_ ?]%Hpar].
  apply grows_of_below in Hr as (? & ? & ? & ? & ? & ?); [|done|by intros [_ ?]%Hpar].
  rewrite He1 in *. split_and!; try congruence. intros Ht. rewrite <- Ht1 in Ht.
  destruct (Hpar Ht) as [<- _]. auto.
Qed.

Lemma addWalk_returns fuel fp h : forall n p i, height n < fuel -> wf_node n -> enters p n ->
  returns (addWalk fuel fp h n p i).
Proof.
  induction fuel as [|fuel IH]; intros n p i Hlt Hw Hen; [lia|].
  destruct (walk_round fp h n p i Hw Hen) as (n1 & q & -> & Hw1 & Ht1 & _ & _ & -> & Hpar & Hnil & Hcat & Hor).
  apply addBelow_returns; try done; [by intros [_ ?]%Hpar|]. intros c j Hc Hk Hwc Hec.
  destruct Hor as [->|(Hni & Hnw & Hnp)]; [|destruct Hk as [(b & Hb & Hin)|[Hk|Hk]]; [by apply Hni in Hb|congruence|done]].
  apply IH; [|by apply wf_prio|done]. apply height_child in Hc. destruct c. simpl in *. lia.
Qed.

(** ** The tree *)

(** A tree is new or has a root whose path starts with a slash. *)
Definition wf_tree n : Prop :=
  fresh n \/ (wf_node n /\ nType n = root /\ default slash (head (path n)) = slash).

Lemma wf_set_root n b : wf_node n -> nType n = static -> idx_ok b n ->
  wf_node (set_nType root n) /\ entries (set_nType root n) = entries n.
Proof.
  intros [Hs Hc]%wf_node_unfold Ht Hi. split; [|by destruct n].
  apply wf_node_unfold. split; [|done]. destruct Hs as [cs ws []| | |]; try congruence.
  eapply (shape_static_at _ cs ws); simpl; try (done || live). by right.
Qed.

Lemma addRoute_grows p h n n' : wf_tree n -> head p = Some slash -> addRoute p h n = Ok n' ->
  wf_tree n' /\ entries n' ≡ₚ (toks p, (h, p)) :: entries n.
Proof.
  intros Hn Hp. unfold addRoute. simpl path. simpl children.
  destruct Hn as [(Hpa & Hix & Hwc & Ht & Hc & Hh)|(Hw & Ht & Hsl)].
  - rewrite bool_decide_eq_true_2 by done.
    destruct (insertChild _ _ _ _ _) as [n1|] eqn:Hi; [|done]. intros [= <-].
    eapply insertChild_fresh in Hi as (Hw & Ht1 & Hidx & He); [|done|done|apply litb_slash].
    destruct (wf_set_root n1 slash) as [Hw1 He1]; try done. split.
    + right. split_and!; try done. simpl.
      destruct Hidx as [_ [[_ [Hq|[Hq _]]]|(Hq & _)]]; [by rewrite Hq|by rewrite Hq|congruence].
    + rewrite He1, He, entries_unfold. unfold own, kids. by rewrite Hh, Hc.
  - rewrite bool_decide_eq_false_2.
    + intros Hr. apply addWalk_spec in Hr as (Hw' & Ht' & _ & Hh & _ & He).
      * split; [right|]; [|by rewrite entries_prio in He]. simpl in *. rewrite Hh. split_and!; congruence.
      * by apply wf_prio.
      * unfold enters. simpl. by rewrite Ht, Hsl.
    + intros [Hpa Hc]. apply wf_node_unfold in Hw as [[cs ws []| | |] _]; try congruence.
      destruct (sa_empty0 Hpa) as (_ & _ & _ & w & Hw & _). congruence.
Qed.

(** *** Routes are unambiguous *)

Definition first_tok (P : tok -> Prop) (l : list entry) : Prop :=
  Forall (fun e => exists t, head (fst e) = Some t /\ P t) l.

Lemma first_under P t u l : P t -> first_tok P (under (t :: u) l).
Proof. intros Ht. apply Forall_map, Forall_forall. intros e _. by exists t. Qed.

Lemma entries_wrapper n : wf_node n -> nType n = catchAll -> path n = [] ->
  exists w name, children n = [w] /\ nType w = catchAll /\ path w = slash :: star :: name /\ name_ok name /\
    children w = [] /\ handlers n = None /\ wildChild n = true /\ indices n = [] /\
    entries n = under [Lit slash; All name] (own w).
Proof.
  intros [Hs Hc]%wf_node_unfold Ht Hp.
  destruct Hs as [? ? [[]]| |w _ _ Hi Hwc Hh Hcs Hwt Hwp|]; try congruence.
  rewrite Hcs, Forall_singleton in Hc. apply wf_node_unfold in Hc as [Hw _].
  destruct Hw as [? ? [[]]| | |name _ Hpw Hn _ _ _ Hcw]; try congruence.
  exists w, name. split_and!; try done. rewrite entries_unfold, Hp, under_nil. unfold own, kids.
  rewrite Hh, Hcs. simpl. rewrite app_nil_r, entries_unfold, Hpw. unfold kids. rewrite Hcw. simpl.
  by rewrite app_nil_r.
Qed.

(** The routes below a child start with its index byte. *)
Lemma entries_idx b c : wf_node c -> idx_ok b c -> first_tok (eq (Lit b)) (entries c).
Proof.
  intros Hw [Hb Hi]. destruct (decide (path c = [])) as [Hp|Hp].
  - destruct Hi as [[Ht [Hh|[_ ->]]]|(Ht & _ & ->)]; [by rewrite Hp in Hh| |].
    + apply wf_node_unfold in Hw as [[cs ws [_ _ Hcs HF _ Hww He]| | |] Hc]; try congruence.
      destruct (He Hp) as (Hh & Hwc & Hi & w & Hcw & Hwt). rewrite Hcw, Forall_singleton in Hc.
      rewrite entries_unfold, Hp, under_nil. unfold own, kids. rewrite Hh, Hcw. simpl. rewrite app_nil_r.
      assert (Hpw : path w = []).
      { rewrite Hcw, Hwc in *. simpl in Hww. subst ws. rewrite app_nil_r in Hcs. subst cs.
        rewrite Hi in HF. inv HF. destruct H3 as [_ [[? _]|(_ & ? & _)]]; congruence. }
      destruct (entries_wrapper w) as (? & name & _ & _ & _ & _ & _ & _ & _ & _ & ->); try done.
      by apply first_under.
    + destruct (entries_wrapper c) as (? & name & _ & _ & _ & _ & _ & _ & _ & _ & ->); try done.
      by apply first_under.
  - destruct Hi as [[Ht [Hh|[? _]]]|(_ & ? & _)]; try done.
    rewrite entries_unfold. destruct (path c) as [|a x]; [done|]. injection Hh as ->.
    destruct Hb as [Hb1 Hb2]. unfold toks. simpl. rewrite decide_False by naive_solver.
    rewrite !decide_False by done. by apply first_under.
Qed.

(** The routes below a parameter child start with the parameter. *)
Lemma entries_par c : wf_node c -> nType c = param -> first_tok (fun t => exists name, t = Par name) (entries c).
Proof.
  intros [[? ? [[]]|name Ht' Hp Hn| |] _]%wf_node_unfold Ht; try congruence.
  rewrite entries_unfold, Hp. apply first_under. eauto.
Qed.

Lemma node_tree_ind (P : node H -> Prop) : (forall n, Forall P (children n) -> P n) -> forall n, P n.
Proof.
  intros HP. fix IH 1. intros [pa ix wc nt pr cs hd fp]. apply HP. simpl.
  induction cs as [|c cs IHcs]; constructor; [apply IH|exact IHcs].
Qed.

Definition unique (l : list entry) : Prop := NoDup (map fst l).

Lemma unique_app l1 l2 : unique l1 -> unique l2 ->
  (forall e1 e2, e1 ∈ l1 -> e2 ∈ l2 -> fst e1 <> fst e2) -> unique (l1 ++ l2).
Proof.
  intros H1 H2 Hd. unfold unique. rewrite map_app. apply NoDup_app. split_and!; [done| |done].
  intros t (e1 & -> & He1)%list_elem_of_fmap (e2 & Ht & He2)%list_elem_of_fmap. by apply (Hd e1 e2).
Qed.

Lemma unique_under t l : unique l -> unique (under t l).
Proof.
  unfold unique, under. rewrite map_map. simpl. intros Hl.
  rewrite <- (map_map fst (app t)). apply NoDup_fmap_2; [|done]. intros a b Hab. by apply app_inv_head in Hab.
Qed.

Lemma first_apart P Q l1 l2 e1 e2 : first_tok P l1 -> first_tok Q l2 -> (forall t, P t -> Q t -> False) ->
  e1 ∈ l1 -> e2 ∈ l2 -> fst e1 <> fst e2.
Proof.
  intros HP HQ Hd H1 H2 He. unfold first_tok in *. rewrite Forall_forall in HP, HQ.
  destruct (HP _ H1) as (t1 & Ht1 & ?). destruct (HQ _ H2) as (t2 & Ht2 & ?).
  apply (Hd t1); [done|]. rewrite He, Ht2 in Ht1. by injection Ht1 as <-.
Qed.

Lemma unique_indexed (idx : gostr) cs : Forall2 idx_ok idx cs -> NoDup idx -> Forall wf_node cs ->
  Forall (fun c => wf_node c -> unique (entries c)) cs ->
  unique (concat (map entries cs)) /\ first_tok (fun t => exists b, b ∈ idx /\ t = Lit b) (concat (map entries cs)).
Proof.
  induction 1 as [|b c idx cs Hb HF IH]; simpl; [by split; constructor|].
  intros [Hni Hnd]%NoDup_cons [Hw Hws]%Forall_cons [Hu Hus]%Forall_cons.
  destruct (IH Hnd Hws Hus) as [Hu2 Hf2]. pose proof (entries_idx b c Hw Hb) as Hf. split.
  - apply unique_app; auto. intros e1 e2. eapply first_apart; [exact Hf|exact Hf2|].
    intros t <- (b' & Hin & [= <-]). done.
  - apply Forall_app. split; (eapply Forall_impl; [done|]); intros e (t & He & Ht); exists t; set_solver.
Qed.

Lemma unique_kids n : wf_node n -> Forall (fun c => wf_node c -> unique (entries c)) (children n) ->
  unique (kids n) /\ first_tok (fun _ => True) (kids n).
Proof.
  intros Hw Hu. unfold kids. pose proof (proj1 (wf_node_unfold n) Hw) as [Hs Hc].
  destruct Hs as [cs ws [_ _ Hcs HF Hnd Hwc _]|name _ _ _ _ [[Hcs _]|(c & Hcs & Hix & _)]|w Ht Hp|name Ht Hp Hn _ _ _ Hcs].
  - rewrite Hcs in *. apply Forall_app in Hu as [Hu1 Hu2]. apply Forall_app in Hc as [Hc1 Hc2].
    destruct (unique_indexed _ _ HF Hnd Hc1 Hu1) as [Hu Hf].
    rewrite kids_app. destruct (wildChild n); simpl in Hwc.
    + destruct Hwc as (w & -> & Hwt). rewrite Forall_singleton in Hu2, Hc2. simpl. rewrite app_nil_r.
      pose proof (entries_par w Hc2 Hwt) as Hfw. split.
      * apply unique_app; auto. intros e1 e2. eapply first_apart; [exact Hf|exact Hfw|]. naive_solver.
      * apply Forall_app. split; (eapply Forall_impl; [done|]); naive_solver.
    + subst ws. simpl. rewrite app_nil_r. split; [done|]. eapply Forall_impl; [done|]. naive_solver.
  - rewrite Hcs. simpl. by split; constructor.
  - rewrite Hcs in *. rewrite Forall_singleton in Hu, Hc. simpl. rewrite app_nil_r. split; [auto|].
    eapply Forall_impl; [by eapply entries_idx|]. naive_solver.
  - destruct (entries_wrapper n) as (w' & name & Hcs & _ & _ & _ & _ & Hh & _ & _ & He); try done.
    assert (concat (map entries (children n)) = entries n) as Hk.
    { rewrite (entries_unfold n), Hp, under_nil. unfold own. by rewrite Hh. }
    rewrite Hcs, Forall_singleton in Hu, Hc. split; [rewrite Hcs; simpl; rewrite app_nil_r; auto|].
    rewrite Hk, He. by apply first_under.
  - rewrite Hcs. simpl. by split; constructor.
Qed.

Lemma unique_entries n : wf_node n -> unique (entries n).
Proof.
  induction n as [n IH] using node_tree_ind. intros Hw. destruct (unique_kids n Hw IH) as [Hu Hf].
  rewrite entries_unfold. apply unique_under, unique_app; [|done|].
  - unfold own. destruct (handlers n); [apply NoDup_singleton|constructor].
  - unfold own. intros e1 e2 H1 H2 He. unfold first_tok in Hf. rewrite Forall_forall in Hf.
    destruct (Hf _ H2) as (t & Ht & _). rewrite <- He in Ht. destruct (handlers n); [|set_solver].
    apply list_elem_of_singleton in H1. by subst.
Qed.

Lemma unique_tree n : wf_tree n -> unique (entries n).
Proof.
  intros [(Hpa & Hix & Hwc & Ht & Hc & Hh)|(Hw & _)]; [|by apply unique_entries].
  rewrite entries_unfold. unfold own, kids. rewrite Hc, Hh. constructor.
Qed.

(** [addRoute] terminates: the rounds of its loops are bounded by the height of the tree and the
    length of the path, and it returns the new tree or panics with one of its messages. *)
Lemma addRoute_returns p h n : wf_tree n -> head p = Some slash -> returns (addRoute p h n).
Proof.
  intros Hn Hp. unfold addRoute. simpl path. simpl children.
  destruct Hn as [(Hpa & _ & _ & _ & Hc & _)|(Hw & Ht & Hsl)].
  - rewrite bool_decide_eq_true_2 by done.
    pose proof (insertChild_returns (S (length p)) (prio_inc n) p p h ltac:(lia)) as Hr. unfold returns in *.
    destruct (insertChild _ _ _ _ _); simpl; [done|]. intros [= ->]. by apply Hr.
  - rewrite bool_decide_eq_false_2.
    + apply addWalk_returns; [lia|by apply wf_prio|]. unfold enters. simpl. by rewrite Ht, Hsl.
    + intros [Hpa Hc]. apply wf_node_unfold in Hw as [[cs ws []| | |] _]; try congruence.
      destruct (sa_empty0 Hpa) as (_ & _ & _ & w & Hw & _). congruence.
Qed.

(** Registering a route that starts with a slash in a tree that satisfies the invariant
    keeps the invariant and adds exactly this route, with its handler and its path, whatever
    edges are split and children moved; the route was not in the tree before, so that no
    handler is ever replaced. *)
Theorem addRoute_registers p h n n' : wf_tree n -> head p = Some slash -> addRoute p h n = Ok n' ->
  wf_tree n' /\ entries n' ≡ₚ (toks p, (h, p)) :: entries n /\ toks p ∉ map fst (entries n).
Proof.
  intros Hn Hp Hr. destruct (addRoute_grows p h n n' Hn Hp Hr) as [Hw He]. split_and!; [done|done|].
  pose proof (unique_tree n' Hw) as Hu. unfold unique in Hu. rewrite He in Hu. by apply NoDup_cons in Hu as [? _].
Qed.

(** Registering routes one after the other. *)
Fixpoint addRoutes (rs : list (gostr * H)) n : outcome (node H) :=
  match rs with
  | [] => Ok n
  | (p, h) :: rs => (n <~ addRoute p h n ;; addRoutes rs n)%go
  end.

Lemma wf_zero : wf_tree zero_node.
Proof. by left. Qed.

(** The tree of a list of routes, registered in any order that is accepted, holds these
    routes and no others. *)
Theorem routes_of_tree rs n : Forall (fun r => head (fst r) = Some slash) rs -> addRoutes rs zero_node = Ok n ->
  wf_tree n /\ unique (entries n) /\ entries n ≡ₚ map (fun r => (toks (fst r), (snd r, fst r))) rs.
Proof.
  intros Hrs.
  assert (Hg : forall m, wf_tree m -> addRoutes rs m = Ok n ->
    wf_tree n /\ entries n ≡ₚ map (fun r => (toks (fst r), (snd r, fst r))) rs ++ entries m).
  { induction Hrs as [|[p h] rs Hp _ IH]; intros m Hm; simpl; [intros [= <-]; done|].
    destruct (addRoute p h m) as [m'|] eqn:Hr; [|done]. simpl. intros Hn.
    destruct (addRoute_grows p h m m' Hm Hp Hr) as [Hm' He]. destruct (IH m' Hm' Hn) as [? Hx].
    split; [done|]. rewrite Hx, He. by rewrite Permutation_middle. }
  intros Hn. destruct (Hg _ wf_zero Hn) as [Hw He]. split_and!; [done|by apply unique_tree|].
  rewrite He. simpl. by rewrite app_nil_r.
Qed.

End routes.

(** A tree with split edges, parameters and a catch-all. *)
Definition sample_routes : list (gostr * nat) :=
  [(lit "/users/:id", 1); (lit "/users/me", 2); (lit "/user", 3); (lit "/users/:id/posts", 4);
   (lit "/static/*file", 5)].
Definition sample_tree : node nat :=
  match addRoutes sample_routes zero_node with Ok n => n | Panic _ => zero_node end.

Lemma addRoute_registers_witness : exists n',
  addRoute (lit "/users/:id") 1 zero_node = Ok n' /\ wf_tree n' /\
  entries n' ≡ₚ [(toks (lit "/users/:id"), (1, lit "/users/:id"))].
Proof.
  destruct (addRoute (lit "/users/:id") 1 zero_node) as [n'|] eqn:Hr; [|by vm_compute in Hr].
  exists n'. destruct (addRoute_registers (lit "/users/:id") 1 zero_node n') as (Hw & He & _);
    [by left|done|done|]. split_and!; [done|done|exact He].
Defined.

Lemma routes_of_tree_witness :
  Forall (fun r => head (fst r) = Some slash) sample_routes /\
  entries sample_tree ≡ₚ map (fun r => (toks (fst r), (snd r, fst r))) sample_routes.
Proof.
  assert (Hs : Forall (fun r => head (fst r) = Some slash) sample_routes) by (repeat constructor).
  split; [exact Hs|]. apply routes_of_tree; [exact Hs|]. vm_compute. reflexivity.
Defined.

(** Registering a route twice panics. *)
Example duplicate_route : addRoute (lit "/user") 9 sample_tree = Panic "handler are already registered for path '/user'".
Proof. vm_compute. reflexivity. Qed.
