(* ===== verification/HttpLookup.v ===== *)
(** * [rest/router/internal/httprouter/tree.go]: looking a path up

    [getValue] is a loop over its local variables; [walk] holds them and
    [getValue_step] is one round, which goes on with new values or returns.  The skipped nodes
    are a stack (its top first) in a slice of a fixed capacity: a push beyond the capacity
    panics, as the slice expression of the code does, and so does a nil slice pointer.  The
    parameters are a slice with its capacity.  [paramsCount] and [globalParamsCount] are 16-bit
    in the code and [nat] here: a path would need 32768 wildcards to reach their bound.
    [findCaseInsensitivePath] is not called by the router and is not modelled.

    The fuel of the loop is [rounds]: the nodes below the one the walk is at and those below the
    wildcard children of the skipped nodes.  [mt] says when the tokens of a route match a path.
    [getValue_found]: a handler that is returned belongs to a route that matches;
    [getValue_returns]: nothing panics when the slice has room for the nodes that may be
    skipped, which [need] counts; [getValue_finds]: a route that matches is found when it has no
    parameters or the tree has no node with both indexed children and a parameter child. *)

From S2P Require Import Prelude HttpTree.
From Stdlib Require Import Ascii.

Definition is_slash (s : gostr) : bool := bool_decide (s = [slash]).

Record Param := mkParam { Key : gostr; Value : gostr }.
#[export] Instance Param_eq_dec : EqDecision Param.
Proof. solve_decision. Defined.

(** [Params.Get], [Params.ByName] *)
Fixpoint Get (ps : list Param) (name : gostr) : option gostr :=
  match ps with
  | [] => None
  | e :: ps => if decide (Key e = name) then Some (Value e) else Get ps name
  end.
Definition ByName (ps : list Param) (name : gostr) : gostr := default [] (Get ps name).

(** [url.QueryUnescape] *)
Definition hexDigit (c : ascii) : option N :=
  let n := N_of_ascii c in
  if ((48 <=? n) && (n <=? 57))%N then Some (n - 48)%N
  else if ((97 <=? n) && (n <=? 102))%N then Some (n - 87)%N
  else if ((65 <=? n) && (n <=? 70))%N then Some (n - 55)%N
  else None.
Fixpoint QueryUnescape (s : gostr) : option gostr :=
  match s with
  | [] => Some []
  | "%"%char :: a :: b :: s =>
    match hexDigit a, hexDigit b with
    | Some x, Some y => cons (ascii_of_N (16 * x + y)) <$> QueryUnescape s
    | _, _ => None
    end
  | "%"%char :: _ => None
  | "+"%char :: s => cons " "%char <$> QueryUnescape s
  | c :: s => cons c <$> QueryUnescape s
  end.
Definition unescaped (unescape : bool) (v : gostr) : gostr :=
  if unescape then default v (QueryUnescape v) else v.

(** [strings.HasSuffix] *)
Definition HasSuffix (s suffix : gostr) : bool :=
  (length suffix <=? length s) && bool_decide (drop (length s - length suffix) s = suffix).

Section lookup.
Context {H : Type}.
Implicit Types (n : node H).

Record skippedNode := mkSkipped { sk_path : gostr; sk_node : node H; sk_paramsCount : nat }.

Record nodeValue := mkValue {
  v_handler : option H; v_params : option (list Param); v_tsr : bool; v_fullPath : gostr
}.

(** The local variables of [getValue]; [w_set] says that [value.params] is not nil. *)
Record walk := mkWalk {
  w_node : node H;
  w_path : gostr;
  w_count : nat;
  w_params : option (nat * list Param);
  w_set : bool;
  w_skipped : list skippedNode
}.

Section getValue.
Context (cap : option nat) (unescape : bool).

Definition result : Type := nodeValue * list skippedNode.
Definition ret (w : walk) (h : option H) (tsr : bool) (fp : gostr) : result :=
  (mkValue h (if w_set w then snd <$> w_params w else None) tsr fp, w_skipped w).

Definition pushSkipped (s : skippedNode) (sk : list skippedNode) : outcome (list skippedNode) :=
  match cap with
  | None => Panic "nil pointer dereference"
  | Some k => if length sk <? k then Ok (s :: sk) else Panic "slice bounds out of range"
  end.

Fixpoint lastValid (p : gostr) (sk : list skippedNode) : option (skippedNode * list skippedNode) :=
  match sk with
  | [] => None
  | s :: sk => if HasSuffix (sk_path s) p then Some (s, sk) else lastValid p sk
  end.

(** [*value.params = ( *value.params)[:k]] *)
Definition truncate (k : nat) (w : walk) : outcome (option (nat * list Param)) :=
  if w_set w then
    match w_params w with
    | Some (c, l) => if k <=? length l then Ok (Some (c, take k l)) else Panic "slice bounds out of range"
    | None => Panic "nil pointer dereference"
    end
  else Ok (w_params w).

(** Rolling back to the last valid skipped node; [stop] is what follows when there is none. *)
Definition rollBack (p : gostr) (w : walk) (stop : walk -> outcome (walk + result)) : outcome (walk + result) :=
  match cap with
  | None => Panic "nil pointer dereference"
  | Some _ =>
    match lastValid p (w_skipped w) with
    | Some (s, sk) =>
      (ps <~ truncate (sk_paramsCount s) w ;;
       Ok (inl (mkWalk (sk_node s) (sk_path s) (sk_paramsCount s) ps (w_set w) sk)))%go
    | None => stop (mkWalk (w_node w) (w_path w) (w_count w) (w_params w) (w_set w) [])
    end
  end.

(** Saving a parameter when [globalParamsCount] is [count]. *)
Definition saveParam (count : nat) (key value : gostr) (w : walk) : outcome (option (nat * list Param) * bool) :=
  match w_params w with
  | None => Ok (None, w_set w)
  | Some (c, l) =>
    let c := if c <? count then count else c in
    if length l <? c then Ok (Some (c, l ++ [mkParam key (unescaped unescape value)]), true)
    else Panic "slice bounds out of range"
  end.

Definition is_Some_b {A} (o : option A) : bool := match o with Some _ => true | None => false end.

(** The wildcard child [c] of the node, with the path [p] that is left. *)
Definition wildcardStep (w : walk) (p : gostr) (c : node H) : outcome (walk + result) :=
  let count := S (w_count w) in
  match nType c with
  | param =>
    let val := firstSegment p in
    (x <~ saveParam count (drop 1 (path c)) val w ;;
     let w := mkWalk c p count (fst x) (snd x) (w_skipped w) in
     match drop (length val) p with
     | [] =>
       match handlers c with
       | Some h => Ok (inr (ret w (Some h) false (fullPath c)))
       | None =>
         let tsr := match children c with
                    | [c0] => (is_slash (path c0) && is_Some_b (handlers c0)) ||
                              (bool_decide (path c0 = []) && is_slash (indices c0))
                    | _ => false
                    end in
         Ok (inr (ret w None tsr []))
       end
     | rest =>
       match children c with
       | c0 :: _ => Ok (inl (mkWalk c0 rest count (fst x) (snd x) (w_skipped w)))
       | [] => Ok (inr (ret w None (length p =? length val + 1) []))
       end
     end)%go
  | catchAll =>
    (x <~ saveParam count (drop 2 (path c)) p w ;;
     Ok (inr (ret (mkWalk c p count (fst x) (snd x) (w_skipped w)) (handlers c) false (fullPath c))))%go
  | _ => Panic "invalid node type"
  end.

(** The path is the node's path. *)
Definition endStep (w : walk) : outcome (walk + result) :=
  let n := w_node w in
  match handlers n with
  | Some h => Ok (inr (ret w (Some h) false (fullPath n)))
  | None =>
    if is_slash (w_path w) && wildChild n && negb (bool_decide (nType n = root)) then Ok (inr (ret w None true []))
    else if is_slash (w_path w) && bool_decide (nType n = static) then Ok (inr (ret w None true []))
    else match indexByte slash (indices n) with
    | None => Ok (inr (ret w None false []))
    | Some i =>
      match children n !! i with
      | None => Panic "index out of range"
      | Some c =>
        if (length (path c) =? 1) && is_Some_b (handlers c) then Ok (inr (ret w None true []))
        else if bool_decide (nType c = catchAll) then
          match children c with
          | [] => Panic "index out of range"
          | c0 :: _ => Ok (inr (ret w None (is_Some_b (handlers c0)) []))
          end
        else Ok (inr (ret w None false []))
      end
    end
  end.

Definition getValue_step (w : walk) : outcome (walk + result) :=
  let n := w_node w in
  let prefix := path n in
  if (length prefix <? length (w_path w)) && bool_decide (take (length prefix) (w_path w) = prefix) then
    match drop (length prefix) (w_path w) with
    | [] => Panic "index out of range"
    | (idxc :: _) as p =>
      match indexByte idxc (indices n) with
      | Some i =>
        (sk <~ (if wildChild n then pushSkipped (mkSkipped (prefix ++ p) (set_indices [] n) (w_count w)) (w_skipped w)
                else Ok (w_skipped w)) ;;
         match children n !! i with
         | None => Panic "index out of range"
         | Some c => Ok (inl (mkWalk c p (w_count w) (w_params w) (w_set w) sk))
         end)%go
      | None =>
        if negb (wildChild n) then
          let stop w := Ok (inr (ret w None (is_slash p && is_Some_b (handlers n)) [])) in
          if is_slash p then stop w else rollBack p w stop
        else match last (children n) with
        | None => Panic "index out of range [-1]"
        | Some c => wildcardStep w p c
        end
      end
    end
  else if bool_decide (w_path w = prefix) then
    if negb (is_Some_b (handlers n)) && negb (is_slash (w_path w)) then rollBack (w_path w) w endStep
    else endStep w
  else
    let tsr := is_slash (w_path w) ||
      ((length prefix =? length (w_path w) + 1) && bool_decide (prefix = w_path w ++ [slash]) &&
       is_Some_b (handlers n)) in
    let stop w := Ok (inr (ret w None tsr [])) in
    if tsr then stop w else rollBack (w_path w) w stop.

Fixpoint getValue_loop (fuel : nat) (w : walk) : outcome result :=
  match fuel with
  | 0 => Panic "out of fuel"
  | S fuel =>
    (x <~ getValue_step w ;;
     match x with inl w => getValue_loop fuel w | inr r => Ok r end)%go
  end.

End getValue.

(** A bound on the rounds: the nodes below the one the walk is at and below the wildcard
    children of the skipped nodes. *)
Fixpoint size n : nat := 2 + foldr (fun c m => size c + m) 0 (children n).
Definition wsize n : nat :=
  match indices n with
  | [] => S (match last (children n) with Some c => size c | None => 0 end)
  | _ => size n
  end.
Definition rounds n (sk : list skippedNode) : nat :=
  wsize n + foldr (fun s m => wsize (sk_node s) + m) 0 sk.

(** [getValue]; [params] is nil or a slice with its capacity. *)
Definition getValue (cap : option nat) (unescape : bool) (p : gostr) (params : option (nat * list Param))
    (sk : list skippedNode) n : outcome result :=
  getValue_loop cap unescape (S (rounds n sk)) (mkWalk n p 0 params false sk).

End lookup.
Arguments skippedNode : clear implicits.
Arguments nodeValue : clear implicits.
Arguments walk : clear implicits.
Arguments result : clear implicits.

(** ** What a lookup means *)

(** [mt t s r ps]: the tokens [t] match the path [s] and leave [r] of it; the wildcards take the
    values [ps].  A parameter takes the bytes up to the next slash or the end, a catch-all takes
    the rest of the path, and its value includes the slash before it. *)
Inductive mt : list tok -> gostr -> gostr -> list Param -> Prop :=
| mt_nil s : mt [] s s []
| mt_lit b t s r ps : mt t s r ps -> mt (Lit b :: t) (b :: s) r ps
| mt_par name v t s r ps :
    Forall (fun b => b <> slash) v -> seg_end s -> mt t s r ps ->
    mt (Par name :: t) (v ++ s) r (mkParam name v :: ps)
| mt_all name t s r ps : mt t [] r ps -> mt (All name :: t) s r (mkParam name (slash :: s) :: ps).

Lemma mt_app t1 s m ps1 t2 r ps2 : mt t1 s m ps1 -> mt t2 m r ps2 -> mt (t1 ++ t2) s r (ps1 ++ ps2).
Proof. induction 1; simpl; intros H2; [done|by constructor; auto..]. Qed.

Lemma mt_lits l s : mt (map Lit l) (l ++ s) s [].
Proof. induction l; simpl; by constructor. Qed.

Lemma mt_firstSegment name p : mt [Par name] p (drop (length (firstSegment p)) p) [mkParam name (firstSegment p)].
Proof.
  assert (Hp : Forall (fun b => b <> slash) (firstSegment p) /\ p = firstSegment p ++ drop (length (firstSegment p)) p /\
    seg_end (drop (length (firstSegment p)) p)).
  { induction p as [|b p (H1 & H2 & H3)]; simpl; [by split_and!; [| |left]|]. case_decide as Hb; simpl.
    - subst. split_and!; [done|done|by right].
    - split_and!; [by constructor|by f_equal|done]. }
  destruct Hp as (H1 & H2 & H3). rewrite H2 at 1. constructor; [done|done|constructor].
Qed.

Section meaning.
Context {H : Type}.
Implicit Types (n c w : node H).

Lemma size_unfold n : size n = 2 + foldr (fun c m => size c + m) 0 (children n).
Proof. by destruct n. Qed.
Lemma sizes_app (cs ws : list (node H)) : foldr (fun c m => size c + m) 0 (cs ++ ws) =
  foldr (fun c m => size c + m) 0 cs + foldr (fun c m => size c + m) 0 ws.
Proof. induction cs; simpl; lia. Qed.
Lemma size_in c (cs : list (node H)) : c ∈ cs -> size c <= foldr (fun c m => size c + m) 0 cs.
Proof. induction 1; simpl; lia. Qed.
Lemma wsize_le n : wsize n <= size n.
Proof.
  unfold wsize. destruct (indices n); [|done]. rewrite size_unfold.
  destruct (last (children n)) as [c|] eqn:Hc; [|lia].
  apply last_Some_elem_of, size_in in Hc. lia.
Qed.

Lemma wsize_skip n :
  wsize (set_indices [] n) = S (match last (children n) with Some c => size c | None => 0 end).
Proof. done. Qed.

(** The nodes with both indexed children and a parameter child on a way down from [n]: the
    skipped nodes a lookup may have to keep. *)
Fixpoint need n : nat :=
  (if wildChild n && negb (bool_decide (indices n = [])) then 1 else 0) +
  foldr (fun c m => Nat.max (need c) m) 0 (children n).
Definition kids_need n : nat := foldr (fun c m => Nat.max (need c) m) 0 (children n).
Lemma need_unfold n :
  need n = (if wildChild n && negb (bool_decide (indices n = [])) then 1 else 0) + kids_need n.
Proof. by destruct n. Qed.
Lemma need_skip n : need (set_indices [] n) = kids_need n.
Proof. rewrite need_unfold. simpl. by rewrite andb_false_r. Qed.
Lemma need_child n c : c ∈ children n -> need c <= kids_need n.
Proof. unfold kids_need. induction 1; simpl; lia. Qed.

End meaning.

(** ** The invariant of the loop *)

Section invariant.
Context {H : Type} (top : node H) (orig : gostr) (cap : option nat) (bound : nat) (unescape : bool) (given : bool).
Implicit Types (n c : node H) (w : walk H) (sk : list (skippedNode H)) (ps : list Param).

(** The parameters as the code saves them. *)
Definition saved ps : list Param := map (fun p => mkParam (Key p) (unescaped unescape (Value p))) ps.

(** The walk reached the node [n] with the path [p] left: the routes below [n] continue a match
    of the path that was looked up. *)
Definition reached n (p : gostr) ps : Prop :=
  exists t, mt t orig p ps /\ forall u v, (u, v) ∈ entries n -> (t ++ u, v) ∈ entries top.

(** A node the walk stops at: not a parameter, not the end of a catch-all; or a copy of one
    that was skipped. *)
Definition seen n : Prop := exists n0, wf_node n0 /\ nType n0 <> param /\ (nType n0 = catchAll -> path n0 = []) /\
  (n = n0 \/ (n = set_indices [] n0 /\ wildChild n0 = true)).

Definition visit n (p : gostr) ps : Prop :=
  seen n /\ reached n p ps /\ (nType n = catchAll -> head p = Some slash).

Fixpoint stack_ok sk ps : Prop :=
  match sk with
  | [] => True
  | s :: sk => sk_paramsCount s <= length ps /\ visit (sk_node s) (sk_path s) (take (sk_paramsCount s) ps) /\
               stack_ok sk (take (sk_paramsCount s) ps)
  end.

Definition params_ok w ps : Prop :=
  is_Some_b (w_params w) = given /\
  match w_params w with
  | None => w_set w = false
  | Some (_, l) => l = saved ps /\ (w_set w = false -> ps = [])
  end.

Definition inv w : Prop := exists ps, visit (w_node w) (w_path w) ps /\ length ps = w_count w /\
  params_ok w ps /\ stack_ok (w_skipped w) ps.

(** No more than [bound] nodes are ever skipped, and the slice has room for them. *)
Fixpoint stack_room sk : Prop :=
  match sk with
  | [] => True
  | s :: sk => length sk + need (sk_node s) <= bound /\ stack_room sk
  end.
Definition enough : Prop := match cap with None => False | Some k => bound <= k end.
Definition room w : Prop :=
  enough /\ length (w_skipped w) + need (w_node w) <= bound /\ stack_room (w_skipped w).

(** The parameters of a result: those that were saved, or nil when no slice was given. *)
Definition params_got (v : nodeValue H) ps : Prop :=
  if given then default [] (v_params v) = saved ps else v_params v = None.

(** A result with a handler is a route that matches the path. *)
Definition found (v : nodeValue H) : Prop :=
  forall h, v_handler v = Some h -> exists t ps, (t, (h, v_fullPath v)) ∈ entries top /\ mt t orig [] ps /\
    params_got v ps.

Definition post w (o : outcome (walk H + result H)) : Prop :=
  match o with
  | Ok (inl w') => inv w' /\ (room w -> room w') /\
      rounds (w_node w') (w_skipped w') < rounds (w_node w) (w_skipped w)
  | Ok (inr r) => found (fst r) /\ (room w -> length (snd r) <= bound)
  | Panic _ => ~ room w
  end.

Lemma stack_ok_app sk ps qs : stack_ok sk ps -> stack_ok sk (ps ++ qs).
Proof.
  destruct sk as [|s sk]; [done|]. intros (Hl & Hv). simpl. rewrite take_app_le by done.
  rewrite length_app. split; [lia|done].
Qed.

Lemma lastValid_ok p sk : forall ps s sk', stack_ok sk ps -> lastValid p sk = Some (s, sk') ->
  sk_paramsCount s <= length ps /\ visit (sk_node s) (sk_path s) (take (sk_paramsCount s) ps) /\
  stack_ok sk' (take (sk_paramsCount s) ps).
Proof.
  induction sk as [|s0 sk IH]; intros ps s sk'; simpl; [done|]. intros (Hl & Hv & Hs).
  destruct (HasSuffix (sk_path s0) p); [intros [= <- <-]; done|]. intros Hlv.
  destruct (IH _ _ _ Hs Hlv) as (Hl' & Hv' & Hs'). rewrite length_take in Hl'.
  rewrite take_take, Nat.min_l in Hv', Hs' by lia. split_and!; [lia|done|done].
Qed.

Lemma lastValid_room p sk s sk' : stack_room sk -> lastValid p sk = Some (s, sk') ->
  length sk' + need (sk_node s) <= bound /\ stack_room sk'.
Proof.
  induction sk as [|s0 sk IH]; simpl; [done|]. intros [Hn Hr].
  destruct (HasSuffix (sk_path s0) p); [by intros [= <- <-]|auto].
Qed.

Lemma lastValid_rounds p sk s sk' : lastValid p sk = Some (s, sk') ->
  wsize (sk_node s) + foldr (fun s m => wsize (sk_node s) + m) 0 sk' <= foldr (fun s m => wsize (sk_node s) + m) 0 sk.
Proof.
  induction sk as [|s0 sk IH]; simpl; [done|].
  destruct (HasSuffix (sk_path s0) p); [intros [= <- <-]; done|]. intros Hs%IH. lia.
Qed.

Lemma wsize_pos n : 0 < wsize n.
Proof. unfold wsize. destruct (indices n); [lia|]. rewrite size_unfold. lia. Qed.

Lemma saved_take k ps : take k (saved ps) = saved (take k ps).
Proof. unfold saved. by rewrite firstn_map. Qed.

Lemma truncate_ok k w ps : params_ok w ps -> k <= length ps -> exists q,
  truncate k w = Ok q /\ params_ok (mkWalk (w_node w) (w_path w) k q (w_set w) (w_skipped w)) (take k ps).
Proof.
  intros [Hg Hp] Hk. unfold truncate, params_ok. destruct (w_params w) as [[c l]|] eqn:Hw.
  - destruct Hp as [-> Hs]. destruct (w_set w) eqn:Hset.
    + rewrite (proj2 (Nat.leb_le _ _)) by (unfold saved; by rewrite length_map).
      exists (Some (c, take k (saved ps))). split; [done|]. simpl. split; [done|]. by rewrite saved_take.
    + exists (Some (c, saved ps)). rewrite Hs by done. simpl. rewrite take_nil. done.
  - rewrite Hp. exists None. done.
Qed.

Lemma rollBack_post p w stop : inv w ->
  (forall w', w_node w' = w_node w -> w_path w' = w_path w -> w_skipped w' = [] -> inv w' -> post w (stop w')) ->
  post w (rollBack cap p w stop).
Proof.
  intros (ps & Hv & Hl & Hp & Hs) Hstop. unfold rollBack. destruct cap as [k|] eqn:Hcap.
  - destruct (lastValid p (w_skipped w)) as [[s sk]|] eqn:Hlv.
    + destruct (lastValid_ok _ _ _ _ _ Hs Hlv) as (Hc & Hv' & Hs').
      destruct (truncate_ok (sk_paramsCount s) w ps Hp Hc) as (q & -> & Hq). simpl. split_and!.
      * exists (take (sk_paramsCount s) ps). split_and!; try done. simpl. rewrite length_take. lia.
      * intros (? & _ & Hr). split; [done|]. simpl. by eapply lastValid_room.
      * apply lastValid_rounds in Hlv. pose proof (wsize_pos (w_node w)). unfold rounds. simpl. lia.
    + apply Hstop; try done. exists ps. by split_and!.
  - simpl. unfold room, enough. rewrite Hcap. tauto.
Qed.

(** *** The nodes of a walk *)

Lemma entries_child n c u v : c ∈ children n -> (u, v) ∈ entries c -> (toks (path n) ++ u, v) ∈ entries n.
Proof.
  intros Hc He. rewrite (entries_unfold n). unfold under. apply list_elem_of_fmap. exists (u, v). split; [done|].
  apply elem_of_app. right. unfold kids. apply list_elem_of_In, in_concat. exists (entries c).
  split; [|by apply list_elem_of_In]. by apply in_map, list_elem_of_In.
Qed.

Lemma entries_own n h : handlers n = Some h -> (toks (path n), (h, fullPath n)) ∈ entries n.
Proof.
  intros Hh. rewrite (entries_unfold n). unfold under, own. rewrite Hh. simpl. rewrite app_nil_r. apply elem_of_cons. by left.
Qed.

Lemma reached_child n c p ps : Forall litb (path n) -> c ∈ children n -> reached n (path n ++ p) ps -> reached c p ps.
Proof.
  intros Hl Hc (t & Ht & He). exists (t ++ toks (path n)). split.
  - rewrite <- (app_nil_r ps). eapply mt_app; [exact Ht|]. rewrite toks_litl by done. apply mt_lits.
  - intros u v Hu. rewrite <- app_assoc. apply He. by eapply entries_child.
Qed.

Lemma reached_skip n p ps : reached n p ps -> reached (set_indices [] n) p ps.
Proof. by destruct n. Qed.

Lemma seen_idx b c : wf_node c -> idx_ok b c -> seen c.
Proof.
  intros Hw [_ Hi]. exists c. split_and!; [done| | |by left]; destruct Hi as [[-> _]|(-> & Hp & _)]; done.
Qed.

Lemma visit_idx b c p ps : wf_node c -> idx_ok b c -> head p = Some b -> reached c p ps -> visit c p ps.
Proof.
  intros Hw Hi Hp Hr. split_and!; [by eapply seen_idx|done|]. intros Ht.
  destruct Hi as [_ [[Ht' _]|(_ & _ & ->)]]; [congruence|done].
Qed.

Lemma seen_index n b i : seen n -> indexByte b (indices n) = Some i ->
  exists cs ws c, static_at n cs ws /\ cs !! i = Some c /\ idx_ok b c /\ wf_node c /\ children n !! i = Some c.
Proof.
  intros (n0 & Hw & Hnp & _ & [->|[-> _]]) Hi; [|done]. apply indexByte_Some in Hi.
  apply wf_node_unfold in Hw as [[cs ws Hsa| |w _ _ Hn|? _ _ _ Hn] Hc]; [|done|by rewrite Hn in Hi..].
  destruct (Forall2_lookup_l _ _ _ _ _ (sa_indices _ _ _ Hsa) Hi) as (c & Hci & Hix).
  assert (Hc0 : children n0 !! i = Some c) by (rewrite (sa_children _ _ _ Hsa); by apply lookup_app_l_Some).
  exists cs, ws, c. split_and!; try done. rewrite Forall_forall in Hc. apply Hc. by eapply list_elem_of_lookup_2.
Qed.

Lemma seen_lits n : seen n -> Forall litb (path n).
Proof.
  intros (n0 & Hw & Hnp & Hcat & Hn). assert (path n = path n0) as -> by (destruct Hn as [->|[-> _]]; done).
  apply wf_node_unfold in Hw as [[cs ws []| |w ? Hp|? Ht Hp] _]; [done|done|by rewrite Hp|].
  by rewrite Hcat in Hp.
Qed.

(** The wildcard child of a node: a parameter, or the end of a catch-all. *)
Lemma seen_wild n : seen n -> wildChild n = true -> exists c, last (children n) = Some c /\ wf_node c /\
  (nType c = param /\ nType n <> catchAll \/
   exists name, nType n = catchAll /\ nType c = catchAll /\ path c = slash :: star :: name).
Proof.
  intros (n0 & Hw & Hnp & Hcat & Hn) Hwc.
  assert (Hn0 : children n = children n0 /\ nType n = nType n0 /\ wildChild n0 = true).
  { destruct Hn as [->|[-> ?]]; done. }
  destruct Hn0 as (-> & -> & Hwc0). clear n Hn Hwc. pose proof (proj1 (wf_node_unfold n0) Hw) as [Hs Hc].
  rewrite Forall_forall in Hc.
  destruct Hs as [cs ws Hsa| |w Ht Hp Hi _ Hh Hcs Hwt Hwp|]; [|congruence| |congruence].
  - pose proof (sa_wild _ _ _ Hsa) as Hww. rewrite Hwc0 in Hww. destruct Hww as (w & -> & Hwt).
    pose proof (sa_children _ _ _ Hsa) as Hcs. exists w. rewrite Hcs, last_snoc. split_and!; [done| |].
    + apply Hc. rewrite Hcs. set_solver.
    + left. split; [done|]. destruct (sa_type _ _ _ Hsa); congruence.
  - exists w. rewrite Hcs in *. split_and!; [done|apply Hc; set_solver|]. right.
    destruct (entries_wrapper n0) as (w' & name & Hcs' & _ & Hpw & _); try done.
    exists name. split_and!; try done. rewrite Hcs in Hcs'. by injection Hcs' as ->.
Qed.

(** *** One round *)

Lemma index_post w p b i : inv w -> w_path w = path (w_node w) ++ p -> head p = Some b ->
  indexByte b (indices (w_node w)) = Some i ->
  post w (sk <~ (if wildChild (w_node w)
                 then pushSkipped cap (mkSkipped (path (w_node w) ++ p) (set_indices [] (w_node w)) (w_count w)) (w_skipped w)
                 else Ok (w_skipped w)) ;;
          match children (w_node w) !! i with
          | None => Panic "index out of range"
          | Some c => Ok (inl (mkWalk c p (w_count w) (w_params w) (w_set w) sk))
          end)%go.
Proof.
  intros (ps & (Hseen & Hr & Hcat) & Hl & Hp & Hs) Hpath Hb Hi. destruct w as [n q cnt pr st sk]; simpl in *.
  pose proof (seen_lits n Hseen) as Hlit. destruct (seen_index n b i Hseen Hi) as (cs & ws & c & Hsa & Hci & Hix & Hwc & Hch).
  pose proof (sa_children _ _ _ Hsa) as Hcs. rewrite Hch.
  assert (Hin : c ∈ children n) by (by eapply list_elem_of_lookup_2).
  assert (Hne : indices n <> []) by (by destruct (indices n)).
  assert (Hvc : visit c p ps).
  { eapply visit_idx; try done. apply (reached_child n); try done. by rewrite <- Hpath. }
  assert (Hsz : wsize n = size n) by (unfold wsize; by destruct (indices n)).
  pose proof (wsize_le c) as Hwle. pose proof (need_child n c Hin) as Hnd.
  destruct (wildChild n) eqn:Hwd.
  - pose proof (sa_wild _ _ _ Hsa) as Hww. rewrite Hwd in Hww. destruct Hww as (x & -> & _).
    unfold pushSkipped. destruct cap as [k|] eqn:Hcap; [|simpl; unfold room, enough; rewrite Hcap; tauto].
    destruct (Nat.ltb_spec (length sk) k) as [Hlt|Hge]; simpl.
    + split_and!.
      * exists ps. split_and!; try done. simpl. rewrite <- Hl, firstn_all. split_and!; [done| |done].
        split_and!; [|apply reached_skip; by rewrite <- Hpath|by rewrite <- Hpath].
        destruct Hseen as (n0 & ? & ? & ? & [->|[-> ?]]); [|done]. exists n0. split_and!; try done. by right.
      * unfold room. cbn [w_node w_skipped stack_room sk_node length].
        rewrite need_skip, (need_unfold n), Hwd, bool_decide_eq_false_2 by done. cbn [negb andb].
        intros (? & ? & ?). split_and!; [done|lia|lia|done].
      * unfold rounds. cbn [w_node w_skipped foldr sk_node].
        rewrite wsize_skip, Hsz, (size_unfold n), Hcs, sizes_app, last_snoc.
        pose proof (size_in c cs ltac:(by eapply list_elem_of_lookup_2)). simpl. lia.
    + unfold room, enough. rewrite Hcap. cbn [w_node w_skipped].
      rewrite (need_unfold n), Hwd, bool_decide_eq_false_2 by done. cbn [negb andb]. lia.
  - simpl. split_and!.
    + exists ps. by split_and!.
    + unfold room. simpl. rewrite (need_unfold n). intros (? & ? & ?). split_and!; [done|lia|done].
    + unfold rounds. simpl. rewrite Hsz, (size_unfold n). pose proof (size_in c _ Hin). lia.
Qed.

Lemma saveParam_ok w ps key v n p sk : params_ok w ps -> length ps = w_count w -> exists x,
  saveParam unescape (S (w_count w)) key v w = Ok x /\
  params_ok (mkWalk n p (S (w_count w)) (fst x) (snd x) sk) (ps ++ [mkParam key v]).
Proof.
  intros [Hg Hp] Hl. unfold saveParam, params_ok. destruct (w_params w) as [[c l]|].
  - destruct Hp as [-> _]. destruct (Nat.ltb_spec (length (saved ps)) (if c <? S (w_count w) then S (w_count w) else c)) as [|Hge].
    + eexists. split; [done|]. simpl. split_and!; [done| |done]. unfold saved. by rewrite map_app.
    + exfalso. unfold saved in Hge. rewrite length_map in Hge. destruct (Nat.ltb_spec c (S (w_count w))); lia.
  - exists (None, w_set w). done.
Qed.

Lemma params_ret w ps h tsr fp : params_ok w ps -> params_got (fst (ret w h tsr fp)) ps.
Proof.
  intros [Hg Hp]. unfold params_got. simpl. destruct (w_params w) as [[c l]|]; rewrite <- Hg; simpl.
  - destruct Hp as [-> Hs]. destruct (w_set w); [done|]. by rewrite Hs.
  - by rewrite Hp.
Qed.

Lemma found_ret w ps h tsr t fp : params_ok w ps -> mt t orig [] ps -> (t, (h, fp)) ∈ entries top ->
  found (fst (ret w (Some h) tsr fp)).
Proof.
  intros Hp Ht He h' [= <-]. exists t, ps. split_and!; [done|done|]. by apply params_ret.
Qed.

Lemma post_ret w0 w h tsr fp : w_skipped w = [] \/ w_skipped w = w_skipped w0 ->
  found (fst (ret w h tsr fp)) -> post w0 (Ok (inr (ret w h tsr fp))).
Proof.
  intros Hs Hf. split; [done|]. intros (_ & Hl & _). simpl. destruct Hs as [->| ->]; simpl; lia.
Qed.

Lemma post_none w0 w tsr fp : w_skipped w = [] \/ w_skipped w = w_skipped w0 ->
  post w0 (Ok (inr (ret w None tsr fp))).
Proof. intros Hs. apply post_ret; [done|]. by intros h. Qed.

(** The rounds left at a node with a wildcard child. *)
Lemma wsize_wild n c : last (children n) = Some c -> size c < wsize n.
Proof.
  intros Hc. unfold wsize. rewrite Hc. destruct (indices n); [lia|]. rewrite (size_unfold n).
  apply last_Some_elem_of, size_in in Hc. lia.
Qed.

Lemma need_wild n c : last (children n) = Some c -> need c <= need n.
Proof. intros Hc%last_Some_elem_of%need_child. rewrite (need_unfold n). lia. Qed.

(** Entering the parameter child [c] takes the next segment. *)
Lemma param_reached n c p ps name : Forall litb (path n) -> c ∈ children n -> path c = colon :: name -> name_ok name ->
  reached n (path n ++ p) ps -> exists t,
    mt t orig (drop (length (firstSegment p)) p) (ps ++ [mkParam name (firstSegment p)]) /\
    (forall h, handlers c = Some h -> (t, (h, fullPath c)) ∈ entries top) /\
    (forall c0, c0 ∈ children c -> forall u v, (u, v) ∈ entries c0 -> (t ++ u, v) ∈ entries top).
Proof.
  intros Hl Hc Hp Hn Hr. destruct (reached_child n c p ps Hl Hc Hr) as (t & Ht & He).
  assert (Htk : toks (path c) = [Par name]).
  { rewrite Hp. rewrite <- (app_nil_r name) at 1. apply toks_param; [by apply name_ns|by left]. }
  exists (t ++ [Par name]). split_and!.
  - eapply mt_app; [exact Ht|]. apply mt_firstSegment.
  - intros h Hh. apply He. rewrite <- Htk. by apply entries_own.
  - intros c0 Hc0 u v Hu. rewrite <- app_assoc. apply He. rewrite <- Htk. by eapply entries_child.
Qed.

Lemma wildcard_post w p c : inv w -> w_path w = path (w_node w) ++ p -> p <> [] ->
  wildChild (w_node w) = true -> last (children (w_node w)) = Some c -> post w (wildcardStep unescape w p c).
Proof.
  intros (ps & (Hseen & Hr & Hcat) & Hl & Hp & Hs) Hpath Hpn Hwd Hlast.
  destruct (seen_wild _ Hseen Hwd) as (c' & Hc' & Hwc & Hty). rewrite Hlast in Hc'. injection Hc' as <-.
  pose proof (last_Some_elem_of _ _ Hlast) as Hin. pose proof (seen_lits _ Hseen) as Hlit.
  rewrite Hpath in Hr. unfold wildcardStep. destruct Hty as [[Ht _]|(name & Htn & Ht & Hpc)]; rewrite Ht.
  - apply wf_node_unfold in Hwc as [[? ? [[]]|name _ Hpc Hn _ Hk| |] Hkw]; try congruence.
    destruct (param_reached _ c p ps name Hlit Hin Hpc Hn Hr) as (t & Hmt & Hown & Hkids).
    replace (drop 1 (path c)) with name by (by rewrite Hpc).
    destruct (saveParam_ok w ps name (firstSegment p) c p (w_skipped w) Hp Hl) as (x & -> & Hx). cbn [obind].
    destruct (drop (length (firstSegment p)) p) as [|b rest] eqn:Hrest.
    + destruct (handlers c) as [h|] eqn:Hh; [|apply post_none; by right].
      apply post_ret; [by right|]. eapply found_ret; [exact Hx|exact Hmt|by apply Hown].
    + destruct Hk as [[-> _]|(c0 & Hc0 & Hix & _)]; [apply post_none; by right|]. rewrite Hc0, Forall_singleton in Hkw. rewrite Hc0. simpl.
      assert (Hin0 : c0 ∈ children c) by (rewrite Hc0; set_solver).
      assert (Hb : b = slash).
      { pose proof (mt_firstSegment name p) as Hm. rewrite Hrest in Hm. inv Hm.
        match goal with Hx : mt [] _ _ _, Hy : seg_end _ |- _ => inv Hx; destruct Hy as [|[= ->]]; done end. }
      split_and!.
      * exists (ps ++ [mkParam name (firstSegment p)]). rewrite length_app. simpl. split_and!.
        -- eapply visit_idx; [exact Hkw|exact Hix|by rewrite Hb|].
           exists t. split; [done|]. by apply Hkids.
        -- lia.
        -- exact Hx.
        -- by apply stack_ok_app.
      * unfold room. simpl. intros (? & ? & ?). split_and!; [done| |done].
        pose proof (need_wild _ _ Hlast). pose proof (need_child c c0 Hin0).
        rewrite (need_unfold c) in *. lia.
      * unfold rounds. simpl. pose proof (wsize_wild _ _ Hlast). pose proof (wsize_le c0).
        pose proof (size_in c0 _ Hin0). rewrite (size_unfold c) in *. lia.
  - specialize (Hcat Htn). assert (Hpath0 : path (w_node w) = []).
    { destruct Hseen as (n0 & _ & _ & Hc0 & [Hn|[Hn _]]); rewrite Hn in Htn |- *; by apply Hc0. }
    rewrite Hpath, Hpath0 in Hcat. simpl in Hcat. destruct p as [|b p]; [done|]. injection Hcat as ->.
    replace (drop 2 (path c)) with name by (by rewrite Hpc).
    destruct (saveParam_ok w ps name (slash :: p) c (slash :: p) (w_skipped w) Hp Hl) as (x & -> & Hx). cbn [obind].
    destruct (handlers c) as [h|] eqn:Hh; [|apply post_none; by right]. apply post_ret; [by right|].
    destruct (reached_child _ c _ ps Hlit Hin Hr) as (t & Ht' & He).
    eapply (found_ret _ _ _ _ (t ++ toks (path c))); [exact Hx| |apply He; by apply entries_own].
    eapply mt_app; [exact Ht'|]. rewrite Hpc. do 2 constructor. constructor.
Qed.

Lemma end_post w w0 : w_skipped w = [] \/ w_skipped w = w_skipped w0 -> inv w ->
  w_path w = path (w_node w) -> post w0 (endStep w).
Proof.
  intros Hsk (ps & (Hseen & Hr & Hcat) & Hl & Hp & Hs) Hpath. unfold endStep.
  destruct (handlers (w_node w)) as [h|] eqn:Hh.
  - destruct Hr as (t & Ht & He). rewrite Hpath in Ht.
    apply post_ret; [done|]. eapply (found_ret _ _ _ _ (t ++ toks (path (w_node w)))); [exact Hp| |apply He; by apply entries_own].
    rewrite <- (app_nil_r ps). eapply mt_app; [exact Ht|]. rewrite toks_litl by (by apply seen_lits).
    rewrite <- (app_nil_r (path (w_node w))) at 2. apply mt_lits.
  - destruct (_ && _ && _); [by apply post_none|]. destruct (_ && _); [by apply post_none|].
    destruct (indexByte slash (indices (w_node w))) as [i|] eqn:Hi; [|by apply post_none].
    destruct (seen_index _ _ _ Hseen Hi) as (cs & ws & c & Hsa & Hci & Hix & Hwc & ->).
    destruct (_ && _); [by apply post_none|]. case_bool_decide as Ht; [|by apply post_none].
    destruct Hix as [_ [[? _]|(_ & Hpc & _)]]; [congruence|].
    destruct (entries_wrapper c) as (c0 & name & -> & _); try done. by apply post_none.
Qed.

Lemma step_post w : inv w -> post w (getValue_step cap unescape w).
Proof.
  intros Hw. unfold getValue_step.
  destruct (Nat.ltb_spec (length (path (w_node w))) (length (w_path w))) as [Hlt|Hge]; simpl.
  - case_bool_decide as Hpre.
    + assert (Hpath : w_path w = path (w_node w) ++ drop (length (path (w_node w))) (w_path w)).
      { rewrite <- Hpre at 1. by rewrite take_drop. }
      destruct (drop (length (path (w_node w))) (w_path w)) as [|b p] eqn:Hd.
      { rewrite app_nil_r in Hpath. rewrite Hpath in Hlt. lia. }
      destruct (indexByte b (indices (w_node w))) as [i|] eqn:Hi; [by eapply index_post|].
      destruct (wildChild (w_node w)) eqn:Hwd; simpl.
      * destruct Hw as (ps & (Hseen & Hr) & Hx). destruct (seen_wild _ Hseen Hwd) as (c & Hc & _). rewrite Hc.
        apply wildcard_post; try done. by exists ps.
      * destruct (is_slash (b :: p)); [apply post_none; by right|]. apply rollBack_post; [done|]. intros. apply post_none; by left.
    + rewrite bool_decide_eq_false_2 by (intros Heq; rewrite Heq in Hlt; lia).
      destruct (_ || _); [apply post_none; by right|]. apply rollBack_post; [done|]. intros. apply post_none; by left.
  - case_bool_decide as Heq.
    + destruct (_ && _); [|apply end_post; [by right|done|done]]. apply rollBack_post; [done|]. intros w' Hn Hp Hsk Hw'.
      apply end_post; [by left|done|congruence].
    + destruct (_ || _); [apply post_none; by right|]. apply rollBack_post; [done|]. intros. apply post_none; by left.
Qed.

(** *** The loop *)

Lemma loop_ok fuel : forall w, inv w -> rounds (w_node w) (w_skipped w) < fuel ->
  match getValue_loop cap unescape fuel w with
  | Ok r => found (fst r) /\ (room w -> length (snd r) <= bound)
  | Panic s => ~ room w
  end.
Proof.
  induction fuel as [|fuel IH]; intros w Hw Hf; [lia|]. simpl. pose proof (step_post w Hw) as Hp.
  destruct (getValue_step cap unescape w) as [[w'|r]|]; simpl in *; [|done|done].
  destruct Hp as (Hw' & Hr & Hlt). specialize (IH w' Hw' ltac:(lia)).
  destruct (getValue_loop cap unescape fuel w'); tauto.
Qed.

(** *** Routes that are found *)

(** A route without parameters. *)
Definition no_par (t : list tok) : Prop := Forall (fun x => forall name, x <> Par name) t.
Definition nonempty ps : Prop := Forall (fun p => Value p <> []) ps.

Lemma indexByte_lookup b (l : gostr) i : NoDup l -> l !! i = Some b -> indexByte b l = Some i.
Proof.
  intros Hnd. revert i. induction Hnd as [|a l Ha Hnd IH]; intros i Hi; [done|]. simpl. destruct i as [|i].
  - injection Hi as ->. by rewrite decide_True.
  - rewrite decide_False; [by rewrite (IH i Hi)|]. intros ->. apply Ha. by eapply list_elem_of_lookup_2.
Qed.

Lemma mt_lits_inv l t s r ps : mt (map Lit l ++ t) s r ps -> exists s', s = l ++ s' /\ mt t s' r ps.
Proof.
  revert s. induction l as [|b l IH]; intros s; simpl; [eauto|]. intros Hm. inv Hm.
  match goal with Hx : mt (map Lit l ++ t) _ _ _ |- _ => apply IH in Hx as (s' & -> & ?) end. eauto.
Qed.

Lemma mt_par_inv name t s r ps : mt (Par name :: t) s r ps -> exists v s' ps',
  s = v ++ s' /\ ps = mkParam name v :: ps' /\ Forall (fun b => b <> slash) v /\ seg_end s' /\ mt t s' r ps'.
Proof. intros Hm. inv Hm. by repeat esplit. Qed.

(** A route below a node is the node's own or one of a child. *)
Lemma entries_inv n t h fp : (t, (h, fp)) ∈ entries n -> exists u, t = toks (path n) ++ u /\
  ((u = [] /\ handlers n = Some h /\ fullPath n = fp) \/ exists c, c ∈ children n /\ (u, (h, fp)) ∈ entries c).
Proof.
  rewrite entries_unfold. unfold under. intros ([u v] & Heq & Hin)%list_elem_of_fmap. injection Heq as -> <-.
  exists u. split; [done|]. apply elem_of_app in Hin as [Hin|Hin].
  - left. unfold own in Hin. destruct (handlers n); [|by apply not_elem_of_nil in Hin].
    apply list_elem_of_singleton in Hin. by injection Hin as -> -> ->.
  - right. unfold kids in Hin. apply list_elem_of_In, in_concat in Hin as (l & Hl & Hin).
    apply in_map_iff in Hl as (c & <- & Hc). exists c. split; by apply list_elem_of_In.
Qed.

(** What the loop returns for the route [h], [fp], with the parameters [ps] in all. *)
Definition returns_route (h : H) (fp : gostr) ps (o : outcome (result H)) : Prop :=
  match o with
  | Ok r => v_handler (fst r) = Some h /\ v_fullPath (fst r) = fp /\
            params_got (fst r) ps
  | Panic _ => True
  end.

Lemma returns_ret w h fp ps sk' : params_ok w ps -> returns_route h fp ps (Ok (fst (ret w (Some h) false fp), sk')).
Proof.
  intros Hp. split_and!; [done|done|]. by apply params_ret.
Qed.

(** The round in which the path goes on below the node. *)
Lemma step_below w b s : w_path w = path (w_node w) ++ b :: s ->
  match indexByte b (indices (w_node w)) with
  | Some i => forall c, children (w_node w) !! i = Some c ->
      match getValue_step cap unescape w with
      | Ok (inl w') => w_node w' = c /\ w_path w' = b :: s /\ w_count w' = w_count w /\ w_params w' = w_params w /\
                       w_set w' = w_set w
      | Ok (inr _) => False
      | Panic _ => True
      end
  | None => forall c, wildChild (w_node w) = true -> last (children (w_node w)) = Some c ->
      getValue_step cap unescape w = wildcardStep unescape w (b :: s) c
  end.
Proof.
  intros Hp. unfold getValue_step. rewrite Hp, drop_app_length, take_app_length.
  rewrite (proj2 (Nat.ltb_lt _ _)) by (rewrite length_app; simpl; lia).
  rewrite bool_decide_eq_true_2 by done. simpl andb. cbv iota.
  destruct (indexByte b (indices (w_node w))) as [i|].
  - intros c Hc. rewrite Hc. destruct (wildChild (w_node w)); [|done]. unfold pushSkipped.
    destruct cap as [k|]; [|done]. by destruct (length (w_skipped w) <? k).
  - intros c -> ->. done.
Qed.

Lemma step_own w h : w_path w = path (w_node w) -> handlers (w_node w) = Some h ->
  getValue_step cap unescape w = Ok (inr (ret w (Some h) false (fullPath (w_node w)))).
Proof.
  intros Hp Hh. unfold getValue_step. rewrite Hp, Nat.ltb_irrefl. simpl. rewrite bool_decide_eq_true_2 by done.
  rewrite Hh. simpl. unfold endStep. by rewrite Hh.
Qed.

(** The parameter child: the route ends there or goes on below it. *)
Lemma wild_param_route w c name v s u h fp ps ps0 :
  wf_node c -> nType c = param -> path c = colon :: name -> (Par name :: u, (h, fp)) ∈ entries c ->
  Forall (fun b => b <> slash) v -> seg_end s -> mt u s [] ps -> params_ok w ps0 -> length ps0 = w_count w ->
  match wildcardStep unescape w (v ++ s) c with
  | Ok (inl w') => wf_node (w_node w') /\ idx_ok slash (w_node w') /\ w_node w' ∈ children c /\
      (u, (h, fp)) ∈ entries (w_node w') /\ w_path w' = s /\ params_ok w' (ps0 ++ [mkParam name v]) /\
      length (ps0 ++ [mkParam name v]) = w_count w'
  | Ok (inr r) => returns_route h fp (ps0 ++ mkParam name v :: ps) (Ok r)
  | Panic _ => True
  end.
Proof.
  intros Hw Ht Hpc He Hv Hs Hmt Hp Hl. unfold wildcardStep. rewrite Ht. rewrite firstSegment_name by done.
  replace (drop 1 (path c)) with name by (by rewrite Hpc).
  destruct (saveParam_ok w ps0 name v c (v ++ s) (w_skipped w) Hp Hl) as (x & -> & Hx). simpl obind.
  rewrite drop_app_length.
  apply wf_node_unfold in Hw as [[? ? [[]]|name' _ Hpc' Hn _ Hk| |] Hkw]; try congruence.
  assert (Htk : toks (path c) = [Par name]).
  { rewrite Hpc. replace name with name' by congruence. rewrite <- (app_nil_r name') at 1.
    apply toks_param; [by apply name_ns|by left]. }
  apply entries_inv in He as (u' & Hu & Hor). rewrite Htk in Hu. injection Hu as <-.
  destruct Hor as [(-> & Hh & <-)|(c0 & Hc0 & He0)].
  - inv Hmt. rewrite Hh. simpl. exact (returns_ret _ h (fullPath c) _ (w_skipped w) Hx).
  - destruct Hk as [[Hk _]|(c1 & Hk & Hix & _)]; rewrite Hk in *; [by apply not_elem_of_nil in Hc0|].
    apply list_elem_of_singleton in Hc0 as ->. rewrite Forall_singleton in Hkw.
    pose proof (entries_idx slash c1 Hkw Hix) as Hf. unfold first_tok in Hf. rewrite Forall_forall in Hf.
    destruct (Hf _ He0) as (tk & Hhd & <-). simpl in Hhd. destruct u as [|tk u]; [done|]. injection Hhd as ->.
    inv Hmt. simpl. split_and!; try done; [set_solver|]. rewrite length_app. simpl. lia.
Qed.

(** The indexed child of a route, and its position. *)
Lemma indexed_child n cs ws c u v : static_at n cs ws -> wf_node c -> c ∈ cs -> (u, v) ∈ entries c ->
  exists b u' i, u = Lit b :: u' /\ idx_ok b c /\ indexByte b (indices n) = Some i /\ children n !! i = Some c.
Proof.
  intros [_ _ Hcs HF Hnd _ _] Hw (i & Hi)%list_elem_of_lookup He.
  destruct (Forall2_lookup_r _ _ _ _ _ HF Hi) as (b & Hb & Hix).
  pose proof (entries_idx b c Hw Hix) as Hf. unfold first_tok in Hf. rewrite Forall_forall in Hf.
  destruct (Hf _ He) as (tk & Hhd & <-). simpl in Hhd. destruct u as [|tk u]; [done|]. injection Hhd as ->.
  exists b, u, i. split_and!; [done|done|by apply indexByte_lookup|]. rewrite Hcs. by apply lookup_app_l_Some.
Qed.

Lemma wrapper_route w t h fp ps ps0 : wf_node (w_node w) -> nType (w_node w) = catchAll -> path (w_node w) = [] ->
  (t, (h, fp)) ∈ entries (w_node w) -> mt t (w_path w) [] ps -> params_ok w ps0 -> length ps0 = w_count w ->
  exists r, getValue_step cap unescape w = Ok (inr r) /\ returns_route h fp (ps0 ++ ps) (Ok r).
Proof.
  intros Hw Ht Hp He Hmt Hpr Hl.
  destruct (entries_wrapper (w_node w) Hw Ht Hp) as (c & name & Hcs & Htc & Hpc & _ & _ & _ & Hwd & Hix & Hen).
  rewrite Hen in He. unfold under, own in He. destruct (handlers c) as [h'|] eqn:Hh; [|by apply not_elem_of_nil in He].
  apply list_elem_of_singleton in He. injection He as -> -> ->.
  inv Hmt. match goal with Hx : mt [All name] _ _ _ |- _ => inv Hx end.
  match goal with Hx : mt [] [] _ _ |- _ => inv Hx end.
  pose proof (step_below w slash s) as Hst. rewrite Hix, Hp, Hcs in Hst. simpl in Hst.
  rewrite (Hst ltac:(congruence) c Hwd eq_refl). unfold wildcardStep. rewrite Htc.
  replace (drop 2 (path c)) with name by (by rewrite Hpc).
  destruct (saveParam_ok w ps0 name (slash :: s) c (slash :: s) (w_skipped w) Hpr Hl) as (x & -> & Hx).
  simpl obind. eexists. split; [done|]. rewrite Hh.
  exact (returns_ret _ h' (fullPath c) _ (w_skipped w) Hx).
Qed.

Lemma loop_complete fuel : forall w t ps ps0 h fp, wf_node (w_node w) -> nType (w_node w) <> param ->
  (nType (w_node w) = catchAll -> path (w_node w) = []) -> (t, (h, fp)) ∈ entries (w_node w) ->
  mt t (w_path w) [] ps -> nonempty ps -> need (w_node w) = 0 \/ no_par t ->
  params_ok w ps0 -> length ps0 = w_count w ->
  returns_route h fp (ps0 ++ ps) (getValue_loop cap unescape fuel w).
Proof.
  induction fuel as [|fuel IH]; intros w t ps ps0 h fp Hw Hnp Hcat He Hmt Hne Hor Hp Hl; [done|]. cbn [getValue_loop].
  destruct (decide (nType (w_node w) = catchAll)) as [Ht|Hnc].
  { destruct (wrapper_route w t h fp ps ps0) as (r & -> & Hr); auto. }
  pose proof (proj1 (wf_node_unfold _) Hw) as [Hs Hc]. destruct Hs as [cs ws Hsa| | |]; [|congruence..].
  apply entries_inv in He as (u & -> & Hu). rewrite toks_litl in Hmt, Hor by apply Hsa.
  apply mt_lits_inv in Hmt as (s & Hpath & Hmt).
  destruct Hu as [(-> & Hh & <-)|(c & Hin & Hec)].
  { inv Hmt. rewrite !app_nil_r in *. rewrite (step_own w h) by done. cbn [obind].
    exact (returns_ret _ h _ _ (w_skipped w) Hp). }
  rewrite Forall_forall in Hc. pose proof (Hc _ Hin) as Hwc. pose proof (need_child _ _ Hin) as Hnd.
  assert (Hor' : need (w_node w) = 0 /\ need c = 0 \/ no_par u).
  { destruct Hor as [Hn|Hn]; [left; split; [done|]; rewrite (need_unfold (w_node w)) in Hn; lia|right; by apply Forall_app in Hn as [_ ?]]. }
  clear Hor. rewrite (sa_children _ _ _ Hsa) in Hin. apply elem_of_app in Hin as [Hin|Hin].
  - destruct (indexed_child _ _ _ _ _ _ Hsa Hwc Hin Hec) as (b & u' & i & -> & Hix & Hi & Hch).
    inv Hmt. pose proof (step_below w b _ Hpath) as Hst. rewrite Hi in Hst. specialize (Hst c Hch).
    destruct (getValue_step cap unescape w) as [[w'|]|]; [|done|done]. cbn [obind].
    destruct Hst as (Hn' & Hp' & Hc' & Hpr' & Hs'). destruct Hix as [Hb Hix].
    eapply IH; rewrite ?Hn', ?Hp'; try done.
    + intros Ht. destruct Hix as [[? _]|(? & _)]; congruence.
    + intros Ht. destruct Hix as [[? _]|(_ & ? & _)]; congruence.
    + by constructor.
    + tauto.
    + unfold params_ok in *. by rewrite Hpr', Hs'.
    + congruence.
  - pose proof (sa_wild _ _ _ Hsa) as Hwd. destruct (wildChild (w_node w)) eqn:Hww;
      [|simpl in Hwd; subst; by apply not_elem_of_nil in Hin].
    destruct Hwd as (c' & -> & Htc). apply list_elem_of_singleton in Hin as <-.
    pose proof (proj1 (wf_node_unfold c) Hwc) as [Hsc _]. destruct Hsc as [? ? [[]]|name _ Hpc Hn _ _| |]; try congruence.
    pose proof Hec as Hec'. apply entries_inv in Hec' as (u' & Hu & _).
    assert (Htk : toks (path c) = [Par name]).
    { rewrite Hpc. rewrite <- (app_nil_r name) at 1. apply toks_param; [by apply name_ns|by left]. }
    rewrite Htk in Hu. simpl in Hu. subst u.
    destruct Hor' as [[Hn0 Hc0]|Hno]; [|apply Forall_cons in Hno as [Hno _]; by destruct (Hno name)].
    apply mt_par_inv in Hmt as (v & s' & ps' & -> & -> & Hv & Hse & Hmt). apply Forall_cons in Hne as [Hvn Hne].
    assert (Hib : forall b, indexByte b (indices (w_node w)) = None).
    { intros b. rewrite need_unfold, Hww in Hn0. case_bool_decide as Hi; [by rewrite Hi|done]. }
    assert (Hlast : last (children (w_node w)) = Some c) by (rewrite (sa_children _ _ _ Hsa); apply last_snoc).
    simpl in Hvn. destruct v as [|b v]; [done|]. pose proof (step_below w b (v ++ s') Hpath) as Hst.
    rewrite Hib in Hst. rewrite (Hst c Hww Hlast). change (b :: v ++ s') with ((b :: v) ++ s').
    pose proof (wild_param_route w c name (b :: v) s' u' h fp ps' ps0 Hwc Htc Hpc Hec Hv Hse Hmt Hp Hl) as Hwp.
    destruct (wildcardStep unescape w ((b :: v) ++ s') c) as [[w'|]|]; [|done|done]. cbn [obind].
    destruct Hwp as (Hw' & Hix & Hin & He' & <- & Hp' & Hl').
    change (mkParam name (b :: v) :: ps') with ([mkParam name (b :: v)] ++ ps'). rewrite app_assoc.
    destruct Hix as [_ Hix]. eapply IH; try done.
    + intros Ht. destruct Hix as [[? _]|(? & _)]; congruence.
    + intros Ht. destruct Hix as [[? _]|(_ & ? & _)]; congruence.
    + left. apply need_child in Hin. rewrite (need_unfold c) in Hc0. lia.
Qed.

End invariant.

(** ** How many nodes may be skipped *)

Definition slashes (t : list tok) : nat := length (filter (fun x => x = Lit slash) t).

(** Every parameter comes directly after a slash; [prev] says that the byte before is one. *)
Fixpoint par_ok (prev : bool) (t : list tok) : Prop :=
  match t with
  | [] => True
  | Par _ :: t => prev = true /\ par_ok false t
  | Lit b :: t => par_ok (bool_decide (b = slash)) t
  | All _ :: t => par_ok false t
  end.

Section bound.
Context {H : Type}.
Implicit Types (n c : node H).

Fixpoint after (prev : bool) (t : list tok) : bool :=
  match t with
  | [] => prev
  | Lit b :: t => after (bool_decide (b = slash)) t
  | _ :: t => after false t
  end.

Lemma par_ok_app prev t u : par_ok prev (t ++ u) -> par_ok (after prev t) u.
Proof. revert prev. induction t as [|[b|name|name] t IH]; intros prev; simpl; [done|auto|intros [_ ?]; auto|auto]. Qed.

Lemma slashes_app t u : slashes (t ++ u) = slashes t + slashes u.
Proof. unfold slashes. by rewrite filter_app, length_app. Qed.

Lemma after_lits prev l : after prev (map Lit l) = true -> l <> [] -> 1 <= slashes (map Lit l).
Proof.
  revert prev. induction l as [|b l IH]; intros prev; [done|]. intros Ha _.
  change (map Lit (b :: l)) with ([Lit b] ++ map Lit l). rewrite slashes_app. simpl in Ha.
  destruct l as [|b' l].
  - simpl in Ha. apply bool_decide_eq_true in Ha as ->. unfold slashes. simpl. lia.
  - specialize (IH _ Ha ltac:(done)). lia.
Qed.

(** The child whose lookups may skip the most nodes. *)
Lemma kids_need_max n : children n <> [] -> exists c, c ∈ children n /\ kids_need n = need c.
Proof.
  unfold kids_need. induction (children n) as [|c cs IH]; [done|]. intros _. simpl.
  destruct cs as [|c' cs]; [exists c; split; [set_solver|simpl; lia]|].
  destruct (IH ltac:(done)) as (d & Hd & Hn). destruct (Nat.le_ge_cases (need d) (need c)) as [Hle|Hle].
  - exists c. split; [set_solver|]. rewrite Hn. lia.
  - exists d. split; [set_solver|]. rewrite Hn. lia.
Qed.

(** A route ends at or below every node. *)
Lemma entries_live n : wf_node n -> exists u v, (u, v) ∈ entries n.
Proof.
  induction n as [n IH] using node_tree_ind. intros Hw. rewrite Forall_forall in IH.
  apply wf_node_unfold in Hw as [Hs Hc]. rewrite Forall_forall in Hc.
  assert (Hl : handlers n <> None \/ children n <> []).
  { destruct Hs as [cs ws []| |w _ _ _ _ _ Hcs|]; try done; [right; by rewrite Hcs|by left]. }
  destruct Hl as [Hh|Hk].
  - destruct (handlers n) as [h|] eqn:Hh'; [|done]. eexists _, _. by apply entries_own.
  - destruct (children n) as [|c cs] eqn:Hch; [done|]. assert (Hin : c ∈ c :: cs) by set_solver.
    destruct (IH c Hin (Hc c Hin)) as (u & v & Hu). exists (toks (path n) ++ u), v.
    eapply entries_child; [by rewrite Hch|done].
Qed.

(** The parameter child of a node has a route that starts with the parameter. *)
Lemma wild_entry n cs ws : wf_node n -> static_at n cs ws -> wildChild n = true ->
  exists w name u v, w ∈ children n /\ (Par name :: u, v) ∈ entries w.
Proof.
  intros Hw Hsa Hwc. pose proof (sa_wild _ _ _ Hsa) as Hww. rewrite Hwc in Hww. destruct Hww as (w & -> & Hwt).
  assert (Hin : w ∈ children n) by (rewrite (sa_children _ _ _ Hsa); set_solver).
  apply wf_node_unfold in Hw as [_ Hc]. rewrite Forall_forall in Hc.
  destruct (entries_live w (Hc w Hin)) as (u & v & Hu).
  pose proof (entries_par w (Hc w Hin) Hwt) as Hf. unfold first_tok in Hf. rewrite Forall_forall in Hf.
  destruct (Hf _ Hu) as (tk & Hhd & name & ->). simpl in Hhd. destruct u as [|tk u]; [done|]. injection Hhd as ->.
  by exists w, name, u, v.
Qed.

(** When every parameter follows a slash, a route below the node has as many slashes as nodes
    may be skipped on the way. *)
Lemma need_slashes n : forall prev, wf_node n -> (forall u v, (u, v) ∈ entries n -> par_ok prev u) ->
  exists u v, (u, v) ∈ entries n /\ need n <= slashes u.
Proof.
  induction n as [n IH] using node_tree_ind. intros prev Hw Hpar. rewrite Forall_forall in IH.
  pose proof (proj1 (wf_node_unfold n) Hw) as [Hs Hc]. rewrite Forall_forall in Hc.
  assert (Hkid : forall c, c ∈ children n -> forall u v, (u, v) ∈ entries c -> par_ok (after prev (toks (path n))) u).
  { intros c Hin u v Hu. apply par_ok_app. eapply Hpar. by eapply entries_child. }
  destruct (decide (children n = [])) as [Hch|Hch].
  - destruct (entries_live n Hw) as (u & v & Hu). exists u, v. split; [done|].
    rewrite need_unfold. unfold kids_need. rewrite Hch. simpl. destruct (wildChild n) eqn:Hwc; [|simpl; lia].
    destruct Hs as [cs ws Hsa| | |]; try congruence.
    destruct (wild_entry n cs ws Hw Hsa Hwc) as (w & _ & _ & _ & Hin & _). rewrite Hch in Hin. set_solver.
  - destruct (kids_need_max n Hch) as (c & Hin & Hn).
    destruct (IH c Hin _ (Hc c Hin) (Hkid c Hin)) as (u & v & Hu & Hle).
    exists (toks (path n) ++ u), v. split; [by eapply entries_child|].
    rewrite need_unfold, Hn, slashes_app. destruct (wildChild n) eqn:Hwc; [|simpl; lia].
    case_bool_decide as Hi; [simpl; lia|]. simpl.
    destruct Hs as [cs ws Hsa| | |]; try congruence.
    destruct (wild_entry n cs ws Hw Hsa Hwc) as (w & name & u' & v' & Hinw & Hu').
    destruct (Hkid w Hinw _ _ Hu') as [Ha _]. rewrite toks_litl in * by apply Hsa. apply after_lits in Ha; [lia|].
    intros Hp. destruct (sa_empty _ _ _ Hsa Hp) as (_ & ? & _). congruence.
Qed.

(** Two routes that part at a parameter and at a literal byte. *)
Definition overlap (l : list (list tok)) : Prop :=
  exists t name u b v, t ++ Par name :: u ∈ l /\ t ++ Lit b :: v ∈ l.

Lemma elem_fst u v (l : list (@entry H)) : (u, v) ∈ l -> u ∈ map fst l.
Proof. intros Hin. apply list_elem_of_fmap. by exists (u, v). Qed.

Lemma fst_child n c u : c ∈ children n -> u ∈ map fst (entries c) -> toks (path n) ++ u ∈ map fst (entries n).
Proof.
  intros Hc ([u' v] & -> & Hu)%list_elem_of_fmap. eapply elem_fst. by eapply entries_child.
Qed.

Lemma need_overlap n : wf_node n -> need n <> 0 -> overlap (map fst (entries n)).
Proof.
  induction n as [n IH] using node_tree_ind. intros Hw Hn. rewrite Forall_forall in IH.
  pose proof (proj1 (wf_node_unfold n) Hw) as [Hs Hc]. rewrite Forall_forall in Hc.
  destruct (decide (kids_need n = 0)) as [Hk|Hk].
  - rewrite need_unfold, Hk in Hn. destruct (wildChild n) eqn:Hwc; [|done]. case_bool_decide as Hi; [done|].
    destruct Hs as [cs ws Hsa| | |]; try congruence.
    destruct (wild_entry n cs ws Hw Hsa Hwc) as (w & name & u & v & Hinw & Hu).
    destruct cs as [|c cs]; [pose proof (sa_indices _ _ _ Hsa) as HF; inv HF; congruence|].
    assert (Hin : c ∈ children n) by (rewrite (sa_children _ _ _ Hsa); set_solver).
    destruct (entries_live c (Hc c Hin)) as (u' & v' & Hu').
    destruct (indexed_child n (c :: cs) ws c u' v' Hsa (Hc c Hin)) as (b & u'' & _ & -> & _); [set_solver|done|].
    exists (toks (path n)), name, u, b, u''. split; (eapply fst_child; [|by eapply elem_fst]); done.
  - destruct (kids_need_max n) as (c & Hin & Hnc).
    { intros Hch. apply Hk. unfold kids_need. by rewrite Hch. }
    destruct (IH c Hin (Hc c Hin)) as (t & name & u & b & v & H1 & H2); [congruence|].
    exists (toks (path n) ++ t), name, u, b, v. rewrite <- !app_assoc. split; by eapply fst_child.
Qed.

Lemma slashes_toks p : slashes (toks p) <= length (filter (fun x => x = slash) p).
Proof.
  unfold toks. generalize false. induction p as [|b p IH]; intros skip; [done|]. simpl.
  assert (Hmono : length (filter (fun x => x = slash) p) <= length (filter (fun x => x = slash) (b :: p))).
  { rewrite filter_cons. case_decide; simpl; lia. }
  case_decide as Hs; [etrans; [apply IH|done]|]. case_decide as Hb.
  { change (Par ?x :: ?l) with ([Par x] ++ l). rewrite slashes_app. unfold slashes at 1. simpl.
    etrans; [apply IH|done]. }
  case_decide as Hst; [unfold slashes; simpl; lia|].
  change (Lit b :: ?l) with ([Lit b] ++ l). rewrite slashes_app. specialize (IH false). rewrite filter_cons.
  unfold slashes at 1. rewrite filter_cons. case_decide as H1; simpl.
  - injection H1 as ->. rewrite decide_True by done. simpl. lia.
  - rewrite decide_False by congruence. lia.
Qed.

End bound.

(** ** The lookup *)

Section theorems.
Context {H : Type}.
Implicit Types (n : node H).

Lemma inv_start n unescape (p : gostr) params : wf_node n -> nType n = root ->
  (forall c l, params = Some (c, l) -> l = []) ->
  inv n p unescape (is_Some_b params) (mkWalk n p 0 params false []).
Proof.
  intros Hw Ht Hps. exists []. split; [split; [|split]|split; [done|split; [split; [done|]|done]]].
  - exists n. split_and!; [done|simpl; congruence|simpl; congruence|by left].
  - exists []. split; [constructor|done].
  - simpl. intros. congruence.
  - simpl. destruct params as [[c l]|]; [|done]. by rewrite (Hps c l).
Qed.

Lemma getValue_found cap unescape p params n v sk h : wf_node n -> nType n = root ->
  (forall c l, params = Some (c, l) -> l = []) ->
  getValue cap unescape p params [] n = Ok (v, sk) -> v_handler v = Some h ->
  exists t ps, (t, (h, v_fullPath v)) ∈ entries n /\ mt t p [] ps /\
    params_got unescape (is_Some_b params) v ps.
Proof.
  intros Hw Ht Hps Hg Hh.
  pose proof (loop_ok n p cap 0 unescape _ _ _ (inv_start n unescape p params Hw Ht Hps) (Nat.lt_succ_diag_r _)) as Hl.
  unfold getValue in Hg. cbn [w_node w_skipped] in Hl. rewrite Hg in Hl. destruct Hl as [Hl _].
  destruct (Hl h Hh) as (t & ps & He & Hm & Hv).
  by exists t, ps.
Qed.

(** A lookup returns when the slice has room for the nodes it may skip, and keeps no more. *)
Lemma getValue_returns k unescape p params n : wf_node n -> nType n = root ->
  (forall c l, params = Some (c, l) -> l = []) -> need n <= k ->
  exists v sk, getValue (Some k) unescape p params [] n = Ok (v, sk) /\ length sk <= need n.
Proof.
  intros Hw Ht Hps Hk. pose proof (loop_ok n p (Some k) (need n) unescape _ _ _
    (inv_start n unescape p params Hw Ht Hps) (Nat.lt_succ_diag_r _)) as Hl.
  assert (Hroom : room (Some k) (need n) (mkWalk n p 0 params false [])) by (by split_and!).
  unfold getValue. cbn [w_node w_skipped] in Hl. destruct (getValue_loop _ _ _ _) as [[v sk]|]; [|done].
  exists v, sk. split; [done|]. by apply Hl.
Qed.

Lemma getValue_finds k unescape p params n t h fp ps : wf_node n -> nType n = root ->
  (forall c l, params = Some (c, l) -> l = []) -> need n <= k ->
  (t, (h, fp)) ∈ entries n -> mt t p [] ps -> nonempty ps -> need n = 0 \/ no_par t ->
  exists v sk, getValue (Some k) unescape p params [] n = Ok (v, sk) /\ v_handler v = Some h /\ v_fullPath v = fp /\
    params_got unescape (is_Some_b params) v ps.
Proof.
  intros Hw Ht Hps Hk He Hm Hne Hor.
  destruct (getValue_returns k unescape p params n Hw Ht Hps Hk) as (v & sk & Hg & _). exists v, sk. split; [done|].
  destruct (inv_start n unescape p params Hw Ht Hps) as (ps0 & _ & Hl & Hp & _).
  apply nil_length_inv in Hl as ->.
  pose proof (loop_complete (Some k) unescape _ (S (rounds n [])) (mkWalk n p 0 params false []) t ps [] h fp
    Hw ltac:(simpl; congruence) ltac:(simpl; congruence) He Hm Hne Hor Hp eq_refl) as Hr.
  unfold getValue in Hg. rewrite Hg in Hr. exact Hr.
Qed.

End theorems.
