(* ===== verification/HttpRouter.v ===== *)
(** * [rest/router/internal/httprouter/router.go]: the router

    The trees per method, [Handle] and [ServeHTTP].  What a pool returns for a slice pointer
    (nil, or a slice used before and then emptied) is an argument. *)

From S2P Require Import Prelude HttpTree HttpLookup.
From Stdlib Require Import Ascii.

(** ** The router *)

Section router.
Context {H : Type}.

Definition method := gostr.
Definition validMethod (m : method) : bool :=
  bool_decide (m ∈ map lit ["DELETE"; "GET"; "HEAD"; "OPTIONS"; "PATCH"; "POST"; "PUT"; "CONNECT"; "TRACE"]).

Record Router := mkRouter {
  trees : list (method * node H);
  maxParams : N;
  maxSections : N;
  RedirectTrailingSlash : bool;
  HandleMethodNotAllowed : bool;
  RemoveExtraSlash : bool;
  NotFound : option H;
  MethodNotAllowed : option H
}.

Definition New : Router := mkRouter [] 0 0 true true false None None.
(** [NewRouter] of [rest/router/httprouter.go] *)
Definition NewRouter : Router := mkRouter [] 0 0 false true true None None.

Definition SetNotFoundHandler (h : option H) (r : Router) : Router :=
  mkRouter (trees r) (maxParams r) (maxSections r) (RedirectTrailingSlash r) (HandleMethodNotAllowed r)
    (RemoveExtraSlash r) h (MethodNotAllowed r).
Definition SetNotAllowedHandler (h : option H) (r : Router) : Router :=
  mkRouter (trees r) (maxParams r) (maxSections r) (RedirectTrailingSlash r) (HandleMethodNotAllowed r)
    (RemoveExtraSlash r) (NotFound r) h.

(** [methodTrees.get] *)
Fixpoint treeOf (m : method) (ts : list (method * node H)) : option (node H) :=
  match ts with
  | [] => None
  | (m', n) :: ts => if decide (m' = m) then Some n else treeOf m ts
  end.
Fixpoint setTree (m : method) (n : node H) (ts : list (method * node H)) : list (method * node H) :=
  match ts with
  | [] => []
  | (m', n') :: ts => if decide (m' = m) then (m', n) :: ts else (m', n') :: setTree m n ts
  end.

Variant handleError := ErrInvalidMethod | ErrInvalidPath | ErrNilHandle.

Definition trimSlash (remove : bool) (p : gostr) : gostr :=
  if remove && (1 <? length p) && bool_decide (last p = Some slash) then take (length p - 1) p else p.

(** [Handle]: the router and the error it returns; [addRoute] may panic. *)
Definition Handle (m : method) (p : gostr) (h : option H) (r : Router) : outcome (Router * option handleError) :=
  if negb (validMethod m) then Ok (r, Some ErrInvalidMethod)
  else if bool_decide (head p <> Some slash) then Ok (r, Some ErrInvalidPath)
  else match h with
  | None => Ok (r, Some ErrNilHandle)
  | Some h =>
    let p := trimSlash (RemoveExtraSlash r) p in
    let '(rt, ts) := match treeOf m (trees r) with
      | Some n => (n, trees r)
      | None => let n := set_handler None [slash] zero_node in (n, trees r ++ [(m, n)])
      end in
    (rt <~ addRoute p h rt ;;
     let mp := if (maxParams r <? countParams p)%N then countParams p else maxParams r in
     let ms := if (maxSections r <? countSections p)%N then countSections p else maxSections r in
     Ok (mkRouter (setTree m rt ts) mp ms (RedirectTrailingSlash r) (HandleMethodNotAllowed r)
           (RemoveExtraSlash r) (NotFound r) (MethodNotAllowed r), None))%go
  end.

(** [GET], [HEAD], [OPTIONS], [POST], [PUT], [PATCH] and [DELETE] panic with the error. *)
Definition errorText (e : handleError) : string :=
  match e with
  | ErrInvalidMethod => "not a valid http method"
  | ErrInvalidPath => "path must begin with '/'"
  | ErrNilHandle => "handle must not be nil"
  end.
Definition shortcut (m : method) (p : gostr) (h : option H) (r : Router) : outcome Router :=
  (x <~ Handle m p h r ;; match snd x with None => Ok (fst x) | Some e => Panic (errorText e) end)%go.
Definition GET := shortcut (lit "GET").
Definition HEAD := shortcut (lit "HEAD").
Definition OPTIONS := shortcut (lit "OPTIONS").
Definition POST := shortcut (lit "POST").
Definition PUT := shortcut (lit "PUT").
Definition PATCH := shortcut (lit "PATCH").
Definition DELETE := shortcut (lit "DELETE").

(** [getParams] and [getSkippedNodes]: the capacity of the slice, which is empty. *)
Definition getSlice (pooled : option nat) (max : N) : option nat :=
  match pooled with
  | Some c => Some c
  | None => if (0 <? max)%N then Some (N.to_nat max) else None
  end.
Definition getParams (pooled : option nat) (r : Router) : option (nat * list Param) :=
  (fun c => (c, [])) <$> getSlice pooled (maxParams r).
Definition getSkippedNodes (pooled : option nat) (r : Router) : option nat := getSlice pooled (maxSections r).

(** What a request is answered with. *)
Variant response :=
| Serve (h : H) (params : option (list Param))
| Redirect (location : gostr) (code : N)
| NotAllowed (custom : option H) (allow : list method)
| NotFoundResponse (custom : option H).

(** The loop over the other methods' trees: one slice of skipped nodes for all of them. *)
Fixpoint allowedMethods (cap : option nat) (m : method) (p : gostr) (ts : list (method * node H))
    (sk : list (skippedNode H)) : outcome (list method) :=
  match ts with
  | [] => Ok []
  | (m', n) :: ts =>
    if decide (m' = m) then allowedMethods cap m p ts sk
    else (x <~ getValue cap false p None sk n ;;
          ms <~ allowedMethods cap m p ts (snd x) ;;
          Ok (if is_Some_b (v_handler (fst x)) then m' :: ms else ms))%go
  end.

(** The part of [ServeHTTP] after the tree of the method. *)
Definition serveOther (pooled : option nat) (m : method) (p : gostr) (r : Router) : outcome response :=
  if HandleMethodNotAllowed r && (0 <? length (trees r)) then
    (allowed <~ allowedMethods (getSkippedNodes pooled r) m p (trees r) [] ;;
     Ok (match allowed with [] => NotFoundResponse (NotFound r) | _ => NotAllowed (MethodNotAllowed r) allowed end))%go
  else Ok (NotFoundResponse (NotFound r)).

(** [ServeHTTP]; [pp], [ps1] and [ps2] are what the pools return. *)
Definition ServeHTTP (pp ps1 ps2 : option nat) (m : method) (p : gostr) (r : Router) : outcome response :=
  let p := trimSlash (RemoveExtraSlash r) p in
  match treeOf m (trees r) with
  | None => serveOther ps2 m p r
  | Some rt =>
    (x <~ getValue (getSkippedNodes ps1 r) false p (getParams pp r) [] rt ;;
     match v_handler (fst x) with
     | Some h => Ok (Serve h (v_params (fst x)))
     | None =>
       if bool_decide (m <> lit "CONNECT") && negb (is_slash p) && v_tsr (fst x) && RedirectTrailingSlash r then
         Ok (Redirect (if (1 <? length p) && bool_decide (last p = Some slash) then take (length p - 1) p else p ++ [slash])
               (if decide (m = lit "GET") then 301%N else 308%N))
       else serveOther ps2 m p r
     end)%go
  end.

End router.
Arguments Router : clear implicits.
Arguments response : clear implicits.

(** ** The table of routes *)

Section table.
Context {H : Type}.
Implicit Types (r : Router H) (n : node H).

(** The routes of a router: method, path and handler. *)
Definition tree_routes (mn : method * node H) : list (method * (gostr * H)) :=
  map (fun e => (fst mn, (snd (snd e), fst (snd e)))) (entries (snd mn)).
Definition table r : list (method * (gostr * H)) := concat (map tree_routes (trees r)).

(** The length of the paths keeps the 16-bit counters exact. *)
Definition path_fits (p : gostr) : Prop := (N.of_nat (length p) < 65536)%N.

Definition route_ok r (e : @entry H) : Prop :=
  fst e = toks (snd (snd e)) /\ path_fits (snd (snd e)) /\ head (snd (snd e)) = Some slash /\
  (countSections (snd (snd e)) <= maxSections r)%N /\ (countParams (snd (snd e)) <= maxParams r)%N.

Record wf_router r : Prop := {
  wr_trees : Forall (fun mn => wf_node (snd mn) /\ nType (snd mn) = root /\
                               default slash (head (path (snd mn))) = slash) (trees r);
  wr_methods : NoDup (map fst (trees r));
  wr_routes : Forall (fun mn => Forall (route_ok r) (entries (snd mn))) (trees r)
}.

Lemma wf_New : wf_router New /\ wf_router NewRouter.
Proof. by split; split; constructor. Qed.

Lemma treeOf_Some m n n' (ts : list (method * node H)) : treeOf m ts = Some n -> exists l1 l2,
  ts = l1 ++ (m, n) :: l2 /\ setTree m n' ts = l1 ++ (m, n') :: l2.
Proof.
  induction ts as [|[m' x] ts IH]; simpl; [done|]. case_decide as Hm.
  - intros [= ->]. subst. by exists [], ts.
  - intros Hn. destruct (IH Hn) as (l1 & l2 & -> & ->). by exists ((m', x) :: l1), l2.
Qed.

Lemma treeOf_None m n n' (ts : list (method * node H)) : treeOf m ts = None ->
  m ∉ map fst ts /\ setTree m n' (ts ++ [(m, n)]) = ts ++ [(m, n')].
Proof.
  induction ts as [|[m' x] ts IH]; simpl.
  - intros _. split; [set_solver|]. by rewrite decide_True.
  - case_decide as Hm; [done|]. intros Hn. destruct (IH Hn) as [Hni ->]. set_solver.
Qed.

Lemma trimSlash_head b p : head p = Some slash -> head (trimSlash b p) = Some slash.
Proof.
  intros Hp. unfold trimSlash. destruct p as [|c [|d p]]; [done| |]; simpl.
  - by rewrite andb_false_r.
  - by destruct (_ && _).
Qed.

Lemma trimSlash_length b p : length (trimSlash b p) <= length p.
Proof. unfold trimSlash. destruct (_ && _); [rewrite length_take|]; lia. Qed.

Lemma route_ok_mono r r' e : (maxSections r <= maxSections r')%N -> (maxParams r <= maxParams r')%N ->
  route_ok r e -> route_ok r' e.
Proof. intros ? ? (? & ? & ? & ? & ?). split_and!; [done|done|done|lia|lia]. Qed.

(** Replacing or adding the tree of a method. *)
Lemma tree_added r r' l1 l2 m n n' p h :
  trees r' = l1 ++ (m, n') :: l2 -> wf_tree n -> head p = Some slash -> path_fits p ->
  Forall (fun mn => wf_node (snd mn) /\ nType (snd mn) = root /\ default slash (head (path (snd mn))) = slash) (l1 ++ l2) ->
  NoDup (map fst (l1 ++ l2)) -> m ∉ map fst (l1 ++ l2) ->
  Forall (fun mn => Forall (route_ok r) (entries (snd mn))) (l1 ++ l2) -> Forall (route_ok r) (entries n) ->
  (maxSections r <= maxSections r')%N -> (maxParams r <= maxParams r')%N ->
  (countSections p <= maxSections r')%N -> (countParams p <= maxParams r')%N ->
  addRoute p h n = Ok n' ->
  wf_router r' /\ table r' ≡ₚ (m, (p, h)) :: tree_routes (m, n) ++ concat (map tree_routes (l1 ++ l2)) /\
  toks p ∉ map fst (entries n).
Proof.
  intros Hr' Hn Hp Hf Hts Hnd Hm Hro Hrn Hs1 Hp1 Hs2 Hp2 Ha.
  destruct (addRoute_grows p h n n' Hn Hp Ha) as [Hw He].
  assert (Hroot : wf_node n' /\ nType n' = root /\ default slash (head (path n')) = slash).
  { destruct Hw as [(Hpa & _ & _ & _ & Hch & Hh)|(? & ? & ?)]; [|done]. exfalso.
    assert (entries n' = []) as Hen by (rewrite entries_unfold; unfold own, kids; by rewrite Hch, Hh).
    rewrite Hen in He. by apply Permutation_nil_cons in He. }
  split_and!.
  - split; rewrite Hr'.
    + apply Forall_app in Hts as [? ?]. apply Forall_app. by split; [|constructor].
    + rewrite map_app in *. simpl. rewrite <- Permutation_middle. by constructor.
    + apply Forall_app in Hro as [Hr1 Hr2].
      assert (Hmono : forall l : list (method * node H), Forall (fun mn => Forall (route_ok r) (entries (snd mn))) l ->
        Forall (fun mn => Forall (route_ok r') (entries (snd mn))) l).
      { intros l Hl. eapply Forall_impl; [exact Hl|]. intros mn Hmn. eapply Forall_impl; [exact Hmn|].
        intros e. by apply route_ok_mono. }
      apply Forall_app. split; [by apply Hmono|]. constructor; [|by apply Hmono]. simpl. rewrite He.
      constructor; [by split_and!|]. eapply Forall_impl; [exact Hrn|]. intros e. by apply route_ok_mono.
  - unfold table. rewrite Hr', !map_app, !concat_app. simpl. unfold tree_routes at 2. simpl. rewrite He. simpl.
    unfold tree_routes at 4. simpl. solve_Permutation.
  - pose proof (unique_tree n' Hw) as Hu. unfold unique in Hu. rewrite He in Hu. by apply NoDup_cons in Hu as [? _].
Qed.

Lemma table_elem r m q h : (m, (q, h)) ∈ table r <-> exists n t, (m, n) ∈ trees r /\ (t, (h, q)) ∈ entries n.
Proof.
  unfold table. rewrite list_elem_of_In, in_concat. split.
  - intros (l & Hl & Hin). apply in_map_iff in Hl as ([m' n] & <- & Hmn). apply in_map_iff in Hin as ([t [h' q']] & Heq & Hin).
    simpl in *. injection Heq as -> -> ->. exists n, t. by split; apply list_elem_of_In.
  - intros (n & t & Hmn & Hin). exists (tree_routes (m, n)). split; [by apply in_map, list_elem_of_In|].
    apply in_map_iff. exists (t, (h, q)). split; [done|by apply list_elem_of_In].
Qed.

Lemma treeOf_elem m n (ts : list (method * node H)) : NoDup (map fst ts) -> (m, n) ∈ ts -> treeOf m ts = Some n.
Proof.
  induction ts as [|[m' x] ts IH]; simpl; [by intros _ ?%not_elem_of_nil|]. intros [Hni Hnd]%NoDup_cons Hin.
  apply elem_of_cons in Hin as [[= <- <-]|Hin]; [by rewrite decide_True|].
  rewrite decide_False; [auto|]. intros ->. apply Hni. apply list_elem_of_fmap. by exists (m, n).
Qed.

Lemma treeOf_in m n (ts : list (method * node H)) : treeOf m ts = Some n -> (m, n) ∈ ts.
Proof. intros Hn. destruct (treeOf_Some m n n ts Hn) as (l1 & l2 & -> & _). set_solver. Qed.

Lemma table_toks r m n q h : wf_router r -> treeOf m (trees r) = Some n -> (m, (q, h)) ∈ table r ->
  (toks q, (h, q)) ∈ entries n.
Proof.
  intros Hr Hn (n' & t & Hin & He)%table_elem. rewrite (treeOf_elem _ _ _ (wr_methods _ Hr) Hin) in Hn.
  injection Hn as ->. pose proof (wr_routes _ Hr) as Hro. rewrite Forall_forall in Hro. specialize (Hro _ Hin).
  rewrite Forall_forall in Hro. destruct (Hro _ He) as [Ht _]. simpl in Ht. by subst.
Qed.

Lemma Forall_middle {A} (P : A -> Prop) l1 x l2 : Forall P (l1 ++ x :: l2) <-> P x /\ Forall P (l1 ++ l2).
Proof. rewrite !Forall_app, Forall_cons. tauto. Qed.

Lemma max_le (a b : N) : (a <= (if a <? b then b else a))%N /\ (b <= (if a <? b then b else a))%N.
Proof. destruct (N.ltb_spec a b); lia. Qed.

Lemma handle_added r m p h r' : wf_router r -> path_fits p -> Handle m p (Some h) r = Ok (r', None) ->
  wf_router r' /\ table r' ≡ₚ (m, (trimSlash (RemoveExtraSlash r) p, h)) :: table r /\
  forall q h', (m, (q, h')) ∈ table r -> toks q <> toks (trimSlash (RemoveExtraSlash r) p).
Proof.
  intros Hr Hf. unfold Handle. destruct (validMethod m); [|done]. simpl. case_bool_decide as Hp; [done|].
  set (q := trimSlash (RemoveExtraSlash r) p). assert (Hq : head q = Some slash) by (by apply trimSlash_head).
  assert (Hfq : path_fits q) by (pose proof (trimSlash_length (RemoveExtraSlash r) p) as Hl; fold q in Hl; unfold path_fits in *; lia).
  destruct (max_le (maxParams r) (countParams q)) as [Hm1 Hm2].
  destruct (max_le (maxSections r) (countSections q)) as [Hm3 Hm4]. pose proof Hr as [Hts Hnd Hro].
  destruct (treeOf m (trees r)) as [n|] eqn:Hn.
  - assert (Hwn : wf_tree n).
    { right. rewrite Forall_forall in Hts. by apply (Hts (m, n)), treeOf_in. }
    destruct (addRoute q h n) as [n'|] eqn:Ha; [|done].
    destruct (treeOf_Some m n n' _ Hn) as (l1 & l2 & Hl & Hset). simpl. rewrite Hset. intros [= <-].
    rewrite Hl in Hts, Hnd, Hro. rewrite map_app in Hnd. simpl in Hnd. rewrite <- Permutation_middle, <- map_app in Hnd.
    apply NoDup_cons in Hnd as [Hm Hnd]. apply Forall_middle in Hts as [_ Hts]. apply Forall_middle in Hro as [Hrn Hro].
    match goal with |- wf_router ?r1 /\ _ =>
      destruct (tree_added r r1 l1 l2 m n n' q h) as (Hw & Ht & Hnew); try done end.
    split_and!; [done| |].
    + rewrite Ht. unfold table. rewrite Hl. f_equiv. rewrite !map_app, !concat_app. simpl. solve_Permutation.
    + intros q' h' Hin Heq. apply Hnew. rewrite <- Heq. apply (elem_fst _ (h', q')).
      apply (table_toks r m n q' h' Hr Hn Hin).
  - destruct (addRoute q h _) as [n'|] eqn:Ha; [|done].
    destruct (treeOf_None m (set_handler None [slash] zero_node) n' _ Hn) as [Hni Hset].
    simpl. simpl in Hset. rewrite Hset. intros [= <-].
    match goal with |- wf_router ?r1 /\ _ =>
      destruct (tree_added r r1 (trees r) [] m (set_handler None [slash] zero_node) n' q h)
        as (Hw & Ht & _); rewrite ?app_nil_r; try done end; [by left|].
    split_and!; [done| |].
    + rewrite Ht. by rewrite app_nil_r.
    + intros q' h' (n & t & Hin & _)%table_elem. exfalso. apply Hni, list_elem_of_fmap. by exists (m, n).
Qed.

(** C4: [Handle] refines a table of routes.  It refuses an unknown method, a path that does
    not start with a slash and a nil handler, in this order, and then changes nothing.  Else it
    adds the route to the routes of its method, without the trailing slash where the router
    removes it, and keeps the router's invariant; a route of the same tokens was not there
    before.  It panics on conflicts, and its loops end. *)
Theorem handle_registers r m p oh : wf_router r -> path_fits p ->
  match Handle m p oh r with
  | Ok (r', None) => validMethod m = true /\ head p = Some slash /\ wf_router r' /\ exists h, oh = Some h /\
      table r' ≡ₚ (m, (trimSlash (RemoveExtraSlash r) p, h)) :: table r /\
      forall q h', (m, (q, h')) ∈ table r -> toks q <> toks (trimSlash (RemoveExtraSlash r) p)
  | Ok (r', Some ErrInvalidMethod) => r' = r /\ validMethod m = false
  | Ok (r', Some ErrInvalidPath) => r' = r /\ validMethod m = true /\ head p <> Some slash
  | Ok (r', Some ErrNilHandle) => r' = r /\ validMethod m = true /\ head p = Some slash /\ oh = None
  | Panic s => s <> "out of fuel"
  end.
Proof.
  intros Hr Hf. destruct (Handle m p oh r) as [[r' e]|s] eqn:Hh.
  - destruct oh as [h|].
    + pose proof (handle_added r m p h r' Hr Hf) as Hadd. unfold Handle in *. destruct (validMethod m); [|by injection Hh as <- <-].
      simpl in *. case_bool_decide as Hp; [by injection Hh as <- <-|]. destruct e; [|naive_solver].
      destruct (treeOf m (trees r)); destruct (addRoute _ _ _); done.
    + unfold Handle in Hh. destruct (validMethod m); [|by injection Hh as <- <-].
      simpl in *. case_bool_decide as Hp; by injection Hh as <- <-.
  - unfold Handle in Hh. destruct (validMethod m); [|done]. simpl in *. case_bool_decide as Hp; [done|].
    destruct oh as [h|]; [|done]. pose proof (trimSlash_head (RemoveExtraSlash r) p Hp) as Hq.
    destruct (treeOf m (trees r)) as [n|] eqn:Hn.
    + assert (Hwn : wf_tree n).
      { right. pose proof (wr_trees _ Hr) as Hts. rewrite Forall_forall in Hts. by apply (Hts (m, n)), treeOf_in. }
      pose proof (addRoute_returns _ h n Hwn Hq) as Hret. destruct (addRoute _ h n); [done|].
      injection Hh as <-. intros ->. by apply Hret.
    + pose proof (addRoute_returns _ h (set_handler None [slash] zero_node) ltac:(by left) Hq) as Hret.
      destruct (addRoute _ h _); [done|]. injection Hh as <-. intros ->. by apply Hret.
Qed.

(** ** Serving *)

(** Every parameter of the method's routes comes directly after a slash. *)
Definition after_slash r (m : method) : Prop := forall p h, (m, (p, h)) ∈ table r -> par_ok false (toks p).

(** Two routes of the method part at a parameter and at a literal byte. *)
Definition ambiguous r (m : method) : Prop := exists p1 h1 p2 h2 t name u b v,
  (m, (p1, h1)) ∈ table r /\ toks p1 = t ++ Par name :: u /\
  (m, (p2, h2)) ∈ table r /\ toks p2 = t ++ Lit b :: v.

(** The slices in the pool are as large as the ones the router makes now. *)
Definition pool_ok r (pooled : option nat) : Prop := forall c, pooled = Some c -> N.to_nat (maxSections r) <= c.

Lemma tree_entry r m n t h p : wf_router r -> (m, n) ∈ trees r -> (t, (h, p)) ∈ entries n ->
  t = toks p /\ (m, (p, h)) ∈ table r /\ path_fits p /\ head p = Some slash /\ (countSections p <= maxSections r)%N /\
  (countParams p <= maxParams r)%N.
Proof.
  intros Hr Hin He. pose proof (wr_routes _ Hr) as Hro. rewrite Forall_forall in Hro. specialize (Hro _ Hin).
  rewrite Forall_forall in Hro. destruct (Hro _ He) as (? & ? & ? & ? & ?). split_and!; try done.
  apply table_elem. by exists n, t.
Qed.

Lemma wf_of_tree r m n : wf_router r -> (m, n) ∈ trees r -> wf_node n /\ nType n = root.
Proof.
  intros Hr Hin. pose proof (wr_trees _ Hr) as Hts. rewrite Forall_forall in Hts. destruct (Hts _ Hin) as (? & ? & _). done.
Qed.

Lemma countByte_le b (p : gostr) : path_fits p -> uint16 (countByte b p) = countByte b p.
Proof.
  unfold path_fits, uint16, countByte. intros Hp. apply N.mod_small.
  pose proof (length_filter (fun x => x = b) p). lia.
Qed.

(** The router's slices have room for the skipped nodes of a lookup. *)
Lemma need_sections r m n : wf_router r -> (m, n) ∈ trees r -> after_slash r m -> need n <= N.to_nat (maxSections r).
Proof.
  intros Hr Hin Has. destruct (wf_of_tree r m n Hr Hin) as [Hw _].
  destruct (need_slashes n false Hw) as (u & [h p] & He & Hle).
  { intros u [h p] He. destruct (tree_entry _ _ _ _ _ _ Hr Hin He) as (-> & ? & _). by eapply Has. }
  destruct (tree_entry _ _ _ _ _ _ Hr Hin He) as (-> & _ & Hf & _ & Hs & _).
  pose proof (slashes_toks p) as Hsl. unfold countSections in Hs. rewrite countByte_le in Hs by done.
  unfold countByte in Hs. lia.
Qed.

Lemma sections_pos r m n : wf_router r -> (m, n) ∈ trees r -> (0 < maxSections r)%N.
Proof.
  intros Hr Hin. destruct (wf_of_tree r m n Hr Hin) as [Hw _].
  destruct (entries_live n Hw) as (u & [h p] & He). destruct (tree_entry _ _ _ _ _ _ Hr Hin He) as (_ & _ & Hf & Hsl & Hs & _).
  unfold countSections in Hs. rewrite countByte_le in Hs by done.
  unfold countByte in Hs. destruct p as [|b p]; [done|]. injection Hsl as ->. rewrite filter_cons_True in Hs by done.
  simpl in Hs. lia.
Qed.

Lemma slice_room r m n pooled : wf_router r -> (m, n) ∈ trees r -> pool_ok r pooled -> after_slash r m ->
  exists k, getSkippedNodes pooled r = Some k /\ need n <= k.
Proof.
  intros Hr Hin Hp Has. pose proof (need_sections r m n Hr Hin Has). pose proof (sections_pos r m n Hr Hin).
  unfold getSkippedNodes, getSlice. destruct pooled as [c|].
  - exists c. specialize (Hp c eq_refl). split; [done|lia].
  - rewrite (proj2 (N.ltb_lt _ _)) by done. by eexists.
Qed.

Lemma clear_need r m n : wf_router r -> (m, n) ∈ trees r -> ~ ambiguous r m -> need n = 0.
Proof.
  intros Hr Hin Ha. destruct (decide (need n = 0)) as [|Hn]; [done|]. exfalso. apply Ha.
  destruct (wf_of_tree r m n Hr Hin) as [Hw _].
  destruct (need_overlap n Hw Hn) as (t & name & u & b & v & H1 & H2).
  apply list_elem_of_fmap in H1 as ([t1 [h1 p1]] & E1 & H1). apply list_elem_of_fmap in H2 as ([t2 [h2 p2]] & E2 & H2).
  simpl in *. subst t1 t2. destruct (tree_entry _ _ _ _ _ _ Hr Hin H1) as (E1 & T1 & _).
  destruct (tree_entry _ _ _ _ _ _ Hr Hin H2) as (E2 & T2 & _).
  by exists p1, h1, p2, h2, t, name, u, b, v.
Qed.

Lemma getParams_empty pooled r c l : getParams pooled r = Some (c, l) -> l = [].
Proof. unfold getParams. destruct (getSlice pooled (maxParams r)); simpl; [by intros [= _ <-]|done]. Qed.

Lemma saved_raw ps : saved false ps = ps.
Proof. unfold saved. rewrite <- (map_id ps) at 2. apply map_ext. by intros []. Qed.

Lemma wildcards_le (p : gostr) : length (filter (fun x => x = colon) p) + length (filter (fun x => x = star) p) <= length p.
Proof.
  induction p as [|b p IH]; [done|]. rewrite !filter_cons. repeat case_decide; subst; simpl; try done; lia.
Qed.

(** Without wildcards in any route no slice is made for parameters, and none is needed. *)
Lemma no_params p s rest ps : path_fits p -> countParams p = 0%N -> mt (toks p) s rest ps -> ps = [].
Proof.
  intros Hf Hc Hm. assert (Hl : Forall litb p).
  { unfold countParams, uint16 in Hc. rewrite N.mod_small in Hc.
    - unfold countByte in Hc. apply Forall_forall. intros b Hb. split; intros ->.
      + assert (Hin : colon ∈ filter (fun x => x = colon) p) by (by apply list_elem_of_filter).
        destruct (filter (fun x => x = colon) p); [by apply not_elem_of_nil in Hin|simpl in Hc; lia].
      + assert (Hin : star ∈ filter (fun x => x = star) p) by (by apply list_elem_of_filter).
        destruct (filter (fun x => x = star) p); [by apply not_elem_of_nil in Hin|simpl in Hc; lia].
    - pose proof (wildcards_le p). unfold path_fits, countByte in *. lia. }
  rewrite toks_litl, <- (app_nil_r (map Lit p)) in Hm by done. apply mt_lits_inv in Hm as (s' & _ & Hm). by inv Hm.
Qed.

(** A route of the method that matches the path with these values. *)
Definition matching r (m : method) (p : gostr) (h : H) (vals : list Param) : Prop :=
  exists fp, (m, (fp, h)) ∈ table r /\ mt (toks fp) p [] vals.

(** The parameters a lookup returns are the values, also when the router keeps no slice for
    them. *)
Lemma lookup_params r m n pp fp h vals q (v : nodeValue H) : wf_router r -> (m, n) ∈ trees r -> (toks fp, (h, fp)) ∈ entries n ->
  mt (toks fp) q [] vals -> params_got false (is_Some_b (getParams pp r)) v vals -> default [] (v_params v) = vals.
Proof.
  intros Hr Hin He Hm Hg. unfold params_got in Hg. destruct (is_Some_b (getParams pp r)) eqn:Hs.
  - by rewrite Hg, saved_raw.
  - rewrite Hg. destruct (tree_entry _ _ _ _ _ _ Hr Hin He) as (_ & _ & Hf & _ & _ & Hp).
    simpl. symmetry. eapply no_params; [exact Hf| |exact Hm].
    unfold getParams, getSlice in Hs. destruct pp; [done|].
    destruct (N.ltb_spec 0 (maxParams r)); [done|]. lia.
Qed.

(** C5: serving is sound: when [ServeHTTP] runs a handler, it is the handler of a route
    registered for the request's method that matches the request's path (without its trailing
    slash where the router removes it), and the parameters of the request are the values of the
    route's wildcards, whatever the pools returned. *)
Theorem serve_sound r pp ps1 ps2 m p h ps : wf_router r -> ServeHTTP pp ps1 ps2 m p r = Ok (Serve h ps) ->
  exists vals, matching r m (trimSlash (RemoveExtraSlash r) p) h vals /\ default [] ps = vals.
Proof.
  intros Hr. unfold ServeHTTP. set (q := trimSlash (RemoveExtraSlash r) p).
  assert (Hother : forall x, serveOther ps2 m q r <> Ok (Serve h x)).
  { intros x. unfold serveOther. destruct (_ && _); [|done]. by destruct (allowedMethods _ _ _ _ _) as [[|]|]. }
  destruct (treeOf m (trees r)) as [n|] eqn:Hn; [|by intros ?%Hother].
  apply treeOf_in in Hn. destruct (wf_of_tree r m n Hr Hn) as [Hw Ht].
  destruct (getValue _ _ _ _ _ _) as [[v sk]|] eqn:Hg; [|done]. simpl.
  destruct (v_handler v) as [h'|] eqn:Hh; [|destruct (_ && _); [done|by intros ?%Hother]]. intros [= <- <-].
  eapply getValue_found in Hg as (t & vals & He & Hm & Hv); [|done|done|apply getParams_empty|done].
  pose proof (tree_entry _ _ _ _ _ _ Hr Hn He) as (-> & Hin & _). exists vals. split; [by exists (v_fullPath v)|].
  by eapply lookup_params.
Qed.

(** C6: a route is found: the path of a request that matches a route of its method, with
    non-empty values, is served by the route's handler with these values, when the route has no
    parameter (literal bytes go first) or no two routes of the method part at a parameter and a
    literal byte.  The router's slices are large enough for this when every parameter follows a
    slash, so that nothing panics. *)
Theorem serve_finds r pp ps1 ps2 m p fp h vals : wf_router r -> pool_ok r ps1 -> after_slash r m ->
  (m, (fp, h)) ∈ table r -> mt (toks fp) (trimSlash (RemoveExtraSlash r) p) [] vals -> nonempty vals ->
  no_par (toks fp) \/ ~ ambiguous r m ->
  exists ps, ServeHTTP pp ps1 ps2 m p r = Ok (Serve h ps) /\ default [] ps = vals.
Proof.
  intros Hr Hpool Has Ht Hm Hne Hor. pose proof Ht as (n & t & Hin & _)%table_elem.
  pose proof (treeOf_elem _ _ _ (wr_methods _ Hr) Hin) as Hn. pose proof (table_toks r m n fp h Hr Hn Ht) as He.
  destruct (wf_of_tree r m n Hr Hin) as [Hw Htype].
  destruct (slice_room r m n ps1 Hr Hin Hpool Has) as (k & Hk & Hle).
  assert (Hor' : need n = 0 \/ no_par (toks fp)).
  { destruct Hor as [?|Ha]; [by right|left; by eapply clear_need]. }
  unfold ServeHTTP. rewrite Hn, Hk.
  destruct (getValue_finds k false (trimSlash (RemoveExtraSlash r) p) (getParams pp r) n (toks fp) h fp vals)
    as (v & sk & -> & Hh & _ & Hg); try done; [by intros; eapply getParams_empty|].
  simpl. rewrite Hh. exists (v_params v). split; [done|]. by eapply lookup_params.
Qed.

(** A lookup in a tree without overlaps leaves the skipped nodes empty. *)
Lemma lookup_clear r m n k p : wf_router r -> (m, n) ∈ trees r -> ~ ambiguous r m ->
  exists v, getValue (Some k) false p None [] n = Ok (v, []) /\
    (forall h, v_handler v = Some h -> exists vals, matching r m p h vals) /\
    (forall h vals, matching r m p h vals -> nonempty vals -> is_Some (v_handler v)).
Proof.
  intros Hr Hin Ha. destruct (wf_of_tree r m n Hr Hin) as [Hw Ht].
  pose proof (clear_need r m n Hr Hin Ha) as Hn0.
  destruct (getValue_returns k false p None n) as (v & sk & Hg & Hl); try done; [lia|].
  assert (sk = []) as -> by (apply nil_length_inv; lia). exists v. split_and!; [done| |].
  - intros h Hh. eapply getValue_found in Hg as (t & vals & He & Hm & _); try done.
    pose proof (tree_entry _ _ _ _ _ _ Hr Hin He) as (-> & Ht' & _). exists vals. by exists (v_fullPath v).
  - intros h vals (fp & Ht' & Hm) Hne.
    pose proof (table_toks r m n fp h Hr (treeOf_elem _ _ _ (wr_methods _ Hr) Hin) Ht') as He.
    destruct (getValue_finds k false p None n (toks fp) h fp vals) as (v' & sk' & Hg' & Hh & _);
      try done; [lia|by left|]. rewrite Hg in Hg'. injection Hg' as <- _. by rewrite Hh.
Qed.

(** The methods of the [Allow] header. *)
Lemma allowed_clear r k m p ts : wf_router r -> (forall mn, mn ∈ ts -> mn ∈ trees r) ->
  (forall m', ~ ambiguous r m') ->
  exists l, allowedMethods (Some k) m p ts [] = Ok l /\
    (forall m', m' ∈ l -> m' <> m /\ exists h vals, matching r m' p h vals) /\
    (forall m' n h vals, (m', n) ∈ ts -> m' <> m -> matching r m' p h vals -> nonempty vals -> m' ∈ l).
Proof.
  intros Hr Hsub Ha. induction ts as [|[m' n] ts IH]; simpl.
  { exists []. split_and!; [done|by intros ? ?%not_elem_of_nil|by intros ? ? ? ? ?%not_elem_of_nil]. }
  destruct IH as (l & Hl & Hs & Hc); [set_solver|]. case_decide as Hm.
  { exists l. split_and!; [done|done|]. intros m1 n1 h vals [[= -> ->]|Hin]%elem_of_cons; [done|eauto]. }
  destruct (lookup_clear r m' n k p Hr ltac:(set_solver) (Ha m')) as (v & -> & Hf & Hg). simpl. rewrite Hl. simpl.
  eexists. split; [done|]. destruct (v_handler v) as [h|] eqn:Hh; simpl; split.
  - intros m1 [->|Hin]%elem_of_cons; [|auto]. split; [done|]. exists h. by apply Hf.
  - intros m1 n1 h1 vals [[= -> ->]|Hin]%elem_of_cons ? ? ?; apply elem_of_cons; [by left|right; eauto].
  - done.
  - intros m1 n1 h1 vals [[= -> ->]|Hin]%elem_of_cons ? Hm1 Hne; [|eauto].
    destruct (Hg h1 vals Hm1 Hne). congruence.
Qed.

Lemma slice_some r m n pooled : wf_router r -> (m, n) ∈ trees r -> exists k, getSkippedNodes pooled r = Some k.
Proof.
  intros Hr Hin. pose proof (sections_pos r m n Hr Hin). unfold getSkippedNodes, getSlice.
  destruct pooled; [by eexists|]. rewrite (proj2 (N.ltb_lt _ _)) by done. by eexists.
Qed.

Definition unmatched r (m : method) (p : gostr) : Prop := forall h vals, matching r m p h vals -> ~ nonempty vals.

Lemma unmatched_new r m p : treeOf m (trees r) = None -> unmatched r m p.
Proof.
  intros Hn h vals (fp & (n & t & Hin & _)%table_elem & _). exfalso.
  destruct (treeOf_None m n n _ Hn) as [Hni _]. apply Hni, list_elem_of_fmap. by exists (m, n).
Qed.

(** The answer when the method's tree has no route for the path. *)
Lemma other_answers r pooled m p : wf_router r -> (forall m', ~ ambiguous r m') -> HandleMethodNotAllowed r = true ->
  unmatched r m p -> exists resp, serveOther pooled m p r = Ok resp /\
  match resp with
  | NotAllowed c allow => c = MethodNotAllowed r /\ allow <> [] /\
      (forall m', m' ∈ allow -> m' <> m /\ exists h vals, matching r m' p h vals) /\
      (forall m', m' ∉ allow -> unmatched r m' p)
  | NotFoundResponse c => c = NotFound r /\ forall m', unmatched r m' p
  | _ => False
  end.
Proof.
  intros Hr Ha Hh Hm. unfold serveOther. rewrite Hh. simpl.
  destruct (decide (trees r = [])) as [Hts|Hts].
  { rewrite Hts. simpl. eexists. split; [done|]. split; [done|]. intros m'. apply unmatched_new. by rewrite Hts. }
  assert (Hex : exists m1 n1, (m1, n1) ∈ trees r) by (destruct (trees r) as [|[m1 n1] ts]; [done|exists m1, n1; set_solver]).
  destruct Hex as (m1 & n1 & Hin1). rewrite (proj2 (Nat.ltb_lt _ _)) by (destruct (trees r); [done|simpl; lia]).
  destruct (slice_some r m1 n1 pooled Hr Hin1) as [k ->].
  destruct (allowed_clear r k m p (trees r) Hr ltac:(done) Ha) as (l & -> & Hs & Hc). simpl. eexists. split; [done|].
  assert (Hall : forall m', m' ∉ l -> unmatched r m' p).
  { intros m' Hni h vals Hmt Hne. destruct (decide (m' = m)) as [->|Hd]; [by eapply Hm|].
    pose proof Hmt as (fp & (n & t & Hin & _)%table_elem & _). by eapply Hni, Hc. }
  destruct l as [|x l]; simpl; [|done]. split; [done|]. intros m'. apply Hall. set_solver.
Qed.

(** C7: every request is answered when no two routes of a method part at a parameter and a
    literal byte and the router handles methods that are not allowed: nothing panics; a handler
    runs only for a route of the method that matches; a redirect is only sent when it is
    enabled and no route of the method matches; else the [Allow] header names exactly the other
    methods with a matching route, or the request is not found and no method has one (routes
    match with non-empty values). *)
Theorem serve_answers r pp ps1 ps2 m p : wf_router r -> (forall m', ~ ambiguous r m') -> HandleMethodNotAllowed r = true ->
  let q := trimSlash (RemoveExtraSlash r) p in
  exists resp, ServeHTTP pp ps1 ps2 m p r = Ok resp /\
  match resp with
  | Serve h ps => matching r m q h (default [] ps)
  | Redirect _ _ => RedirectTrailingSlash r = true /\ unmatched r m q
  | NotAllowed c allow => c = MethodNotAllowed r /\ allow <> [] /\
      (forall m', m' ∈ allow -> m' <> m /\ exists h vals, matching r m' q h vals) /\
      (forall m', m' ∉ allow -> unmatched r m' q)
  | NotFoundResponse c => c = NotFound r /\ forall m', unmatched r m' q
  end.
Proof.
  intros Hr Ha Hh q. unfold ServeHTTP. fold q. destruct (treeOf m (trees r)) as [n|] eqn:Hn.
  - pose proof (treeOf_in _ _ _ Hn) as Hin. destruct (wf_of_tree r m n Hr Hin) as [Hw Ht].
    destruct (slice_some r m n ps1 Hr Hin) as [k ->]. pose proof (clear_need r m n Hr Hin (Ha m)) as Hn0.
    destruct (getValue_returns k false q (getParams pp r) n) as (v & sk & Hg & _);
      [done|done|apply getParams_empty|lia|].
    rewrite Hg. simpl. destruct (v_handler v) as [h|] eqn:Hv.
    + eexists. split; [done|]. simpl.
      eapply getValue_found in Hg as (t & vals & He & Hm & Hps); [|done|done|apply getParams_empty|done].
      pose proof (tree_entry _ _ _ _ _ _ Hr Hin He) as (-> & Ht' & _).
      rewrite (lookup_params r m n pp (v_fullPath v) h vals q v) by done. by exists (v_fullPath v).
    + assert (Hun : unmatched r m q).
      { intros h vals (fp & Ht' & Hm) Hne. pose proof (table_toks r m n fp h Hr Hn Ht') as He.
        destruct (getValue_finds k false q (getParams pp r) n (toks fp) h fp vals) as (v' & sk' & Hg' & Hh' & _);
          try done; [apply getParams_empty|lia|by left|]. congruence. }
      destruct (_ && _ && _ && _) eqn:Hred.
      * eexists. split; [done|]. simpl. by apply andb_true_iff in Hred as [_ ?].
      * destruct (other_answers r ps2 m q Hr Ha Hh Hun) as (resp & -> & Hresp).
        exists resp. split; [done|]. by destruct resp.
  - destruct (other_answers r ps2 m q Hr Ha Hh (unmatched_new r m q Hn)) as (resp & -> & Hresp).
    exists resp. split; [done|]. by destruct resp.
Qed.

End table.

(** ** Examples *)

(** Whether two token lists part at a parameter and a literal byte. *)
Fixpoint forks (a b : list tok) : bool :=
  match a, b with
  | Par _ :: _, Lit _ :: _ => true
  | x :: a, y :: b => bool_decide (x = y) && forks a b
  | _, _ => false
  end.
Lemma forks_app t name u b v : forks (t ++ Par name :: u) (t ++ Lit b :: v) = true.
Proof.
  induction t as [|x t IH]; [done|]. simpl. rewrite IH, bool_decide_eq_true_2 by done. by destruct x.
Qed.

Definition ambiguousb {H} (r : Router H) : bool :=
  existsb (fun e1 => existsb (fun e2 => bool_decide (fst e1 = fst e2) && forks (toks (fst (snd e1))) (toks (fst (snd e2))))
    (table r)) (table r).
Lemma ambiguousb_false {H} (r : Router H) : ambiguousb r = false -> forall m, ~ ambiguous r m.
Proof.
  intros Hb m (p1 & h1 & p2 & h2 & t & name & u & b & v & H1 & E1 & H2 & E2).
  assert (ambiguousb r = true) as Ht; [|congruence].
  apply existsb_exists. exists (m, (p1, h1)). split; [by apply list_elem_of_In|].
  apply existsb_exists. exists (m, (p2, h2)). split; [by apply list_elem_of_In|]. simpl.
  rewrite E1, E2, forks_app, bool_decide_eq_true_2 by done. done.
Qed.

(** Registering routes in a new router. *)
Fixpoint handles (rs : list (string * string * nat)) (r : Router nat) : outcome (Router nat) :=
  match rs with
  | [] => Ok r
  | (m, p, h) :: rs =>
    (x <~ Handle (lit m) (lit p) (Some h) r ;;
     match snd x with None => handles rs (fst x) | Some _ => Panic "error" end)%go
  end.
Definition routerOf (rs : list (string * string * nat)) : Router nat :=
  match handles rs New with Ok r => r | Panic _ => New end.

Lemma handles_wf rs : forall r r', wf_router r -> Forall (fun x => path_fits (lit (snd (fst x)))) rs ->
  handles rs r = Ok r' -> wf_router r'.
Proof.
  induction rs as [|[[m p] h] rs IH]; intros r r' Hr Hf; simpl; [by intros [= <-]|].
  apply Forall_cons in Hf as [Hp Hf]. destruct (Handle _ _ _ r) as [[r1 [e|]]|] eqn:Hh; [done| |done].
  simpl. apply IH; [|done]. by apply handle_added in Hh as (? & _).
Qed.

Lemma routerOf_wf rs : Forall (fun x => path_fits (lit (snd (fst x)))) rs -> wf_router (routerOf rs).
Proof.
  intros Hf. unfold routerOf. destruct (handles rs New) as [r|] eqn:Hh; [|apply (proj1 wf_New)].
  exact (handles_wf rs New r (proj1 wf_New) Hf Hh).
Qed.

(** The shortcuts register like [Handle]. *)
Example shortcuts_register : (r <~ GET (lit "/users/:id") (Some 1) New ;; POST (lit "/users") (Some 2) r)%go =
  handles [("GET", "/users/:id", 1); ("POST", "/users", 2)] New /\ GET (lit "users") (Some 1) New = Panic "path must begin with '/'".
Proof. by vm_compute. Qed.

Definition blog : Router nat :=
  routerOf [("GET", "/users/:id", 1); ("GET", "/users/:id/posts", 2); ("GET", "/static/*file", 3);
            ("POST", "/users", 4); ("GET", "/users", 5)].

Lemma blog_wf : wf_router blog.
Proof. apply routerOf_wf. repeat constructor. Qed.

Lemma handle_registers_witness : exists r', Handle (lit "PUT") (lit "/users/:id") (Some 6) blog = Ok (r', None) /\
  table r' ≡ₚ (lit "PUT", (lit "/users/:id", 6)) :: table blog.
Proof.
  pose proof (handle_registers blog (lit "PUT") (lit "/users/:id") (Some 6) blog_wf eq_refl) as Hr.
  destruct (Handle (lit "PUT") (lit "/users/:id") (Some 6) blog) as [[r' e]|] eqn:Hh; [|by vm_compute in Hh].
  assert (e = None) as -> by (vm_compute in Hh; by injection Hh).
  exists r'. split; [done|]. destruct Hr as (_ & _ & _ & h & [= <-] & Ht & _). exact Ht.
Defined.

Lemma serve_sound_witness :
  ServeHTTP None None None (lit "GET") (lit "/users/7/posts") blog = Ok (Serve 2 (Some [mkParam (lit "id") (lit "7")])) /\
  exists vals, matching blog (lit "GET") (lit "/users/7/posts") 2 vals /\ [mkParam (lit "id") (lit "7")] = vals.
Proof.
  assert (Hs : ServeHTTP None None None (lit "GET") (lit "/users/7/posts") blog =
    Ok (Serve 2 (Some [mkParam (lit "id") (lit "7")]))) by (vm_compute; reflexivity).
  split; [exact Hs|].
  exact (serve_sound blog None None None (lit "GET") (lit "/users/7/posts") 2 (Some [mkParam (lit "id") (lit "7")]) blog_wf Hs).
Defined.

(** A router in which literal bytes and a parameter overlap. *)
Definition overlapping : Router nat := routerOf [("GET", "/users/:id", 1); ("GET", "/users/me", 2)].

Lemma serve_finds_witness : after_slash overlapping (lit "GET") /\ (lit "GET", (lit "/users/me", 2)) ∈ table overlapping /\
  exists ps, ServeHTTP None None None (lit "GET") (lit "/users/me") overlapping = Ok (Serve 2 ps) /\ default [] ps = [].
Proof.
  assert (Ht : table overlapping = [(lit "GET", (lit "/users/me", 2)); (lit "GET", (lit "/users/:id", 1))])
    by (vm_compute; reflexivity).
  assert (Ha : after_slash overlapping (lit "GET")).
  { intros p h Hin. rewrite Ht in Hin. apply elem_of_cons in Hin as [[= -> _]|Hin]; [by vm_compute|].
    apply list_elem_of_singleton in Hin as [= -> _]. by vm_compute. }
  assert (Hin : (lit "GET", (lit "/users/me", 2)) ∈ table overlapping) by (rewrite Ht; set_solver).
  split_and!; [exact Ha|exact Hin|].
  apply (serve_finds overlapping None None None (lit "GET") (lit "/users/me") (lit "/users/me") 2 []).
  - apply routerOf_wf. repeat constructor.
  - by intros c.
  - exact Ha.
  - exact Hin.
  - assert (trimSlash (RemoveExtraSlash overlapping) (lit "/users/me") = lit "/users/me" ++ []) as ->
      by (vm_compute; reflexivity).
    apply (mt_lits (lit "/users/me") []).
  - constructor.
  - left. repeat (constructor; [done|]). constructor.
Defined.

Lemma serve_answers_witness : (forall m, ~ ambiguous blog m) /\
  ServeHTTP None None None (lit "POST") (lit "/users/7") blog = Ok (NotAllowed None [lit "GET"]) /\
  exists h vals, matching blog (lit "GET") (lit "/users/7") h vals.
Proof.
  assert (Ha : forall m, ~ ambiguous blog m) by (apply ambiguousb_false; vm_compute; reflexivity).
  assert (Hs : ServeHTTP None None None (lit "POST") (lit "/users/7") blog = Ok (NotAllowed None [lit "GET"]))
    by (vm_compute; reflexivity).
  split_and!; [exact Ha|exact Hs|].
  destruct (serve_answers blog None None None (lit "POST") (lit "/users/7") blog_wf Ha eq_refl) as (resp & Hr & Hresp).
  rewrite Hs in Hr. injection Hr as <-. destruct Hresp as (_ & _ & Hall & _).
  assert (trimSlash (RemoveExtraSlash blog) (lit "/users/7") = lit "/users/7") as Hq by (vm_compute; reflexivity).
  rewrite Hq in Hall. apply (Hall (lit "GET")). by apply list_elem_of_singleton.
Defined.

(** The nodes skipped in one tree stay in the slice for the next: the [Allow] header names POST,
    which has no route for the path. *)
Example allow_names_unregistered :
  let r := routerOf [("GET", "/users/:id", 1); ("GET", "/users/me", 2); ("POST", "/other", 3)] in
  ServeHTTP None None None (lit "DELETE") (lit "/users/me") r = Ok (NotAllowed None [lit "GET"; lit "POST"]) /\
  ServeHTTP None None None (lit "POST") (lit "/users/me") r = Ok (NotAllowed None [lit "GET"]).
Proof. by vm_compute. Qed.

(** The same, with more methods: the slice overflows. *)
Example allow_panics :
  let r := routerOf [("GET", "/users/:id", 1); ("GET", "/users/me", 2); ("POST", "/users/:id", 1); ("POST", "/users/me", 2);
                     ("PUT", "/users/:id", 1); ("PUT", "/users/me", 2)] in
  ServeHTTP None None None (lit "DELETE") (lit "/users/me") r = Panic "slice bounds out of range".
Proof. by vm_compute. Qed.

(** Parameters that do not follow a slash: the slice is too small for the skipped nodes. *)
Example unslashed_panics :
  ServeHTTP None None None (lit "GET") (lit "/abcd")
    (routerOf [("GET", "/a:x", 1); ("GET", "/ab:y", 2); ("GET", "/abc:z", 3)]) = Panic "slice bounds out of range".
Proof. by vm_compute. Qed.

(** The lookup does not roll back out of a parameter: a route that matches is not found. *)
Example overlap_misses_route :
  let r := routerOf [("GET", "/:a/b/c", 1); ("GET", "/s/:y", 2)] in
  ServeHTTP None None None (lit "GET") (lit "/s/b/c") r = Ok (NotFoundResponse None) /\
  matching r (lit "GET") (lit "/s/b/c") 1 [mkParam (lit "a") (lit "s")].
Proof.
  split; [by vm_compute|]. exists (lit "/:a/b/c"). split; [vm_compute; set_solver|].
  change (lit "/s/b/c") with (lit "/" ++ lit "s" ++ lit "/b/c"). constructor. apply mt_par; [by repeat constructor|by right|].
  apply (mt_lits (lit "/b/c") []).
Qed.
