(* ===== verification/PatRouter.v ===== *)
(** * [rest/router/patrouter.go]: the router over the segment search tree

    The router that is built with the tag [gozerorouter]: one search tree ([SearchTree.v]) per
    method, in an array of nine, and paths cleaned with [path.Clean].  A handler is a value of
    the type [H]; a nil handler is one too, since it is stored in an interface value, which
    is not nil then.  The order in which the trees iterate over their maps is the parameter
    [ord] of [SearchTree.v]. *)

From Stdlib Require Import Ascii.
From S2P Require Import Prelude SearchTree CleanPath.
Local Open Scope go_scope.

(** [path.Clean] of the standard library: empty and [.] elements are dropped, [..] removes the
    element before it; at the start of a rooted path it is dropped, else it stays. *)
Definition pushClean (rooted : bool) (stack : list gostr) (e : gostr) : list gostr :=
  if decide (e = [] \/ e = [dot]) then stack
  else if decide (e = [dot; dot]) then
    if bool_decide (last stack = None \/ last stack = Some [dot; dot]) then
      (if rooted then stack else stack ++ [e])
    else removelast stack
  else stack ++ [e].
Definition joinSlash (stack : list gostr) : gostr :=
  match stack with [] => [] | e :: stack => e ++ render stack end.
Definition path_Clean (p : gostr) : gostr :=
  let rooted := bool_decide (head p = Some slash) in
  let out := joinSlash (foldl (pushClean rooted) [] (split_slash p)) in
  if rooted then slash :: out else match out with [] => [dot] | _ => out end.

Definition method := gostr.

(** [methodFromIndex] and [methodIndexOf]; [None] is the index -1. *)
Definition methods : list method :=
  map lit ["GET"; "HEAD"; "POST"; "PUT"; "PATCH"; "DELETE"; "CONNECT"; "OPTIONS"; "TRACE"].
Definition methodFromIndex (index : nat) : method := default [] (methods !! index).
Fixpoint indexIn (m : method) (l : list method) : option nat :=
  match l with
  | [] => None
  | m' :: l => if decide (m = m') then Some 0 else S <$> indexIn m l
  end.
Definition methodIndexOf (m : method) : option nat := indexIn m methods.

Definition validMethod (m : method) : bool :=
  bool_decide (m ∈ map lit ["DELETE"; "GET"; "HEAD"; "OPTIONS"; "PATCH"; "POST"; "PUT"]).

Section router.
Context {H : Type}.

Record patRouter := mkPat { p_trees : list (option (@node H)); notFound : option H; notAllowed : option H }.

Definition NewRouter : patRouter := mkPat (replicate 9 None) None None.
Definition SetNotFoundHandler (h : option H) (pr : patRouter) : patRouter := mkPat (p_trees pr) h (notAllowed pr).
Definition SetNotAllowedHandler (h : option H) (pr : patRouter) : patRouter := mkPat (p_trees pr) (notFound pr) h.

Variant patError := ErrInvalidMethod | ErrInvalidPath | ErrAdd (e : add_error).

Definition Handle (m : method) (reqPath : gostr) (h : H) (pr : patRouter) : outcome (patRouter * option patError) :=
  if negb (validMethod m) then Ok (pr, Some ErrInvalidMethod)
  else match methodIndexOf m with
  | None => Panic "index out of range [-1]"
  | Some i =>
    if bool_decide (head reqPath <> Some slash) then Ok (pr, Some ErrInvalidPath)
    else match p_trees pr !! i with
    | None => Panic "index out of range"
    | Some t =>
      let tree := default (newNode None) t in
      let '(tree, err) := Add tree (path_Clean reqPath) (Some h) in
      Ok (mkPat (<[i := Some tree]> (p_trees pr)) (notFound pr) (notAllowed pr), ErrAdd <$> err)
    end
  end.

(** What a request is answered with; the parameters are set when there are some. *)
Variant answer :=
| Served (h : H) (params : gmap gostr gostr)
| NotAllowed (custom : option H) (allows : list method)
| NotFound (custom : option H).

Section serving.
Context (ord : list (gostr * @node H) -> list (gostr * @node H)).

(** The loop of [methodsAllowed] over the trees from the index [k] on. *)
Fixpoint allowedFrom (k : nat) (idx : option nat) (p : gostr) (ts : list (option (@node H))) : outcome (list method) :=
  match ts with
  | [] => Ok []
  | t :: ts =>
    match t with
    | Some tree =>
      if decide (idx = Some k) then allowedFrom (S k) idx p ts
      else
        res <~ Search_ ord tree p ;;
        ms <~ allowedFrom (S k) idx p ts ;;
        Ok (match res with Some _ => methodFromIndex k :: ms | None => ms end)
    | None => allowedFrom (S k) idx p ts
    end
  end.
Definition methodsAllowed (m : method) (p : gostr) (pr : patRouter) : outcome (option (list method)) :=
  allows <~ allowedFrom 0 (methodIndexOf m) p (p_trees pr) ;;
  Ok (match allows with [] => None | _ => Some allows end).

Definition ServeHTTP (m : method) (reqPath : gostr) (pr : patRouter) : outcome answer :=
  let p := path_Clean reqPath in
  match methodIndexOf m with
  | None => Panic "index out of range [-1]"
  | Some i =>
    match p_trees pr !! i with
    | None => Panic "index out of range"
    | Some t =>
      found <~ (match t with Some tree => Search_ ord tree p | None => Ok None end) ;;
      match found with
      | Some (h, params) => Ok (Served h params)
      | None =>
        allows <~ methodsAllowed m p pr ;;
        Ok (match allows with
            | None => NotFound (notFound pr)
            | Some allows => NotAllowed (notAllowed pr) allows
            end)
      end
    end
  end.
End serving.

(** ** The routes of the router *)

Definition wf_pat (pr : patRouter) : Prop :=
  length (p_trees pr) = 9 /\ Forall (fun t => match t with Some n => wf n | None => True end) (p_trees pr).

(** The pattern [pat] is registered for the method with the index [i]. *)
Definition routed (pr : patRouter) (i : nat) (pat : list gostr) (h : H) : Prop :=
  exists n, p_trees pr !! i = Some (Some n) /\ registered n pat h.
(** A route of the method with the index [i] accepts the request path. *)
Definition segments (p : gostr) : list gostr := split_slash (tail (path_Clean p)).
Definition answered (pr : patRouter) (i : nat) (p : gostr) : Prop :=
  exists pat h, routed pr i pat h /\ accepts pat (segments p).

Lemma clean_rooted p : head p = Some slash -> path_Clean p = slash :: tail (path_Clean p).
Proof. intros Hp. unfold path_Clean. by rewrite bool_decide_eq_true_2. Qed.

Lemma indexIn_lookup m l i : indexIn m l = Some i -> l !! i = Some m.
Proof.
  revert i. induction l as [|m' l IH]; intros i; simpl; [done|]. case_decide as Hm; [by intros [= <-]; subst|].
  intros (j & Hj & ->)%fmap_Some. by apply IH.
Qed.
Lemma index_bound m i : methodIndexOf m = Some i -> i < 9.
Proof. intros Hi%indexIn_lookup%lookup_lt_Some. done. Qed.

Lemma valid_index m : validMethod m = true -> is_Some (methodIndexOf m).
Proof.
  intros Hm%bool_decide_eq_true. assert (Hin : m ∈ methods) by (unfold methods; set_solver). clear Hm.
  unfold methodIndexOf. induction Hin as [m l|m m' l _ IH]; simpl; [by rewrite decide_True|].
  case_decide; [done|]. destruct IH as [i ->]. by eexists.
Qed.

Lemma wf_NewPat : wf_pat NewRouter.
Proof. split; [done|]. repeat constructor. Qed.

(** *** The elements of a request path *)

Definition elements (p : gostr) : list gostr := foldl push [] (split_slash p).

Lemma pushClean_rooted segs : Forall (fun e => slash ∉ e) segs -> forall stack, Forall is_elem stack ->
  foldl (pushClean true) stack segs = foldl push stack segs.
Proof.
  induction 1 as [|e segs He _ IH]; intros stack Hst; [done|]. cbn [foldl].
  assert (Hp : pushClean true stack e = push stack e).
  { unfold pushClean, push. case_decide; [done|]. case_decide; [|done]. case_bool_decide as Hl; [|done].
    destruct stack as [|a st] using rev_ind; [done|]. rewrite last_snoc in Hl.
    apply Forall_app in Hst as [_ Hst]. rewrite Forall_singleton in Hst. destruct Hst as (_ & _ & _ & Hdd).
    destruct Hl as [|[= ->]]; done. }
  rewrite Hp. apply IH. by apply (push_Forall [e]); [apply Forall_singleton|].
Qed.

Lemma elements_ok p : Forall is_elem (elements p).
Proof. apply push_Forall; [apply split_no_slash|constructor]. Qed.

Lemma path_Clean_rooted p : head p = Some slash -> tail (path_Clean p) = joinSlash (elements p).
Proof.
  intros Hp. unfold path_Clean. rewrite bool_decide_eq_true_2 by done. simpl.
  rewrite pushClean_rooted; [done|apply split_no_slash|constructor].
Qed.

Lemma segments_elements p : head p = Some slash ->
  segments p = match elements p with [] => [[]] | es => es end.
Proof.
  intros Hp. unfold segments. rewrite path_Clean_rooted by done. pose proof (elements_ok p) as He.
  pose proof (split_render (elements p) false He) as Hs. rewrite app_nil_r in Hs.
  destruct (elements p) as [|e es]; [done|]. change (render (e :: es)) with (slash :: joinSlash (e :: es)) in Hs.
  rewrite split_cons_slash in Hs. by injection Hs.
Qed.

Lemma pat_elements p : head p = Some slash -> pat_of (tail (path_Clean p)) = elements p.
Proof.
  intros Hp. unfold pat_of. fold (segments p). rewrite segments_elements by done. pose proof (elements_ok p) as He.
  destruct (elements p) as [|e es]; [done|]. revert e He.
  induction es as [|e' es IH]; intros e [He Hes]%Forall_cons; simpl.
  - destruct He as [He _]. by rewrite decide_False.
  - f_equal. by apply IH.
Qed.

(** [Handle] of the tree router keeps its invariant and registers exactly the cleaned
    path for its method: a path that cleans to a registered one is reported as a duplicate and
    changes nothing, doubled slashes are cleaned away and never reported, and unknown methods
    and paths without a leading slash are refused. *)
Theorem pat_handle_registers m p h pr : wf_pat pr ->
  exists pr' e, Handle m p h pr = Ok (pr', e) /\ wf_pat pr' /\
  match e with
  | Some ErrInvalidMethod => pr' = pr /\ validMethod m = false
  | Some ErrInvalidPath => pr' = pr /\ validMethod m = true /\ head p <> Some slash
  | Some (ErrAdd e) => e = errDupItem /\ exists i, methodIndexOf m = Some i /\ (exists h', routed pr i (elements p) h') /\
      forall j pat x, routed pr' j pat x <-> routed pr j pat x
  | None => exists i, methodIndexOf m = Some i /\ (forall h', ~ routed pr i (elements p) h') /\
      forall j pat x, routed pr' j pat x <-> routed pr j pat x \/ (j = i /\ pat = elements p /\ x = h)
  end.
Proof.
  intros [Hlen Hw]. unfold Handle. destruct (validMethod m) eqn:Hv; [|by exists pr, (Some ErrInvalidMethod)].
  destruct (valid_index m Hv) as [i Hi]. rewrite Hi. cbn [negb]. case_bool_decide as Hp; [by exists pr, (Some ErrInvalidPath)|].
  pose proof (index_bound m i Hi) as Hb. destruct (lookup_lt_is_Some_2 (p_trees pr) i ltac:(lia)) as [t Ht]. rewrite Ht.
  assert (Hwt : wf (default (newNode None) t)).
  { destruct t as [n|]; [|apply wf_newNode]. by apply (Forall_lookup_1 _ _ _ _ Hw Ht). }
  assert (Hreg : forall pat x, registered (default (newNode None) t) pat x <-> routed pr i pat x).
  { intros pat x. unfold routed. rewrite Ht. destruct t as [n|]; simpl; [naive_solver|].
    split; [by intros ?%registered_newNode|naive_solver]. }
  rewrite (clean_rooted p Hp). pose proof (Add_spec _ (tail (path_Clean p)) h Hwt) as Ha.
  destruct (Add _ _ _) as [n' err]. destruct Ha as [Hw' Ha]. rewrite pat_elements in Ha by done.
  eexists _, _. split; [done|].
  assert (Hupd : forall j pat x, routed (mkPat (<[i := Some n']> (p_trees pr)) (notFound pr) (notAllowed pr)) j pat x <->
    (j = i /\ registered n' pat x) \/ (j <> i /\ routed pr j pat x)).
  { intros j pat x. unfold routed. simpl. destruct (decide (j = i)) as [->|Hj].
    - rewrite list_lookup_insert_eq by lia. naive_solver.
    - rewrite list_lookup_insert_ne by done. naive_solver. }
  split; [split; simpl; [by rewrite length_insert|by apply Forall_insert]|].
  destruct err as [e|]; simpl.
  - destruct Ha as [He Hsame]. destruct e; try done.
    + destruct He as [_ [h' Hh']]. split; [done|]. exists i. split_and!; [done|exists h'; by apply Hreg|].
      intros j pat x. rewrite Hupd, Hsame, Hreg. destruct (decide (j = i)); naive_solver.
    + exfalso. apply Exists_exists in He as (x & Hx & ->). pose proof (elements_ok p) as Hok.
      rewrite Forall_forall in Hok. by destruct (Hok _ Hx).
  - destruct Ha as (_ & Hnew & Hadd). exists i. split_and!; [done|intros h' ?%Hreg; by eapply Hnew|].
    intros j pat x. rewrite Hupd, Hadd, Hreg. destruct (decide (j = i)); naive_solver.
Qed.

Lemma pat_handle_wf m p h pr pr' e : wf_pat pr -> Handle m p h pr = Ok (pr', e) -> wf_pat pr'.
Proof.
  intros [Hlen Hw]. unfold Handle. destruct (validMethod m); [|by intros [= <- <-]]. cbn [negb].
  destruct (methodIndexOf m) as [i|]; [|done]. case_bool_decide; [by intros [= <- <-]|].
  destruct (p_trees pr !! i) as [t|] eqn:Ht; [|done].
  pose proof (Add_wf (default (newNode None) t) (path_Clean p) (Some h)) as Ha.
  destruct (Add _ _ _) as [n' err]. intros [= <- _]. split; simpl; [by rewrite length_insert|].
  apply Forall_insert; [done|]. apply Ha. destruct t as [n|]; [|apply wf_newNode].
  by apply (Forall_lookup_1 _ _ _ _ Hw Ht).
Qed.

(** *** Serving *)

Section serve.
Context (ord : list (gostr * @node H) -> list (gostr * @node H)) (ord_perm : forall l, ord l ≡ₚ l).

(** A tree of the list accepts the segments. *)
Definition accepted (ts : list (option (@node H))) (j : nat) (segs : list gostr) : Prop :=
  exists n pat h, ts !! j = Some (Some n) /\ registered n pat h /\ accepts pat segs.

Lemma allowedFrom_spec idx p segs ts : forall k,
  Forall (fun t => match t with Some n => wf n | None => True end) ts -> p = slash :: tail p -> segs = split_slash (tail p) ->
  exists l, allowedFrom ord k idx p ts = Ok l /\
    forall m, m ∈ l <-> exists j, idx <> Some (k + j) /\ accepted ts j segs /\ m = methodFromIndex (k + j).
Proof.
  induction ts as [|t ts IH]; intros k Hw Hp Hs.
  { exists []. split; [done|]. intros m. split; [by intros ?%not_elem_of_nil|]. intros (j & _ & (n & ? & ? & Hn & _) & _). done. }
  apply Forall_cons in Hw as [Ht Hw]. destruct (IH (S k) Hw Hp Hs) as (l & Hl & Hin). clear IH.
  assert (Hrest : forall m, m ∈ l <-> exists j, idx <> Some (k + S j) /\ accepted (t :: ts) (S j) segs /\ m = methodFromIndex (k + S j)).
  { intros m. rewrite Hin. by setoid_rewrite Nat.add_succ_r. }
  clear Hin. cbn [allowedFrom]. destruct t as [n|].
  - case_decide as Hi.
    + exists l. split; [done|]. intros m. rewrite Hrest. split; [intros (j & ?); by exists (S j)|].
      intros ([|j] & Hj & Ha); [by rewrite Nat.add_0_r in Hj|by exists j].
    + destruct (Search_spec ord n (tail p) ord_perm Ht) as (res & Hr & Hans). rewrite <- Hp in Hr. rewrite Hr, Hl. simpl.
      rewrite <- Hs in Hans. eexists. split; [done|]. intros m. destruct res as [[it ps]|].
      * destruct Hans as (pat & Hreg & Hacc & _). rewrite elem_of_cons, Hrest. split.
        -- intros [->|(j & ?)]; [exists 0|by exists (S j)]. rewrite Nat.add_0_r. split_and!; [done|by exists n, pat, it|done].
        -- intros ([|j] & Hj & Ha & ->); [left; by rewrite Nat.add_0_r|right; by exists j].
      * rewrite Hrest. split; [intros (j & ?); by exists (S j)|]. intros ([|j] & Hj & Ha & ->); [|by exists j].
        destruct Ha as (n' & pat & h & [= <-] & Hreg & Hacc). exfalso. by eapply Hans.
  - exists l. split; [done|]. intros m. rewrite Hrest. split; [intros (j & ?); by exists (S j)|].
    intros ([|j] & Hj & Ha & ->); [|by exists j]. by destruct Ha as (n' & ? & ? & [=] & _).
Qed.

Lemma accepted_answered pr j p : accepted (p_trees pr) j (segments p) <-> answered pr j p.
Proof. unfold accepted, answered, routed. naive_solver. Qed.

(** The tree router serves a rooted path of a known method for any iteration order of the
    maps: a handler runs exactly when one of the method's routes accepts the cleaned path, with
    the parameters the route binds; else the answer lists exactly the other methods with such a
    route, and the request is not found when there is none.  A method that is not one of the
    nine makes it panic. *)
Theorem pat_serve_answers m p pr : wf_pat pr -> head p = Some slash ->
  match methodIndexOf m with
  | None => ServeHTTP ord m p pr = Panic "index out of range [-1]"
  | Some i => exists a, ServeHTTP ord m p pr = Ok a /\
    match a with
    | Served h ps => exists pat, routed pr i pat h /\ accepts pat (segments p) /\ ps = bindings pat (segments p)
    | NotAllowed c allows => c = notAllowed pr /\ ~ answered pr i p /\ allows <> [] /\
        forall m', m' ∈ allows <-> exists j, j <> i /\ answered pr j p /\ m' = methodFromIndex j
    | NotFound c => c = notFound pr /\ forall j, ~ answered pr j p
    end
  end.
Proof.
  intros [Hlen Hw] Hp. unfold ServeHTTP. destruct (methodIndexOf m) as [i|] eqn:Hi; [|done].
  pose proof (index_bound m i Hi) as Hb. destruct (lookup_lt_is_Some_2 (p_trees pr) i ltac:(lia)) as [t Ht]. rewrite Ht.
  assert (Hfound : exists res, match t with Some tree => Search_ ord tree (path_Clean p) | None => Ok None end = Ok res /\
    match res with
    | Some (h, ps) => exists pat, routed pr i pat h /\ accepts pat (segments p) /\ ps = bindings pat (segments p)
    | None => ~ answered pr i p
    end).
  { destruct t as [n|]; [|exists None; split; [done|]; intros (? & ? & (n & Hn & _) & _); rewrite Ht in Hn; done].
    destruct (Search_spec ord n (tail (path_Clean p)) ord_perm) as (res & Hr & Hans).
    { by apply (Forall_lookup_1 _ _ _ _ Hw Ht). }
    rewrite <- clean_rooted in Hr by done. exists res. split; [done|]. destruct res as [[h ps]|].
    - destruct Hans as (pat & Hreg & ? & ?). exists pat. split_and!; [by exists n|done|done].
    - intros (pat & h & (n' & Hn' & Hreg) & Hacc). rewrite Ht in Hn'. injection Hn' as <-. by eapply Hans. }
  destruct Hfound as (res & -> & Hres). simpl. destruct res as [[h ps]|]; [by eexists|].
  unfold methodsAllowed. rewrite Hi.
  destruct (allowedFrom_spec (Some i) (path_Clean p) (segments p) (p_trees pr) 0 Hw (clean_rooted p Hp) eq_refl)
    as (l & -> & Hl). simpl. eexists. split; [done|].
  destruct l as [|x l]; simpl.
  - split; [done|]. intros j Hj. destruct (decide (j = i)) as [->|Hji]; [done|].
    apply (not_elem_of_nil (methodFromIndex j)). apply Hl. exists j. split_and!; [simpl; congruence|by apply accepted_answered|done].
  - split_and!; [done|done|done|]. intros m'. rewrite Hl. setoid_rewrite accepted_answered. simpl. split.
    + intros (j & Hj & ? & ?). exists j. split; [congruence|done].
    + intros (j & Hj & ? & ?). exists j. split; [congruence|done].
Qed.

End serve.
End router.
Arguments patRouter : clear implicits.

Definition sample_pat : patRouter nat :=
  match (x <~ Handle (lit "GET") (lit "/api//users/:id") 1 NewRouter ;;
         Handle (lit "POST") (lit "/api/./users") 2 (fst x)) with
  | Ok x => fst x
  | Panic _ => NewRouter
  end.

Lemma pat_handle_registers_witness : exists pr', Handle (lit "GET") (lit "/api//users/:id") 1 NewRouter = Ok (pr', None) /\
  forall h', routed pr' 0 (map lit ["api"; "users"; ":id"]) h' <-> h' = 1.
Proof.
  destruct (pat_handle_registers (lit "GET") (lit "/api//users/:id") 1 NewRouter wf_NewPat) as (pr' & e & Hh & _ & He).
  assert (e = None) as -> by (vm_compute in Hh; by injection Hh). destruct He as (i & Hi & _ & Hall).
  vm_compute in Hi. injection Hi as <-. exists pr'. split; [done|]. intros h'. rewrite Hall.
  assert (elements (lit "/api//users/:id") = map lit ["api"; "users"; ":id"]) as -> by (vm_compute; reflexivity).
  split; [|by intros ->; right]. intros [(n & Hn & _)|(_ & _ & ?)]; [done|done].
Defined.

Lemma sample_pat_wf : wf_pat sample_pat.
Proof.
  unfold sample_pat. destruct (Handle _ (lit "/api//users/:id") 1 NewRouter) as [[pr e]|] eqn:H1; [|apply wf_NewPat].
  cbn [obind fst]. destruct (Handle _ (lit "/api/./users") 2 pr) as [[pr' e']|] eqn:H2; [|apply wf_NewPat].
  apply pat_handle_wf in H1; [|apply wf_NewPat]. by apply pat_handle_wf in H2.
Qed.

Lemma pat_serve_answers_witness : wf_pat sample_pat /\ head (lit "/api/users/7/") = Some slash /\
  exists pat, routed sample_pat 0 pat 1 /\ accepts pat (segments (lit "/api/users/7/")).
Proof.
  split_and!; [apply sample_pat_wf|done|].
  destruct (pat_serve_answers (fun l => l) (fun l => reflexivity l) (lit "GET") (lit "/api/users/7/") sample_pat)
    as (a & Ha & Hans); [apply sample_pat_wf|done|].
  vm_compute in Ha. injection Ha as <-. destruct Hans as (pat & Hr & Hacc & _). by exists pat.
Defined.

(** A registered route, a route of another method and an unknown method. *)
Example pat_requests :
  ServeHTTP (fun l => l) (lit "GET") (lit "/api/users/7/") sample_pat = Ok (Served 1 {[ lit "id" := lit "7" ]}) /\
  ServeHTTP (fun l => l) (lit "DELETE") (lit "/api/users") sample_pat = Ok (NotAllowed None [lit "POST"]) /\
  ServeHTTP (fun l => l) (lit "PURGE") (lit "/api/users") sample_pat = Panic "index out of range [-1]".
Proof. by vm_compute. Qed.
