(* ===== verification/Executors.v ===== *)
(** * [core/executors]: executors that batch tasks

    [PeriodicalExecutor] is a set of goroutines around a container of tasks: callers of [Add],
    [Flush] and [Wait], and one that flushes in the background.  A goroutine is a [thread]: where
    it is in its function and the tasks in its hand.  The shared state ([shared]) has the
    container (behind the mutex), the channel [commander] of capacity one, the counter [inflight],
    the flag [guarded], the wait group's counter and whether the barrier around it is taken.
    One constructor of [act] is one critical section or one channel operation of one thread; the
    rendezvous on [confirmChan] is a step of two threads.  What the clock says in [shallQuit] is
    not determined: a background goroutine may stay or, when nothing is in flight, quit.

    [t_added] and [t_executed] record what was added and what was handed to [Execute], in
    batches; a waiter remembers what was added when it took the container.

    The container is known through the class [TaskContainer]; [bulkContainer] and
    [chunkContainer] are the instances.  [DelayExecutor] and [LessExecutor] are at the end. *)

From S2P Require Import Prelude.

(** ** Containers *)

(** A container of tasks [T] that keeps values [V]. *)
Class TaskContainer (T V C : Type) := {
  AddTask : T -> C -> C * bool;
  RemoveAll : C -> list V * C;
  held : C -> list V;
  value_of : T -> V;
  (** between two calls, and what a batch looks like *)
  container_ok : C -> Prop;
  batch_ok : list V -> Prop
}.

Class TaskContainerLaws T V C `{TaskContainer T V C} := {
  held_add : forall t c, held (fst (AddTask t c)) = held c ++ [value_of t];
  remove_all : forall c, fst (RemoveAll c) = held c;
  held_removed : forall c, held (snd (RemoveAll c)) = [];
  ok_add : forall t c, container_ok c -> snd (AddTask t c) = false -> container_ok (fst (AddTask t c));
  ok_full : forall t c, container_ok c -> batch_ok (held (fst (AddTask t c))) /\
              container_ok (snd (RemoveAll (fst (AddTask t c))));
  ok_removed : forall c, container_ok c -> container_ok (snd (RemoveAll c));
  ok_batch : forall c, container_ok c -> batch_ok (held c)
}.

Section containers.
Context {V : Type}.

Record bulkContainer := mkBulk { b_tasks : list V; maxTasks : nat }.
Definition bulk_AddTask (t : V) (bc : bulkContainer) : bulkContainer * bool :=
  let tasks := b_tasks bc ++ [t] in
  (mkBulk tasks (maxTasks bc), maxTasks bc <=? length tasks).
Definition bulk_RemoveAll (bc : bulkContainer) : list V * bulkContainer :=
  (b_tasks bc, mkBulk [] (maxTasks bc)).

Record chunk := mkChunk { c_val : V; c_size : Z }.
Record chunkContainer := mkChunks { c_tasks : list V; c_total : Z; maxChunkSize : Z }.
Definition chunk_AddTask (ck : chunk) (bc : chunkContainer) : chunkContainer * bool :=
  let size := (c_total bc + c_size ck)%Z in
  (mkChunks (c_tasks bc ++ [c_val ck]) size (maxChunkSize bc), (maxChunkSize bc <=? size)%Z).
Definition chunk_RemoveAll (bc : chunkContainer) : list V * chunkContainer :=
  (c_tasks bc, mkChunks [] 0 (maxChunkSize bc)).
End containers.
Arguments bulkContainer : clear implicits.
Arguments chunkContainer : clear implicits.
Arguments chunk : clear implicits.

(** A bulk container of limit [m] holds less than [m] tasks between two calls, and its batches
    have at most [m] (a limit below one counts as one). *)
#[export] Instance bulk_container V (m : nat) : TaskContainer V V (bulkContainer V) := {
  AddTask := bulk_AddTask;
  RemoveAll := bulk_RemoveAll;
  held := b_tasks;
  value_of := id;
  container_ok c := maxTasks c = m /\ length (b_tasks c) < Nat.max 1 m;
  batch_ok b := length b <= Nat.max 1 m
}.

#[export] Instance bulk_laws V m : @TaskContainerLaws V V (bulkContainer V) (bulk_container V m).
Proof.
  split; simpl; try done.
  - intros t c [Hm Hl] Hf. rewrite length_app in *. simpl in *. apply Nat.leb_gt in Hf. split; [done|]. lia.
  - intros t c [Hm Hl]. rewrite length_app. simpl. split_and!; [lia|done|lia].
  - intros c [Hm _]. split; [done|lia].
  - intros c [_ Hl]. lia.
Qed.

#[export] Instance chunk_container V : TaskContainer (chunk V) V (chunkContainer V) := {
  AddTask := chunk_AddTask;
  RemoveAll := chunk_RemoveAll;
  held := c_tasks;
  value_of := c_val;
  container_ok _ := True;
  batch_ok _ := True
}.
#[export] Instance chunk_laws V : TaskContainerLaws (chunk V) V (chunkContainer V).
Proof. by split. Qed.

(** ** The periodical executor *)

Section executor.
Context {T V C : Type} `{TaskContainer T V C}.

(** Who calls [Flush]. *)
Variant flusher := Caller | Waiter | Ticker | Final.

Inductive thread :=
(* [Add]: before [addAndCheck]; before the send on [commander]; before the receive from [confirmChan] *)
| Adding (t : T)
| Sending (b : list V)
| Confirming
(* [Flush]: before [enterExecution]; before [RemoveAll]; in [executeTasks] *)
| Flushing (who : flusher)
| Removing (who : flusher)
| Executing (who : flusher) (seen : list V) (b : list V)
(* [Wait] after its [Flush]: before the barrier; in [waitGroup.Wait] *)
| Waiting (seen : list V)
| WaitingGroup (seen : list V)
(* [backgroundFlush]: at the [select]; after a receive; before the confirmation; executing the
   received tasks; in [shallQuit] *)
| BgSelect (commanded : bool)
| BgGot (b : list V)
| BgConfirming (b : list V)
| BgExecuting (b : list V)
| BgIdle.

Record shared := mkShared {
  t_container : C;
  t_commander : option (list V);
  t_inflight : Z;
  t_guarded : bool;
  t_group : nat;
  t_barrier : bool;
  t_added : list V;
  t_executed : list (list V)
}.

(** The updates of the shared state. *)
Definition with_group (f : nat -> nat) (s : shared) : shared :=
  mkShared (t_container s) (t_commander s) (t_inflight s) (t_guarded s) (f (t_group s)) (t_barrier s)
    (t_added s) (t_executed s).
Definition with_barrier (b : bool) (s : shared) : shared :=
  mkShared (t_container s) (t_commander s) (t_inflight s) (t_guarded s) (t_group s) b (t_added s) (t_executed s).
Definition with_container (c : C) (s : shared) : shared :=
  mkShared c (t_commander s) (t_inflight s) (t_guarded s) (t_group s) (t_barrier s) (t_added s) (t_executed s).

(** [addAndCheck]: the tasks to hand over, if the container is full, and the goroutine it
    starts when there is none. *)
Definition addAndCheck (t : T) (s : shared) : shared * list thread :=
  let '(c, full) := AddTask t (t_container s) in
  let spawned := if t_guarded s then [] else [BgSelect false] in
  let added := t_added s ++ [value_of t] in
  if full then
    let '(vals, c) := RemoveAll c in
    (mkShared c (t_commander s) (t_inflight s + 1) true (t_group s) (t_barrier s) added (t_executed s),
     Sending vals :: spawned)
  else
    (mkShared c (t_commander s) (t_inflight s) true (t_group s) (t_barrier s) added (t_executed s), spawned).

(** [executeTasks] and what its caller does next. *)
Definition hasTasks (b : list V) : bool := negb (length b =? 0).
Definition executeTasks (b : list V) (s : shared) : shared :=
  mkShared (t_container s) (t_commander s) (t_inflight s) (t_guarded s) (t_group s - 1) (t_barrier s) (t_added s)
    (if hasTasks b then t_executed s ++ [b] else t_executed s).
Definition flushed (who : flusher) (seen b : list V) : list thread :=
  match who with
  | Caller | Final => []
  | Waiter => [Waiting seen]
  | Ticker => if hasTasks b then [BgSelect false] else [BgIdle]
  end.

(** One step of one thread. *)
Inductive act (s : shared) : thread -> shared -> list thread -> Prop :=
| act_add t : act s (Adding t) (fst (addAndCheck t s)) (snd (addAndCheck t s))
| act_send b : t_commander s = None ->
    act s (Sending b)
      (mkShared (t_container s) (Some b) (t_inflight s) (t_guarded s) (t_group s) (t_barrier s) (t_added s) (t_executed s))
      [Confirming]
| act_enter who : t_barrier s = false -> act s (Flushing who) (with_group S s) [Removing who]
| act_remove who :
    act s (Removing who) (with_container (snd (RemoveAll (t_container s))) s)
      [Executing who (t_added s) (fst (RemoveAll (t_container s)))]
| act_execute who seen b : act s (Executing who seen b) (executeTasks b s) (flushed who seen b)
| act_wait seen : t_barrier s = false -> act s (Waiting seen) (with_barrier true s) [WaitingGroup seen]
| act_waited seen : t_group s = 0 -> act s (WaitingGroup seen) (with_barrier false s) []
| act_receive cm b : t_commander s = Some b ->
    act s (BgSelect cm)
      (mkShared (t_container s) None (t_inflight s - 1) (t_guarded s) (t_group s) (t_barrier s) (t_added s) (t_executed s))
      [BgGot b]
| act_bg_enter b : t_barrier s = false -> act s (BgGot b) (with_group S s) [BgConfirming b]
| act_bg_execute b : act s (BgExecuting b) (executeTasks b s) [BgSelect true]
| act_stay : act s BgIdle s [BgSelect false]
| act_quit : t_inflight s = 0%Z ->
    act s BgIdle
      (mkShared (t_container s) (t_commander s) (t_inflight s) false (t_group s) (t_barrier s) (t_added s) (t_executed s))
      [Flushing Final].

Definition state : Type := shared * list thread.

(** The steps that need no tick and no new call. *)
Inductive istep : state -> state -> Prop :=
| istep_act s s' l1 th l2 ths : act s th s' ths -> istep (s, l1 ++ th :: l2) (s', l1 ++ ths ++ l2)
| istep_confirm s l1 l2 b ths : ths ≡ₚ Confirming :: BgConfirming b :: l1 ++ l2 ->
    istep (s, ths) (s, l1 ++ BgExecuting b :: l2).

(** Calls and ticks. *)
Inductive step : state -> state -> Prop :=
| step_internal x y : istep x y -> step x y
| step_Add s ths t : step (s, ths) (s, ths ++ [Adding t])
| step_Flush s ths : step (s, ths) (s, ths ++ [Flushing Caller])
| step_Wait s ths : step (s, ths) (s, ths ++ [Flushing Waiter])
| step_tick s l1 commanded l2 :
    step (s, l1 ++ BgSelect commanded :: l2)
         (s, l1 ++ (if commanded then BgSelect false else Flushing Ticker) :: l2).

Definition NewPeriodicalExecutor (c : C) : state := (mkShared c None 0 false 0 false [] [], []).

(** ** The invariant *)

Context `{!TaskContainerLaws T V C}.
Implicit Types (s : shared) (th : thread) (ths : list thread).

(** The tasks in the hand of a thread, and whether they are counted by the wait group. *)
Definition hand th : list V :=
  match th with
  | Sending b | Executing _ _ b | BgGot b | BgConfirming b | BgExecuting b => b
  | _ => []
  end.
Definition hand_ok th : Prop :=
  match th with
  | Sending b | Executing _ _ b | BgGot b | BgConfirming b | BgExecuting b => batch_ok b
  | _ => True
  end.
Definition handing th : list V := match th with Sending b | BgGot b => b | _ => [] end.
Definition hands ths : list V := concat (map hand ths).
Definition handovers ths : list V := concat (map handing ths).

(** Counting threads. *)
Definition cnt (f : thread -> nat) ths : nat := sum_list (map f ths).
Definition sending th : nat := match th with Sending _ => 1 | _ => 0 end.
Definition confirming th : nat := match th with Confirming => 1 | _ => 0 end.
Definition unconfirmed th : nat := match th with BgGot _ | BgConfirming _ => 1 | _ => 0 end.
Definition counted th : nat :=
  match th with Removing _ | Executing _ _ _ | BgConfirming _ | BgExecuting _ => 1 | _ => 0 end.
Definition background th : nat :=
  match th with
  | BgSelect _ | BgGot _ | BgConfirming _ | BgExecuting _ | BgIdle
  | Flushing Ticker | Removing Ticker | Executing Ticker _ _ => 1
  | _ => 0
  end.
Definition grouping th : nat := match th with WaitingGroup _ => 1 | _ => 0 end.
Definition quitting th : nat := match th with Flushing Final | Removing Final => 1 | _ => 0 end.
Definition full (o : option (list V)) : nat := match o with Some _ => 1 | None => 0 end.

(** What a waiter saw was all added, and is no longer in the container. *)
Definition seen_ok s th : Prop :=
  match th with
  | Executing Waiter seen _ | Waiting seen | WaitingGroup seen =>
    seen `prefix_of` t_added s /\ length seen + length (held (t_container s)) <= length (t_added s)
  | _ => True
  end.

Record einv (x : state) : Prop := {
  ei_tasks : t_added (fst x) ≡ₚ concat (t_executed (fst x)) ++ held (t_container (fst x)) ++
               default [] (t_commander (fst x)) ++ hands (snd x);
  ei_suffix : held (t_container (fst x)) `suffix_of` t_added (fst x);
  ei_seen : Forall (seen_ok (fst x)) (snd x);
  ei_inflight : t_inflight (fst x) = Z.of_nat (cnt sending (snd x) + full (t_commander (fst x)));
  ei_confirm : cnt confirming (snd x) = full (t_commander (fst x)) + cnt unconfirmed (snd x);
  ei_group : t_group (fst x) = cnt counted (snd x);
  ei_guarded : cnt background (snd x) = if t_guarded (fst x) then 1 else 0;
  ei_barrier : cnt grouping (snd x) = if t_barrier (fst x) then 1 else 0;
  ei_alive : t_inflight (fst x) <> 0%Z -> t_guarded (fst x) = true;
  ei_flushed : held (t_container (fst x)) <> [] -> t_guarded (fst x) = true \/ 0 < cnt quitting (snd x);
  ei_container : container_ok (t_container (fst x));
  ei_batches : Forall batch_ok (t_executed (fst x)) /\ (forall b, t_commander (fst x) = Some b -> batch_ok b) /\
               Forall hand_ok (snd x)
}.

Lemma cnt_app f l1 l2 : cnt f (l1 ++ l2) = cnt f l1 + cnt f l2.
Proof. unfold cnt. rewrite map_app. apply sum_list_with_app. Qed.
Lemma cnt_cons f th l : cnt f (th :: l) = f th + cnt f l.
Proof. done. Qed.
Lemma cnt_nil f : cnt f [] = 0.
Proof. done. Qed.
Lemma hands_app l1 l2 : hands (l1 ++ l2) = hands l1 ++ hands l2.
Proof. unfold hands. by rewrite map_app, concat_app. Qed.

Lemma addAndCheck_eq t s : addAndCheck t s =
  let c := fst (AddTask t (t_container s)) in
  let spawned := if t_guarded s then [] else [BgSelect false] in
  if snd (AddTask t (t_container s)) then
    (mkShared (snd (RemoveAll c)) (t_commander s) (t_inflight s + 1) true (t_group s) (t_barrier s)
       (t_added s ++ [value_of t]) (t_executed s), Sending (fst (RemoveAll c)) :: spawned)
  else
    (mkShared c (t_commander s) (t_inflight s) true (t_group s) (t_barrier s)
       (t_added s ++ [value_of t]) (t_executed s), spawned).
Proof.
  unfold addAndCheck. destruct (AddTask t (t_container s)) as [c fl]. simpl. destruct fl; [|done].
  by destruct (RemoveAll c).
Qed.

Lemma executed_concat b (ex : list (list V)) : concat (if hasTasks b then ex ++ [b] else ex) = concat ex ++ b.
Proof.
  unfold hasTasks. destruct b as [|v b]; simpl; [by rewrite app_nil_r|]. rewrite concat_app. simpl. by rewrite app_nil_r.
Qed.

(** The threads around the one that steps. *)
Ltac act_cases Hact :=
  destruct Hact;
  repeat match goal with
  | |- context [addAndCheck ?t ?s] => rewrite (addAndCheck_eq t s); cbv zeta; destruct (snd (AddTask t (t_container s))) eqn:?
  | |- context [if t_guarded ?s then _ else _] => destruct (t_guarded s) eqn:?
  | who : flusher |- _ => destruct who
  | |- context [flushed Ticker _ ?b] => unfold flushed; destruct (hasTasks b) eqn:?
  end; simpl in *; rewrite ?app_nil_r in *.

Ltac counts := simpl in *; rewrite ?cnt_app, ?cnt_cons, ?cnt_app, ?cnt_cons in *; simpl in *.

Lemma act_counts s th s' ths l1 l2 : act s th s' ths -> einv (s, l1 ++ th :: l2) ->
  t_inflight s' = Z.of_nat (cnt sending (l1 ++ ths ++ l2) + full (t_commander s')) /\
  cnt confirming (l1 ++ ths ++ l2) = full (t_commander s') + cnt unconfirmed (l1 ++ ths ++ l2) /\
  t_group s' = cnt counted (l1 ++ ths ++ l2) /\
  cnt background (l1 ++ ths ++ l2) = (if t_guarded s' then 1 else 0) /\
  cnt grouping (l1 ++ ths ++ l2) = (if t_barrier s' then 1 else 0) /\
  (t_inflight s' <> 0%Z -> t_guarded s' = true).
Proof.
  intros Hact [_ _ _ Hi Hc Hg Hb Hgr Ha _ _ _]. simpl in *.
  act_cases Hact; counts; split_and!;
    destruct (t_guarded s) eqn:?, (t_barrier s) eqn:?, (t_commander s) eqn:?; simpl in *; try discriminate; try done;
    intros; try lia; exfalso; lia.
Qed.

Lemma act_tasks s th s' ths l1 l2 : act s th s' ths -> einv (s, l1 ++ th :: l2) ->
  t_added s' ≡ₚ concat (t_executed s') ++ held (t_container s') ++ default [] (t_commander s') ++ hands (l1 ++ ths ++ l2) /\
  held (t_container s') `suffix_of` t_added s'.
Proof.
  intros Hact [Ht Hs _ _ _ _ _ _ _ _ _ _]. simpl in *. rewrite hands_app in Ht. change (hands (th :: l2)) with (hand th ++ hands l2) in Ht.
  rewrite !hands_app.
  act_cases Hact; rewrite ?remove_all, ?held_removed, ?held_add; unfold hands in *; simpl;
    repeat match goal with Hc : t_commander ?s = _ |- _ => rewrite Hc in *; clear Hc end; simpl in *;
    rewrite ?app_nil_r, ?executed_concat; (split; [rewrite Ht; solve_Permutation|]); try done; try apply suffix_nil.
  all: destruct Hs as [k ->]; exists k; by rewrite app_assoc.
Qed.

Lemma seen_mono s s' th : t_added s `prefix_of` t_added s' ->
  length (t_added s) + length (held (t_container s')) <= length (t_added s') + length (held (t_container s)) ->
  seen_ok s th -> seen_ok s' th.
Proof.
  intros Hp Hl. destruct th as [| | | | |[]| | | | | | |]; simpl; try done; intros [? ?]; (split; [by etrans|lia]).
Qed.

Lemma act_seen s th s' ths l1 l2 : act s th s' ths -> einv (s, l1 ++ th :: l2) ->
  Forall (seen_ok s') (l1 ++ ths ++ l2).
Proof.
  intros Hact [_ _ Hs _ _ _ _ _ _ _ _ _]. simpl in *. rewrite Forall_app, Forall_cons in Hs. destruct Hs as (H1 & Hth & H2).
  assert (Hm : t_added s `prefix_of` t_added s' /\
    length (t_added s) + length (held (t_container s')) <= length (t_added s') + length (held (t_container s))).
  { act_cases Hact; rewrite ?held_removed, ?held_add, ?length_app; simpl; (split; [|lia]); done || by apply prefix_app_r. }
  destruct Hm as [Hp Hl].
  assert (Hmono : forall l, Forall (seen_ok s) l -> Forall (seen_ok s') l).
  { intros l Hf. eapply Forall_impl; [exact Hf|]. intros x. by apply seen_mono. }
  rewrite !Forall_app. split_and!; [by apply Hmono| |by apply Hmono]. clear H1 H2 Hmono.
  act_cases Hact; repeat constructor; simpl in *; rewrite ?held_removed; simpl; try tauto; try lia.
Qed.

Lemma act_kept s th s' ths l1 l2 : act s th s' ths -> einv (s, l1 ++ th :: l2) ->
  (held (t_container s') <> [] -> t_guarded s' = true \/ 0 < cnt quitting (l1 ++ ths ++ l2)) /\
  container_ok (t_container s') /\
  Forall batch_ok (t_executed s') /\ (forall b, t_commander s' = Some b -> batch_ok b) /\
  Forall hand_ok (l1 ++ ths ++ l2).
Proof.
  intros Hact [_ _ _ _ _ _ _ _ _ Hf Hc (He & Hcm & Hh)]. simpl in *. rewrite !Forall_app, Forall_cons in *.
  destruct Hh as (H1 & Hth & H2).
  split_and!; try done.
  - act_cases Hact; rewrite ?held_removed; counts; try done; try tauto; intros Hn; auto;
      destruct (Hf Hn); auto; right; lia.
  - act_cases Hact; first [done|by apply ok_full|by apply ok_add|by apply ok_removed].
  - act_cases Hact; try done; try destruct (hasTasks _); try done; apply Forall_app; by split; [|apply Forall_singleton].
  - act_cases Hact; try done. by intros b' [= <-].
  - act_cases Hact; repeat constructor; simpl; rewrite ?remove_all; auto; by apply ok_full || by apply ok_batch.
Qed.

Lemma act_einv s th s' ths l1 l2 : act s th s' ths -> einv (s, l1 ++ th :: l2) -> einv (s', l1 ++ ths ++ l2).
Proof.
  intros Hact Hi. destruct (act_counts _ _ _ _ _ _ Hact Hi) as (? & ? & ? & ? & ? & ?).
  destruct (act_tasks _ _ _ _ _ _ Hact Hi) as [? ?]. destruct (act_kept _ _ _ _ _ _ Hact Hi) as (? & ? & ?).
  split; try done. by apply (act_seen _ _ _ _ _ _ Hact Hi).
Qed.

(** Threads may be reordered. *)
Lemma cnt_perm f ths ths' : ths ≡ₚ ths' -> cnt f ths = cnt f ths'.
Proof. unfold cnt. induction 1; simpl; lia. Qed.
Lemma hands_perm ths ths' : ths ≡ₚ ths' -> hands ths ≡ₚ hands ths'.
Proof. unfold hands. induction 1; simpl; [done|by f_equiv|by rewrite !app_assoc, (Permutation_app_comm (hand y))|by etrans]. Qed.

Lemma einv_perm s ths ths' : ths ≡ₚ ths' -> einv (s, ths) -> einv (s, ths').
Proof.
  intros Hp [Ht Hs Hse Hi Hc Hg Hb Hgr Ha Hf Hco (He & Hcm & Hh)]. simpl in *.
  rewrite !(cnt_perm _ _ _ Hp) in *. split; simpl; try done.
  - by rewrite <- (hands_perm _ _ Hp).
  - by rewrite <- Hp.
  - split_and!; try done. by rewrite <- Hp.
Qed.

(** A new thread that holds nothing and is not counted. *)
Lemma einv_call s ths th : hand th = [] -> seen_ok s th -> hand_ok th ->
  sending th + confirming th + unconfirmed th + counted th + background th + grouping th = 0 ->
  einv (s, ths) -> einv (s, ths ++ [th]).
Proof.
  intros Hh Hse0 Hok Hz [Ht Hs Hse Hi Hc Hg Hb Hgr Ha Hf Hco (He & Hcm & Hho)]. simpl in *.
  split; simpl; rewrite ?cnt_app, ?cnt_cons, ?cnt_nil, ?Forall_app, ?Forall_singleton; simpl; try done; try lia.
  - rewrite hands_app. unfold hands at 2. simpl. by rewrite Hh, !app_nil_r.
  - intros Hn. destruct (Hf Hn); [by left|right; lia].
Qed.

Lemma step_einv x y : step x y -> einv x -> einv y.
Proof.
  intros Hst. destruct Hst as [x y Hi|s ths t|s ths|s ths|s l1 cm l2]; [|by apply einv_call..|].
  - destruct Hi as [s s' l1 th l2 ths Hact|s l1 l2 b ths Hp]; [by apply act_einv|].
    intros Hi. apply (einv_perm _ _ _ Hp) in Hi.
    destruct Hi as [Ht Hs Hse Hi Hc Hg Hb Hgr Ha Hf Hco (He & Hcm & Hh)].
    simpl in *. rewrite !Forall_cons, Forall_app in Hse, Hh. counts. split; counts; try done; try lia.
    + rewrite Ht. unfold hands. simpl. rewrite !map_app, !concat_app. simpl. solve_Permutation.
    + rewrite Forall_app, Forall_cons. tauto.
    + split_and!; try done. rewrite Forall_app, Forall_cons. tauto.
  - intros [Ht Hs Hse Hi Hc Hg Hb Hgr Ha Hf Hco (He & Hcm & Hh)]. simpl in *.
    rewrite Forall_app, Forall_cons in Hse, Hh. unfold hands in *. simpl in *. rewrite map_app, concat_app in Ht. simpl in Ht.
    split; simpl in *; rewrite ?Forall_app, ?Forall_cons; counts; destruct cm; counts; try done; try lia; try tauto;
      unfold hands; rewrite map_app, concat_app; done.
Qed.

Definition reachable (c : C) (x : state) : Prop := rtc step (NewPeriodicalExecutor c) x.

Lemma reachable_einv c x : held c = [] -> container_ok c -> reachable c x -> einv x.
Proof.
  intros Hc Hok Hr. unfold reachable in Hr. remember (NewPeriodicalExecutor c) as x0 eqn:Hx0.
  assert (H0 : einv x0).
  { subst. split; simpl; rewrite ?Hc; try done. }
  clear Hx0. induction Hr as [x|x y z Hst _ IH]; [done|]. apply IH. by eapply step_einv.
Qed.

(** ** Progress *)

Definition can_step (x : state) : Prop := exists y, istep x y.

Lemma step_in s th s' ths' ths : th ∈ ths -> act s th s' ths' -> can_step (s, ths).
Proof. intros (l1 & l2 & ->)%list_elem_of_split Ha. eexists. by apply istep_act. Qed.

Lemma cnt_pos f ths : 0 < cnt f ths -> exists th, th ∈ ths /\ 0 < f th.
Proof.
  induction ths as [|th ths IH]; rewrite ?cnt_nil, ?cnt_cons; [lia|]. intros Hp.
  destruct (decide (0 < f th)) as [Hf|Hf]; [exists th; split; [set_solver|done]|].
  destruct IH as (x & Hx & ?); [lia|]. exists x. split; [set_solver|done].
Qed.

Lemma cnt_in f th ths : th ∈ ths -> f th <= cnt f ths.
Proof. intros (l1 & l2 & ->)%list_elem_of_split. rewrite cnt_app, cnt_cons. lia. Qed.

(** The confirmation always finds a waiting [Add]. *)
Lemma confirm_progress s ths b : einv (s, ths) -> BgConfirming b ∈ ths -> can_step (s, ths).
Proof.
  intros Hi Hb. pose proof (ei_confirm _ Hi) as Hc. pose proof (cnt_in unconfirmed _ _ Hb) as Hu. simpl in *.
  destruct (cnt_pos confirming ths) as (th & Hth & Hpos); [lia|]. destruct th; simpl in Hpos; try lia.
  apply list_elem_of_split in Hb as (l1 & l2 & ->).
  assert (Hin : Confirming ∈ l1 ++ l2) by (rewrite elem_of_app, elem_of_cons in *; naive_solver).
  apply list_elem_of_split in Hin as (k1 & k2 & Hk). exists (s, k1 ++ BgExecuting b :: k2). apply istep_confirm.
  rewrite <- Permutation_middle, Hk, <- Permutation_middle. apply perm_swap.
Qed.

(** While a waiter holds the barrier, the executions it waits for go on. *)
Lemma group_progress s ths : einv (s, ths) -> t_barrier s = true -> can_step (s, ths).
Proof.
  intros Hi Hb. pose proof (ei_barrier _ Hi) as Hg. pose proof (ei_group _ Hi) as Hc. simpl in *. rewrite Hb in Hg.
  destruct (cnt_pos grouping ths) as (th & Hth & Hpos); [lia|]. destruct th; simpl in Hpos; try lia.
  destruct (decide (t_group s = 0)) as [Hz|Hz]; [eapply step_in; [exact Hth|by constructor]|].
  destruct (cnt_pos counted ths) as (th & Hth' & Hpos'); [lia|].
  destruct th; simpl in Hpos'; try lia; first [by eapply confirm_progress|eapply step_in; [exact Hth'|by constructor]].
Qed.

Lemma barrier_progress s ths th s' ths' : einv (s, ths) -> th ∈ ths ->
  (t_barrier s = false -> act s th s' ths') -> can_step (s, ths).
Proof.
  intros Hi Hin Ha. destruct (t_barrier s) eqn:Hb; [by apply group_progress|]. eapply step_in; [exact Hin|auto].
Qed.

(** A background goroutine is never stuck while the channel is full. *)
Lemma background_progress s ths th b : einv (s, ths) -> th ∈ ths -> 0 < background th -> t_commander s = Some b ->
  can_step (s, ths).
Proof.
  intros Hi Hin Hb Hc. destruct th as [| | |[]|[]|[] seen v| | |cm|v|v|v|]; simpl in Hb; try lia;
    first [by eapply confirm_progress
          |by eapply barrier_progress; [exact Hi|exact Hin|intros; constructor]
          |by eapply step_in; [exact Hin|econstructor]].
Qed.

Lemma full_progress s ths b : einv (s, ths) -> t_commander s = Some b -> can_step (s, ths).
Proof.
  intros Hi Hc. pose proof (ei_inflight _ Hi) as Hn. pose proof (ei_guarded _ Hi) as Hg. pose proof (ei_alive _ Hi) as Ha.
  simpl in *. rewrite Hc in Hn. simpl in Hn. rewrite Ha in Hg by lia.
  destruct (cnt_pos background ths) as (th & Hth & Hpos); [lia|]. by eapply background_progress.
Qed.

Lemma thread_progress s ths th : einv (s, ths) -> th ∈ ths -> (forall cm, th <> BgSelect cm) -> can_step (s, ths).
Proof.
  intros Hi Hin Hns. destruct th as [t|b| |who|who|who seen b|seen|seen|cm|b|b|b|].
  - by eapply step_in; [exact Hin|constructor].
  - destruct (t_commander s) as [b'|] eqn:Hc; [by eapply full_progress|]. by eapply step_in; [exact Hin|constructor].
  - pose proof (ei_confirm _ Hi) as Hc. pose proof (cnt_in confirming _ _ Hin) as Hu. simpl in *.
    destruct (t_commander s) as [b'|] eqn:Hcm; [by eapply full_progress|]. simpl in Hc.
    destruct (cnt_pos unconfirmed ths) as (th & Hth & Hpos); [lia|]. destruct th; simpl in Hpos; try lia.
    + eapply barrier_progress; [exact Hi|exact Hth|intros; by constructor].
    + by eapply confirm_progress.
  - eapply barrier_progress; [exact Hi|exact Hin|intros; by constructor].
  - eapply step_in; [exact Hin|constructor].
  - eapply step_in; [exact Hin|constructor].
  - eapply barrier_progress; [exact Hi|exact Hin|intros; by constructor].
  - apply group_progress; [done|]. pose proof (ei_barrier _ Hi) as Hg. pose proof (cnt_in grouping _ _ Hin) as Hu.
    simpl in *. destruct (t_barrier s); [done|lia].
  - by destruct (Hns cm).
  - eapply barrier_progress; [exact Hi|exact Hin|intros; by constructor].
  - by eapply confirm_progress.
  - eapply step_in; [exact Hin|constructor].
  - eapply step_in; [exact Hin|constructor].
Qed.

(** *** Theorems *)

Section theorems.
Context (c : C) (c_empty : held c = []) (c_ok : container_ok c).

(** C31: no task is lost or executed twice.  In every state the executor reaches, by any
    interleaving of [Add], [Flush] and [Wait] calls, ticks and the background goroutines it
    starts, the added tasks are exactly those handed to [Execute], those in the container, in
    the channel and in the hands of the goroutines, each as often as it was added; every batch
    is one the container allows; and while tasks are in the container, a background
    goroutine is running or one that quits is still to flush it. *)
Theorem tasks_executed_once s ths : reachable c (s, ths) ->
  t_added s ≡ₚ concat (t_executed s) ++ held (t_container s) ++ default [] (t_commander s) ++ hands ths /\
  Forall batch_ok (t_executed s) /\
  (held (t_container s) <> [] -> cnt background ths = 1 \/ 0 < cnt quitting ths).
Proof.
  intros Hr. pose proof (reachable_einv c _ c_empty c_ok Hr) as Hi. split_and!; [apply Hi|apply Hi|].
  intros Hn. destruct (ei_flushed _ Hi Hn) as [Hg|Hq]; [left|by right]. pose proof (ei_guarded _ Hi) as Hb.
  simpl in *. by rewrite Hg in Hb.
Qed.

(** C32: the executor does not get stuck: in every state it reaches, as long as a call of [Add],
    [Flush] or [Wait] has not returned, or a background goroutine is not at its [select], some
    goroutine can take a step, without a tick and without another call.  There is never more
    than one background goroutine. *)
Theorem executor_progress s ths th : reachable c (s, ths) -> th ∈ ths -> (forall cm, th <> BgSelect cm) ->
  (exists y, istep (s, ths) y) /\ cnt background ths <= 1.
Proof.
  intros Hr Hin Hns. pose proof (reachable_einv c _ c_empty c_ok Hr) as Hi. split; [by eapply thread_progress|].
  pose proof (ei_guarded _ Hi) as Hg. simpl in Hg. rewrite Hg. destruct (t_guarded s); lia.
Qed.

Lemma hands_uncounted ths : cnt counted ths = 0 -> hands ths = handovers ths.
Proof.
  unfold hands, handovers. induction ths as [|th ths IH]; [done|]. rewrite cnt_cons. intros Hz. simpl.
  rewrite IH by lia. destruct th; simpl in Hz; done || lia.
Qed.

(** C33: when [Wait] returns, every task that was added before its flush took the container has
    been executed, but for those in batches that an [Add] that has not returned still hands
    over: they are not counted by the wait group. *)
Theorem wait_executes s ths seen : reachable c (s, ths) -> WaitingGroup seen ∈ ths -> t_group s = 0 ->
  seen ⊆+ concat (t_executed s) ++ default [] (t_commander s) ++ handovers ths.
Proof.
  intros Hr Hin Hz. pose proof (reachable_einv c _ c_empty c_ok Hr) as Hi.
  pose proof (ei_tasks _ Hi) as Ht. pose proof (ei_suffix _ Hi) as [k Hk]. pose proof (ei_seen _ Hi) as Hse.
  pose proof (ei_group _ Hi) as Hg. simpl in *. rewrite Forall_forall in Hse. destruct (Hse _ Hin) as [[k' Hk'] Hl].
  rewrite hands_uncounted in Ht by lia.
  assert (Hpre : seen `prefix_of` k).
  { rewrite Hk in Hk', Hl. rewrite length_app in Hl. exists (drop (length seen) k).
    assert (Hlen : length seen <= length k) by lia. apply (f_equal (take (length seen))) in Hk'.
    rewrite take_app_length, take_app_le in Hk' by done. pose proof (take_drop (length seen) k) as Htd.
    by rewrite Hk' in Htd. }
  destruct Hpre as [k'' ->]. rewrite Hk in Ht.
  assert (Hp : seen ++ k'' ≡ₚ concat (t_executed s) ++ default [] (t_commander s) ++ handovers ths).
  { apply (Permutation_app_inv_r (held (t_container s))). rewrite Ht. solve_Permutation. }
  rewrite <- Hp. by apply submseteq_inserts_r.
Qed.

End theorems.
End executor.

(** ** Examples: a bulk executor of two tasks *)

Definition demo_container : bulkContainer nat := mkBulk [] 2.
#[local] Existing Instance bulk_container.

(** The first [Add] returned, the second hands the batch over, and [Wait] was called. *)
Definition demo_shared : @shared nat (bulkContainer nat) :=
  mkShared (mkBulk [] 2) None 1 true 0 true [1; 2] [].
Definition demo_threads : list (@thread nat nat) := [BgSelect false; Sending [1; 2]; WaitingGroup [1; 2]].

(** One step of the thread [th] between the threads [l1] and [l2]. *)
Ltac run l1 th l2 := eapply rtc_l; [eapply step_internal, (istep_act _ _ l1 th l2); by constructor|]; cbn.

Lemma executor_demo_reachable : @reachable nat nat _ (bulk_container nat 2) demo_container (demo_shared, demo_threads).
Proof.
  unfold reachable, NewPeriodicalExecutor. pose (bg := @BgSelect nat nat false). pose (send := @Sending nat nat [1; 2]).
  eapply rtc_l; [apply (step_Add _ _ 1)|]; cbn. run (@nil (@thread nat nat)) (@Adding nat nat 1) (@nil (@thread nat nat)).
  eapply rtc_l; [apply (step_Add _ _ 2)|]; cbn. run [bg] (@Adding nat nat 2) (@nil (@thread nat nat)).
  eapply rtc_l; [apply step_Wait|]; cbn. run [bg; send] (@Flushing nat nat Waiter) (@nil (@thread nat nat)).
  run [bg; send] (@Removing nat nat Waiter) (@nil (@thread nat nat)).
  run [bg; send] (@Executing nat nat Waiter [1; 2] []) (@nil (@thread nat nat)).
  run [bg; send] (@Waiting nat nat [1; 2]) (@nil (@thread nat nat)). apply rtc_refl.
Qed.

Lemma tasks_executed_once_witness :
  t_added demo_shared ≡ₚ concat (t_executed demo_shared) ++ b_tasks (t_container demo_shared) ++ [] ++ hands demo_threads.
Proof.
  apply (@tasks_executed_once nat nat _ (bulk_container nat 2) _ demo_container eq_refl
    ltac:(split; [reflexivity|simpl; lia]) demo_shared demo_threads executor_demo_reachable).
Defined.

Lemma executor_progress_witness : exists y, istep (H := bulk_container nat 2) (demo_shared, demo_threads) y.
Proof.
  apply (@executor_progress nat nat _ (bulk_container nat 2) _ demo_container eq_refl
    ltac:(split; [reflexivity|simpl; lia]) demo_shared demo_threads (Sending [1; 2]) executor_demo_reachable); [set_solver|done].
Defined.

(** [Wait] may return here, although task 1 was added by an [Add] that has returned and nothing
    was executed. *)
Lemma wait_executes_witness : concat (t_executed demo_shared) = [] /\
  [1; 2] ⊆+ concat (t_executed demo_shared) ++ [] ++ handovers demo_threads.
Proof.
  split; [reflexivity|].
  apply (@wait_executes nat nat _ (bulk_container nat 2) _ demo_container eq_refl
    ltac:(split; [reflexivity|simpl; lia]) demo_shared demo_threads [1; 2] executor_demo_reachable); [set_solver|reflexivity].
Defined.

(** ** [DelayExecutor] *)

(** [d_timers] counts the goroutines that wait for their timer, [d_runs] those that reset
    [triggered] and have not called [fn] yet; [d_asked] records a [Trigger] since [fn] was
    last called. *)
Record delayExecutor := mkDelay { triggered : bool; d_timers : nat; d_runs : nat; d_asked : bool }.
Definition NewDelayExecutor : delayExecutor := mkDelay false 0 0 false.
Definition Trigger (d : delayExecutor) : delayExecutor :=
  if triggered d then mkDelay true (d_timers d) (d_runs d) true
  else mkDelay true (S (d_timers d)) (d_runs d) true.

Inductive dstep (d : delayExecutor) : delayExecutor -> Prop :=
| d_trigger : dstep d (Trigger d)
| d_expire t : d_timers d = S t -> dstep d (mkDelay false t (S (d_runs d)) (d_asked d))
| d_call r : d_runs d = S r -> dstep d (mkDelay (triggered d) (d_timers d) r false).

(** No trigger is missed: after a [Trigger], until [fn] is called, a timer is running or a
    goroutine is about to call it; and there is at most one timer. *)
Lemma delay_not_missed d : rtc dstep NewDelayExecutor d ->
  (d_asked d = true -> 0 < d_timers d + d_runs d) /\ d_timers d = (if triggered d then 1 else 0).
Proof.
  assert (Hstep : forall x y, dstep x y ->
    (d_asked x = true -> 0 < d_timers x + d_runs x) /\ d_timers x = (if triggered x then 1 else 0) ->
    (d_asked y = true -> 0 < d_timers y + d_runs y) /\ d_timers y = (if triggered y then 1 else 0)).
  { intros x y Hs [Ha Ht]. destruct Hs as [|t Hx|r Hx]; simpl.
    - unfold Trigger. destruct (triggered x); simpl; split; lia.
    - destruct (triggered x); split; lia.
    - split; [done|lia]. }
  intros Hr. assert (H0 : (d_asked NewDelayExecutor = true -> 0 < d_timers NewDelayExecutor + d_runs NewDelayExecutor) /\
    d_timers NewDelayExecutor = (if triggered NewDelayExecutor then 1 else 0)) by done.
  induction Hr as [|x y z Hs _ IH]; [done|]. eapply IH, Hstep; done.
Qed.

(** ** [LessExecutor] *)

Record lessExecutor := mkLess { threshold : Z; lastTime : Z }.
Definition NewLessExecutor (t : Z) : lessExecutor := mkLess t 0.
Definition DoOrDiscard (now : Z) (le : lessExecutor) : lessExecutor * bool :=
  if ((lastTime le =? 0) || (lastTime le + threshold le <? now))%Z then (mkLess (threshold le) now, true)
  else (le, false).

(** Of calls one after the other, with positive clock readings, the first is executed, and a
    later one exactly when it comes more than the threshold after the last executed. *)
Fixpoint executions (nows : list Z) (le : lessExecutor) : list Z :=
  match nows with
  | [] => []
  | now :: nows =>
    let '(le, done) := DoOrDiscard now le in
    if done then now :: executions nows le else executions nows le
  end.
Lemma executions_spaced nows : forall le, Forall (fun t => 0 < t)%Z nows -> (0 <= lastTime le)%Z ->
  (lastTime le <> 0 -> forall t, head (executions nows le) = Some t -> lastTime le + threshold le < t)%Z /\
  Sorted (fun a b => a + threshold le < b)%Z (executions nows le).
Proof.
  induction nows as [|now nows IH]; intros le Hp Hl; simpl; [by split; [|constructor]|].
  apply Forall_cons in Hp as [Hnow Hp]. unfold DoOrDiscard. destruct (_ || _)%Z eqn:Hd.
  - destruct (IH (mkLess (threshold le) now) Hp) as [Hh Hs]; simpl in *; [lia|]. split.
    + intros Hne t [= <-]. apply orb_prop in Hd. lia.
    + constructor; [done|]. destruct (executions nows _) as [|t ts]; constructor. apply Hh; [lia|done].
  - by apply IH.
Qed.
