(* ===== verification/SingleFlight.v ===== *)
(** * [core/syncx]: calls that are shared or serialised by key

    [singleflight.go] and [lockedcalls.go].  A call of [Do] or [DoEx] is a thread; a step is one
    critical section, one wait, or the return of the caller's function, which may return anything
    or panic.  A [call] or wait group that was allocated is a number, its position in the heap.
    Threads keep their position in the list, which identifies them. *)

From S2P Require Import Prelude.

(** ** [singleflight.go] *)

Section flight.
Context {V E : Type}.

(** The fields [val] and [err] of a call; both are nil at first. *)
Definition result : Type := option V * option E.
Record call := mkCall { c_waits : bool; c_res : result }.

(** Where a thread is: before [createCall]; in [wg.Wait]; in [fn]; in the deferred function, before
    [delete] and before [wg.Done], [panicking] or not; at its end. *)
Inductive flight_thread :=
| Creating (key : string)
| Waiting (key : string) (c : nat)
| InFn (key : string) (c : nat)
| Deleting (key : string) (c : nat) (panicking : bool)
| Notifying (key : string) (c : nat) (panicking : bool)
| Returned (key : string) (c : nat) (fresh : bool) (r : result)
| Panicked (key : string) (c : nat).

(** [ran] records the functions that returned: the thread and the result. *)
Record flightGroup := mkGroup {
  calls : gmap string nat;
  heap : list call;
  threads : list flight_thread;
  ran : list (nat * result)
}.

Definition NewSingleFlight : flightGroup := mkGroup ∅ [] [] [].

Definition goes (i : nat) (th : flight_thread) (g : flightGroup) : flightGroup :=
  mkGroup (calls g) (heap g) (<[i := th]> (threads g)) (ran g).

(** The critical section of [createCall], by thread [i]. *)
Definition createCall (key : string) (i : nat) (g : flightGroup) : flightGroup :=
  match calls g !! key with
  | Some c => goes i (Waiting key c) g
  | None =>
    let c := length (heap g) in
    goes i (InFn key c)
      (mkGroup (<[key := c]> (calls g)) (heap g ++ [mkCall true (None, None)]) (threads g) (ran g))
  end.

Definition set_call (c : nat) (x : call) (g : flightGroup) : flightGroup :=
  mkGroup (calls g) (<[c := x]> (heap g)) (threads g) (ran g).
Definition returns (i : nat) (r : result) (g : flightGroup) : flightGroup :=
  mkGroup (calls g) (heap g) (threads g) (ran g ++ [(i, r)]).

(** The steps of the running calls. *)
Inductive fstep (g : flightGroup) : flightGroup -> Prop :=
| f_create i key : threads g !! i = Some (Creating key) -> fstep g (createCall key i g)
| f_fn i key c r : threads g !! i = Some (InFn key c) ->
    fstep g (goes i (Deleting key c false) (set_call c (mkCall true r) (returns i r g)))
| f_panic i key c : threads g !! i = Some (InFn key c) -> fstep g (goes i (Deleting key c true) g)
| f_delete i key c p : threads g !! i = Some (Deleting key c p) ->
    fstep g (goes i (Notifying key c p) (mkGroup (delete key (calls g)) (heap g) (threads g) (ran g)))
| f_done i key c p x : threads g !! i = Some (Notifying key c p) -> heap g !! c = Some x ->
    fstep g (goes i (if p then Panicked key c else Returned key c true (c_res x))
               (set_call c (mkCall false (c_res x)) g))
| f_wake i key c x : threads g !! i = Some (Waiting key c) -> heap g !! c = Some x -> c_waits x = false ->
    fstep g (goes i (Returned key c false (c_res x)) g).

(** A new call of [Do] or [DoEx], or a step. *)
Inductive gstep (g : flightGroup) : flightGroup -> Prop :=
| g_call key : gstep g (mkGroup (calls g) (heap g) (threads g ++ [Creating key]) (ran g))
| g_step g' : fstep g g' -> gstep g g'.

Definition freached (g : flightGroup) : Prop := rtc gstep NewSingleFlight g.

(** *** The invariant *)

(** The thread made the call [c], and the call is registered under the key. *)
Definition made (th : flight_thread) : option (string * nat) :=
  match th with
  | InFn key c | Deleting key c _ | Notifying key c _ | Returned key c true _ | Panicked key c => Some (key, c)
  | _ => None
  end.
Definition registered (th : flight_thread) : option (string * nat) :=
  match th with InFn key c | Deleting key c _ => Some (key, c) | _ => None end.
(** The thread waits for, or has shared, the call [c]. *)
Definition shares (th : flight_thread) : option (string * nat) :=
  match th with Waiting key c | Returned key c false _ => Some (key, c) | _ => None end.

(** What the heap says of the call a thread made or shared. *)
Definition call_ok (h : list call) (th : flight_thread) : Prop :=
  match th with
  | InFn _ c | Deleting _ c true | Notifying _ c true => h !! c = Some (mkCall true (None, None))
  | Deleting _ c false | Notifying _ c false => exists r, h !! c = Some (mkCall true r)
  | Returned _ c _ r => h !! c = Some (mkCall false r)
  | Panicked _ c => h !! c = Some (mkCall false (None, None))
  | Creating _ | Waiting _ _ => True
  end.

Record finv (g : flightGroup) : Prop := {
  fi_made : forall i j th th' key key' c, threads g !! i = Some th -> threads g !! j = Some th' ->
    made th = Some (key, c) -> made th' = Some (key', c) -> i = j;
  fi_calls : forall key c, calls g !! key = Some c <->
    exists i th, threads g !! i = Some th /\ registered th = Some (key, c);
  fi_ok : forall i th, threads g !! i = Some th -> call_ok (heap g) th;
  fi_shares : forall i th key c, threads g !! i = Some th -> shares th = Some (key, c) ->
    exists j th', threads g !! j = Some th' /\ made th' = Some (key, c);
  fi_heap : forall i th key c, threads g !! i = Some th -> made th = Some (key, c) -> c < length (heap g)
}.

Lemma registered_made th key c : registered th = Some (key, c) -> made th = Some (key, c).
Proof. by destruct th. Qed.

Lemma finv_new : finv NewSingleFlight.
Proof. split; simpl; intros; try rewrite lookup_empty; set_solver. Qed.

(** A new call keeps the invariant. *)
Lemma finv_call g key : finv g -> finv (mkGroup (calls g) (heap g) (threads g ++ [Creating key]) (ran g)).
Proof.
  intros Hi. assert (Hold : forall i th, (threads g ++ [Creating key]) !! i = Some th ->
    threads g !! i = Some th \/ th = Creating key).
  { intros i th Hth. apply lookup_app_Some in Hth as [?|[_ Hth]]; [by left|right].
    by apply list_lookup_singleton_Some in Hth as [_ <-]. }
  split; simpl.
  - intros i j th th' k k' c H1 H2 Hm Hm'. apply Hold in H1 as [H1| ->]; [|done].
    apply Hold in H2 as [H2| ->]; [|done]. by eapply fi_made.
  - intros k c. rewrite (fi_calls _ Hi). split; intros (i & th & Hth & Hr).
    + exists i, th. split; [by apply lookup_app_l_Some|done].
    + apply Hold in Hth as [Hth| ->]; [eauto|done].
  - intros i th Hth. apply Hold in Hth as [Hth| ->]; [by eapply fi_ok|done].
  - intros i th k c Hth Hs. apply Hold in Hth as [Hth| ->]; [|done].
    destruct (fi_shares _ Hi _ _ _ _ Hth Hs) as (j & th' & Hj & Hm). exists j, th'.
    split; [by apply lookup_app_l_Some|done].
  - intros i th k c Hth Hm. apply Hold in Hth as [Hth| ->]; [by eapply fi_heap|done].
Qed.

(** A step of thread [i] from [th] to [th'] keeps the invariant. *)
Lemma finv_move g i th th' calls' heap' ran' : finv g -> threads g !! i = Some th ->
  (forall x, made th = Some x -> made th' = Some x) ->
  (forall key c, made th' = Some (key, c) -> made th = Some (key, c) \/ c = length (heap g)) ->
  (forall key c, calls' !! key = Some c <->
     registered th' = Some (key, c) \/ calls g !! key = Some c /\ registered th <> Some (key, c)) ->
  call_ok heap' th' -> (forall j thj, j <> i -> threads g !! j = Some thj -> call_ok heap' thj) ->
  (forall key c, shares th' = Some (key, c) -> shares th = Some (key, c) \/ calls g !! key = Some c) ->
  length (heap g) <= length heap' -> (forall key c, made th' = Some (key, c) -> c < length heap') ->
  finv (mkGroup calls' heap' (<[i := th']> (threads g)) ran').
Proof.
  intros Hi Hth Hmk Hmd Hcalls Hok Hoks Hsh Hlen Hlt.
  assert (Hin : forall j thj, <[i := th']> (threads g) !! j = Some thj ->
    j = i /\ thj = th' \/ j <> i /\ threads g !! j = Some thj).
  { intros j thj Hj. apply list_lookup_insert_Some in Hj as [(-> & <- & _)|[? ?]]; auto. }
  assert (Hself : <[i := th']> (threads g) !! i = Some th').
  { apply list_lookup_insert_eq. by eapply lookup_lt_Some. }
  assert (Hother : forall j thj, j <> i -> threads g !! j = Some thj -> <[i := th']> (threads g) !! j = Some thj).
  { intros j thj Hne Hj. by rewrite list_lookup_insert_ne. }
  assert (Huniq : forall j thj k k' c, j <> i -> threads g !! j = Some thj ->
    made thj = Some (k, c) -> made th' = Some (k', c) -> False).
  { intros j thj k k' c Hne Hj Hm Hm'. destruct (Hmd _ _ Hm') as [Hm2|Hc].
    - by apply Hne, (fi_made _ Hi _ _ _ _ _ _ _ Hj Hth Hm Hm2).
    - pose proof (fi_heap _ Hi _ _ _ _ Hj Hm). lia. }
  split; simpl.
  - intros j j' thj thj' k k' c Hj Hj' Hm Hm'.
    apply Hin in Hj as [[-> ->]|[Hne Hj]]; apply Hin in Hj' as [[-> ->]|[Hne' Hj']]; [done| | |].
    + by destruct (Huniq _ _ _ _ _ Hne' Hj' Hm' Hm).
    + by destruct (Huniq _ _ _ _ _ Hne Hj Hm Hm').
    + by eapply fi_made.
  - intros k c. rewrite Hcalls. split.
    + intros [Hr|[Hc Hr]]; [by exists i, th'|]. apply (fi_calls _ Hi) in Hc as (j & thj & Hj & Hrj).
      exists j, thj. split; [apply Hother; [by intros ->; simplify_eq|done]|done].
    + intros (j & thj & Hj & Hr). apply Hin in Hj as [[-> ->]|[Hne Hj]]; [by left|right].
      split; [apply (fi_calls _ Hi); eauto|]. intros Hr'. apply Hne.
      by eapply (fi_made _ Hi); eauto using registered_made.
  - intros j thj Hj. apply Hin in Hj as [[-> ->]|[Hne Hj]]; [done|by eapply Hoks].
  - intros j thj k c Hj Hs.
    assert (Hmaker : exists m thm, threads g !! m = Some thm /\ made thm = Some (k, c)).
    { assert (Hc : (exists l thl, threads g !! l = Some thl /\ shares thl = Some (k, c)) \/ calls g !! k = Some c).
      { apply Hin in Hj as [[-> ->]|[Hne Hj]]; [|by left; eauto]. destruct (Hsh _ _ Hs); eauto. }
      destruct Hc as [(l & thl & Hl & Hsl)|Hc]; [by eapply fi_shares|].
      apply (fi_calls _ Hi) in Hc as (l & thl & Hl & Hr). eauto using registered_made. }
    destruct Hmaker as (m & thm & Hm & Hmm). destruct (decide (m = i)) as [->|Hne].
    + exists i, th'. split; [done|]. apply Hmk. by simplify_eq.
    + exists m, thm. split; [by apply Hother|done].
  - intros j thj k c Hj Hm. apply Hin in Hj as [[-> ->]|[Hne Hj]]; [by eapply Hlt|].
    pose proof (fi_heap _ Hi _ _ _ _ Hj Hm). lia.
Qed.

(** Writing the call of thread [i] while others wait for it changes nothing they know. *)
Lemma call_ok_other g i th key c r y j thj : finv g -> threads g !! i = Some th -> made th = Some (key, c) ->
  heap g !! c = Some (mkCall true r) -> j <> i -> threads g !! j = Some thj -> call_ok (<[c := y]> (heap g)) thj.
Proof.
  intros Hi Hth Hm Hc Hne Hj. pose proof (fi_ok _ Hi _ _ Hj) as Hok.
  assert (Hmade : forall k c', made thj = Some (k, c') -> c' <> c).
  { intros k c' Hm' ->. by apply Hne, (fi_made _ Hi _ _ _ _ _ _ _ Hj Hth Hm' Hm). }
  destruct thj as [k|k c'|k c'|k c' []|k c' []|k c' [] r'|k c']; simpl in *; try done;
    try (by rewrite list_lookup_insert_ne by (symmetry; by eapply Hmade)).
  rewrite list_lookup_insert_ne; [done|]. intros ->. simplify_eq.
Qed.

Lemma finv_create g i key : finv g -> threads g !! i = Some (Creating key) -> finv (createCall key i g).
Proof.
  intros Hi Hth. unfold createCall. destruct (calls g !! key) as [c|] eqn:Hc.
  - eapply (finv_move g i (Creating key) (Waiting key c)); try done.
    + intros k c'. simpl. naive_solver.
    + intros j thj _. by apply fi_ok.
    + intros k c' [= -> ->]. by right.
  - eapply (finv_move g i (Creating key) (InFn key (length (heap g)))); try done; simpl.
    + intros k c' [= <- <-]. by right.
    + intros k c'. rewrite lookup_insert_Some. naive_solver.
    + by rewrite lookup_app_r, Nat.sub_diag by done.
    + intros j thj _ Hj. pose proof (fi_ok _ Hi _ _ Hj) as Hok.
      destruct thj as [k|k c'|k c'|k c' []|k c' []|k c' [] r'|k c']; simpl in *; try done;
        try (by apply lookup_app_l_Some). 1, 2: destruct Hok as [r Hr]; exists r; by apply lookup_app_l_Some.
    + rewrite length_app. lia.
    + intros k c' [= <- <-]. rewrite length_app. simpl. lia.
Qed.

Lemma calls_of g i th key c : finv g -> threads g !! i = Some th -> registered th = Some (key, c) ->
  calls g !! key = Some c.
Proof. intros Hi Hth Hr. apply (fi_calls _ Hi). eauto. Qed.

Lemma finv_fn g i key c (p : bool) x ran' : finv g -> threads g !! i = Some (InFn key c) ->
  (if p then x = mkCall true (None, None) else exists r, x = mkCall true r) ->
  finv (mkGroup (calls g) (<[c := x]> (heap g)) (<[i := Deleting key c p]> (threads g)) ran').
Proof.
  intros Hi Hth Hx. pose proof (fi_ok _ Hi _ _ Hth) as Hok. simpl in Hok.
  pose proof (lookup_lt_Some _ _ _ Hok) as Hlt. pose proof (calls_of _ _ _ _ _ Hi Hth eq_refl) as Hc.
  eapply (finv_move g i (InFn key c) (Deleting key c p)); try done; simpl.
  - naive_solver.
  - intros k c'. split; [intros Hk|naive_solver]. destruct (decide ((key, c) = (k, c'))); [left|right]; naive_solver.
  - rewrite list_lookup_insert_eq by done. destruct p; naive_solver.
  - intros j thj Hne Hj. by eapply (call_ok_other g i).
  - by rewrite length_insert.
  - intros k c' [= <- <-]. by rewrite length_insert.
Qed.

Lemma finv_fstep g g' : finv g -> fstep g g' -> finv g'.
Proof.
  intros Hi Hs. destruct Hs as [i key Hth|i key c r Hth|i key c Hth|i key c p Hth|i key c p x Hth Hx|i key c x Hth Hx Hw];
    [by apply finv_create|by apply (finv_fn g i key c false); eauto| | | |]; pose proof (fi_ok _ Hi _ _ Hth) as Hok; simpl in Hok.
  - pose proof (finv_fn g i key c true _ (ran g) Hi Hth eq_refl) as Hf. by rewrite list_insert_id in Hf.
  - pose proof (calls_of _ _ _ _ _ Hi Hth eq_refl) as Hc.
    eapply (finv_move g i (Deleting key c p) (Notifying key c p)); try done; simpl; [naive_solver| | |].
    + intros k c'. rewrite lookup_delete_Some. naive_solver.
    + intros j thj _. by apply fi_ok.
    + intros k c' [= <- <-]. destruct p; [|destruct Hok as [? Hok]]; by eapply lookup_lt_Some.
  - assert (Hc : exists r, heap g !! c = Some (mkCall true r) /\ (p = true -> r = (None, None))).
    { destruct p; naive_solver. }
    destruct Hc as (r & Hc & Hp). rewrite Hc in Hx. injection Hx as <-.
    pose proof (lookup_lt_Some _ _ _ Hc) as Hlt.
    eapply (finv_move g i (Notifying key c p)); try done; simpl.
    + destruct p; naive_solver.
    + destruct p; naive_solver.
    + intros k c'. destruct p; naive_solver.
    + destruct p; simpl; rewrite list_lookup_insert_eq by done; [by rewrite Hp|done].
    + intros j thj Hne Hj. by eapply (call_ok_other g i).
    + destruct p; naive_solver.
    + by rewrite length_insert.
    + rewrite length_insert. destruct p; naive_solver.
  - eapply (finv_move g i (Waiting key c) (Returned key c false (c_res x))); try done; simpl.
    + naive_solver.
    + destruct x. naive_solver.
    + intros j thj _. by apply fi_ok.
    + intros k c' [= <- <-]. by left.
Qed.

Lemma freached_finv g : freached g -> finv g.
Proof.
  intros Hr. assert (H0 := finv_new). revert H0. induction Hr as [|x y z Hs _ IH]; [done|]. intros Hx. apply IH.
  destruct Hs as [key|y Hs]; [by apply finv_call|by eapply finv_fstep].
Qed.

(** The functions that returned: each thread's at most once, and its call holds the result. *)
Definition past_fn (th : flight_thread) : option nat :=
  match th with Deleting _ c false | Notifying _ c false | Returned _ c true _ => Some c | _ => None end.

Lemma past_made th c : past_fn th = Some c -> exists key, made th = Some (key, c).
Proof. destruct th as [| | |? ? []|? ? []|? ? [] ?|]; naive_solver. Qed.

Record rinv (g : flightGroup) : Prop := {
  ri_ran : forall i th c x, threads g !! i = Some th -> past_fn th = Some c -> heap g !! c = Some x ->
    (i, c_res x) ∈ ran g;
  ri_past : forall i r, (i, r) ∈ ran g -> exists th c, threads g !! i = Some th /\ past_fn th = Some c;
  ri_once : NoDup (ran g).*1
}.

Lemma rinv_new : rinv NewSingleFlight.
Proof. split; simpl; [set_solver|set_solver|constructor]. Qed.

Lemma rinv_call g key : rinv g -> rinv (mkGroup (calls g) (heap g) (threads g ++ [Creating key]) (ran g)).
Proof.
  intros Hi. split; simpl; [|intros i r Hin|apply Hi].
  - intros i th c x Hth Hp Hx. apply lookup_app_Some in Hth as [Hth|[_ Hth]]; [by eapply ri_ran|].
    apply list_lookup_singleton_Some in Hth as [_ <-]. done.
  - destruct (ri_past _ Hi _ _ Hin) as (th & c & Hth & Hp). exists th, c. split; [by apply lookup_app_l_Some|done].
Qed.

(** A step of thread [i] that is not the return of its function. *)
Lemma rinv_move g i th th' calls' heap' : rinv g -> threads g !! i = Some th ->
  past_fn th' = past_fn th ->
  (forall j thj c x, threads g !! j = Some thj -> past_fn thj = Some c -> heap' !! c = Some x ->
     exists y, heap g !! c = Some y /\ c_res y = c_res x) ->
  rinv (mkGroup calls' heap' (<[i := th']> (threads g)) (ran g)).
Proof.
  intros Hi Hth Hp Hh. split; simpl; [|intros j r Hin|apply Hi].
  - intros j thj c x Hj Hpj Hx.
    assert (Hold : exists thj', threads g !! j = Some thj' /\ past_fn thj' = Some c).
    { apply list_lookup_insert_Some in Hj as [(-> & <- & _)|[_ Hj]]; eexists; split; eauto. by rewrite <- Hp. }
    destruct Hold as (thj' & Hj' & Hpj'). destruct (Hh _ _ _ _ Hj' Hpj' Hx) as (y & Hy & <-). by eapply ri_ran.
  - destruct (ri_past _ Hi _ _ Hin) as (thj & c & Hj & Hpj). destruct (decide (j = i)) as [->|Hne].
    + exists th', c. split; [apply list_lookup_insert_eq; by eapply lookup_lt_Some|]. rewrite Hp. by simplify_eq.
    + exists thj, c. by rewrite list_lookup_insert_ne.
Qed.

Lemma rinv_fstep g g' : finv g -> rinv g -> fstep g g' -> rinv g'.
Proof.
  intros Hf Hi Hs. destruct Hs as [i key Hth|i key c r Hth|i key c Hth|i key c p Hth|i key c p x Hth Hx|i key c x Hth Hx Hw].
  - unfold createCall. destruct (calls g !! key) as [c|].
    { eapply (rinv_move g i _ (Waiting key c)); try done. naive_solver. }
    eapply (rinv_move g i (Creating key) (InFn key (length (heap g)))); try done.
    intros j thj c x Hj Hp Hx. apply lookup_app_Some in Hx as [Hx|[Hlen Hx]]; [eauto|].
    destruct (past_made _ _ Hp) as [k Hm]. pose proof (fi_heap _ Hf _ _ _ _ Hj Hm). lia.
  - pose proof (fi_ok _ Hf _ _ Hth) as Hok. simpl in Hok. split; simpl.
    + intros j thj c' x Hj Hp Hx. apply elem_of_app. apply list_lookup_insert_Some in Hj as [(-> & <- & _)|[Hne Hj]].
      * simplify_eq/=. rewrite list_lookup_insert_eq in Hx by (by eapply lookup_lt_Some). simplify_eq/=. set_solver.
      * left. rewrite list_lookup_insert_ne in Hx; [by eapply ri_ran|]. intros ->.
        destruct (past_made _ _ Hp) as [k Hm]. by apply Hne, (fi_made _ Hf _ _ _ _ _ _ _ Hth Hj eq_refl Hm).
    + intros j r' Hin. apply elem_of_app in Hin as [Hin|Hin].
      * destruct (ri_past _ Hi _ _ Hin) as (thj & c' & Hj & Hp). exists thj, c'. split; [|done].
        rewrite list_lookup_insert_ne; [done|]. intros <-. by simplify_eq.
      * apply list_elem_of_singleton in Hin. simplify_eq. eexists _, c. split; [apply list_lookup_insert_eq; by eapply lookup_lt_Some|done].
    + rewrite fmap_app. apply NoDup_app. split; [apply Hi|split; [|apply NoDup_singleton]].
      intros j Hj Hin. simpl in Hin. apply list_elem_of_singleton in Hin as ->. apply list_elem_of_fmap in Hj as ([j r'] & Heq & Hin).
      simpl in Heq. subst j. destruct (ri_past _ Hi _ _ Hin) as (thj & c' & Hj & Hp). by simplify_eq.
  - eapply (rinv_move g i (InFn key c)); try done. naive_solver.
  - eapply (rinv_move g i (Deleting key c p)); try done. naive_solver.
  - pose proof (lookup_lt_Some _ _ _ Hx). eapply (rinv_move g i (Notifying key c p)); try done; simpl; [by destruct p|].
    intros j thj c' x' Hj Hp Hx'. destruct (decide (c' = c)) as [->|Hne].
    + rewrite list_lookup_insert_eq in Hx' by done. simplify_eq/=. by exists x.
    + rewrite list_lookup_insert_ne in Hx' by done. eauto.
  - eapply (rinv_move g i (Waiting key c)); try done. naive_solver.
Qed.

Lemma freached_rinv g : freached g -> rinv g.
Proof.
  intros Hr. assert (Hx : finv (NewSingleFlight) /\ rinv NewSingleFlight) by (split; [apply finv_new|apply rinv_new]).
  revert Hx. induction Hr as [|x y z Hs _ IH]; [by intros []|]. intros [Hf Hi]. apply IH.
  destruct Hs as [key|y Hs]; [split; [by apply finv_call|by apply rinv_call]|].
  split; [by eapply finv_fstep|by eapply rinv_fstep].
Qed.

(** *** Theorems *)

(** C10: calls are shared by key.  In every state, for any interleaving of the calls and whatever
    the functions return: at most one function runs for a key; a call that returns a fresh
    result ran its own function, once, and returns its result; a call that returns a shared one
    did not run its function and returns what one other call of the same key returned, or
    nothing when the function of that call panicked.  A call is registered under a key exactly
    while the thread that made it has not returned. *)
Theorem flights_shared g : freached g ->
  (forall i j key c c', threads g !! i = Some (InFn key c) -> threads g !! j = Some (InFn key c') -> i = j) /\
  NoDup (ran g).*1 /\
  (forall i key c r, threads g !! i = Some (Returned key c true r) -> (i, r) ∈ ran g) /\
  (forall i key c r, threads g !! i = Some (Returned key c false r) -> i ∉ (ran g).*1 /\
    exists j, threads g !! j = Some (Returned key c true r) \/
      threads g !! j = Some (Panicked key c) /\ r = (None, None)) /\
  (forall key c, calls g !! key = Some c -> exists j p,
    threads g !! j = Some (InFn key c) \/ threads g !! j = Some (Deleting key c p)).
Proof.
  intros Hr. apply freached_finv in Hr as Hi. apply freached_rinv in Hr as Hri. split_and!.
  - intros i j key c c' H1 H2. assert (c = c') as ->.
    { pose proof (calls_of _ _ _ _ _ Hi H1 eq_refl). pose proof (calls_of _ _ _ _ _ Hi H2 eq_refl). by simplify_eq. }
    by eapply (fi_made _ Hi).
  - apply Hri.
  - intros i key c r Hth. by apply (ri_ran _ Hri _ _ c (mkCall false r) Hth), (fi_ok _ Hi _ _ Hth).
  - intros i key c r Hth. split.
    { intros ([j r'] & -> & Hin)%list_elem_of_fmap. destruct (ri_past _ Hri _ _ Hin) as (th & c' & Hth' & Hp). simpl in Hth. simplify_eq/=. }
    pose proof (fi_ok _ Hi _ _ Hth) as Hok. simpl in Hok.
    destruct (fi_shares _ Hi _ _ key c Hth eq_refl) as (j & th & Hj & Hm).
    pose proof (fi_ok _ Hi _ _ Hj) as Hok'. exists j.
    destruct th as [k|k c'|k c'|k c' []|k c' []|k c' [] r'|k c']; naive_solver.
  - intros key c Hc. apply (fi_calls _ Hi) in Hc as (j & th & Hj & Hreg). exists j.
    destruct th as [k|k c'|k c'|k c' p|k c' p|k c' [] r'|k c']; simplify_eq/=; [exists true; by left|exists p; by right].
Qed.

(** Steps a call has left. *)
Definition left_ (th : flight_thread) : nat :=
  match th with
  | Creating _ => 4 | InFn _ _ => 3 | Deleting _ _ _ => 2 | Notifying _ _ _ => 1 | Waiting _ _ => 1
  | Returned _ _ _ _ | Panicked _ _ => 0
  end.
Definition flight_left (g : flightGroup) : nat := sum_list (left_ <$> threads g).

Lemma sum_insert {A} (f : A -> nat) l i x y : l !! i = Some x ->
  sum_list (f <$> <[i := y]> l) + f x = sum_list (f <$> l) + f y.
Proof.
  revert i. induction l as [|z l IH]; intros [|i] Hi; simplify_eq/=; [lia|]. specialize (IH _ Hi). lia.
Qed.

Lemma fstep_left g g' : fstep g g' -> flight_left g' < flight_left g.
Proof.
  unfold flight_left. intros Hs. destruct Hs as [i key Hth|i key c r Hth|i key c Hth|i key c p Hth|i key c p x Hth Hx|i key c x Hth Hx Hw];
    simpl; try (pose proof (fun y => sum_insert left_ _ _ _ y Hth) as Hsum).
  - unfold createCall. destruct (calls g !! key) as [c|]; simpl;
      [specialize (Hsum (Waiting key c))|specialize (Hsum (InFn key (length (heap g))))]; simpl in Hsum; lia.
  - specialize (Hsum (Deleting key c false)). simpl in Hsum. lia.
  - specialize (Hsum (Deleting key c true)). simpl in Hsum. lia.
  - specialize (Hsum (Notifying key c p)). simpl in Hsum. lia.
  - specialize (Hsum (if p then Panicked key c else Returned key c true (c_res x))). destruct p; simpl in Hsum; lia.
  - specialize (Hsum (Returned key c false (c_res x))). simpl in Hsum. lia.
Qed.

(** C11: every call returns.  In every state a call that has not ended means that some thread can
    take a step (or its function is running, and returning is its step), and there are no more
    than four steps per call: with functions that return, no call waits for ever. *)
Theorem flights_return g : freached g ->
  ((exists g', fstep g g') \/ Forall (fun th => left_ th = 0) (threads g)) /\
  (forall n g', nsteps fstep n g g' -> n + flight_left g' <= flight_left g).
Proof.
  intros Hr. apply freached_finv in Hr as Hi. split.
  - destruct (decide (Forall (fun th => left_ th = 0) (threads g))) as [?|Hn]; [by right|left].
    apply not_Forall_Exists, Exists_exists in Hn as (th & Hin & Hl); [|apply _].
    apply list_elem_of_lookup in Hin as [i Hth]. pose proof (fi_ok _ Hi _ _ Hth) as Hok.
    destruct th as [key|key c|key c|key c p|key c p|key c fresh r|key c]; try (simpl in Hl; lia).
    + by eexists; eapply f_create.
    + destruct (fi_shares _ Hi _ _ key c Hth eq_refl) as (j & th & Hj & Hm). pose proof (fi_ok _ Hi _ _ Hj) as Hok'.
      destruct th as [k|k c'|k c'|k c' p|k c' p|k c' [] r'|k c']; simplify_eq/=.
      * by eexists; eapply f_panic.
      * by eexists; eapply f_delete.
      * destruct p; [|destruct Hok' as [? Hok']]; by eexists; eapply f_done.
      * by eexists; eapply (f_wake _ i).
      * by eexists; eapply (f_wake _ i).
    + by eexists; eapply f_panic.
    + by eexists; eapply f_delete.
    + destruct p; simpl in Hok; [|destruct Hok as [? Hok]]; by eexists; eapply f_done.
  - intros n g' Hn. clear Hr Hi. induction Hn as [|n x y z Hs _ IH]; [lia|]. apply fstep_left in Hs. lia.
Qed.
End flight.

(** ** Example: two calls of one key *)

Definition demo_flights : @flightGroup nat nat :=
  mkGroup ∅ [mkCall false (Some 7, None)]
    [Returned "k" 0 true (Some 7, None); Returned "k" 0 false (Some 7, None)] [(0, (Some 7, None))].

(** The second call comes while the function of the first is running. *)
Lemma demo_flights_reached : freached demo_flights.
Proof.
  unfold freached, NewSingleFlight. eapply rtc_l; [apply (g_call _ "k")|]; simpl.
  eapply rtc_l; [apply g_step, (f_create _ 0 "k"); done|]; cbn.
  eapply rtc_l; [apply (g_call _ "k")|]; simpl.
  eapply rtc_l; [apply g_step, (f_create _ 1 "k"); done|]; cbn.
  eapply rtc_l; [apply g_step, (f_fn _ 0 "k" 0 (Some 7, None)); done|]; cbn.
  eapply rtc_l; [apply g_step, (f_delete _ 0 "k" 0 false); done|]; cbn.
  eapply rtc_l; [apply g_step, (f_done _ 0 "k" 0 false (mkCall true (Some 7, None))); done|]; cbn.
  eapply rtc_l; [apply g_step, (f_wake _ 1 "k" 0 (mkCall false (Some 7, None))); done|]; cbn.
  apply rtc_refl.
Qed.

Lemma flights_shared_witness : (1 ∉ (ran demo_flights).*1) /\
  exists j, threads demo_flights !! j = Some (Returned "k" 0 true (Some 7, None)) \/
    threads demo_flights !! j = Some (Panicked "k" 0) /\ (Some 7, None) = (None, None) :> @result nat nat.
Proof.
  exact (proj1 (proj2 (proj2 (proj2 (flights_shared demo_flights demo_flights_reached)))) 1 "k" 0 (Some 7, None) eq_refl).
Defined.

Lemma flights_return_witness :
  (exists g', fstep demo_flights g') \/ Forall (fun th => left_ th = 0) (threads demo_flights).
Proof. exact (proj1 (flights_return demo_flights demo_flights_reached)). Defined.
