(* ===== verification/CacheNode.v ===== *)
(** * [core/stores/cache]: a node of the redis cache

    [cachenode.go] with its options and counters, the retried deletions of [cleaner.go], and the
    commands of [core/stores/redis/redis.go] they use.  The code runs in the monad [M] of the
    prelude on a [world]: the redis servers, what the network does to the next commands, the
    clock, the random sources, the counters, the timers of the cleaner and the database.

    JSON is a class ([Codec]) with its laws.  [math/rand] is two streams of draws; the
    arithmetic of [mathx.Unstable] is exact (rationals), without the rounding of [float64].
    The cleaner's timing wheel is the table of the tasks with the time each is due, which is what
    [TimingWheel.v] proves of it; a task is set under a random key and replaces one of that key.
    A [Take] that shares the result of an ongoing one is given it ([SingleFlight.v] says which). *)

From S2P Require Import Prelude.
From S2P Require Import Redis.
From Stdlib Require Import QArith Qround.
From stdpp Require Import functions.
Local Open Scope Z_scope.

(** ** Errors *)

Inductive error :=
| errNotFound
| errPlaceholder
| Err (msg : string)
| Wrap (msg : string) (e : error)
| Join (e1 e2 : error).
#[export] Instance error_eq : EqDecision error.
Proof. solve_decision. Defined.

(** [errors.Is] *)
Fixpoint Is (e target : error) : bool :=
  bool_decide (e = target) ||
  match e with
  | Wrap _ e => Is e target
  | Join e1 e2 => Is e1 target || Is e2 target
  | _ => false
  end.

(** ** Durations *)

Definition Second : Z := 1000000000.
Definition Minute : Z := 60 * Second.
Definition Hour : Z := 60 * Minute.

(** [int(math.Ceil(d.Seconds()))] *)
Definition ceilSeconds (d : Z) : Z := - ((- d) / Second).

(** [mathx/unstable.go]: the deviation is clamped to [0, 1]; [r] is a draw from [0, 1). *)
Definition NewUnstable (deviation : Q) : Q :=
  if negb (Qle_bool 0 deviation) then 0%Q
  else if negb (Qle_bool deviation 1) then 1%Q else deviation.
Definition trunc (q : Q) : Z := Z.quot (Qnum q) (Zpos (Qden q)).
Definition AroundDuration (deviation r : Q) (base : Z) : Z :=
  trunc ((1 + deviation - 2 * deviation * r) * inject_Z base).

Definition notFoundPlaceholder : string := "*".
Definition expiryDeviation : Q := 5 # 100.

(** ** Options and nodes *)

Record Options := mkOptions { Expiry : Z; NotFoundExpiry : Z }.
Definition defaultExpiry : Z := Hour * 24 * 7.
Definition defaultNotFoundExpiry : Z := Minute.
Definition newOptions (opts : list (Options -> Options)) : Options :=
  let o := foldl (fun o opt => opt o) (mkOptions 0 0) opts in
  mkOptions (if Expiry o <=? 0 then defaultExpiry else Expiry o)
    (if NotFoundExpiry o <=? 0 then defaultNotFoundExpiry else NotFoundExpiry o).
Definition WithExpiry (expiry : Z) (o : Options) : Options := mkOptions expiry (NotFoundExpiry o).
Definition WithNotFoundExpiry (expiry : Z) (o : Options) : Options := mkOptions (Expiry o) expiry.

(** The redis of a node is one of the servers, alone or a redis cluster. *)
Record cacheNode := mkNode {
  rds : nat;
  rds_Addr : string;
  rds_cluster : bool;
  expiry : Z;
  notFoundExpiry : Z;
  unstableExpiry : Q
}.
Definition NewNode (rds : nat) (addr : string) (cluster : bool) (opts : list (Options -> Options)) : cacheNode :=
  let o := newOptions opts in
  mkNode rds addr cluster (Expiry o) (NotFoundExpiry o) (NewUnstable expiryDeviation).

(** [cachestat.go]: counters of 64 bits. *)
Record Stat := mkStat { Total : Z; Hit : Z; Miss : Z; DbFails : Z }.
Definition inc64 (z : Z) : Z := (z + 1) mod 2 ^ 64.
Definition IncrementTotal (s : Stat) : Stat := mkStat (inc64 (Total s)) (Hit s) (Miss s) (DbFails s).
Definition IncrementHit (s : Stat) : Stat := mkStat (Total s) (inc64 (Hit s)) (Miss s) (DbFails s).
Definition IncrementMiss (s : Stat) : Stat := mkStat (Total s) (Hit s) (inc64 (Miss s)) (DbFails s).
Definition IncrementDbFails (s : Stat) : Stat := mkStat (Total s) (Hit s) (Miss s) (inc64 (DbFails s)).

(** A deletion to be retried: [task] is the deletion of [t_keys] on the server [t_rds]. *)
Record delayTask := mkTask { t_due : Z; t_delay : Z; t_rds : nat; t_keys : list string }.

(** ** JSON *)

Class Codec (A : Type) := {
  Marshal : A -> error + string;
  (** into a variable with the given contents *)
  Unmarshal : string -> A -> A * option error;
  (** a variable as its declaration leaves it *)
  blank : A -> Prop
}.

Class CodecLaws (A : Type) `{!Codec A} := {
  marshal_text a d : Marshal a = inr d -> d <> "" /\ d <> notFoundPlaceholder;
  unmarshal_marshal a d v : Marshal a = inr d -> blank v ->
    exists a', Unmarshal d v = (a', None) /\ Marshal a' = inr d
}.

Section node.
Context {R A D : Type} `{!RedisStrings R} `{!Codec A}.
(** The draws of the random sources: of [Float64] for the expiries, of [stringx.Randn] for the
    keys of the cleaner's tasks. *)
Context (draw : nat -> Q) (Randn : nat -> string).

Record world := mkWorld {
  servers : nat -> R;
  clock : Z;
  net : list (delivery error);
  draws : nat;
  names : nat;
  stat : Stat;
  timers : gmap string delayTask;
  reports : list delayTask;
  db : D
}.

Definition with_server (n : nat) (r : R) (w : world) : world :=
  mkWorld (<[n := r]> (servers w)) (clock w) (net w) (draws w) (names w) (stat w) (timers w) (reports w) (db w).
Definition with_net (l : list (delivery error)) (w : world) : world :=
  mkWorld (servers w) (clock w) l (draws w) (names w) (stat w) (timers w) (reports w) (db w).
Definition with_stat (f : Stat -> Stat) (w : world) : world :=
  mkWorld (servers w) (clock w) (net w) (draws w) (names w) (f (stat w)) (timers w) (reports w) (db w).
Definition with_timers (f : gmap string delayTask -> gmap string delayTask) (w : world) : world :=
  mkWorld (servers w) (clock w) (net w) (draws w) (names w) (stat w) (f (timers w)) (reports w) (db w).
Definition with_db (d : D) (w : world) : world :=
  mkWorld (servers w) (clock w) (net w) (draws w) (names w) (stat w) (timers w) (reports w) d.

(** ** Redis, through the network *)

(** A command [f] on server [n]: nothing more in [net] means that it is answered. *)
Definition command {X} (n : nat) (f : Z -> R -> (error + X) * R) : M world (error + X) := fun w =>
  let '(x, r) := f (clock w) (servers w n) in
  Ok (match net w with
      | [] => (x, with_server n r w)
      | Answered :: l => (x, with_server n r (with_net l w))
      | NotRun e :: l => (inl e, with_net l w)
      | AnswerLost e :: l => (inl e, with_server n r (with_net l w))
      end).

(** The nil reply is the empty string. *)
Definition rds_GetCtx (n : nat) (key : string) : M world (error + string) :=
  (let! r := command n (fun c s => (inr (rs_get c key s), s)) in
   ret (match r with
        | inl e => inl e
        | inr None => inr ""
        | inr (Some v) => inr v
        end))%go.
Definition rds_SetexCtx (n : nat) (key value : string) (seconds : Z) : M world (option error) :=
  (let! r := command n (fun c s => (inr (), rs_set c key value seconds s)) in
   ret (match r with inl e => Some e | inr _ => None end))%go.
Definition rds_SetnxExCtx (n : nat) (key value : string) (seconds : Z) : M world (error + bool) :=
  command n (fun c s =>
    match rs_setnx c key value seconds s with
    | Some (done, s) => (inr done, s)
    | None => (inl (Err "ERR invalid expire time in 'set' command"), s)
    end).
Definition rds_DelCtx (n : nat) (keys : list string) : M world (error + Z) :=
  command n (fun c s => let '(k, s) := rs_del c keys s in (inr k, s)).

Definition count (f : Stat -> Stat) : M world () := modify (with_stat f).

(** ** [cleaner.go] *)

Definition timingWheelSlots : Z := 300.
Definition taskKeyLen : Z := 8.

(** [SetTimer] of the wheel of one-second ticks. *)
Definition setTimer (name : string) (delay : Z) (t : delayTask) (w : world) : world :=
  with_timers <[name := mkTask (clock w + delay / Second) (t_delay t) (t_rds t) (t_keys t)]> w.

Definition AddCleanTask (n : nat) (keys : list string) : M world () := fun w =>
  Ok ((), setTimer (Randn (names w)) Second (mkTask 0 Second n keys)
        (mkWorld (servers w) (clock w) (net w) (draws w) (S (names w)) (stat w) (timers w) (reports w) (db w))).

Definition nextDelay (delay : Z) : option Z :=
  if delay =? Second then Some (Second * 5)
  else if delay =? Second * 5 then Some Minute
  else if delay =? Minute then Some (Minute * 5)
  else if delay =? Minute * 5 then Some Hour
  else None.

Definition report (t : delayTask) (w : world) : world :=
  mkWorld (servers w) (clock w) (net w) (draws w) (names w) (stat w) (timers w) (reports w ++ [t]) (db w).

(** What the wheel runs for the task [t] set under [name]. *)
Definition clean (name : string) (t : delayTask) : M world () :=
  (let! r := rds_DelCtx (t_rds t) (t_keys t) in
   match r with
   | inr _ => ret ()
   | inl _ =>
     match nextDelay (t_delay t) with
     | Some next => modify (setTimer name next (mkTask 0 next (t_rds t) (t_keys t)))
     | None => modify (report t)
     end
   end)%go.

(** The wheel takes a task that is due and runs it. *)
Definition fire (name : string) : M world () := fun w =>
  match timers w !! name with
  | Some t => if t_due t <=? clock w then clean name t (with_timers (delete name) w) else Ok ((), w)
  | None => Ok ((), w)
  end.

(** ** [cachenode.go] *)

Definition asyncRetryDelCache (c : cacheNode) (keys : list string) : M world () := AddCleanTask (rds c) keys.

(** One key at a time, on a redis cluster. *)
Fixpoint del_loop (c : cacheNode) (keys : list string) : M world () :=
  match keys with
  | [] => ret ()
  | key :: keys =>
    (let! r := rds_DelCtx (rds c) [key] in
     let! _ := match r with inl _ => asyncRetryDelCache c [key] | inr _ => ret () end in
     del_loop c keys)%go
  end.

Definition node_DelCtx (c : cacheNode) (keys : list string) : M world (option error) :=
  match keys with
  | [] => ret None
  | _ =>
    if (1 <? length keys)%nat && rds_cluster c then
      (let! _ := del_loop c keys in ret None)%go
    else
      (let! r := rds_DelCtx (rds c) keys in
       let! _ := match r with inl _ => asyncRetryDelCache c keys | inr _ => ret () end in
       ret None)%go
  end.

Definition aroundDuration (c : cacheNode) (duration : Z) : M world Z := fun w =>
  Ok (AroundDuration (unstableExpiry c) (draw (draws w)) duration,
      mkWorld (servers w) (clock w) (net w) (S (draws w)) (names w) (stat w) (timers w) (reports w) (db w)).

Definition node_SetWithExpireCtx (c : cacheNode) (key : string) (val : A) (expire : Z) : M world (option error) :=
  match Marshal val with
  | inl err => ret (Some err)
  | inr data => rds_SetexCtx (rds c) key data (ceilSeconds expire)
  end.
Definition node_SetCtx (c : cacheNode) (key : string) (val : A) : M world (option error) :=
  (let! d := aroundDuration c (expiry c) in node_SetWithExpireCtx c key val d)%go.

Definition processCache (c : cacheNode) (key data : string) (v : A) : M world (A * option error) :=
  let '(v, err) := Unmarshal data v in
  match err with
  | None => ret (v, None)
  | Some _ => (let! _ := rds_DelCtx (rds c) [key] in ret (v, Some errNotFound))%go
  end.

Definition doGetCache (c : cacheNode) (key : string) (v : A) : M world (A * option error) :=
  (let! _ := count IncrementTotal in
   let! r := rds_GetCtx (rds c) key in
   match r with
   | inl err => let! _ := count IncrementMiss in ret (v, Some err)
   | inr data =>
     if decide (data = "") then let! _ := count IncrementMiss in ret (v, Some errNotFound)
     else
       let! _ := count IncrementHit in
       if decide (data = notFoundPlaceholder) then ret (v, Some errPlaceholder)
       else processCache c key data v
   end)%go.

Definition node_GetCtx (c : cacheNode) (key : string) (v : A) : M world (A * option error) :=
  (let! '(v, err) := doGetCache c key v in
   match err with
   | Some err => if Is err errPlaceholder then ret (v, Some errNotFound) else ret (v, Some err)
   | None => ret (v, None)
   end)%go.

Definition node_IsNotFound (c : cacheNode) (err : error) : bool := Is err errNotFound.
Definition node_String (c : cacheNode) : string := rds_Addr c.

Definition setCacheWithNotFound (c : cacheNode) (key : string) : M world (option error) :=
  (let! d := aroundDuration c (notFoundExpiry c) in
   let! r := rds_SetnxExCtx (rds c) key notFoundPlaceholder (ceilSeconds d) in
   ret (match r with inl err => Some err | inr _ => None end))%go.

(** The caller's functions also change variables of the caller, [L]. *)
Section take.
Context {L : Type}.
Definition on_world {X} (m : M world X) : M (world * L) X := fun '(w, l) =>
  match m w with
  | Ok (x, w) => Ok (x, (w, l))
  | Panic msg => Panic msg
  end.

(** The function of the flight: the contents of [v], and what it returns. *)
Definition takeFn (c : cacheNode) (v : A) (key : string) (query : A -> M (world * L) (A * option error))
    (cacheVal : A -> M (world * L) (option error)) : M (world * L) (A * (error + string)) :=
  (let! '(v, err) := on_world (doGetCache c key v) in
   match err with
   | None => ret (v, Marshal v)
   | Some err =>
     if Is err errPlaceholder then ret (v, inl errNotFound)
     else if negb (Is err errNotFound) then ret (v, inl err)
     else
       let! '(v, err) := query v in
       match err with
       | Some err =>
         if Is err errNotFound then
           let! _ := on_world (setCacheWithNotFound c key) in
           ret (v, inl errNotFound)
         else
           let! _ := on_world (count IncrementDbFails) in
           ret (v, inl err)
       | None =>
         let! _ := cacheVal v in
         ret (v, Marshal v)
       end
   end)%go.

(** [flight]: nothing when this call runs the function, else the shared [val] and [err]. *)
Definition doTake (c : cacheNode) (flight : option (option string * option error)) (v : A) (key : string)
    (query : A -> M (world * L) (A * option error)) (cacheVal : A -> M (world * L) (option error))
    : M (world * L) (A * option error) :=
  match flight with
  | None =>
    (let! '(v, r) := takeFn c v key query cacheVal in
     ret (v, match r with inl err => Some err | inr _ => None end))%go
  | Some (_, Some err) => ret (v, Some err)
  | Some (val, None) =>
    (let! _ := on_world (count IncrementTotal) in
     let! _ := on_world (count IncrementHit) in
     match val with
     | None => panic "interface conversion: interface {} is nil, not []uint8"
     | Some val => ret (Unmarshal val v)
     end)%go
  end.

Definition node_TakeCtx (c : cacheNode) flight (v : A) (key : string)
    (query : A -> M (world * L) (A * option error)) : M (world * L) (A * option error) :=
  doTake c flight v key query (fun v => on_world (node_SetCtx c key v)).

Definition node_TakeWithExpireCtx (c : cacheNode) flight (v : A) (key : string)
    (query : A -> Z -> M (world * L) (A * option error)) : M (world * L) (A * option error) :=
  (let! expire := on_world (aroundDuration c (expiry c)) in
   doTake c flight v key (fun v => query v expire)
     (fun v => on_world (node_SetWithExpireCtx c key v expire)))%go.
End take.

(** ** Shared calls *)

(** A call that shares the result of an ongoing one answers like it.  When the call that runs
    the function of the flight ends with an error, so does the other; when it ends with a value,
    the other gets a value with the same JSON, counted as a hit, and its own query is not
    asked. *)
Theorem shared_take_same `{!CodecLaws A} {L} c v v1 v' key query cacheVal query' cacheVal' (s s1 s' : world * L) r :
  takeFn c v key query cacheVal s = Ok ((v1, r), s1) -> blank v' ->
  match r with
  | inl e => doTake c (Some (None, Some e)) v' key query' cacheVal' s' = Ok ((v', Some e), s')
  | inr d => exists v2, Marshal v2 = Marshal v1 /\
      doTake c (Some (Some d, None)) v' key query' cacheVal' s' =
        Ok ((v2, None), (with_stat (fun st => IncrementHit (IncrementTotal st)) s'.1, s'.2))
  end.
Proof.
  intros Ht Hb. assert (Hr : r = Marshal v1 \/ exists e, r = inl e).
  { refine (all_elim _ (fun x => x.2 = Marshal x.1 \/ exists e, x.2 = inl e) _ _ _ _ Ht).
    unfold takeFn. apply all_bind. intros [v2 [e|]]; [|apply all_ret; by left].
    destruct (Is e errPlaceholder); [apply all_ret; eauto|]. destruct (negb _); [apply all_ret; eauto|].
    apply all_bind. intros [v3 [qe|]]; [|apply all_bind; intros ?; apply all_ret; by left].
    destruct (Is qe errNotFound); apply all_bind; intros ?; apply all_ret; eauto. }
  destruct r as [e|d]; [done|]. destruct Hr as [Hr|[e Hr]]; [|done].
  destruct (unmarshal_marshal v1 d v' (eq_sym Hr) Hb) as (v2 & Hu & Hm). exists v2. split; [congruence|].
  destruct s' as [w' l']. unfold doTake, bind, on_world. simpl. by rewrite Hu.
Qed.

(** ** What is cached *)

Context `{!RedisStringsLaws R} `{!CodecLaws A}.
Implicit Types (w : world) (o : option A) (T : string -> option A) (place : string -> nat -> Prop).

Definition cached (n : nat) w (k : string) : option string := fst <$> alive (clock w) (rs_view (servers w n) k).

(** The text [d] stands for [o], or for nothing. *)
Definition tells (d : string) o : Prop :=
  d = "" \/ (d = notFoundPlaceholder /\ o = None) \/ exists a, o = Some a /\ Marshal a = inr d.
Definition agrees (n : nat) w (k : string) o : Prop :=
  match cached n w k with Some d => tells d o | None => True end.

(** A deletion of the key is still to be tried again, or was given up and reported. *)
Definition deletes (n : nat) (k : string) (t : delayTask) : Prop := t_rds t = n /\ k ∈ t_keys t.
Definition retried (n : nat) w (k : string) : Prop :=
  (exists name t, timers w !! name = Some t /\ deletes n k t) \/ Exists (deletes n k) (reports w).

(** [place] says which servers a key is on, [T] what is true of the keys. *)
Definition coherent place T w : Prop :=
  forall k n, place k n -> retried n w k \/ agrees n w k (T k).

(** Errors of the network are none of the cache's own. *)
Definition net_error (e : error) : Prop := Is e errNotFound = false /\ Is e errPlaceholder = false.
Definition delivery_ok (d : delivery error) : Prop :=
  match d with Answered => True | NotRun e | AnswerLost e => net_error e end.

(** The cleaner's tasks have keys that were drawn. *)
Record good w : Prop := {
  go_net : Forall delivery_ok (net w);
  go_names : forall name, is_Some (timers w !! name) -> exists i, (i < names w)%nat /\ name = Randn i
}.

Record quiet w w' : Prop := {
  qu_clock : clock w' = clock w;
  qu_timers : timers w' = timers w;
  qu_reports : reports w' = reports w;
  qu_db : db w' = db w;
  qu_names : names w' = names w;
  qu_net : net w' `suffix_of` net w
}.

(** The states an operation that began in [w0] goes through. *)
Record st place T w0 w : Prop := {
  st_quiet : quiet w0 w;
  st_good : good w;
  st_coherent : coherent place T w
}.

Lemma retried_quiet w w' n k : quiet w w' -> retried n w' k <-> retried n w k.
Proof. intros Hq. unfold retried. by rewrite (qu_timers _ _ Hq), (qu_reports _ _ Hq). Qed.

Lemma good_suffix w w' : good w -> quiet w w' -> good w'.
Proof.
  intros [Hn Ht] Hq. split.
  - destruct (qu_net _ _ Hq) as [l Hl]. rewrite Hl in Hn. by apply Forall_app in Hn as [_ Hn].
  - rewrite (qu_timers _ _ Hq), (qu_names _ _ Hq). done.
Qed.

Lemma quiet_refl w : quiet w w.
Proof. by split. Qed.
Lemma quiet_trans w1 w2 w3 : quiet w1 w2 -> quiet w2 w3 -> quiet w1 w3.
Proof. intros [] []. split; try congruence. by etrans. Qed.

Lemma st_refl place T w : good w -> coherent place T w -> st place T w w.
Proof. by split; [apply quiet_refl| |]. Qed.

(** A quiet step keeps the state when what it leaves cached is as before, nothing or true. *)
Lemma st_step place T w0 w w' : st place T w0 w -> quiet w w' ->
  (forall n k, place k n -> cached n w' k = cached n w k \/ agrees n w' k (T k)) -> st place T w0 w'.
Proof.
  intros [Hq Hg Hc] Hq' Hk. split; [by eapply quiet_trans|by eapply good_suffix|].
  intros k n Hp. destruct (Hc k n Hp) as [Hr|Ha]; [left; by apply (retried_quiet w)|].
  destruct (Hk n k Hp) as [Heq|Ha']; right; [|done]. unfold agrees in *. by rewrite Heq.
Qed.

Lemma st_stat place T w0 w f : st place T w0 w -> st place T w0 (with_stat f w).
Proof. intros Hs. apply (st_step _ _ _ _ _ Hs); [by split|auto]. Qed.

Lemma cached_server n r w n' k :
  cached n' (with_server n r w) k = if decide (n = n') then fst <$> alive (clock w) (rs_view r k) else cached n' w k.
Proof.
  unfold cached. simpl. destruct (decide (n = n')) as [->|Hne]; [by rewrite fn_lookup_insert|by rewrite fn_lookup_insert_ne].
Qed.

(** A command keeps the state when what it does to the server is one of those. *)
Lemma wp_command {X} place T w0 w n (f : Z -> R -> (error + X) * R) Q : st place T w0 w ->
  (forall k, place k n -> rs_view (f (clock w) (servers w n)).2 k = rs_view (servers w n) k \/
     match fst <$> alive (clock w) (rs_view (f (clock w) (servers w n)).2 k) with Some d => tells d (T k) | None => True end) ->
  (forall w', st place T w0 w' -> (f (clock w) (servers w n)).2 = servers w' n ->
     Q (f (clock w) (servers w n)).1 w') ->
  (forall e w', st place T w0 w' -> net_error e -> net w0 <> [] -> Q (inl e) w') ->
  wp (command n f) w Q.
Proof.
  intros Hs Hf Hok Herr. unfold wp, command. destruct (f (clock w) (servers w n)) as [x r]. simpl in *.
  assert (Hsuf : forall l, l `suffix_of` net w -> quiet w (with_net l w)) by (by split).
  assert (Hserver : forall l, l `suffix_of` net w -> st place T w0 (with_server n r (with_net l w))).
  { intros l Hl. apply (st_step _ _ _ _ _ Hs); [by split|]. intros n' k Hp. rewrite cached_server.
    unfold agrees. rewrite cached_server. destruct (decide (n = n')) as [<-|Hne]; [|by left].
    destruct (Hf k Hp) as [Hv|Ht]; [left|by right]. unfold cached. simpl. by rewrite Hv. }
  assert (Hnet : forall l, l `suffix_of` net w -> st place T w0 (with_net l w)).
  { intros l Hl. apply (st_step _ _ _ _ _ Hs); [by apply Hsuf|]. intros n' k _. by left. }
  pose proof (go_net _ (st_good _ _ _ _ Hs)) as Hg. pose proof (qu_net _ _ (st_quiet _ _ _ _ Hs)) as Hq.
  destruct (net w) as [|d l] eqn:Hn.
  - replace (with_server n r w) with (with_server n r (with_net [] w)) by (by destruct w; simpl in *; subst).
    apply Hok; [by apply Hserver|]. simpl. by rewrite fn_lookup_insert.
  - apply Forall_cons_1 in Hg as [Hd Hg]. assert (Hl : l `suffix_of` d :: l) by (by exists [d]).
    assert (Hne : net w0 <> []) by (intros Hz; rewrite Hz in Hq; by apply suffix_nil_inv in Hq).
    destruct d as [|e|e]; simpl; [|apply Herr; auto..].
    apply Hok; [by apply Hserver|]. simpl. by rewrite fn_lookup_insert.
Qed.

(** ** Specifications of the commands *)

Section specs.
Context (place : string -> nat -> Prop) (T : string -> option A) (w0 : world).
Abbreviation st0 := (st place T w0).

Lemma wp_GetCtx n key w : st0 w -> wp (rds_GetCtx n key) w (fun r w' => st0 w' /\
  match r with
  | inl e => net_error e /\ net w0 <> []
  | inr d => d = "" \/ cached n w key = Some d
  end).
Proof.
  intros Hs. apply wp_bind, (wp_command place T w0 w); [done|by left| |].
  - intros w' Hs' _. simpl. rewrite rs_get_law. fold (cached n w key).
    apply wp_ret. destruct (cached n w key) as [d|]; auto.
  - intros e w' Hs' He Hn. by apply wp_ret.
Qed.

Lemma wp_DelCtx n keys w : st0 w -> wp (rds_DelCtx n keys) w (fun r w' => st0 w' /\
  match r with inl e => net_error e /\ net w0 <> [] | inr _ => forall k, k ∈ keys -> cached n w' k = None end).
Proof.
  intros Hs. pose proof (rs_del_law (clock w) keys (servers w n)) as Hd. unfold rds_DelCtx.
  apply (wp_command place T w0 w); [done| | |auto].
  - intros k _. destruct (rs_del (clock w) keys (servers w n)) as [m r]. simpl in *. rewrite Hd.
    destruct (decide (k ∈ keys)); [by right|by left].
  - intros w' Hs' Hr. destruct (rs_del (clock w) keys (servers w n)) as [m r]. simpl in *. split; [done|].
    intros k Hk. unfold cached. rewrite <- Hr, Hd. by destruct (decide (k ∈ keys)).
Qed.

(** The errors of an operation that only the network can fail. *)
Definition only_net (err : option error) : Prop := forall e, err = Some e -> net_error e /\ net w0 <> [].

Lemma wp_SetexCtx n key a d secs w : st0 w -> T key = Some a -> Marshal a = inr d ->
  wp (rds_SetexCtx n key d secs) w (fun err w' => st0 w' /\ only_net err).
Proof.
  intros Hs Ht Hm. apply wp_bind, (wp_command place T w0 w); [done| | |].
  - intros k _. simpl. rewrite rs_set_law. destruct (decide (k = key)) as [->|Hne]; [right|by left].
    destruct (alive _ _) as [[d' e]|] eqn:Ha; [|done]. simpl in *. destruct (live_at _ _); simplify_eq.
    right. right. eauto.
  - intros w' Hs' _. by apply wp_ret.
  - intros e w' Hs' He Hn. apply wp_ret. split; [done|]. by intros ? [= <-].
Qed.

Lemma wp_SetnxExCtx n key secs w : st0 w -> T key = None ->
  wp (rds_SetnxExCtx n key notFoundPlaceholder secs) w (fun _ w' => st0 w').
Proof.
  intros Hs Ht. unfold rds_SetnxExCtx. pose proof (rs_setnx_law (clock w) key notFoundPlaceholder secs (servers w n)) as Hl.
  apply (wp_command place T w0 w); [done| |auto..]. intros k _.
  destruct (rs_setnx _ _ _ _ _) as [[done r]|]; simpl; [|by left]. destruct Hl as [_ Hl]. rewrite Hl.
  destruct (done && _) eqn:Hd; [right|by left]. bool_prop. subst k. simpl.
  destruct (live_at _ _); [|done]. right. left. auto.
Qed.

Lemma wp_aroundDuration c d w : st0 w -> wp (aroundDuration c d) w (fun _ w' => st0 w').
Proof. intros Hs. apply (st_step _ _ _ _ _ Hs); [by split|auto]. Qed.

(** ** Specifications of the node *)

Definition encodes : Prop := forall k a, T k = Some a -> exists d, Marshal a = inr d.
(** [v] has the JSON of what is true of the key. *)
Definition reads (key : string) (v : A) : Prop := exists a, T key = Some a /\ Marshal v = Marshal a.
Context (T_encodes : encodes).

Lemma wp_SetWithExpire c key v e w : st0 w -> reads key v ->
  wp (node_SetWithExpireCtx c key v e) w (fun err w' => st0 w' /\ only_net err).
Proof.
  intros Hs (a & Ht & Hm). destruct (T_encodes _ _ Ht) as [d Hd]. unfold node_SetWithExpireCtx.
  rewrite Hm, Hd. by eapply wp_SetexCtx.
Qed.

Lemma wp_Set c key v w : st0 w -> reads key v ->
  wp (node_SetCtx c key v) w (fun err w' => st0 w' /\ only_net err).
Proof.
  intros Hs Hr. eapply wp_bind, wp_mono; [by apply wp_aroundDuration|]. intros d w' Hs'. by apply wp_SetWithExpire.
Qed.

Lemma wp_setCacheWithNotFound c key w : st0 w -> T key = None ->
  wp (setCacheWithNotFound c key) w (fun _ w' => st0 w').
Proof.
  intros Hs Ht. eapply wp_bind, wp_mono; [by apply wp_aroundDuration|]. intros d w' Hs'.
  eapply wp_bind, wp_mono; [by apply wp_SetnxExCtx|]. intros r w'' Hs''. by apply wp_ret.
Qed.

Lemma agrees_of w n k : st0 w -> place k n -> ~ retried n w0 k -> agrees n w k (T k).
Proof.
  intros Hs Hp Hr. destruct (st_coherent _ _ _ _ Hs k n Hp) as [Hr'|Ha]; [|done].
  by destruct Hr; apply (retried_quiet _ _ _ _ (st_quiet _ _ _ _ Hs)).
Qed.

Lemma wp_doGetCache c key v w : st0 w -> place key (rds c) -> blank v ->
  wp (doGetCache c key v) w (fun '(v', err) w' => st0 w' /\
    match err with
    | None => ~ retried (rds c) w0 key -> reads key v'
    | Some e => e = errPlaceholder /\ (~ retried (rds c) w0 key -> T key = None) \/ e = errNotFound \/
        net_error e /\ net w0 <> []
    end).
Proof.
  intros Hs Hp Hb. apply wp_bind, wp_modify. apply (st_stat _ _ _ _ IncrementTotal) in Hs.
  set (w1 := with_stat IncrementTotal w) in *.
  eapply wp_bind, wp_mono; [by apply wp_GetCtx|]. simpl. intros [e|d] w2 [Hs2 Hr].
  { apply wp_bind, wp_modify, wp_ret. split; [by apply st_stat|auto]. }
  destruct (decide (d = "")) as [->|Hd].
  { apply wp_bind, wp_modify, wp_ret. split; [by apply st_stat|auto]. }
  apply wp_bind, wp_modify. apply (st_stat _ _ _ _ IncrementHit) in Hs2. destruct Hr as [?|Hc]; [done|].
  assert (Htell : ~ retried (rds c) w0 key -> tells d (T key)).
  { intros Hn. pose proof (agrees_of _ _ _ Hs Hp Hn) as Ha. unfold agrees in Ha. by rewrite Hc in Ha. }
  destruct (decide (d = notFoundPlaceholder)) as [->|Hd'].
  { apply wp_ret. split; [done|]. left. split; [done|]. intros Hn.
    destruct (Htell Hn) as [?|[[_ ?]|(a & _ & Hm)]]; [done|done|]. by apply marshal_text in Hm as [_ ?]. }
  unfold processCache. destruct (Unmarshal d v) as [v' [err|]] eqn:Hu.
  { eapply wp_bind, wp_mono; [by apply wp_DelCtx|]. intros r w3 [Hs3 _]. apply wp_ret. auto. }
  apply wp_ret. split; [done|]. intros Hn. destruct (Htell Hn) as [?|[[? _]|(a & Ht & Hm)]]; [done|done|].
  destruct (unmarshal_marshal _ _ v Hm Hb) as (a' & Hu' & Hm'). exists a. split; [done|]. congruence.
Qed.

(** What a call may answer when it runs its function: without a query, from the cache; or what
    the query said. *)
Definition answers (key : string) (v : A) (err : option error) : Prop :=
  match err with
  | None => reads key v
  | Some e => if Is e errNotFound then T key = None else net w0 <> []
  end.
Definition asked (err : option error) : option error :=
  match err with
  | None => None
  | Some e => Some (if Is e errNotFound then errNotFound else e)
  end.

Context {L : Type}.

Lemma wp_on_world {X} (m : M world X) w (l : L) Q :
  wp m w (fun x w' => Q x (w', l)) -> wp (on_world m) (w, l) Q.
Proof. unfold wp, on_world. by destruct (m w) as [[x w']|msg]. Qed.

(** A query that starts with the variables [l0] of the caller: it keeps the state, and ends with
    [J], which says that the answer is true of the key. *)
Definition query_ok (key : string) (l0 : L) (J : A -> option error -> L -> Prop)
    (query : A -> M (world * L) (A * option error)) : Prop :=
  (forall v w, st0 w -> wp (query v) (w, l0) (fun '(v', err) '(w', l') => st0 w' /\ J v' err l')) /\
  (forall v l, J v None l -> reads key v) /\
  (forall v e l, J v (Some e) l -> Is e errNotFound = true -> T key = None).

Lemma wp_doTake c key v l0 J query cacheVal w : st0 w -> place key (rds c) -> blank v ->
  query_ok key l0 J query ->
  (forall v w l, st0 w -> reads key v -> wp (cacheVal v) (w, l) (fun _ '(w', l') => st0 w' /\ l' = l)) ->
  wp (doTake c None v key query cacheVal) (w, l0) (fun '(v', err) '(w', l') => st0 w' /\
    (l' = l0 /\ (~ retried (rds c) w0 key -> answers key v' err) \/ exists qerr, J v' qerr l' /\ err = asked qerr)).
Proof.
  intros Hs Hp Hb (Hq & Hq1 & Hq2) Hc. unfold doTake. apply wp_bind, wp_bind, wp_on_world.
  assert (Hm : forall key v, reads key v -> exists d, Marshal v = inr d).
  { intros k v' (a & Ht & Hm). destruct (T_encodes _ _ Ht) as [d Hd]. exists d. congruence. }
  eapply wp_mono; [by apply wp_doGetCache|]. intros [v1 [e|]] w1 [Hs1 Hg].
  2: { apply wp_ret, wp_ret. split; [done|]. left. split; [done|]. intros Hn. specialize (Hg Hn).
       by destruct (Hm _ _ Hg) as [d ->]. }
  destruct (Is e errPlaceholder) eqn:He.
  { apply wp_ret, wp_ret. split; [done|]. left. split; [done|]. intros Hn. simpl.
    destruct Hg as [[_ Ht]|[->|[[_ ?] _]]]; [auto|done|congruence]. }
  destruct (Is e errNotFound) eqn:He'; simpl.
  2: { apply wp_ret, wp_ret. split; [done|]. left. split; [done|]. intros Hn. simpl. rewrite He'.
       destruct Hg as [[-> _]|[->|[_ ?]]]; done. }
  eapply wp_bind, wp_mono; [by apply Hq|]. intros [v2 [qe|]] [w2 l2] [Hs2 HJ].
  - destruct (Is qe errNotFound) eqn:Hqe.
    + apply wp_bind, wp_on_world. eapply wp_mono; [apply wp_setCacheWithNotFound; [done|by eapply Hq2]|].
      intros ? w3 Hs3. apply wp_ret, wp_ret. split; [done|]. right. exists (Some qe). split; [done|]. simpl. by rewrite Hqe.
    + apply wp_bind, wp_on_world, wp_modify, wp_ret, wp_ret. split; [by apply st_stat|]. right. exists (Some qe).
      split; [done|]. simpl. by rewrite Hqe.
  - eapply wp_bind, wp_mono; [apply Hc; [done|by eapply Hq1]|]. intros ? [w3 l3] [Hs3 ->].
    apply wp_ret, wp_ret. split; [done|]. right. exists None. split; [done|].
    destruct (Hm key v2) as [d ->]; [by eapply Hq1|done].
Qed.

(** The variable of the caller is filled from the cache or by its query. *)
Lemma wp_node_Take c key v l0 J query w : st0 w -> place key (rds c) -> blank v ->
  query_ok key l0 J query ->
  wp (node_TakeCtx c None v key query) (w, l0) (fun '(v', err) '(w', l') => st0 w' /\
    (l' = l0 /\ (~ retried (rds c) w0 key -> answers key v' err) \/ exists qerr, J v' qerr l' /\ err = asked qerr)).
Proof.
  intros Hs Hp Hb Hq. apply wp_doTake; try done. intros v' w' l Hs' Hr. apply wp_on_world.
  eapply wp_mono; [by apply wp_Set|]. by intros err w'' [].
Qed.

Lemma wp_node_TakeWithExpire c key v l0 J query w : st0 w -> place key (rds c) -> blank v ->
  (forall e, query_ok key l0 J (fun v => query v e)) ->
  wp (node_TakeWithExpireCtx c None v key query) (w, l0) (fun '(v', err) '(w', l') => st0 w' /\
    (l' = l0 /\ (~ retried (rds c) w0 key -> answers key v' err) \/ exists qerr, J v' qerr l' /\ err = asked qerr)).
Proof.
  intros Hs Hp Hb Hq. apply wp_bind, wp_on_world. eapply wp_mono; [by apply wp_aroundDuration|].
  intros e w' Hs'. apply wp_doTake; try done. intros v' w'' l Hs'' Hr. apply wp_on_world.
  eapply wp_mono; [by apply wp_SetWithExpire|]. by intros err w3 [].
Qed.

Lemma wp_node_Get c key v w : st0 w -> place key (rds c) -> blank v ->
  wp (node_GetCtx c key v) w (fun '(v', err) w' => st0 w' /\
    match err with
    | None => ~ retried (rds c) w0 key -> reads key v'
    | Some e => Is e errNotFound = true \/ net w0 <> []
    end).
Proof.
  intros Hs Hp Hb. eapply wp_bind, wp_mono; [by apply wp_doGetCache|]. intros [v' [e|]] w' [Hs' Hg]; [|by apply wp_ret].
  destruct (Is e errPlaceholder) eqn:He; apply wp_ret; (split; [done|]); [by left|].
  destruct Hg as [[-> _]|[->|[_ ?]]]; [|by left|by right]. done.
Qed.
End specs.

(** ** Deletions *)

(** Time and database do not change, and the world stays good. *)
Record calm w w' : Prop := {
  ca_clock : clock w' = clock w;
  ca_db : db w' = db w;
  ca_net : net w' `suffix_of` net w;
  ca_good : good w'
}.
Lemma calm_trans w1 w2 w3 : calm w1 w2 -> calm w2 w3 -> calm w1 w3.
Proof. intros [] []. split; try congruence. by etrans. Qed.
Lemma st_calm place T w0 w : st place T w0 w -> calm w0 w.
Proof. intros [[] Hg Hc]. by split. Qed.

Context `{!Inj (=) (=) Randn}.

Lemma wp_AddCleanTask place T n keys w : good w -> coherent place T w ->
  wp (AddCleanTask n keys) w (fun _ w' => calm w w' /\ coherent (fun k n' => place k n' \/ k ∈ keys /\ n' = n) T w').
Proof.
  intros [Hn Hd] Hc. unfold wp, AddCleanTask. split.
  - split; [done..|]. split; [done|]. simpl. intros name Hname. apply lookup_insert_is_Some in Hname as [<-|[_ Hname]].
    + exists (names w). split; [lia|done].
    + destruct (Hd _ Hname) as (i & Hi & ->). exists i. split; [lia|done].
  - intros k n' [Hp|[Hk ->]].
    + destruct (Hc _ _ Hp) as [[(name & t & Ht & Hdel)|Hr]|Ha]; [|by left; right|by right].
      left. left. exists name, t. split; [|done]. simpl. rewrite lookup_insert_ne; [done|]. intros <-.
      destruct (Hd (Randn (names w))) as (i & Hi & Heq); [by eauto|]. apply (inj Randn) in Heq. lia.
    + left. left. eexists (Randn (names w)), _. split; [apply lookup_insert_eq|done].
Qed.

(** A deletion on server [n] that is retried when it fails. *)
Lemma wp_del_or_retry place T n keys w : good w -> coherent place T w ->
  wp (let! r := rds_DelCtx n keys in match r with inl _ => AddCleanTask n keys | inr _ => ret () end)%go w
    (fun _ w' => calm w w' /\ coherent (fun k n' => place k n' \/ k ∈ keys /\ n' = n) T w').
Proof.
  intros Hg Hc. eapply wp_bind, wp_mono; [by apply (wp_DelCtx place T w), st_refl|].
  intros [e|m] w1 [Hs Hr]; pose proof (st_calm _ _ _ _ Hs) as Hca.
  - eapply wp_mono; [by apply wp_AddCleanTask; [apply Hs|apply Hs]|]. intros ? w2 [Hca2 Hc2]. split; [by eapply calm_trans|done].
  - apply wp_ret. split; [done|]. intros k n' [Hp|[Hk ->]]; [by apply (st_coherent _ _ _ _ Hs)|].
    right. unfold agrees. by rewrite Hr.
Qed.

Lemma coherent_mono place place' T w : (forall k n, place' k n -> place k n) -> coherent place T w -> coherent place' T w.
Proof. intros Hp Hc k n Hk. auto. Qed.

Lemma wp_del_loop c keys : forall place T w, good w -> coherent place T w ->
  wp (del_loop c keys) w (fun _ w' => calm w w' /\ coherent (fun k n => place k n \/ k ∈ keys /\ n = rds c) T w').
Proof.
  induction keys as [|key keys IH]; intros place T w Hg Hc; simpl.
  { apply wp_ret. split; [by split|]. intros k n [Hp|[Hk _]]; [auto|by apply not_elem_of_nil in Hk]. }
  apply wp_assoc, wp_bind. eapply wp_mono; [by apply (wp_del_or_retry place T (rds c) [key])|]. intros ? w2 [Hca Hc2].
  eapply wp_mono; [apply IH; [apply Hca|done]|]. intros ? w3 [Hca2 Hc3]. split; [by eapply calm_trans|].
  eapply coherent_mono; [|done]. intros k n. rewrite elem_of_cons, list_elem_of_singleton. tauto.
Qed.

(** After [Del] the keys are no longer cached, or their deletion is retried: whatever is true of
    them now. *)
Lemma wp_node_Del place T c keys w : good w -> coherent place T w ->
  wp (node_DelCtx c keys) w (fun err w' => err = None /\ calm w w' /\
    coherent (fun k n => place k n \/ k ∈ keys /\ n = rds c) T w').
Proof.
  intros Hg Hc. unfold node_DelCtx. destruct keys as [|key keys].
  { apply wp_ret. split_and!; [done|by split|]. intros k n [Hp|[Hk _]]; [auto|by apply not_elem_of_nil in Hk]. }
  destruct (_ && _).
  - eapply wp_bind, wp_mono; [by apply wp_del_loop|]. intros ? w' Hw. by apply wp_ret.
  - apply wp_assoc, wp_bind. eapply wp_mono; [by apply (wp_del_or_retry place T (rds c) (key :: keys))|].
    intros ? w' Hw. by apply wp_ret.
Qed.

(** ** The cleaner *)

Lemma wp_clean place T name t w : good w -> timers w !! name = None -> (exists i, (i < names w)%nat /\ name = Randn i) ->
  coherent place T w ->
  wp (clean name t) w (fun _ w' => calm w w' /\ coherent (fun k n => place k n \/ deletes n k t) T w').
Proof.
  intros Hg Hnone Hname Hc. eapply wp_bind, wp_mono; [by apply (wp_DelCtx place T w), st_refl|].
  intros [e|m] w1 [Hs Hr]; pose proof (st_calm _ _ _ _ Hs) as Hca; pose proof (st_quiet _ _ _ _ Hs) as Hq;
    pose proof (st_coherent _ _ _ _ Hs) as Hc1.
  - destruct (nextDelay (t_delay t)) as [next|]; apply wp_modify; (split; [destruct Hca as [? ? ? [Hn Ht]]; split; [done..|]|]).
    + split; [done|]. simpl. intros nm Hnm. apply lookup_insert_is_Some in Hnm as [<-|[_ Hnm]]; [|by apply Ht].
      rewrite (qu_names _ _ Hq). done.
    + intros k n [Hp|[Hn Hk]].
      * destruct (Hc1 _ _ Hp) as [[(nm & t' & Ht & Hdel)|Hr']|Ha]; [|by left; right|by right].
        left. left. exists nm, t'. split; [|done]. simpl. rewrite lookup_insert_ne; [done|]. intros <-.
        rewrite (qu_timers _ _ Hq) in Ht. congruence.
      * left. left. eexists name, _. split; [apply lookup_insert_eq|by split].
    + split; done.
    + intros k n [Hp|Hd].
      * destruct (Hc1 _ _ Hp) as [[Hr'|Hr']|Ha]; [by left; left| |by right]. left. right. simpl. apply Exists_app. by left.
      * left. right. simpl. apply Exists_app. right. by apply Exists_cons_hd.
  - apply wp_ret. split; [done|]. intros k n [Hp|[<- Hk]]; [auto|]. right. unfold agrees. by rewrite Hr.
Qed.

(** Running the task under any name keeps the caches coherent. *)
Lemma wp_fire place T name w : good w -> coherent place T w ->
  wp (fire name) w (fun _ w' => calm w w' /\ coherent place T w').
Proof.
  intros Hg Hc. unfold wp, fire. destruct (timers w !! name) as [t|] eqn:Ht; [|by split; [split|]]. fold (@wp world ()).
  destruct (t_due t <=? clock w); [|by split; [split|]].
  assert (Hg' : good (with_timers (delete name) w)).
  { destruct Hg as [Hn Hd]. split; [done|]. simpl. intros nm Hnm. apply Hd. by apply lookup_delete_is_Some in Hnm as [_ ?]. }
  eapply wp_mono; [apply (wp_clean (fun k n => place k n /\ ~ deletes n k t) T name t (with_timers (delete name) w) Hg')|].
  - simpl. apply lookup_delete_eq.
  - destruct (go_names _ Hg name) as (i & Hi & ->); [by eauto|]. by exists i.
  - intros k n [Hp Hnd]. destruct (Hc k n Hp) as [[(nm & t' & Ht' & Hdel)|Hr]|Ha]; [|by left; right|by right].
    left. left. exists nm, t'. split; [|done]. simpl. rewrite lookup_delete_ne; [done|]. intros <-. by simplify_eq.
  - intros ? w' [Hca Hc']. split; [by destruct Hca|]. eapply coherent_mono; [|done]. intros k n Hp. simpl.
    destruct (decide (t_rds t = n /\ k ∈ t_keys t)); [by right|by left].
Qed.
End node.
