(* ===== verification/CacheCluster.v ===== *)
(** * [core/stores/cache/cache.go]: the interface of a cache, and the cluster of nodes

    [Cache] has the operations of the interface of that name, and [CacheLaws] what a client
    relies on: an operation keeps what is cached true of the keys, a [Take] answers what is
    true, and after a [Del] the keys may have changed.  A node is an instance, and so is a
    cluster, which finds the node of a key in a consistent hash ([ConsistentHash.v]). *)

From S2P Require Import Prelude.
From S2P Require Import Redis.
From S2P Require Import ConsistentHash.
From S2P Require Import CacheNode.

(** ** The interface *)

Section interface.
Context {R A D : Type} `{!RedisStrings R} `{!Codec A}.
Abbreviation W := (@world R D).

(** The variables [L] of the caller and the flight a call shares are as in [CacheNode.v]. *)
Class Cache (C : Type) := {
  DelCtx : C -> list string -> M W (option error);
  GetCtx : C -> string -> A -> M W (A * option error);
  IsNotFound : C -> error -> bool;
  SetCtx : C -> string -> A -> M W (option error);
  SetWithExpireCtx : C -> string -> A -> Z -> M W (option error);
  TakeCtx {L} : C -> option (option string * option error) -> A -> string ->
    (A -> M (W * L) (A * option error)) -> M (W * L) (A * option error);
  TakeWithExpireCtx {L} : C -> option (option string * option error) -> A -> string ->
    (A -> Z -> M (W * L) (A * option error)) -> M (W * L) (A * option error)
}.

Context `{!RedisStringsLaws R} `{!CodecLaws A}.
Context (Randn : nat -> string).

(** A deletion of the key is still to be done on a server it lives on. *)
Definition stale (lives : string -> nat -> Prop) (w : W) (key : string) : Prop :=
  exists n, lives key n /\ retried n w key.

(** What a [Take] says of a key: the query was not asked, and the answer is from the cache, or it
    was asked, and the answer is what it said. *)
Definition taken {L} lives (T : string -> option A) (w0 : W) (key : string) (l0 : L)
    (J : A -> option error -> L -> Prop) (v : A) (err : option error) (l : L) : Prop :=
  l = l0 /\ (~ stale lives w0 key -> answers T w0 key v err) \/ exists qerr, J v qerr l /\ err = asked qerr.

Class CacheLaws (C : Type) `{!Cache C} := {
  cache_ok : C -> Prop;
  (** the servers a key lives on *)
  lives : C -> string -> nat -> Prop;
  del_law c T keys w : cache_ok c -> good Randn w -> coherent (fun k n => lives c k n /\ k ∉ keys) T w ->
    wp (DelCtx c keys) w (fun err w' => err = None /\ calm Randn w w' /\ coherent (lives c) T w');
  get_law c T w0 key v w : cache_ok c -> st Randn (lives c) T w0 w -> blank v ->
    wp (GetCtx c key v) w (fun '(v', err) w' => st Randn (lives c) T w0 w' /\
      match err with
      | None => ~ stale (lives c) w0 key -> reads T key v'
      | Some e => Is e errNotFound = true \/ net w0 <> []
      end);
  set_law c T w0 key v w : cache_ok c -> encodes T -> st Randn (lives c) T w0 w -> reads T key v ->
    wp (SetCtx c key v) w (fun err w' => st Randn (lives c) T w0 w' /\ only_net w0 err);
  set_with_expire_law c T w0 key v e w : cache_ok c -> encodes T -> st Randn (lives c) T w0 w -> reads T key v ->
    wp (SetWithExpireCtx c key v e) w (fun err w' => st Randn (lives c) T w0 w' /\ only_net w0 err);
  take_law {L} c T w0 key v (l0 : L) J query w : cache_ok c -> encodes T -> st Randn (lives c) T w0 w -> blank v ->
    query_ok Randn (lives c) T w0 key l0 J query ->
    wp (TakeCtx c None v key query) (w, l0) (fun '(v', err) '(w', l') =>
      st Randn (lives c) T w0 w' /\ taken (lives c) T w0 key l0 J v' err l');
  take_with_expire_law {L} c T w0 key v (l0 : L) J query w : cache_ok c -> encodes T ->
    st Randn (lives c) T w0 w -> blank v ->
    (forall e, query_ok Randn (lives c) T w0 key l0 J (fun v => query v e)) ->
    wp (TakeWithExpireCtx c None v key query) (w, l0) (fun '(v', err) '(w', l') =>
      st Randn (lives c) T w0 w' /\ taken (lives c) T w0 key l0 J v' err l')
}.
End interface.

(** ** A node is a cache *)

Section node.
Context {R A D : Type} `{!RedisStrings R} `{!Codec A}.
Context (draw : nat -> QArith_base.Q) (Randn : nat -> string).

#[export] Instance node_cache : Cache (R := R) (A := A) (D := D) cacheNode := {
  DelCtx := node_DelCtx Randn;
  GetCtx := node_GetCtx;
  IsNotFound := node_IsNotFound;
  SetCtx := node_SetCtx draw;
  SetWithExpireCtx := node_SetWithExpireCtx;
  TakeCtx L := node_TakeCtx draw;
  TakeWithExpireCtx L := node_TakeWithExpireCtx draw
}.

Context `{!RedisStringsLaws R} `{!CodecLaws A} `{!Inj (=) (=) Randn}.

Lemma not_stale (lives : string -> nat -> Prop) (w : @world R D) key n :
  lives key n -> ~ stale lives w key -> ~ retried n w key.
Proof. intros Hl Hn Hr. apply Hn. by exists n. Qed.

(** All keys live on the server of the node. *)
Definition on_node (c : cacheNode) (key : string) (n : nat) : Prop := n = rds c.

#[export] Program Instance node_laws : CacheLaws (D := D) Randn cacheNode := {
  cache_ok c := True;
  lives := on_node
}.
Next Obligation.
  intros c T keys w _ Hg Hc. eapply wp_mono; [by apply (wp_node_Del draw Randn _ T c keys w Hg Hc)|].
  intros err w' (He & Hca & Hc'). split_and!; [done..|]. eapply coherent_mono; [|done].
  intros k n ->. simpl. destruct (decide (k ∈ keys)); [by right|by left].
Qed.
Next Obligation.
  intros c T w0 key v w _ Hs Hb. eapply wp_mono; [by apply (wp_node_Get Randn (on_node c) T w0)|].
  intros [v' [e|]] w' [Hs' Hr]; [done|]. split; [done|]. intros Hn. by apply Hr, (not_stale _ _ _ _ eq_refl Hn).
Qed.
Next Obligation. intros c T w0 key v w _ He Hs Hr. by apply (wp_Set draw). Qed.
Next Obligation. intros c T w0 key v e w _ He Hs Hr. by apply wp_SetWithExpire. Qed.
Next Obligation.
  intros L c T w0 key v l0 J query w _ He Hs Hb Hq. eapply wp_mono; [by apply (wp_node_Take draw Randn (on_node c) T w0)|].
  intros [v' err] [w' l'] [Hs' Hr]. split; [done|]. destruct Hr as [[-> Hr]|Hr]; [left|by right].
  split; [done|]. intros Hn. by apply Hr, (not_stale _ _ _ _ eq_refl Hn).
Qed.
Next Obligation.
  intros L c T w0 key v l0 J query w _ He Hs Hb Hq. eapply wp_mono; [by apply (wp_node_TakeWithExpire draw Randn (on_node c) T w0)|].
  intros [v' err] [w' l'] [Hs' Hr]. split; [done|]. destruct Hr as [[-> Hr]|Hr]; [left|by right].
  split; [done|]. intros Hn. by apply Hr, (not_stale _ _ _ _ eq_refl Hn).
Qed.
End node.

(** ** The cluster *)

(** What a ring holds and is asked for: nodes, and keys. *)
Variant member := MNode (c : cacheNode) | MKey (key : string).

(** [be.Err()] of a [BatchError] *)
Fixpoint joinErrs (es : list error) : option error :=
  match es with
  | [] => None
  | e :: es => Some (match joinErrs es with Some e' => Join e e' | None => e end)
  end.

Record NodeConf := mkConf { nc_rds : nat; nc_addr : string; nc_cluster : bool; Weight : Z }.

Fixpoint TotalWeights (c : list NodeConf) : Z :=
  match c with
  | [] => 0
  | node :: c => (if Weight node <? 0 then 0 else Weight node) + TotalWeights c
  end%Z.

Record cacheCluster := mkCluster { dispatcher : @ConsistentHash member }.

Section cluster.
Context {R A D : Type} `{!RedisStrings R} `{!Codec A}.
Context (draw : nat -> QArith_base.Q) (Randn : nat -> string).
Abbreviation W := (@world R D).
(** The hash function and the text [innerRepr] gives a value. *)
Context (hashFunc : gostr -> N) (innerRepr : member -> gostr).
(** The order in which Go iterates over a map. *)
Context (ord : list (nat * (cacheNode * list string)) -> list (nat * (cacheNode * list string))).

(** [lang.Repr] *)
Definition repr (m : member) : gostr :=
  match m with
  | MNode c => lit (node_String c)
  | MKey key => lit key
  end.

Definition conf_node (opts : list (Options -> Options)) (node : NodeConf) : cacheNode :=
  NewNode (nc_rds node) (nc_addr node) (nc_cluster node) opts.

Definition new_dispatcher (opts : list (Options -> Options)) (c : list NodeConf) : @ConsistentHash member :=
  foldl (fun h node => AddWithWeight hashFunc repr (MNode (conf_node opts node)) (Weight node) h) NewConsistentHash c.

(** [New]: [None] is the end of the process in [log.Fatal]. *)
Definition New (c : list NodeConf) (opts : list (Options -> Options)) : option (cacheNode + cacheCluster) :=
  if (length c =? 0) || (TotalWeights c <=? 0)%Z then None
  else match c with
       | [node] => Some (inl (conf_node opts node))
       | _ => Some (inr (mkCluster (new_dispatcher opts c)))
       end.

(** [cc.dispatcher.Get(key)] and the type assertion [c.(Cache)]. *)
Definition dispatch (cc : cacheCluster) (key : string) : outcome (option cacheNode) :=
  match Get hashFunc repr innerRepr (MKey key) (dispatcher cc) with
  | Panic msg => Panic msg
  | Ok None => Ok None
  | Ok (Some (MNode c)) => Ok (Some c)
  | Ok (Some (MKey _)) => Panic "interface conversion: string is not cache.Cache"
  end.

(** The body of most methods: [x] is what is returned when there is no node. *)
Definition on_key {S X} (cc : cacheCluster) (key : string) (x : X) (f : cacheNode -> M S X) : M S X := fun s =>
  match dispatch cc key with
  | Panic msg => Panic msg
  | Ok None => Ok (x, s)
  | Ok (Some c) => f c s
  end.

(** The two loops of [DelCtx]: group the keys by node, then delete each group. *)
Fixpoint group_keys (cc : cacheCluster) (keys : list string) (nodes : gmap nat (cacheNode * list string))
    (be : list error) : outcome (gmap nat (cacheNode * list string) * list error) :=
  match keys with
  | [] => Ok (nodes, be)
  | key :: keys =>
    match dispatch cc key with
    | Panic msg => Panic msg
    | Ok None => group_keys cc keys nodes (be ++ [Err ("key " +:+ key +:+ " not found")])
    | Ok (Some c) =>
      let ks := from_option snd [] (nodes !! rds c) in
      group_keys cc keys (<[rds c := (c, ks ++ [key])]> nodes) be
    end
  end.
Fixpoint del_groups (groups : list (nat * (cacheNode * list string))) (be : list error) : M W (list error) :=
  match groups with
  | [] => ret be
  | (_, (c, ks)) :: groups =>
    (let! err := node_DelCtx Randn c ks in
     del_groups groups (be ++ option_list err))%go
  end.

Definition cluster_DelCtx (cc : cacheCluster) (keys : list string) : M W (option error) :=
  match keys with
  | [] => ret None
  | [key] => on_key cc key (Some errNotFound) (fun c => node_DelCtx Randn c [key])
  | _ => fun s =>
    match group_keys cc keys ∅ [] with
    | Panic msg => Panic msg
    | Ok (nodes, be) => (let! be := del_groups (ord (map_to_list nodes)) be in ret (joinErrs be))%go s
    end
  end.

#[export] Instance cluster_cache : Cache (R := R) (A := A) (D := D) cacheCluster := {
  DelCtx := cluster_DelCtx;
  GetCtx cc key v := on_key cc key (v, Some errNotFound) (fun c => node_GetCtx c key v);
  IsNotFound cc err := Is err errNotFound;
  SetCtx cc key v := on_key cc key (Some errNotFound) (fun c => node_SetCtx draw c key v);
  SetWithExpireCtx cc key v e := on_key cc key (Some errNotFound) (fun c => node_SetWithExpireCtx c key v e);
  TakeCtx L cc flight v key query :=
    on_key cc key (v, Some errNotFound) (fun c => node_TakeCtx draw c flight v key query);
  TakeWithExpireCtx L cc flight v key query :=
    on_key cc key (v, Some errNotFound) (fun c => node_TakeWithExpireCtx draw c flight v key query)
}.

(** *** The dispatcher *)

(** Every key has a node. *)
Definition cluster_ok (cc : cacheCluster) : Prop := forall key, exists c, dispatch cc key = Ok (Some c).
Definition on_cluster (cc : cacheCluster) (key : string) (n : nat) : Prop :=
  exists c, dispatch cc key = Ok (Some c) /\ n = rds c.

Definition conf_live (opts : list (Options -> Options)) (c : list NodeConf) : list (member * nat) :=
  (fun node => (MNode (conf_node opts node), Z.to_nat (Z.min (Weight node) 100))) <$> c.

Lemma lit_inj s1 s2 : lit s1 = lit s2 -> s1 = s2.
Proof.
  unfold lit. intros H. rewrite <- (String.string_of_list_ascii_of_string s1), <- (String.string_of_list_ascii_of_string s2).
  by rewrite H.
Qed.

Lemma dispatcher_inv opts c : NoDup (nc_addr <$> c) ->
  inv hashFunc repr (new_dispatcher opts c) (conf_live opts c) /\ replicas (new_dispatcher opts c) = 100%Z.
Proof.
  induction c as [|node c IH] using rev_ind; intros Hnd.
  { split; [|done]. change (conf_live opts []) with (@nil (member * nat)). apply (reachable_inv _ _ innerRepr), (reach_new _ _ minReplicas). }
  rewrite fmap_app in Hnd. apply NoDup_app in Hnd as (Hnd & Hni & _). destruct (IH Hnd) as [Hinv Hr].
  unfold new_dispatcher in *. rewrite foldl_app. simpl. set (h := foldl _ _ c) in *.
  unfold AddWithWeight. rewrite replicas_AddWithReplicas. split; [|done].
  assert (Hf : repr (MNode (conf_node opts node)) ∉ ((fun p => repr p.1) <$> conf_live opts c)).
  { unfold conf_live. rewrite <- list_fmap_compose. intros (x & Hx & Hin)%list_elem_of_fmap.
    apply lit_inj in Hx. simpl in Hx. apply (Hni (nc_addr node)); [|set_solver].
    rewrite Hx. by apply list_elem_of_fmap_2. }
  pose proof (AddWithReplicas_inv hashFunc repr innerRepr (MNode (conf_node opts node))
    (Z.quot (replicas h * Weight node) TopWeight) h _ Hinv (fresh_phantom_free _ _ _ _ _ Hf)) as H.
  rewrite without_notin in H by exact Hf. unfold conf_live in *. rewrite fmap_app. simpl.
  replace (Z.to_nat (Z.min (Weight node) 100)) with (Z.to_nat (Z.min (Z.quot (replicas h * Weight node) TopWeight) (replicas h))); [done|].
  rewrite Hr. unfold TopWeight. by rewrite Z.mul_comm, Z.quot_mul.
Qed.

(** A cluster that [New] makes of nodes with different addresses has a node for every key,
    for any hash function: the lookup in the ring neither panics nor comes back empty, and the
    type assertion [c.(Cache)] on what it finds succeeds; the node is one of the configuration. *)
Theorem cluster_routes c opts cc : NoDup (nc_addr <$> c) -> New c opts = Some (inr cc) ->
  (forall key, exists node, dispatch cc key = Ok (Some (conf_node opts node)) /\ node ∈ c) /\ cluster_ok cc.
Proof.
  intros Hnd Hnew. destruct (dispatcher_inv opts c Hnd) as [Hinv _].
  assert (Hcc : dispatcher cc = new_dispatcher opts c /\ (0 < TotalWeights c)%Z).
  { unfold New in Hnew. destruct (_ || _) eqn:Hb; [done|]. bool_prop. destruct c as [|? [|? ?]]; simplify_eq; split; [done|lia]. }
  destruct Hcc as [Hd Hw].
  assert (Hget : forall key, exists node, dispatch cc key = Ok (Some (conf_node opts node)) /\ node ∈ c).
  { intros key. unfold dispatch. rewrite Hd. pose proof (Get_inv hashFunc repr innerRepr _ _ (MKey key) Hinv) as HG.
    destruct (live_keys _ _ _) as [|k ks] eqn:Hl.
    - exfalso. assert (Hex : exists node, node ∈ c /\ (0 < Weight node)%Z).
      { clear -Hw. induction c as [|x c IH]; simpl in Hw; [lia|]. destruct (Z.ltb_spec (Weight x) 0); destruct (decide (0 < Weight x)%Z).
        1, 2: lia || (destruct IH as (y & ? & ?); [lia|]; exists y; set_solver).
        - exists x. set_solver.
        - destruct IH as (y & ? & ?); [lia|]. exists y. set_solver. }
      destruct Hex as (node & Hin & Hpos).
      assert (Hk : vhash hashFunc (repr (MNode (conf_node opts node))) 0 ∈ live_keys hashFunc repr (conf_live opts c)).
      { unfold live_keys. apply list_elem_of_bind. eexists. split; [|by apply (list_elem_of_fmap_2 _ _ _ Hin)].
        simpl. unfold vhashes. apply list_elem_of_fmap_2, elem_of_seq. lia. }
      rewrite Hl in Hk. set_solver.
    - destruct HG as (k' & x & _ & _ & Hx & HG). rewrite HG. apply at_hash_elem in Hx as [m Hx].
      apply list_elem_of_fmap in Hx as (node & [= -> ->] & Hin). by exists node. }
  split; [done|]. intros key. destruct (Hget key) as (node & H & _). eauto.
Qed.

(** *** The cluster is a cache *)

Context `{!RedisStringsLaws R} `{!CodecLaws A} `{!Inj (=) (=) Randn}.
Context (ord_perm : forall l, ord l ≡ₚ l).

Lemma wp_on_key {S X} cc key (x : X) (f : cacheNode -> M S X) s Q : cluster_ok cc ->
  (forall c, on_cluster cc key (rds c) -> wp (f c) s Q) -> wp (on_key cc key x f) s Q.
Proof.
  intros Hok Hf. unfold wp, on_key. destruct (Hok key) as [c Hc]. rewrite Hc. apply Hf. by exists c.
Qed.

Lemma group_keys_spec cc keys : forall nodes be, cluster_ok cc ->
  (forall i c ks, nodes !! i = Some (c, ks) -> rds c = i) ->
  exists nodes', group_keys cc keys nodes be = Ok (nodes', be) /\
    (forall i c ks, nodes' !! i = Some (c, ks) -> rds c = i) /\
    (forall k n, (exists c ks, nodes !! n = Some (c, ks) /\ k ∈ ks) \/ k ∈ keys /\ on_cluster cc k n ->
       exists c ks, nodes' !! n = Some (c, ks) /\ k ∈ ks).
Proof.
  induction keys as [|key keys IH]; intros nodes be Hok Hn; simpl.
  { exists nodes. split_and!; [done..|]. intros k n [?|[Hk _]]; [done|by apply not_elem_of_nil in Hk]. }
  destruct (Hok key) as [c Hc]. rewrite Hc.
  destruct (IH (<[rds c := (c, from_option snd [] (nodes !! rds c) ++ [key])]> nodes) be Hok) as (nodes' & Hg & Hn' & Hk).
  { intros i c' ks Hi. apply lookup_insert_Some in Hi as [[<- [= <- _]]|[_ Hi]]; [done|by eapply Hn]. }
  exists nodes'. split_and!; [done..|]. intros k n Hkn. apply Hk. destruct (decide (n = rds c)) as [->|Hne].
  - destruct Hkn as [(c' & ks & Hi & Hin)|[Hin Hl]].
    + left. eexists c, _. rewrite lookup_insert_eq. split; [done|]. rewrite Hi. simpl. apply elem_of_app. by left.
    + apply elem_of_cons in Hin as [->|Hin]; [|by right]. left. eexists c, _. rewrite lookup_insert_eq. split; [done|].
      apply elem_of_app. right. by apply list_elem_of_singleton.
  - destruct Hkn as [Hi|[Hin Hl]]; [left; by rewrite lookup_insert_ne|].
    apply elem_of_cons in Hin as [->|Hin]; [|by right]. destruct Hl as (c' & Hc' & ->). rewrite Hc in Hc'. by simplify_eq.
Qed.

Lemma wp_del_groups groups : forall place T be w, good Randn w -> coherent place T w ->
  wp (del_groups groups be) w (fun be' w' => be' = be /\ calm Randn w w' /\
    coherent (fun k n => place k n \/ exists i c ks, (i, (c, ks)) ∈ groups /\ k ∈ ks /\ n = rds c) T w').
Proof.
  induction groups as [|[i [c ks]] groups IH]; intros place T be w Hg Hc; simpl.
  { apply wp_ret. split_and!; [done|by split|]. eapply coherent_mono; [|done].
    intros k n [?|(i & c & ks & Hin & _)]; [done|by apply not_elem_of_nil in Hin]. }
  eapply wp_bind, wp_mono; [by apply (wp_node_Del draw Randn place T c ks)|]. intros err w1 (-> & Hca & Hc1).
  simpl. rewrite app_nil_r. eapply wp_mono; [apply IH; [apply Hca|done]|].
  intros be' w2 (-> & Hca2 & Hc2). split_and!; [done|by eapply calm_trans|]. eapply coherent_mono; [|done].
  intros k n [Hp|(j & c' & ks' & Hin & Hk & ->)]; [by do 2 left|].
  apply elem_of_cons in Hin as [[= -> -> ->]|Hin]; [left; by right|]. right. by exists j, c', ks'.
Qed.

Lemma wp_cluster_Del cc T keys w : cluster_ok cc -> good Randn w ->
  coherent (fun k n => on_cluster cc k n /\ k ∉ keys) T w ->
  wp (cluster_DelCtx cc keys) w (fun err w' => err = None /\ calm Randn w w' /\ coherent (on_cluster cc) T w').
Proof.
  intros Hok Hg Hc. unfold cluster_DelCtx. destruct keys as [|key [|key' keys]].
  - apply wp_ret. split_and!; [done|by split|]. eapply coherent_mono; [|done]. intros k n Hk.
    split; [done|apply not_elem_of_nil].
  - apply wp_on_key; [done|]. intros c Hcl. eapply wp_mono; [by apply (wp_node_Del draw Randn _ T c [key] w Hg Hc)|].
    intros err w' (-> & Hca & Hc'). split_and!; [done..|]. eapply coherent_mono; [|done]. intros k n Hk. simpl.
    destruct (decide (k ∈ [key])) as [Hin|]; [right|by left]. apply list_elem_of_singleton in Hin as ->.
    split; [by apply list_elem_of_singleton|]. destruct Hk as (c1 & H1 & ->), Hcl as (c2 & H2 & ->). congruence.
  - set (ks := key :: key' :: keys) in *. clearbody ks.
    destruct (group_keys_spec cc ks ∅ [] Hok) as (nodes & Hgr & Hn & Hk); [intros i c ks' Hi; by rewrite lookup_empty in Hi|].
    unfold wp at 1. rewrite Hgr. apply wp_bind. eapply wp_mono; [by apply (wp_del_groups _ _ T [] w Hg Hc)|].
    intros be w' (-> & Hca & Hc'). apply wp_ret. split_and!; [done..|]. eapply coherent_mono; [|done].
    intros k n Hl. destruct (decide (k ∈ ks)) as [Hin|]; [right|by left].
    destruct (Hk k n) as (c & gs & Hi & Hkg); [by right|]. exists n, c, gs. split_and!; [|done|].
    + rewrite ord_perm. by apply elem_of_map_to_list.
    + symmetry. by eapply Hn.
Qed.

#[export] Program Instance cluster_laws : CacheLaws (D := D) Randn cacheCluster := {
  cache_ok := cluster_ok;
  lives := on_cluster
}.
Next Obligation. intros c T keys w Hok Hg Hc. by apply wp_cluster_Del. Qed.
Next Obligation.
  intros cc T w0 key v w Hok Hs Hb. apply wp_on_key; [done|]. intros c Hl.
  eapply wp_mono; [by apply (wp_node_Get Randn (on_cluster cc) T w0)|].
  intros [v' [e|]] w' [Hs' Hr]; [done|]. split; [done|]. intros Hn. by apply Hr, (not_stale _ _ _ _ Hl Hn).
Qed.
Next Obligation.
  intros cc T w0 key v w Hok He Hs Hr. apply wp_on_key; [done|]. intros c Hl. by apply (wp_Set draw).
Qed.
Next Obligation.
  intros cc T w0 key v e w Hok He Hs Hr. apply wp_on_key; [done|]. intros c Hl. by apply wp_SetWithExpire.
Qed.
Next Obligation.
  intros L cc T w0 key v l0 J query w Hok He Hs Hb Hq. apply wp_on_key; [done|]. intros c Hl.
  eapply wp_mono; [by apply (wp_node_Take draw Randn (on_cluster cc) T w0)|].
  intros [v' err] [w' l'] [Hs' Hr]. split; [done|]. destruct Hr as [[-> Hr]|Hr]; [left|by right].
  split; [done|]. intros Hn. by apply Hr, (not_stale _ _ _ _ Hl Hn).
Qed.
Next Obligation.
  intros L cc T w0 key v l0 J query w Hok He Hs Hb Hq. apply wp_on_key; [done|]. intros c Hl.
  eapply wp_mono; [by apply (wp_node_TakeWithExpire draw Randn (on_cluster cc) T w0)|].
  intros [v' err] [w' l'] [Hs' Hr]. split; [done|]. destruct Hr as [[-> Hr]|Hr]; [left|by right].
  split; [done|]. intros Hn. by apply Hr, (not_stale _ _ _ _ Hl Hn).
Qed.
End cluster.

(** ** Example: two nodes *)

Definition demo_confs : list NodeConf := [mkConf 0 "a:6379" false 100; mkConf 1 "b:6379" false 50].
Definition demo_inner (m : member) : gostr := repr m.

Lemma cluster_routes_witness :
  match New demo_hash demo_confs [] with
  | Some (inr cc) => forall key, exists node,
      dispatch demo_hash demo_inner cc key = Ok (Some (conf_node [] node)) /\ node ∈ demo_confs
  | _ => False
  end.
Proof.
  assert (Hnew : exists cc, New demo_hash demo_confs [] = Some (inr cc)) by (eexists; reflexivity).
  destruct (New demo_hash demo_confs []) as [[c|cc]|] eqn:Hn;
    [by destruct Hnew| |by destruct Hnew].
  apply (cluster_routes demo_hash demo_inner demo_confs [] cc); [|exact Hn].
  apply (bool_decide_unpack _). vm_compute. exact I.
Defined.
