(* ===== verification/CachedConn.v ===== *)
(** * [core/stores/sqlc/cachedsql.go]: a database connection with a cache

    [CachedConn] over any cache ([CacheCluster.Cache]).  The database is the field [db] of the
    world, of any type; the functions the caller gives run on it.  [truth] says what the
    database says of a cache key: the row of a primary key, the primary key of an index.

    The theorems are about calls one after the other, on a network that fails or not; what two
    calls at the same time can do is shown by the example [take_may_cache_old_row]. *)

From S2P Require Import Prelude.
From S2P Require Import Redis.
From S2P Require Import CacheNode.
From S2P Require Import CacheCluster.
From stdpp Require Import pretty.
Local Open Scope Z_scope.

Definition cacheSafeGapBetweenIndexAndPrimary : Z := Second * 5.

Section conn.
Context {R A D C Res : Type} `{!RedisStrings R} `{!Codec A} `{!Cache (R := R) (A := A) (D := D) C}.
Abbreviation W := (@world R D).

Record CachedConn := mkConn { conn_cache : C }.

Definition NewConnWithCache (c : C) : CachedConn := mkConn c.

Definition DelCacheCtx (cc : CachedConn) (keys : list string) : M W (option error) := DelCtx (conn_cache cc) keys.
Definition GetCacheCtx (cc : CachedConn) (key : string) (v : A) : M W (A * option error) :=
  GetCtx (conn_cache cc) key v.
Definition SetCacheCtx (cc : CachedConn) (key : string) (v : A) : M W (option error) := SetCtx (conn_cache cc) key v.
Definition SetCacheWithExpireCtx (cc : CachedConn) (key : string) (v : A) (expire : Z) : M W (option error) :=
  SetWithExpireCtx (conn_cache cc) key v expire.

Definition ExecCtx (cc : CachedConn) (exec : M W (error + Res)) (keys : list string) : M W (option Res * option error) :=
  (let! r := exec in
   match r with
   | inl err => ret (None, Some err)
   | inr res => let! err := DelCacheCtx cc keys in ret (Some res, err)
   end)%go.

Definition QueryRowCtx {L} (cc : CachedConn) flight (v : A) (key : string)
    (query : A -> M (W * L) (A * option error)) : M (W * L) (A * option error) :=
  TakeCtx (conn_cache cc) flight v key query.

(** The function [QueryRowIndexCtx] gives to [Take]: the variables are [v] and [found]; it
    returns the contents of [primaryKey]. *)
Definition index_query (cc : CachedConn) (keyer : A -> string) (indexQuery : A -> M W (A * A * option error))
    (val : A) (expire : Z) : M (W * (A * bool)) (A * option error) := fun '(w, (v, found)) =>
  match indexQuery v w with
  | Panic msg => Panic msg
  | Ok ((v, primaryKey, Some err), w) => Ok ((primaryKey, Some err), (w, (v, found)))
  | Ok ((v, primaryKey, None), w) =>
    match SetWithExpireCtx (conn_cache cc) (keyer primaryKey) v (expire + cacheSafeGapBetweenIndexAndPrimary) w with
    | Panic msg => Panic msg
    | Ok (err, w) => Ok ((primaryKey, err), (w, (v, true)))
    end
  end.

(** [primary] is the variable [primaryKey] as declared; the result is the contents of [v]. *)
Definition QueryRowIndexCtx (cc : CachedConn) flight flight' (primary v : A) (key : string) (keyer : A -> string)
    (indexQuery : A -> M W (A * A * option error)) (primaryQuery : A -> A -> M (W * ()) (A * option error))
    : M W (A * option error) := fun w =>
  match TakeWithExpireCtx (conn_cache cc) flight primary key (index_query cc keyer indexQuery) (w, (v, false)) with
  | Panic msg => Panic msg
  | Ok ((primaryKey, Some err), (w, (v, found))) => Ok ((v, Some err), w)
  | Ok ((primaryKey, None), (w, (v, found))) =>
    if found then Ok ((v, None), w)
    else match TakeCtx (conn_cache cc) flight' v (keyer primaryKey) (fun v => primaryQuery v primaryKey) (w, ()) with
         | Panic msg => Panic msg
         | Ok (r, (w, _)) => Ok (r, w)
         end
  end.

(** ** Specifications *)

Context `{!RedisStringsLaws R} `{!CodecLaws A}.
Context (Randn : nat -> string) `{!CacheLaws (D := D) Randn C}.
Context (truth : D -> string -> option A) (truth_encodes : forall d, encodes (truth d)).

Definition coherent_conn (cc : CachedConn) (w : W) : Prop :=
  good Randn w /\ coherent (lives Randn (conn_cache cc)) (truth (db w)) w.
Definition key_stale (cc : CachedConn) (w : W) (key : string) : Prop := stale (lives Randn (conn_cache cc)) w key.

(** What the caller's functions do.  A query of a key reads the database, or fails. *)
Definition queries (key : string) {L} (query : A -> M (W * L) (A * option error)) : Prop :=
  forall v w l, exists v' err, query v (w, l) = Ok ((v', err), (w, l)) /\
    match err with
    | None => reads (truth (db w)) key v'
    | Some e => Is e errNotFound = true -> truth (db w) key = None
    end.
(** Some call of the query fails, other than by finding nothing. *)
Definition fails {L} (query : A -> M (W * L) (A * option error)) : Prop :=
  exists v s v' e s', query v s = Ok ((v', Some e), s') /\ Is e errNotFound = false.
Definition index_fails (indexQuery : A -> M W (A * A * option error)) : Prop :=
  exists v w v' p e w', indexQuery v w = Ok ((v', p, Some e), w') /\ Is e errNotFound = false.
(** A statement changes what is true of [keys] only, or fails and changes nothing. *)
Definition executes (keys : list string) (exec : M W (error + Res)) : Prop :=
  forall w, exists r d, exec w = Ok (r, with_db d w) /\ (forall k, k ∉ keys -> truth d k = truth (db w) k) /\
    match r with inl _ => d = db w | inr _ => True end.
(** A query by index reads the primary key and the row. *)
Definition index_queries (key : string) (keyer : A -> string) (indexQuery : A -> M W (A * A * option error)) : Prop :=
  forall v w, exists v' p err, indexQuery v w = Ok ((v', p, err), w) /\
    match err with
    | None => reads (truth (db w)) key p /\ reads (truth (db w)) (keyer p) v'
    | Some e => Is e errNotFound = true -> truth (db w) key = None
    end.

Lemma coherent_st cc w : coherent_conn cc w -> st Randn (lives Randn (conn_cache cc)) (truth (db w)) w w.
Proof. intros [Hg Hc]. by apply st_refl. Qed.
Lemma st_conn cc w0 w : st Randn (lives Randn (conn_cache cc)) (truth (db w0)) w0 w -> coherent_conn cc w.
Proof. intros [Hq Hg Hc]. split; [done|]. by rewrite (qu_db _ _ Hq). Qed.

(** What a query says of a key that is so in the database [d]. *)
Definition says (d : D) (key : string) (failed : Prop) (v : A) (err : option error) : Prop :=
  match err with
  | None => reads (truth d) key v
  | Some e => if Is e errNotFound then truth d key = None else failed
  end.

Lemma query_ok_queries cc w0 key {L} (query : A -> M (W * L) (A * option error)) l0 : queries key query ->
  query_ok Randn (lives Randn (conn_cache cc)) (truth (db w0)) w0 key l0
    (fun v err l => says (db w0) key (fails query) v err) query.
Proof.
  intros Hq. split_and!; [|done|intros v e l HJ He; simpl in HJ; by rewrite He in HJ].
  intros v w Hs. destruct (Hq v w l0) as (v' & err & Hr & He).
  unfold wp. rewrite Hr. split; [done|]. rewrite (qu_db _ _ (st_quiet _ _ _ _ _ Hs)) in He.
  destruct err as [e|]; [|done]. simpl. destruct (Is e errNotFound) eqn:Hnf; [by apply He|]. by exists v, (w, l0), v', e, (w, l0).
Qed.

(** An error the flight passes on says the same. *)
Lemma says_asked d key P v qerr : says d key P v qerr -> says d key P v (asked qerr).
Proof. destruct qerr as [e|]; [|done]. simpl. by destruct (Is e errNotFound) eqn:He; [|rewrite He]. Qed.
Lemma says_mono d key (P Q : Prop) v err : (P -> Q) -> says d key P v err -> says d key Q v err.
Proof. destruct err as [e|]; [|done]. simpl. destruct (Is e errNotFound); auto. Qed.

Lemma exec_coherent cc exec keys w : cache_ok Randn (conn_cache cc) -> executes keys exec -> coherent_conn cc w ->
  wp (ExecCtx cc exec keys) w (fun r w' => coherent_conn cc w' /\
    match r.2 with None => is_Some r.1 | Some _ => r.1 = None /\ db w' = db w end).
Proof.
  intros Hok Hex [Hg Hc]. apply wp_bind. destruct (Hex w) as (r & d & Hr & Hd & Hres). unfold wp at 1. rewrite Hr.
  destruct r as [err|res].
  - subst d. apply wp_ret. split; [|done]. destruct w. exact (conj Hg Hc).
  - apply wp_bind. unfold DelCacheCtx. eapply wp_mono.
    + apply (del_law Randn (conn_cache cc) (truth d) keys (with_db d w) Hok); [by destruct Hg|].
      intros k n [Hl Hk]. rewrite (Hd k Hk). by apply (Hc k n).
    + intros err w' (-> & Hca & Hc'). apply wp_ret. split; [|by eexists]. split; [apply Hca|]. by rewrite (ca_db _ _ _ Hca).
Qed.

Lemma query_coherent cc v key {L} (query : A -> M (W * L) (A * option error)) w l : cache_ok Randn (conn_cache cc) ->
  queries key query -> blank v -> coherent_conn cc w ->
  wp (QueryRowCtx cc None v key query) (w, l) (fun '(v', err) '(w', l') =>
    coherent_conn cc w' /\ db w' = db w /\ timers w' = timers w /\
    (~ key_stale cc w key -> says (db w) key (net w <> [] \/ fails query) v' err)).
Proof.
  intros Hok Hq Hb Hc. apply coherent_st in Hc as Hs.
  eapply wp_mono; [by apply (take_law Randn _ _ _ _ _ _ _ _ _ Hok (truth_encodes _) Hs Hb (query_ok_queries cc w key query l Hq))|].
  intros [v' err] [w' l'] [Hs' Ht]. pose proof (st_quiet _ _ _ _ _ Hs') as Hqu.
  split_and!; [by eapply st_conn|apply Hqu|apply Hqu|]. intros Hns.
  destruct Ht as [[-> Ha]|(qe & HJ & ->)].
  - specialize (Ha Hns). destruct err as [e|]; [|done]. simpl in *. destruct (Is e errNotFound); auto.
  - apply says_asked. eapply says_mono; [|exact HJ]. by right.
Qed.

(** What a query by index says. *)
Definition index_says (d : D) (key : string) (keyer : A -> string) (failed : Prop) (v : A) (err : option error) : Prop :=
  match err with
  | None => exists p, reads (truth d) key p /\ reads (truth d) (keyer p) v
  | Some e => if Is e errNotFound then truth d key = None else failed
  end.

(** The function of the first flight: what it leaves in [primaryKey], [v] and [found]. *)
Lemma index_query_ok cc key keyer indexQuery w v e : cache_ok Randn (conn_cache cc) -> index_queries key keyer indexQuery ->
  query_ok Randn (lives Randn (conn_cache cc)) (truth (db w)) w key (v, false)
    (fun p err l => match err with
       | None => reads (truth (db w)) key p /\ reads (truth (db w)) (keyer p) l.1 /\ l.2 = true
       | Some e => if Is e errNotFound then truth (db w) key = None else net w <> [] \/ index_fails indexQuery
       end)
    (fun val => index_query cc keyer indexQuery val e).
Proof.
  intros Hok Hiq. set (T := truth (db w)).
  split_and!; [|by intros p l (Hp & _)|intros p e' l HJ He; simpl in HJ; by rewrite He in HJ].
  intros val w1 Hs1. unfold wp, index_query. destruct (Hiq v w1) as (v1 & p & err & Hr & He). rewrite Hr.
  rewrite (qu_db _ _ (st_quiet _ _ _ _ _ Hs1)) in He. fold T in He. destruct err as [err|].
  - split; [done|]. destruct (Is err errNotFound) eqn:Hnf; [by apply He|]. right. by exists v, w1, v1, p, err, w1.
  - destruct He as [Hp Hv].
    pose proof (set_with_expire_law Randn (conn_cache cc) T w (keyer p) v1 (e + cacheSafeGapBetweenIndexAndPrimary) w1
      Hok (truth_encodes _) Hs1 Hv) as Hset. unfold wp in Hset.
    destruct (SetWithExpireCtx _ _ _ _ w1) as [[err w2]|]; [|done]. destruct Hset as [Hs2 Hon]. split; [done|].
    destruct err as [err|]; [|done]. destruct (Hon _ eq_refl) as [[Hnf _] Hne]. rewrite Hnf. by left.
Qed.

(** A query by index answers with the row of the primary key, from wherever each comes. *)
Lemma index_coherent cc primary v key keyer indexQuery primaryQuery w : cache_ok Randn (conn_cache cc) ->
  index_queries key keyer indexQuery -> (forall p, queries (keyer p) (fun v => primaryQuery v p)) ->
  (forall p, reads (truth (db w)) key p -> is_Some (truth (db w) (keyer p))) ->
  blank primary -> blank v -> coherent_conn cc w ->
  wp (QueryRowIndexCtx cc None None primary v key keyer indexQuery primaryQuery) w (fun '(v', err) w' =>
    coherent_conn cc w' /\ db w' = db w /\ timers w' = timers w /\
    (~ key_stale cc w key -> (forall p, reads (truth (db w)) key p -> ~ key_stale cc w (keyer p)) ->
      index_says (db w) key keyer
        (net w <> [] \/ index_fails indexQuery \/ exists p, fails (fun v => primaryQuery v p)) v' err)).
Proof.
  intros Hok Hiq Hpq Htot Hbp Hbv Hc. apply coherent_st in Hc as Hs.
  pose proof (take_with_expire_law Randn (conn_cache cc) _ w key primary (v, false) _ _ w Hok (truth_encodes _) Hs Hbp
    (fun e => index_query_ok cc key keyer indexQuery w v e Hok Hiq)) as Htake. set (T := truth (db w)) in *.
  unfold wp, QueryRowIndexCtx in *.
  destruct (TakeWithExpireCtx _ _ _ _ _ _) as [[[p err] [w1 [v1 found]]]|]; [|done]. destruct Htake as [Hs1 Htk].
  pose proof (st_quiet _ _ _ _ _ Hs1) as Hqu. destruct err as [e|].
  { split_and!; [by eapply st_conn|apply Hqu|apply Hqu|]. intros Hns _. simpl.
    destruct Htk as [[_ Ha]|([qe|] & HJ & Heq)]; [| |done].
    - specialize (Ha Hns). simpl in Ha. destruct (Is e errNotFound); auto.
    - simpl in HJ, Heq. simplify_eq. destruct (Is qe errNotFound) eqn:Hqe; simpl; rewrite ?Hqe; [done|tauto]. }
  destruct found.
  { split_and!; [by eapply st_conn|apply Hqu|apply Hqu|]. intros _ _.
    destruct Htk as [[[= _] _]|([qe|] & HJ & Heq)]; [done|]. destruct HJ as (Hp & Hv & _). by exists p. }
  destruct Htk as [[[= ->] Ha]|([qe|] & HJ & Heq)]; [|done|by destruct HJ as (_ & _ & ?)].
  pose proof (query_coherent cc v (keyer p) (fun v => primaryQuery v p) w1 () Hok (Hpq p) Hbv (st_conn _ _ _ Hs1)) as Hquery.
  unfold wp, QueryRowCtx in Hquery. destruct (TakeCtx _ _ _ _ _ _) as [[[v2 err] [w2 []]]|]; [|done].
  destruct Hquery as (Hc2 & Hdb2 & Ht2 & Hans). rewrite (qu_db _ _ Hqu) in Hdb2, Hans.
  split_and!; [done|done|by rewrite Ht2; apply Hqu|]. intros Hns Hpns. specialize (Ha Hns). simpl in Ha.
  assert (Hkp : ~ key_stale cc w1 (keyer p)).
  { intros (n & Hl & Hr). apply (Hpns p Ha). exists n. split; [done|]. by apply (retried_quiet _ _ _ _ Hqu). }
  specialize (Hans Hkp). destruct err as [e|]; [|by exists p]. simpl in *. destruct (Is e errNotFound).
  - destruct (Htot _ Ha) as [row Hrow]. fold T in Hans. congruence.
  - destruct Hans as [Hne|Hf]; [left|right; right; by exists p]. intros Hz. apply Hne.
    pose proof (qu_net _ _ Hqu) as Hsuf. rewrite Hz in Hsuf. by apply suffix_nil_inv in Hsuf.
Qed.

(** ** Histories *)

Definition after (d : Z) (w : W) : W :=
  mkWorld (servers w) (clock w + d) (net w) (draws w) (names w) (stat w) (timers w) (reports w) (db w).

Inductive conn_step (cc : CachedConn) (w : W) : W -> Prop :=
| cs_exec exec keys r w' : executes keys exec -> ExecCtx cc exec keys w = Ok (r, w') -> conn_step cc w w'
| cs_query v key query r w' : queries key query -> blank v ->
    QueryRowCtx cc None v key query (w, ()) = Ok (r, (w', ())) -> conn_step cc w w'
| cs_index primary v key keyer indexQuery primaryQuery r w' :
    index_queries key keyer indexQuery -> (forall p, queries (keyer p) (fun v => primaryQuery v p)) ->
    (forall p, reads (truth (db w)) key p -> is_Some (truth (db w) (keyer p))) -> blank primary -> blank v ->
    QueryRowIndexCtx cc None None primary v key keyer indexQuery primaryQuery w = Ok (r, w') -> conn_step cc w w'
| cs_del keys r w' : DelCacheCtx cc keys w = Ok (r, w') -> conn_step cc w w'
| cs_time d : 0 <= d -> conn_step cc w (after d w)
| cs_net l : Forall delivery_ok l -> conn_step cc w (with_net l w)
| cs_clean name r w' : fire name w = Ok (r, w') -> conn_step cc w w'.

Lemma after_coherent cc d w : 0 <= d -> coherent_conn cc w -> coherent_conn cc (after d w).
Proof.
  intros Hd [Hg Hc]. split; [by destruct Hg|]. intros k n Hl. destruct (Hc k n Hl) as [Hr|Ha]; [by left|right].
  unfold agrees, cached in *. simpl. destruct (rs_view (servers w n) k) as [[x t]|]; [|done]. simpl in *.
  unfold live_at in *. destruct t as [t|]; [|done].
  destruct (Z.ltb_spec (clock w + d) t); [|done]. by destruct (Z.ltb_spec (clock w) t); [|lia].
Qed.

Lemma step_coherent cc w w' : cache_ok Randn (conn_cache cc) -> conn_step cc w w' -> coherent_conn cc w -> coherent_conn cc w'.
Proof.
  intros Hok Hs Hc. destruct Hs as [exec keys r w' Hex Hr|v key query r w' Hq Hb Hr|primary v key keyer iq pq r w' Hi Hp Ht Hb Hb' Hr
    |keys r w' Hr|d Hd|l Hl|name r w' Hr].
  - pose proof (exec_coherent cc exec keys w Hok Hex Hc) as H. unfold wp in H. rewrite Hr in H. apply H.
  - pose proof (query_coherent cc v key query w () Hok Hq Hb Hc) as H. unfold wp in H. rewrite Hr in H. destruct r. apply H.
  - pose proof (index_coherent cc primary v key keyer iq pq w Hok Hi Hp Ht Hb Hb' Hc) as H. unfold wp in H. rewrite Hr in H.
    destruct r. apply H.
  - destruct Hc as [Hg Hc]. pose proof (del_law Randn (conn_cache cc) (truth (db w)) keys w Hok Hg) as H.
    unfold wp, DelCacheCtx in *. rewrite Hr in H. destruct H as (_ & Hca & Hc'); [by intros k n [Hl _]; apply Hc|].
    split; [apply Hca|]. by rewrite (ca_db _ _ _ Hca).
  - by apply after_coherent.
  - destruct Hc as [[Hn Ht] Hc]. split; [by split|done].
  - destruct Hc as [Hg Hc]. pose proof (wp_fire Randn _ _ name w Hg Hc) as H. unfold wp in H. rewrite Hr in H.
    destruct H as [Hca Hc']. split; [apply Hca|]. by rewrite (ca_db _ _ _ Hca).
Qed.

Lemma history_coherent cc w w' : cache_ok Randn (conn_cache cc) -> rtc (conn_step cc) w w' ->
  coherent_conn cc w -> coherent_conn cc w'.
Proof. intros Hok Hr. induction Hr; [done|]. intros Hc. eauto using step_coherent. Qed.

(** Nothing is cached and no deletion is waiting. *)
Definition fresh_world (w : W) : Prop :=
  Forall delivery_ok (net w) /\ timers w = ∅ /\ forall n k, cached n w k = None.

Lemma fresh_coherent cc w : fresh_world w -> coherent_conn cc w.
Proof.
  intros (Hn & Ht & Hc). split; [split; [done|]|].
  - intros name [t Hname]. by rewrite Ht, lookup_empty in Hname.
  - intros k n _. right. unfold agrees. by rewrite Hc.
Qed.

(** C8: the cache follows the database.  From an empty cache, after any sequence of statements,
    row queries, index queries, deletions, time, retried deletions and failures of the network,
    with every statement given the keys it changes: a row query does not panic and answers what
    the database says (the row, or not found exactly when there is none), or fails, which takes
    a network that fails or a query that fails; unless a deletion of its key failed and is still
    to be retried or was given up and reported. *)
Theorem cache_follows_database cc w0 w v key query : cache_ok Randn (conn_cache cc) ->
  fresh_world w0 -> rtc (conn_step cc) w0 w -> queries key query -> blank v -> ~ key_stale cc w key ->
  exists v' err w', QueryRowCtx cc None v key query (w, ()) = Ok ((v', err), (w', ())) /\ db w' = db w /\
    says (db w) key (net w <> [] \/ fails query) v' err.
Proof.
  intros Hok Hf Hr Hq Hb Hn. pose proof (history_coherent _ _ _ Hok Hr (fresh_coherent _ _ Hf)) as Hc.
  pose proof (query_coherent cc v key query w () Hok Hq Hb Hc) as H. unfold wp in H.
  destruct (QueryRowCtx _ _ _ _ _ _) as [[[v' err] [w' []]]|]; [|done]. destruct H as (_ & Hdb & _ & Ha).
  exists v', err, w'. split_and!; [done|done|by apply Ha].
Qed.

End conn.

(** ** Examples: rows that are truth values, on one node *)

Variant jval := JNull | JBool (b : bool).

#[export] Instance jval_codec : Codec jval := {
  Marshal v := inr (match v with JNull => "null" | JBool true => "true" | JBool false => "false" end);
  Unmarshal d v :=
    if decide (d = "true") then (JBool true, None)
    else if decide (d = "false") then (JBool false, None)
    else if decide (d = "null") then (JNull, None)
    else (v, Some (Err "invalid character"));
  blank v := v = JNull
}.
#[export] Instance jval_laws : CodecLaws jval.
Proof.
  split; simpl.
  - intros [|[]] d [= <-]; done.
  - intros [|[]] d v [= <-] ->; eexists; done.
Qed.

Abbreviation demo_world := (@world strings_db (gmap string jval)).
Definition demo_randn (i : nat) : string := pretty i.
Definition demo_draw (i : nat) : QArith_base.Q := QArith_base.Qmake 1 2.
#[local] Existing Instance node_cache.
#[local] Existing Instance node_laws.
#[local] Instance demo_cache : Cache cacheNode := node_cache (R := strings_db) (A := jval) (D := gmap string jval) demo_draw demo_randn.
#[local] Instance demo_laws : CacheLaws demo_randn cacheNode := node_laws (R := strings_db) demo_draw demo_randn.

Definition demo_conn : @CachedConn cacheNode := mkConn (NewNode 0 "localhost:6379" false []).
Definition demo_truth (d : gmap string jval) (key : string) : option jval := d !! key.
Lemma demo_encodes d : encodes (demo_truth d).
Proof. intros k [|[]] _; eexists; done. Qed.

Definition demo_start : demo_world :=
  mkWorld (fun _ => ∅) 1000 [] 0 0 (mkStat 0 0 0 0) ∅ [] (<["row:true" := JBool false]> (<["index:a" := JBool true]> ∅)).

(** Reads and writes of a row. *)
Definition row_query {L} (key : string) (v : jval) : M (demo_world * L) (jval * option error) := fun s =>
  Ok (match db s.1 !! key with Some a => (a, None) | None => (v, Some errNotFound) end, s).
Definition row_exec (key : string) (a : jval) : M demo_world (error + ()) := fun w =>
  Ok (inr (), with_db (<[key := a]> (db w)) w).

Lemma row_query_ok {L} key : queries (L := L) demo_truth key (row_query key).
Proof.
  intros v w l. unfold row_query. simpl. unfold reads, demo_truth. destruct (db w !! key) as [a|] eqn:Ha; eexists _, _; split; [done| |done|].
  - by exists a.
  - done.
Qed.
Lemma row_exec_ok key a : executes demo_truth [key] (row_exec key a).
Proof.
  intros w. eexists _, _. split; [done|]. split; [|done]. intros k Hk. unfold demo_truth. rewrite lookup_insert_ne; [done|].
  intros ->. apply Hk. by apply list_elem_of_singleton.
Qed.

Definition keyer (p : jval) : string := match p with JBool true => "row:true" | JBool false => "row:false" | JNull => "row:" end.
Definition demo_index (v : jval) : M demo_world (jval * jval * option error) := fun w =>
  Ok (match db w !! "index:a" with
      | Some p => match db w !! keyer p with Some a => (a, p, None) | None => (v, p, Some (Err "no row")) end
      | None => (v, JNull, Some errNotFound)
      end, w).

Definition world_after {S X} (m : M S X) (s : S) : S := match m s with Ok (_, s) => s | Panic _ => s end.

(** A query fills the cache, and a statement changes the row. *)
Definition demo_filled : demo_world :=
  (world_after (QueryRowCtx demo_conn None JNull "row:true" (row_query "row:true")) (demo_start, ())).1.
Definition demo_changed : demo_world :=
  world_after (ExecCtx demo_conn (row_exec "row:true" (JBool true)) ["row:true"]) demo_filled.

Lemma demo_history : rtc (conn_step (Res := ()) demo_truth demo_conn) demo_start demo_changed.
Proof.
  eapply rtc_l with demo_filled.
  { eapply (cs_query _ _ _ JNull "row:true" (row_query "row:true")); [apply row_query_ok|done|].
    unfold demo_filled, world_after. reflexivity. }
  eapply rtc_l; [|apply rtc_refl].
  eapply (cs_exec _ _ _ (row_exec "row:true" (JBool true)) ["row:true"]); [apply row_exec_ok|].
  unfold demo_changed, world_after. reflexivity.
Qed.

Lemma demo_start_fresh : fresh_world demo_start.
Proof. split; [constructor|]. split; [reflexivity|]. intros n k. unfold cached. simpl. by rewrite lookup_empty. Qed.

Lemma demo_not_stale key : ~ key_stale demo_randn demo_conn demo_changed key.
Proof.
  intros (n & _ & [(name & t & Ht & _)|Hr]).
  - assert (Hz : timers demo_changed = ∅) by (vm_compute; reflexivity). by rewrite Hz, lookup_empty in Ht.
  - assert (Hz : reports demo_changed = []) by (vm_compute; reflexivity). rewrite Hz in Hr. by apply Exists_nil in Hr.
Qed.

Lemma demo_reads_index p : reads (demo_truth (db demo_changed)) "index:a" p -> p = JBool true.
Proof.
  intros (a & Ha & Hm). vm_compute in Ha. simplify_eq. destruct p as [|[]]; [discriminate Hm|done|discriminate Hm].
Qed.

Lemma demo_index_ok : index_queries demo_truth "index:a" keyer demo_index.
Proof.
  intros v w. unfold demo_index, reads, demo_truth. destruct (db w !! "index:a") as [p|] eqn:Hp; [|by eexists _, _, _].
  destruct (db w !! keyer p) as [a|] eqn:Ha; eexists _, _, _; (split; [reflexivity|]); [by split; eauto|done].
Qed.

Lemma cache_follows_database_witness :
  exists v' err w', QueryRowCtx demo_conn None JNull "row:true" (row_query "row:true") (demo_changed, ()) = Ok ((v', err), (w', ())) /\
    db w' = db demo_changed /\
    says demo_truth (db demo_changed) "row:true" (net demo_changed <> [] \/ fails (L := ()) (row_query "row:true")) v' err.
Proof.
  exact (cache_follows_database (Res := ()) demo_randn demo_truth demo_encodes
    demo_conn demo_start demo_changed JNull "row:true" (row_query "row:true") I demo_start_fresh demo_history (row_query_ok _) eq_refl
    (demo_not_stale _)).
Defined.


(** The answers, computed: the row is read again after the change. *)
Lemma demo_answers :
  match QueryRowCtx demo_conn None JNull "row:true" (row_query "row:true") (demo_filled, ()) with
  | Ok (r, _) => r = (JBool false, None)
  | Panic _ => False
  end /\
  match QueryRowIndexCtx demo_conn None None JNull JNull "index:a" keyer demo_index (fun v p => row_query (keyer p) v) demo_changed with
  | Ok (r, w) => r = (JBool true, None) /\ cached 0 w "index:a" = Some "true" /\ cached 0 w "row:true" = Some "true"
  | Panic _ => False
  end.
Proof. vm_compute. auto. Qed.

(** Calls at the same time: a [Take] that read the row before a statement changed it, and stores
    it after the deletion of its key, leaves the old row in the cache until it expires, with no
    deletion to come. *)
Definition raced_query (key : string) (a : jval) (v : jval) : M (demo_world * ()) (jval * option error) := fun s =>
  match row_query key v s with
  | Ok (r, (w, l)) => Ok (r, (world_after (ExecCtx demo_conn (row_exec key a) [key]) w, l))
  | Panic msg => Panic msg
  end.
Lemma take_may_cache_old_row :
  let w := (world_after (QueryRowCtx demo_conn None JNull "row:true" (raced_query "row:true" (JBool true))) (demo_start, ())).1 in
  db w !! "row:true" = Some (JBool true) /\ cached 0 w "row:true" = Some "false" /\ timers w = ∅ /\ reports w = [].
Proof. vm_compute. auto. Qed.

(** A deletion that always fails is tried again after 1 s, 5 s, 1 min, 5 min and 1 h, and then
    reported; one success in between is the end of it. *)
Definition failing (w : demo_world) : demo_world := with_net [NotRun (Err "i/o timeout")] w.
Definition retries (delays : list Z) (w : demo_world) : demo_world :=
  foldl (fun w d => world_after (fire "0") (failing (after d w))) w delays.
Lemma retry_schedule :
  let w0 := world_after (DelCacheCtx demo_conn ["row:true"]) (failing demo_filled) in
  (forall n, (n < 5)%nat -> timers (retries (take n [1; 5; 60; 300; 3600]) w0) <> ∅) /\
  timers (retries [1; 5; 60; 300; 3600] w0) = ∅ /\
  t_keys <$> reports (retries [1; 5; 60; 300; 3600] w0) = [["row:true"]] /\
  timers (world_after (fire "0") (after 60 (retries [1; 5] w0))) = ∅ /\
  cached 0 (world_after (fire "0") (after 60 (retries [1; 5] w0))) "row:true" = None.
Proof.
  split; [|vm_compute; auto]. intros n Hn. do 5 (destruct n as [|n]; [vm_compute; discriminate|]). lia.
Qed.

(** A call that comes while another asks the database gets the same row. *)
Lemma shared_take_same_witness :
  let c := conn_cache demo_conn in
  let stored v := on_world (node_SetCtx demo_draw c "row:true" v) in
  exists v2, Marshal v2 = Marshal (JBool false) /\
    doTake demo_draw c (Some (Some "false", None)) JNull "row:true" (row_query "row:true") stored (demo_start, ()) =
      Ok ((v2, None), (with_stat (fun st => IncrementHit (IncrementTotal st)) demo_start, ())).
Proof.
  intros c stored.
  exact (shared_take_same demo_draw c JNull (JBool false) JNull "row:true" (row_query "row:true") stored (row_query "row:true") stored
    (demo_start, ()) (world_after (takeFn demo_draw c JNull "row:true" (row_query "row:true") stored) (demo_start, ()))
    (demo_start, ()) (inr "false") eq_refl eq_refl).
Defined.
