(* ===== verification/ApiAst.v ===== *)
(** * [tools/fastgoctl/pkg/parser/api/ast]: the syntax tree of an API file

    The types of [ast.go], [comment.go] and the statement files.  A pointer to a token node is an
    option, nil being [None]; a token node holds the token, the comments before it and those
    behind it on its line.  [show_...] is the text of a node: the texts of its tokens one after
    the other, with the commas between field names, which the tree does not keep. *)

From S2P Require Import Prelude.
From S2P Require Import Token.

Record CommentStmt := mkComment { Comment : Token }.
Abbreviation CommentGroup := (list CommentStmt).

Record TokenNode := mkTokenNode {
  HeadCommentGroup : CommentGroup;
  NodeToken : Token;
  LeadingCommentGroup : CommentGroup
}.
Abbreviation nodep := (option TokenNode).

Definition NewTokenNode (tok : Token) : TokenNode := mkTokenNode [] tok [].
Definition SetLeadingCommentGroup (cg : CommentGroup) (t : TokenNode) : TokenNode :=
  mkTokenNode (HeadCommentGroup t) (NodeToken t) cg.
Definition PeekFirstLeadingComment (t : TokenNode) : option CommentStmt := head (LeadingCommentGroup t).
Definition CommentGroup_Valid (cg : CommentGroup) : bool := (0 <? length cg).

(** ** Expressions *)

Record KVExpr := mkKV { kv_Key : nodep; kv_Value : nodep }.
Record ServiceNameExpr := mkServiceName { sn_Name : nodep }.
Record PathExpr := mkPath { pe_Value : nodep }.
Record BodyExpr := mkBodyExpr { be_LBrack : nodep; be_RBrack : nodep; be_Star : nodep; be_Value : nodep }.

Inductive DataType :=
| AnyDataType (Any : nodep)
| ArrayDataType (LBrack Length RBrack : nodep) (dt : DataType)
| BaseDataType (Base : nodep)
| InterfaceDataType (Interface : nodep)
| MapDataType (Map LBrack : nodep) (Key : DataType) (RBrack : nodep) (Value : DataType)
| PointerDataType (Star : nodep) (dt : DataType)
| SliceDataType (LBrack RBrack : nodep) (dt : DataType)
| StructDataType (LBrace : nodep) (Elements : list ElemExpr) (RBrace : nodep)
with ElemExpr :=
| mkElem (Name : list nodep) (dt : DataType) (Tag : nodep).

Record TypeExpr := mkTypeExpr { te_Name : nodep; te_Assign : nodep; te_DataType : DataType }.

(** ** Statements *)

Record SyntaxStmt := mkSyntax { sy_Syntax : nodep; sy_Assign : nodep; sy_Value : nodep }.
Record InfoStmt := mkInfo { in_Info : nodep; in_LParen : nodep; in_Values : list KVExpr; in_RParen : nodep }.
Variant ImportStmt :=
| ImportLiteralStmt (Import Value : nodep)
| ImportGroupStmt (Import LParen : nodep) (Values : list nodep) (RParen : nodep).
Variant TypeStmt :=
| TypeLiteralStmt (Type_ : nodep) (Expr : TypeExpr)
| TypeGroupStmt (Type_ LParen : nodep) (ExprList : list TypeExpr) (RParen : nodep).
Record AtServerStmt := mkAtServer { as_AtServer : nodep; as_LParen : nodep; as_Values : list KVExpr; as_RParen : nodep }.
Variant AtDocStmt :=
| AtDocLiteralStmt (AtDoc Value : nodep)
| AtDocGroupStmt (AtDoc LParen : nodep) (Values : list KVExpr) (RParen : nodep).
Record AtHandlerStmt := mkAtHandler { ah_AtHandler : nodep; ah_Name : nodep }.
Record BodyStmt := mkBody { bs_LParen : nodep; bs_Body : option BodyExpr; bs_RParen : nodep }.
Record RouteStmt := mkRoute {
  rt_Method : nodep; rt_Path : PathExpr; rt_Request : option BodyStmt; rt_Returns : nodep; rt_Response : option BodyStmt
}.
Record ServiceItemStmt := mkItem {
  si_AtDoc : option AtDocStmt; si_AtHandler : option AtHandlerStmt; si_Route : option RouteStmt
}.
Record ServiceStmt := mkService {
  ss_AtServer : option AtServerStmt; ss_Service : nodep; ss_Name : ServiceNameExpr;
  ss_LBrace : nodep; ss_Routes : list ServiceItemStmt; ss_RBrace : nodep
}.

Variant Stmt :=
| SSyntax (s : SyntaxStmt) | SInfo (s : InfoStmt) | SImport (s : ImportStmt) | SType (s : TypeStmt)
| SService (s : ServiceStmt) | SComment (s : CommentStmt).

(** ** Texts *)

Definition show (n : nodep) : text := match n with Some n => Text (NodeToken n) | None => [] end.
Definition shows {A} (f : A -> text) (l : list A) : text := concat (f <$> l).
Definition show_opt {A} (f : A -> text) (o : option A) : text := match o with Some a => f a | None => [] end.
Fixpoint show_names (names : list nodep) : text :=
  match names with
  | [] => []
  | [n] => show n
  | n :: names => show n ++ rs "," ++ show_names names
  end.

Definition show_kv (e : KVExpr) : text := show (kv_Key e) ++ show (kv_Value e).
Definition show_body_expr (e : BodyExpr) : text :=
  show (be_LBrack e) ++ show (be_RBrack e) ++ show (be_Star e) ++ show (be_Value e).

Fixpoint show_type (d : DataType) : text :=
  match d with
  | AnyDataType n | BaseDataType n | InterfaceDataType n => show n
  | ArrayDataType l n r d => show l ++ show n ++ show r ++ show_type d
  | MapDataType m l k r v => show m ++ show l ++ show_type k ++ show r ++ show_type v
  | PointerDataType s d => show s ++ show_type d
  | SliceDataType l r d => show l ++ show r ++ show_type d
  | StructDataType l es r =>
    show l ++ (fix go es := match es with [] => [] | e :: es => show_elem e ++ go es end) es ++ show r
  end
with show_elem (e : ElemExpr) : text :=
  match e with mkElem names d tag => show_names names ++ show_type d ++ show tag end.

Definition show_type_expr (e : TypeExpr) : text := show (te_Name e) ++ show (te_Assign e) ++ show_type (te_DataType e).
Definition show_import (s : ImportStmt) : text :=
  match s with
  | ImportLiteralStmt i v => show i ++ show v
  | ImportGroupStmt i l vs r => show i ++ show l ++ shows show vs ++ show r
  end.
Definition show_type_stmt (s : TypeStmt) : text :=
  match s with
  | TypeLiteralStmt t e => show t ++ show_type_expr e
  | TypeGroupStmt t l es r => show t ++ show l ++ shows show_type_expr es ++ show r
  end.
Definition show_at_server (s : AtServerStmt) : text :=
  show (as_AtServer s) ++ show (as_LParen s) ++ shows show_kv (as_Values s) ++ show (as_RParen s).
Definition show_at_doc (s : AtDocStmt) : text :=
  match s with
  | AtDocLiteralStmt d v => show d ++ show v
  | AtDocGroupStmt d l vs r => show d ++ show l ++ shows show_kv vs ++ show r
  end.
Definition show_at_handler (s : AtHandlerStmt) : text := show (ah_AtHandler s) ++ show (ah_Name s).
Definition show_body (s : BodyStmt) : text := show (bs_LParen s) ++ show_opt show_body_expr (bs_Body s) ++ show (bs_RParen s).
Definition show_route (s : RouteStmt) : text :=
  show (rt_Method s) ++ show (pe_Value (rt_Path s)) ++ show_opt show_body (rt_Request s) ++
  show (rt_Returns s) ++ show_opt show_body (rt_Response s).
Definition show_item (s : ServiceItemStmt) : text :=
  show_opt show_at_doc (si_AtDoc s) ++ show_opt show_at_handler (si_AtHandler s) ++ show_opt show_route (si_Route s).
Definition show_service (s : ServiceStmt) : text :=
  show_opt show_at_server (ss_AtServer s) ++ show (ss_Service s) ++ show (sn_Name (ss_Name s)) ++
  show (ss_LBrace s) ++ shows show_item (ss_Routes s) ++ show (ss_RBrace s).
(** Comments have no text of the program. *)
Definition show_stmt (s : Stmt) : text :=
  match s with
  | SSyntax s => show (sy_Syntax s) ++ show (sy_Assign s) ++ show (sy_Value s)
  | SInfo s => show (in_Info s) ++ show (in_LParen s) ++ shows show_kv (in_Values s) ++ show (in_RParen s)
  | SImport s => show_import s
  | SType s => show_type_stmt s
  | SService s => show_service s
  | SComment _ => []
  end.

Arguments shows {A} f l : simpl never.
Arguments show n : simpl nomatch.
Arguments show_names names : simpl nomatch.
Create HintDb shows.
#[export] Hint Unfold show_kv show_body_expr show_type_expr show_import show_type_stmt show_at_server show_at_doc
  show_at_handler show_body show_route show_item show_service show_stmt show_opt : shows.
