(* ===== verification/ApiParser.v ===== *)
(** * [tools/fastgoctl/pkg/parser/api/parser/parser.go]: the parser of the API language

    A recursive-descent parser with one token of lookahead, in the monad [M] of the prelude on the
    state [Parser].  A function that returns nil returns [None]; [let?] goes on with the value and
    [check] and [reject] with the flags the code tests before it returns nil.

    The parser reads tokens from any [TokenSource]; the scanner is an instance.  Loops and the
    recursion of the data types take fuel from the number of tokens the source can still give.
    Comments are skipped by [nextToken], which attaches them to the token nodes. *)

From S2P Require Import Prelude.
From S2P Require Import Token.
From S2P Require Import Scanner.
From S2P Require Import ApiAst.
Import Prelude(ret).
Local Open Scope Z_scope.

(** ** The source of tokens *)

Class TokenSource (S : Type) := {
  source_next : S -> outcome (scanResult * S);
  (** more than the number of tokens that are left *)
  source_left : S -> nat
}.

#[export] Instance scanner_source : TokenSource Scanner := {
  source_next := NextToken;
  source_left s := (size_ s - position s)%nat
}.

(** ** What is expected: a type or a text *)

Variant expect := ETy (t : Type_) | ETx (s : text).
Definition expect_String (e : expect) : text := match e with ETy t => Type_String t | ETx s => s end.
Definition matches (t : Token) (e : expect) : bool :=
  match e with
  | ETy ty => bool_decide (Type__ t = ty)
  | ETx s => bool_decide (Text t = s)
  end.

(** The length of a text in bytes *)
Definition rune_len (r : rune) : Z := if r <? 128 then 1 else if r <? 2048 then 2 else if r <? 65536 then 3 else 4.
Definition text_len (t : text) : Z := foldr (fun r n => rune_len r + n) 0 t.

Definition Syntax : text := rs "syntax".
Definition Info : text := rs "info".
Definition Service : text := rs "service".
Definition Returns : text := rs "returns".
Definition Any : text := rs "any".
Definition TypeKeyword : text := rs "type".
Definition MapKeyword : text := rs "map".
Definition ImportKeyword : text := rs "import".
Definition idAPI : text := rs "api".
Definition summaryKeyExprText : text := rs "summary:".
Definition HttpMethods : list expect := ETx <$> httpMethod.

Declare Scope parser_scope.
Delimit Scope parser_scope with parser.
Notation "'let?' x := m 'in' k" := (bind m (fun o => match o with Some x => k | None => ret None end))
  (at level 10, x name, k at level 200) : parser_scope.
Notation "'check' m 'in' k" := (bind m (fun b : bool => if b then k else ret None))
  (at level 10, k at level 200) : parser_scope.
Notation "'reject' m 'in' k" := (bind m (fun b : bool => if b then ret None else k))
  (at level 10, k at level 200) : parser_scope.

Section parser.
Context {S : Type} `{!TokenSource S}.

Record Parser := mkParser {
  p_s : S;
  errors : list text;
  curTok : Token;
  peekTok : Token;
  headCommentGroup : CommentGroup;
  api : list Stmt;
  node : list (Token * TokenNode)
}.

(** [New]: the zero token is not valid. *)
Definition zeroToken : Token := mkToken token_bg [] IllegalPosition.
Definition New (s : S) : Parser := mkParser s [] zeroToken zeroToken [] [] [].

Definition set_cur (t : Token) (p : Parser) : Parser :=
  mkParser (p_s p) (errors p) t (peekTok p) (headCommentGroup p) (api p) (node p).
Definition set_peek (t : Token) (s : S) (p : Parser) : Parser :=
  mkParser s (errors p) (curTok p) t (headCommentGroup p) (api p) (node p).
Definition set_head (cg : CommentGroup) (p : Parser) : Parser :=
  mkParser (p_s p) (errors p) (curTok p) (peekTok p) cg (api p) (node p).
Definition set_node (t : Token) (n : TokenNode) (p : Parser) : Parser :=
  mkParser (p_s p) (errors p) (curTok p) (peekTok p) (headCommentGroup p) (api p) ((t, n) :: node p).
Definition appendStmt (l : list Stmt) (p : Parser) : Parser :=
  mkParser (p_s p) (errors p) (curTok p) (peekTok p) (headCommentGroup p) (api p ++ l) (node p).
Definition add_error (e : text) (p : Parser) : Parser :=
  mkParser (p_s p) (errors p ++ [e]) (curTok p) (peekTok p) (headCommentGroup p) (api p) (node p).

(** ** Reading tokens *)

(** The map from tokens to their nodes *)
Fixpoint find_node (t : Token) (l : list (Token * TokenNode)) : nodep :=
  match l with
  | [] => None
  | (u, n) :: l => if decide (u = t) then Some n else find_node t l
  end.
Definition getNode (t : Token) (p : Parser) : nodep := find_node t (node p).
Definition curTokenNode : M Parser nodep := gets (fun p => getNode (curTok p) p).

Definition curTokenIs (es : list expect) : M Parser bool := gets (fun p => existsb (matches (curTok p)) es).
Definition curTokenIsNotEof : M Parser bool := gets (fun p => negb (bool_decide (Type__ (curTok p) = EOF))).
Definition peekTokenIs (es : list expect) : M Parser bool := gets (fun p => existsb (matches (peekTok p)) es).
Definition peekTokenIsNot (es : list expect) : M Parser bool :=
  gets (fun p => negb (existsb (matches (peekTok p)) es)).

(** One call of the scanner; false when it fails. *)
Definition readPeek : M Parser bool := fun p =>
  match source_next (p_s p) with
  | Panic msg => Panic msg
  | Ok (Tok t, s) => Ok (true, set_peek t s p)
  | Ok (Error_ err, s) => Ok (false, add_error err (set_peek ErrorToken s p))
  end.

(** The loop over comments: those on the line [line] are leading comments of the current token. *)
Fixpoint comments_loop (fuel : nat) (line : Z) (leading : CommentGroup) : M Parser (option CommentGroup) := fun p =>
  if bool_decide (Type__ (peekTok p) = COMMENT) || bool_decide (Type__ (peekTok p) = DOCUMENT) then
    match fuel with
    | O => Panic "out of fuel"
    | Datatypes.S fuel =>
      let commentStmt := mkComment (peekTok p) in
      let here := (Line (peekTok p) =? line) && (-1 <? line) in
      let leading := if here then leading ++ [commentStmt] else leading in
      let p := if here then p else set_head (headCommentGroup p ++ [commentStmt]) p in
      (check readPeek in comments_loop fuel line leading)%parser p
    end
  else Ok (Some leading, p).

Definition setLeading (cg : CommentGroup) : M Parser () := fun p =>
  match getNode (curTok p) p with
  | Some n => Ok ((), set_node (curTok p) (SetLeadingCommentGroup cg n) p)
  | None => Panic "invalid memory address or nil pointer dereference"
  end.

Definition readTokens (line : Z) : M Parser bool := fun p =>
  bind readPeek (fun ok : bool =>
    if negb ok then ret false
    else bind (fun p => comments_loop (Datatypes.S (source_left (p_s p))) line [] p) (fun o =>
      match o with
      | None => ret false
      | Some leading =>
        if (0 <? length leading)%nat then (let! _ := setLeading leading in ret true)%go else ret true
      end)) p.

Definition nextToken : M Parser bool := fun p =>
  let p := set_cur (peekTok p) p in
  if Valid (curTok p) then
    if bool_decide (Type__ (curTok p) = EOF) then
      Ok (true, set_head [] (appendStmt (SComment <$> headCommentGroup p) p))
    else
      let node := mkTokenNode (headCommentGroup p) (curTok p) [] in
      let p := if CommentGroup_Valid (headCommentGroup p) then set_head [] p else p in
      readTokens (Line (curTok p)) (set_node (curTok p) node p)
  else readTokens (-1) p.

(** ** Errors *)

Definition quoted (es : list expect) : text := join (rs " | ") ((fun e => rs "'" ++ expect_String e ++ rs "'") <$> es).
Definition syntaxError (pos : Position) (es : list expect) (got : text) : text :=
  Position_String pos ++ rs " syntax error: expected " ++ quoted es ++ rs ", got '" ++ got ++ rs "'".

Definition peekError (es : list expect) (p : Parser) : Parser :=
  let got := if bool_decide (Type__ (peekTok p) = ILLEGAL) then Text (peekTok p) else Type_String (Type__ (peekTok p)) in
  let pos :=
    if bool_decide (Type__ (peekTok p) = EOF) then
      let position := Pos (curTok p) in
      mkPos (Filename position) (Line_ position) (Column position + text_len (Text (curTok p)))
    else Pos (peekTok p) in
  add_error (syntaxError pos es got) p.

Definition expectPeekToken (es : list expect) : M Parser bool := fun p =>
  if existsb (matches (peekTok p)) es then Ok (true, p) else Ok (false, peekError es p).
Definition notExpectPeekToken (es : list expect) : M Parser bool := fun p =>
  if existsb (matches (peekTok p)) es then Ok (false, p) else Ok (true, peekError es p).
Definition advanceIfPeekTokenIs (es : list expect) : M Parser bool :=
  (let! ok := expectPeekToken es in if ok then nextToken else ret false)%go.
Definition expectIdentError (tok : Token) (es : list expect) : M Parser () :=
  modify (add_error (syntaxError (Pos tok) es (Type_String (Type__ tok)))).

(** The first leading comment of the current token's node *)
Definition curLeadingComment : M Parser (option CommentStmt) :=
  (let! n := curTokenNode in
   match n with
   | Some n => ret (PeekFirstLeadingComment n)
   | None => panic "invalid memory address or nil pointer dereference"
   end)%go.
Definition notExpectPeekTokenGotComment (actual : option CommentStmt) (es : list expect) : M Parser bool := fun p =>
  match actual with
  | None => Ok (false, p)
  | Some c => Ok (true, add_error (syntaxError (Pos (peekTok p)) es (Type_String (Type__ (Comment c)))) p)
  end.
Definition curLeadingGroup : M Parser CommentGroup :=
  (let! n := curTokenNode in
   match n with
   | Some n => ret (LeadingCommentGroup n)
   | None => panic "invalid memory address or nil pointer dereference"
   end)%go.

Definition curTokenIsKeyword : M Parser bool :=
  (let! tok := gets curTok in
   match LookupKeyword (Text tok) with
   | Some tp => let! _ := expectIdentError (Fork tp tok) [ETy IDENT] in ret true
   | None => ret false
   end)%go.

(** Fuel for a loop that takes a token in each round. *)
Definition with_fuel {X} (f : nat -> M Parser X) : M Parser X := fun p => f (2 + source_left (p_s p))%nat p.

Local Open Scope parser_scope.

(** Advance, and the node of the token. *)
Definition take_node (es : list expect) : M Parser (option nodep) :=
  check advanceIfPeekTokenIs es in bind curTokenNode (fun n => ret (Some n)).
(** [nextToken], and the node of the token. *)
Definition next_node : M Parser (option nodep) :=
  check nextToken in bind curTokenNode (fun n => ret (Some n)).

(** ** Key values *)

Definition parseKVExpression : M Parser (option KVExpr) :=
  let? k := take_node [ETy KEY] in
  let? v := take_node [ETy STRING] in
  ret (Some (mkKV k v)).

(** The loops of [parseInfoStmt], [parseAtDocGroupStmt] and [parseAtServerStmt]. *)
Fixpoint kv_loop (parse : M Parser (option KVExpr)) (fuel : nat) (values : list KVExpr) : M Parser (option (list KVExpr)) :=
  bind curTokenIsNotEof (fun c1 : bool => bind (peekTokenIsNot [ETy RPAREN]) (fun c2 : bool =>
    if c1 && c2 then
      match fuel with
      | O => panic "out of fuel"
      | Datatypes.S fuel =>
        let? expr := parse in
        reject notExpectPeekToken [ETy RPAREN; ETy KEY] in
        kv_loop parse fuel (values ++ [expr])
      end
    else ret (Some values))).

(** [IDENT] or [IDENT - IDENT] behind a slash, appended to the text. *)
Definition path_part (pathText : text) : M Parser (option text) :=
  check advanceIfPeekTokenIs [ETy IDENT] in
  bind (gets curTok) (fun t =>
  let pathText := pathText ++ Text t in
  bind (peekTokenIs [ETy SUB]) (fun sub : bool =>
  if sub then
    check nextToken in
    bind (gets curTok) (fun t1 =>
    check advanceIfPeekTokenIs [ETy IDENT] in
    bind (gets curTok) (fun t2 => ret (Some (pathText ++ Text t1 ++ Text t2))))
  else ret (Some pathText))).

Definition new_value (tok : Token) (cg : CommentGroup) : nodep := Some (SetLeadingCommentGroup cg (NewTokenNode tok)).

(** The loops over [, IDENT] and [- IDENT]: [sep] is the separator. *)
Fixpoint list_loop (sep : Type_) (fuel : nat) (valueTok : Token) (cg : CommentGroup)
    : M Parser (option (Token * CommentGroup)) :=
  bind (peekTokenIs [ETy sep]) (fun more : bool =>
    if more then
      match fuel with
      | O => panic "out of fuel"
      | Datatypes.S fuel =>
        check nextToken in
        bind (gets curTok) (fun sepTok =>
        check advanceIfPeekTokenIs [ETy IDENT] in
        bind (gets curTok) (fun idTok =>
        bind curLeadingGroup (fun cg =>
        list_loop sep fuel (mkToken token_bg (Text valueTok ++ Text sepTok ++ Text idTok) (Pos valueTok)) cg)))
      end
    else ret (Some (valueTok, cg))).

(** The loop over [/ IDENT] at the end. *)
Fixpoint path_loop (fuel : nat) (valueTok : Token) (cg : CommentGroup) : M Parser (option (Token * CommentGroup)) :=
  bind (peekTokenIs [ETy QUO]) (fun more : bool =>
    if more then
      match fuel with
      | O => panic "out of fuel"
      | Datatypes.S fuel =>
        check nextToken in
        bind (gets curTok) (fun slashTok =>
        let? pathText := path_part (Text valueTok ++ Text slashTok) in
        bind curLeadingGroup (fun cg =>
        path_loop fuel (mkToken token_bg pathText (Pos valueTok)) cg))
      end
    else ret (Some (valueTok, cg))).

Definition kv_end (k : nodep) (valueTok : Token) (cg : CommentGroup) : M Parser (option KVExpr) :=
  ret (Some (mkKV k (new_value (Fork PATH valueTok) cg))).
(** The value is the next token as it is. *)
Definition kv_plain (k : nodep) : M Parser (option KVExpr) :=
  check nextToken in
  bind (gets curTok) (fun t => bind curLeadingGroup (fun cg => ret (Some (mkKV k (new_value t cg))))).
Definition kv_paths (k : nodep) (valueTok : Token) (cg : CommentGroup) : M Parser (option KVExpr) :=
  bind (with_fuel (fun fuel => path_loop fuel valueTok cg)) (fun o =>
    match o with Some (valueTok, cg) => kv_end k valueTok cg | None => ret None end).
Definition kv_list (sep : Type_) (k : nodep) (valueTok : Token) (cg : CommentGroup) : M Parser (option KVExpr) :=
  bind (with_fuel (fun fuel => list_loop sep fuel valueTok cg)) (fun o =>
    match o with Some (valueTok, cg) => kv_end k valueTok cg | None => ret None end).

Definition parseAtServerKVExpression : M Parser (option KVExpr) :=
  let? k := take_node [ETy KEY; ETy RPAREN] in
  reject notExpectPeekToken [ETy QUO; ETy DURATION; ETy IDENT; ETy INT; ETy STRING] in
  bind (peekTokenIs [ETy QUO]) (fun quo : bool => bind (peekTokenIs [ETy DURATION]) (fun dur : bool =>
  bind (peekTokenIs [ETy INT]) (fun int : bool => bind (peekTokenIs [ETy STRING]) (fun str : bool =>
  if quo then
    check nextToken in
    bind (gets curTok) (fun slashTok =>
    let? pathText := path_part (Text slashTok) in
    bind curLeadingGroup (fun cg => kv_paths k (mkToken token_bg pathText (Pos slashTok)) cg))
  else if dur || int then kv_plain k
  else if str then
    if decide (show k <> summaryKeyExprText) then
      reject notExpectPeekToken [ETy QUO; ETy DURATION; ETy IDENT; ETy INT] in kv_plain k
    else kv_plain k
  else
    check advanceIfPeekTokenIs [ETy IDENT] in
    bind (gets curTok) (fun valueTok => bind curLeadingGroup (fun cg =>
    bind (peekTokenIs [ETy COMMA]) (fun comma : bool => bind (peekTokenIs [ETy SUB]) (fun sub : bool =>
    if comma then kv_list COMMA k valueTok cg
    else if sub then kv_list SUB k valueTok cg
    else kv_paths k valueTok cg)))))))).

(** ** [syntax], [info], [import] *)

Definition parseSyntaxStmt : M Parser (option SyntaxStmt) :=
  bind curTokenNode (fun s =>
  let? a := take_node [ETy ASSIGN] in
  let? v := take_node [ETy STRING] in
  ret (Some (mkSyntax s a v))).

Definition parseInfoStmt : M Parser (option InfoStmt) :=
  bind curTokenNode (fun i =>
  let? l := take_node [ETy LPAREN] in
  let? vs := with_fuel (fun fuel => kv_loop parseKVExpression fuel []) in
  let? r := take_node [ETy RPAREN] in
  ret (Some (mkInfo i l vs r))).

Definition parseImportLiteralStmt : M Parser (option ImportStmt) :=
  bind curTokenNode (fun i =>
  let? v := take_node [ETy STRING] in
  ret (Some (ImportLiteralStmt i v))).

Fixpoint import_loop (fuel : nat) (values : list nodep) : M Parser (option (list nodep)) :=
  bind curTokenIsNotEof (fun c1 : bool => bind (peekTokenIsNot [ETy RPAREN]) (fun c2 : bool =>
    if c1 && c2 then
      match fuel with
      | O => panic "out of fuel"
      | Datatypes.S fuel =>
        let? v := take_node [ETy STRING] in
        reject notExpectPeekToken [ETy RPAREN; ETy STRING] in
        import_loop fuel (values ++ [v])
      end
    else ret (Some values))).

Definition parseImportGroupStmt : M Parser (option ImportStmt) :=
  bind curTokenNode (fun i =>
  let? l := take_node [ETy LPAREN] in
  let? vs := with_fuel (fun fuel => import_loop fuel []) in
  let? r := take_node [ETy RPAREN] in
  ret (Some (ImportGroupStmt i l vs r))).

Definition parseImportStmt : M Parser (option ImportStmt) :=
  reject notExpectPeekToken [ETy LPAREN; ETy STRING] in
  bind (peekTokenIs [ETy LPAREN]) (fun group : bool =>
  if group then parseImportGroupStmt else parseImportLiteralStmt).

(** ** Types *)

Section types.
(** [parseDataType] on the tokens inside *)
Context (parseDataType : M Parser (option DataType)).

Definition parseAnyDataType : M Parser (option DataType) :=
  let? n := next_node in ret (Some (AnyDataType n)).
Definition parseInterfaceDataType : M Parser (option DataType) :=
  let? n := next_node in ret (Some (InterfaceDataType n)).
Definition parsePointerDataType : M Parser (option DataType) :=
  let? s := next_node in
  reject notExpectPeekToken [ETy IDENT; ETy LBRACK; ETy ANY; ETy MUL] in
  let? d := parseDataType in
  ret (Some (PointerDataType s d)).
Definition parseMapDataType : M Parser (option DataType) :=
  let? m := next_node in
  let? l := take_node [ETy LBRACK] in
  let? k := parseDataType in
  let? r := take_node [ETy RBRACK] in
  let? v := parseDataType in
  ret (Some (MapDataType m l k r v)).
Definition parseArrayDataType : M Parser (option DataType) :=
  bind curTokenNode (fun l =>
  let? n := next_node in
  let? r := take_node [ETy RBRACK] in
  let? d := parseDataType in
  ret (Some (ArrayDataType l n r d))).
Definition parseSliceDataType : M Parser (option DataType) :=
  bind curTokenNode (fun l =>
  let? r := take_node [ETy RBRACK] in
  let? d := parseDataType in
  ret (Some (SliceDataType l r d))).

(** The loop over [, IDENT] behind a field name *)
Fixpoint names_loop (fuel : nat) (names : list nodep) : M Parser (option (list nodep)) :=
  bind (peekTokenIs [ETy COMMA]) (fun more : bool =>
    if more then
      match fuel with
      | O => panic "out of fuel"
      | Datatypes.S fuel =>
        check nextToken in
        check advanceIfPeekTokenIs [ETy IDENT] in
        reject curTokenIsKeyword in
        bind curTokenNode (fun n => names_loop fuel (names ++ [n]))
      end
    else ret (Some names)).

Definition named_type (n : nodep) (any : bool) : DataType := if any then AnyDataType n else BaseDataType n.

(** The names and the data type of an element; there is no name when it is embedded. *)
Definition elem_head : M Parser (option (list nodep * DataType)) :=
  check advanceIfPeekTokenIs [ETy IDENT; ETy MUL] in
  reject curTokenIsKeyword in
  bind curTokenNode (fun identNode =>
  bind (curTokenIs [ETy MUL]) (fun star : bool =>
  if star then
    check advanceIfPeekTokenIs [ETy IDENT] in
    bind (curTokenIs [ETx Any]) (fun any : bool => bind curTokenNode (fun n =>
    ret (Some ([], PointerDataType identNode (named_type n any)))))
  else
    bind (gets peekTok) (fun peek => bind (peekTokenIs [ETy RAW_STRING]) (fun raw : bool =>
    match identNode with
    | None => panic "invalid memory address or nil pointer dereference"
    | Some ident =>
      if (Line (NodeToken ident) <? Line peek) || raw then
        bind (curTokenIs [ETx Any]) (fun any : bool => ret (Some ([], named_type identNode any)))
      else
        reject notExpectPeekToken [ETy COMMA; ETy IDENT; ETy LBRACK; ETy ANY; ETy MUL; ETy LBRACE] in
        let? names := with_fuel (fun fuel => names_loop fuel [identNode]) in
        let? d := parseDataType in
        ret (Some (names, d))
    end)))).

Definition parseElemExpr : M Parser (option ElemExpr) :=
  bind elem_head (fun o =>
  match o with
  | None => ret None
  | Some (names, d) =>
    reject notExpectPeekToken [ETy RAW_STRING; ETy MUL; ETy IDENT; ETy RBRACE] in
    bind (peekTokenIs [ETy RAW_STRING]) (fun raw : bool =>
    if raw then let? tag := next_node in ret (Some (mkElem names d tag))
    else ret (Some (mkElem names d None)))
  end).

Fixpoint parseElemExprList (fuel : nat) (elems : list ElemExpr) : M Parser (option (list ElemExpr)) :=
  bind curTokenIsNotEof (fun c1 : bool => bind (peekTokenIsNot [ETy RBRACE; ETy EOF]) (fun c2 : bool =>
    if c1 && c2 then
      match fuel with
      | O => panic "out of fuel"
      | Datatypes.S fuel =>
        reject notExpectPeekToken [ETy IDENT; ETy MUL; ETy RBRACE] in
        let? expr := parseElemExpr in
        reject notExpectPeekToken [ETy IDENT; ETy MUL; ETy RBRACE] in
        parseElemExprList fuel (elems ++ [expr])
      end
    else ret (Some elems))).

Definition parseStructDataType : M Parser (option DataType) :=
  let? l := next_node in
  reject notExpectPeekToken [ETy IDENT; ETy MUL; ETy RBRACE] in
  let? es := with_fuel (fun fuel => parseElemExprList fuel []) in
  let? r := take_node [ETy RBRACE] in
  ret (Some (StructDataType l es r)).

Definition parseBaseDataType : M Parser (option DataType) :=
  check nextToken in
  reject curTokenIsKeyword in
  bind curTokenNode (fun n => ret (Some (BaseDataType n))).
Definition parseBracketDataType : M Parser (option DataType) :=
  check nextToken in
  bind (peekTokenIs [ETy RBRACK]) (fun slice : bool => bind (peekTokenIs [ETy INT; ETy ELLIPSIS]) (fun array : bool =>
  if slice then parseSliceDataType
  else if array then parseArrayDataType
  else bind (expectPeekToken [ETy RBRACK; ETy INT; ETy ELLIPSIS]) (fun _ => ret None))).

Definition dataType_body : M Parser (option DataType) :=
  bind (gets peekTok) (fun t =>
  let got := matches t in
  if got (ETx Any) then parseAnyDataType
  else if got (ETy LBRACE) then parseStructDataType
  else if got (ETy IDENT) then
    if got (ETx MapKeyword) then parseMapDataType else parseBaseDataType
  else if got (ETy LBRACK) then parseBracketDataType
  else if got (ETy ANY) then parseInterfaceDataType
  else if got (ETy MUL) then parsePointerDataType
  else bind (expectPeekToken [ETy IDENT; ETy LBRACK; ETy ANY; ETy MUL; ETy LBRACE]) (fun _ => ret None)).
End types.

Fixpoint parseDataType_ (fuel : nat) : M Parser (option DataType) :=
  match fuel with
  | O => panic "out of fuel"
  | Datatypes.S fuel => dataType_body (parseDataType_ fuel)
  end.
Definition parseDataType : M Parser (option DataType) := with_fuel parseDataType_.

Definition parseTypeExpr : M Parser (option TypeExpr) :=
  check advanceIfPeekTokenIs [ETy IDENT] in
  reject curTokenIsKeyword in
  bind curTokenNode (fun n =>
  bind (peekTokenIs [ETy ASSIGN]) (fun assign : bool =>
  let? a := (if assign then next_node else ret (Some None)) in
  let? d := parseDataType in
  ret (Some (mkTypeExpr n a d)))).

Fixpoint typeExpr_loop (fuel : nat) (exprs : list TypeExpr) : M Parser (option (list TypeExpr)) :=
  bind curTokenIsNotEof (fun c1 : bool => bind (peekTokenIsNot [ETy RPAREN; ETy EOF]) (fun c2 : bool =>
    if c1 && c2 then
      match fuel with
      | O => panic "out of fuel"
      | Datatypes.S fuel =>
        let? expr := parseTypeExpr in
        check expectPeekToken [ETy IDENT; ETy RPAREN] in
        typeExpr_loop fuel (exprs ++ [expr])
      end
    else ret (Some exprs))).
Definition parseTypeExprList : M Parser (option (list TypeExpr)) :=
  check expectPeekToken [ETy IDENT; ETy RPAREN] in
  with_fuel (fun fuel => typeExpr_loop fuel []).

Definition parseTypeLiteralStmt : M Parser (option TypeStmt) :=
  bind curTokenNode (fun t =>
  let? e := parseTypeExpr in
  ret (Some (TypeLiteralStmt t e))).
Definition parseTypeGroupStmt : M Parser (option TypeStmt) :=
  bind curTokenNode (fun t =>
  let? l := next_node in
  let? es := parseTypeExprList in
  let? r := take_node [ETy RPAREN] in
  ret (Some (TypeGroupStmt t l es r))).
Definition parseTypeStmt : M Parser (option TypeStmt) :=
  bind (peekTokenIs [ETy LPAREN]) (fun group : bool => bind (peekTokenIs [ETy IDENT]) (fun literal : bool =>
  if group then parseTypeGroupStmt
  else if literal then parseTypeLiteralStmt
  else bind (expectPeekToken [ETy LPAREN; ETy IDENT]) (fun _ => ret None))).

(** ** Services *)

Definition parseAtServerStmt : M Parser (option AtServerStmt) :=
  bind curTokenNode (fun s =>
  let? l := take_node [ETy LPAREN] in
  let? vs := with_fuel (fun fuel => kv_loop parseAtServerKVExpression fuel []) in
  let? r := take_node [ETy RPAREN] in
  ret (Some (mkAtServer s l vs r))).

Definition parseAtDocGroupStmt : M Parser (option AtDocStmt) :=
  bind curTokenNode (fun d =>
  let? l := take_node [ETy LPAREN] in
  let? vs := with_fuel (fun fuel => kv_loop parseKVExpression fuel []) in
  let? r := take_node [ETy RPAREN] in
  ret (Some (AtDocGroupStmt d l vs r))).
Definition parseAtDocLiteralStmt : M Parser (option AtDocStmt) :=
  bind curTokenNode (fun d =>
  let? v := take_node [ETy STRING] in
  ret (Some (AtDocLiteralStmt d v))).
Definition parseAtDocStmt : M Parser (option AtDocStmt) :=
  reject notExpectPeekToken [ETy LPAREN; ETy STRING] in
  bind (peekTokenIs [ETy LPAREN]) (fun group : bool =>
  if group then parseAtDocGroupStmt else parseAtDocLiteralStmt).

Definition parseAtHandlerStmt : M Parser (option AtHandlerStmt) :=
  bind curTokenNode (fun h =>
  let? n := take_node [ETy IDENT] in
  ret (Some (mkAtHandler h n))).

Definition parseServiceNameExpr : M Parser (option ServiceNameExpr) :=
  bind (gets curTok) (fun tok =>
  bind (peekTokenIs [ETy SUB]) (fun sub : bool =>
  let? text := (if sub then
      check nextToken in
      bind (gets curTok) (fun t1 =>
      check expectPeekToken [ETx idAPI] in
      check nextToken in
      bind (gets curTok) (fun t2 => ret (Some (Text tok ++ Text t1 ++ Text t2))))
    else ret (Some (Text tok))) in
  bind curLeadingGroup (fun cg =>
  ret (Some (mkServiceName (new_value (mkToken IDENT text (Pos tok)) cg)))))).

(** What ends a path, and what ends one of its items *)
Definition path_ends : list expect :=
  [ETy LPAREN; ETx Returns; ETy AT_DOC; ETy AT_HANDLER; ETy SEMICOLON; ETy RBRACE].
Definition item_ends : list expect :=
  [ETy QUO; ETy LPAREN; ETx Returns; ETy AT_DOC; ETy AT_HANDLER; ETy RBRACE; ETy SEMICOLON; ETy EOF].

Fixpoint pathItem_loop (fuel : nat) (l : list Token) : M Parser (option (list Token)) :=
  bind curTokenIsNotEof (fun c1 : bool => bind (peekTokenIsNot item_ends) (fun c2 : bool =>
    if c1 && c2 then
      match fuel with
      | O => panic "out of fuel"
      | Datatypes.S fuel =>
        bind (peekTokenIs [ETy SUB]) (fun sub : bool =>
        if sub then
          check nextToken in
          bind (gets curTok) (fun t1 =>
          check advanceIfPeekTokenIs [ETy IDENT] in
          bind (gets curTok) (fun t2 => pathItem_loop fuel (l ++ [t1; t2])))
        else
          bind (peekTokenIs path_ends) (fun e : bool =>
          if e then ret (Some l)
          else
            check advanceIfPeekTokenIs [ETy IDENT] in
            bind (gets curTok) (fun t => pathItem_loop fuel (l ++ [t]))))
      end
    else ret (Some l))).
Definition parsePathItem : M Parser (option (list Token)) :=
  check advanceIfPeekTokenIs [ETy IDENT; ETy INT] in
  bind (gets curTok) (fun t => with_fuel (fun fuel => pathItem_loop fuel [t])).

(** The loop of [parsePathExpr]: the tokens of the path *)
Fixpoint pathExpr_loop (fuel : nat) (values : list Token) : M Parser (option (list Token)) :=
  bind curTokenIsNotEof (fun c1 : bool => bind (peekTokenIsNot path_ends) (fun c2 : bool =>
    if c1 && c2 then
      match fuel with
      | O => panic "out of fuel"
      | Datatypes.S fuel =>
        check advanceIfPeekTokenIs [ETy QUO] in
        bind (gets curTok) (fun slash =>
        bind (peekTokenIs path_ends) (fun e : bool =>
        if e then ret (Some (values ++ [slash]))
        else
          bind curLeadingComment (fun c =>
          reject notExpectPeekTokenGotComment c [ETy COLON; ETy IDENT; ETy INT] in
          reject notExpectPeekToken [ETy COLON; ETy IDENT; ETy INT] in
          bind curLeadingComment (fun c =>
          reject notExpectPeekTokenGotComment c [ETy COLON] in
          bind (peekTokenIs [ETy COLON]) (fun colon : bool =>
          let? values := (if colon then
              check nextToken in bind (gets curTok) (fun t => ret (Some (values ++ [slash; t])))
            else ret (Some (values ++ [slash]))) in
          let? pathTokens := parsePathItem in
          reject notExpectPeekToken (ETy QUO :: path_ends) in
          pathExpr_loop fuel (values ++ pathTokens))))))
      end
    else ret (Some values))).

(** [values[0]] panics when the path is empty. *)
Definition parsePathExpr : M Parser (option PathExpr) :=
  let? values := with_fuel (fun fuel => pathExpr_loop fuel []) in
  match values with
  | [] => panic "index out of range [0] with length 0"
  | v :: _ =>
    bind curLeadingGroup (fun cg =>
    ret (Some (mkPath (new_value (mkToken PATH (concat (Text <$> values)) (Pos v)) cg))))
  end.

Definition parseBodyExpr : M Parser (option BodyExpr) :=
  bind (gets peekTok) (fun t =>
  let got := matches t in
  if got (ETy LBRACK) then
    let? l := next_node in
    let? r := take_node [ETy RBRACK] in
    bind (gets peekTok) (fun t =>
    if matches t (ETy MUL) then
      let? s := next_node in
      let? v := take_node [ETy IDENT] in
      ret (Some (mkBodyExpr l r s v))
    else if matches t (ETy IDENT) then
      let? v := next_node in ret (Some (mkBodyExpr l r None v))
    else bind (expectPeekToken [ETy MUL; ETy IDENT]) (fun _ => ret None))
  else if got (ETy MUL) then
    let? s := next_node in
    let? v := take_node [ETy IDENT] in
    ret (Some (mkBodyExpr None None s v))
  else if got (ETy IDENT) then
    let? v := next_node in ret (Some (mkBodyExpr None None None v))
  else bind (expectPeekToken [ETy LBRACK; ETy MUL; ETy IDENT]) (fun _ => ret None)).

Definition parseBodyStmt : M Parser (option BodyStmt) :=
  let? l := take_node [ETy LPAREN] in
  bind (peekTokenIs [ETy RPAREN]) (fun empty : bool =>
  if empty then let? r := next_node in ret (Some (mkBody l None r))
  else
    let? b := parseBodyExpr in
    let? r := take_node [ETy RPAREN] in
    ret (Some (mkBody l (Some b) r))).

(** A semicolon at the end of a route; the result of [nextToken] is not looked at. *)
Definition skip_semicolon {X} (x : X) : M Parser (option X) :=
  bind (peekTokenIs [ETy SEMICOLON]) (fun semi : bool =>
  if semi then bind nextToken (fun _ => ret (Some x)) else ret (Some x)).

Definition parseRouteStmt : M Parser (option RouteStmt) :=
  let? m := take_node HttpMethods in
  let? path := parsePathExpr in
  bind (peekTokenIs [ETy AT_DOC; ETy AT_HANDLER; ETy RBRACE]) (fun ends : bool =>
  bind (peekTokenIs [ETy SEMICOLON]) (fun semi : bool =>
  if ends then ret (Some (mkRoute m path None None None))
  else if semi then skip_semicolon (mkRoute m path None None None)
  else
    reject notExpectPeekToken [ETx Returns; ETy LPAREN] in
    bind (peekTokenIs [ETy LPAREN]) (fun has_body : bool =>
    let? request := (if has_body then let? b := parseBodyStmt in ret (Some (Some b)) else ret (Some None)) in
    reject notExpectPeekToken [ETx Returns; ETy AT_DOC; ETy AT_HANDLER; ETy RBRACE; ETy SEMICOLON] in
    bind (peekTokenIs [ETx Returns]) (fun returns : bool =>
    if returns then
      let? r := next_node in
      let? response := parseBodyStmt in
      skip_semicolon (mkRoute m path request r (Some response))
    else skip_semicolon (mkRoute m path request None None))))).

Definition parseServiceItemStmt : M Parser (option ServiceItemStmt) :=
  bind (peekTokenIs [ETy AT_DOC]) (fun has_doc : bool =>
  let? doc := (if has_doc then
      check nextToken in let? d := parseAtDocStmt in ret (Some (Some d))
    else ret (Some None)) in
  check advanceIfPeekTokenIs [ETy AT_HANDLER; ETy RBRACE] in
  bind (peekTokenIs [ETy RBRACE]) (fun ends : bool =>
  if ends then ret (Some (mkItem doc None None))
  else
    let? handler := parseAtHandlerStmt in
    let? route := parseRouteStmt in
    ret (Some (mkItem doc (Some handler) (Some route))))).

Fixpoint parseServiceItemsStmt (fuel : nat) (items : list ServiceItemStmt) : M Parser (option (list ServiceItemStmt)) :=
  bind curTokenIsNotEof (fun c1 : bool => bind (peekTokenIsNot [ETy RBRACE]) (fun c2 : bool =>
    if c1 && c2 then
      match fuel with
      | O => panic "out of fuel"
      | Datatypes.S fuel =>
        let? item := parseServiceItemStmt in
        bind (peekTokenIs [ETy RBRACE]) (fun ends : bool =>
        if ends then ret (Some (items ++ [item]))
        else
          reject notExpectPeekToken [ETy AT_DOC; ETy AT_HANDLER; ETy RBRACE] in
          parseServiceItemsStmt fuel (items ++ [item]))
      end
    else ret (Some items))).

Definition parseService : M Parser (option ServiceStmt) :=
  bind (curTokenIs [ETy AT_SERVER]) (fun at_server : bool =>
  let? server := (if at_server then
      let? s := parseAtServerStmt in
      check advanceIfPeekTokenIs [ETx Service] in ret (Some (Some s))
    else ret (Some None)) in
  bind curTokenNode (fun service =>
  check advanceIfPeekTokenIs [ETy IDENT] in
  let? name := parseServiceNameExpr in
  let? l := take_node [ETy LBRACE] in
  let? routes := with_fuel (fun fuel => parseServiceItemsStmt fuel []) in
  let? r := take_node [ETy RBRACE] in
  ret (Some (mkService server service name l routes r)))).

(** ** The file *)

Definition wrap {X} (f : X -> Stmt) (m : M Parser (option X)) : M Parser (option Stmt) :=
  let? x := m in ret (Some (f x)).

Definition parseStmt : M Parser (option Stmt) :=
  bind (gets curTok) (fun t =>
  let got s := matches t (ETx s) in
  if matches t (ETy IDENT) then
    if got Syntax then wrap SSyntax parseSyntaxStmt
    else if got Info then wrap SInfo parseInfoStmt
    else if got Service then wrap SService parseService
    else if got TypeKeyword then wrap SType parseTypeStmt
    else if got ImportKeyword then wrap SImport parseImportStmt
    else bind (expectIdentError t [ETx Syntax; ETx Info; ETx Service; ETy TYPE]) (fun _ => ret None)
  else if matches t (ETy AT_SERVER) then wrap SService parseService
  else
    bind (gets peekTok) (fun peek =>
    bind (modify (add_error (Position_String (Pos t) ++ rs " unexpected token '" ++ Text peek ++ rs "'"))) (fun _ =>
    ret None))).

Definition init : M Parser bool := bind nextToken (fun ok : bool => if ok then nextToken else ret false).

Fixpoint stmts_loop (fuel : nat) : M Parser (option ()) :=
  bind curTokenIsNotEof (fun c : bool =>
    if c then
      match fuel with
      | O => panic "out of fuel"
      | Datatypes.S fuel =>
        let? stmt := parseStmt in
        bind (modify (appendStmt [stmt])) (fun _ =>
        check nextToken in
        stmts_loop fuel)
      end
    else ret (Some ())).

Definition Parse : M Parser (option (list Stmt)) :=
  check init in
  let? _ := with_fuel stmts_loop in
  bind (gets api) (fun stmts => ret (Some stmts)).

(** [CheckErrors]: the errors, one per line *)
Definition CheckErrors (p : Parser) : option text :=
  match errors p with
  | [] => None
  | es => Some (join [10] es)
  end.
End parser.
Arguments Parser : clear implicits.
