(* ===== verification/ApiParserLogic.v ===== *)
(** * A program logic for the parser of the API language

    [TokenSourceLaws] is what the parser needs of its source of tokens; the scanner provides it.
    [runs] says of a parse function that it returns, or panics with the one panic that the parser
    has ([no_path]: a route without a path).  [went p0 p t n] says how far the parser has come
    from the state [p0]: to [p], past tokens of which the text is [t] and at least [n] of which
    make the source shorter.  The rules below step through a parse function and extend [went]
    by the text of each token. *)

From S2P Require Import Prelude.
From S2P Require Import Token.
From S2P Require Import Scanner.
From S2P Require Import ApiAst.
From S2P Require Import ApiParser.
Import Prelude(ret).
Local Open Scope parser_scope.
Create HintDb parser.

(** ** The source *)

(** A token that moves the source forward *)
Definition real (t : Token) : bool :=
  negb (bool_decide (Type__ t ∈ [token_bg; error_; ILLEGAL; EOF])).

(** What the parser needs to know of a token *)
Definition token_fine (t : Token) : Prop :=
  Type__ t <> token_bg /\ (Type__ t = EOF -> t = EofToken) /\
  (Type__ t = COMMA -> Text t = rs ",") /\ (Type__ t = SEMICOLON -> Text t = rs ";").

Class TokenSourceLaws (S : Type) `{!TokenSource S} := {
  source_inv : S -> Prop;
  source_next_law s : source_inv s ->
    exists r s', source_next s = Ok (r, s') /\ source_inv s' /\ source_left s' <= source_left s /\
      match r with
      | Tok t => token_fine t /\ (real t = true -> source_left s' < source_left s)
      | Error_ _ => True
      end
}.

Lemma scanner_next_law (s : Scanner) : ok s ->
  exists r s', source_next s = Ok (r, s') /\ ok s' /\ source_left s' <= source_left s /\
    match r with
    | Tok t => token_fine t /\ (real t = true -> source_left s' < source_left s)
    | Error_ _ => True
    end.
Proof.
  intros Hok.
  destruct (NextToken_spec s Hok) as (lo & H1 & H2 & _ & _ & q & res & Hr & Hq & Hres).
  exists res, (seek (behind_white s lo) q). split; [done|]. split; [by eapply NextToken_ok|].
  simpl source_left. split; [lia|]. destruct res as [t|]; [|done].
  destruct Hres as [[Hlt [Ht|[[HT [_ Hsz]] Hsh]]]|[(E1 & E2 & Ht & [HT [_ Hsz]] & ->)|[(-> & _)|(Ht & _)]]].
  - unfold token_fine, real. rewrite Ht. naive_solver.
  - change (size_ (behind_white s lo)) with (size_ s) in Hsz. split; [|lia].
    destruct t as [[] tx tp]; simpl in Hsh; try done; unfold token_fine; naive_solver.
  - change (size_ (behind_white s lo)) with (size_ s) in Hsz. split; [|lia].
    unfold token_fine. rewrite Ht. naive_solver.
  - unfold token_fine, real. naive_solver.
  - unfold token_fine, real. rewrite Ht. naive_solver.
Qed.

#[export] Instance scanner_laws : TokenSourceLaws Scanner := {| source_inv := ok; source_next_law := scanner_next_law |}.

(** ** What holds of the parser *)

(** The only panic: [values[0]] of a path without elements *)
Definition no_path : string := "index out of range [0] with length 0".

Section logic.
Context {S : Type} `{!TokenSource S, !TokenSourceLaws S}.
Implicit Types (p q : Parser S) (ts l : list Token) (e : expect).

Definition runs {A} (m : M (Parser S) A) p (Q : A -> Parser S -> Prop) : Prop :=
  match m p with
  | Ok (a, p') => Q a p'
  | Panic msg => msg = no_path
  end.

Lemma runs_bind {A B} (m : M (Parser S) A) (k : A -> M (Parser S) B) p Q :
  runs m p (fun a p' => runs (k a) p' Q) -> runs (bind m k) p Q.
Proof. unfold runs, bind. by destruct (m p) as [[a p']|]. Qed.
Lemma runs_mono {A} (m : M (Parser S) A) p (P Q : A -> Parser S -> Prop) :
  runs m p P -> (forall a p', P a p' -> Q a p') -> runs m p Q.
Proof. unfold runs. destruct (m p) as [[a p']|]; auto. Qed.

(** Tokens a source gives *)
Inductive reads : S -> list Token -> S -> Prop :=
| reads_nil s : reads s [] s
| reads_cons s t s1 ts s2 : source_next s = Ok (Tok t, s1) -> reads s1 ts s2 -> reads s (t :: ts) s2.

Lemma reads_app s ts s1 us s2 : reads s ts s1 -> reads s1 us s2 -> reads s (ts ++ us) s2.
Proof. induction 1; [done|]. intros. econstructor; eauto. Qed.
Lemma reads_split s ts us s2 : reads s (ts ++ us) s2 -> exists s1, reads s ts s1 /\ reads s1 us s2.
Proof.
  revert s. induction ts as [|t ts IH]; intros s H; [exists s; split; [constructor|done]|].
  inversion H as [|? ? ? ? ? Hn Hr]; subst. destruct (IH _ Hr) as (s3 & H1 & H2).
  exists s3. split; [by econstructor|done].
Qed.

(** Tokens that are not comments *)
Definition is_comment (t : Token) : bool := bool_decide (Type__ t = COMMENT) || bool_decide (Type__ t = DOCUMENT).
Definition code (l : list Token) : list Token := filter (fun t => is_comment t = false) l.
(** The text of tokens; semicolons are not in the tree. *)
Definition texts (l : list Token) : text := shows Text (filter (fun t => Type__ t <> SEMICOLON) l).

Lemma texts_app l k : texts (l ++ k) = texts l ++ texts k.
Proof. unfold texts, shows. by rewrite filter_app, fmap_app, concat_app. Qed.

(** The tokens [ts] have become the current one after another. *)
Definition eats p ts p' : Prop :=
  EofToken ∉ ts /\ exists l, reads (p_s p) l (p_s p') /\ (peekTok p :: code l) = ts ++ [peekTok p'].

Lemma eats_refl p : eats p [] p.
Proof. split; [set_solver|]. exists []. split; [constructor|done]. Qed.
Lemma eats_trans p ts p1 us p2 : eats p ts p1 -> eats p1 us p2 -> eats p (ts ++ us) p2.
Proof.
  intros (H1 & l1 & R1 & E1) (H2 & l2 & R2 & E2). split; [set_solver|].
  exists (l1 ++ l2). split; [by eapply reads_app|]. unfold code in *.
  rewrite filter_app, app_comm_cons, E1, <- !app_assoc. f_equal. exact E2.
Qed.

Definition has_node p : Prop := is_Some (getNode (curTok p) p).

Record inv p : Prop := {
  inv_source : source_inv (p_s p);
  inv_peek : peekTok p = zeroToken \/ token_fine (peekTok p);
  inv_nodes : Forall (fun tn => NodeToken tn.2 = tn.1) (node p);
  inv_cur : Text (curTok p) = [] \/ has_node p
}.

Lemma find_node_token t ns n : Forall (fun tn => NodeToken tn.2 = tn.1) ns -> find_node t ns = Some n -> NodeToken n = t.
Proof.
  induction 1 as [|[u m] ns Hu _ IH]; [done|]. simpl. destruct (decide (u = t)) as [->|]; [|done].
  by intros [= <-].
Qed.

(** The text of the current token's node is that of the token. *)
Lemma show_cur p : inv p -> show (getNode (curTok p) p) = Text (curTok p).
Proof.
  intros [_ _ Hn Hc]. destruct (getNode (curTok p) p) as [n|] eqn:E.
  - simpl. by rewrite (find_node_token _ _ _ Hn E).
  - destruct Hc as [Hc|[n Hc]]; [by rewrite Hc|]. by rewrite E in Hc.
Qed.

(** How many tokens there can still be *)
Definition todo p : nat := source_left (p_s p) + (if real (peekTok p) then 1 else 0).

Definition gain (t : Token) : nat := if real t then 1 else 0.

Lemma readPeek_spec p : inv p ->
  exists b s t es, readPeek p = Ok (b, mkParser s (errors p ++ es) (curTok p) t (headCommentGroup p) (api p) (node p)) /\
    source_inv s /\
    (if b then es = [] /\ source_next (p_s p) = Ok (Tok t, s) /\ token_fine t /\ source_left s + gain t <= source_left (p_s p)
     else es <> [] /\ t = ErrorToken /\ source_left s <= source_left (p_s p)).
Proof.
  intros Hp. destruct (source_next_law (p_s p) (inv_source p Hp)) as (r & s & Hn & Hs & Hle & Hr).
  unfold readPeek. rewrite Hn. destruct r as [t|err].
  - destruct Hr as [Hf Hlt]. exists true, s, t, []. rewrite app_nil_r. split; [done|]. split; [done|].
    split; [done|]. split; [done|]. split; [done|]. unfold gain. destruct (real t); [|lia]. specialize (Hlt eq_refl). lia.
  - exists false, s, ErrorToken, [err]. done.
Qed.

(** What reading a token leaves alone, and how it can fail *)
Definition same p p' : Prop := curTok p' = curTok p /\ node p' = node p /\ api p' = api p.
Definition failed p' : Prop := errors p' <> [] /\ peekTok p' = ErrorToken.

Lemma inv_same p p' : inv p -> same p p' -> source_inv (p_s p') -> token_fine (peekTok p') -> inv p'.
Proof. intros [_ _ Hn Hc] (E1 & E2 & _) Hs Ht. split; [done|by right|by rewrite E2|]. unfold has_node, getNode in *. by rewrite E1, E2. Qed.

Lemma ErrorToken_fine : token_fine ErrorToken.
Proof. by repeat split. Qed.
Lemma comment_real t : is_comment t = true -> real t = true.
Proof. destruct t as [[] x y]; done. Qed.

Lemma comments_loop_spec fuel line leading p :
  inv p -> token_fine (peekTok p) -> (is_comment (peekTok p) = true -> source_left (p_s p) < fuel) ->
  exists o p', comments_loop fuel line leading p = Ok (o, p') /\ inv p' /\ same p p' /\ todo p' <= todo p /\
    match o with
    | None => failed p'
    | Some leading' => errors p' = errors p /\ token_fine (peekTok p') /\ (line = -1 -> leading' = leading)%Z /\
        exists l, reads (p_s p) l (p_s p') /\ code (peekTok p :: l) = [peekTok p']
    end.
Proof.
  revert leading p. induction fuel as [|fuel IH]; intros leading p Hp Hf Hlt;
    cbn [comments_loop]; fold (is_comment (peekTok p)); destruct (is_comment (peekTok p)) eqn:Ec; try (specialize (Hlt eq_refl); lia).
  - exists (Some leading), p. do 3 (split; [done|]). split; [lia|]. split; [done|]. split; [done|]. split; [done|].
    exists []. split; [constructor|]. unfold code. by rewrite filter_cons_True.
  - set (p1 := if (_ && _)%bool then p else _).
    assert (H1 : same p p1 /\ p_s p1 = p_s p /\ peekTok p1 = peekTok p /\ errors p1 = errors p) by (unfold p1; by destruct (_ && _)).
    destruct H1 as (Hs1 & Es1 & Et1 & Ee1).
    assert (Hp1 : inv p1) by (apply (inv_same p); [done..|rewrite Es1; apply Hp|by rewrite Et1]).
    set (lead := if (_ && _)%bool then leading ++ _ else leading). unfold bind.
    assert (Hlead : (line = -1)%Z -> lead = leading) by (intros ->; unfold lead; by rewrite andb_false_r).
    destruct (readPeek_spec p1 Hp1) as (b & s & t & es & -> & Hs & Hb). clearbody p1 lead. cbn [obind].
    rewrite Es1 in Hb. assert (Hreal := comment_real _ Ec). specialize (Hlt eq_refl). destruct b.
    + destruct Hb as (-> & Hn & Ht & Hl). set (p2 := mkParser _ _ _ _ _ _ _).
      assert (Hp2 : inv p2) by (by apply (inv_same p1)).
      destruct (IH lead p2 Hp2 Ht) as (o & p' & -> & Hp' & Hsame & Htodo & Ho).
      { simpl. intros Hc%comment_real. unfold gain in Hl. rewrite Hc in Hl. lia. }
      exists o, p'. split; [done|]. split; [done|]. split; [unfold same in *; simpl in *; intuition congruence|].
      unfold todo in *. simpl in Htodo. fold (gain t) in Htodo. rewrite Hreal. split; [lia|].
      destruct o as [g|]; [|done]. destruct Ho as (Ee & Hf' & Hline & l & Hr & Hcode). split; [by rewrite Ee; simpl; rewrite app_nil_r|].
      split; [done|]. split; [intros E; by rewrite Hline, Hlead|]. exists (t :: l). split; [by econstructor|]. unfold code in *. rewrite filter_cons_False by congruence. exact Hcode.
    + destruct Hb as (Hes & -> & Hle). eexists None, _. split; [done|].
      split; [apply (inv_same p1); [done..|apply ErrorToken_fine]|]. split; [unfold same in *; simpl; intuition congruence|].
      unfold todo. rewrite Hreal. simpl. split; [lia|]. split; [simpl; destruct es; [done|]; by destruct (errors p1)|done].
  - exists (Some leading), p. do 3 (split; [done|]). split; [lia|]. split; [done|]. split; [done|]. split; [done|].
    exists []. split; [constructor|]. unfold code. by rewrite filter_cons_True.
Qed.

Lemma readTokens_spec line p : inv p -> (line = -1 \/ has_node p)%Z ->
  exists b p', readTokens line p = Ok (b, p') /\ inv p' /\ curTok p' = curTok p /\ api p' = api p /\
    (has_node p -> has_node p') /\ todo p' <= source_left (p_s p) /\
    (if b then errors p' = errors p /\ exists l, reads (p_s p) l (p_s p') /\ code l = [peekTok p'] else failed p').
Proof.
  intros Hp Hl. unfold readTokens, bind.
  destruct (readPeek_spec p Hp) as (b & s & t & es & -> & Hs & Hb). cbn [obind].
  set (p1 := mkParser _ _ _ _ _ _ _). destruct b; cbn [negb].
  - destruct Hb as (-> & Hn & Ht & Hle). assert (Hp1 : inv p1) by (by apply (inv_same p)).
    destruct (comments_loop_spec (Datatypes.S (source_left (p_s p1))) line [] p1 Hp1 Ht) as (o & p' & -> & Hp' & Hsame & Htodo & Ho); [lia|].
    cbn [obind]. assert (Hs' : same p p') by done. destruct Hs' as (Ec & En & Ea). unfold todo in Htodo. simpl in Htodo. fold (gain t) in Htodo.
    assert (Hnode : has_node p -> has_node p') by (unfold has_node, getNode; by rewrite Ec, En).
    destruct o as [g|]; [|exists false, p'; do 5 (split; [done|]); split; [unfold todo; lia|done]].
    destruct Ho as (Ee & Hf & Hline & l & Hr & Hcode).
    assert (Hre : errors p' = errors p /\ exists l, reads (p_s p) l (p_s p') /\ code l = [peekTok p']).
    { split; [rewrite Ee; simpl; by rewrite app_nil_r|]. exists (t :: l). split; [by econstructor|done]. }
    destruct (Nat.ltb_spec 0 (length g)) as [Hg0|_].
    + destruct Hl as [->|Hl]; [rewrite Hline in Hg0 by done; simpl in Hg0; lia|]. apply Hnode in Hl as [n Hg].
      unfold bind, setLeading. rewrite Hg. cbn [obind]. eexists true, _. split; [done|].
      split; [split; [apply Hp'|apply Hp'|constructor; [|apply Hp']|]|].
      * simpl. by apply find_node_token in Hg; [|apply Hp'].
      * right. unfold has_node, getNode. simpl. by rewrite decide_True.
      * split; [done|]. split; [done|]. split; [intros _; unfold has_node, getNode; simpl; by rewrite decide_True|].
        split; [unfold todo in *; simpl; lia|done].
    + exists true, p'. do 5 (split; [done|]). split; [unfold todo; lia|done].
  - destruct Hb as (Hes & -> & Hle). exists false, p1. split; [done|].
    split; [apply (inv_same p); [done..|apply ErrorToken_fine]|]. do 3 (split; [done|]).
    split; [unfold todo; simpl; lia|]. split; [simpl; destruct es; [done|]; by destruct (errors p)|done].
Qed.

Lemma nextToken_spec p : inv p ->
  exists b p', nextToken p = Ok (b, p') /\ inv p' /\ curTok p' = peekTok p /\ (exists cs, api p' = api p ++ (SComment <$> cs)) /\
    (Text (peekTok p) <> [] \/ real (peekTok p) = true -> has_node p') /\ todo p' + gain (peekTok p) <= todo p /\
    (if b then errors p' = errors p /\ (Type__ (peekTok p) = EOF -> peekTok p' = EofToken) /\ exists ts, eats p ts p' /\ shows Text ts = Text (peekTok p) /\ Forall (eq (peekTok p)) ts
     else failed p').
Proof.
  intros Hp. unfold nextToken. simpl curTok.
  assert (Htodo : todo p = source_left (p_s p) + gain (peekTok p)) by done.
  assert (Hz : Valid (peekTok p) = false -> peekTok p = zeroToken).
  { intros Hv. destruct (inv_peek p Hp) as [|[Ht _]]; [done|]. unfold Valid in Hv. by case_bool_decide. }
  destruct (Valid (peekTok p)) eqn:Ev; [case_bool_decide as Eeof|].
  - destruct (inv_peek p Hp) as [E|(_ & He & _)]; [by rewrite E in Eeof|]. specialize (He Eeof).
    eexists true, _. split; [done|]. split; [split; try apply Hp; left; simpl; by rewrite He|]. split; [done|].
    split; [by eexists|]. split; [rewrite He; by intros [|]|]. split; [unfold todo, gain; simpl; rewrite He; simpl; lia|].
    split; [done|]. split; [done|]. exists []. split; [apply (eats_refl p)|]. by rewrite He.
  - set (p1 := if CommentGroup_Valid _ then _ else _). set (n := mkTokenNode _ _ _).
    assert (H1 : p_s p1 = p_s p /\ errors p1 = errors p /\ curTok p1 = peekTok p /\ api p1 = api p /\ node p1 = node p /\ peekTok p1 = peekTok p)
      by (unfold p1; by destruct (CommentGroup_Valid _)). clearbody p1. destruct H1 as (E1 & E2 & E3 & E4 & E5 & E6).
    set (p2 := set_node _ _ _). assert (Hnode : has_node p2).
    { unfold has_node, getNode. simpl. rewrite E3. by rewrite decide_True. }
    assert (Hp2 : inv p2).
    { split; simpl; [rewrite E1; apply Hp|rewrite E6; apply Hp|constructor; [done|rewrite E5; apply Hp]|by right]. }
    destruct (readTokens_spec (Line (curTok p1)) p2 Hp2) as (b & p' & -> & Hp' & Ec & Ea & Hn & Ht & Hb); [by right|].
    exists b, p'. split; [done|]. split; [done|]. split; [by rewrite Ec|]. split; [exists []; simpl; rewrite app_nil_r; by rewrite Ea|].
    split; [auto|]. simpl in Ht. rewrite E1 in Ht. split; [lia|]. destruct b; [|done].
    destruct Hb as (Ee & l & Hr & Hcode). split; [by rewrite Ee|]. split; [intros E; first [done|by rewrite Hz in E]|]. exists [peekTok p].
    split; [|split; [apply app_nil_r|by constructor]]. split; [|exists l; simpl in Hr; rewrite E1 in Hr; by rewrite Hcode].
    intros E%list_elem_of_singleton. by rewrite <- E in Eeof.
  - specialize (Hz eq_refl). set (p1 := set_cur _ _).
    assert (Hp1 : inv p1) by (split; try apply Hp; left; simpl; by rewrite Hz).
    destruct (readTokens_spec (-1) p1 Hp1) as (b & p' & -> & Hp' & Ec & Ea & Hn & Ht & Hb); [by left|].
    exists b, p'. split; [done|]. split; [done|]. split; [by rewrite Ec|]. split; [exists []; simpl; rewrite app_nil_r; by rewrite Ea|].
    split; [rewrite Hz; by intros [|]|]. simpl in Ht. split; [lia|]. destruct b; [|done].
    destruct Hb as (Ee & l & Hr & Hcode). split; [by rewrite Ee|]. split; [intros E; first [done|by rewrite Hz in E]|]. exists [peekTok p].
    split; [|split; [apply app_nil_r|by constructor]]. split; [|exists l; by rewrite Hcode].
    rewrite Hz. by intros ?%list_elem_of_singleton.
Qed.

(** ** Progress of the parser *)

Record went p0 p (t : text) (n : nat) : Prop := {
  went_inv : inv p;
  went_errors : errors p = errors p0;
  went_api : exists cs, api p = api p0 ++ (SComment <$> cs);
  went_node : has_node p0 -> has_node p;
  went_todo : todo p + n <= todo p0;
  went_eats : exists ts, eats p0 ts p /\ texts ts = t
}.

(** A parse function fails with an error, or returns a value that goes with the text it took. *)
Definition result {X} p0 (R : X -> text -> Prop) (c : nat) (o : option X) p' : Prop :=
  match o with
  | None => errors p' <> []
  | Some x => exists t, R x t /\ went p0 p' t c
  end.
Definition fails {X} (Q : option X -> Parser S -> Prop) : Prop := forall p', errors p' <> [] -> Q None p'.

Lemma result_fails {X} p0 (R : X -> text -> Prop) c : fails (result p0 R c).
Proof. by intros p'. Qed.

Lemma went_refl p : inv p -> went p p [] 0.
Proof.
  intros Hp. split; [done|done|exists []; by rewrite app_nil_r|done|lia|].
  exists []. split; [apply eats_refl|done].
Qed.
Lemma went_trans p0 p t n p' t' n' : went p0 p t n -> went p p' t' n' -> went p0 p' (t ++ t') (n + n').
Proof.
  intros [H1 H2 [cs H3] H4 H5 (ts & H6 & <-)] [K1 K2 [cs' K3] K4 K5 (ts' & K6 & <-)].
  split; [done|congruence| |auto|lia|].
  - exists (cs ++ cs'). by rewrite K3, H3, fmap_app, app_assoc.
  - exists (ts ++ ts'). split; [by eapply eats_trans|apply texts_app].
Qed.
Lemma went_weaken p0 p t n n' : went p0 p t n -> n' <= n -> went p0 p t n'.
Proof. intros [] ?. split; try done. lia. Qed.

(** What a parse function expects next: no semicolon and not the end *)
Definition plain e : bool :=
  match e with
  | ETy ty => negb (bool_decide (ty ∈ [token_bg; error_; ILLEGAL; EOF; SEMICOLON]))
  | ETx s => negb (bool_decide (s ∈ [[]; rs ";"]))
  end.
Definition by_type e : bool := match e with ETy _ => true | ETx _ => false end.
(** A token expected by its type is not illegal. *)
Definition gain_of (es : list expect) : nat := if forallb by_type es then 1 else 0.
Abbreviation peeks p es := (existsb (matches (peekTok p)) es = true).

Lemma peek_plain p es : inv p -> peeks p es -> forallb plain es = true ->
  Type__ (peekTok p) <> SEMICOLON /\ (Text (peekTok p) <> [] \/ real (peekTok p) = true) /\ gain_of es <= gain (peekTok p).
Proof.
  intros Hp He Hpl. apply existsb_exists in He as (e & Hin & Hm).
  assert (He := proj1 (forallb_forall _ _) Hpl e Hin). destruct e as [ty|x]; simpl in He, Hm; bool_prop.
  - unfold gain, real. rewrite Hm. split; [intros ->; apply He; set_solver|]. rewrite bool_decide_eq_false_2 by set_solver.
    split; [by right|]. unfold gain_of. simpl. destruct (forallb by_type es); simpl; lia.
  - split; [|split].
    + intros E. destruct (inv_peek p Hp) as [Hz|(_ & _ & _ & Hs)]; [by rewrite Hz in E|].
      apply He. rewrite <- Hm, Hs by done. set_solver.
    + left. rewrite Hm. intros ->. apply He. set_solver.
    + unfold gain_of. destruct (forallb by_type es) eqn:Ef; [|lia]. by apply (proj1 (forallb_forall _ _) Ef) in Hin.
Qed.

Lemma peek_comma p : inv p -> peeks p [ETy COMMA] -> Text (peekTok p) = rs ",".
Proof.
  intros Hp H. cbn in H. rewrite orb_false_r in H. bool_prop.
  destruct (inv_peek p Hp) as [Hz|(_ & _ & Hc & _)]; [by rewrite Hz in H|auto].
Qed.

Lemma went_next p es : inv p -> peeks p es -> forallb plain es = true ->
  exists b p', nextToken p = Ok (b, p') /\
    if b then went p p' (Text (curTok p')) (gain_of es) /\ has_node p' /\ curTok p' = peekTok p else errors p' <> [].
Proof.
  intros Hp He Hpl. destruct (peek_plain p es Hp He Hpl) as (Hs & Hr & Hg).
  destruct (nextToken_spec p Hp) as (b & p' & -> & Hp' & Ec & Hapi & Hn & Ht & Hb). exists b, p'. split; [done|].
  destruct b; [|apply Hb]. destruct Hb as (Ee & _ & ts & Hts & Htx & Hall). rewrite Ec. split; [|auto].
  split; [done..|auto|lia|]. exists ts. split; [done|]. unfold texts. rewrite filter_id; [done|].
  eapply Forall_impl; [done|]. by intros x <-.
Qed.

(** ** Rules *)

Section rules.
Context {X : Type} (p0 : Parser S) (Q : option X -> Parser S -> Prop) (HQ : fails Q).
Implicit Types (m : M (Parser S) (option X)).

Lemma runs_next p t n es m : went p0 p t n -> peeks p es -> forallb plain es = true ->
  (forall p', went p0 p' (t ++ Text (curTok p')) (n + gain_of es) -> has_node p' -> curTok p' = peekTok p -> runs m p' Q) ->
  runs (check nextToken in m) p Q.
Proof.
  intros W He Hpl Hk. apply runs_bind. unfold runs.
  destruct (went_next p es (went_inv _ _ _ _ W) He Hpl) as (b & p' & -> & Hb). destruct b; [|by apply HQ].
  destruct Hb as (W' & Hn & Ec). apply Hk; [|done..]. by eapply went_trans.
Qed.

Lemma runs_expect p t n es m : went p0 p t n ->
  (peeks p es -> runs m p Q) -> runs (check expectPeekToken es in m) p Q.
Proof.
  intros W Hk. apply runs_bind. unfold runs, expectPeekToken. destruct (existsb _ es); [by apply Hk|].
  apply HQ. simpl. by destruct (errors p).
Qed.
Lemma runs_reject p t n es m : went p0 p t n ->
  (peeks p es -> runs m p Q) -> runs (reject notExpectPeekToken es in m) p Q.
Proof.
  intros W Hk. apply runs_bind. unfold runs, notExpectPeekToken. destruct (existsb _ es); [by apply Hk|].
  apply HQ. simpl. by destruct (errors p).
Qed.
Lemma runs_rejected p es m : existsb (matches (peekTok p)) es = false -> runs (reject notExpectPeekToken es in m) p Q.
Proof. intros E. apply runs_bind. unfold runs, notExpectPeekToken. rewrite E. apply HQ. simpl. by destruct (errors p). Qed.
Lemma runs_otherwise p es : existsb (matches (peekTok p)) es = false -> runs (bind (expectPeekToken es) (fun _ => ret None)) p Q.
Proof. intros E. apply runs_bind. unfold runs, expectPeekToken. rewrite E. apply HQ. simpl. by destruct (errors p). Qed.

Lemma runs_adv p t n es m : went p0 p t n -> forallb plain es = true ->
  (forall p', went p0 p' (t ++ Text (curTok p')) (n + gain_of es) -> has_node p' -> curTok p' = peekTok p -> peeks p es -> runs m p' Q) ->
  runs (check advanceIfPeekTokenIs es in m) p Q.
Proof.
  intros W Hpl Hk. apply runs_bind. unfold advanceIfPeekTokenIs. apply runs_bind. unfold runs at 1, expectPeekToken.
  destruct (existsb _ es) eqn:Ee; [|simpl; apply HQ; simpl; by destruct (errors p)].
  assert (H : runs (check nextToken in m) p Q) by (apply (runs_next p t n es m W Ee Hpl); auto).
  revert H. unfold runs, bind. by destruct (nextToken p) as [[[] p']|].
Qed.

Lemma runs_cur p t n (k : nodep -> M (Parser S) (option X)) : went p0 p t n ->
  (forall x, show x = Text (curTok p) -> (has_node p -> is_Some x) -> runs (k x) p Q) -> runs (bind curTokenNode k) p Q.
Proof. intros W Hk. apply runs_bind. apply Hk; [|done]. by eapply show_cur, went_inv. Qed.

Lemma runs_node p t n es (m : M (Parser S) bool) (k : nodep -> M (Parser S) (option X)) :
  ((forall p', went p0 p' (t ++ Text (curTok p')) (n + gain_of es) -> has_node p' -> curTok p' = peekTok p -> peeks p es ->
      runs (bind curTokenNode k) p' Q) -> runs (check m in bind curTokenNode k) p Q) ->
  (forall x p', went p0 p' (t ++ show x) (n + gain_of es) -> has_node p' -> is_Some x -> curTok p' = peekTok p -> peeks p es ->
      runs (k x) p' Q) ->
  runs (let? x := (check m in bind curTokenNode (fun x => ret (Some x))) in k x) p Q.
Proof.
  intros Hm Hk. assert (H : runs (check m in bind curTokenNode k) p Q).
  { apply Hm. intros p' W Hn Ec He. eapply runs_cur; [exact W|]. intros x Hx Hs. apply Hk; try done; [by rewrite Hx|auto]. }
  revert H. unfold runs, bind. destruct (m p) as [[[] p']|]; done.
Qed.

Lemma runs_take p t n es (k : nodep -> M (Parser S) (option X)) : went p0 p t n -> forallb plain es = true ->
  (forall x p', went p0 p' (t ++ show x) (n + gain_of es) -> has_node p' -> is_Some x -> curTok p' = peekTok p -> peeks p es ->
      runs (k x) p' Q) ->
  runs (let? x := take_node es in k x) p Q.
Proof. intros W Hpl. apply runs_node. intros H. by apply (runs_adv p t n es). Qed.

Lemma runs_next_node p t n es (k : nodep -> M (Parser S) (option X)) : went p0 p t n -> peeks p es -> forallb plain es = true ->
  (forall x p', went p0 p' (t ++ show x) (n + gain_of es) -> has_node p' -> is_Some x -> curTok p' = peekTok p -> peeks p es ->
      runs (k x) p' Q) ->
  runs (let? x := next_node in k x) p Q.
Proof. intros W He Hpl. apply (runs_node p t n es). intros H. apply (runs_next p t n es); auto. Qed.

Lemma runs_keyword p m : runs m p Q -> runs (reject curTokenIsKeyword in m) p Q.
Proof.
  intros Hm. apply runs_bind. unfold curTokenIsKeyword. apply runs_bind. unfold runs at 1. simpl.
  destruct (LookupKeyword _); [|done]. apply HQ. simpl. by destruct (errors p).
Qed.

Lemma runs_call {Y} p t n (f : M (Parser S) (option Y)) (R : Y -> text -> Prop) c (k : Y -> M (Parser S) (option X)) :
  went p0 p t n -> runs f p (result p R c) ->
  (forall y t' p', R y t' -> went p0 p' (t ++ t') (n + c) -> (has_node p -> has_node p') -> runs (k y) p' Q) -> runs (let? y := f in k y) p Q.
Proof.
  intros W Hf Hk. apply runs_bind. eapply runs_mono; [exact Hf|]. intros [y|] p'; [|by intros; apply HQ].
  intros (t' & HR & W'). apply (Hk y t'); [done|by eapply went_trans|apply W'].
Qed.

Lemma runs_leading p (k : CommentGroup -> M (Parser S) (option X)) : has_node p ->
  (forall cg, runs (k cg) p Q) -> runs (bind curLeadingGroup k) p Q.
Proof. intros [x Hx] Hk. apply runs_bind. unfold curLeadingGroup. apply runs_bind. unfold runs at 1. simpl. rewrite Hx. apply Hk. Qed.
Lemma runs_first_leading p (k : option CommentStmt -> M (Parser S) (option X)) : has_node p ->
  (forall c, runs (k c) p Q) -> runs (bind curLeadingComment k) p Q.
Proof. intros [x Hx] Hk. apply runs_bind. unfold curLeadingComment. apply runs_bind. unfold runs at 1. simpl. rewrite Hx. apply Hk. Qed.
Lemma runs_comment p c es m : runs m p Q -> runs (reject notExpectPeekTokenGotComment c es in m) p Q.
Proof. intros Hm. apply runs_bind. unfold runs, notExpectPeekTokenGotComment. destruct c; [apply HQ; simpl; by destruct (errors p)|done]. Qed.
End rules.

Lemma runs_gets {A X} (f : Parser S -> A) (k : A -> M (Parser S) X) p Q : runs (k (f p)) p Q -> runs (bind (gets f) k) p Q.
Proof. done. Qed.
Lemma runs_ret {A X} (a : A) (k : A -> M (Parser S) X) p Q : runs (k a) p Q -> runs (bind (ret a) k) p Q.
Proof. done. Qed.
Lemma runs_assoc {A B C} (m : M (Parser S) A) (f : A -> M (Parser S) B) (k : B -> M (Parser S) C) p Q :
  runs (bind m (fun a => bind (f a) k)) p Q -> runs (bind (bind m f) k) p Q.
Proof. unfold runs, bind. by destruct (m p) as [[a p']|]. Qed.
Lemma runs_assoc_opt {A B C} (m : M (Parser S) (option A)) (f : A -> M (Parser S) (option B)) (k : B -> M (Parser S) (option C)) p Q :
  runs (let? x := m in (let? y := f x in k y)) p Q -> runs (let? y := (let? x := m in f x) in k y) p Q.
Proof. unfold runs, bind. by destruct (m p) as [[[a|] p']|]. Qed.
Lemma runs_assoc_check {B C} (m : M (Parser S) bool) (f : M (Parser S) (option B)) (k : B -> M (Parser S) (option C)) p Q :
  runs (check m in (let? y := f in k y)) p Q -> runs (let? y := (check m in f) in k y) p Q.
Proof. unfold runs, bind. by destruct (m p) as [[[] p']|]. Qed.
Lemma runs_some {X} p0 p t n (x : X) (R : X -> text -> Prop) c : went p0 p t n -> R x t -> c <= n -> runs (ret (Some x)) p (result p0 R c).
Proof. intros W HR Hc. exists t. split; [done|]. by eapply went_weaken. Qed.
Lemma runs_tail {X} p0 p t n (m : M (Parser S) (option X)) (R R' : X -> text -> Prop) c c' :
  went p0 p t n -> runs m p (result p R c) -> (forall x t', R x t' -> R' x (t ++ t')) -> c' <= n + c -> runs m p (result p0 R' c').
Proof.
  intros W Hm HR Hc. eapply runs_mono; [exact Hm|]. intros [x|] p'; [|done]. intros (t' & Hx & W').
  exists (t ++ t'). split; [auto|]. eapply went_weaken; [by eapply went_trans|done].
Qed.
Lemma runs_with_fuel {X} (f : nat -> M (Parser S) X) p Q : (forall fuel, todo p < fuel -> runs (f fuel) p Q) -> runs (with_fuel f) p Q.
Proof. intros Hf. apply (Hf (2 + source_left (p_s p))). unfold todo. destruct (real _); lia. Qed.
End logic.
Abbreviation peeks p es := (existsb (matches (peekTok p)) es = true).
#[export] Hint Resolve result_fails went_refl went_inv : parser.
#[export] Hint Extern 1 (_ <= _) => lia : parser.
