(* ===== verification/ApiParserCorrect.v ===== *)
(** * The parser of the API language is total and loses nothing

    With the logic of [ApiParserLogic], one lemma per parse function: it returns, with an error
    when it returns nil, and otherwise with a node whose text is the text of the tokens it took.
    The theorems about [Parse] follow, for every source of tokens and for the scanner. *)

From Stdlib Require Import String.
From S2P Require Import Prelude.
From S2P Require Import Token.
From S2P Require Import Scanner.
From S2P Require Import ApiAst.
From S2P Require Import ApiParser.
From S2P Require Import ApiParserLogic.
Import Prelude(ret).
Local Open Scope parser_scope.

(** The text of a node is the text that was taken. *)
Definition exact_text {X} (sh : X -> text) (x : X) (t : text) : Prop := t = sh x.
(** The same for a function that starts behind its first token *)
Definition behind {X} (c : text) (sh : X -> text) (x : X) (t : text) : Prop := c ++ t = sh x.

Lemma shows_snoc {A} (f : A -> text) l x : shows f (l ++ [x]) = shows f l ++ f x.
Proof. unfold shows. rewrite fmap_app, concat_app. simpl. by rewrite app_nil_r. Qed.

Lemma shows_snoc2 {A} (f : A -> text) l x y : shows f (l ++ [x; y]) = shows f l ++ f x ++ f y.
Proof. unfold shows. rewrite fmap_app, concat_app. simpl. by rewrite app_nil_r. Qed.
Lemma shows_one {A} (f : A -> text) x : shows f [x] = f x.
Proof. apply app_nil_r. Qed.
Lemma shows_app {A} (f : A -> text) l k : shows f (l ++ k) = shows f l ++ shows f k.
Proof. unfold shows. by rewrite fmap_app, concat_app. Qed.

(** One step of a parse function *)
Ltac pstep :=
  cbv beta iota;
  lazymatch goal with
  | W : went ?p0 ?p ?t ?n |- runs ?m ?p ?Q =>
    let next := clear W; intros ? W ? ? in
    let node := clear W; let x := fresh "x" in let p := fresh "p" in intros x p W ? ? ? ? in
    lazymatch m with
    | bind (take_node _) _ => eapply runs_take; [eauto with parser|exact W|reflexivity|node]
    | bind next_node _ => eapply runs_next_node; [eauto with parser|exact W|eassumption|first [reflexivity | eassumption]|node]
    | bind nextToken _ => eapply runs_next; [eauto with parser|exact W|eassumption|first [reflexivity | eassumption]|next]
    | bind (advanceIfPeekTokenIs _) _ => eapply runs_adv; [eauto with parser|exact W|reflexivity|next; intros ?]
    | bind (expectPeekToken _) (fun _ => ret None) => eapply runs_otherwise; [eauto with parser|]
    | bind (expectPeekToken _) _ => eapply runs_expect; [eauto with parser|exact W|intros ?]
    | bind (notExpectPeekToken _) _ => eapply runs_reject; [eauto with parser|exact W|intros ?]
    | bind (notExpectPeekTokenGotComment _ _) _ => eapply runs_comment; [eauto with parser|]
    | bind curTokenIsKeyword _ => eapply runs_keyword; [eauto with parser|]
    | bind curTokenNode _ => eapply runs_cur; [exact W|let x := fresh "x" in intros x ? ?]
    | bind curLeadingGroup _ => eapply runs_leading; [assumption|intros ?]
    | bind curLeadingComment _ => eapply runs_first_leading; [assumption|intros ?]
    | bind curTokenIsNotEof _ => eapply runs_gets
    | bind (curTokenIs _) _ => eapply runs_gets
    | bind (peekTokenIs _) _ => eapply runs_gets
    | bind (peekTokenIsNot _) _ => eapply runs_gets
    | bind (gets _) _ => eapply runs_gets
    | bind (bind (gets _) _) _ => eapply runs_assoc; eapply runs_gets
    | bind (bind (peekTokenIs _) _) _ => eapply runs_assoc; eapply runs_gets
    | bind (bind _ (fun o => match o with Some _ => _ | None => _ end)) _ => eapply runs_assoc_opt
    | bind (bind _ (fun b => if b then _ else _)) _ => eapply runs_assoc_check
    | bind (ret _) _ => eapply runs_ret
    | bind (if ?b then _ else _) _ => destruct b eqn:?
    | (if ?b then _ else _) => destruct b eqn:?
    end
  end.
(** A call of a function with the specification [H] *)
Ltac pcall H :=
  cbv beta iota;
  lazymatch goal with
  | W : went ?p0 ?p ?t ?n |- runs _ ?p _ =>
    eapply runs_call; [eauto with parser|exact W|apply H; eauto with parser|clear W; let Hn := fresh "Hn" in intros ? ? ? ? W Hn; try specialize (Hn ltac:(assumption))]
  end.
Ltac texts :=
  unfold exact_text, behind in *; subst; rewrite ?shows_snoc, ?shows_snoc2; autounfold with shows in *; cbn in *;
  repeat match goal with H : _ ++ _ = _ |- _ => rewrite <- H; clear H end;
  cbn; rewrite <- ?app_assoc; cbn; rewrite ?app_nil_r; try solve [reflexivity | congruence].
(** The value is returned *)
Ltac pdone :=
  cbv beta iota;
  lazymatch goal with
  | W : went ?p0 ?p ?t ?n |- runs (ret (Some _)) ?p _ => eapply runs_some; [exact W|texts|cbn; lia]
  end.
Ltac ptail H :=
  cbv beta iota;
  lazymatch goal with
  | W : went ?p0 ?p ?t ?n |- runs _ ?p _ => eapply runs_tail; [exact W|apply H; eauto with parser|intros; texts|cbn; lia]
  end.
(** The next round of a loop *)
Ltac ploop IH :=
  eapply IH; [lazymatch goal with W : went _ ?p _ _ |- went _ ?p _ _ =>
                rewrite shows_snoc; unfold exact_text in *; subst; exact W end|cbn in *; lia|..].
Ltac pstart := intros; lazymatch goal with H : inv ?p |- runs _ ?p _ => pose proof (went_refl p H) as W end.

Section correct.
Context {S : Type} `{!TokenSource S, !TokenSourceLaws S}.
Implicit Types (p q : Parser S).

Lemma parseKVExpression_spec p : inv p -> runs parseKVExpression p (result p (exact_text show_kv) 2).
Proof. pstart. unfold parseKVExpression. do 2 pstep. pdone. Qed.

Lemma kv_loop_spec parse p0 fuel vs p n : (forall p, inv p -> runs parse p (result p (exact_text show_kv) 1)) ->
  went p0 p (shows show_kv vs) n -> todo p0 < fuel + n -> runs (kv_loop parse fuel vs) p (result p0 (exact_text (shows show_kv)) 0).
Proof.
  intros Hparse. revert vs p n. induction fuel as [|fuel IH]; intros vs p n W Hf; cbn [kv_loop]; do 3 pstep; try pdone.
  - assert (H := went_todo _ _ _ _ W). lia.
  - pcall Hparse. pstep. ploop IH.
Qed.

(** ** Values of [@server] *)

Lemma path_part_spec c p : inv p -> runs (path_part c) p (result p (behind c (fun x => x)) 1).
Proof. pstart. unfold path_part. do 4 pstep; [do 4 pstep|]; pdone. Qed.

Lemma list_loop_spec sep c p0 fuel tok cg p t n : sep = COMMA \/ sep = SUB ->
  went p0 p t n -> behind c Text tok t -> todo p0 < fuel + n ->
  runs (list_loop sep fuel tok cg) p (result p0 (behind c (fun r => Text r.1)) 0).
Proof.
  intros Hsep. revert tok cg p t n. induction fuel as [|fuel IH]; intros tok cg p t n W Ht Hf; cbn [list_loop]; do 2 pstep; try pdone.
  - assert (H := went_todo _ _ _ _ W). lia.
  - destruct Hsep as [-> | ->]; do 5 pstep; (eapply IH; [exact W|texts|cbn in *; lia]).
Qed.

Lemma path_loop_spec c p0 fuel tok cg p t n :
  went p0 p t n -> behind c Text tok t -> todo p0 < fuel + n ->
  runs (path_loop fuel tok cg) p (result p0 (behind c (fun r => Text r.1)) 0).
Proof.
  revert tok cg p t n. induction fuel as [|fuel IH]; intros tok cg p t n W Ht Hf; cbn [path_loop]; do 2 pstep; try pdone.
  - assert (H := went_todo _ _ _ _ W). lia.
  - do 2 pstep. pcall path_part_spec. pstep. eapply IH; [exact W|texts|cbn in *; lia].
Qed.

Lemma kv_plain_spec k p es : inv p -> peeks p es -> forallb plain es = true ->
  runs (kv_plain k) p (result p (behind (show k) show_kv) 0).
Proof. pstart. unfold kv_plain. do 3 pstep. pdone. Qed.

Lemma kv_paths_spec k tok cg p : inv p -> runs (kv_paths k tok cg) p (result p (behind (show k ++ Text tok) show_kv) 0).
Proof.
  pstart. unfold kv_paths. eapply (runs_call _ _ (result_fails _ _ _) _ _ _ _ (behind (Text tok) (fun r => Text r.1)) 0); [exact W| |].
  - apply runs_with_fuel. intros. eapply path_loop_spec; [exact W|texts|lia].
  - clear W. intros [tok' cg'] t p' Ht W _. unfold kv_end. pdone.
Qed.

Lemma kv_list_spec sep k tok cg p : inv p -> sep = COMMA \/ sep = SUB ->
  runs (kv_list sep k tok cg) p (result p (behind (show k ++ Text tok) show_kv) 0).
Proof.
  intros Hp Hsep. pstart. unfold kv_list. eapply (runs_call _ _ (result_fails _ _ _) _ _ _ _ (behind (Text tok) (fun r => Text r.1)) 0); [exact W| |].
  - apply runs_with_fuel. intros. eapply list_loop_spec; [done|exact W|texts|lia].
  - clear W. intros [tok' cg'] t p' Ht W _. unfold kv_end. pdone.
Qed.

Lemma parseAtServerKVExpression_spec p : inv p -> runs parseAtServerKVExpression p (result p (exact_text show_kv) 1).
Proof.
  pstart. unfold parseAtServerKVExpression. do 7 pstep.
  - do 2 pstep. pcall path_part_spec. pstep. ptail kv_paths_spec.
  - pstep; [by ptail (kv_plain_spec x p0 _ (went_inv _ _ _ _ W) H4)|]. pstep; [pstep; [pstep|]|].
    1, 2: by ptail (kv_plain_spec x p0 _ (went_inv _ _ _ _ W) H4).
    do 6 pstep; [ptail kv_list_spec; by left|]. pstep; [ptail kv_list_spec; by right|]. ptail kv_paths_spec.
Qed.

(** ** [syntax], [info], [import] *)

Lemma parseSyntaxStmt_spec p : inv p -> runs parseSyntaxStmt p (result p (behind (Text (curTok p)) (fun x => show_stmt (SSyntax x))) 1).
Proof. pstart. unfold parseSyntaxStmt. do 3 pstep. pdone. Qed.

Lemma kv_values_spec parse p : inv p -> (forall p, inv p -> runs parse p (result p (exact_text show_kv) 1)) ->
  runs (with_fuel (fun fuel => kv_loop parse fuel [])) p (result p (exact_text (shows show_kv)) 0).
Proof. intros Hp Hparse. pstart. apply runs_with_fuel. intros. eapply kv_loop_spec; [done|exact W|lia]. Qed.
Lemma kv_values_spec' p : inv p ->
  runs (with_fuel (fun fuel => kv_loop parseKVExpression fuel [])) p (result p (exact_text (shows show_kv)) 0).
Proof. intros Hp. apply kv_values_spec; [done|]. clear p Hp. pstart. ptail parseKVExpression_spec. Qed.

Lemma parseInfoStmt_spec p : inv p -> runs parseInfoStmt p (result p (behind (Text (curTok p)) (fun x => show_stmt (SInfo x))) 1).
Proof. pstart. unfold parseInfoStmt. do 2 pstep. pcall kv_values_spec'. pstep. pdone. Qed.

Lemma import_loop_spec p0 fuel vs p n : went p0 p (shows show vs) n -> todo p0 < fuel + n ->
  runs (import_loop fuel vs) p (result p0 (exact_text (shows show)) 0).
Proof.
  revert vs p n. induction fuel as [|fuel IH]; intros vs p n W Hf; cbn [import_loop]; do 3 pstep; try pdone.
  - assert (H := went_todo _ _ _ _ W). lia.
  - do 2 pstep. ploop IH.
Qed.
Lemma import_values_spec p : inv p -> runs (with_fuel (fun fuel => import_loop fuel [])) p (result p (exact_text (shows show)) 0).
Proof. pstart. apply runs_with_fuel. intros. eapply import_loop_spec; [exact W|lia]. Qed.

Lemma parseImportStmt_spec p : inv p -> runs parseImportStmt p (result p (behind (Text (curTok p)) show_import) 1).
Proof.
  pstart. unfold parseImportStmt, parseImportGroupStmt, parseImportLiteralStmt. do 3 pstep; do 2 pstep; [|pdone].
  pcall import_values_spec. pstep. pdone.
Qed.

(** ** Types *)

Lemma show_struct l es r : show_type (StructDataType l es r) = show l ++ shows show_elem es ++ show r.
Proof. cbn [show_type]. f_equal. f_equal. induction es as [|e es IH]; [done|]. unfold shows in *. cbn. by rewrite IH. Qed.

Lemma show_names_snoc ns n : ns <> [] -> show_names (ns ++ [n]) = show_names ns ++ rs "," ++ show n.
Proof.
  induction ns as [|m ns IH]; [done|]. intros _. destruct ns as [|m' ns]; [done|].
  specialize (IH ltac:(done)). unfold show_names in *. cbn [app] in *. rewrite IH. by rewrite <- !app_assoc.
Qed.

Lemma peeks_one p e : matches (peekTok p) e = true -> peeks p [e].
Proof. cbn. by intros ->. Qed.

(** There is fuel for what comes behind the tokens taken so far. *)
Ltac fuel_ok :=
  lazymatch goal with
  | W : went _ ?p _ _ |- todo ?p < _ => let H := fresh in pose proof (went_todo _ _ _ _ W) as H; cbn in H; lia
  end.

Section types.
Context (parseDataType : M (Parser S) (option DataType)) (b : nat).
Hypothesis Hdt : forall p, inv p -> todo p < b -> runs parseDataType p (result p (exact_text show_type) 0).
Abbreviation type_spec f e := (forall p, inv p -> todo p < Datatypes.S b -> peeks p [e] -> runs f p (result p (exact_text show_type) 0)).

Lemma parseAnyDataType_spec : type_spec parseAnyDataType (ETx Any).
Proof. pstart. unfold parseAnyDataType. pstep. pdone. Qed.
Lemma parseInterfaceDataType_spec : type_spec parseInterfaceDataType (ETy ANY).
Proof. pstart. unfold parseInterfaceDataType. pstep. pdone. Qed.
Lemma parsePointerDataType_spec : type_spec (parsePointerDataType parseDataType) (ETy MUL).
Proof. pstart. unfold parsePointerDataType. do 2 pstep. pcall Hdt; [fuel_ok|]. pdone. Qed.
Lemma parseMapDataType_spec : type_spec (parseMapDataType parseDataType) (ETy IDENT).
Proof.
  pstart. unfold parseMapDataType. do 2 pstep. pcall Hdt; [fuel_ok|]. pstep. pcall Hdt; [fuel_ok|]. pdone.
Qed.
Lemma parseBaseDataType_spec : type_spec parseBaseDataType (ETy IDENT).
Proof. pstart. unfold parseBaseDataType. do 3 pstep. pdone. Qed.
Lemma parseBracketDataType_spec : type_spec (parseBracketDataType parseDataType) (ETy LBRACK).
Proof.
  pstart. unfold parseBracketDataType, parseSliceDataType, parseArrayDataType. do 4 pstep; [|pstep].
  - do 2 pstep. pcall Hdt; [fuel_ok|]. pdone.
  - do 3 pstep. pcall Hdt; [fuel_ok|]. pdone.
  - pstep. cbn in *. by destruct (bool_decide (Type__ (peekTok p') = RBRACK)).
Qed.

(** *** Elements *)

Lemma names_loop_spec p0 fuel c ns p t n : ns <> [] -> went p0 p t n -> behind c show_names ns t -> todo p0 < fuel + n ->
  runs (names_loop fuel ns) p (result p0 (behind c show_names) 0).
Proof.
  revert ns p t n. induction fuel as [|fuel IH]; intros ns p t n Hns W Ht Hf; cbn [names_loop]; do 2 pstep; try pdone.
  - assert (H := went_todo _ _ _ _ W). lia.
  - assert (Hcomma := peek_comma p (went_inv _ _ _ _ W) ltac:(assumption)).
    do 4 pstep. eapply IH; [by destruct ns|exact W| |cbn in *; lia].
    unfold behind in *. rewrite show_names_snoc, <- Ht, <- Hcomma, <- !app_assoc by done. congruence.
Qed.

Lemma show_named n any : show_type (named_type n any) = show n.
Proof. by destruct any. Qed.

Lemma names_spec x p : inv p -> runs (with_fuel (fun fuel => names_loop fuel [x])) p (result p (behind (show x) show_names) 0).
Proof. pstart. apply runs_with_fuel. intros. eapply names_loop_spec; [done|exact W|texts|lia]. Qed.

Lemma elem_head_spec p : inv p -> todo p < Datatypes.S b ->
  runs (elem_head parseDataType) p (result p (exact_text (fun r => show_names r.1 ++ show_type r.2)) 1).
Proof.
  pstart. unfold elem_head. do 5 pstep.
  - do 3 pstep. eapply runs_some; [exact W| |cbn; lia]. unfold exact_text. cbn. rewrite show_named. congruence.
  - do 2 pstep. destruct x as [ident|]; [|by destruct H5]. pstep.
    + pstep. eapply runs_some; [exact W| |cbn; lia]. unfold exact_text. cbn [fst snd]. rewrite show_named. by cbn.
    + pstep. pcall names_spec. pcall Hdt; [fuel_ok|]. eapply runs_some; [exact W| |cbn; lia].
      texts.
Qed.

Lemma parseElemExpr_spec p : inv p -> todo p < Datatypes.S b ->
  runs (parseElemExpr parseDataType) p (result p (exact_text show_elem) 1).
Proof.
  intros Hp Hb. pstart. unfold parseElemExpr.
  eapply (runs_call _ _ (result_fails _ _ _) _ _ _ _ _ _ _ W (elem_head_spec p Hp Hb)). clear W. intros [ns d] t p' Ht W _.
  do 3 pstep; [pstep|]; pdone.
Qed.

Lemma elems_loop_spec p0 fuel es p n : went p0 p (shows show_elem es) n -> todo p0 < fuel + n -> todo p0 < Datatypes.S b ->
  runs (parseElemExprList parseDataType fuel es) p (result p0 (exact_text (shows show_elem)) 0).
Proof.
  revert es p n. induction fuel as [|fuel IH]; intros es p n W Hf Hb; cbn [parseElemExprList]; do 3 pstep; try pdone.
  - assert (H := went_todo _ _ _ _ W). lia.
  - pstep. assert (Ht := went_todo _ _ _ _ W). pcall parseElemExpr_spec. pstep. ploop IH; done.
Qed.
Lemma elems_spec p : inv p -> todo p < Datatypes.S b ->
  runs (with_fuel (fun fuel => parseElemExprList parseDataType fuel [])) p (result p (exact_text (shows show_elem)) 0).
Proof. pstart. apply runs_with_fuel. intros. eapply elems_loop_spec; [exact W|lia|done]. Qed.

Lemma parseStructDataType_spec : type_spec (parseStructDataType parseDataType) (ETy LBRACE).
Proof.
  pstart. unfold parseStructDataType. do 2 pstep. pcall elems_spec; [fuel_ok|]. pstep.
  eapply runs_some; [exact W| |cbn; lia]. unfold exact_text in *. rewrite show_struct. texts.
Qed.

Lemma dataType_body_spec p : inv p -> todo p < Datatypes.S b ->
  runs (dataType_body parseDataType) p (result p (exact_text show_type) 0).
Proof.
  pstart. unfold dataType_body. pstep.
  pstep; [apply parseAnyDataType_spec; auto using peeks_one|].
  pstep; [apply parseStructDataType_spec; auto using peeks_one|].
  pstep; [pstep; [apply parseMapDataType_spec|apply parseBaseDataType_spec]; auto using peeks_one|].
  pstep; [apply parseBracketDataType_spec; auto using peeks_one|].
  pstep; [apply parseInterfaceDataType_spec; auto using peeks_one|].
  pstep; [apply parsePointerDataType_spec; auto using peeks_one|].
  pstep. unfold existsb. by repeat match goal with H : matches _ _ = false |- _ => rewrite H; clear H end.
Qed.
End types.

Lemma parseDataType_spec p : inv p -> runs parseDataType p (result p (exact_text show_type) 0).
Proof.
  intros Hp. apply runs_with_fuel. intros fuel. revert p Hp. induction fuel as [|fuel IH]; intros p Hp Hlt; [lia|].
  cbn [parseDataType_]. apply (dataType_body_spec _ fuel); auto.
Qed.

Lemma parseTypeExpr_spec p : inv p -> runs parseTypeExpr p (result p (exact_text show_type_expr) 1).
Proof.
  pstart. unfold parseTypeExpr. do 5 pstep; pstep; pcall parseDataType_spec; pdone.
Qed.

Lemma typeExpr_loop_spec p0 fuel es p n : went p0 p (shows show_type_expr es) n -> todo p0 < fuel + n ->
  runs (typeExpr_loop fuel es) p (result p0 (exact_text (shows show_type_expr)) 0).
Proof.
  revert es p n. induction fuel as [|fuel IH]; intros es p n W Hf; cbn [typeExpr_loop]; do 3 pstep; try pdone.
  - assert (H := went_todo _ _ _ _ W). lia.
  - pcall parseTypeExpr_spec. pstep. ploop IH.
Qed.
Lemma parseTypeExprList_spec p : inv p -> runs parseTypeExprList p (result p (exact_text (shows show_type_expr)) 0).
Proof. pstart. unfold parseTypeExprList. pstep. apply runs_with_fuel. intros. eapply typeExpr_loop_spec; [exact W|lia]. Qed.

Lemma parseTypeStmt_spec p : inv p -> runs parseTypeStmt p (result p (behind (Text (curTok p)) show_type_stmt) 1).
Proof.
  pstart. unfold parseTypeStmt, parseTypeGroupStmt, parseTypeLiteralStmt. do 3 pstep; [|pstep].
  - do 2 pstep. pcall parseTypeExprList_spec. pstep. pdone.
  - pstep. pcall parseTypeExpr_spec. pdone.
  - pstep. cbn in *. by destruct (bool_decide (Type__ (peekTok p) = LPAREN)).
Qed.

(** ** Services *)

Lemma at_server_values p : inv p ->
  runs (with_fuel (fun fuel => kv_loop parseAtServerKVExpression fuel [])) p (result p (exact_text (shows show_kv)) 0).
Proof. intros Hp. apply kv_values_spec; [done|]. apply parseAtServerKVExpression_spec. Qed.

Lemma parseAtServerStmt_spec p : inv p -> runs parseAtServerStmt p (result p (behind (Text (curTok p)) show_at_server) 0).
Proof. pstart. unfold parseAtServerStmt. do 2 pstep. pcall at_server_values. pstep. pdone. Qed.

Lemma parseAtDocStmt_spec p : inv p -> runs parseAtDocStmt p (result p (behind (Text (curTok p)) show_at_doc) 0).
Proof.
  pstart. unfold parseAtDocStmt, parseAtDocGroupStmt, parseAtDocLiteralStmt. do 3 pstep; do 2 pstep; [|pdone].
  pcall kv_values_spec'. pstep. pdone.
Qed.

Lemma parseAtHandlerStmt_spec p : inv p -> runs parseAtHandlerStmt p (result p (behind (Text (curTok p)) show_at_handler) 1).
Proof. pstart. unfold parseAtHandlerStmt. do 2 pstep. pdone. Qed.

Lemma parseServiceNameExpr_spec p : inv p -> has_node p ->
  runs parseServiceNameExpr p (result p (behind (Text (curTok p)) (fun x => show (sn_Name x))) 0).
Proof.
  intros Hp Hn. pstart. unfold parseServiceNameExpr. do 3 pstep.
  - do 6 pstep. repeat pstep. pdone.
  - do 2 pstep. pdone.
Qed.

Lemma pathItem_loop_spec c p0 fuel l p t n : went p0 p t n -> behind c (shows Text) l t -> todo p0 < fuel + n ->
  runs (pathItem_loop fuel l) p (result p0 (behind c (shows Text)) 0).
Proof.
  revert l p t n. induction fuel as [|fuel IH]; intros l p t n W Ht Hf; cbn [pathItem_loop]; do 3 pstep; try pdone.
  - assert (H := went_todo _ _ _ _ W). lia.
  - do 2 pstep.
    + do 4 pstep. eapply IH; [exact W| |cbn in *; lia]. texts.
    + do 2 pstep; [pdone|]. do 2 pstep. eapply IH; [exact W|texts|cbn in *; lia].
Qed.
Lemma parsePathItem_spec p : inv p -> runs parsePathItem p (result p (exact_text (shows Text)) 1).
Proof.
  pstart. unfold parsePathItem. do 2 pstep. eapply (runs_tail _ _ _ _ _ (behind (Text (curTok p')) (shows Text)) _ 0); [exact W| |texts|cbn; lia].
  apply runs_with_fuel. intros fuel Hf. eapply pathItem_loop_spec; [apply went_refl, (went_inv _ _ _ _ W)|by texts; rewrite shows_one|lia].
Qed.

Lemma pathExpr_loop_spec p0 fuel l p n : has_node p -> went p0 p (shows Text l) n -> todo p0 < fuel + n ->
  runs (pathExpr_loop fuel l) p (result p0 (exact_text (shows Text)) 0).
Proof.
  revert l p n. induction fuel as [|fuel IH]; intros l p n Hn W Hf; cbn [pathExpr_loop]; do 3 pstep; try pdone.
  - assert (H := went_todo _ _ _ _ W). lia.
  - do 4 pstep; [pdone|]. do 7 pstep.
    + do 4 pstep. pcall parsePathItem_spec. pstep. eapply IH; [done|rewrite shows_app, shows_snoc2, (app_assoc (shows Text l)); unfold exact_text in *; subst; exact W|cbn in *; lia].
    + pstep. pcall parsePathItem_spec. pstep. eapply IH; [done|rewrite shows_app, shows_snoc; unfold exact_text in *; subst; exact W|cbn in *; lia].
Qed.

Lemma parsePathExpr_spec p : inv p -> has_node p -> runs parsePathExpr p (result p (exact_text (fun x => show (pe_Value x))) 0).
Proof.
  intros Hp Hn. pstart. unfold parsePathExpr.
  eapply (runs_call _ _ (result_fails _ _ _) _ _ _ _ (exact_text (shows Text)) 0); [exact W| |].
  { apply runs_with_fuel. intros. eapply pathExpr_loop_spec; [done|exact W|lia]. }
  clear W. intros values t p' Ht W Hn'. specialize (Hn' Hn). destruct values as [|v values]; [done|]. pstep. pdone.
Qed.

Lemma parseBodyExpr_spec p : inv p -> runs parseBodyExpr p (result p (exact_text show_body_expr) 0).
Proof.
  pstart. unfold parseBodyExpr. pstep. pstep; [|pstep; [|pstep]].
  - apply peeks_one in Heqb. do 4 pstep.
    + apply peeks_one in Heqb0. do 2 pstep. pdone.
    + pstep; [apply peeks_one in Heqb1; pstep; pdone|]. pstep. cbn in *. by rewrite Heqb0, Heqb1.
  - apply peeks_one in Heqb0. do 2 pstep. pdone.
  - apply peeks_one in Heqb1. pstep. pdone.
  - pstep. cbn in *. by rewrite Heqb, Heqb0, Heqb1.
Qed.

Lemma parseBodyStmt_spec p : inv p -> runs parseBodyStmt p (result p (exact_text show_body) 0).
Proof. pstart. unfold parseBodyStmt. do 3 pstep; [pstep; pdone|]. pcall parseBodyExpr_spec. pstep. pdone. Qed.

(** *** Routes

    The semicolon behind a route is taken without a look at the result: when the source fails
    there, the route is returned all the same, and the loop over the routes finds the error
    token. *)

Definition loose {X} p0 (R : X -> text -> Prop) (c : nat) (o : option X) p' : Prop := result p0 R c o p' \/ failed p'.
Lemma loose_fails {X} p0 (R : X -> text -> Prop) c : fails (loose p0 R c).
Proof. intros p' H. by left. Qed.
Lemma loose_some {X} p0 p t n (x : X) (R : X -> text -> Prop) c : went p0 p t n -> R x t -> c <= n -> runs (ret (Some x)) p (loose p0 R c).
Proof. intros. left. by eapply runs_some. Qed.

Lemma skip_semicolon_spec {X} p0 p t n (x : X) (R : X -> text -> Prop) c : went p0 p t n -> R x t -> c <= n ->
  runs (skip_semicolon x) p (loose p0 R c).
Proof.
  intros W HR Hc. unfold skip_semicolon. do 2 pstep; [|by eapply loose_some].
  apply runs_bind. unfold runs at 1. assert (Hp := went_inv _ _ _ _ W).
  destruct (nextToken_spec p Hp) as (b & p' & -> & Hp' & _ & Hapi & Hn & Ht & Hb). cbn in Heqb. rewrite orb_false_r in Heqb. bool_prop.
  destruct b; [left|by right]. destruct Hb as (Ee & _ & ts & Hts & _ & Hall). exists t. split; [done|].
  eapply went_weaken; [|exact Hc]. rewrite <- (app_nil_r t), <- (Nat.add_0_r n). eapply went_trans; [exact W|].
  split; [done..| |lia|].
  - intros _. apply Hn. right. unfold real. by rewrite Heqb.
  - exists ts. split; [done|]. unfold texts. replace (filter _ ts) with (@nil Token); [done|]. symmetry. clear -Hall Heqb.
    induction Hall as [|u ts <- _ IH]; [done|]. rewrite filter_cons_False; [done|]. intros H. by apply H.
Qed.

Lemma parseRouteStmt_spec p : inv p -> runs parseRouteStmt p (loose p (exact_text show_route) 0).
Proof.
  pstart. assert (Hf := loose_fails (X := RouteStmt) p (exact_text show_route) 0). unfold parseRouteStmt.
  pstep. pcall parsePathExpr_spec. do 3 pstep; [eapply loose_some; [exact W|texts|lia]|].
  pstep; [eapply skip_semicolon_spec; [exact W|texts|lia]|]. do 3 pstep.
  - pstep. pcall parseBodyStmt_spec. do 4 pstep; [|eapply skip_semicolon_spec; [exact W|texts|lia]].
    pstep. pcall parseBodyStmt_spec. eapply skip_semicolon_spec; [exact W|texts|lia].
  - do 4 pstep; [|eapply skip_semicolon_spec; [exact W|texts|lia]].
    pstep. pcall parseBodyStmt_spec. eapply skip_semicolon_spec; [exact W|texts|lia].
Qed.

(** The node of an item without a handler does not hold all its tokens. *)
Definition has_handler (x : ServiceItemStmt) : Prop := si_AtHandler x <> None.
Definition item_text (x : ServiceItemStmt) (t : text) : Prop := has_handler x -> t = show_item x.
Definition items_text (xs : list ServiceItemStmt) (t : text) : Prop := Forall has_handler xs -> t = shows show_item xs.

Lemma runs_loose {X Y} p0 p t n (m : M (Parser S) (option X)) (f : X -> Y) (R : X -> text -> Prop) (R' : Y -> text -> Prop) c c' :
  went p0 p t n -> runs m p (loose p R c) -> (forall x t', R x t' -> R' (f x) (t ++ t')) -> c' <= n + c ->
  runs (let? x := m in ret (Some (f x))) p (loose p0 R' c').
Proof.
  intros W Hm HR Hc. apply runs_bind. eapply runs_mono; [exact Hm|]. intros [x|] p' [H|H]; [|by right|by left|by right].
  destruct H as (t' & Hx & W'). left. exists (t ++ t'). split; [auto|]. eapply went_weaken; [by eapply went_trans|done].
Qed.

Lemma parseServiceItemStmt_spec p : inv p -> runs parseServiceItemStmt p (loose p item_text 1).
Proof.
  intros Hp. pstart. assert (Hf := loose_fails (X := ServiceItemStmt) p item_text 1). unfold parseServiceItemStmt.
  match goal with |- runs (bind _ (fun has_doc => bind _ (fun o => match o with Some doc => @?k doc | None => _ end))) _ _ =>
    assert (Htail : forall doc q t n, went p q t n -> t = show_opt show_at_doc doc -> runs (k doc) q (loose p item_text 1)) end.
  { clear W. intros doc q t n W ->. do 3 pstep; [eapply loose_some; [exact W|by intros []|cbn; lia]|].
    pcall parseAtHandlerStmt_spec. eapply runs_loose; [exact W|by apply parseRouteStmt_spec, (went_inv _ _ _ _ W)| |cbn; lia].
    intros x t Hx _. unfold show_item. cbn [si_AtDoc si_AtHandler si_Route show_opt].
    unfold exact_text, behind in *. subst.
    match goal with E : _ ++ _ = show_at_handler _ |- _ => rewrite <- E end. by rewrite <- !app_assoc. }
  do 2 pstep.
  - do 3 pstep. pcall parseAtDocStmt_spec. pstep. eapply Htail; [exact W|]. texts.
  - pstep. by eapply Htail.
Qed.

Lemma items_loop_spec p0 fuel xs p t n : went p0 p t n -> items_text xs t -> todo p0 < fuel + n ->
  runs (parseServiceItemsStmt fuel xs) p (result p0 items_text 0).
Proof.
  revert xs p t n. induction fuel as [|fuel IH]; intros xs p t n W Ht Hf; cbn [parseServiceItemsStmt]; do 3 pstep;
    try (eapply runs_some; [exact W|done|lia]).
  - assert (H := went_todo _ _ _ _ W). lia.
  - apply runs_bind. eapply runs_mono; [apply parseServiceItemStmt_spec, (went_inv _ _ _ _ W)|].
    intros [x|] p' [Hx|[He Hpk]]; [|clear W|done..].
    + destruct Hx as (t' & Hx & W'). eapply went_trans in W'; [|exact W]. clear W. rename W' into W.
      assert (Hxs : items_text (xs ++ [x]) (t ++ t')).
      { intros [H1 H2]%Forall_app. rewrite shows_snoc, Ht, Hx by (done || by inversion H2). done. }
      do 2 pstep; [by eapply runs_some; [exact W|done|lia]|]. pstep. eapply IH; [exact W|done|lia].
    + assert (Hno : forall es, existsb (matches ErrorToken) es = false -> existsb (matches (peekTok p')) es = false) by (by rewrite Hpk).
      apply runs_gets. rewrite (Hno [ETy RBRACE]) by done. apply runs_rejected; [apply result_fails|by apply Hno].
Qed.

(** ** Statements *)

Definition complete (s : Stmt) : Prop :=
  match s with SService s => Forall has_handler (ss_Routes s) | _ => True end.
Definition stmt_text (c : text) (s : Stmt) (t : text) : Prop := complete s -> c ++ t = show_stmt s.

Lemma items_spec p : inv p -> runs (with_fuel (fun fuel => parseServiceItemsStmt fuel [])) p (result p items_text 0).
Proof. pstart. apply runs_with_fuel. intros. eapply items_loop_spec; [exact W|done|lia]. Qed.

Lemma parseService_spec p : inv p -> has_node p -> runs parseService p (result p (fun s => stmt_text (Text (curTok p)) (SService s)) 1).
Proof.
  intros Hp Hn. pstart. unfold parseService.
  match goal with |- runs (bind _ (fun b => bind _ (fun o => match o with Some server => @?k server | None => _ end))) _ (?R) =>
    assert (Htail : forall server q t n, went p q t n -> has_node q ->
      Text (curTok p) ++ t = show_opt show_at_server server ++ Text (curTok q) -> runs (k server) q R) end.
  { clear W. intros server q t n W Hq Ht. do 2 pstep. pcall parseServiceNameExpr_spec. pstep. pcall items_spec. pstep.
    eapply runs_some; [exact W| |cbn; lia]. intros Hc.
    repeat match goal with
    | H : items_text _ _ |- _ => rewrite (H Hc); clear H
    | H : behind _ _ _ _ |- _ => unfold behind in H
    | H : _ ++ _ = show (sn_Name _) |- _ => unfold show_stmt, show_service; cbn [ss_AtServer ss_Service ss_Name ss_LBrace ss_Routes ss_RBrace]; rewrite <- H; clear H
    | H : show _ = Text _ |- _ => rewrite H; clear H
    end.
    rewrite <- !app_assoc, (app_assoc (Text (curTok p))), Ht. by rewrite <- !app_assoc. }
  do 2 pstep.
  - pstep. pcall parseAtServerStmt_spec. do 3 pstep. eapply Htail; [exact W|done|]. texts.
  - pstep. by eapply Htail; [exact W|done|texts].
Qed.

Lemma wrap_spec {X} (f : X -> Stmt) m p (R : X -> text -> Prop) c : runs m p (result p R 1) ->
  (forall x t, R x t -> stmt_text c (f x) t) -> inv p -> runs (wrap f m) p (result p (stmt_text c) 1).
Proof.
  intros Hm HR. pstart. unfold wrap. eapply runs_call; [eauto with parser|exact W|exact Hm|]. clear W. intros x t p' Hx W _.
  eapply runs_some; [exact W|by apply HR|lia].
Qed.

(** A statement starts with an identifier or [@server]. *)
Lemma parseStmt_spec p : inv p -> (real (curTok p) = true -> has_node p) ->
  runs parseStmt p (result p (stmt_text (Text (curTok p))) 1).
Proof.
  intros Hp Hn. pstart. unfold parseStmt. pstep. unfold matches at 1. case_bool_decide as E1; [|unfold matches; case_bool_decide as E2].
  - repeat pstep.
    + eapply wrap_spec; [by apply parseSyntaxStmt_spec|by intros x t H _|done].
    + eapply wrap_spec; [by apply parseInfoStmt_spec|by intros x t H _|done].
    + eapply wrap_spec; [apply parseService_spec; [done|apply Hn; unfold real; by rewrite ?E1, ?E2]|done|done].
    + eapply wrap_spec; [by apply parseTypeStmt_spec|by intros x t H _|done].
    + eapply wrap_spec; [by apply parseImportStmt_spec|by intros x t H _|done].
    + apply runs_bind. unfold runs. cbn. by destruct (errors p).
  - eapply wrap_spec; [apply parseService_spec; [done|apply Hn; unfold real; by rewrite ?E1, ?E2]|done|done].
  - apply runs_gets, runs_bind. unfold runs. cbn. by destruct (errors p).
Qed.

Lemma parseStmt_first p x p' : parseStmt p = Ok (Some x, p') -> Type__ (curTok p) = IDENT \/ Type__ (curTok p) = AT_SERVER.
Proof.
  unfold parseStmt, bind at 1. cbn [gets obind]. unfold matches at 1. case_bool_decide as E1; [by left|].
  unfold matches at 1. case_bool_decide as E2; [by right|done].
Qed.

(** Between two statements: the tree has the text of the tokens so far, up to the current one. *)
Record between (s : S) p : Prop := {
  btw_inv : inv p;
  btw_errors : errors p = [];
  btw_node : real (curTok p) = true -> has_node p;
  btw_eof : Type__ (curTok p) = EOF -> peekTok p = EofToken /\ curTok p = EofToken;
  btw_text : exists ts, eats (New s) ts p /\
    (Type__ (curTok p) <> SEMICOLON -> Forall complete (api p) -> texts ts = shows show_stmt (api p) ++ Text (curTok p))
}.

Lemma shows_comments cs : shows show_stmt (SComment <$> cs) = [].
Proof. unfold shows. by induction cs. Qed.

(** The next token becomes the current one. *)
Lemma between_next s p : inv p -> errors p = [] ->
  (exists ts, eats (New s) ts p /\ (Forall complete (api p) -> texts ts = shows show_stmt (api p))) ->
  exists b p', nextToken p = Ok (b, p') /\ if b then between s p' /\ todo p' <= todo p /\ curTok p' = peekTok p else errors p' <> [].
Proof.
  intros Hp He (ts & Hts & Htx). destruct (nextToken_spec p Hp) as (b & p' & -> & Hp' & Ec & [cs Hapi] & Hn & Ht & Hb).
  exists b, p'. split; [done|]. destruct b; [|apply Hb]. destruct Hb as (Ee & Heof & us & Hus & Htu & Hall). split; [|split; [lia|done]].
  split; [done|congruence|rewrite Ec; auto| |].
  { rewrite Ec. intros E. split; [auto|]. destruct (inv_peek p Hp) as [Hz|Hfine]; [by rewrite Hz in E|by apply Hfine]. }
  exists (ts ++ us). split; [by eapply eats_trans|].
  rewrite Ec, Hapi. intros Hs [Hc _]%Forall_app. rewrite texts_app, shows_app, shows_comments, app_nil_r, Htx, <- Htu by done.
  f_equal. unfold texts. rewrite filter_id; [done|]. eapply Forall_impl; [exact Hall|]. by intros x <-.
Qed.

Lemma stmts_loop_spec s fuel p : between s p -> todo p < fuel ->
  runs (stmts_loop fuel) p (fun o p' => match o with Some _ => between s p' /\ Type__ (curTok p') = EOF | None => errors p' <> [] end).
Proof.
  revert p. induction fuel as [|fuel IH]; intros p Hb Hf; [lia|]. cbn [stmts_loop]. apply runs_gets.
  case_bool_decide as Eeof; cbn [negb]; [done|]. apply runs_bind.
  destruct Hb as [Hp He Hn _ (ts & Hts & Htx)].
  assert (H := parseStmt_spec p Hp Hn). assert (Hfirst := parseStmt_first p). revert H Hfirst. unfold runs at 1 2.
  destruct (parseStmt p) as [[[x|] p1]|]; [|done..]. intros (t & Hx & W) Hfirst. specialize (Hfirst x p1 eq_refl).
  apply runs_bind. unfold runs at 1. cbn [modify]. apply runs_bind. unfold runs at 1.
  destruct W as [Hp1 He1 [cs Hapi] _ Ht (us & Hus & <-)].
  destruct (between_next s (appendStmt [x] p1)) as (b & p2 & -> & Hb2).
  - by split; apply Hp1.
  - cbn. congruence.
  - exists (ts ++ us). split; [by eapply eats_trans|]. cbn. rewrite Hapi. intros [Hc [Hcx _]%Forall_cons]%Forall_app.
    apply Forall_app in Hc as [Hc _]. rewrite texts_app, shows_snoc, shows_app, shows_comments, app_nil_r, <- Hx by done.
    rewrite Htx by (done || intros E; rewrite E in Hfirst; by destruct Hfirst). by rewrite <- app_assoc.
  - destruct b; [|done]. destruct Hb2 as (Hb2 & Hle & _). apply IH; [done|]. change (todo (appendStmt [x] p1)) with (todo p1) in Hle. lia.
Qed.

Lemma New_inv s : source_inv s -> inv (New s).
Proof. intros Hs. split; [done|by left|constructor|by left]. Qed.

Lemma init_spec s : source_inv s ->
  exists b p', init (New s) = Ok (b, p') /\ if b then between s p' else errors p' <> [].
Proof.
  intros Hs. unfold init, bind. assert (Hp := New_inv s Hs).
  destruct (between_next s (New s)) as (b & p1 & -> & H1); [done..|exists []; split; [apply eats_refl|done]|].
  cbn [obind]. destruct b; [|by exists false, p1]. destruct H1 as ([H1 H2 _ _ (ts & H3 & H4)] & _ & Hz).
  destruct (between_next s p1) as (b & p2 & -> & Hb); [done..| |].
  - exists ts. split; [done|]. intros Hc. rewrite H4 by (done || by rewrite Hz). rewrite Hz. cbn. apply app_nil_r.
  - exists b, p2. split; [done|]. destruct b; [apply Hb|done].
Qed.

(** All tokens of the source up to the first end *)
Definition tokens_to_end s l : Prop := EofToken ∉ l /\ exists s', reads s (l ++ [EofToken]) s'.

Lemma filter_split {A} (P : A -> Prop) `{!forall x, Decision (P x)} l k x :
  filter P l = k ++ [x] -> exists l1 l2, l = l1 ++ x :: l2 /\ filter P l1 = k.
Proof.
  revert k. induction l as [|y l IH]; intros k; [by destruct k|]. rewrite filter_cons. destruct (decide (P y)) as [Hy|Hy].
  - destruct k as [|z k]; cbn; [intros [= -> E]; by exists [], l|]. intros [= -> E].
    destruct (IH k E) as (l1 & l2 & -> & <-). exists (z :: l1), l2. split; [done|]. by rewrite filter_cons_True.
  - intros E. destruct (IH k E) as (l1 & l2 & -> & <-). exists (y :: l1), l2. split; [done|]. by rewrite filter_cons_False.
Qed.

Lemma between_end s p : between s p -> Type__ (curTok p) = EOF ->
  exists l, tokens_to_end s l /\ (Forall complete (api p) -> shows show_stmt (api p) = texts (code l)).
Proof.
  intros [_ _ _ Heof (ts & [Hn (l & Hr & Hl)] & Htx)] Hc. destruct (Heof Hc) as [E1 E2]. rewrite E1 in Hl. rewrite E2 in Htx.
  destruct ts as [|z ts]; [by injection Hl|]. injection Hl as <- Hl. apply not_elem_of_cons in Hn as [_ Hn].
  apply filter_split in Hl as (l1 & l2 & -> & <-). exists l1. split.
  - split; [intros Hin; apply Hn, list_elem_of_filter; done|].
    replace (l1 ++ EofToken :: l2) with ((l1 ++ [EofToken]) ++ l2) in Hr by (by rewrite <- app_assoc).
    apply reads_split in Hr as (s' & Hr & _). by exists s'.
  - intros Hall. specialize (Htx ltac:(done) Hall). cbn in Htx. rewrite app_nil_r in Htx. by rewrite <- Htx.
Qed.

(** [Parse] returns, with errors when it returns nil; otherwise it took all tokens. *)
Lemma Parse_spec s : source_inv s ->
  runs Parse (New s) (fun o p =>
    match o with
    | None => errors p <> []
    | Some stmts => errors p = [] /\ exists l, tokens_to_end s l /\ (Forall complete stmts -> shows show_stmt stmts = texts (code l))
    end).
Proof.
  intros Hs. unfold Parse. apply runs_bind. unfold runs at 1. destruct (init_spec s Hs) as (b & p & -> & Hb). destruct b; [|done].
  apply runs_bind. eapply runs_mono; [apply runs_with_fuel; intros; by apply (stmts_loop_spec s)|]. cbv beta.
  intros [[]|] p'; [|done]. intros [Hb' Hc]. apply runs_gets. unfold runs. cbn.
  split; [apply Hb'|]. by apply between_end.
Qed.
End correct.

(** ** The parser on the scanner *)

(** C12: for every source text, [Parse] returns: no loop runs on and no pointer is nil.  It returns
    nil exactly when there are errors.  The one exception is an index panic, on a route without
    a path. *)
Theorem api_parse_total s : scanning s ->
  Parse (New s) = Panic no_path \/
  exists o p, Parse (New s) = Ok (o, p) /\ (o = None <-> errors p <> []).
Proof.
  intros Hs%scanning_ok. assert (H := Parse_spec s Hs). unfold runs in H.
  destruct (Parse (New s)) as [[[stmts|] p]|msg]; [right|right|left; congruence].
  - exists (Some stmts), p. split; [done|]. destruct H as [-> _]. by split.
  - by exists None, p.
Qed.

(** C13: the syntax tree loses nothing: when [Parse] returns statements whose service items have
    handlers, the text of the statements is the text of all tokens of the source, comments and
    semicolons apart, in their order. *)
Theorem api_parse_lossless s stmts p : scanning s -> Parse (New s) = Ok (Some stmts, p) -> Forall complete stmts ->
  exists l, tokens_to_end s l /\ shows show_stmt stmts = texts (code l).
Proof.
  intros Hs%scanning_ok HP Hc. assert (H := Parse_spec s Hs). unfold runs in H. rewrite HP in H.
  destruct H as (_ & l & Hl & Ht). exists l. auto.
Qed.

Definition demo_api : string :=
  "type Req { A, B int `json:x` } service foo-api { @handler h get /a/:id (Req) returns ([]*Req); }".

Lemma api_parse_total_witness :
  Parse (New (newS demo_api)) = Panic no_path \/
  exists o p, Parse (New (newS demo_api)) = Ok (o, p) /\ (o = None <-> errors p <> []).
Proof. apply (api_parse_total (newS demo_api)). by apply newS_scanning. Defined.

Lemma api_parse_lossless_witness : exists stmts l, tokens_to_end (newS demo_api) l /\ shows show_stmt stmts = texts (code l) /\
  shows show_stmt stmts = rs "typeReq{A,Bint`json:x`}servicefoo-api{@handlerhget/a/:id(Req)returns([]*Req)}".
Proof.
  destruct (Parse (New (newS demo_api))) as [[[stmts|] p]|] eqn:E; [|by vm_compute in E..].
  exists stmts. destruct (api_parse_lossless (newS demo_api) stmts p) as (l & Hl & Ht).
  - by apply newS_scanning.
  - exact E.
  - vm_compute in E. injection E as <- _. repeat constructor. done.
  - exists l. split; [done|]. split; [done|]. vm_compute in E. injection E as <- _. by vm_compute.
Defined.

(** A route without a path: the index panic *)
Theorem route_without_path_panics :
  Parse (New (newS "service foo { @handler h get (Req) }")) = Panic no_path.
Proof. by vm_compute. Qed.

(** An item without a handler is accepted: the tree does not have the token [@handler]. *)
Theorem item_without_handler_accepted :
  exists s p, Parse (New (newS "service foo { @handler }")) = Ok (Some [SService s], p) /\
    ss_Routes s = [mkItem None None None] /\ show_service s = rs "servicefoo{}".
Proof.
  destruct (Parse (New (newS "service foo { @handler }"))) as [[[[|[| | | |s|] []]|] p]|] eqn:E; try by vm_compute in E.
  exists s, p. split; [done|]. vm_compute in E. injection E as <- _. by vm_compute.
Qed.
