(* ===== verification/ApiTypes.v ===== *)
(** * Data types of the API language: printing and parsing them again

    The parser on a list of tokens.  The tokens of a data type, followed by any other token, are
    parsed to that data type, and the parser stops in front of the other token: the grammar of
    [parseDataType] accepts every type the tree can hold, but for structs. *)

From Stdlib Require Import String.
From S2P Require Import Prelude.
From S2P Require Import Token.
From S2P Require Import Scanner.
From S2P Require Import ApiAst.
From S2P Require Import ApiParser.
Import Prelude(ret).
Local Open Scope parser_scope.

(** A list of tokens as a source *)
#[export] Instance list_source : TokenSource (list Token) := {
  source_next l := match l with [] => Ok (Tok EofToken, []) | t :: l => Ok (Tok t, l) end;
  source_left := length
}.
Abbreviation ListParser := (Parser (list Token)).
Implicit Types (p : ListParser) (t u : Token) (l : list Token).

(** ** Types without structs, and their tokens *)

Definition type_token (ty : Type_) (n : nodep) : Prop :=
  exists t, n = Some (NewTokenNode t) /\ Type__ t = ty.

(** What the parser builds: nodes of the right tokens.  A pointer points to anything but an
    anonymous struct; the name of a base type is no keyword. *)
Fixpoint printable (d : DataType) : Prop :=
  match d with
  | AnyDataType n => type_token IDENT n /\ show n = Any
  | BaseDataType n => type_token IDENT n /\ show n <> Any /\ show n <> MapKeyword /\ LookupKeyword (show n) = None
  | InterfaceDataType n => type_token ANY n /\ show n <> Any
  | ArrayDataType a n b d =>
    type_token LBRACK a /\ show a <> Any /\ (type_token INT n \/ type_token ELLIPSIS n) /\ type_token RBRACK b /\ printable d
  | SliceDataType a b d => type_token LBRACK a /\ show a <> Any /\ type_token RBRACK b /\ printable d
  | MapDataType m a k b v =>
    type_token IDENT m /\ show m = MapKeyword /\ type_token LBRACK a /\ type_token RBRACK b /\ printable k /\ printable v
  | PointerDataType s d => type_token MUL s /\ show s <> Any /\ printable d
  | StructDataType _ _ _ => False
  end.

Definition token_of (n : nodep) : list Token := match n with Some n => [NodeToken n] | None => [] end.
Fixpoint type_tokens (d : DataType) : list Token :=
  match d with
  | AnyDataType n | BaseDataType n | InterfaceDataType n => token_of n
  | ArrayDataType a n b d => token_of a ++ token_of n ++ token_of b ++ type_tokens d
  | SliceDataType a b d => token_of a ++ token_of b ++ type_tokens d
  | MapDataType m a k b v => token_of m ++ token_of a ++ type_tokens k ++ token_of b ++ type_tokens v
  | PointerDataType s d => token_of s ++ type_tokens d
  | StructDataType _ _ _ => []
  end.

(** ** The parser in front of tokens *)

Definition comment_like t : bool := bool_decide (Type__ t = COMMENT) || bool_decide (Type__ t = DOCUMENT).
Definition ordinary t : bool := negb (comment_like t) && Valid t && negb (bool_decide (Type__ t = EOF)).

(** [l] is ahead of the parser, behind no comment. *)
Definition ahead p l : Prop := peekTok p :: p_s p = l /\ headCommentGroup p = [].

(** There is a token that is no comment. *)
Definition starts l : Prop := match l with u :: _ => comment_like u = false | [] => False end.

Lemma nextToken_ahead p t l : ahead p (t :: l) -> ordinary t = true -> starts l ->
  exists p', nextToken p = Ok (true, p') /\ ahead p' l /\ curTok p' = t /\ getNode t p' = Some (NewTokenNode t).
Proof.
  intros [E Hh] Ht Hu. destruct p as [s es cur pk hd ap nd]. simpl in E, Hh. injection E as -> ->. subst hd.
  unfold ordinary in Ht. bool_prop. unfold nextToken. simpl. rewrite H1, bool_decide_eq_false_2 by done.
  destruct l as [|u l]; [done|]. simpl in Hu.
  unfold readTokens, bind, readPeek. simpl. fold (comment_like u). rewrite Hu. simpl.
  eexists. split; [done|]. split; [done|]. split; [done|]. unfold getNode. simpl. by rewrite decide_True.
Qed.

Section rules.
Context {X : Type} (Q : option X -> ListParser -> Prop).
Implicit Types (k : nodep -> M ListParser (option X)) (m : M ListParser (option X)).

Lemma wp_next p t l m : ahead p (t :: l) -> ordinary t = true -> starts l ->
  (forall p', ahead p' l -> curTok p' = t -> getNode t p' = Some (NewTokenNode t) -> wp m p' Q) ->
  wp (check nextToken in m) p Q.
Proof.
  intros Ha Ht Hu Hm. apply wp_bind. unfold wp. destruct (nextToken_ahead p t l Ha Ht Hu) as (p' & -> & H1 & H2 & H3). by apply Hm.
Qed.
Lemma wp_next_node p t l k : ahead p (t :: l) -> ordinary t = true -> starts l ->
  (forall p', ahead p' l -> wp (k (Some (NewTokenNode t))) p' Q) -> wp (let? n := next_node in k n) p Q.
Proof.
  intros Ha Ht Hu Hk. apply wp_bind. unfold next_node. eapply wp_bind. unfold wp at 1.
  destruct (nextToken_ahead p t l Ha Ht Hu) as (p' & -> & H1 & H2 & H3). unfold wp at 1. simpl. rewrite H2, H3. by apply Hk.
Qed.
Lemma wp_take_node p t l es k : ahead p (t :: l) -> ordinary t = true -> starts l -> existsb (matches t) es = true ->
  (forall p', ahead p' l -> wp (k (Some (NewTokenNode t))) p' Q) -> wp (let? n := take_node es in k n) p Q.
Proof.
  intros Ha Ht Hu He Hk. apply (wp_next_node p t l k Ha Ht Hu) in Hk. revert Hk.
  unfold take_node, next_node, advanceIfPeekTokenIs, wp, bind, expectPeekToken.
  assert (E : peekTok p = t) by (by destruct Ha as [[= ->] _]). by rewrite E, He.
Qed.
Lemma wp_reject p t l es m : ahead p (t :: l) -> existsb (matches t) es = true ->
  wp m p Q -> wp (reject notExpectPeekToken es in m) p Q.
Proof. intros [[= E _] _] He Hm. apply wp_bind. unfold wp at 1, notExpectPeekToken. by rewrite E, He. Qed.
Lemma wp_peek p t l es (k : bool -> M ListParser (option X)) : ahead p (t :: l) ->
  wp (k (existsb (matches t) es)) p Q -> wp (bind (peekTokenIs es) k) p Q.
Proof. intros [[= E _] _] Hm. apply wp_bind. unfold wp at 1, peekTokenIs, gets. by rewrite E. Qed.
Lemma wp_cur p t k : curTok p = t -> getNode t p = Some (NewTokenNode t) -> wp (k (Some (NewTokenNode t))) p Q -> wp (bind curTokenNode k) p Q.
Proof. intros E1 E2 Hk. apply wp_bind. unfold wp at 1, curTokenNode, gets. by rewrite E1, E2. Qed.
Lemma wp_keyword p t m : curTok p = t -> LookupKeyword (Text t) = None -> wp m p Q -> wp (reject curTokenIsKeyword in m) p Q.
Proof. intros <- E Hm. apply wp_bind. unfold curTokenIsKeyword. apply wp_bind. unfold wp at 1. simpl. by rewrite E. Qed.
Lemma wp_then {Y} p (d : Y) l (f : M ListParser (option Y)) (k : Y -> M ListParser (option X)) :
  wp f p (fun o p' => o = Some d /\ ahead p' l) -> (forall p', ahead p' l -> wp (k d) p' Q) -> wp (let? x := f in k x) p Q.
Proof. intros Hf Hk. apply wp_bind. eapply wp_mono; [exact Hf|]. intros o p' [-> Ha]. by apply Hk. Qed.
End rules.

(** The first token of a type tells which type it is. *)
Lemma printable_first d : printable d -> exists t l, type_tokens d = t :: l /\ ordinary t = true /\
  existsb (matches t) [ETy IDENT; ETy LBRACK; ETy ANY; ETy MUL] = true.
Proof.
  destruct d; simpl; intros H; try (by destruct H); destruct_and?;
    match goal with H : type_token _ ?n |- context [token_of ?n] => destruct H as (t & -> & Ht) end;
    (eexists t, _; split; [done|]; destruct t as [ty x y]; simpl in *; by subst).
Qed.
Lemma printable_starts d l : printable d -> starts (type_tokens d ++ l).
Proof.
  intros H. destruct (printable_first d H) as (t & k & -> & Ht & _). simpl. unfold ordinary in Ht. by bool_prop.
Qed.
Lemma typed_ordinary t ty : Type__ t = ty -> ordinary (mkToken ty [] IllegalPosition) = true -> ordinary t = true.
Proof. intros <-. done. Qed.

(** The tests of [parseDataType] on a token of a known type and text *)
Ltac tests :=
  unfold matches;
  repeat match goal with
  | |- context [bool_decide (?a = ?b)] => first [rewrite (bool_decide_eq_true_2 (a = b)) by congruence | rewrite (bool_decide_eq_false_2 (a = b)) by congruence]
  end; cbv beta iota.

Section print.
Context (parse : M ListParser (option DataType)) (n : nat).
Definition parses (f : M ListParser (option DataType)) d : Prop := forall p l, starts l -> ahead p (type_tokens d ++ l) ->
  wp f p (fun o p' => o = Some d /\ ahead p' l).
Hypothesis Hparse : forall d, printable d -> length (type_tokens d) <= n -> parses parse d.

(** One token, and one type *)
Ltac ord := first [assumption | by apply printable_starts | by eapply typed_ordinary | simpl; unfold comment_like; tests; reflexivity].
Ltac tok := first [eapply wp_next_node; [eassumption|ord|ord|] | eapply wp_take_node; [eassumption|ord|ord|simpl; tests; reflexivity|]]; intros ? ?.
Ltac typ :=
  lazymatch goal with
  | H : ahead ?p (type_tokens ?d ++ ?l) |- wp _ ?p _ =>
    apply (wp_then _ p d l); [apply Hparse; [assumption|simpl in *; rewrite ?length_app in *; simpl in *; lia|ord|exact H]|intros ? ?]
  end.

Lemma body_print d : printable d -> length (type_tokens d) <= S n -> parses (dataType_body parse) d.
Proof.
  intros Hd Hn p l Hl Ha. unfold dataType_body. apply wp_bind.
  destruct d; simpl in Hd; try done; destruct_and?;
    repeat match goal with H : type_token _ ?x |- _ => destruct H as (? & -> & ?) end;
    simpl in *; destruct Ha as [Ha1 Ha2]; injection Ha1 as Et El; unfold wp at 1, gets; rewrite Et; cbv beta iota zeta;
    assert (Ha : ahead p (peekTok p :: p_s p)) by done; rewrite Et, El, <- ?app_assoc in Ha; simpl in Ha.
  - tests. unfold parseAnyDataType. tok. by apply wp_ret.
  - tests. unfold parseBracketDataType, parseArrayDataType.
    match goal with H : _ \/ _ |- _ => destruct H as [(t & -> & ?)|(t & -> & ?)] end; simpl in Ha;
      (eapply wp_next; [exact Ha|ord|ord|]; intros p1 Ha1 Ec1 En1; do 2 (eapply wp_peek; [exact Ha1|]); simpl; tests;
       eapply wp_cur; [done..|]; do 2 tok; typ; by apply wp_ret).
  - tests. unfold parseBaseDataType. eapply wp_next; [exact Ha|ord|ord|]. intros p1 Ha1 Ec1 En1.
    eapply wp_keyword; [exact Ec1|done|]. eapply wp_cur; [exact Ec1|done|]. by apply wp_ret.
  - tests. unfold parseInterfaceDataType. tok. by apply wp_ret.
  - assert (MapKeyword <> Any) by done. tests. unfold parseMapDataType. do 2 tok. typ. tok. typ. by apply wp_ret.
  - tests. unfold parsePointerDataType. tok.
    match goal with H : printable d |- _ => destruct (printable_first d H) as (t & k & E & _ & Ht) end.
    eapply wp_reject; [by rewrite E in *|exact Ht|]. typ. by apply wp_ret.
  - tests. unfold parseBracketDataType, parseSliceDataType. eapply wp_next; [exact Ha|ord|ord|]. intros p1 Ha1 Ec1 En1.
    do 2 (eapply wp_peek; [exact Ha1|]); simpl; tests; eapply wp_cur; [done..|]. tok. typ. by apply wp_ret.
Qed.
End print.

(** C14: parsing the tokens of a data type gives the data type back, and the parser stops in front
    of what follows: for every type of the tree but structs, at any place in a file. *)
Theorem parse_type_roundtrip d p l :
  printable d -> starts l -> ahead p (type_tokens d ++ l) ->
  exists p', parseDataType p = Ok (Some d, p') /\ ahead p' l.
Proof.
  intros Hd Hl Ha. assert (H : wp parseDataType p (fun o p' => o = Some d /\ ahead p' l)).
  { unfold parseDataType, with_fuel, wp. 
    assert (Hf : length (type_tokens d) <= 2 + length (p_s p)).
    { destruct Ha as [E _]. apply (f_equal length) in E. rewrite length_app in E. simpl in E. lia. }
    revert Hf. simpl source_left. generalize (2 + length (p_s p)) as fuel. intros fuel Hf.
    assert (Hall : forall d, printable d -> length (type_tokens d) <= fuel -> parses (parseDataType_ fuel) d).
    { clear. induction fuel as [|fuel IH]; intros d Hd Hf.
      - destruct (printable_first d Hd) as (t & k & E & _). rewrite E in Hf. simpl in Hf. lia.
      - by apply (body_print _ fuel). }
    by apply Hall. }
  revert H. unfold wp. destruct (parseDataType p) as [[o p']|]; [|done]. intros [-> H]. by exists p'.
Qed.

Definition tk (ty : Type_) (x : string) : Token := mkToken ty (rs x) IllegalPosition.
Definition nd (ty : Type_) (x : string) : nodep := Some (NewTokenNode (tk ty x)).
(** [map[string][]*Foo], in front of a brace *)
Definition demo_type : DataType :=
  MapDataType (nd IDENT "map") (nd LBRACK "[") (BaseDataType (nd IDENT "string")) (nd RBRACK "]")
    (SliceDataType (nd LBRACK "[") (nd RBRACK "]") (PointerDataType (nd MUL "*") (BaseDataType (nd IDENT "Foo")))).
Definition demo_parser : ListParser :=
  let ts := type_tokens demo_type ++ [tk RBRACE "}"] in
  mkParser (tail ts) [] zeroToken (default zeroToken (head ts)) [] [] [].

Lemma parse_type_roundtrip_witness :
  exists p', parseDataType demo_parser = Ok (Some demo_type, p') /\ ahead p' [tk RBRACE "}"].
Proof.
  apply (parse_type_roundtrip demo_type demo_parser [tk RBRACE "}"]); [|done|done].
  simpl. repeat split; try (by eexists); by vm_compute.
Defined.
