(* ===== verification/ApiCheck.v ===== *)
(** * [pkg/parser/api/parser]: [api.go], [filter.go], [error.go], and [importstack]

    What happens to a parsed file: its imports are parsed and merged, then the whole is checked.
    An error is a text; the model has the text of an error before [fmt.Errorf] replaces the
    percent signs in it.  A nil pointer that is used is a panic.

    The file system, the working directory, the order in which a Go map is visited, and the
    formatter of routes and service names are arguments. *)

From Stdlib Require Import String.
From S2P Require Import Prelude.
From S2P Require Import Token.
From S2P Require Import Scanner.
From S2P Require Import ApiAst.
From S2P Require Import ApiParser.
Local Open Scope go_scope.

(** ** Errors *)

Abbreviation error := (option text).
(** Code that returns a value and an error *)
Abbreviation res A := (outcome (text + A)).

Definition errorManager : Type := list text.
Definition newErrorManager : errorManager := [].
Definition em_add (err : error) (e : errorManager) : errorManager :=
  match err with None => e | Some t => e ++ [t] end.
Definition em_error (e : errorManager) : error :=
  match e with [] => None | _ => Some (join [10%Z] e) end.

Definition SyntaxError (pos : Position) (msg : text) : text := rs "syntax error: " ++ Position_String pos ++ rs " " ++ msg.
Definition DuplicateStmtError (pos : Position) (msg : text) : text :=
  rs "duplicate declaration: " ++ Position_String pos ++ rs " " ++ msg.

(** ** Nodes *)

Definition nil_pointer : string := "invalid memory address or nil pointer dereference".
Definition deref {A} (x : option A) : outcome A := match x with Some a => Ok a | None => Panic nil_pointer end.

(** [TokenNode.Pos]: a comment before the token comes first. *)
Definition node_Pos (n : TokenNode) : Position :=
  match HeadCommentGroup n with c :: _ => Pos (Comment c) | [] => Pos (NodeToken n) end.

Definition IsEmptyStringOrWhiteSpace (s : text) : bool := (length (TrimWhiteSpace s) =? 0).
Definition CommentGroup_List (cg : CommentGroup) : list text :=
  filter (fun t => IsEmptyStringOrWhiteSpace t = false) ((fun c => Text (Comment c)) <$> cg).
Definition CommentGroup_Join (cg : CommentGroup) (sep : text) : text :=
  if negb (CommentGroup_Valid cg) then [] else join sep (CommentGroup_List cg).

(** [TokenNode.Format] without a prefix *)
Definition node_Format (n : TokenNode) : text :=
  let textList := (fun c => Text (Comment c)) <$> HeadCommentGroup n in
  let tokenText := Text (NodeToken n) in
  let tokenText :=
    if (0 <? length (CommentGroup_List (LeadingCommentGroup n)))
    then tokenText ++ rs " " ++ CommentGroup_Join (LeadingCommentGroup n) (rs " ") else tokenText in
  join [10%Z] (textList ++ [tokenText]).

(** ** [filter.go] *)

Record filterBuilder := mkFilterBuilder {
  fb_filename : text;
  fb_m : gmap text Position;
  fb_checkExprName : text;
  fb_errorManager : errorManager
}.

Definition addCheckItem (filename checkExprName : text) : filterBuilder :=
  mkFilterBuilder filename ∅ checkExprName newErrorManager.

(** One node, under the key [prefix/text]: an error when the key has another position already *)
Definition check_node (prefix : text) (n : TokenNode) (b : filterBuilder) : filterBuilder :=
  let joinText := prefix ++ rs "/" ++ Text (NodeToken n) in
  let put := mkFilterBuilder (fb_filename b) (<[joinText := Pos (NodeToken n)]> (fb_m b)) (fb_checkExprName b) (fb_errorManager b) in
  match fb_m b !! joinText with
  | Some pos =>
    if decide (pos <> Pos (NodeToken n)) then
      mkFilterBuilder (fb_filename b) (fb_m b) (fb_checkExprName b)
        (em_add (Some (DuplicateStmtError (node_Pos n) (rs "duplicate " ++ fb_checkExprName b))) (fb_errorManager b))
    else put
  | None => put
  end.

Fixpoint checkNodeWithPrefix (prefix : text) (nodes : list nodep) (b : filterBuilder) : outcome filterBuilder :=
  match nodes with
  | [] => Ok b
  | n :: nodes => n <~ deref n ;; checkNodeWithPrefix prefix nodes (check_node prefix n b)
  end.
Definition check_nodes (nodes : list nodep) (b : filterBuilder) : outcome filterBuilder := checkNodeWithPrefix (fb_filename b) nodes b.

Definition fb_error (b : filterBuilder) : error := em_error (fb_errorManager b).
Definition filter_error (builders : list filterBuilder) : error :=
  em_error (foldl (fun e b => em_add (fb_error b) e) newErrorManager builders).

(** ** [API] *)

Record API := mkAPI {
  api_Filename : text;
  api_Syntax : SyntaxStmt;
  api_info : option InfoStmt;
  api_importStmt : list ImportStmt;
  api_TypeStmt : list TypeStmt;
  api_ServiceStmts : list ServiceStmt
}.

Definition defaultSyntax : SyntaxStmt :=
  let node ty x := Some (NewTokenNode (mkToken ty x IllegalPosition)) in
  mkSyntax (node IDENT Syntax) (node ASSIGN (rs "=")) (node STRING ([34%Z] ++ rs "v1" ++ [34%Z])).

(** The loop of [convert2API]; whether there was a syntax statement is carried along. *)
Fixpoint convert_loop (stmts : list Stmt) (hasSyntax : bool) (a : API) : res API :=
  match stmts with
  | [] => Ok (inr a)
  | one :: stmts =>
    match one with
    | SSyntax val =>
      if hasSyntax then n <~ deref (sy_Syntax val) ;; Ok (inl (DuplicateStmtError (node_Pos n) (rs "duplicate syntax statement")))
      else convert_loop stmts true a
    | SInfo val =>
      match api_info a with
      | Some _ => n <~ deref (in_Info val) ;; Ok (inl (DuplicateStmtError (node_Pos n) (rs "duplicate info statement")))
      | None => convert_loop stmts hasSyntax
          (mkAPI (api_Filename a) (api_Syntax a) (Some val) (api_importStmt a) (api_TypeStmt a) (api_ServiceStmts a))
      end
    | SImport val => convert_loop stmts hasSyntax
        (mkAPI (api_Filename a) (api_Syntax a) (api_info a) (api_importStmt a ++ [val]) (api_TypeStmt a) (api_ServiceStmts a))
    | SType val => convert_loop stmts hasSyntax
        (mkAPI (api_Filename a) (api_Syntax a) (api_info a) (api_importStmt a) (api_TypeStmt a ++ [val]) (api_ServiceStmts a))
    | SService val => convert_loop stmts hasSyntax
        (mkAPI (api_Filename a) (api_Syntax a) (api_info a) (api_importStmt a) (api_TypeStmt a) (api_ServiceStmts a ++ [val]))
    | SComment _ => convert_loop stmts hasSyntax a
    end
  end.

Definition convert2API (filename : text) (stmts : list Stmt) : res API :=
  match stmts with
  | [] => Panic "index out of range [0] with length 0"
  | one :: _ =>
    let syntax := match one with SSyntax s => s | _ => defaultSyntax end in
    convert_loop stmts false (mkAPI filename syntax None [] [] [])
  end.

(** ** Checks *)

Definition import_values (s : ImportStmt) : list nodep :=
  match s with ImportLiteralStmt _ v => [v] | ImportGroupStmt _ _ vs _ => vs end.
Definition type_exprs (s : TypeStmt) : list TypeExpr :=
  match s with TypeLiteralStmt _ e => [e] | TypeGroupStmt _ _ es _ => es end.

(** The nodes of all statements go through one checker, in their order. *)
Definition checkImportStmt (a : API) : outcome error :=
  b <~ check_nodes (api_importStmt a ≫= import_values) (addCheckItem (api_Filename a) (rs "import value expression")) ;;
  Ok (filter_error [b]).

Definition checkInfoStmt (a : API) : outcome error :=
  match api_info a with
  | None => Ok None
  | Some info =>
    b <~ check_nodes (kv_Key <$> in_Values info) (addCheckItem (api_Filename a) (rs "info key expression")) ;;
    Ok (filter_error [b])
  end.

Definition checkTypeStmt (a : API) : outcome error :=
  b <~ check_nodes (te_Name <$> (api_TypeStmt a ≫= type_exprs)) (addCheckItem (api_Filename a) (rs "type expression")) ;;
  Ok (filter_error [b]).

Fixpoint server_value (values : list KVExpr) (key : text) : outcome text :=
  match values with
  | [] => Ok []
  | val :: values =>
    k <~ deref (kv_Key val) ;;
    if decide (Text (NodeToken k) = key) then v <~ deref (kv_Value val) ;; Ok (Text (NodeToken v))
    else server_value values key
  end.
Definition getAtServerValue (atServer : option AtServerStmt) (key : text) : outcome text :=
  match atServer with None => Ok [] | Some s => server_value (as_Values s) key end.

Definition atServerGroupKey : text := rs "group:".
Definition atServerPrefixKey : text := rs "prefix:".

Section services.
(** [Format] of a service name and of a route *)
Context (name_Format : ServiceNameExpr -> text) (route_Format : RouteStmt -> text).

Definition TrimSuffix (s suffix : text) : text :=
  if decide (drop (length s - length suffix) s = suffix) then take (length s - length suffix) s else s.

(** One service item: its handler within the group, and its route with the prefix *)
Definition check_item (prefix group : text) (item : ServiceItemStmt) (handlerChecker pathChecker : filterBuilder)
    : outcome (filterBuilder * filterBuilder) :=
  h <~ deref (si_AtHandler item) ;;
  handlerChecker <~ checkNodeWithPrefix group [ah_Name h] handlerChecker ;;
  route <~ deref (si_Route item) ;;
  let path := rs "[" ++ prefix ++ rs "]:" ++ route_Format route in
  m <~ deref (rt_Method route) ;;
  pathChecker <~ check_nodes [Some (NewTokenNode (mkToken token_bg path (node_Pos m)))] pathChecker ;;
  Ok (handlerChecker, pathChecker).

Fixpoint check_items (prefix group : text) (items : list ServiceItemStmt) (hc pc : filterBuilder)
    : outcome (filterBuilder * filterBuilder) :=
  match items with
  | [] => Ok (hc, pc)
  | item :: items => r <~ check_item prefix group item hc pc ;; check_items prefix group items r.1 r.2
  end.

(** The map from service names to themselves: its values never differ from its keys. *)
Fixpoint check_services (services : list ServiceStmt) (serviceName : gmap text text) (sc hc pc : filterBuilder)
    : outcome (filterBuilder * filterBuilder * filterBuilder) :=
  match services with
  | [] => Ok (sc, hc, pc)
  | v :: services =>
    let name := TrimSuffix (name_Format (ss_Name v)) (rs "-api") in
    sc <~ match serviceName !! name with
          | Some sn =>
            if decide (sn <> name) then
              n <~ deref (sn_Name (ss_Name v)) ;;
              Ok (mkFilterBuilder (fb_filename sc) (fb_m sc) (fb_checkExprName sc)
                    (em_add (Some (SyntaxError (node_Pos n) (rs "multiple service name"))) (fb_errorManager sc)))
            else Ok sc
          | None => Ok sc
          end ;;
    let serviceName := match serviceName !! name with Some _ => serviceName | None => <[name := name]> serviceName end in
    prefix <~ getAtServerValue (ss_AtServer v) atServerPrefixKey ;;
    group <~ getAtServerValue (ss_AtServer v) atServerGroupKey ;;
    r <~ check_items prefix group (ss_Routes v) hc pc ;;
    check_services services serviceName sc r.1 r.2
  end.

Definition checkServiceStmt (a : API) : outcome error :=
  r <~ check_services (api_ServiceStmts a) ∅ (addCheckItem (api_Filename a) (rs "service name expression"))
         (addCheckItem (api_Filename a) (rs "handler expression")) (addCheckItem (api_Filename a) (rs "path expression")) ;;
  let '(sc, hc, pc) := r in
  Ok (filter_error [sc; hc; pc]).
End services.

(** *** Types are declared *)

(** The map [kind] *)
Definition kind : list text :=
  [rs "bool"; rs "int"; rs "int8"; rs "int16"; rs "int32"; rs "int64"; rs "uint"; rs "uint8"; rs "uint16"; rs "uint32";
   rs "uint64"; rs "uintptr"; rs "float32"; rs "float64"; rs "complex64"; rs "complex128"; rs "string"; rs "byte";
   rs "rune"; rs "any"].
Definition IsBaseType_ (t : text) : bool := bool_decide (t ∈ kind).

Fixpoint checkTypeExprContext (declareContext : gset text) (tp : DataType) : outcome error :=
  match tp with
  | ArrayDataType _ _ _ d => checkTypeExprContext declareContext d
  | BaseDataType base =>
    n <~ deref base ;;
    if IsBaseType_ (Text (NodeToken n)) then Ok None
    else if decide (Text (NodeToken n) ∈ declareContext) then Ok None
    else Ok (Some (SyntaxError (node_Pos n) (rs "unresolved type <" ++ Text (NodeToken n) ++ rs ">")))
  | MapDataType _ _ k _ v =>
    e1 <~ checkTypeExprContext declareContext k ;;
    e2 <~ checkTypeExprContext declareContext v ;;
    Ok (em_error (em_add e2 (em_add e1 newErrorManager)))
  | PointerDataType _ d => checkTypeExprContext declareContext d
  | SliceDataType _ _ d => checkTypeExprContext declareContext d
  | StructDataType _ es _ =>
    m <~ (fix go es manager := match es with
          | [] => Ok manager
          | e :: es => err <~ check_elem declareContext e ;; go es (em_add err manager)
          end) es newErrorManager ;;
    Ok (em_error m)
  | AnyDataType _ | InterfaceDataType _ => Ok None
  end
with check_elem (declareContext : gset text) (e : ElemExpr) : outcome error :=
  match e with mkElem _ d _ => checkTypeExprContext declareContext d end.

Fixpoint check_types (declareContext : gset text) (es : list TypeExpr) (em : errorManager) : outcome errorManager :=
  match es with
  | [] => Ok em
  | e :: es => err <~ checkTypeExprContext declareContext (te_DataType e) ;; check_types declareContext es (em_add err em)
  end.
Definition checkTypeContext (a : API) (declareContext : gset text) : outcome error :=
  em <~ check_types declareContext (api_TypeStmt a ≫= type_exprs) newErrorManager ;; Ok (em_error em).

Fixpoint declared (es : list TypeExpr) (typeMap : gset text) : outcome (gset text) :=
  match es with
  | [] => Ok typeMap
  | e :: es => n <~ deref (te_Name e) ;; declared es ({[Text (NodeToken n)]} ∪ typeMap)
  end.
Definition checkTypeDeclareContext (a : API) : outcome error :=
  typeMap <~ declared (api_TypeStmt a ≫= type_exprs) ∅ ;; checkTypeContext a typeMap.
