(* ===== verification/ApiImport.v ===== *)
(** * [api.go]: imports

    [parseImportedAPI] parses the files a file imports, and theirs, and [mergeAPI] puts the types
    and services of all of them into the importing file.  The stack of the files on the way
    refuses a cycle; the set of the files seen makes every file be parsed once. *)

From Stdlib Require Import String.
From S2P Require Import Prelude.
From S2P Require Import Token.
From S2P Require Import Scanner.
From S2P Require Import ApiAst.
From S2P Require Import ApiParser.
From S2P Require Import ApiCheck.
Local Open Scope go_scope.

(** ** [path/filepath] on Unix *)

Definition slash : rune := 47%Z.
Fixpoint split_slash (p cur : text) : list text :=
  match p with
  | [] => [cur]
  | c :: p => if Z.eqb c slash then cur :: split_slash p [] else split_slash p (cur ++ [c])
  end.
(** One element of a path: the elements kept so far are on a stack. *)
Definition clean_step (rooted : bool) (stack : list text) (e : text) : list text :=
  if decide (e = [] \/ e = rs ".") then stack
  else if decide (e = rs "..") then
    match stack with
    | [] => if rooted then [] else [e]
    | top :: rest => if decide (top = rs "..") then e :: stack else rest
    end
  else e :: stack.
Definition IsAbs (p : text) : bool := match p with c :: _ => Z.eqb c slash | [] => false end.
Definition Clean (p : text) : text :=
  match (if IsAbs p then [slash] else []) ++ join (rs "/") (reverse (foldl (clean_step (IsAbs p)) [] (split_slash p []))) with
  | [] => rs "."
  | c => c
  end.
Definition Join (dir p : text) : text :=
  match filter (fun e => e <> []) [dir; p] with [] => [] | es => Clean (join (rs "/") es) end.
(** The path up to its last slash *)
Fixpoint upto_slash (p : text) : text :=
  match p with
  | [] => []
  | c :: p => match upto_slash p with [] => if Z.eqb c slash then [c] else [] | q => c :: q end
  end.
Definition Dir (p : text) : text := Clean (upto_slash p).
(** Behind the last slash *)
Definition Base (p : text) : text :=
  match List.last (filter (fun e => e <> []) (split_slash p [])) [] with
  | [] => if decide (p = []) then rs "." else rs "/"
  | e => e
  end.
Definition HasSuffix (s suffix : text) : bool := bool_decide (drop (length s - length suffix) s = suffix) && (length suffix <=? length s).

(** ** [importstack] *)

Definition ImportStack : Type := list text.
Definition ErrImportCycleNotAllowed : text := rs "import cycle not allowed".
Definition Push (p : text) (s : ImportStack) : text + ImportStack :=
  if decide (p ∈ s) then inl ErrImportCycleNotAllowed else inr (s ++ [p]).
Definition Pop (s : ImportStack) : outcome ImportStack :=
  match s with [] => Panic "slice bounds out of range [:-1]" | _ => Ok (removelast s) end.

(** ** Importing *)

(** What all files of one run share *)
Record shared := mkShared { importSet : gset text; importManager : ImportStack }.

Definition mergeAPI (api in_ : API) : res API :=
  v <~ deref (sy_Value (api_Syntax api)) ;;
  w <~ deref (sy_Value (api_Syntax in_)) ;;
  if decide (node_Format v <> node_Format w) then
    Ok (inl (SyntaxError (node_Pos w)
      (rs "multiple syntax value expression, expected <" ++ node_Format v ++ rs ">, got <" ++ node_Format w ++ rs ">")))
  else
    Ok (inr (mkAPI (api_Filename api) (api_Syntax api) (api_info api) (api_importStmt api)
      (api_TypeStmt api ++ api_TypeStmt in_) (api_ServiceStmts api ++ api_ServiceStmts in_))).

Definition unquoted (t : text) : text := filter (fun c => c <> 34%Z) t.
(** The map from the imported names to the tokens; a later token of the same name wins. *)
Fixpoint importValueSet (values : list nodep) (m : gmap text Token) : outcome (gmap text Token) :=
  match values with
  | [] => Ok m
  | v :: values => n <~ deref v ;; importValueSet values (<[unquoted (Text (NodeToken n)) := NodeToken n]> m)
  end.

Section imports.
(** The contents of the files, the working directory, and the order of a map's entries *)
Context (fs : text -> option (option (list Z))) (cwd : text) (ord : list (text * Token) -> list (text * Token)).

Definition Abs (p : text) : text := if IsAbs p then Clean p else Join cwd p.

(** [New], [Parse], [CheckErrors] and [convert2API] on a file; [MustNewScanner] ends the process
    when there is no input. *)
Definition parse_source (filename : text) (src : source) : res API :=
  let abs := Abs filename in
  match NewScanner (Base abs) (HasSuffix abs (rs ".api")) (fs abs) src with
  | inl _ => Panic "exit status 1"
  | inr s =>
    r <~ Parse (New s) ;;
    match CheckErrors r.2 with
    | Some err => Ok (inl err)
    | None => stmts <~ deref r.1 ;; convert2API abs stmts
    end
  end.
Definition parse_file (impPath : text) : res API := parse_source impPath (SrcString []).

Section nested.
(** [parseReverse] of an imported file *)
Context (parseReverse : API -> shared -> res (API * shared)).

(** One round of the loop of [parseImportedAPI]: an imported file, unless it was seen before *)
Definition import_one (dir : text) (imp : text * Token) (st : shared) : res (option API * shared) :=
  let impPath := if IsAbs imp.1 then imp.1 else Join dir imp.1 in
  match Push impPath (importManager st) with
  | inl err => Ok (inl (SyntaxError (Pos imp.2) err))
  | inr stack =>
    if decide (impPath ∈ importSet st) then
      stack <~ Pop stack ;; Ok (inr (None, mkShared (importSet st) stack))
    else
      r <~ parse_file impPath ;;
      match r with
      | inl err => Ok (inl err)
      | inr nestedApi =>
        r <~ parseReverse nestedApi (mkShared ({[impPath]} ∪ importSet st) stack) ;;
        match r with
        | inl err => Ok (inl err)
        | inr (nestedApi, st) =>
          stack <~ Pop (importManager st) ;; Ok (inr (Some nestedApi, mkShared (importSet st) stack))
        end
      end
  end.

Fixpoint import_loop (dir : text) (imps : list (text * Token)) (st : shared) : res (list API * shared) :=
  match imps with
  | [] => Ok (inr ([], st))
  | imp :: imps =>
    r <~ import_one dir imp st ;;
    match r with
    | inl err => Ok (inl err)
    | inr (o, st) =>
      r <~ import_loop dir imps st ;;
      match r with
      | inl err => Ok (inl err)
      | inr (l, st) => Ok (inr (option_list o ++ l, st))
      end
    end
  end.

Definition parseImportedAPI (api : API) (st : shared) : res (list API * shared) :=
  m <~ importValueSet (api_importStmt api ≫= import_values) ∅ ;;
  import_loop (Dir (api_Filename api)) (ord (map_to_list m)) st.

Fixpoint merge_all (api : API) (l : list API) : res API :=
  match l with
  | [] => Ok (inr api)
  | e :: l => r <~ mergeAPI api e ;; match r with inl err => Ok (inl err) | inr api => merge_all api l end
  end.

Definition parseReverse_body (api : API) (st : shared) : res (API * shared) :=
  r <~ parseImportedAPI api st ;;
  match r with
  | inl err => Ok (inl err)
  | inr (l, st) =>
    r <~ merge_all api l ;;
    match r with inl err => Ok (inl err) | inr api => Ok (inr (api, st)) end
  end.
End nested.

Fixpoint parseReverse (fuel : nat) : API -> shared -> res (API * shared) :=
  match fuel with
  | O => fun _ _ => Panic "out of fuel"
  | S fuel => parseReverse_body (parseReverse fuel)
  end.

(** ** The checks, and the file as a whole *)

Section self.
Context (name_Format : ServiceNameExpr -> text) (route_Format : RouteStmt -> text).

Fixpoint first_error (checks : list (outcome error)) : outcome error :=
  match checks with
  | [] => Ok None
  | c :: checks => e <~ c ;; match e with Some err => Ok (Some err) | None => first_error checks end
  end.
Definition checks (a : API) : list (outcome error) :=
  [checkImportStmt a; checkInfoStmt a; checkTypeStmt a; checkServiceStmt name_Format route_Format a; checkTypeDeclareContext a].

Definition SelfCheck (fuel : nat) (a : API) (st : shared) : res API :=
  r <~ parseReverse fuel a st ;;
  match r with
  | inl err => Ok (inl err)
  | inr (a, _) => e <~ first_error (checks a) ;; match e with Some err => Ok (inl err) | None => Ok (inr a) end
  end.

(** [Parse] of the package, up to the conversion of the checked file *)
Definition load (fuel : nat) (filename : text) (src : source) : res API :=
  r <~ parse_source filename src ;;
  match r with
  | inl err => Ok (inl err)
  | inr a => SelfCheck fuel a (mkShared ∅ [api_Filename a])
  end.
End self.
End imports.
