(* ===== verification/ApiImportCorrect.v ===== *)
(** * Imports: every reachable file is merged once, and there is no cycle

    [parseReverse] is a depth-first search of the graph of imports.  The files it has finished,
    in the order in which it finished them, are a list in which every file comes behind all the
    files it imports. *)

From Stdlib Require Import String.
From stdpp Require Import relations.
From S2P Require Import Prelude.
From S2P Require Import Token.
From S2P Require Import Scanner.
From S2P Require Import ApiAst.
From S2P Require Import ApiParser.
From S2P Require Import ApiParserLogic.
From S2P Require Import ApiParserCorrect.
From S2P Require Import ApiCheck.
From S2P Require Import ApiImport.
Local Open Scope go_scope.

Section graph.
Context (fs : text -> option (option (list Z))) (cwd : text) (ord : list (text * Token) -> list (text * Token)).
Hypothesis Hord : forall l, ord l ≡ₚ l.
Implicit Types (a : API) (x y : text) (L : list text) (st : shared).
Local Abbreviation parse_file := (parse_file fs cwd).

(** ** The graph *)

Definition resolve (dir name : text) : text := if IsAbs name then name else Join dir name.
(** The files a file imports *)
Definition imports_of a : list text :=
  match importValueSet (api_importStmt a ≫= import_values) ∅ with
  | Ok m => (fun imp => resolve (Dir (api_Filename a)) imp.1) <$> map_to_list m
  | Panic _ => []
  end.
Definition edge x y : Prop := exists a, parse_file x = Ok (inr a) /\ y ∈ imports_of a.
Definition reachable a x : Prop := exists y, y ∈ imports_of a /\ rtc edge y x.

Definition types_of x : list TypeStmt := match parse_file x with Ok (inr a) => api_TypeStmt a | _ => [] end.
Definition services_of x : list ServiceStmt := match parse_file x with Ok (inr a) => api_ServiceStmts a | _ => [] end.

(** Every file comes behind its imports. *)
Definition ordered L : Prop :=
  forall L1 x L2, L = L1 ++ x :: L2 -> exists a, parse_file x = Ok (inr a) /\ forall y, y ∈ imports_of a -> y ∈ L1.

Lemma ordered_snoc L x a : ordered L -> parse_file x = Ok (inr a) -> (forall y, y ∈ imports_of a -> y ∈ L) -> ordered (L ++ [x]).
Proof.
  intros HL Hx Hy L1 z L2 E. destruct L2 as [|w L2 _] using rev_ind.
  - apply app_inj_tail in E as [-> ->]. by exists a.
  - rewrite app_comm_cons, app_assoc in E. apply app_inj_tail in E as [-> _]. by eapply HL.
Qed.

Lemma ordered_edge L1 x L2 y : ordered (L1 ++ x :: L2) -> edge x y -> y ∈ L1.
Proof. intros HL (a & Ha & Hy). destruct (HL L1 x L2 eq_refl) as (b & Hb & Hin). rewrite Hb in Ha. injection Ha as ->. auto. Qed.

Lemma ordered_rtc L1 x L2 y : ordered (L1 ++ x :: L2) -> rtc edge x y -> y = x \/ y ∈ L1.
Proof.
  intros HL H. revert L1 L2 HL. induction H as [x|x z y Hxz _ IH]; intros L1 L2 HL; [by left|right].
  assert (Hz := ordered_edge _ _ _ _ HL Hxz). apply list_elem_of_split in Hz as (M1 & M2 & ->).
  rewrite <- app_assoc in HL. destruct (IH M1 (M2 ++ x :: L2)) as [->|Hy]; [done|set_solver|set_solver].
Qed.

(** Without repetitions, an ordered list has no cycle. *)
Lemma ordered_acyclic L x : ordered L -> NoDup L -> x ∈ L -> ~ tc edge x x.
Proof.
  intros HL Hnd Hx Hc. apply list_elem_of_split in Hx as (L1 & L2 & ->).
  assert (exists y, edge x y /\ rtc edge y x) as (y & Hxy & Hyx).
  { inversion Hc as [? ? Hxy|? y ? Hxy Hyx]; subst; [by exists x|]. exists y. split; [done|]. by apply tc_rtc. }
  assert (Hy := ordered_edge _ _ _ _ HL Hxy). apply list_elem_of_split in Hy as (M1 & M2 & ->).
  rewrite <- app_assoc in HL, Hnd. simpl in HL, Hnd.
  apply NoDup_app in Hnd as (_ & Hn1 & Hn2). destruct (ordered_rtc _ _ _ _ HL Hyx) as [->|Hx].
  - apply NoDup_cons in Hn2 as [Hn2 _]. set_solver.
  - apply (Hn1 x Hx). set_solver.
Qed.

(** ** The search *)

Record inv L st : Prop := {
  inv_set x : x ∈ importSet st <-> x ∈ L \/ x ∈ tail (importManager st);
  inv_root : importManager st <> [];
  inv_apart x : x ∈ L -> x ∉ importManager st;
  inv_nodup : NoDup L;
  inv_order : ordered L
}.

(** What a run of [parseReverse] on [a] does: the files [new] are finished and merged. *)
Definition finishes a L st a' st' : Prop :=
  exists new, inv (L ++ new) st' /\ importManager st' = importManager st /\
    (forall y, y ∈ imports_of a -> y ∈ L ++ new) /\ (forall x, x ∈ new -> reachable a x) /\
    api_TypeStmt a' ≡ₚ api_TypeStmt a ++ (new ≫= types_of) /\
    api_ServiceStmts a' ≡ₚ api_ServiceStmts a ++ (new ≫= services_of).

Lemma inv_push L st x : inv L st -> x ∉ importManager st -> x ∉ importSet st ->
  inv L (mkShared ({[x]} ∪ importSet st) (importManager st ++ [x])).
Proof.
  intros [H1 H2 H3 H4 H5] Hx Hs. split; simpl; [|by destruct (importManager st)| |done|done].
  - intros y. rewrite elem_of_union, elem_of_singleton, H1. destruct (importManager st); [done|]. simpl. set_solver.
  - intros y Hy. assert (y <> x) by (intros ->; apply Hs, H1; by left). apply H3 in Hy. set_solver.
Qed.

Lemma inv_pop L st x a s : inv L st -> importManager st = s ++ [x] -> s <> [] -> x ∉ s ->
  parse_file x = Ok (inr a) -> (forall y, y ∈ imports_of a -> y ∈ L) -> inv (L ++ [x]) (mkShared (importSet st) s).
Proof.
  intros [H1 H2 H3 H4 H5] E Hs Hx Ha Hy. assert (HxL : x ∉ L) by (intros H; apply (H3 x H); rewrite E; set_solver).
  rewrite E in *. split; simpl; [|done| | |by eapply ordered_snoc].
  - intros y. rewrite H1. destruct s; [done|]. simpl. set_solver.
  - intros y [Hy'| ->%list_elem_of_singleton]%elem_of_app; [|done]. apply H3 in Hy'. set_solver.
  - apply NoDup_app. split; [done|]. split; [set_solver|apply NoDup_singleton].
Qed.

Section step.
Context (rec : API -> shared -> res (API * shared)).
Hypothesis Hrec : forall a L st a' st', inv L st -> rec a st = Ok (inr (a', st')) -> finishes a L st a' st'.

Lemma import_one_spec dir imp L st o st' : inv L st -> import_one fs cwd rec dir imp st = Ok (inr (o, st')) ->
  exists new, inv (L ++ new) st' /\ importManager st' = importManager st /\ resolve dir imp.1 ∈ L ++ new /\
    (forall x, x ∈ new -> rtc edge (resolve dir imp.1) x) /\
    (option_list o ≫= api_TypeStmt) ≡ₚ (new ≫= types_of) /\ (option_list o ≫= api_ServiceStmts) ≡ₚ (new ≫= services_of).
Proof.
  intros Hinv. unfold import_one. fold (resolve dir imp.1). set (x := resolve dir imp.1). unfold Push.
  destruct (decide (x ∈ importManager st)) as [|Hst]; [done|]. destruct (decide (x ∈ importSet st)) as [Hset|Hset].
  - unfold Pop. destruct (importManager st ++ [x]) eqn:E; [by destruct (importManager st)|]. rewrite <- E, removelast_last.
    intros [= <- <-]. exists []. rewrite app_nil_r. assert (HxL : x ∈ L).
    { apply (inv_set _ _ Hinv) in Hset as [Hset|Hset]; [done|]. destruct Hst. destruct (importManager st); [done|]. simpl in Hset. set_solver. }
    destruct st. split; [done|]. split; [done|]. split; [done|]. split; [set_solver|done].
  - destruct (parse_file x) as [[|ax]|] eqn:Ex; try done. simpl.
    destruct (rec ax _) as [[|[a' st1]]|] eqn:Er; try done. simpl.
    apply (Hrec _ L) in Er as (new & Hn & Em & Himp & Hreach & Ht & Hs); [|by apply inv_push]. simpl in Em.
    unfold Pop. rewrite Em. destruct (importManager st ++ [x]) eqn:E; [by destruct (importManager st)|]. rewrite <- E in *.
    rewrite removelast_last. intros [= <- <-]. exists (new ++ [x]). rewrite app_assoc.
    split; [eapply inv_pop; eauto; apply Hinv|]. split; [done|]. split; [set_solver|]. split.
    { intros y [Hy| ->%list_elem_of_singleton]%elem_of_app; [|constructor]. destruct (Hreach y Hy) as (z & Hz & Hzy).
      eapply rtc_l; [|exact Hzy]. by exists ax. }
    simpl. rewrite !app_nil_r, !bind_app. simpl. rewrite !app_nil_r.
    assert (E1 : types_of x = api_TypeStmt ax) by (unfold types_of; by rewrite Ex).
    assert (E2 : services_of x = api_ServiceStmts ax) by (unfold services_of; by rewrite Ex).
    rewrite E1, E2, Ht, Hs. split; apply Permutation_app_comm.
Qed.

Lemma imports_loop_spec dir imps L st l st' : inv L st -> import_loop fs cwd rec dir imps st = Ok (inr (l, st')) ->
  exists new, inv (L ++ new) st' /\ importManager st' = importManager st /\ (forall imp, imp ∈ imps -> resolve dir imp.1 ∈ L ++ new) /\
    (forall x, x ∈ new -> exists imp, imp ∈ imps /\ rtc edge (resolve dir imp.1) x) /\
    (l ≫= api_TypeStmt) ≡ₚ (new ≫= types_of) /\ (l ≫= api_ServiceStmts) ≡ₚ (new ≫= services_of).
Proof.
  revert L st l st'. induction imps as [|imp imps IH]; intros L st l st' Hinv; cbn [import_loop].
  - intros [= <- <-]. exists []. rewrite app_nil_r. split; [done|]. split; [done|]. split; [set_solver|]. split; [set_solver|done].
  - destruct (import_one _ _ _ _ _ _) as [[|[o st1]]|] eqn:E1; try done. simpl.
    destruct (import_loop _ _ _ _ _ _) as [[|[l2 st2]]|] eqn:E2; try done. intros [= <- <-].
    apply (import_one_spec _ _ L) in E1 as (n1 & I1 & M1 & R1 & X1 & T1 & S1); [|done].
    apply (IH (L ++ n1)) in E2 as (n2 & I2 & M2 & R2 & X2 & T2 & S2); [|done].
    exists (n1 ++ n2). rewrite app_assoc. split; [done|]. split; [congruence|]. split; [set_solver|]. split; [set_solver|].
    by rewrite !bind_app, T1, T2, S1, S2.
Qed.

Lemma mergeAPI_spec a b a' : mergeAPI a b = Ok (inr a') ->
  api_TypeStmt a' = api_TypeStmt a ++ api_TypeStmt b /\ api_ServiceStmts a' = api_ServiceStmts a ++ api_ServiceStmts b.
Proof.
  unfold mergeAPI. destruct (deref _) as [v|]; [|done]. simpl. destruct (deref _) as [w|]; [|done]. simpl.
  destruct (decide _); [done|]. by intros [= <-].
Qed.
Lemma merge_all_spec a l a' : merge_all a l = Ok (inr a') ->
  api_TypeStmt a' = api_TypeStmt a ++ (l ≫= api_TypeStmt) /\ api_ServiceStmts a' = api_ServiceStmts a ++ (l ≫= api_ServiceStmts).
Proof.
  revert a. induction l as [|b l IH]; intros a; cbn [merge_all]; [intros [= <-]; simpl; by rewrite !app_nil_r|].
  destruct (mergeAPI a b) as [[|c]|] eqn:E; try done. simpl. intros H. apply mergeAPI_spec in E as [E1 E2].
  apply IH in H as [-> ->]. simpl. by rewrite E1, E2, <- !app_assoc.
Qed.

Lemma parseReverse_body_spec a L st a' st' : inv L st -> parseReverse_body fs cwd ord rec a st = Ok (inr (a', st')) -> finishes a L st a' st'.
Proof.
  intros Hinv. unfold parseReverse_body, parseImportedAPI.
  destruct (importValueSet _ _) as [m|] eqn:Em; [|done]. simpl.
  destruct (import_loop _ _ _ _ _ _) as [[|[l st1]]|] eqn:El; try done. simpl.
  destruct (merge_all a l) as [[|b]|] eqn:Eb; try done. intros [= <- <-].
  apply (imports_loop_spec _ _ L) in El as (new & I & M & R & X & T & S); [|done].
  assert (Himp : imports_of a = (fun imp => resolve (Dir (api_Filename a)) imp.1) <$> map_to_list m) by (unfold imports_of; by rewrite Em).
  exists new. split; [done|]. split; [done|]. rewrite Himp. split; [|split].
  - intros y (imp & -> & Hy)%list_elem_of_fmap. apply R. by rewrite Hord.
  - intros x Hx. destruct (X x Hx) as (imp & Hi & Hr). exists (resolve (Dir (api_Filename a)) imp.1). rewrite Himp.
    split; [|done]. apply list_elem_of_fmap. exists imp. by rewrite <- Hord.
  - apply merge_all_spec in Eb as [-> ->]. by rewrite T, S.
Qed.
End step.

Lemma parseReverse_spec fuel a L st a' st' : inv L st -> parseReverse fs cwd ord fuel a st = Ok (inr (a', st')) -> finishes a L st a' st'.
Proof.
  revert a L st a' st'. induction fuel as [|fuel IH]; intros a L st a' st' Hinv; [done|]. cbn [parseReverse].
  by apply parseReverse_body_spec.
Qed.

(** ** Termination *)

Definition out_of_fuel {A} (r : outcome A) : Prop := r = Panic "out of fuel".

Lemma bind_fuel {A B} (r : outcome A) (k : A -> outcome B) :
  ~ out_of_fuel r -> (forall v, r = Ok v -> ~ out_of_fuel (k v)) -> ~ out_of_fuel (obind r k).
Proof. destruct r as [v|msg]; simpl; [auto|]. intros H _ E. apply H. unfold out_of_fuel in *. congruence. Qed.
Lemma deref_fuel {A} (x : option A) : ~ out_of_fuel (deref x).
Proof. by destruct x. Qed.
Lemma importValueSet_fuel vs m : ~ out_of_fuel (importValueSet vs m).
Proof. revert m. induction vs as [|v vs IH]; intros m; [done|]. cbn. apply bind_fuel; [apply deref_fuel|auto]. Qed.
Lemma Pop_fuel s : ~ out_of_fuel (Pop s).
Proof. by destruct s. Qed.
Lemma mergeAPI_fuel a b : ~ out_of_fuel (mergeAPI a b).
Proof. unfold mergeAPI. do 2 (apply bind_fuel; [apply deref_fuel|intros ? _]). by destruct (decide _). Qed.
Lemma merge_all_fuel a l : ~ out_of_fuel (merge_all a l).
Proof. revert a. induction l as [|b l IH]; intros a; [done|]. cbn. apply bind_fuel; [apply mergeAPI_fuel|]. intros [|] _; [done|auto]. Qed.
Lemma convert2API_fuel f stmts : ~ out_of_fuel (convert2API f stmts).
Proof.
  unfold convert2API. destruct stmts as [|one stmts]; [done|]. generalize (one :: stmts) as l, false as b, (mkAPI f match one with SSyntax s => s | _ => defaultSyntax end None [] [] []) as a.
  induction l as [|x l IH]; intros b a; [done|]. cbn. destruct x; try apply IH.
  - destruct b; [|apply IH]. apply bind_fuel; [apply deref_fuel|done].
  - destruct (api_info a); [|apply IH]. apply bind_fuel; [apply deref_fuel|done].
Qed.
(** Parsing a file does not run out of fuel. *)
Lemma parse_source_fuel f src : ~ out_of_fuel (parse_source fs cwd f src).
Proof.
  unfold parse_source. destruct (NewScanner _ _ _ _) as [|s] eqn:Es; [done|].
  assert (Hs : scanning s) by (by eapply scan_new). apply bind_fuel.
  - assert (H := Parse_spec s (scanning_ok s Hs)). unfold runs in H. destruct (Parse (New s)) as [[]|msg]; [done|]. by subst.
  - intros r _. destruct (CheckErrors r.2); [done|]. apply bind_fuel; [apply deref_fuel|intros; apply convert2API_fuel].
Qed.

Section terminates.
(** All files that can be reached *)
Context (F : list text).
(** There is fuel for each file that is not on the stack. *)
Record enough fuel a st : Prop := {
  en_reach x : reachable a x -> x ∈ F;
  en_stack x : x ∈ tail (importManager st) -> x ∈ F;
  en_nodup : NoDup (importManager st);
  en_fuel : length F < fuel + length (tail (importManager st))
}.

Lemma enough_positive fuel a st : enough fuel a st -> 0 < fuel.
Proof.
  intros [_ H2 H3 H4]. destruct fuel; [|lia]. exfalso. simpl in H4.
  assert (length (tail (importManager st)) <= length F); [|lia]. apply NoDup_incl_length.
  - apply NoDup_ListNoDup. destruct (importManager st); [constructor|]. by apply NoDup_cons in H3 as [_ ?].
  - intros x Hx. apply list_elem_of_In. apply H2. by apply list_elem_of_In.
Qed.

Lemma import_one_fuel fuel a L imp st : inv L st -> enough (S fuel) a st -> resolve (Dir (api_Filename a)) imp.1 ∈ imports_of a ->
  (forall b L st, inv L st -> enough fuel b st -> ~ out_of_fuel (parseReverse fs cwd ord fuel b st)) ->
  ~ out_of_fuel (import_one fs cwd (parseReverse fs cwd ord fuel) (Dir (api_Filename a)) imp st).
Proof.
  intros Hinv [H1 H2 H3 H4] Himp IH. unfold import_one. fold (resolve (Dir (api_Filename a)) imp.1). set (x := resolve _ _) in *.
  unfold Push. destruct (decide (x ∈ importManager st)) as [|Hst]; [done|].
  destruct (decide (x ∈ importSet st)) as [|Hset]; [apply bind_fuel; [apply Pop_fuel|done]|].
  apply bind_fuel; [apply parse_source_fuel|]. intros [|ax] Hax; [done|]. apply bind_fuel.
  - assert (Htail : tail (importManager st ++ [x]) = tail (importManager st) ++ [x]) by (assert (Hr := inv_root _ _ Hinv); by destruct (importManager st)).
    eapply IH; [by apply inv_push|]. split; simpl.
    + intros y (z & Hz & Hzy). apply H1. exists x. split; [done|]. eapply rtc_l; [|exact Hzy]. by exists ax.
    + rewrite Htail. intros y [Hy| ->%list_elem_of_singleton]%elem_of_app; [auto|]. apply H1. exists x. split; [done|constructor].
    + apply NoDup_app. split; [done|]. split; [set_solver|apply NoDup_singleton].
    + rewrite Htail, length_app. simpl. lia.
  - intros [|[b st1]] _; [done|]. apply bind_fuel; [apply Pop_fuel|done].
Qed.

Lemma parseReverse_fuel fuel a L st : inv L st -> enough fuel a st -> ~ out_of_fuel (parseReverse fs cwd ord fuel a st).
Proof.
  revert a L st. induction fuel as [|fuel IH]; intros a L st Hinv Hen; [apply enough_positive in Hen; lia|]. cbn [parseReverse].
  unfold parseReverse_body, parseImportedAPI. apply bind_fuel; [|intros [|[l st1]] _; [done|]; apply bind_fuel; [apply merge_all_fuel|by intros [|]]].
  apply bind_fuel; [apply importValueSet_fuel|]. intros m Hm.
  assert (Himp : forall imp, imp ∈ ord (map_to_list m) -> resolve (Dir (api_Filename a)) imp.1 ∈ imports_of a).
  { intros imp Hi. unfold imports_of. rewrite Hm. apply list_elem_of_fmap. exists imp. by rewrite <- Hord. }
  revert Himp. generalize (ord (map_to_list m)) as imps. intros imps Himp. revert L st Hinv Hen.
  induction imps as [|imp imps IHi]; intros L st Hinv Hen; [done|]. cbn [import_loop].
  apply bind_fuel; [eapply import_one_fuel; [exact Hinv|done|apply Himp; set_solver|exact IH]|].
  intros [|[o st1]] E1; [done|]. apply (import_one_spec _ (parseReverse_spec fuel) _ _ L) in E1 as (n1 & I1 & M1 & _); [|done].
  apply bind_fuel; [|by intros [|[]]]. apply (IHi ltac:(set_solver) (L ++ n1)); [done|]. destruct Hen. by split; rewrite ?M1.
Qed.
End terminates.

(** C16: importing ends, cycle or not: with fuel for every file that can be reached, [parseReverse]
    does not run out of it. *)
Theorem imports_terminate F fuel a :
  (forall x, reachable a x -> x ∈ F) -> length F < fuel ->
  parseReverse fs cwd ord fuel a (mkShared ∅ [api_Filename a]) <> Panic "out of fuel".
Proof.
  intros HF Hlt. apply (parseReverse_fuel F fuel a []).
  - split; simpl; [set_solver|done|set_solver|constructor|]. intros L1 x L2 E. by destruct L1.
  - split; simpl; [done|set_solver|apply NoDup_singleton|lia].
Qed.

End graph.

(** ** Three files: [a.api] imports [b.api] and [c.api], and [b.api] imports [c.api] *)

Definition quote (x : string) : text := [34%Z] ++ rs x ++ [34%Z].
Definition demo_fs (p : text) : option (option (list Z)) :=
  if decide (p = rs "/d/b.api") then Some (Some (rs "import " ++ quote "./sub/../c.api" ++ rs " type B { X C }"))
  else if decide (p = rs "/d/c.api") then Some (Some (rs "type C { X int }"))
  else if decide (p = rs "/d/x.api") then Some (Some (rs "import " ++ quote "y.api"))
  else if decide (p = rs "/d/y.api") then Some (Some (rs "import " ++ quote "x.api"))
  else None.
Definition demo_source : source := SrcString (rs "import " ++ quote "b.api" ++ rs " import " ++ quote "c.api" ++ rs " type A { X B }").
Definition demo_file : API :=
  match parse_source demo_fs (rs "/d") (rs "a.api") demo_source with
  | Ok (inr a) => a
  | _ => mkAPI [] defaultSyntax None [] [] []
  end.
Definition demo_run (fuel : nat) : res (API * shared) :=
  parseReverse demo_fs (rs "/d") id fuel demo_file (mkShared ∅ [api_Filename demo_file]).


Lemma imports_terminate_witness : demo_run 4 <> Panic "out of fuel".
Proof.
  apply (imports_terminate demo_fs (rs "/d") id (fun l => reflexivity l) [rs "/d/b.api"; rs "/d/c.api"] 4 demo_file).
  - intros x (y & Hy & Hr).
    assert (Hy' : y ∈ [rs "/d/b.api"; rs "/d/c.api"]).
    { revert y Hy Hr. assert (H : Forall (fun y => y ∈ [rs "/d/b.api"; rs "/d/c.api"]) (imports_of demo_file))
        by (apply (bool_decide_unpack _); by vm_compute). rewrite Forall_forall in H. intros y Hy _. by apply H. }
    clear Hy. induction Hr as [y|y z x (a & Ha & Hz) _ IH]; [done|]. apply IH. clear IH x.
    assert (H : forall y, y ∈ [rs "/d/b.api"; rs "/d/c.api"] ->
      match parse_file demo_fs (rs "/d") y with
      | Ok (inr a) => bool_decide (Forall (fun z => z ∈ [rs "/d/b.api"; rs "/d/c.api"]) (imports_of a)) | _ => false end = true).
    { rewrite <- Forall_forall. apply (bool_decide_unpack _). by vm_compute. }
    specialize (H y Hy'). rewrite Ha in H. apply bool_decide_eq_true in H. rewrite Forall_forall in H. by apply H.
  - simpl. lia.
Defined.

(** A cycle of imports is an error. *)
Example import_cycle_refused :
  parseReverse demo_fs (rs "/d") id 4 (mkAPI (rs "/d/x.api") defaultSyntax None
    [ImportLiteralStmt None (Some (NewTokenNode (mkToken STRING (quote "y.api") IllegalPosition)))] [] [])
    (mkShared ∅ [rs "/d/x.api"]) =
  Ok (inl (rs "syntax error: y.api 1:8 import cycle not allowed")).
Proof. by vm_compute. Qed.
