(* ===== verification/ApiCheckCorrect.v ===== *)
(** * A file that passes the checks is closed and unambiguous

    The checks of [api.go] against what they are for: no name is declared twice, every type that
    is named is declared, every service item has a handler and a route. *)

From Stdlib Require Import String.
From S2P Require Import Prelude.
From S2P Require Import Token.
From S2P Require Import Scanner.
From S2P Require Import ApiAst.
From S2P Require Import ApiParser.
From S2P Require Import ApiCheck.
From S2P Require Import ApiImport.
From S2P Require Import ApiImportCorrect.
Local Open Scope go_scope.

(** ** Duplicates *)

Lemma em_error_None e : em_error e = None <-> e = [].
Proof. by destruct e. Qed.

(** Node [n] is recorded under its key. *)
Definition recorded (prefix : text) (n : TokenNode) (m : gmap text Position) : Prop :=
  m !! (prefix ++ rs "/" ++ Text (NodeToken n)) = Some (Pos (NodeToken n)).

Lemma check_node_spec prefix n b : let b' := check_node prefix n b in
  fb_filename b' = fb_filename b /\
  (fb_errorManager b' = [] -> fb_errorManager b = [] /\ recorded prefix n (fb_m b') /\ fb_m b ⊆ fb_m b').
Proof.
  unfold check_node, recorded. destruct (fb_m b !! _) as [pos|] eqn:E; [destruct (decide _) as [Hne|He]|]; simpl.
  - split; [done|]. intros H. by destruct (fb_errorManager b).
  - split; [done|]. intros ->. assert (pos = Pos (NodeToken n)) as -> by (destruct (decide (pos = Pos (NodeToken n))); tauto).
    split; [done|]. rewrite lookup_insert_eq. split; [done|]. by rewrite insert_id.
  - split; [done|]. intros ->. split; [done|]. rewrite lookup_insert_eq. split; [done|]. by apply insert_subseteq.
Qed.

Lemma recorded_mono prefix n m m' : recorded prefix n m -> m ⊆ m' -> recorded prefix n m'.
Proof. intros H Hm. by eapply lookup_weaken. Qed.

Lemma checkNodeWithPrefix_spec prefix ns b b' : checkNodeWithPrefix prefix ns b = Ok b' ->
  fb_filename b' = fb_filename b /\
  (fb_errorManager b' = [] -> fb_errorManager b = [] /\ fb_m b ⊆ fb_m b' /\
    forall n, n ∈ ns -> exists t, n = Some t /\ recorded prefix t (fb_m b')).
Proof.
  revert b. induction ns as [|n ns IH]; intros b; cbn; [intros [= <-]; split; [done|]; set_solver|].
  destruct n as [t|]; [|done]. simpl. intros H. apply IH in H as [H1 H2]. destruct (check_node_spec prefix t b) as [K1 K2].
  split; [congruence|]. intros He. destruct (H2 He) as (E1 & E2 & E3). destruct (K2 E1) as (F1 & F2 & F3).
  split; [done|]. split; [by etrans|]. intros n [->|Hn]%elem_of_cons; [|auto].
  exists t. split; [done|]. by eapply recorded_mono.
Qed.

(** Two nodes with the same text are at the same position. *)
Definition unambiguous (ns : list nodep) : Prop :=
  forall t u, Some t ∈ ns -> Some u ∈ ns -> Text (NodeToken t) = Text (NodeToken u) -> Pos (NodeToken t) = Pos (NodeToken u).

Lemma recorded_same prefix t u m : recorded prefix t m -> recorded prefix u m ->
  Text (NodeToken t) = Text (NodeToken u) -> Pos (NodeToken t) = Pos (NodeToken u).
Proof. unfold recorded. intros H1 H2 E. rewrite E in H1. congruence. Qed.

Lemma check_nodes_spec ns filename name b : check_nodes ns (addCheckItem filename name) = Ok b -> filter_error [b] = None -> unambiguous ns.
Proof.
  intros H E t u Ht Hu. apply checkNodeWithPrefix_spec in H as [_ H].
  assert (Hb : fb_errorManager b = []) by (unfold filter_error, fb_error in E; simpl in E; by destruct (fb_errorManager b)).
  destruct (H Hb) as (_ & _ & Hall). destruct (Hall _ Ht) as (? & [= <-] & H1). destruct (Hall _ Hu) as (? & [= <-] & H2).
  by eapply recorded_same.
Qed.

(** Positions that differ are reported: the other direction *)
Lemma check_node_dup prefix n b pos : fb_m b !! (prefix ++ rs "/" ++ Text (NodeToken n)) = Some pos -> pos <> Pos (NodeToken n) ->
  fb_errorManager (check_node prefix n b) <> [].
Proof. intros H Hne. unfold check_node. rewrite H, decide_True by done. simpl. by destruct (fb_errorManager b). Qed.

(** ** Types *)

Fixpoint base_nodes (d : DataType) : list nodep :=
  match d with
  | ArrayDataType _ _ _ d | PointerDataType _ d | SliceDataType _ _ d => base_nodes d
  | BaseDataType n => [n]
  | MapDataType _ _ k _ v => base_nodes k ++ base_nodes v
  | StructDataType _ es _ => (fix go es := match es with [] => [] | e :: es => elem_nodes e ++ go es end) es
  | AnyDataType _ | InterfaceDataType _ => []
  end
with elem_nodes (e : ElemExpr) : list nodep := match e with mkElem _ d _ => base_nodes d end.

(** The named type is basic or in the context. *)
Definition resolved (ctx : gset text) (n : nodep) : Prop :=
  exists t, n = Some t /\ (Text (NodeToken t) ∈ kind \/ Text (NodeToken t) ∈ ctx).

Lemma em_add2 e1 e2 : em_error (em_add e2 (em_add e1 newErrorManager)) = None <-> e1 = None /\ e2 = None.
Proof. rewrite em_error_None. destruct e1, e2; simpl; naive_solver. Qed.

Fixpoint checkTypeExprContext_spec ctx d : checkTypeExprContext ctx d = Ok None -> Forall (resolved ctx) (base_nodes d).
Proof.
  destruct d; simpl; intros H; try (constructor; fail); try (by apply checkTypeExprContext_spec).
  - destruct Base as [t|]; [|done]. simpl in H. apply Forall_singleton. exists t. split; [done|]. unfold IsBaseType_ in H.
    case_bool_decide; [by left|]. right. by destruct (decide _).
  - destruct (checkTypeExprContext ctx d1) as [e1|] eqn:E1; [|done]. simpl in H.
    destruct (checkTypeExprContext ctx d2) as [e2|] eqn:E2; [|done]. simpl in H. injection H as H. apply em_add2 in H as [-> ->].
    apply Forall_app. split; by apply checkTypeExprContext_spec.
  - assert (Hgo : forall es m, (fix go (es : list ElemExpr) (manager : errorManager) := match es with
          | [] => Ok manager
          | e :: es => err <~ check_elem ctx e ;; go es (em_add err manager) end) es m = Ok [] -> m = [] /\
        Forall (resolved ctx) ((fix go (es : list ElemExpr) := match es with [] => [] | e :: es => elem_nodes e ++ go es end) es)).
    { fix IHe 1. intros [|[ns d tag] es] m; simpl.
      - intros [= ->]. split; [done|constructor].
      - destruct (checkTypeExprContext ctx d) as [e1|] eqn:E1; [|done]. simpl. intros [He Hes]%IHe.
        destruct e1; simpl in He; [by destruct m|]. split; [done|]. apply Forall_app. split; [by apply checkTypeExprContext_spec|done]. }
    destruct (_ Elements newErrorManager) as [m|] eqn:E in H; [|done]. simpl in H. injection H as H. apply em_error_None in H as ->.
    apply Hgo in E as [_ E]. exact E.
Qed.

Lemma check_types_spec ctx es em em' : check_types ctx es em = Ok em' -> em' = [] ->
  em = [] /\ forall e, e ∈ es -> Forall (resolved ctx) (base_nodes (te_DataType e)).
Proof.
  revert em. induction es as [|e es IH]; intros em; cbn; [intros [= ->] ->; split; [done|set_solver]|].
  destruct (checkTypeExprContext ctx _) as [err|] eqn:E; [|done]. simpl. intros H He. destruct (IH _ H He) as [E1 E2].
  destruct err; simpl in E1; [by destruct em|]. split; [done|]. intros f [->|Hf]%elem_of_cons; [|auto].
  by apply checkTypeExprContext_spec.
Qed.

Definition declares (a : API) : list TypeExpr := api_TypeStmt a ≫= type_exprs.

Lemma declared_spec es m m' : declared es m = Ok m' ->
  forall x, x ∈ m' <-> x ∈ m \/ exists e t, e ∈ es /\ te_Name e = Some t /\ x = Text (NodeToken t).
Proof.
  revert m. induction es as [|e es IH]; intros m; cbn; [intros [= ->] x; split; [auto|]; intros [|(? & ? & ? & _)]; set_solver|].
  destruct (te_Name e) as [t|] eqn:Et; [|done]. simpl. intros H x. rewrite (IH _ H x). split.
  - intros [[->%elem_of_singleton|]%elem_of_union|(f & u & Hf & ?)]; [right; exists e, t; set_solver|by left|right; exists f, u; set_solver].
  - intros [|(f & u & [->|Hf]%elem_of_cons & Hu & ->)]; [set_solver| |right; by exists f, u].
    rewrite Et in Hu. injection Hu as ->. set_solver.
Qed.

(** A type that is named is basic or declared in the file. *)
Definition closed (a : API) : Prop := forall e n, e ∈ declares a -> n ∈ base_nodes (te_DataType e) ->
  exists t, n = Some t /\ (Text (NodeToken t) ∈ kind \/
    exists f u, f ∈ declares a /\ te_Name f = Some u /\ Text (NodeToken u) = Text (NodeToken t)).

Lemma checkTypeDeclareContext_spec a : checkTypeDeclareContext a = Ok None -> closed a.
Proof.
  unfold checkTypeDeclareContext, checkTypeContext. fold (declares a). destruct (declared _ _) as [ctx|] eqn:Ed; [|done]. simpl.
  destruct (check_types _ _ _) as [em|] eqn:Ec; [|done]. simpl. intros [= H%em_error_None]. intros e n He Hn.
  destruct (check_types_spec _ _ _ _ Ec H) as [_ Hall]. specialize (Hall e He). rewrite Forall_forall in Hall.
  destruct (Hall n Hn) as (t & -> & Ht). exists t. split; [done|]. destruct Ht as [|Ht]; [by left|right].
  apply (declared_spec _ _ _ Ed) in Ht as [Ht|(f & u & ? & ? & ?)]; [set_solver|by exists f, u].
Qed.

(** ** Services *)

Section services.
Context (name_Format : ServiceNameExpr -> text) (route_Format : RouteStmt -> text).

(** A service item is complete, and its handler and its route are recorded. *)
Definition item_recorded (filename prefix group : text) (hm pm : gmap text Position) (item : ServiceItemStmt) : Prop :=
  exists h hn r m, si_AtHandler item = Some h /\ ah_Name h = Some hn /\ si_Route item = Some r /\ rt_Method r = Some m /\
    recorded group hn hm /\
    recorded filename (NewTokenNode (mkToken token_bg (rs "[" ++ prefix ++ rs "]:" ++ route_Format r) (node_Pos m))) pm.

Lemma item_recorded_mono filename prefix group hm pm hm' pm' item :
  item_recorded filename prefix group hm pm item -> hm ⊆ hm' -> pm ⊆ pm' -> item_recorded filename prefix group hm' pm' item.
Proof.
  intros (h & hn & r & m & ? & ? & ? & ? & ? & ?) Hh Hp. exists h, hn, r, m. do 4 (split; [done|]).
  split; by eapply recorded_mono.
Qed.

Lemma check_item_spec prefix group item hc pc hc' pc' : check_item route_Format prefix group item hc pc = Ok (hc', pc') ->
  fb_filename pc' = fb_filename pc /\
  (fb_errorManager hc' = [] -> fb_errorManager pc' = [] ->
    fb_errorManager hc = [] /\ fb_errorManager pc = [] /\ fb_m hc ⊆ fb_m hc' /\ fb_m pc ⊆ fb_m pc' /\
    item_recorded (fb_filename pc) prefix group (fb_m hc') (fb_m pc') item).
Proof.
  unfold check_item. destruct (si_AtHandler item) as [h|] eqn:Eh; [|done]. cbn [deref obind].
  destruct (checkNodeWithPrefix _ _ _) as [hc1|] eqn:E1; [|done]. cbn [obind].
  destruct (si_Route item) as [r|] eqn:Er; [|done]. cbn [deref obind]. destruct (rt_Method r) as [m|] eqn:Em; [|done]. cbn [deref obind].
  unfold check_nodes. destruct (checkNodeWithPrefix (fb_filename pc) _ _) as [pc1|] eqn:E2; [|done]. intros [= <- <-].
  apply checkNodeWithPrefix_spec in E1 as [_ K1]. apply checkNodeWithPrefix_spec in E2 as [F2 K2]. split; [done|]. intros H1 H2.
  destruct (K1 H1) as (? & ? & R1). destruct (K2 H2) as (? & ? & R2). do 4 (split; [done|]).
  destruct (R1 (ah_Name h)) as (hn & ? & ?); [set_solver|].
  destruct (R2 (Some (NewTokenNode (mkToken token_bg (rs "[" ++ prefix ++ rs "]:" ++ route_Format r) (node_Pos m))))) as (? & [= <-] & ?);
    [set_solver|]. by exists h, hn, r, m.
Qed.

Lemma check_items_spec prefix group items hc pc hc' pc' : check_items route_Format prefix group items hc pc = Ok (hc', pc') ->
  fb_filename pc' = fb_filename pc /\
  (fb_errorManager hc' = [] -> fb_errorManager pc' = [] ->
    fb_errorManager hc = [] /\ fb_errorManager pc = [] /\ fb_m hc ⊆ fb_m hc' /\ fb_m pc ⊆ fb_m pc' /\
    forall item, item ∈ items -> item_recorded (fb_filename pc) prefix group (fb_m hc') (fb_m pc') item).
Proof.
  revert hc pc. induction items as [|item items IH]; intros hc pc; cbn [check_items].
  - intros [= <- <-]. split; [done|]. set_solver.
  - destruct (check_item _ _ _ _ _ _) as [[hc1 pc1]|] eqn:E; [|done]. cbn [obind fst snd]. intros H.
    apply check_item_spec in E as [F1 K1]. apply IH in H as [F2 K2]. split; [congruence|]. intros H1 H2.
    destruct (K2 H1 H2) as (? & ? & M1 & M2 & R2). destruct (K1 ltac:(done) ltac:(done)) as (? & ? & M3 & M4 & R1).
    do 2 (split; [done|]). split; [by etrans|]. split; [by etrans|].
    intros i [->|Hi]%elem_of_cons; [by eapply item_recorded_mono|]. rewrite <- F1. auto.
Qed.

Definition service_recorded (filename : text) (hm pm : gmap text Position) (v : ServiceStmt) : Prop :=
  exists prefix group, getAtServerValue (ss_AtServer v) atServerPrefixKey = Ok prefix /\
    getAtServerValue (ss_AtServer v) atServerGroupKey = Ok group /\
    forall item, item ∈ ss_Routes v -> item_recorded filename prefix group hm pm item.

Lemma check_services_spec vs names sc hc pc sc' hc' pc' :
  check_services name_Format route_Format vs names sc hc pc = Ok (sc', hc', pc') ->
  fb_errorManager hc' = [] -> fb_errorManager pc' = [] ->
  fb_errorManager hc = [] /\ fb_errorManager pc = [] /\ fb_m hc ⊆ fb_m hc' /\ fb_m pc ⊆ fb_m pc' /\
  forall v, v ∈ vs -> service_recorded (fb_filename pc) (fb_m hc') (fb_m pc') v.
Proof.
  revert names sc hc pc. induction vs as [|v vs IH]; intros names sc hc pc; cbn [check_services].
  - intros [= <- <- <-] ? ?. set_solver.
  - destruct (match names !! _ with Some _ => _ | None => _ end) as [sc1|] in |- *; [|done]. cbn [obind].
    set (names1 := match names !! _ with Some _ => names | None => _ end).
    destruct (getAtServerValue _ atServerPrefixKey) as [prefix|] eqn:Ep; [|done]. cbn [obind].
    destruct (getAtServerValue _ atServerGroupKey) as [group|] eqn:Eg; [|done]. cbn [obind].
    destruct (check_items _ _ _ _ _ _) as [[hc1 pc1]|] eqn:E; [|done]. cbn [obind fst snd]. intros H H1 H2.
    apply check_items_spec in E as [F1 K1]. destruct (IH _ _ _ _ H H1 H2) as (? & ? & M1 & M2 & R2).
    destruct (K1 ltac:(done) ltac:(done)) as (? & ? & M3 & M4 & R1).
    do 2 (split; [done|]). split; [by etrans|]. split; [by etrans|]. rewrite F1 in R2.
    intros w [->|Hw]%elem_of_cons; [|auto]. exists prefix, group. do 2 (split; [done|]).
    intros item Hi. eapply item_recorded_mono; [by apply R1|done|done].
Qed.

(** In one group no handler is declared twice, and under one prefix no route. *)
Definition services_ok (a : API) : Prop :=
  (forall v item, v ∈ api_ServiceStmts a -> item ∈ ss_Routes v -> exists h hn r, si_AtHandler item = Some h /\ ah_Name h = Some hn /\ si_Route item = Some r) /\
  (forall v w i j h k g, v ∈ api_ServiceStmts a -> w ∈ api_ServiceStmts a ->
    getAtServerValue (ss_AtServer v) atServerGroupKey = Ok g -> getAtServerValue (ss_AtServer w) atServerGroupKey = Ok g ->
    i ∈ ss_Routes v -> j ∈ ss_Routes w -> si_AtHandler i ≫= ah_Name = Some h -> si_AtHandler j ≫= ah_Name = Some k ->
    Text (NodeToken h) = Text (NodeToken k) -> Pos (NodeToken h) = Pos (NodeToken k)) /\
  (forall v w i j r s p, v ∈ api_ServiceStmts a -> w ∈ api_ServiceStmts a ->
    getAtServerValue (ss_AtServer v) atServerPrefixKey = Ok p -> getAtServerValue (ss_AtServer w) atServerPrefixKey = Ok p ->
    i ∈ ss_Routes v -> j ∈ ss_Routes w -> si_Route i = Some r -> si_Route j = Some s ->
    route_Format r = route_Format s -> node_Pos <$> rt_Method r = node_Pos <$> rt_Method s).

Lemma checkServiceStmt_spec a : checkServiceStmt name_Format route_Format a = Ok None -> services_ok a.
Proof.
  unfold checkServiceStmt. destruct (check_services _ _ _ _ _ _ _) as [[[sc hc] pc]|] eqn:E; [|done]. cbn [obind]. intros [= H].
  assert (Hh : fb_errorManager hc = [] /\ fb_errorManager pc = []).
  { revert H. unfold filter_error, fb_error. simpl.
    destruct (fb_errorManager sc), (fb_errorManager hc), (fb_errorManager pc); simpl; done. }
  destruct Hh as [Hh Hp]. destruct (check_services_spec _ _ _ _ _ _ _ _ E Hh Hp) as (_ & _ & _ & _ & Hall). split; [|split].
  - intros v item Hv Hi. destruct (Hall v Hv) as (? & ? & _ & _ & R). destruct (R item Hi) as (h & hn & r & _ & ? & ? & ? & _). by exists h, hn, r.
  - intros v w i j h k g Hv Hw Gv Gw Hi Hj Eh Ek.
    destruct (Hall v Hv) as (? & g1 & _ & G1 & R1). destruct (Hall w Hw) as (? & g2 & _ & G2 & R2).
    destruct (R1 i Hi) as (h1 & hn1 & _ & _ & A1 & B1 & _ & _ & C1 & _). destruct (R2 j Hj) as (h2 & hn2 & _ & _ & A2 & B2 & _ & _ & C2 & _).
    rewrite A1 in Eh. simpl in Eh. rewrite B1 in Eh. injection Eh as ->. rewrite A2 in Ek. simpl in Ek. rewrite B2 in Ek. injection Ek as ->.
    rewrite G1 in Gv. injection Gv as ->. rewrite G2 in Gw. injection Gw as ->. by eapply recorded_same.
  - intros v w i j r s p Hv Hw Gv Gw Hi Hj Er Es Ef.
    destruct (Hall v Hv) as (p1 & ? & G1 & _ & R1). destruct (Hall w Hw) as (p2 & ? & G2 & _ & R2).
    destruct (R1 i Hi) as (_ & _ & r1 & m1 & _ & _ & A1 & B1 & _ & C1). destruct (R2 j Hj) as (_ & _ & r2 & m2 & _ & _ & A2 & B2 & _ & C2).
    rewrite A1 in Er. injection Er as ->. rewrite A2 in Es. injection Es as ->. rewrite G1 in Gv. injection Gv as ->.
    rewrite G2 in Gw. injection Gw as ->. rewrite B1, B2. simpl. f_equal. rewrite Ef in C1. by apply (recorded_same _ _ _ _ C1 C2).
Qed.
End services.

(** C17: a file that [load] returns, with all it imports, is closed and unambiguous: no type and no
    import is declared at two places, every type that is named is basic or declared, every
    service item has a handler and a route, and no handler is declared twice in a group and no
    route twice under a prefix. *)
Theorem loaded_file_checked fs cwd ord name_Format route_Format fuel filename src a :
  load fs cwd ord name_Format route_Format fuel filename src = Ok (inr a) ->
  unambiguous (te_Name <$> declares a) /\ unambiguous (api_importStmt a ≫= import_values) /\ closed a /\ services_ok route_Format a.
Proof.
  unfold load, SelfCheck. destruct (parse_source _ _ _ _) as [[|b]|]; try done. simpl.
  destruct (parseReverse _ _ _ _ _ _) as [[|[c st]]|]; try done. simpl.
  destruct (checkImportStmt c) as [[]|] eqn:E1; try done. simpl. destruct (checkInfoStmt c) as [[]|] eqn:E2; try done. simpl.
  destruct (checkTypeStmt c) as [[]|] eqn:E3; try done. simpl. destruct (checkServiceStmt _ _ c) as [[]|] eqn:E4; try done. simpl.
  destruct (checkTypeDeclareContext c) as [[]|] eqn:E5; try done. simpl. intros [= <-].
  unfold checkImportStmt in E1. destruct (check_nodes _ _) as [b1|] eqn:B1 in E1; [|done]. injection E1 as E1.
  unfold checkTypeStmt in E3. destruct (check_nodes _ _) as [b3|] eqn:B3 in E3; [|done]. injection E3 as E3.
  split; [by eapply check_nodes_spec|]. split; [by eapply check_nodes_spec|].
  split; [by apply checkTypeDeclareContext_spec|by eapply checkServiceStmt_spec].
Qed.

Definition demo_load (fs : text -> option (option (list Z))) (filename : string) (src : source) : res API :=
  load fs (rs "/d") id (fun _ => []) show_route 4 (rs filename) src.

Definition no_name (n : ServiceNameExpr) : text := [].
Lemma loaded_file_checked_witness : exists a, load demo_fs (rs "/d") id no_name show_route 4 (rs "a.api") demo_source = Ok (inr a) /\
  closed a /\ length (declares a) = 3.
Proof.
  destruct (load demo_fs (rs "/d") id no_name show_route 4 (rs "a.api") demo_source) as [[|a]|] eqn:E; [by vm_compute in E| |by vm_compute in E].
  exists a. split; [done|].
  destruct (loaded_file_checked demo_fs (rs "/d") id no_name show_route 4 (rs "a.api") demo_source a E) as (_ & _ & H & _).
  split; [done|]. vm_compute in E. by injection E as <-.
Defined.

(** ** What the checks miss *)

(** The parser accepts a service item without a handler; the check of the services then uses
    the nil handler. *)
Theorem missing_handler_panics : demo_load (fun _ => None) "a.api" (SrcString (rs "service foo { @handler }")) = Panic nil_pointer.
Proof. by vm_compute. Qed.

(** A file of white space has no statements; [convert2API] looks at the first. *)
Theorem blank_file_panics : demo_load (fun _ => None) "a.api" (SrcString (rs "  ")) = Panic "index out of range [0] with length 0".
Proof. by vm_compute. Qed.

(** Positions have the base name of a file only: a type that is declared twice, at the same line
    and column of two files of the same name, is not reported. *)
Theorem same_position_duplicate_missed : exists a t u x y,
  demo_load (fun p => if decide (p = rs "/d/s/a.api") then Some (Some (rs "                 type X { B string }")) else None)
    "a.api" (SrcString (rs "import " ++ quote "s/a.api" ++ rs " type X { A int }")) = Ok (inr a) /\
  declares a = [t; u] /\ te_Name t = Some x /\ te_Name u = Some y /\ Text (NodeToken x) = Text (NodeToken y) /\
  show_type (te_DataType t) <> show_type (te_DataType u).
Proof.
  destruct (demo_load _ _ _) as [[|a]|] eqn:E; [by vm_compute in E| |by vm_compute in E].
  destruct (declares a) as [|t [|u []]] eqn:D; try by (vm_compute in E; injection E as <-; vm_compute in D).
  destruct (te_Name t) as [x|] eqn:X; [|by (vm_compute in E; injection E as <-; vm_compute in D; injection D as <- <-)].
  destruct (te_Name u) as [y|] eqn:Y; [|by (vm_compute in E; injection E as <-; vm_compute in D; injection D as <- <-)].
  exists a, t, u, x, y. do 4 (split; [done|]). vm_compute in E. injection E as <-. vm_compute in D. injection D as <- <-.
  vm_compute in X, Y. injection X as <-. injection Y as <-. by vm_compute.
Qed.

(** The check for several service names compares a name with itself and never fires. *)
Theorem service_name_check_never_fires name_Format route_Format vs names sc hc pc sc' hc' pc' :
  (forall k v, names !! k = Some v -> v = k) ->
  check_services name_Format route_Format vs names sc hc pc = Ok (sc', hc', pc') -> sc' = sc.
Proof.
  revert names hc pc. induction vs as [|v vs IH]; intros names hc pc Hn; cbn [check_services]; [by intros [= <- <- <-]|].
  set (name := TrimSuffix _ _). destruct (names !! name) as [sn|] eqn:E.
  - rewrite decide_False by (intros H; apply H; by apply Hn). cbn [obind].
    destruct (getAtServerValue _ _); [|done]. cbn [obind]. destruct (getAtServerValue _ _); [|done]. cbn [obind].
    destruct (check_items _ _ _ _ _ _) as [[]|]; [|done]. cbn [obind fst snd]. by apply IH.
  - cbn [obind]. destruct (getAtServerValue _ _); [|done]. cbn [obind]. destruct (getAtServerValue _ _); [|done]. cbn [obind].
    destruct (check_items _ _ _ _ _ _) as [[]|]; [|done]. cbn [obind fst snd]. apply IH.
    intros k w. destruct (decide (k = name)) as [->|]; [rewrite lookup_insert_eq; congruence|rewrite lookup_insert_ne by done; apply Hn].
Qed.
