(* ===== verification/MapReduce.v ===== *)
(** * [core/mr/mapreduce.go]: MapReduce

    The goroutines of one call of [MapReduce] - the generator, the loop that starts the mappers,
    the mappers, the reducer and the caller - as threads over shared channels.  A step is one
    channel operation, one atomic operation, or the body of one [sync.Once] of [finish]; an
    operation on an unbuffered channel is a step of both sides.

    The user's functions: the generator sends [items] and returns or panics; the mapper of an
    item writes and cancels, then returns or panics; the reducer is a state machine that reads,
    writes and cancels.  For [MapReduceChan] the generator is whoever sends to the channel and
    closes it. *)

From S2P Require Import Prelude.

Local Open Scope nat_scope.

(** ** The options *)

(** Of a context, what matters is whether it can ever be done: the background context cannot. *)
Record mapReduceOptions := mkOptions { o_ctx : bool; o_workers : Z }.
Variant Option_ := WithContext (ctx : bool) | WithWorkers (workers : Z).

Definition minWorkers : Z := 1.
Definition defaultWorkers : Z := 16.
Definition newOptions : mapReduceOptions := mkOptions false defaultWorkers.
Definition apply_option (o : mapReduceOptions) (opt : Option_) : mapReduceOptions :=
  match opt with
  | WithContext ctx => mkOptions ctx (o_workers o)
  | WithWorkers w => mkOptions (o_ctx o) (if (w <? minWorkers)%Z then minWorkers else w)
  end.
Definition buildOptions (opts : list Option_) : mapReduceOptions := foldl apply_option newOptions opts.

(** ** The threads *)

Section mr.
Context {T U V E R : Type}.

Inductive err := UserErr (e : E) | ErrCancelWithNil | DeadlineExceeded | ErrReduceNoOutput.
Definition cancel_err (e : option E) : err := match e with Some e => UserErr e | None => ErrCancelWithNil end.

Variant mact := MWrite (u : U) | MCancel (e : option E).
Variant ract := RRead (k : option U -> R) | RWrite (v : V) (r : R) | RCancel (e : option E) (r : R) | RReturn | RPanic.

(** What a run is about: the items and whether the generator panics behind them, the mapper and
    whether it panics at its end, the reducer with its first state, and the options. *)
Record job := mkJob {
  items : list T;
  gen_panics : bool;
  mapper : T -> list mact * bool;
  reducer : R -> ract;
  reducer_init : R;
  opts : list Option_
}.

Definition workers (j : job) : nat := Z.to_nat (o_workers (buildOptions (opts j))).
Definition has_deadline (j : job) : bool := o_ctx (buildOptions (opts j)).

(** The generator: sending; recovered; in [panicChan.write]; the source is closed. *)
Variant gthread := GSend (rest : list T) | GRecover | GPanicSend | GClosed.
(** [executeMappers]: at the head of the loop; receiving from the source; in [wg.Wait]; draining the
    source; at its end. *)
Variant ethread := ELoop | ERecv | EWait | EDrain | EEnd.
(** A mapper: before its next action; sending to the collector; draining the source in [cancel];
    recovered; in [panicChan.write]; before [wg.Done]; before it gives its place back; gone. *)
Variant mthread :=
| MRun (acts : list mact) (panics : bool)
| MSend (u : U) (acts : list mact) (panics : bool)
| MCancelling (acts : list mact) (panics : bool)
| MRecover | MPanicSend | MExit | MRelease | MGone.
(** The reducer: before its next action; sending to the output; draining the source in [cancel];
    draining the collector, panicking or not; recovered; in [panicChan.write]; before [finish]. *)
Variant rthread :=
| RRun (r : R) | RSend (v : V) (r : R) | RCancelling (r : R)
| RDrain (panicking : bool) | RRecover | RPanicSend | RFinish | REnd.
(** The caller: in [select]; before [cancel] and in it, the context being done; before it loads the
    error; draining the output before it panics; in the deferred loop with its result; at its end. *)
Variant cthread :=
| CSelect | CCtx | CCtxDrain | CLoad (v : option V) | CDrainOut
| CDefer (res : err + V) | CReturned (res : err + V) | CPanicked.

(** The [sync.Once] of [cancel] *)
Variant once := Unused | Running | Finished.

(** [started] and [got] record the items that were given to mappers, and what the reducer read. *)
Record state := mkState {
  gen : gthread;
  exec : ethread;
  ms : list mthread;
  red : rthread;
  caller : cthread;
  collector : list U;
  closed : bool;
  done : bool;
  cancelled : once;
  retErr : option err;
  wrote : bool;
  failed : nat;
  pool : nat;
  ctx_done : bool;
  started : list T;
  got : list U
}.

Definition init (j : job) : state :=
  mkState (GSend (items j)) ELoop [] (RRun (reducer_init j)) CSelect [] false false Unused None false 0 0 false [] [].

Definition set_gen x s := mkState x (exec s) (ms s) (red s) (caller s) (collector s) (closed s) (done s) (cancelled s) (retErr s) (wrote s) (failed s) (pool s) (ctx_done s) (started s) (got s).
Definition set_exec x s := mkState (gen s) x (ms s) (red s) (caller s) (collector s) (closed s) (done s) (cancelled s) (retErr s) (wrote s) (failed s) (pool s) (ctx_done s) (started s) (got s).
Definition set_m i x s := mkState (gen s) (exec s) (<[i := x]> (ms s)) (red s) (caller s) (collector s) (closed s) (done s) (cancelled s) (retErr s) (wrote s) (failed s) (pool s) (ctx_done s) (started s) (got s).
Definition set_red x s := mkState (gen s) (exec s) (ms s) x (caller s) (collector s) (closed s) (done s) (cancelled s) (retErr s) (wrote s) (failed s) (pool s) (ctx_done s) (started s) (got s).
Definition set_caller x s := mkState (gen s) (exec s) (ms s) (red s) x (collector s) (closed s) (done s) (cancelled s) (retErr s) (wrote s) (failed s) (pool s) (ctx_done s) (started s) (got s).
Definition set_collector x s := mkState (gen s) (exec s) (ms s) (red s) (caller s) x (closed s) (done s) (cancelled s) (retErr s) (wrote s) (failed s) (pool s) (ctx_done s) (started s) (got s).
Definition close_collector s := mkState (gen s) (exec s) (ms s) (red s) (caller s) (collector s) true (done s) (cancelled s) (retErr s) (wrote s) (failed s) (pool s) (ctx_done s) (started s) (got s).
(** [finish]: [done] and the output are closed, once; no step of another thread tells the two apart. *)
Definition finish s := mkState (gen s) (exec s) (ms s) (red s) (caller s) (collector s) (closed s) true (cancelled s) (retErr s) (wrote s) (failed s) (pool s) (ctx_done s) (started s) (got s).
(** [cancel] begins: the error is set, then the source is drained; it ends with [finish]. *)
Definition begin_cancel e s := mkState (gen s) (exec s) (ms s) (red s) (caller s) (collector s) (closed s) (done s) Running (Some e) (wrote s) (failed s) (pool s) (ctx_done s) (started s) (got s).
Definition end_cancel s := mkState (gen s) (exec s) (ms s) (red s) (caller s) (collector s) (closed s) true Finished (retErr s) (wrote s) (failed s) (pool s) (ctx_done s) (started s) (got s).
Definition set_wrote s := mkState (gen s) (exec s) (ms s) (red s) (caller s) (collector s) (closed s) (done s) (cancelled s) (retErr s) true (failed s) (pool s) (ctx_done s) (started s) (got s).
Definition add_failed s := mkState (gen s) (exec s) (ms s) (red s) (caller s) (collector s) (closed s) (done s) (cancelled s) (retErr s) (wrote s) (S (failed s)) (pool s) (ctx_done s) (started s) (got s).
Definition set_pool x s := mkState (gen s) (exec s) (ms s) (red s) (caller s) (collector s) (closed s) (done s) (cancelled s) (retErr s) (wrote s) (failed s) x (ctx_done s) (started s) (got s).
Definition end_ctx s := mkState (gen s) (exec s) (ms s) (red s) (caller s) (collector s) (closed s) (done s) (cancelled s) (retErr s) (wrote s) (failed s) (pool s) true (started s) (got s).
Definition start_mapper x th s := mkState (gen s) (exec s) (ms s ++ [th]) (red s) (caller s) (collector s) (closed s) (done s) (cancelled s) (retErr s) (wrote s) (failed s) (pool s) (ctx_done s) (started s ++ [x]) (got s).
Definition read u s := mkState (gen s) (exec s) (ms s) (red s) (caller s) (collector s) (closed s) (done s) (cancelled s) (retErr s) (wrote s) (failed s) (pool s) (ctx_done s) (started s) (got s ++ [u]).

(** [wg.Done] was called. *)
Definition finished (th : mthread) : bool := match th with MRelease | MGone => true | _ => false end.
(** What the caller makes of a receive from the output: of an element, or of its end *)
Definition result_of (s : state) (v : option V) : err + V :=
  match retErr s, v with Some e, _ => inl e | None, Some v => inr v | None, None => inl ErrReduceNoOutput end.
(** [guardedWriter.Write] gives up. *)
Definition stopped (s : state) : bool := ctx_done s || done s.

Section steps.
Context (j : job).

(** The owner of [cancel] drains the source. *)
Inductive drain_source (s : state) : state -> Prop :=
| d_item x rest : gen s = GSend (x :: rest) -> drain_source s (set_gen (GSend rest) s).

Inductive gen_step (s : state) : state -> Prop :=
| g_close : gen s = GSend [] -> gen_panics j = false -> gen_step s (set_gen GClosed s)
| g_panic : gen s = GSend [] -> gen_panics j = true -> gen_step s (set_gen GRecover s)
| g_write : gen s = GRecover -> wrote s = false -> gen_step s (set_gen GPanicSend (set_wrote s))
| g_skip : gen s = GRecover -> wrote s = true -> gen_step s (set_gen GClosed s)
| g_sent : gen s = GPanicSend -> caller s = CSelect -> gen_step s (set_gen GClosed (set_caller CDrainOut s)).

Inductive exec_step (s : state) : state -> Prop :=
| e_failed : exec s = ELoop -> 0 < failed s -> exec_step s (set_exec EWait s)
| e_ctx : exec s = ELoop -> failed s = 0 -> ctx_done s = true -> exec_step s (set_exec EWait s)
| e_done : exec s = ELoop -> failed s = 0 -> done s = true -> exec_step s (set_exec EWait s)
| e_pool : exec s = ELoop -> failed s = 0 -> pool s < workers j -> exec_step s (set_exec ERecv (set_pool (S (pool s)) s))
| e_start x rest : exec s = ERecv -> gen s = GSend (x :: rest) ->
    exec_step s (set_exec ELoop (set_gen (GSend rest) (start_mapper x (MRun (mapper j x).1 (mapper j x).2) s)))
| e_over : exec s = ERecv -> gen s = GClosed -> exec_step s (set_exec EWait (set_pool (pred (pool s)) s))
| e_close : exec s = EWait -> forallb finished (ms s) = true -> exec_step s (set_exec EDrain (close_collector s))
| e_drain s' : exec s = EDrain -> drain_source s s' -> exec_step s s'
| e_end : exec s = EDrain -> gen s = GClosed -> exec_step s (set_exec EEnd s).

Inductive mapper_step (s : state) (i : nat) : state -> Prop :=
| m_skip u acts b : ms s !! i = Some (MRun (MWrite u :: acts) b) -> stopped s = true -> mapper_step s i (set_m i (MRun acts b) s)
| m_write u acts b : ms s !! i = Some (MRun (MWrite u :: acts) b) -> stopped s = false -> mapper_step s i (set_m i (MSend u acts b) s)
| m_sent u acts b : ms s !! i = Some (MSend u acts b) -> closed s = false -> length (collector s) < workers j ->
    mapper_step s i (set_m i (MRun acts b) (set_collector (collector s ++ [u]) s))
| m_closed u acts b : ms s !! i = Some (MSend u acts b) -> closed s = true -> mapper_step s i (set_m i MRecover s)
| m_cancel e acts b : ms s !! i = Some (MRun (MCancel e :: acts) b) -> cancelled s = Unused ->
    mapper_step s i (set_m i (MCancelling acts b) (begin_cancel (cancel_err e) s))
| m_cancelled e acts b : ms s !! i = Some (MRun (MCancel e :: acts) b) -> cancelled s = Finished -> mapper_step s i (set_m i (MRun acts b) s)
| m_drain acts b s' : ms s !! i = Some (MCancelling acts b) -> drain_source s s' -> mapper_step s i s'
| m_finish acts b : ms s !! i = Some (MCancelling acts b) -> gen s = GClosed -> mapper_step s i (set_m i (MRun acts b) (end_cancel s))
| m_panic : ms s !! i = Some (MRun [] true) -> mapper_step s i (set_m i MRecover s)
| m_return : ms s !! i = Some (MRun [] false) -> mapper_step s i (set_m i MExit s)
| m_report : ms s !! i = Some MRecover -> wrote s = false -> mapper_step s i (set_m i MPanicSend (set_wrote (add_failed s)))
| m_no_report : ms s !! i = Some MRecover -> wrote s = true -> mapper_step s i (set_m i MExit (add_failed s))
| m_reported : ms s !! i = Some MPanicSend -> caller s = CSelect -> mapper_step s i (set_m i MExit (set_caller CDrainOut s))
| m_done : ms s !! i = Some MExit -> mapper_step s i (set_m i MRelease s)
| m_release : ms s !! i = Some MRelease -> mapper_step s i (set_m i MGone (set_pool (pred (pool s)) s)).

Inductive reducer_step (s : state) : state -> Prop :=
| r_read r k u rest : red s = RRun r -> reducer j r = RRead k -> collector s = u :: rest ->
    reducer_step s (set_red (RRun (k (Some u))) (read u (set_collector rest s)))
| r_closed r k : red s = RRun r -> reducer j r = RRead k -> collector s = [] -> closed s = true ->
    reducer_step s (set_red (RRun (k None)) s)
| r_skip r v r' : red s = RRun r -> reducer j r = RWrite v r' -> stopped s = true -> reducer_step s (set_red (RRun r') s)
| r_write r v r' : red s = RRun r -> reducer j r = RWrite v r' -> stopped s = false -> reducer_step s (set_red (RSend v r') s)
| r_sent v r : red s = RSend v r -> done s = false -> caller s = CSelect ->
    reducer_step s (set_red (RRun r) (set_caller (CLoad (Some v)) s))
| r_sent_again v r res : red s = RSend v r -> done s = false -> caller s = CDefer res ->
    reducer_step s (set_red (RRun r) (set_caller CPanicked s))
| r_sent_drain v r : red s = RSend v r -> done s = false -> caller s = CDrainOut -> reducer_step s (set_red (RRun r) s)
| r_send_closed v r : red s = RSend v r -> done s = true -> reducer_step s (set_red (RDrain true) s)
| r_cancel r e r' : red s = RRun r -> reducer j r = RCancel e r' -> cancelled s = Unused ->
    reducer_step s (set_red (RCancelling r') (begin_cancel (cancel_err e) s))
| r_cancelled r e r' : red s = RRun r -> reducer j r = RCancel e r' -> cancelled s = Finished -> reducer_step s (set_red (RRun r') s)
| r_drain_source r s' : red s = RCancelling r -> drain_source s s' -> reducer_step s s'
| r_finish r : red s = RCancelling r -> gen s = GClosed -> reducer_step s (set_red (RRun r) (end_cancel s))
| r_return r : red s = RRun r -> reducer j r = RReturn -> reducer_step s (set_red (RDrain false) s)
| r_panic r : red s = RRun r -> reducer j r = RPanic -> reducer_step s (set_red (RDrain true) s)
| r_drain p u rest : red s = RDrain p -> collector s = u :: rest -> reducer_step s (set_collector rest s)
| r_drained p : red s = RDrain p -> collector s = [] -> closed s = true -> reducer_step s (set_red (if p then RRecover else RFinish) s)
| r_report : red s = RRecover -> wrote s = false -> reducer_step s (set_red RPanicSend (set_wrote s))
| r_no_report : red s = RRecover -> wrote s = true -> reducer_step s (set_red RFinish s)
| r_reported : red s = RPanicSend -> caller s = CSelect -> reducer_step s (set_red RFinish (set_caller CDrainOut s))
| r_end : red s = RFinish -> reducer_step s (set_red REnd (finish s)).

Inductive caller_step (s : state) : state -> Prop :=
| c_ctx : caller s = CSelect -> ctx_done s = true -> caller_step s (set_caller CCtx s)
| c_cancel : caller s = CCtx -> cancelled s = Unused -> caller_step s (set_caller CCtxDrain (begin_cancel DeadlineExceeded s))
| c_cancelled : caller s = CCtx -> cancelled s = Finished -> caller_step s (set_caller (CDefer (inl DeadlineExceeded)) s)
| c_drain s' : caller s = CCtxDrain -> drain_source s s' -> caller_step s s'
| c_finish : caller s = CCtxDrain -> gen s = GClosed -> caller_step s (set_caller (CDefer (inl DeadlineExceeded)) (end_cancel s))
| c_closed : caller s = CSelect -> done s = true -> caller_step s (set_caller (CLoad None) s)
| c_load v : caller s = CLoad v -> caller_step s (set_caller (CDefer (result_of s v)) s)
| c_return res : caller s = CDefer res -> done s = true -> caller_step s (set_caller (CReturned res) s)
| c_panic : caller s = CDrainOut -> done s = true -> caller_step s (set_caller CPanicked s).

Inductive step (s : state) : state -> Prop :=
| s_gen s' : gen_step s s' -> step s s'
| s_exec s' : exec_step s s' -> step s s'
| s_mapper i s' : mapper_step s i s' -> step s s'
| s_reducer s' : reducer_step s s' -> step s s'
| s_caller s' : caller_step s s' -> step s s'
| s_deadline : has_deadline j = true -> ctx_done s = false -> step s (end_ctx s).

Definition reached (s : state) : Prop := rtc step (init j) s.

(** [ForEach] has the same generator and the same mappers, which never write nor cancel; there is no
    reducer, and the caller waits for a panic or for the end of the collector. *)
Inductive foreach_caller_step (s : state) : state -> Prop :=
| f_return : caller s = CSelect -> closed s = true -> foreach_caller_step s (set_caller (CReturned (inl ErrReduceNoOutput)) s)
| f_panic : caller s = CDrainOut -> foreach_caller_step s (set_caller CPanicked s).

Inductive foreach_step (s : state) : state -> Prop :=
| fs_gen s' : gen_step s s' -> foreach_step s s'
| fs_exec s' : exec_step s s' -> foreach_step s s'
| fs_mapper i s' : mapper_step s i s' -> foreach_step s s'
| fs_caller s' : foreach_caller_step s s' -> foreach_step s s'
| fs_deadline : has_deadline j = true -> ctx_done s = false -> foreach_step s (end_ctx s).

Definition foreach_reached (s : state) : Prop := rtc foreach_step (init j) s.
End steps.
End mr.

(** ** The calls built on it *)

(** [MapReduceVoid]: what the caller of [MapReduce] returned, less [ErrReduceNoOutput].  The errors of
    the user's functions are opaque; [is_no_output] is [errors.Is(err, ErrReduceNoOutput)] on them. *)
Definition MapReduceVoid {V E} (is_no_output : E -> bool) (r : @err E + V) : option (@err E) :=
  match r with
  | inr _ | inl ErrReduceNoOutput => None
  | inl (UserErr e) => if is_no_output e then None else Some (UserErr e)
  | inl e => Some e
  end.

(** What a function given to [Finish] does *)
Variant fn_result {E} := FnOk | FnErr (e : E) | FnPanic.

Definition Finish_mapper {E} (fn : @fn_result E) : list (@mact unit E) * bool :=
  match fn with FnOk => ([], false) | FnErr e => ([MCancel (Some e)], false) | FnPanic => ([], true) end.
Definition Finish {E} (fns : list (@fn_result E)) : @job fn_result unit unit E unit :=
  mkJob fns false Finish_mapper (fun _ => RReturn) tt [WithWorkers (Z.of_nat (length fns))].
(** What [Finish] returns, given how the run of its job ends *)
Inductive Finish_returns {E} (is_no_output : E -> bool) (fns : list (@fn_result E)) : option (@err E) -> Prop :=
| finish_empty : fns = [] -> Finish_returns is_no_output fns None
| finish_run s res : fns <> [] -> reached (Finish fns) s -> caller s = CReturned res ->
    Finish_returns is_no_output fns (MapReduceVoid is_no_output res).

Definition ForEach {T} (items : list T) (gen_panics : bool) (panics : T -> bool) (opts : list Option_) : @job T unit unit Empty_set unit :=
  mkJob items gen_panics (fun x => ([], panics x)) (fun _ => RReturn) tt opts.
(** A function given to [FinishVoid] returns or panics. *)
Definition FinishVoid (fns : list bool) : @job bool unit unit Empty_set unit :=
  ForEach fns false id [WithWorkers (Z.of_nat (length fns))].
