(* ===== verification/MapReduceInv.v ===== *)
(** * The invariants of [MapReduce] and [ForEach]

    What holds in every state that the threads of [MapReduce.v] reach: the places of the pool, the
    one owner of [cancel], when the collector and the output are closed, and what becomes of the
    items and of what the mappers write. *)

From S2P Require Import Prelude MapReduce.
Local Open Scope nat_scope.

(** ** All the steps *)

(** The steps of [MapReduce] and those of [ForEach] *)
Variant any_step {T U V E R} (j : @job T U V E R) (s s' : @state T U V E R) : Prop :=
| a_step : step j s s' -> any_step j s s'
| a_foreach : foreach_caller_step s s' -> any_step j s s'.

Definition attained {T U V E R} (j : @job T U V E R) (s : state) : Prop := rtc (any_step j) (init j) s.

Lemma reached_attained {T U V E R} (j : @job T U V E R) s : reached j s -> attained j s.
Proof. apply rtc_subrel. intros ??. apply a_step. Qed.

Lemma foreach_attained {T U V E R} (j : @job T U V E R) s : foreach_reached j s -> attained j s.
Proof.
  apply rtc_subrel. intros x y []; try by apply a_foreach.
  - by apply a_step, s_gen.
  - by apply a_step, s_exec.
  - by eapply a_step, s_mapper.
  - by apply a_step, s_deadline.
Qed.

(** Every step of every thread, one goal each *)
Ltac mr_cases H :=
  destruct H as [? H|? H|? ? H|? H|? H|Hdl Hnd]; try (destruct H);
  repeat match goal with D : drain_source _ _ |- _ => destruct D end.
Ltac step_cases H := destruct H as [H|H]; [mr_cases H|destruct H].

(** An invariant of the initial state that the steps keep, given what is known already *)
Lemma attained_ind' {T U V E R} (j : @job T U V E R) (Q P : state -> Prop) :
  (forall s, attained j s -> Q s) -> P (init j) ->
  (forall s s', Q s -> P s -> any_step j s s' -> P s') -> forall s, attained j s -> P s.
Proof.
  intros HQ H0 Hs s. unfold attained. revert s. apply rtc_ind_r; [done|]. eauto.
Qed.

Section inv.
Context {T U V E R : Type} (j : @job T U V E R).

Lemma workers_pos : 0 < workers j.
Proof.
  unfold workers, buildOptions.
  enough (1 <= o_workers (foldl apply_option newOptions (opts j)))%Z by lia.
  assert (1 <= o_workers newOptions)%Z as H by done. revert H. generalize newOptions.
  induction (opts j) as [|[c|w] l IH]; simpl; intros o H; [done|by apply IH|].
  apply IH. simpl. unfold minWorkers. case_match; lia.
Qed.

(** Who has a place of the pool, and who is in [cancel] *)
Definition live (th : @mthread U E) : nat := match th with MGone => 0 | _ => 1 end.
Definition held (e : ethread) : nat := match e with ERecv => 1 | _ => 0 end.
Definition cancelling (th : @mthread U E) : nat := match th with MCancelling _ _ => 1 | _ => 0 end.
Definition rcancelling (r : @rthread V R) : nat := match r with RCancelling _ => 1 | _ => 0 end.
Definition ccancelling (c : @cthread V E) : nat := match c with CCtxDrain => 1 | _ => 0 end.

Record inv (s : @state T U V E R) : Prop := {
  i_pool : pool s = sum_list_with live (ms s) + held (exec s);
  i_bound : pool s <= workers j;
  i_room : length (collector s) <= workers j;
  i_closed : closed s = match exec s with EDrain | EEnd => true | _ => false end;
  i_all : closed s = true -> forall i th, ms s !! i = Some th -> finished th = true;
  i_once : sum_list_with cancelling (ms s) + rcancelling (red s) + ccancelling (caller s)
           = match cancelled s with Running => 1 | _ => 0 end;
  i_done : done s = true <-> cancelled s = Finished \/ red s = REnd;
  i_err : retErr s = None <-> cancelled s = Unused;
  i_last : match red s with RRecover | RPanicSend | RFinish | REnd => closed s = true | _ => True end;
  i_failed : 0 < failed s -> wrote s = true
}.

Lemma inv_init : inv (init j).
Proof. by split; simpl; (lia || intros; simplify_eq/= || naive_solver lia). Qed.

(** A step seen on the fields *)
Ltac fields H := step_cases H; match goal with s : state |- _ => destruct s end; simpl in *; simplify_eq/=; try done.

Lemma pool_step s s' : inv s -> any_step j s s' ->
  pool s' = sum_list_with live (ms s') + held (exec s') /\ pool s' <= workers j.
Proof. intros I H. pose proof (i_pool s I). pose proof (i_bound s I). clear I. fields H; counted; lia. Qed.

Lemma room_step s s' : inv s -> any_step j s s' -> length (collector s') <= workers j.
Proof. intros I H. pose proof (i_room s I). clear I. fields H; rewrite ?length_app; simpl in *; lia. Qed.

Lemma closed_step s s' : inv s -> any_step j s s' ->
  closed s' = match exec s' with EDrain | EEnd => true | _ => false end.
Proof. intros I H. pose proof (i_closed s I). clear I. by fields H. Qed.

Lemma all_step s s' : inv s -> any_step j s s' ->
  closed s' = true -> forall i th, ms s' !! i = Some th -> finished th = true.
Proof.
  intros I H. pose proof (i_closed s I) as Hc. pose proof (i_all s I) as Ha. clear I.
  fields H; intros Hcl k th Hk; try by eapply Ha.
  all: try (apply lookup_insert_cases in Hk as [[-> ->]|Hk]; [|by eapply Ha]).
  all: try by match goal with H : _ !! _ = Some _ |- _ => specialize (Ha Hcl _ _ H) end.
  by eapply forallb_lookup.
Qed.

Lemma once_step s s' : inv s -> any_step j s s' ->
  sum_list_with cancelling (ms s') + rcancelling (red s') + ccancelling (caller s')
  = match cancelled s' with Running => 1 | _ => 0 end.
Proof. intros I H. pose proof (i_once s I). clear I. fields H; counted; repeat case_match; simplify_eq/=; lia. Qed.

Lemma done_step s s' : inv s -> any_step j s s' -> done s' = true <-> cancelled s' = Finished \/ red s' = REnd.
Proof. intros I H. pose proof (i_done s I). clear I. fields H; repeat case_match; naive_solver. Qed.

Lemma err_step s s' : inv s -> any_step j s s' -> retErr s' = None <-> cancelled s' = Unused.
Proof.
  intros I H. pose proof (i_err s I). pose proof (i_once s I). clear I.
  fields H; try (match goal with H : _ !! _ = Some _ |- _ => apply (sum_list_with_lookup cancelling) in H end);
    simpl in *; destruct cancelled; naive_solver lia.
Qed.

Lemma last_step s s' : inv s -> any_step j s s' ->
  match red s' with RRecover | RPanicSend | RFinish | REnd => closed s' = true | _ => True end.
Proof. intros I H. pose proof (i_last s I). clear I. fields H; by repeat case_match. Qed.

Lemma failed_step s s' : inv s -> any_step j s s' -> 0 < failed s' -> wrote s' = true.
Proof. intros I H. pose proof (i_failed s I). clear I. fields H; eauto. Qed.

Lemma inv_attained s : attained j s -> inv s.
Proof.
  apply (attained_ind' j (fun _ => True)); [done|apply inv_init|]. intros x y _ I H.
  destruct (pool_step x y I H). split; [done|done|..].
  - by apply (room_step x).
  - by apply (closed_step x).
  - by apply (all_step x).
  - by apply (once_step x).
  - by apply (done_step x).
  - by apply (err_step x).
  - by apply (last_step x).
  - by apply (failed_step x).
Qed.

(** The owner of [cancel] has set the error. *)
Lemma owner_unclean s : inv s ->
  0 < sum_list_with cancelling (ms s) + rcancelling (red s) + ccancelling (caller s) -> retErr s <> None.
Proof. intros I H Hn. apply (i_err s I) in Hn. rewrite (i_once s I), Hn in H. lia. Qed.

(** ** What becomes of the items and of what the mappers write *)

Definition rest_of (g : @gthread T) : list T := match g with GSend rest => rest | _ => [] end.
Definition sends (g : @gthread T) : Prop := match g with GSend _ => True | _ => False end.
Definition writes (acts : list (@mact U E)) : list U := omap (fun a => match a with MWrite u => Some u | MCancel _ => None end) acts.
Definition cancels (acts : list (@mact U E)) : list (option E) := omap (fun a => match a with MCancel e => Some e | MWrite _ => None end) acts.
(** What a mapper has yet to do *)
Definition left_of (th : @mthread U E) : list mact :=
  match th with MRun acts _ | MCancelling acts _ => acts | MSend u acts _ => MWrite u :: acts | _ => [] end.
Definition pending (th : @mthread U E) : list U := writes (left_of th).
Definition reporting (th : @mthread U E) : nat := match th with MPanicSend => 1 | _ => 0 end.
Definition reads (r : @rthread V R) : Prop := match r with RRun _ | RSend _ _ | RCancelling _ => True | _ => False end.
(** All that the mappers of the items write *)
Definition all_writes (l : list T) : list U := l ≫= (fun x => writes (mapper j x).1).

(** Nothing has made the run stop: no error is set, the context is not done, no panic was received. *)
Definition clean (s : @state T U V E R) : Prop :=
  retErr s = None /\ ctx_done s = false /\ caller s <> CDrainOut /\ caller s <> CPanicked.

Lemma clean_step s s' : any_step j s s' -> clean s' -> clean s.
Proof. intros H C. unfold clean in *. fields H; naive_solver. Qed.

Record kept (s : @state T U V E R) : Prop := {
  k_report : clean s -> wrote s = true -> closed s = false -> sends (gen s) -> 0 < sum_list_with reporting (ms s);
  k_wait : clean s -> exec s = EWait -> sends (gen s) -> 0 < failed s;
  k_end : clean s -> closed s = true -> ~ sends (gen s);
  k_items : clean s -> started s ++ rest_of (gen s) = items j;
  k_writes : clean s -> reads (red s) -> got s ++ collector s ++ (ms s ≫= pending) ≡ₚ all_writes (started s);
  k_threads : length (started s) = length (ms s);
  k_cancels : retErr s = None -> forall i x th, started s !! i = Some x -> ms s !! i = Some th ->
    cancels (left_of th) = cancels (mapper j x).1
}.

(** With no error set, only the reducer's end closes the output. *)
Lemma done_ended s : inv s -> retErr s = None -> done s = true -> red s = REnd /\ closed s = true.
Proof.
  intros I Hn Hd. apply (i_err s I) in Hn. pose proof (i_last s I) as Hl.
  apply (i_done s I) in Hd as [Hd|Hd]; [congruence|]. by rewrite Hd in *.
Qed.

Lemma report_step s s' : inv s -> kept s -> any_step j s s' ->
  clean s' -> wrote s' = true -> closed s' = false -> sends (gen s') -> 0 < sum_list_with reporting (ms s').
Proof.
  intros I K H C. pose proof (k_report s K (clean_step s s' H C)) as Hr. pose proof (i_last s I) as Hl.
  clear I K. unfold clean in C. fields H; counted; naive_solver lia.
Qed.

Lemma wait_step s s' : inv s -> kept s -> any_step j s s' ->
  clean s' -> exec s' = EWait -> sends (gen s') -> 0 < failed s'.
Proof.
  intros I K H C. destruct (clean_step s s' H C) as (Hn & Hc & C').
  pose proof (k_wait s K (conj Hn (conj Hc C'))) as Hr. pose proof (done_ended s I Hn) as Hd.
  pose proof (i_closed s I) as Hcl. clear I K C C'. fields H; naive_solver lia.
Qed.

Lemma end_step s s' : inv s -> kept s -> any_step j s s' -> clean s' -> closed s' = true -> ~ sends (gen s').
Proof.
  intros I K H C. pose proof (clean_step s s' H C) as C'. pose proof (k_end s K C') as Hr.
  pose proof (k_wait s K C') as Hw. pose proof (k_report s K C') as Hp.
  pose proof (i_failed s I) as Hf. pose proof (i_closed s I) as Hcl. clear I K C C'.
  fields H; [by intros ? []..|]. intros _ Hs.
  destruct (sum_list_with_pos reporting ms) as (i & th & Hi & Ht); [by eauto|].
  apply (forallb_lookup _ _ _ _ H0) in Hi. destruct th; simpl in *; (done || lia).
Qed.

Lemma items_step s s' : inv s -> kept s -> any_step j s s' -> clean s' -> started s' ++ rest_of (gen s') = items j.
Proof.
  intros I K H C. pose proof (clean_step s s' H C) as C'. pose proof (k_items s K C') as Hr.
  pose proof (k_end s K C') as He. pose proof (owner_unclean s I) as Ho. pose proof (i_closed s I) as Hcl.
  destruct C' as [Hn _]. clear I K C. fields H; [by rewrite <- app_assoc|naive_solver|..].
  all: exfalso; apply Ho; [|done]; simpl; try lia.
  match goal with H : _ !! _ = Some _ |- _ => apply (sum_list_with_lookup cancelling) in H end. simpl in *. lia.
Qed.

Lemma threads_step s s' : kept s -> any_step j s s' -> length (started s') = length (ms s').
Proof. intros K H. pose proof (k_threads s K). clear K. fields H; rewrite ?length_insert, ?length_app; simpl; lia. Qed.

Lemma all_writes_app l l' : all_writes (l ++ l') = all_writes l ++ all_writes l'.
Proof. apply bind_app. Qed.

(** A mapper moves and leaves [us] behind. *)
Lemma pending_moved (l : list mthread) i th th' us :
  l !! i = Some th -> pending th = us ++ pending th' -> us ++ (<[i := th']> l ≫= pending) ≡ₚ l ≫= pending.
Proof.
  intros Hi He. pose proof (bind_insert_perm pending l i th th' Hi) as Hp. rewrite He in Hp.
  apply (Permutation_app_inv_r (pending th')). rewrite <- Hp. solve_Permutation.
Qed.

Lemma writes_step s s' : inv s -> kept s -> any_step j s s' -> clean s' -> reads (red s') ->
  got s' ++ collector s' ++ (ms s' ≫= pending) ≡ₚ all_writes (started s').
Proof.
  intros I K H C. pose proof (clean_step s s' H C) as C'. pose proof (k_writes s K C') as Hr.
  destruct C' as (Hn & Hc & _). pose proof (done_ended s I Hn) as Hd. pose proof (i_all s I) as Ha.
  clear I K C. unfold stopped in *. fields H; intros Hrd; try specialize (Hr Hrd).
  all: try by match goal with H : _ !! ?i = Some ?th |- context [<[?i := ?th']> ?l] =>
         rewrite <- Hr, <- (pending_moved l i th th' [] H eq_refl) end.
  - rewrite all_writes_app, <- Hr, bind_app, <- !app_assoc. by repeat f_equiv.
  - destruct Hd as [-> _]; done.
  - rewrite <- Hr, <- (pending_moved _ _ _ (MRun acts b) [u] H eq_refl). by rewrite <- !app_assoc.
  - by specialize (Ha eq_refl _ _ H).
  - rewrite <- Hr by done. by rewrite <- !app_assoc.
  - by destruct p.
Qed.

Lemma cancels_step s s' : inv s -> kept s -> any_step j s s' -> retErr s' = None ->
  forall i x th, started s' !! i = Some x -> ms s' !! i = Some th -> cancels (left_of th) = cancels (mapper j x).1.
Proof.
  intros I K H. pose proof (k_cancels s K) as Hr. pose proof (i_all s I) as Ha. pose proof (i_err s I) as He.
  pose proof (k_threads s K) as Hl. clear I K.
  fields H; intros Hn k y th Hy Hk; try (apply lookup_insert_cases in Hk as [[-> ->]|Hk]; [|by eauto]).
  all: try by match goal with H : _ !! ?i = Some _, Hy : _ !! ?i = Some ?z |- _ => rewrite <- (Hr Hn _ z _ Hy H) end.
  - destruct (lookup_both_snoc _ _ _ _ _ _ _ Hl Hy Hk) as [[? ?]|[-> ->]]; [by eapply Hr|done].
  - by specialize (Ha eq_refl _ _ H).
  - by apply He in Hn.
Qed.

Lemma kept_attained s : attained j s -> kept s.
Proof.
  apply (attained_ind' j inv); [apply inv_attained| |].
  - split; simpl; intros; simplify_eq/=; try done. 
  - intros x y I K H. split.
    + by apply (report_step x).
    + by apply (wait_step x).
    + by apply (end_step x).
    + by apply (items_step x).
    + by apply (writes_step x).
    + by apply (threads_step x).
    + by apply (cancels_step x).
Qed.

(** ** The ends of the run *)

(** When the collector was closed and nothing made the run stop, every item had its mapper. *)
Lemma closed_items s : attained j s -> clean s -> closed s = true -> started s = items j.
Proof.
  intros A C Hc. pose proof (kept_attained s A) as K. rewrite <- (k_items s K C).
  pose proof (k_end s K C Hc). destruct (gen s); simpl in *; [done|by rewrite app_nil_r..].
Qed.

(** ... and the reducer has read, or will read, all that the mappers write. *)
Lemma closed_writes s : attained j s -> clean s -> closed s = true -> reads (red s) ->
  got s ++ collector s ≡ₚ all_writes (items j).
Proof.
  intros A C Hc Hr. pose proof (k_writes s (kept_attained s A) C Hr) as Hw.
  rewrite <- (closed_items s A C Hc), <- Hw. f_equiv. rewrite <- (app_nil_r (collector s)) at 1. f_equiv.
  pose proof (i_all s (inv_attained s A) Hc) as Ha. clear Hw. revert Ha. generalize (ms s).
  intros l. induction l as [|th l IH]; intros Ha; [done|]. simpl.
  rewrite <- IH; [|intros i; apply (Ha (S i))]. pose proof (Ha 0 th eq_refl). by destruct th.
Qed.

(** ... and no mapper has cancelled. *)
Lemma closed_cancels s : attained j s -> retErr s = None -> closed s = true ->
  forall x, x ∈ started s -> cancels (mapper j x).1 = [].
Proof.
  intros A Hn Hc x [i Hi]%list_elem_of_lookup. pose proof (kept_attained s A) as K.
  destruct (lookup_lt_is_Some_2 (ms s) i) as [th Ht].
  { rewrite <- (k_threads s K). by eapply lookup_lt_Some. }
  rewrite <- (k_cancels s K Hn i x th Hi Ht).
  pose proof (i_all s (inv_attained s A) Hc i th Ht). by destruct th.
Qed.

(** ** Where errors and panics come from *)

(** The mapper has yet to panic. *)
Definition to_panic (th : @mthread U E) : bool :=
  match th with MRun _ b | MSend _ _ b | MCancelling _ b => b | MRecover => true | _ => false end.
(** Where an error comes from: it was given to [cancel], or the context is done. *)
Definition by_cancel (e : option E) : Prop :=
  (exists x, x ∈ items j /\ e ∈ cancels (mapper j x).1) \/ exists r r', reducer j r = RCancel e r'.
Definition caused (s : @state T U V E R) (e : err) : Prop :=
  match e with
  | UserErr e => by_cancel (Some e)
  | ErrCancelWithNil => by_cancel None
  | DeadlineExceeded => ctx_done s = true
  | ErrReduceNoOutput => False
  end.

Record traced (s : @state T U V E R) : Prop := {
  t_wrote : clean s -> wrote s = true -> gen s = GPanicSend \/ red s = RPanicSend \/ 0 < sum_list_with reporting (ms s);
  t_panics : failed s = 0 -> forall i x th, started s !! i = Some x -> ms s !! i = Some th -> to_panic th = (mapper j x).2;
  t_items : forall x, x ∈ started s ++ rest_of (gen s) -> x ∈ items j;
  t_left : forall i x th e, started s !! i = Some x -> ms s !! i = Some th -> e ∈ cancels (left_of th) -> e ∈ cancels (mapper j x).1;
  t_ctx : match caller s with CCtx | CCtxDrain => ctx_done s = true | _ => True end;
  t_err : forall e, retErr s = Some e -> caused s e
}.

Lemma wrote_step s s' : traced s -> any_step j s s' -> clean s' -> wrote s' = true ->
  gen s' = GPanicSend \/ red s' = RPanicSend \/ 0 < sum_list_with reporting (ms s').
Proof.
  intros K H C. pose proof (t_wrote s K (clean_step s s' H C)) as Hr. clear K. unfold clean in C. fields H; counted;
    repeat case_match; intuition (congruence || lia).
Qed.

Lemma panics_step s s' : inv s -> kept s -> traced s -> any_step j s s' -> failed s' = 0 ->
  forall i x th, started s' !! i = Some x -> ms s' !! i = Some th -> to_panic th = (mapper j x).2.
Proof.
  intros I K Tr H. pose proof (t_panics s Tr) as Hr. pose proof (i_all s I) as Ha. pose proof (k_threads s K) as Hl. clear I K Tr.
  fields H; intros Hn k y th Hy Hk; try (apply lookup_insert_cases in Hk as [[-> ->]|Hk]; [|by eauto]).
  all: try by match goal with H : _ !! ?i = Some _, Hy : _ !! ?i = Some ?z |- _ => rewrite <- (Hr Hn _ z _ Hy H) end.
  - destruct (lookup_both_snoc _ _ _ _ _ _ _ Hl Hy Hk) as [[? ?]|[-> ->]]; [by eapply Hr|done].
  - by specialize (Ha eq_refl _ _ H).
Qed.

Lemma traced_items_step s s' : traced s -> any_step j s s' ->
  forall x, x ∈ started s' ++ rest_of (gen s') -> x ∈ items j.
Proof.
  intros K H. pose proof (t_items s K) as Hr. clear K. fields H; set_solver.
Qed.

Lemma left_step s s' : kept s -> traced s -> any_step j s s' ->
  forall i x th e, started s' !! i = Some x -> ms s' !! i = Some th -> e ∈ cancels (left_of th) -> e ∈ cancels (mapper j x).1.
Proof.
  intros K Tr H. pose proof (t_left s Tr) as Hr. pose proof (k_threads s K) as Hl. clear K Tr.
  fields H; intros k y th e' Hy Hk He'; try (apply lookup_insert_cases in Hk as [[-> ->]|Hk]; [|by eauto]).
  all: try by match goal with H : _ !! ?i = Some _, Hy : _ !! ?i = Some ?z |- _ => apply (Hr _ z _ _ Hy H); simpl; set_solver end.
  destruct (lookup_both_snoc _ _ _ _ _ _ _ Hl Hy Hk) as [[? ?]|[-> ->]]; [by eapply Hr|done].
Qed.

Lemma ctx_step s s' : traced s -> any_step j s s' ->
  match caller s' with CCtx | CCtxDrain => ctx_done s' = true | _ => True end.
Proof. intros Tr H. pose proof (t_ctx s Tr) as Hr. clear Tr. fields H; by repeat case_match. Qed.

Lemma caused_step s s' e : any_step j s s' -> caused s e -> caused s' e.
Proof. intros H C. destruct e; simpl in *; try done. by fields H. Qed.

(** A mapper that is about to cancel *)
Lemma mapper_cancels s i e acts b : kept s -> traced s -> ms s !! i = Some (MRun (MCancel e :: acts) b) -> by_cancel e.
Proof.
  intros K Tr H. destruct (lookup_lt_is_Some_2 (started s) i) as [x Hx].
  { rewrite (k_threads s K). by eapply lookup_lt_Some. }
  left. exists x. split; [|by eapply (t_left s Tr); [done..|simpl; set_solver]].
  apply (t_items s Tr), elem_of_app. left. by eapply list_elem_of_lookup_2.
Qed.

Lemma traced_err_step s s' : kept s -> traced s -> any_step j s s' -> forall e, retErr s' = Some e -> caused s' e.
Proof.
  intros K Tr H e He. pose proof (fun Hr => caused_step s s' e H (t_err s Tr e Hr)) as Hkeep.
  pose proof (t_ctx s Tr) as Hc. pose proof (fun i e acts b => mapper_cancels s i e acts b K Tr) as Hm.
  clear K Tr. fields H; eauto.
  all: destruct e0 as [e0|]; simpl; eauto; right; eauto.
Qed.

Lemma traced_attained s : attained j s -> traced s.
Proof.
  apply (attained_ind' j (fun s => inv s /\ kept s)); [eauto using inv_attained, kept_attained| |].
  - split; simpl; intros; simplify_eq/=; done.
  - intros x y [I K] Tr H. split.
    + by apply (wrote_step x).
    + by apply (panics_step x).
    + by apply (traced_items_step x).
    + by apply (left_step x).
    + by apply (ctx_step x).
    + by apply (traced_err_step x).
Qed.

(** When the collector was closed, nothing made the run stop and no panic waits to be received, no
    mapper has panicked. *)
Lemma closed_panics s : attained j s -> clean s -> closed s = true -> gen s <> GPanicSend -> red s <> RPanicSend ->
  forall x, x ∈ started s -> (mapper j x).2 = false.
Proof.
  intros A C Hc Hg Hr x [i Hi]%list_elem_of_lookup. pose proof (inv_attained s A) as I.
  pose proof (traced_attained s A) as Tr. pose proof (i_all s I Hc) as Ha.
  destruct (lookup_lt_is_Some_2 (ms s) i) as [th Ht].
  { rewrite <- (k_threads s (kept_attained s A)). by eapply lookup_lt_Some. }
  rewrite <- (t_panics s Tr) with i x th; [pose proof (Ha _ _ Ht); by destruct th| |done..].
  destruct (failed s) eqn:Ef; [done|]. exfalso.
  assert (wrote s = true) as Hw by (apply (i_failed s I); lia).
  destruct (t_wrote s Tr C Hw) as [?|[?|Hp]]; [done..|].
  destruct (sum_list_with_pos _ _ Hp) as (i' & th' & Hi' & Ht'). pose proof (Ha _ _ Hi').
  destruct th'; simpl in *; (done || lia).
Qed.

End inv.
