(* ===== verification/MapReduceCorrect.v ===== *)
(** * [core/mr]: what [MapReduce], [MapReduceVoid], [Finish] and [ForEach] promise

    The results, for a reducer that folds its input; that the calls return; and what happens when
    a user's function panics or the context is done. *)

From S2P Require Import Prelude MapReduce MapReduceInv.
Local Open Scope nat_scope.

(** ** Every run is finite *)

Section measure.
Context {T U V E R : Type} (j : @job T U V E R) (rk : R -> nat).

(** A reducer that comes to an end when its input does *)
Definition ranked : Prop := forall r,
  match reducer j r with
  | RRead k => (forall u, rk (k (Some u)) <= rk r) /\ rk (k None) < rk r
  | RWrite _ r' | RCancel _ r' => rk r' < rk r
  | RReturn | RPanic => True
  end.

Definition act_cost (a : @mact U E) : nat := match a with MWrite _ => 3 | MCancel _ => 2 end.
Definition acts_cost (l : list (@mact U E)) : nat := sum_list_with act_cost l.
Definition mapper_cost (th : @mthread U E) : nat :=
  match th with
  | MRun acts _ => 6 + acts_cost acts | MSend _ acts _ => 8 + acts_cost acts | MCancelling acts _ => 7 + acts_cost acts
  | MRecover => 5 | MPanicSend => 4 | MExit => 3 | MRelease => 2 | MGone => 1
  end.
Definition item_cost (x : T) : nat := 8 + acts_cost (mapper j x).1.
Definition gen_cost (g : @gthread T) : nat :=
  match g with GSend rest => 4 + sum_list_with item_cost rest | GRecover => 3 | GPanicSend => 2 | GClosed => 1 end.
Definition exec_cost (e : ethread) : nat :=
  match e with ELoop => 5 | ERecv => 4 | EWait => 3 | EDrain => 2 | EEnd => 1 end.
Definition red_cost (r : @rthread V R) : nat :=
  match r with
  | RRun r => 8 + 3 * rk r | RSend _ r | RCancelling r => 9 + 3 * rk r
  | RDrain _ => 5 | RRecover => 4 | RPanicSend => 3 | RFinish => 2 | REnd => 1
  end.
Definition caller_cost (c : @cthread V E) : nat :=
  match c with
  | CSelect => 8 | CCtx => 7 | CCtxDrain => 6 | CLoad _ => 5 | CDefer _ => 4 | CDrainOut => 3 | CReturned _ | CPanicked => 1
  end.
Definition measure (s : @state T U V E R) : nat :=
  gen_cost (gen s) + exec_cost (exec s) + sum_list_with mapper_cost (ms s) + red_cost (red s)
  + caller_cost (caller s) + length (collector s) + (if ctx_done s then 0 else 1).

Lemma measure_step s s' : ranked -> any_step j s s' -> measure s' < measure s.
Proof.
  intros Hrk H. unfold measure.
  step_cases H; destruct s; simpl in *; simplify_eq/=.
  all: repeat match goal with
  | H : reducer j ?r = _ |- _ => pose proof (Hrk r) as Hx; rewrite H in Hx; clear H; try destruct Hx as [Hx ?]
  | H : ?l !! ?i = Some ?x |- context [sum_list_with mapper_cost (<[?i := ?y]> ?l)] =>
    pose proof (sum_list_with_insert mapper_cost l i x y H); clear H
  end; rewrite ?sum_list_with_app, ?length_app; unfold item_cost in *; simpl in *; unfold acts_cost in *; simpl in *.
  all: try lia.
  - specialize (Hx u). lia.
  - destruct p; simpl; lia.
Qed.

(** A run that can go on wherever it is not [over] comes to an end, within [measure] steps. *)
Lemma comes_to (step_of : state -> state -> Prop) (over : state -> Prop) (Q : state -> Prop) :
  ranked -> (forall s s', step_of s s' -> any_step j s s') -> (forall s s', Q s -> step_of s s' -> Q s') ->
  (forall s, Q s -> over s \/ exists s', step_of s s') ->
  forall s, Q s -> exists s', rtc step_of s s' /\ over s'.
Proof.
  intros Hrk Hany Hkeep Hgo s. induction (Wf_nat.well_founded_ltof _ measure s) as [s _ IH]. intros HQ.
  destruct (Hgo s HQ) as [Ho|[s' Hs]]; [by exists s|].
  destruct (IH s') as (t & Ht & Ho); [by apply measure_step; eauto|eauto|]. exists t. eauto using rtc_l.
Qed.

Lemma nsteps_measure n s s' : ranked -> nsteps (any_step j) n s s' -> n + measure s' <= measure s.
Proof.
  intros Hrk H. induction H as [|n x y z Hxy _ IH]; [done|]. pose proof (measure_step x y Hrk Hxy). lia.
Qed.
End measure.

(** ** Progress *)

Section progress.
Context {T U V E R : Type} (j : @job T U V E R).

(** The call is over. *)
Definition ended (s : @state T U V E R) : Prop :=
  match caller s with CReturned _ | CPanicked => True | _ => False end.

(** The user's functions do not panic. *)
Definition calm : Prop :=
  gen_panics j = false /\ (forall x, (mapper j x).2 = false) /\ (forall r, reducer j r <> RPanic).

(** ... and then no goroutine waits for its panic to be received, unless the output is closed. *)
Definition calm_thread (th : @mthread U E) : Prop :=
  match th with MRun _ b | MSend _ _ b | MCancelling _ b => b = false | MRecover | MPanicSend => False | _ => True end.
Record calm_state (s : @state T U V E R) : Prop := {
  cs_gen : match gen s with GRecover | GPanicSend => False | _ => True end;
  cs_ms : forall i th, ms s !! i = Some th -> calm_thread th;
  cs_red : match red s with RDrain true | RRecover | RPanicSend => done s = true | _ => True end;
  cs_caller : caller s = CDrainOut -> done s = true
}.

Lemma calm_step s s' : calm -> inv j s -> calm_state s -> any_step j s s' -> calm_state s'.
Proof.
  intros (Hg & Hm & Hr) I [C1 C2 C3 C4] H. pose proof (i_all j s I) as Ha. clear I.
  step_cases H; destruct s; simpl in *; simplify_eq/=; (split; simpl; try done; try by eauto).
  all: try (intros k th Hk; try (apply lookup_insert_cases in Hk as [[-> ->]|Hk]; [|by eauto])).
  all: try by match goal with H : _ !! _ = Some _ |- _ => pose proof (C2 _ _ H) end.
  all: try by repeat case_match.
  - congruence.
  - apply lookup_app_Some in Hk as [Hk|[_ Hk]]; [by eauto|].
    destruct (k - length ms); simplify_eq/=. apply Hm.
  - by specialize (Ha eq_refl _ _ H).
  - by apply Hr in H0.
Qed.

Lemma calm_attained s : calm -> attained j s -> calm_state s.
Proof.
  intros Hc. apply (attained_ind' j (inv j)); [apply inv_attained|by split|].
  intros x y I C H. by apply (calm_step x).
Qed.

(** The owner of [cancel] or the loop that drains goes on: the generator sends, or it ends. *)
Lemma gen_goes s : calm -> calm_state s -> gen s <> GClosed ->
  (exists x rest, gen s = GSend (x :: rest)) \/ exists s', step j s s'.
Proof.
  intros (Hg & _) C Hn. pose proof (cs_gen s C) as H. destruct (gen s) as [[|x rest]| | |] eqn:Eg; try done.
  - right. eexists. by apply s_gen, g_close.
  - left. eauto.
Qed.

(** Someone is in [cancel]. *)
Lemma owner_is s : inv j s -> cancelled s = Running ->
  (exists i acts b, ms s !! i = Some (MCancelling acts b)) \/ (exists r, red s = RCancelling r) \/ caller s = CCtxDrain.
Proof.
  intros I Hr. pose proof (i_once j s I) as Ho. rewrite Hr in Ho.
  destruct (sum_list_with cancelling (ms s)) eqn:Es.
  - destruct (red s) eqn:Er; simpl in Ho; eauto; destruct (caller s); simpl in Ho; eauto; lia.
  - destruct (sum_list_with_pos cancelling (ms s)) as (i & th & Hi & Ht); [lia|].
    destruct th; simpl in Ht; try lia. eauto 6.
Qed.

Lemma owner_goes s : calm -> calm_state s -> inv j s -> cancelled s = Running -> exists s', step j s s'.
Proof.
  intros Hc C I Hr. pose proof (owner_is s I Hr) as Ho.
  assert (gen s = GClosed \/ gen s <> GClosed) as [Hg|Hg] by (destruct (gen s); auto).
  - destruct Ho as [(i & acts & b & Hi)|[[r Hi]|Hi]]; eexists.
    + by eapply s_mapper, m_finish.
    + by eapply s_reducer, r_finish.
    + by eapply s_caller, c_finish.
  - destruct (gen_goes s Hc C Hg) as [(x & rest & Hx)|]; [|done].
    destruct Ho as [(i & acts & b & Hi)|[[r Hi]|Hi]]; eexists.
    + by eapply s_mapper, m_drain; [|by eapply d_item].
    + by eapply s_reducer, r_drain_source; [|by eapply d_item].
    + by eapply s_caller, c_drain; [|by eapply d_item].
Qed.

(** A mapper that still has its place goes on, when the collector is open and empty. *)
Lemma mapper_goes s i th : calm -> calm_state s -> inv j s -> closed s = false -> collector s = [] ->
  ms s !! i = Some th -> th <> MGone -> exists s', step j s s'.
Proof.
  intros Hc C I Hcl He Hi Hn. pose proof (cs_ms s C i th Hi) as Ht.
  destruct th as [[|[u|e] acts] b|u acts b|acts b| | | | |]; simpl in Ht; try done; subst.
  - eexists. by eapply s_mapper, m_return.
  - destruct (stopped s) eqn:Es; eexists; [by eapply s_mapper, m_skip|by eapply s_mapper, m_write].
  - destruct (cancelled s) eqn:Ec; [|by apply owner_goes|]; eexists.
    + by eapply s_mapper, m_cancel.
    + by eapply s_mapper, m_cancelled.
  - eexists. eapply s_mapper, m_sent; [done..|]. rewrite He. apply workers_pos.
  - apply owner_goes; [done..|]. pose proof (i_once j s I) as Ho.
    apply (sum_list_with_lookup cancelling) in Hi. simpl in Hi. destruct (cancelled s); [lia|done|lia].
  - eexists. by eapply s_mapper, m_done.
  - eexists. by eapply s_mapper, m_release.
Qed.

(** While the collector is open, the loop that starts the mappers goes on, or a mapper that has its
    place does, or the generator. *)
Lemma exec_goes s (P : Prop) : inv j s -> closed s = false -> (forall s', exec_step j s s' -> P) ->
  (forall i th, ms s !! i = Some th -> th <> MGone -> P) ->
  (gen s <> GClosed -> (exists x rest, gen s = GSend (x :: rest)) \/ P) -> P.
Proof.
  intros I Hcl He Hm Hg. pose proof (i_closed j s I) as Hx. pose proof (i_pool j s I) as Hp.
  destruct (exec s) eqn:Ee; try congruence.
  - destruct (failed s) eqn:Ef; [|eapply He, e_failed; [done|lia]].
    destruct (decide (pool s < workers j)); [by eapply He, e_pool|].
    destruct (sum_list_with_pos live (ms s)) as (i & th & Hi & Ht).
    { pose proof (workers_pos j). simpl in Hp. lia. }
    eapply (Hm i th); [done|]. intros ->. simpl in Ht. lia.
  - assert (gen s = GClosed \/ gen s <> GClosed) as [Hc|Hc] by (destruct (gen s); auto).
    { by eapply He, e_over. }
    destruct (Hg Hc) as [(x & rest & Hx')|]; [|done]. by eapply He, e_start.
  - destruct (forallb finished (ms s)) eqn:Ef; [by eapply He, e_close|].
    assert (exists i th, ms s !! i = Some th /\ finished th = false) as (i & th & Hi & Ht).
    { clear -Ef. induction (ms s) as [|th l IH]; [done|]. simpl in Ef. destruct (finished th) eqn:Et.
      - destruct (IH Ef) as (i & x & ?). by exists (S i), x.
      - by exists 0, th. }
    eapply (Hm i th); [done|]. by intros ->.
Qed.

(** Whoever waits for the collector is served. *)
Lemma collector_goes s : calm -> calm_state s -> inv j s -> closed s = false -> collector s = [] ->
  exists s', step j s s'.
Proof.
  intros Hc C I Hcl He. apply (exec_goes s); [done|done|..].
  - intros s' H. eexists. by apply s_exec.
  - intros i th Hi Hn. by eapply (mapper_goes s i th).
  - by apply gen_goes.
Qed.

(** The reducer goes on while the caller waits for the output, and the output is open. *)
Lemma reducer_goes s : calm -> calm_state s -> inv j s -> done s = false ->
  caller s = CSelect \/ (exists res, caller s = CDefer res) -> exists s', step j s s'.
Proof.
  intros Hc C I Hd Hcall. pose proof (cs_red s C) as Hx. destruct (red s) as [r|v r|r|[]| | | |] eqn:Er.
  - destruct (reducer j r) eqn:Ea.
    + destruct (collector s) eqn:Ec; [|eexists; by eapply s_reducer, r_read].
      destruct (closed s) eqn:Ecl; [|by apply collector_goes]. eexists. by eapply s_reducer, r_closed.
    + destruct (stopped s) eqn:Es; eexists; [by eapply s_reducer, r_skip|by eapply s_reducer, r_write].
    + destruct (cancelled s) eqn:Ec; [|by apply owner_goes|]; eexists.
      * by eapply s_reducer, r_cancel.
      * by eapply s_reducer, r_cancelled.
    + eexists. by eapply s_reducer, r_return.
    + by destruct Hc as (_ & _ & Hr); apply Hr in Ea.
  - destruct Hcall as [Hs|[res Hs]]; eexists; [by eapply s_reducer, r_sent|by eapply s_reducer, r_sent_again].
  - apply owner_goes; [done..|]. pose proof (i_once j s I) as Ho. rewrite Er in Ho. simpl in Ho.
    destruct (cancelled s); [lia|done|lia].
  - congruence.
  - destruct (collector s) eqn:Ec; [|eexists; by eapply s_reducer, r_drain].
    destruct (closed s) eqn:Ecl; [|by apply collector_goes]. eexists. by eapply s_reducer, r_drained.
  - congruence.
  - congruence.
  - eexists. by eapply s_reducer, r_end.
  - assert (done s = true) by (apply (i_done j s I); auto). congruence.
Qed.

(** A call that is not over can go on. *)
Lemma mr_progress s : calm -> attained j s -> ended s \/ exists s', step j s s'.
Proof.
  intros Hc A. pose proof (inv_attained j s A) as I. pose proof (calm_attained s Hc A) as C. unfold ended.
  destruct (caller s) as [| | |v| |res|res|] eqn:Ec; auto; right.
  - destruct (done s) eqn:Ed; [|by apply reducer_goes; auto]. eexists. by eapply s_caller, c_closed.
  - destruct (cancelled s) eqn:Ex; [|by apply owner_goes|]; eexists.
    + by eapply s_caller, c_cancel.
    + by eapply s_caller, c_cancelled.
  - apply owner_goes; [done..|]. pose proof (i_once j s I) as Ho. rewrite Ec in Ho. simpl in Ho.
    destruct (cancelled s); [lia|done|lia].
  - eexists. by eapply s_caller, c_load.
  - eexists. eapply s_caller, c_panic; [done|]. by apply (cs_caller s C).
  - destruct (done s) eqn:Ed; [|by apply reducer_goes; eauto]. eexists. by eapply s_caller, c_return.
Qed.

End progress.

(** C19: when the generator, the mapper and the reducer do not panic and the reducer ends when its
    input does, [MapReduce] comes to its end: from every state that its goroutines reach, under any
    interleaving, with errors, cancellations and a context that is done at any moment, the call goes
    on until it returns (or panics, for a reducer that writes twice), and no execution is longer
    than [measure] steps. *)
Theorem mr_returns {T U V E R} (j : @job T U V E R) rk s : calm j -> ranked j rk -> reached j s ->
  (exists s', rtc (step j) s s' /\ ended s') /\ (forall n s', nsteps (step j) n s s' -> n <= measure j rk s).
Proof.
  intros Hc Hrk Hs. split.
  - apply (comes_to j rk (step j) ended (attained j)); [done|by intros; apply a_step| | |by apply reached_attained].
    + intros x y Hx Hy. eapply rtc_r; [done|]. by apply a_step.
    + intros x Hx. by apply mr_progress.
  - intros n s' Hn. enough (n + measure j rk s' <= measure j rk s) by lia.
    apply nsteps_measure; [done|]. clear -Hn. induction Hn; econstructor; eauto using a_step.
Qed.

(** At any time at most [WithWorkers] mappers run, and at most that many results are in the
    collector; both are at least one, whatever the option says. *)
Theorem mr_workers_bounded {T U V E R} (j : @job T U V E R) s : reached j s ->
  sum_list_with live (ms s) <= workers j /\ length (collector s) <= workers j /\ 1 <= workers j.
Proof.
  intros Hs%reached_attained%inv_attained. pose proof (i_pool j s Hs). pose proof (i_bound j s Hs).
  pose proof (workers_pos j). split_and!; [lia|by apply i_room|lia].
Qed.

(** ** The result *)

(** The reducer that folds all of its input and then writes the result *)
Variant fold_state {V} := Reading (acc : V) | Writing (acc : V) | Over.
Definition fold_reducer {U V E} (f : V -> U -> V) (r : @fold_state V) : @ract U V E fold_state :=
  match r with
  | Reading acc => RRead (fun o => match o with Some u => Reading (f acc u) | None => Writing acc end)
  | Writing acc => RWrite acc Over
  | Over => RReturn
  end.

Section fold.
Context {T U V E : Type} (f : V -> U -> V) (b : V) (j : @job T U V E (@fold_state V)).
Hypothesis j_reducer : reducer j = fold_reducer f.
Hypothesis j_init : reducer_init j = Reading b.

(** The fold over what all mappers write, in some order, and no mapper cancels *)
Definition complete (v : V) : Prop :=
  (exists us, us ≡ₚ all_writes j (items j) /\ v = foldl f b us) /\
  (forall x, x ∈ items j -> cancels (mapper j x).1 = []).

(** No error is set and no panic was received. *)
Definition untouched (s : @state T U V E (@fold_state V)) : Prop :=
  retErr s = None /\ caller s <> CDrainOut /\ caller s <> CPanicked.

Record folded (s : @state T U V E (@fold_state V)) : Prop := {
  fo_red : match red s with
           | RRun (Reading acc) => acc = foldl f b (got s)
           | RRun (Writing acc) => clean s -> complete acc
           | RSend v r => r = Over /\ (untouched s -> complete v)
           | RCancelling _ => False
           | _ => True
           end;
  fo_caller : match caller s with
              | CLoad (Some v) => retErr s = None -> complete v
              | CDefer (inr v) | CReturned (inr v) => complete v
              | _ => True
              end
}.

(** What the reducer has when its input ends *)
Lemma fold_complete s : attained j s -> clean s -> closed s = true -> collector s = [] -> reads (red s) ->
  complete (foldl f b (got s)).
Proof.
  intros A C Hc He Hr. pose proof (closed_writes j s A C Hc Hr) as Hw. rewrite He, app_nil_r in Hw.
  split; [by exists (got s)|]. rewrite <- (closed_items j s A C Hc). apply closed_cancels; [done| |done]. apply C.
Qed.

Lemma folded_step s s' : attained j s -> folded s -> step j s s' -> folded s'.
Proof.
  intros A [F1 F2] H. pose proof (fold_complete s A) as Hf. clear A. unfold clean, untouched, stopped in *.
  mr_cases H; rewrite ?j_reducer in *;
    try match goal with H : fold_reducer _ ?r = _ |- _ => destruct r; simplify_eq/= end;
    destruct s; simpl in *; simplify_eq/=; (split; simpl; unfold clean, untouched, result_of in *; simpl; try done).
  all: try solve [clear Hf; repeat case_match; simplify_eq/=; intuition congruence].
  - by rewrite foldl_snoc.
  - intros C. by apply Hf.
  - split; [done|]. intros (? & ? & ?). apply orb_false_iff in H1 as [? _]. by apply F1.
Qed.

Lemma folded_reached s : reached j s -> folded s.
Proof.
  unfold reached. revert s. apply rtc_ind_r.
  - split; simpl; [by rewrite j_init|done].
  - intros x y Hx Hxy F. apply (folded_step x); [by apply reached_attained|done|done].
Qed.
End fold.


(** ** [Finish] *)

Section finish.
Context {E : Type} (fns : list (@fn_result E)).

(** All functions ran and returned nil. *)
Definition all_ok (s : @state fn_result unit unit E unit) : Prop :=
  closed s = true /\ started s = fns /\ forall fn, fn ∈ fns -> fn = FnOk.

Record finish_state (s : @state fn_result unit unit E unit) : Prop := {
  fn_red : match red s with RRun _ | RDrain false | RFinish | REnd => True | _ => False end;
  fn_gen : match gen s with GSend _ | GClosed => True | _ => False end;
  fn_ctx : ctx_done s = false;
  fn_caller : match caller s with
              | CSelect | CDrainOut | CPanicked => True
              | CLoad None => retErr s = None -> all_ok s
              | CDefer (inl (UserErr e)) | CReturned (inl (UserErr e)) => FnErr e ∈ fns
              | CDefer (inl ErrReduceNoOutput) | CReturned (inl ErrReduceNoOutput) => all_ok s
              | _ => False
              end
}.

Lemma finish_all_ok s : attained (Finish fns) s -> finish_state s -> caller s = CSelect ->
  retErr s = None -> done s = true -> all_ok s.
Proof.
  intros A F Hs Hn Hd. pose proof (inv_attained _ s A) as I. destruct (done_ended _ s I Hn Hd) as [Hr Hc].
  assert (clean s) as C by (split_and!; [done|by apply fn_ctx|congruence..]).
  pose proof (closed_items _ s A C Hc) as Hi. simpl in Hi. split_and!; [done..|]. rewrite <- Hi. intros fn Hf.
  pose proof (closed_cancels _ s A Hn Hc fn Hf) as H1.
  assert ((mapper (Finish fns) fn).2 = false) as H2.
  { eapply (closed_panics _ s A C Hc); [|congruence|done]. pose proof (fn_gen s F). by destruct (gen s). }
  by destruct fn.
Qed.

Lemma finish_error s e : attained (Finish fns) s -> ctx_done s = false -> retErr s = Some e ->
  exists e', e = UserErr e' /\ FnErr e' ∈ fns.
Proof.
  intros A Hx He. pose proof (t_err _ s (traced_attained _ s A) e He) as Hc.
  destruct e as [e| | |]; simpl in Hc; try done; try congruence; destruct Hc as [([|e'|] & Hi & Hc)|(r & r' & ?)];
    simpl in *; set_solver.
Qed.

Lemma finish_step s s' : attained (Finish fns) s -> finish_state s -> step (Finish fns) s s' -> finish_state s'.
Proof.
  intros A F H. pose proof (finish_all_ok s A F) as Hok. pose proof (fun e => finish_error s e A (fn_ctx s F)) as He.
  pose proof (i_closed _ s (inv_attained _ s A)) as Hcl. clear A.
  destruct F as [F1 F2 F3 F5]. unfold all_ok in *.
  mr_cases H; destruct s; simpl in *; simplify_eq/=; (split; simpl; unfold result_of, all_ok in *; simpl; try done).
  all: try solve [clear Hok He; repeat case_match; done || (simplify_eq/=; intuition congruence)].
  - intros Hn. by apply Hok.
  - destruct retErr as [e|]; [|destruct v; [done|by apply F5]]. by destruct (He e) as (e' & -> & ?).
Qed.

Lemma finish_reached s : reached (Finish fns) s -> finish_state s.
Proof.
  unfold reached. revert s. apply rtc_ind_r; [by split|].
  intros x y Hx Hxy F. apply (finish_step x); [by apply reached_attained|done|done].
Qed.
End finish.

(** [Finish] returns nil only when every function was run and returned nil; otherwise it returns
    an error of one of the functions (an error that wraps [ErrReduceNoOutput] counts as nil). *)
Theorem finish_spec {E} (is_no_output : E -> bool) (fns : list (@fn_result E)) res :
  Finish_returns is_no_output fns res ->
  match res with
  | None => (forall fn, fn ∈ fns -> fn = FnOk) \/ exists e, FnErr e ∈ fns /\ is_no_output e = true
  | Some err => exists e, err = UserErr e /\ FnErr e ∈ fns /\ is_no_output e = false
  end.
Proof.
  intros [->|s r Hn Hs Hc]; [left; set_solver|].
  pose proof (fn_caller fns s (finish_reached fns s Hs)) as F. rewrite Hc in F.
  destruct r as [[e| | |]|]; simpl; try done.
  - destruct (is_no_output e) eqn:Ee; eauto.
  - left. apply F.
Qed.

(** ** [ForEach] *)

Section foreach.
Context {T : Type} (items : list T) (gen_panics : bool) (panics : T -> bool) (opts : list Option_).
Notation J := (ForEach items gen_panics panics opts).

(** A mapper of [ForEach] neither writes nor cancels. *)
Definition idle_thread (th : @mthread unit Empty_set) : Prop :=
  match th with MRun l _ => l = [] | MSend _ _ _ | MCancelling _ _ => False | _ => True end.
Record foreach_state (s : @state T unit unit Empty_set unit) : Prop := {
  fe_ms : forall i th, ms s !! i = Some th -> idle_thread th;
  fe_gen : gen_panics = false -> match gen s with GRecover | GPanicSend => False | _ => True end;
  fe_err : retErr s = None;
  fe_red : red s = RRun tt;
  fe_collector : collector s = [];
  fe_caller : match caller s with CSelect | CDrainOut | CPanicked => True | CReturned _ => closed s = true | _ => False end
}.

Lemma foreach_state_step s s' : foreach_state s -> foreach_step J s s' -> foreach_state s'.
Proof.
  intros [F1 F0 F2 F3 F4 F5] H. destruct H as [? H|? H|? ? H|? H|Hdl Hnd]; try (destruct H);
    repeat match goal with D : drain_source _ _ |- _ => destruct D end; destruct s; simpl in *; simplify_eq/=;
    (split; simpl; try done).
  all: try (intros k th Hk; try (apply lookup_insert_cases in Hk as [[-> ->]|Hk]; [|by eauto])).
  all: try by match goal with H : _ !! _ = Some _ |- _ => pose proof (F1 _ _ H) end.
  all: try congruence.
  - apply lookup_app_Some in Hk as [Hk|[_ Hk]]; [by eauto|]. by destruct (k - length ms); simplify_eq/=.
  - by destruct caller.
Qed.

Lemma foreach_state_reached s : foreach_reached J s -> foreach_state s.
Proof.
  unfold foreach_reached. revert s. apply rtc_ind_r; [by split|]. intros x y _ H F. by apply (foreach_state_step x).
Qed.

Lemma foreach_progress s : foreach_reached J s -> ended s \/ exists s', foreach_step J s s'.
Proof.
  intros Hs. pose proof (inv_attained _ s (foreach_attained _ s Hs)) as I. pose proof (foreach_state_reached s Hs) as F.
  pose proof (fe_caller s F) as Hc. unfold ended. destruct (caller s) eqn:Ec; try done; auto; right.
  - destruct (closed s) eqn:Ecl; [eexists; by eapply fs_caller, f_return|].
    apply (exec_goes J s); [done|done|..].
    + intros s' H. eexists. by apply fs_exec.
    + intros i th Hi Hn. pose proof (fe_ms s F i th Hi) as Ht.
      destruct th as [l []| | | | | | |]; simpl in Ht; subst; try done.
      * eexists. by eapply fs_mapper, m_panic.
      * eexists. by eapply fs_mapper, m_return.
      * destruct (wrote s) eqn:Ew; eexists; [by eapply fs_mapper, m_no_report|by eapply fs_mapper, m_report].
      * eexists. by eapply fs_mapper, m_reported.
      * eexists. by eapply fs_mapper, m_done.
      * eexists. by eapply fs_mapper, m_release.
    + intros Hg. destruct (gen s) as [[|x rest]| | |] eqn:Eg; eauto; right; try done.
      * destruct gen_panics eqn:Ep; eexists; [by eapply fs_gen, g_panic|by eapply fs_gen, g_close].
      * destruct (wrote s) eqn:Ew; eexists; [by eapply fs_gen, g_skip|by eapply fs_gen, g_write].
      * eexists. by eapply fs_gen, g_sent.
  - eexists. by eapply fs_caller, f_panic.
Qed.
End foreach.

(** [ForEach] always ends, whatever panics: from every state that its goroutines reach the call
    goes on until it returns or panics, and no execution is longer than [measure] steps. *)
Theorem foreach_returns {T} (items : list T) gp panics opts s :
  let j := ForEach items gp panics opts in foreach_reached j s ->
  (exists s', rtc (foreach_step j) s s' /\ ended s') /\
  (forall n s', nsteps (foreach_step j) n s s' -> n <= measure j (fun _ => 0) s).
Proof.
  intros j Hs.
  assert (forall x y, foreach_step j x y -> any_step j x y) as Hany.
  { intros x y []; [by apply a_step, s_gen|by apply a_step, s_exec|by eapply a_step, s_mapper|by apply a_foreach|by apply a_step, s_deadline]. }
  assert (ranked j (fun _ => 0)) as Hrk by by intros r.
  split.
  - apply (comes_to j (fun _ => 0) (foreach_step j) ended (foreach_reached j)); [done|done| | |done].
    + intros x y Hx Hy. by eapply rtc_r.
    + apply foreach_progress.
  - intros n s' Hn. enough (n + measure j (fun _ => 0) s' <= measure j (fun _ => 0) s) by lia.
    apply nsteps_measure; [done|]. clear -Hn Hany. induction Hn; econstructor; eauto.
Qed.

(** When [ForEach] returns and its context is not done, every item was given to a mapper, all
    mappers have finished, and none of them has panicked unless the generator has. *)
Theorem foreach_all {T} (items : list T) gp panics opts s r :
  let j := ForEach items gp panics opts in
  foreach_reached j s -> caller s = CReturned r -> ctx_done s = false ->
  started s = items /\ (forall i th, ms s !! i = Some th -> finished th = true) /\
  (gp = false -> forall x, x ∈ items -> panics x = false).
Proof.
  intros j Hs Hc Hx. pose proof (foreach_attained _ s Hs) as A. pose proof (foreach_state_reached _ _ _ _ s Hs) as F.
  pose proof (fe_caller _ s F) as Hcl. rewrite Hc in Hcl.
  assert (clean s) as C by (split_and!; [apply F|done|congruence..]).
  pose proof (closed_items j s A C Hcl) as Hi. simpl in Hi. split_and!; [done|by apply (i_all j s (inv_attained j s A))|].
  intros Hg. rewrite <- Hi. apply (closed_panics j s A C Hcl); [|by rewrite (fe_red _ s F)].
  pose proof (fe_gen _ s F Hg). by destruct (gen s).
Qed.
