(* ===== verification/MapReduceRuns.v ===== *)
(** * [core/mr]: runs

    Concrete executions: those to which the theorems of [MapReduceCorrect.v] are applied, and those
    that show how a call can hang, panic or return nil too early. *)

From S2P Require Import Prelude MapReduce MapReduceInv MapReduceCorrect.
Local Open Scope nat_scope.

(** The next step of an execution *)
Ltac take c := eapply rtc_l; [c; first [reflexivity | vm_compute; lia]|simpl].

(** ** A sum *)

Definition sum_job : @job nat nat nat unit (@fold_state nat) :=
  mkJob [3] false (fun x => ([MWrite x; MWrite (2 * x)], false)) (fold_reducer Nat.add) (Reading 0) [WithWorkers 0].

Lemma sum_run : exists s, reached sum_job s /\ caller s = CReturned (inr 9).
Proof.
  eexists. split. unfold reached, init. simpl.
  take ltac:(eapply s_exec, e_pool).
  take ltac:(eapply s_exec, e_start).
  take ltac:(eapply s_mapper, (m_write _ _ 0)).
  take ltac:(eapply s_mapper, (m_sent _ _ 0)).
  take ltac:(eapply s_reducer, r_read).
  take ltac:(eapply s_mapper, (m_write _ _ 0)).
  take ltac:(eapply s_mapper, (m_sent _ _ 0)).
  take ltac:(eapply s_reducer, r_read).
  take ltac:(eapply s_gen, g_close).
  take ltac:(eapply s_mapper, (m_return _ _ 0)).
  take ltac:(eapply s_mapper, (m_done _ _ 0)).
  take ltac:(eapply s_mapper, (m_release _ _ 0)).
  take ltac:(eapply s_exec, e_pool).
  take ltac:(eapply s_exec, e_over).
  take ltac:(eapply s_exec, e_close).
  take ltac:(eapply s_reducer, r_closed).
  take ltac:(eapply s_reducer, r_write).
  take ltac:(eapply s_reducer, r_sent).
  take ltac:(eapply s_caller, c_load).
  take ltac:(eapply s_reducer, r_return).
  take ltac:(eapply s_reducer, r_drained).
  take ltac:(eapply s_reducer, r_end).
  take ltac:(eapply s_caller, c_return).
  apply rtc_refl.
  reflexivity.
Qed.

(** A state in the middle of the run: the mapper sends, and there is one worker although none was asked for *)
Lemma sum_run_mid : exists s, reached sum_job s /\ ms s = [MSend 3 [MWrite 6] false] /\ workers sum_job = 1.
Proof.
  eexists. split. unfold reached, init. simpl.
  take ltac:(eapply s_exec, e_pool).
  take ltac:(eapply s_exec, e_start).
  take ltac:(eapply s_mapper, (m_write _ _ 0)).
  apply rtc_refl.
  by split.
Qed.

Definition sum_rank (r : @fold_state nat) : nat := match r with Reading _ => 2 | Writing _ => 1 | Over => 0 end.

Lemma sum_calm : calm sum_job.
Proof. split_and!; [done|done|]. intros []; discriminate. Qed.

Lemma sum_ranked : ranked sum_job sum_rank.
Proof. intros []; simpl; auto. Qed.


Lemma mr_workers_bounded_witness : exists s : @state nat nat nat unit (@fold_state nat), ms s = [MSend 3 [MWrite 6] false] /\ sum_list_with live (ms s) <= 1.
Proof.
  destruct sum_run_mid as (s & Hs & Hm & Hw). exists s. split; [exact Hm|].
  destruct (mr_workers_bounded sum_job s Hs) as [H _]. rewrite Hw in H. exact H.
Defined.

Lemma mr_returns_witness : exists s', rtc (step sum_job) (init sum_job) s' /\ ended s'.
Proof. exact (proj1 (mr_returns sum_job sum_rank (init sum_job) sum_calm sum_ranked (rtc_refl _ _))). Defined.

(** ** [Finish] with a function that fails *)

Definition failing : list (@fn_result nat) := [FnErr 7].

Lemma finish_failing_run : exists s, reached (Finish failing) s /\ caller s = CReturned (inl (UserErr 7)).
Proof.
  eexists. split. unfold reached, init. simpl.
  take ltac:(eapply s_exec, e_pool).
  take ltac:(eapply s_exec, e_start).
  take ltac:(eapply s_mapper, (m_cancel _ _ 0)).
  take ltac:(eapply s_gen, g_close).
  take ltac:(eapply s_mapper, (m_finish _ _ 0)).
  take ltac:(eapply s_caller, c_closed).
  take ltac:(eapply s_caller, c_load).
  take ltac:(eapply s_caller, c_return).
  apply rtc_refl.
  reflexivity.
Qed.

Lemma finish_spec_witness : exists e, UserErr 7 = UserErr e /\ FnErr e ∈ failing /\ Nat.eqb e 0 = false.
Proof.
  destruct finish_failing_run as (s & Hs & Hc).
  refine (finish_spec (fun e => Nat.eqb e 0) failing (Some (UserErr 7)) _).
  exact (finish_run (fun e => Nat.eqb e 0) failing s _ ltac:(discriminate) Hs Hc).
Defined.

(** ** [ForEach] over two items *)

Definition two_job : @job nat unit unit Empty_set unit := ForEach [1; 2] false (fun _ => false) [WithWorkers 2].

Lemma two_run : exists s r, foreach_reached two_job s /\ caller s = CReturned r /\ ctx_done s = false.
Proof.
  eexists _, _. split. unfold foreach_reached, init. simpl.
  take ltac:(eapply fs_exec, e_pool).
  take ltac:(eapply fs_exec, e_start).
  take ltac:(eapply fs_exec, e_pool).
  take ltac:(eapply fs_exec, e_start).
  take ltac:(eapply fs_mapper, (m_return _ _ 1)).
  take ltac:(eapply fs_mapper, (m_return _ _ 0)).
  take ltac:(eapply fs_gen, g_close).
  take ltac:(eapply fs_mapper, (m_done _ _ 1)).
  take ltac:(eapply fs_mapper, (m_release _ _ 1)).
  take ltac:(eapply fs_exec, e_pool).
  take ltac:(eapply fs_exec, e_over).
  take ltac:(eapply fs_mapper, (m_done _ _ 0)).
  take ltac:(eapply fs_exec, e_close).
  take ltac:(eapply fs_caller, f_return).
  apply rtc_refl.
  split; reflexivity.
Qed.

Lemma foreach_all_witness : exists s : @state nat unit unit Empty_set unit, started s = items two_job.
Proof.
  destruct two_run as (s & r & Hs & Hc & Hx). exists s.
  exact (proj1 (foreach_all [1; 2] false (fun _ => false) [WithWorkers 2] s r Hs Hc Hx)).
Defined.

Lemma foreach_returns_witness : exists s', rtc (foreach_step two_job) (init two_job) s' /\ ended s'.
Proof.
  exact (proj1 (foreach_returns [1; 2] false (fun _ => false) [WithWorkers 2] (init two_job) (rtc_refl _ _))).
Defined.

(** ** How a call can go wrong *)

(** Nothing can move. *)
Definition stuck {T U V E R} (j : @job T U V E R) (s : state) : Prop := forall s', ~ step j s s'.

Ltac is_stuck := intros ? Hs; mr_cases Hs; simpl in *;
  repeat match goal with H : (_ :: _) !! ?i = Some _ |- _ => destruct i; simpl in *; [|try rewrite lookup_nil in *] end;
  first [discriminate | simplify_eq/=; discriminate | lia].

(** The reducer writes without waiting for its input, and then a mapper panics: the caller, which has its
    result and waits for the output to be closed, and the mapper, which waits for its panic to be
    received, block forever. *)
Definition early_job : @job unit unit nat unit bool :=
  mkJob [tt] false (fun _ => ([], true)) (fun r : bool => if r then RReturn else RWrite 5 true) false [].

Theorem panic_after_output_hangs : exists s, reached early_job s /\ stuck early_job s /\
  caller s = CDefer (inr 5) /\ ms s = [MPanicSend].
Proof.
  eexists. split. unfold reached, init. simpl.
  take ltac:(eapply s_exec, e_pool).
  take ltac:(eapply s_exec, e_start).
  take ltac:(eapply s_reducer, r_write).
  take ltac:(eapply s_reducer, r_sent).
  take ltac:(eapply s_caller, c_load).
  take ltac:(eapply s_reducer, r_return).
  take ltac:(eapply s_gen, g_close).
  take ltac:(eapply s_mapper, (m_panic _ _ 0)).
  take ltac:(eapply s_mapper, (m_report _ _ 0)).
  take ltac:(eapply s_exec, e_failed).
  apply rtc_refl.
  split; [|by split]. is_stuck.
Qed.

(** The context is done and the generator panics: the caller, in [cancel], drains a source that is
    closed only after the panic was received, which nobody does any more. *)
Definition late_job : @job unit unit unit unit unit :=
  mkJob [] true (fun _ => ([], false)) (fun _ => RReturn) tt [WithContext true].

Theorem generator_panic_after_deadline_hangs : exists s, reached late_job s /\ stuck late_job s /\
  caller s = CCtxDrain /\ gen s = GPanicSend.
Proof.
  eexists. split. unfold reached, init. simpl.
  take ltac:(eapply s_deadline).
  take ltac:(eapply s_caller, c_ctx).
  take ltac:(eapply s_caller, c_cancel).
  take ltac:(eapply s_gen, g_panic).
  take ltac:(eapply s_gen, g_write).
  take ltac:(eapply s_exec, e_ctx).
  take ltac:(eapply s_exec, e_close).
  take ltac:(eapply s_reducer, r_return).
  take ltac:(eapply s_reducer, r_drained).
  take ltac:(eapply s_reducer, r_end).
  apply rtc_refl.
  split; [|by split]. is_stuck.
Qed.

(** The context is done before any item has a mapper: [MapReduceVoid] may still return nil. *)
Definition expired_job : @job nat unit unit unit unit :=
  mkJob [1] false (fun _ => ([], false)) (fun _ => RReturn) tt [WithContext true].

Theorem expired_void_returns_nil : exists s r, reached expired_job s /\ caller s = CReturned r /\
  MapReduceVoid (fun _ => false) r = None /\ started s = [] /\ items expired_job <> [].
Proof.
  eexists _, _. split. unfold reached, init. simpl.
  take ltac:(eapply s_deadline).
  take ltac:(eapply s_exec, e_ctx).
  take ltac:(eapply s_exec, e_close).
  take ltac:(eapply s_reducer, r_return).
  take ltac:(eapply s_reducer, r_drained).
  take ltac:(eapply s_reducer, r_end).
  take ltac:(eapply s_caller, c_closed).
  take ltac:(eapply s_caller, c_load).
  take ltac:(eapply s_caller, c_return).
  apply rtc_refl.
  by split_and!.
Qed.

(** A mapper cancels while the reducer, past the guard of [Write], is about to send: the output is closed
    under it, and [MapReduce] panics although no function of the user has panicked. *)
Definition race_job : @job unit unit nat nat bool :=
  mkJob [tt] false (fun _ => ([MCancel (Some 1)], false)) (fun r : bool => if r then RReturn else RWrite 5 true) false [].

Theorem write_races_with_cancel : calm race_job /\ exists s, reached race_job s /\ caller s = CPanicked.
Proof.
  split; [split_and!; [done|done|intros []; discriminate]|].
  eexists. split. unfold reached, init. simpl.
  take ltac:(eapply s_exec, e_pool).
  take ltac:(eapply s_exec, e_start).
  take ltac:(eapply s_reducer, r_write).
  take ltac:(eapply s_mapper, (m_cancel _ _ 0)).
  take ltac:(eapply s_gen, g_close).
  take ltac:(eapply s_mapper, (m_finish _ _ 0)).
  take ltac:(eapply s_reducer, r_send_closed).
  take ltac:(eapply s_mapper, (m_return _ _ 0)).
  take ltac:(eapply s_mapper, (m_done _ _ 0)).
  take ltac:(eapply s_exec, e_done).
  take ltac:(eapply s_exec, e_close).
  take ltac:(eapply s_reducer, r_drained).
  take ltac:(eapply s_reducer, r_report).
  take ltac:(eapply s_reducer, r_reported).
  take ltac:(eapply s_caller, c_panic).
  apply rtc_refl.
  reflexivity.
Qed.
