(* ===== verification/Pool.v ===== *)
(** * [core/syncx/pool.go]: a pool of resources

    The goroutines that get a resource from the pool and put it back, as threads over the shared pool.
    A step is one critical section: [Get] up to its return or to [cond.Wait], a waiter's round after it
    was woken, [Put] with its signal.  A resource is the number of the call of [create] that made it;
    [create] may return nil, and may panic.  Times are readings of [timex.Now]. *)

From S2P Require Import Prelude.
Local Open Scope Z_scope.

(** ** The pool *)

Record node := mkNode { item : nat; lastUsed : Z }.

(** [limit], [created], [maxAge] and the list that begins at [head]; [made] counts the calls of [create],
    and [destroyed] has the resources given to [destroy]. *)
Record Pool := mkPool {
  limit : Z;
  created : Z;
  maxAge : Z;
  idle : list node;
  made : nat;
  destroyed : list nat
}.

Definition NewPool (n : Z) (age : Z) : outcome Pool :=
  if n <=? 0 then Panic "pool size can't be negative or zero" else Ok (mkPool n 0 age [] 0 []).

(** What a round of [Get] comes to: an idle resource, a call of [create], or a wait. *)
Variant get_result := GotIdle (x : nat) | MayCreate | MustWait.

Definition expired (p : Pool) (now : Z) (n : node) : bool := (0 <? maxAge p) && (lastUsed n + maxAge p <? now).

(** The loop of [Get], up to [create], [Wait] or the return; [now] reads the clock for a node. *)
Fixpoint get_loop (now : node -> Z) (p : Pool) (l : list node) : get_result * Pool :=
  match l with
  | head :: next =>
    if expired p (now head) head
    then get_loop now (mkPool (limit p) (created p - 1) (maxAge p) next (made p) (destroyed p ++ [item head])) next
    else (GotIdle (item head), mkPool (limit p) (created p) (maxAge p) next (made p) (destroyed p))
  | [] =>
    if created p <? limit p
    then (MayCreate, mkPool (limit p) (created p + 1) (maxAge p) [] (made p) (destroyed p))
    else (MustWait, p)
  end.

Definition made_one (p : Pool) : Pool := mkPool (limit p) (created p) (maxAge p) (idle p) (S (made p)) (destroyed p).
Definition put_node (n : node) (p : Pool) : Pool := mkPool (limit p) (created p) (maxAge p) (n :: idle p) (made p) (destroyed p).

(** ** The threads *)

(** A goroutine: before [Get]; in [cond.Wait]; woken; with its resource, which is nil if [create] returned
    nil; after it put the resource back; after [Put] of nil; after [create] panicked. *)
Variant thread := Getting | Sleeping | Woken | Holding (x : option nat) | Gone | PutNil | CreatePanicked.
#[global] Instance thread_eq_dec : EqDecision thread.
Proof. solve_decision. Defined.

Record state := mkState { pool : Pool; threads : list thread }.

Definition goes (i : nat) (th : thread) (s : state) : state := mkState (pool s) (<[i := th]> (threads s)).
Definition set_pool (p : Pool) (s : state) : state := mkState p (threads s).

(** What [create] does *)
Variant creation := Creates | CreatesNil | CreatePanics.

(** A round of [Get] *)
Definition Get (now : node -> Z) (c : creation) (i : nat) (s : state) : state :=
  match get_loop now (pool s) (idle (pool s)) with
  | (GotIdle x, p) => goes i (Holding (Some x)) (set_pool p s)
  | (MayCreate, p) =>
    match c with
    | Creates => goes i (Holding (Some (made p))) (set_pool (made_one p) s)
    | CreatesNil => goes i (Holding None) (set_pool p s)
    | CreatePanics => goes i CreatePanicked (set_pool p s)
    end
  | (MustWait, p) => goes i Sleeping (set_pool p s)
  end.

Inductive step (s : state) : state -> Prop :=
| s_new : step s (mkState (pool s) (threads s ++ [Getting]))
| s_get i now c : threads s !! i = Some Getting \/ threads s !! i = Some Woken -> step s (Get now c i s)
| s_put_nil i : threads s !! i = Some (Holding None) -> step s (goes i PutNil s)
| s_put_signal i x now k : threads s !! i = Some (Holding (Some x)) -> threads s !! k = Some Sleeping ->
    step s (goes k Woken (goes i Gone (set_pool (put_node (mkNode x now) (pool s)) s)))
| s_put_alone i x now : threads s !! i = Some (Holding (Some x)) -> Sleeping ∉ threads s ->
    step s (goes i Gone (set_pool (put_node (mkNode x now) (pool s)) s)).

Definition reached (p : Pool) (s : state) : Prop := rtc step (mkState p []) s.

(** ** The invariant *)

(** The slots of the pool that are in use, the threads that sleep and those that were woken *)
Definition uses (th : thread) : nat := match th with Holding _ | PutNil | CreatePanicked => 1 | _ => 0 end.
Definition sleeps (th : thread) : nat := match th with Sleeping => 1 | _ => 0 end.
Definition woken (th : thread) : nat := match th with Woken => 1 | _ => 0 end.
Definition held (th : thread) : list nat := match th with Holding (Some x) => [x] | _ => [] end.

(** Every resource there is: idle, held, or destroyed *)
Definition resources (s : state) : list nat := map item (idle (pool s)) ++ (threads s ≫= held) ++ destroyed (pool s).

Record inv (s : state) : Prop := {
  i_created : created (pool s) = Z.of_nat (length (idle (pool s)) + sum_list_with uses (threads s));
  i_limit : created (pool s) <= limit (pool s);
  i_sleep : (0 < sum_list_with sleeps (threads s))%nat ->
    Z.of_nat (length (idle (pool s))) + (limit (pool s) - created (pool s)) <= Z.of_nat (sum_list_with woken (threads s));
  i_nodup : NoDup (resources s);
  i_made : forall x, x ∈ resources s -> (x < made (pool s))%nat
}.

(** What the loop of [Get] does to the pool *)
Lemma get_loop_spec now p l r p' :
  l = idle p -> get_loop now p l = (r, p') ->
  exists gone, limit p' = limit p /\ made p' = made p /\ destroyed p' = destroyed p ++ map item gone /\
    match r with
    | GotIdle x => exists n, idle p = gone ++ n :: idle p' /\ item n = x /\ created p' = created p - Z.of_nat (length gone)
    | MayCreate => idle p = gone /\ idle p' = [] /\ created p' = created p - Z.of_nat (length gone) + 1 /\
        created p - Z.of_nat (length gone) < limit p
    | MustWait => idle p = gone /\ idle p' = [] /\ created p' = created p - Z.of_nat (length gone) /\
        limit p <= created p - Z.of_nat (length gone)
    end.
Proof.
  revert p. induction l as [|n l IH]; intros p Hl; simpl.
  - destruct (created p <? limit p) eqn:Hc; intros [= <- <-]; bool_prop; exists []; simpl; rewrite <- ?Hl, ?app_nil_r;
      repeat split; try lia.
  - destruct (expired p (now n) n).
    + intros Hg. apply IH in Hg as (gone & ? & ? & ? & Hr); [|done]. simpl in *. exists (n :: gone). simpl.
      rewrite <- Hl. repeat split; [done..|by rewrite <- app_assoc in *|].
      destruct r; [destruct Hr as (n' & -> & ? & ?); exists n'|..]; simpl in *; intuition (try subst; try lia; auto).
    + intros [= <- <-]. exists []. simpl. rewrite <- Hl, app_nil_r. repeat split. exists n. repeat split. lia.
Qed.

Lemma held_moved (l : list thread) i th th' : l !! i = Some th -> (<[i := th']> l ≫= held) ++ held th ≡ₚ (l ≫= held) ++ held th'.
Proof. apply bind_insert_perm. Qed.

(** The resources that [destroy] got stay accounted for. *)
Lemma get_resources now c i s :
  threads s !! i = Some Getting \/ threads s !! i = Some Woken ->
  resources (Get now c i s) ≡ₚ resources s \/
  (resources (Get now c i s) ≡ₚ made (pool s) :: resources s /\ made (pool (Get now c i s)) = S (made (pool s))).
Proof.
  intros Hi. assert (exists th, threads s !! i = Some th /\ held th = []) as (th & Hth & Hh) by (destruct Hi; eauto).
  unfold Get. destruct (get_loop now (pool s) (idle (pool s))) as [r p'] eqn:Hg.
  apply get_loop_spec in Hg as (gone & _ & Hm & Hd & Hr); [|done]. unfold resources.
  assert (forall th', <[i := th']> (threads s) ≫= held ≡ₚ (threads s ≫= held) ++ held th') as Hmv.
  { intros th'. pose proof (held_moved _ _ _ th' Hth) as Hp. by rewrite Hh, app_nil_r in Hp. }
  destruct r as [x| |]; [| |]; simpl.
  - left. destruct Hr as (n & -> & <- & _). rewrite Hmv, Hd, map_app. simpl. solve_Permutation.
  - destruct Hr as (-> & Hi' & _). destruct c; simpl; rewrite ?Hi', Hmv, Hd, ?Hm; simpl.
    + right. split; [solve_Permutation|done].
    + left. solve_Permutation.
    + left. solve_Permutation.
  - left. destruct Hr as (-> & Hi' & _). rewrite Hi', Hmv, Hd. simpl. solve_Permutation.
Qed.

Lemma put_resources i x now s : threads s !! i = Some (Holding (Some x)) ->
  resources (goes i Gone (set_pool (put_node (mkNode x now) (pool s)) s)) ≡ₚ resources s.
Proof.
  intros Hi. unfold resources. simpl. pose proof (held_moved _ _ _ Gone Hi) as Hp. simpl in Hp.
  rewrite app_nil_r in Hp. rewrite <- Hp. solve_Permutation.
Qed.

(** [Get] keeps the counts. *)
Lemma get_counts now c i s (s' := Get now c i s) :
  threads s !! i = Some Getting \/ threads s !! i = Some Woken -> inv s ->
  created (pool s') = Z.of_nat (length (idle (pool s')) + sum_list_with uses (threads s')) /\
  created (pool s') <= limit (pool s') /\
  ((0 < sum_list_with sleeps (threads s'))%nat ->
    Z.of_nat (length (idle (pool s'))) + (limit (pool s') - created (pool s')) <= Z.of_nat (sum_list_with woken (threads s'))).
Proof.
  intros Hi [H1 H2 H3 _ _]. subst s'. unfold Get.
  destruct (get_loop now (pool s) (idle (pool s))) as [r p'] eqn:Hg.
  apply get_loop_spec in Hg as (gone & Hl & _ & _ & Hr); [|done].
  assert (length (idle (pool s)) = (length gone + match r with GotIdle _ => S (length (idle p')) | _ => length (idle p') end)%nat) as Hlen.
  { destruct r; [destruct Hr as (n & -> & _); rewrite length_app; simpl; lia|..]; destruct Hr as (-> & -> & _); simpl; lia. }
  destruct r as [x| |]; [destruct Hr as (n & _ & _ & Hc)|destruct Hr as (_ & Hid & Hc & Hlt)|destruct Hr as (_ & Hid & Hc & Hlt)];
    [|destruct c|]; simpl; rewrite Hl; destruct Hi as [Hi|Hi]; counted; try rewrite Hid in *; simpl in *; lia.
Qed.

Lemma pool_inv_step s s' : inv s -> step s s' -> inv s'.
Proof.
  intros I H. destruct H as [|i now c Hi|i Hi|i x now k Hi Hk|i x now Hi Hn].
  - destruct I as [H1 H2 H3 H4 H5].
    assert (resources (mkState (pool s) (threads s ++ [Getting])) = resources s) as Hr.
    { unfold resources. simpl. by rewrite bind_app, app_nil_r. }
    split; rewrite ?Hr; simpl; rewrite ?sum_list_with_app; simpl; (done || lia).
  - destruct (get_counts now c i s Hi I) as (? & ? & ?). destruct I as [_ _ _ H4 H5]. split; [done..| |].
    + destruct (get_resources now c i s Hi) as [->|[-> _]]; [done|]. apply NoDup_cons. split; [|done].
      intros Hx. apply H5 in Hx. lia.
    + destruct (get_resources now c i s Hi) as [Hr|[Hr Hm]]; intros x; rewrite Hr.
      * intros Hx. apply H5 in Hx. unfold Get. destruct (get_loop now (pool s) (idle (pool s))) as [r p'] eqn:Hg.
        apply get_loop_spec in Hg as (gone & _ & Hm & _); [|done]. destruct r; [|destruct c|]; simpl; lia.
      * intros [->|Hx]%elem_of_cons; [lia|]. apply H5 in Hx. lia.
  - destruct I as [H1 H2 H3 H4 H5].
    assert (resources (goes i PutNil s) ≡ₚ resources s) as Hr.
    { unfold resources. simpl. pose proof (held_moved _ _ _ PutNil Hi) as Hp. simpl in Hp. rewrite !app_nil_r in Hp. by rewrite Hp. }
    split; [| | |by rewrite Hr|intros x; rewrite Hr; apply H5]; simpl; counted; lia.
  - assert (i <> k) as Hne by congruence.
    assert (<[i := Gone]> (threads s) !! k = Some Sleeping) as Hk' by (by rewrite list_lookup_insert_ne).
    pose proof (put_resources i x now s Hi) as Hr.
    assert (resources (goes k Woken (goes i Gone (set_pool (put_node (mkNode x now) (pool s)) s))) ≡ₚ resources s) as Hr'.
    { rewrite <- Hr. unfold resources. simpl. pose proof (held_moved _ _ _ Woken Hk') as Hp. simpl in Hp.
      rewrite !app_nil_r in Hp. by rewrite Hp. }
    destruct I as [H1 H2 H3 H4 H5]. split; [| | |by rewrite Hr'|intros y; rewrite Hr'; apply H5]; simpl; clear Hr Hr'; counted; lia.
  - pose proof (put_resources i x now s Hi) as Hr.
    assert (sum_list_with sleeps (threads s) = 0)%nat as H0.
    { destruct (sum_list_with sleeps (threads s)) eqn:Es; [done|].
      destruct (sum_list_with_pos sleeps (threads s)) as (k & th & Hk & Ht); [lia|].
      destruct th; simpl in Ht; try lia. apply list_elem_of_lookup_2 in Hk. done. }
    destruct I as [H1 H2 H3 H4 H5]. split; [| | |by rewrite Hr|intros y; rewrite Hr; apply H5]; simpl; clear Hr; counted; lia.
Qed.

Lemma pool_inv_reached n age p s : NewPool n age = Ok p -> reached p s -> inv s.
Proof.
  unfold NewPool, reached. intros Hp. destruct (n <=? 0) eqn:Hn; [done|]. bool_prop. injection Hp as <-.
  revert s. apply rtc_ind_r; [|intros x y _ Hs I; by apply (pool_inv_step x)].
  split; simpl; try lia; [by apply NoDup_nil_2|set_solver].
Qed.

Lemma limit_step s s' : step s s' -> limit (pool s') = limit (pool s).
Proof.
  intros H. destruct H as [|i now c Hi|i Hi|i x now k Hi Hk|i x now Hi Hn]; try done. unfold Get.
  destruct (get_loop now (pool s) (idle (pool s))) as [r p'] eqn:Hg. apply get_loop_spec in Hg as (? & ? & _); [|done].
  by destruct r; [|destruct c|].
Qed.

Lemma limit_reached n age p s : NewPool n age = Ok p -> reached p s -> limit (pool s) = n.
Proof.
  unfold NewPool, reached. intros Hp. destruct (n <=? 0) eqn:Hn; [done|]. injection Hp as <-.
  revert s. apply rtc_ind_r; [done|]. intros x y _ Hs <-. by apply limit_step.
Qed.

Lemma held_in (l : list thread) i x : l !! i = Some (Holding (Some x)) -> x ∈ l ≫= held.
Proof. intros Hi. apply list_elem_of_bind. exists (Holding (Some x)). split; [by left|]. by eapply list_elem_of_lookup_2. Qed.

Lemma held_once (l : list thread) i k x : NoDup (l ≫= held) ->
  l !! i = Some (Holding (Some x)) -> l !! k = Some (Holding (Some x)) -> i = k.
Proof.
  revert i k. induction l as [|th l IH]; intros [|i] [|k] Hn Hi Hk; simplify_eq/=; [done|..].
  - apply NoDup_cons in Hn as [Hx _]. destruct Hx. by eapply held_in.
  - apply NoDup_cons in Hn as [Hx _]. destruct Hx. by eapply held_in.
  - f_equal. apply NoDup_app in Hn as (_ & _ & Hn). eauto.
Qed.

Lemma held_uses (l : list thread) : (length (l ≫= held) <= sum_list_with uses l)%nat.
Proof.
  induction l as [|th l IH]; [done|]. change ((th :: l) ≫= held) with (held th ++ (l ≫= held)). rewrite length_app.
  destruct th as [| | |[x|]| | |]; simpl; lia.
Qed.

Lemma uses_lost (l : list thread) : (exists x, Holding x ∈ l) \/
  sum_list_with uses l = length (filter (fun th => th = PutNil \/ th = CreatePanicked) l).
Proof.
  induction l as [|th l [(x & IH)|IH]]; [by right|left; exists x; by right|]. simpl. rewrite filter_cons, IH.
  destruct th; simpl; try (left; eexists; by left); by right.
Qed.

(** ** What the pool promises *)

(** In every state the pool reaches, at most [n] resources are idle or held, a resource has one holder
    at most, and one that is held is neither idle nor destroyed. *)
Theorem pool_exclusive n age p s : NewPool n age = Ok p -> reached p s ->
  Z.of_nat (length (idle (pool s)) + length (threads s ≫= held)) <= n /\
  (forall i k x, threads s !! i = Some (Holding (Some x)) -> threads s !! k = Some (Holding (Some x)) -> i = k) /\
  (forall i x, threads s !! i = Some (Holding (Some x)) -> x ∉ map item (idle (pool s)) /\ x ∉ destroyed (pool s)).
Proof.
  intros Hp Hs. pose proof (pool_inv_reached n age p s Hp Hs) as [H1 H2 _ H4 _]. rewrite (limit_reached n age p s Hp Hs) in H2.
  unfold resources in H4. split_and!.
  - enough (length (threads s ≫= held) <= sum_list_with uses (threads s))%nat by lia. clear.
    apply held_uses.
  - apply NoDup_app in H4 as (_ & _ & [H4 _]%NoDup_app). intros i k x. by apply held_once.
  - intros i x Hi. apply NoDup_app in H4 as (_ & Hx & (_ & Hd & _)%NoDup_app).
    assert (x ∈ threads s ≫= held) as Hin by (by eapply held_in). split; [|by apply Hd].
    intros Hm. apply (Hx x Hm). set_solver.
Qed.

(** C20: no wakeup is lost.  While a goroutine sleeps in [Get], the idle resources and the free slots are at
    most as many as the goroutines that were woken and have not run yet; so unless some goroutine is woken
    or holds a resource, every slot was lost to a [create] that returned nil or panicked. *)
Theorem pool_no_lost_wakeup n age p s : NewPool n age = Ok p -> reached p s -> Sleeping ∈ threads s ->
  Z.of_nat (length (idle (pool s))) + (n - created (pool s)) <= Z.of_nat (sum_list_with woken (threads s)) /\
  (Woken ∈ threads s \/ (exists x, Holding x ∈ threads s) \/
   Z.of_nat (length (filter (fun th => th = PutNil \/ th = CreatePanicked) (threads s))) = n).
Proof.
  intros Hp Hs Hsl. pose proof (pool_inv_reached n age p s Hp Hs) as [H1 H2 H3 _ _].
  rewrite (limit_reached n age p s Hp Hs) in *. apply list_elem_of_lookup in Hsl as [i Hi].
  apply (sum_list_with_lookup sleeps) in Hi. simpl in Hi. specialize (H3 Hi). split; [done|].
  destruct (decide (Woken ∈ threads s)) as [|Hw]; [auto|right].
  assert (sum_list_with woken (threads s) = 0)%nat as Hw0.
  { destruct (sum_list_with woken (threads s)) eqn:Es; [done|].
    destruct (sum_list_with_pos woken (threads s)) as (k & th & Hk & Ht); [lia|].
    destruct th; simpl in Ht; try lia. by apply list_elem_of_lookup_2 in Hk. }
  destruct (uses_lost (threads s)) as [|Hh]; [auto|right]. rewrite Hh in H1. lia.
Qed.

(** ** Runs *)

(** A pool of one: the first goroutine has the resource, the second one waits. *)
Lemma busy_run : exists p s, NewPool 1 0 = Ok p /\ reached p s /\ threads s = [Holding (Some 0%nat); Sleeping].
Proof.
  eexists _, _. split; [reflexivity|]. split.
  - eapply rtc_l; [apply s_new|]. eapply rtc_l; [apply s_new|].
    eapply rtc_l; [apply (s_get _ 0 (fun _ => 0) Creates); auto|].
    eapply rtc_l; [apply (s_get _ 1 (fun _ => 0) Creates); auto|]. apply rtc_refl.
  - reflexivity.
Qed.

Lemma pool_exclusive_witness : exists s, threads s = [Holding (Some 0%nat); Sleeping] /\ 0%nat ∉ destroyed (pool s).
Proof.
  destruct busy_run as (p & s & Hp & Hs & Ht). exists s. split; [exact Ht|].
  apply (pool_exclusive 1 0 p s Hp Hs) with (i := 0%nat). by rewrite Ht.
Defined.

Lemma pool_no_lost_wakeup_witness : exists s, Sleeping ∈ threads s /\
  Z.of_nat (length (idle (pool s))) + (1 - created (pool s)) <= Z.of_nat (sum_list_with woken (threads s)).
Proof.
  destruct busy_run as (p & s & Hp & Hs & Ht).
  assert (Sleeping ∈ threads s) as Hsl by (rewrite Ht; set_solver). exists s. split; [exact Hsl|].
  exact (proj1 (pool_no_lost_wakeup 1 0 p s Hp Hs Hsl)).
Defined.

(** Nobody has a resource, nobody was woken, and no slot is free. *)
Definition exhausted (s : state) : Prop :=
  idle (pool s) = [] /\ created (pool s) = limit (pool s) /\
  forall i th, threads s !! i = Some th -> match th with Woken | Holding _ => False | _ => True end.

Lemma exhausted_step s s' i : exhausted s -> step s s' -> threads s !! i = Some Sleeping ->
  exhausted s' /\ threads s' !! i = Some Sleeping.
Proof.
  intros (He & Hc & Ht) H Hi. destruct H as [|k now c Hk|k Hk|k x now m Hk|k x now Hk]; try by destruct (Ht _ _ Hk).
  - split; [|by apply lookup_app_l_Some]. split_and!; [done..|]. simpl. intros k th [Hk|[_ Hk]]%lookup_app_Some; [exact (Ht _ _ Hk)|].
    by destruct (k - length (threads s))%nat; simplify_eq/=.
  - assert (Get now c k s = goes k Sleeping (set_pool (pool s) s)) as ->.
    { unfold Get. rewrite He. simpl. by rewrite Hc, Z.ltb_irrefl. }
    destruct Hk as [Hk|Hk]; [|by destruct (Ht _ _ Hk)].
    assert (k <> i) by congruence. split; [|simpl; by rewrite list_lookup_insert_ne].
    split_and!; [done..|]. simpl. intros m th [[-> ->]|Hm]%lookup_insert_cases; [done|exact (Ht _ _ Hm)].
Qed.

(** A [create] that panics, or a nil resource that is put back, takes its slot with it: afterwards a pool of
    one lets everybody who asks for a resource wait for ever. *)
Theorem failed_create_blocks_pool (c : creation) : c <> Creates -> exists p s i, NewPool 1 0 = Ok p /\ reached p s /\
  threads s !! i = Some Sleeping /\ forall s', rtc step s s' -> threads s' !! i = Some Sleeping.
Proof.
  intros Hc.
  assert (exists s, reached (mkPool 1 0 0 [] 0 []) s /\ exhausted s /\ threads s !! 1%nat = Some Sleeping) as (s & Hs & He & Hi).
  { destruct c; [done|..]; eexists.
    - split; [|split]; [| |].
      + eapply rtc_l; [apply s_new|]. eapply rtc_l; [apply s_new|].
        eapply rtc_l; [apply (s_get _ 0 (fun _ => 0) CreatesNil); auto|].
        eapply rtc_l; [by apply (s_put_nil _ 0)|].
        eapply rtc_l; [apply (s_get _ 1 (fun _ => 0) Creates); auto|]. apply rtc_refl.
      + split_and!; [done..|]. by intros [|[|i]] th [= <-].
      + done.
    - split; [|split]; [| |].
      + eapply rtc_l; [apply s_new|]. eapply rtc_l; [apply s_new|].
        eapply rtc_l; [apply (s_get _ 0 (fun _ => 0) CreatePanics); auto|].
        eapply rtc_l; [apply (s_get _ 1 (fun _ => 0) Creates); auto|]. apply rtc_refl.
      + split_and!; [done..|]. by intros [|[|i]] th [= <-].
      + done. }
  exists (mkPool 1 0 0 [] 0 []), s, 1%nat. split_and!; [done..|]. intros s' Hr. clear Hs.
  induction Hr as [|s s1 s' H _ IH]; [done|]. destruct (exhausted_step s s1 1 He H Hi). by apply IH.
Qed.
