(* ===== verification/TimeoutLimit.v ===== *)
(** * [core/syncx]: [limit.go], [cond.go] and [timeoutlimit.go]

    Limits on the number of borrowed elements, with and without a timeout.  Calls from several goroutines are
    threads, and a step is one channel or condition operation. *)

From S2P Require Import Prelude.
Local Open Scope Z_scope.

(** The elements in the channel of a [Limit], and its capacity *)
Record Limit := mkLimit { lent : nat; capacity : nat }.
Definition NewLimit (n : nat) : Limit := mkLimit 0 n.

(** [None]: the send would block. *)
Definition Borrow (l : Limit) : option Limit :=
  if (lent l <? capacity l)%nat then Some (mkLimit (S (lent l)) (capacity l)) else None.
Definition TryBorrow (l : Limit) : bool * Limit :=
  match Borrow l with Some l' => (true, l') | None => (false, l) end.
(** [false] is [ErrLimitReturn]. *)
Definition Return (l : Limit) : bool * Limit :=
  match lent l with O => (false, l) | S n => (true, mkLimit n (capacity l)) end.

(** A goroutine in [TimeoutLimit.Borrow] with the time it has left: before the first [TryBorrow]; before
    the [select] of [WaitWithTimeout]; in it; signalled.  It holds an element; it got [ErrTimeout]; it has
    returned its element and has yet to signal; it is gone; its return was refused. *)
Variant thread :=
| BStart (timeout : Z) | BEnter (timeout : Z) | BWait (timeout : Z) | BWoke (timeout : Z)
| BHolds | BTimedOut | BSignals | BGone | BRefused.

Record state := mkState { limit : Limit; threads : list thread }.
Definition goes (i : nat) (th : thread) (s : state) : state := mkState (limit s) (<[i := th]> (threads s)).
Definition set_limit (l : Limit) (s : state) : state := mkState l (threads s).
Definition waits (th : thread) : bool := match th with BWait _ => true | _ => false end.

Inductive step (s : state) : state -> Prop :=
| s_new timeout : step s (mkState (limit s) (threads s ++ [BStart timeout]))
| s_borrow i t l : threads s !! i = Some (BStart t) -> TryBorrow (limit s) = (true, l) -> step s (goes i BHolds (set_limit l s))
| s_full i t l : threads s !! i = Some (BStart t) -> TryBorrow (limit s) = (false, l) -> step s (goes i (BEnter t) (set_limit l s))
| s_wait i t : threads s !! i = Some (BEnter t) -> step s (goes i (BWait t) s)
| s_timer i t : threads s !! i = Some (BWait t) -> step s (goes i BTimedOut s)
| s_retry i t l : threads s !! i = Some (BWoke t) -> TryBorrow (limit s) = (true, l) -> step s (goes i BHolds (set_limit l s))
| s_again i t l : threads s !! i = Some (BWoke t) -> TryBorrow (limit s) = (false, l) ->
    step s (goes i (if t <=? 0 then BTimedOut else BEnter t) (set_limit l s))
| s_return i l : threads s !! i = Some BHolds -> Return (limit s) = (true, l) -> step s (goes i BSignals (set_limit l s))
| s_refused i l : threads s !! i = Some BHolds -> Return (limit s) = (false, l) -> step s (goes i BRefused (set_limit l s))
| s_signal i k t elapsed : threads s !! i = Some BSignals -> threads s !! k = Some (BWait t) -> 0 <= elapsed ->
    step s (goes k (BWoke (t - elapsed)) (goes i BGone s))
| s_nobody i : threads s !! i = Some BSignals -> existsb waits (threads s) = false -> step s (goes i BGone s).

Definition reached (n : nat) (s : state) : Prop := rtc step (mkState (NewLimit n) []) s.

Definition holds (th : thread) : nat := match th with BHolds => 1 | _ => 0 end.

Record inv (n : nat) (s : state) : Prop := {
  i_lent : lent (limit s) = sum_list_with holds (threads s);
  i_capacity : capacity (limit s) = n;
  i_bound : (lent (limit s) <= n)%nat;
  i_refused : BRefused ∉ threads s
}.

Lemma borrow_true l l' : TryBorrow l = (true, l') -> (lent l < capacity l)%nat /\ l' = mkLimit (S (lent l)) (capacity l).
Proof. unfold TryBorrow, Borrow. destruct (lent l <? capacity l)%nat eqn:H; [|done]. intros [= <-]. bool_prop. done. Qed.
Lemma borrow_false l l' : TryBorrow l = (false, l') -> (capacity l <= lent l)%nat /\ l' = l.
Proof. unfold TryBorrow, Borrow. destruct (lent l <? capacity l)%nat eqn:H; [done|]. intros [= <-]. bool_prop. done. Qed.

(** A refused thread is a thread that moved there. *)
Lemma refused_moved (l : list thread) i th : BRefused ∉ l -> th <> BRefused -> BRefused ∉ <[i := th]> l.
Proof. intros Hl Hth [k [[-> ?]|Hk]%lookup_insert_cases]%list_elem_of_lookup; [done|]. by apply list_elem_of_lookup_2 in Hk. Qed.

Lemma limit_inv_step n s s' : inv n s -> step s s' -> inv n s'.
Proof.
  intros [H1 H2 H3 H4] H. destruct H.
  all: try match goal with B : TryBorrow _ = (true, _) |- _ => apply borrow_true in B as [? ->]
       | B : TryBorrow _ = (false, _) |- _ => apply borrow_false in B as [? ->]
       | B : Return _ = _ |- _ => unfold Return in B; destruct (lent (limit s)) eqn:?; simplify_eq/= end.
  all: split; simpl; try done; try (by apply refused_moved); try (by (repeat apply refused_moved)); try (counted; lia).
  - set_solver.
  - destruct (t <=? 0); counted; lia.
  - apply refused_moved; [done|]. by destruct (t <=? 0).
  - exfalso. match goal with H : threads s !! _ = Some BHolds |- _ => apply (sum_list_with_lookup holds) in H end.
    simpl in *. lia.
  - assert (<[i := BGone]> (threads s) !! k = Some (BWait t)) as Hk by (rewrite list_lookup_insert_ne; congruence).
    counted. lia.
Qed.

(** At most [n] goroutines hold an element of the limit, as many as it counts, and no return of a borrowed
    element is refused. *)
Theorem timeout_limit_bounded n s : reached n s ->
  (sum_list_with holds (threads s) <= n)%nat /\ lent (limit s) = sum_list_with holds (threads s) /\ BRefused ∉ threads s.
Proof.
  intros Hs. enough (inv n s) as [H1 _ H3 H4] by (by rewrite <- H1). revert s Hs. apply rtc_ind_r.
  - split; simpl; [done|done|lia|set_solver].
  - intros x y _ Hs I. by apply (limit_inv_step n x).
Qed.

(** A goroutine finds the limit exhausted; before it waits, the element comes back and the signal meets
    nobody; it waits until its time is over and reports a timeout, while the element is free. *)
Theorem borrow_times_out_although_free : exists s, reached 1 s /\ threads s = [BGone; BTimedOut] /\ lent (limit s) = 0%nat.
Proof.
  eexists. split.
  - eapply rtc_l; [apply (s_new _ 5)|]. eapply rtc_l; [by eapply (s_borrow _ 0)|].
    eapply rtc_l; [apply (s_new _ 5)|]. eapply rtc_l; [by eapply (s_full _ 1)|].
    eapply rtc_l; [by eapply (s_return _ 0)|]. eapply rtc_l; [by eapply (s_nobody _ 0)|].
    eapply rtc_l; [by eapply (s_wait _ 1)|]. eapply rtc_l; [by eapply (s_timer _ 1)|]. apply rtc_refl.
  - done.
Qed.
