(* ===== verification/RefResource.v ===== *)
(** * [core/syncx/refresource.go]: a resource that is cleaned when its references are gone

    Every call is one critical section; the counter is an int32. *)

From S2P Require Import Prelude.
Local Open Scope Z_scope.

(** [ref] is an int32; [cleans] counts the calls of [clean]. *)
Record RefResource := mkRef { ref : Z; cleaned : bool; cleans : nat }.
Definition NewRefResource : RefResource := mkRef 0 false 0.

Definition int32 (x : Z) : Z := (x + 2 ^ 31) mod 2 ^ 32 - 2 ^ 31.

(** [false] is [ErrUseOfCleaned]. *)
Definition Use (r : RefResource) : bool * RefResource :=
  if cleaned r then (false, r) else (true, mkRef (int32 (ref r + 1)) false (cleans r)).
Definition Clean (r : RefResource) : RefResource :=
  if cleaned r then r
  else let n := int32 (ref r - 1) in
       if n =? 0 then mkRef n true (S (cleans r)) else mkRef n false (cleans r).

Variant op := OpUse | OpClean.
Definition apply_op (r : RefResource) (o : op) : RefResource := match o with OpUse => (Use r).2 | OpClean => Clean r end.

(** The references that are left after a sequence of operations: [None] when they came down to zero *)
Definition count_op (c : option Z) (o : op) : option Z :=
  match c, o with
  | None, _ => None
  | Some n, OpUse => Some (n + 1)
  | Some n, OpClean => if n - 1 =? 0 then None else Some (n - 1)
  end.

Definition shows (c : option Z) (r : RefResource) : Prop :=
  match c with
  | Some n => ref r = n /\ cleaned r = false /\ cleans r = 0%nat
  | None => cleaned r = true /\ cleans r = 1%nat
  end.

Lemma int32_id x : - 2 ^ 31 <= x < 2 ^ 31 -> int32 x = x.
Proof. intros H. unfold int32. rewrite Z.mod_small; lia. Qed.

(** With fewer than 2^31 operations the resource is cleaned when, and only when, the references come down
    to zero, once, and from then on every [Use] fails. *)
Theorem ref_resource_counts (l : list op) : Z.of_nat (length l) < 2 ^ 31 ->
  let r := foldl apply_op NewRefResource l in
  shows (foldl count_op (Some 0) l) r /\ (cleans r <= 1)%nat /\ ((Use r).1 = false <-> cleans r = 1%nat).
Proof.
  intros Hl. cbv zeta.
  enough (shows (foldl count_op (Some 0) l) (foldl apply_op NewRefResource l) /\
          match foldl count_op (Some 0) l with Some n => - Z.of_nat (length l) <= n <= Z.of_nat (length l) | None => True end) as [H _].
  { split; [done|]. unfold Use. destruct (foldl count_op _ l); simpl in H; [destruct H as (_ & -> & ->)|destruct H as [-> ->]];
      simpl; split; try lia; split; intros; (done || lia). }
  induction l as [|o l IH] using rev_ind; [by split|]. rewrite length_app in *. simpl in *. rewrite !foldl_snoc.
  destruct IH as [IH Hb]; [lia|]. destruct (foldl count_op (Some 0) l) as [n|], (foldl apply_op NewRefResource l) as [f c k];
    simpl in *; [destruct IH as (-> & -> & ->)|destruct IH as [-> ->]; by destruct o].
  destruct o; simpl; unfold Clean; simpl; rewrite int32_id by lia; [split; [done|lia]|].
  destruct (n - 1 =? 0); simpl; split; try done; lia.
Qed.
