(* ===== verification/ManagedResource.v ===== *)
(** * [core/syncx/managedresource.go]: a resource that is made again when it is marked broken

    Calls from several goroutines are threads, and a step is one critical section.  [generate] may return nil. *)

From S2P Require Import Prelude.
Local Open Scope Z_scope.

Section managed.
Context {A : Type} (equals : option A -> A -> bool).

(** A goroutine in [Take]: before the read lock; before the write lock; at its end.  One in [MarkBroken]. *)
Variant thread := TStart | TSlow | TDone (r : option A) | TMark (x : A) | TMarked.

(** [generated] has what [generate] returned, and [breaks] counts the resources that were dropped. *)
Record state := mkState { resource : option A; threads : list thread; generated : list (option A); breaks : nat }.
Definition goes (i : nat) (th : thread) (s : state) : state := mkState (resource s) (<[i := th]> (threads s)) (generated s) (breaks s).

(** The critical section of [Take], when [generate] would return [x] *)
Definition Take_slow (x : option A) (i : nat) (s : state) : state :=
  match resource s with
  | Some r => goes i (TDone (Some r)) s
  | None => mkState x (<[i := TDone x]> (threads s)) (generated s ++ [x]) (breaks s)
  end.
Definition MarkBroken (x : A) (i : nat) (s : state) : state :=
  if equals (resource s) x
  then mkState None (<[i := TMarked]> (threads s)) (generated s) (if resource s then S (breaks s) else breaks s)
  else goes i TMarked s.

Inductive step (s : state) : state -> Prop :=
| s_new th : th = TStart \/ (exists x, th = TMark x) -> step s (mkState (resource s) (threads s ++ [th]) (generated s) (breaks s))
| s_fast i r : threads s !! i = Some TStart -> resource s = Some r -> step s (goes i (TDone (Some r)) s)
| s_slow i : threads s !! i = Some TStart -> resource s = None -> step s (goes i TSlow s)
| s_generate i x : threads s !! i = Some TSlow -> step s (Take_slow x i s)
| s_mark i x : threads s !! i = Some (TMark x) -> step s (MarkBroken x i s).

Definition reached (s : state) : Prop := rtc step (mkState None [] [] 0) s.

(** The resources that [generate] made *)
Definition made (l : list (option A)) : nat := length (omap id l).

Record inv (s : state) : Prop := {
  i_made : made (generated s) = (breaks s + if resource s then 1 else 0)%nat;
  i_current : forall r, resource s = Some r -> exists l, generated s = l ++ [Some r];
  i_done : forall i r, threads s !! i = Some (TDone (Some r)) -> Some r ∈ generated s
}.

Lemma managed_inv_step s s' : inv s -> step s s' -> inv s'.
Proof.
  intros [H1 H2 H3] H.
  assert (forall i th, (forall r, th = TDone (Some r) -> Some r ∈ generated s) ->
    forall k r, <[i := th]> (threads s) !! k = Some (TDone (Some r)) -> Some r ∈ generated s) as Hmv.
  { intros i th Hth k r [[-> Hx]|Hk]%lookup_insert_cases; [by apply Hth|by eapply H3]. }
  assert (forall r, resource s = Some r -> Some r ∈ generated s) as Hcur.
  { intros r (l & ->)%H2. set_solver. }
  destruct H as [th Hth|i r Hi Hr|i Hi Hr|i x Hi|i x Hi].
  - split; simpl; [done|done|]. intros k r [Hk|[_ Hk]]%lookup_app_Some; [by eapply H3|].
    destruct (k - length (threads s))%nat; simplify_eq/=. naive_solver.
  - split; simpl; [done|done|]. apply Hmv. naive_solver.
  - split; simpl; [done|done|]. by apply Hmv.
  - unfold Take_slow. destruct (resource s) as [r|] eqn:Hr; split; simpl; rewrite ?Hr; try done.
    + apply Hmv. naive_solver.
    + unfold made in *. rewrite omap_app, length_app, H1. destruct x; simpl; lia.
    + intros r ->. eauto.
    + intros k r [[-> [= <-]]|Hk]%lookup_insert_cases; [set_solver|]. apply elem_of_app. left. by eapply H3.
  - unfold MarkBroken. destruct (equals (resource s) x); split; simpl; try done; [|by apply Hmv..].
    rewrite H1. destruct (resource s); lia.
Qed.

(** However the calls interleave, [generate] makes a resource only when there is none: the resources made
    are those that were marked broken and the present one.  [Take] returns a resource that was made. *)
Theorem managed_generates_once s : reached s ->
  made (generated s) = (breaks s + if resource s then 1 else 0)%nat /\
  (forall i r, threads s !! i = Some (TDone (Some r)) -> Some r ∈ generated s).
Proof.
  intros Hs. enough (inv s) as [H1 _ H3] by done. revert s Hs. apply rtc_ind_r.
  - split; simpl; [done|done|]. intros i r Hi. by rewrite lookup_nil in Hi.
  - intros x y _ Hs I. by apply (managed_inv_step x).
Qed.
End managed.
