(* ===== verification/ImmutableResource.v ===== *)
(** * [core/syncx/immutableresource.go]: a resource that is fetched once

    Calls from several goroutines are threads, and a step is one critical section or one atomic operation. *)

From S2P Require Import Prelude.
Local Open Scope Z_scope.

Section immutable.
Context {A E : Type} (refreshInterval : Z).

(** A goroutine in [Get]: before the read lock; before it reads the clock; before it loads the last time;
    before it sets it; in [fetch]; before it stores the result; before it reads the result; at its end. *)
Variant thread :=
| IStart | INow | ILoad (now : Z) | ISet (now : Z) | IFetch | IStore (r : option A) (e : option E) | IRead
| IDone (r : option A) (e : option E).

(** [fetched] records what [fetch] returned. *)
Record state := mkState {
  resource : option A; err : option E; lastTime : Z; threads : list thread; fetched : list (option A * option E)
}.
Definition goes (i : nat) (th : thread) (s : state) : state :=
  mkState (resource s) (err s) (lastTime s) (<[i := th]> (threads s)) (fetched s).
Definition set_time (t : Z) (s : state) : state := mkState (resource s) (err s) t (threads s) (fetched s).
Definition log (r : option A) (e : option E) (s : state) : state :=
  mkState (resource s) (err s) (lastTime s) (threads s) (fetched s ++ [(r, e)]).
(** The critical section in which the result of [fetch] is stored *)
Definition store (r : option A) (e : option E) (s : state) : state :=
  match e with
  | Some _ => mkState (resource s) e (lastTime s) (threads s) (fetched s)
  | None => mkState r None (lastTime s) (threads s) (fetched s)
  end.

Inductive step (s : state) : state -> Prop :=
| s_new : step s (mkState (resource s) (err s) (lastTime s) (threads s ++ [IStart]) (fetched s))
| s_loaded i r : threads s !! i = Some IStart -> resource s = Some r -> step s (goes i (IDone (Some r) None) s)
| s_missing i : threads s !! i = Some IStart -> resource s = None -> step s (goes i INow s)
| s_now i now : threads s !! i = Some INow -> step s (goes i (ILoad now) s)
| s_refresh i now : threads s !! i = Some (ILoad now) -> lastTime s = 0 \/ lastTime s + refreshInterval < now -> step s (goes i (ISet now) s)
| s_recent i now : threads s !! i = Some (ILoad now) -> lastTime s <> 0 -> now <= lastTime s + refreshInterval -> step s (goes i IRead s)
| s_set i now : threads s !! i = Some (ISet now) -> step s (goes i IFetch (set_time now s))
| s_fetch i r e : threads s !! i = Some IFetch -> step s (goes i (IStore r e) (log r e s))
| s_store i r e : threads s !! i = Some (IStore r e) -> step s (goes i IRead (store r e s))
| s_read i : threads s !! i = Some IRead -> step s (goes i (IDone (resource s) (err s)) s).

Definition reached (s : state) : Prop := rtc step (mkState None None 0 [] []) s.

(** What a thread holds was fetched. *)
Definition fetched_ok (l : list (option A * option E)) (th : thread) : Prop :=
  match th with
  | IStore r e => (r, e) ∈ l
  | IDone r e => (forall x, r = Some x -> (Some x, None) ∈ l) /\ (forall x, e = Some x -> exists y, (y, Some x) ∈ l)
  | _ => True
  end.

Record inv (s : state) : Prop := {
  i_resource : forall x, resource s = Some x -> (Some x, None) ∈ fetched s;
  i_error : forall x, err s = Some x -> exists y, (y, Some x) ∈ fetched s;
  i_threads : forall i th, threads s !! i = Some th -> fetched_ok (fetched s) th
}.

Lemma fetched_ok_app l p th : fetched_ok l th -> fetched_ok (l ++ [p]) th.
Proof. destruct th; simpl; try done; [set_solver|]. intros [H1 H2]. split; intros x Hx; [apply H1 in Hx|apply H2 in Hx as [y ?]; exists y]; set_solver. Qed.

Lemma immutable_inv_step s s' : inv s -> step s s' -> inv s'.
Proof.
  intros [H1 H2 H3] H.
  assert (forall i th, fetched_ok (fetched s) th -> forall k x, <[i := th]> (threads s) !! k = Some x -> fetched_ok (fetched s) x) as Hmv.
  { intros i th Hth k x [[-> ->]|Hk]%lookup_insert_cases; [done|by eapply H3]. }
  destruct H as [|i r Hi Hr|i Hi Hr|i now Hi|i now Hi Ht|i now Hi Ht Hl|i now Hi|i r e Hi|i r e Hi|i Hi].
  - split; simpl; [done|done|]. intros k th [Hk|[_ Hk]]%lookup_app_Some; [by eapply H3|].
    by destruct (k - length (threads s))%nat; simplify_eq/=.
  - split; simpl; [done|done|]. apply Hmv. simpl. split; [intros x [= <-]; auto|done].
  - split; simpl; [done|done|]. by apply Hmv.
  - split; simpl; [done|done|]. by apply Hmv.
  - split; simpl; [done|done|]. by apply Hmv.
  - split; simpl; [done|done|]. by apply Hmv.
  - split; simpl; [done|done|]. by apply Hmv.
  - split; simpl.
    + intros x Hx. apply H1 in Hx. set_solver.
    + intros x Hx. apply H2 in Hx as [y ?]. exists y. set_solver.
    + intros k th [[-> ->]|Hk]%lookup_insert_cases; [simpl; set_solver|]. apply fetched_ok_app. by eapply H3.
  - pose proof (H3 _ _ Hi) as Hf. simpl in Hf. unfold store. destruct e as [e|]; split; simpl; try done; try (by apply Hmv).
    + intros x [= <-]. eauto.
    + intros x ->. done.
  - split; simpl; [done|done|]. by apply Hmv.
Qed.

(** A resource that [Get] returns was fetched without an error, and an error it returns came from a fetch. *)
Theorem immutable_get_fetched s i r e : reached s -> threads s !! i = Some (IDone r e) ->
  (forall x, r = Some x -> (Some x, None) ∈ fetched s) /\ (forall x, e = Some x -> exists y, (y, Some x) ∈ fetched s).
Proof.
  intros Hs. enough (inv s) as [_ _ H3] by apply (H3 i (IDone r e)). revert s Hs. apply rtc_ind_r.
  - split; simpl; [done|done|]. intros k th Hk. by rewrite lookup_nil in Hk.
  - intros x y _ Hs I. by apply (immutable_inv_step x).
Qed.
End immutable.

(** While the first [Get] fetches, a second one finds that the last refresh was recent and returns neither a
    resource nor an error. *)
Theorem get_returns_nothing : exists s : @state nat unit, reached 10 s /\
  threads s = [IFetch; IDone None None] /\ fetched s = [].
Proof.
  eexists. split.
  - eapply rtc_l; [apply s_new|]. eapply rtc_l; [by eapply (s_missing _ _ 0)|]. eapply rtc_l; [by eapply (s_now _ _ 0 5)|].
    eapply rtc_l; [eapply (s_refresh _ _ 0); [done|by left]|]. eapply rtc_l; [by eapply (s_set _ _ 0)|].
    eapply rtc_l; [apply s_new|]. eapply rtc_l; [by eapply (s_missing _ _ 1)|]. eapply rtc_l; [by eapply (s_now _ _ 1 6)|].
    eapply rtc_l; [by eapply (s_recent _ _ 1)|]. eapply rtc_l; [by eapply (s_read _ _ 1)|]. apply rtc_refl.
  - done.
Qed.
