(* ===== verification/StableRunner.v ===== *)
(** * [core/threading]: the task runner and the stable runner

    [taskrunner.go] and [stablerunner.go].  The goroutines that push, the tasks, the one that gets and the
    one that waits are threads over the shared ring; a step is one channel, lock or atomic operation.  The
    task of a message is kept with the slot whose lock it holds.  Values carry the index of their message,
    which the code does not have: no step looks at it.  The counters of type uint64 do not wrap. *)

From S2P Require Import Prelude.
Local Open Scope nat_scope.

Section runner.
Context {I O : Type}.

(** [handle] panics where it is [None]; the number of processors, and [single]: whether there is one
    goroutine only that pushes. *)
Context (handle : I -> option O) (cpus : nat) (single : bool).

Definition factor : nat := 10.
Definition bufSize : nat := cpus * factor.

(** The holder of the lock of a slot: in [Schedule], before the send to [limitChan]; in [handle]; before the
    send to [value]; before [Unlock]. *)
Variant act := Scheduling (idx : nat) (v : I) | Running (idx : nat) (v : I) | Sending (idx : nat) (o : O) | Unlocking.
Record slot := mkSlot { value : option (nat * O); lock : option act }.

(** The goroutine that gets: outside; in the [select]; receiving after [done].  The one that waits: before
    [close(done)]; in [runner.Wait]; in the loop; at its end. *)
Variant getter := GIdle | GSelect | GDrain.
Variant waiter := WIdle | WTasks | WSpins | WReturned.

(** The pushers past the check of [done], and those that have an index and wait for the lock; the tasks of
    the [TaskRunner] that hold its [limitChan], those of them that have unlocked their slot, and its wait
    group; [pushed] and [got] record the messages in the order of their indices, and what [Get] returned,
    [None] being [ErrRunnerClosed]. *)
Record state := mkState {
  ring : list slot; writtenIndex : nat; consumedIndex : nat; done_ : bool;
  entering : list I; waiting : list (nat * I);
  limitChan : nat; finishing : nat; waitGroup : nat;
  getting : getter; waits : waiter;
  pushed : list I; got : list (option O)
}.

Definition NewStableRunner : state :=
  mkState (replicate bufSize (mkSlot None None)) 0 0 false [] [] 0 0 0 GIdle WIdle [] [].

Definition offset (idx : nat) : nat := idx mod bufSize.
Definition set_slot (k : nat) (x : slot) (s : state) : state :=
  mkState (<[k := x]> (ring s)) (writtenIndex s) (consumedIndex s) (done_ s) (entering s) (waiting s) (limitChan s) (finishing s) (waitGroup s) (getting s) (waits s) (pushed s) (got s).
Definition set_entering l s :=
  mkState (ring s) (writtenIndex s) (consumedIndex s) (done_ s) l (waiting s) (limitChan s) (finishing s) (waitGroup s) (getting s) (waits s) (pushed s) (got s).
Definition set_waiting l s :=
  mkState (ring s) (writtenIndex s) (consumedIndex s) (done_ s) (entering s) l (limitChan s) (finishing s) (waitGroup s) (getting s) (waits s) (pushed s) (got s).
Definition set_tasks n f w s :=
  mkState (ring s) (writtenIndex s) (consumedIndex s) (done_ s) (entering s) (waiting s) n f w (getting s) (waits s) (pushed s) (got s).
Definition set_getting g s :=
  mkState (ring s) (writtenIndex s) (consumedIndex s) (done_ s) (entering s) (waiting s) (limitChan s) (finishing s) (waitGroup s) g (waits s) (pushed s) (got s).
Definition set_waits (d : bool) w s :=
  mkState (ring s) (writtenIndex s) (consumedIndex s) d (entering s) (waiting s) (limitChan s) (finishing s) (waitGroup s) (getting s) w (pushed s) (got s).
(** [atomic.AddUint64(&r.writtenIndex, 1)] by the pusher of [v] *)
Definition add_written v s :=
  mkState (ring s) (S (writtenIndex s)) (consumedIndex s) (done_ s) (entering s) (waiting s ++ [(writtenIndex s, v)]) (limitChan s) (finishing s) (waitGroup s) (getting s) (waits s) (pushed s ++ [v]) (got s).
(** [Get] returns: the deferred [atomic.AddUint64(&r.consumedIndex, 1)]. *)
Definition add_consumed o s :=
  mkState (ring s) (writtenIndex s) (S (consumedIndex s)) (done_ s) (entering s) (waiting s) (limitChan s) (finishing s) (waitGroup s) GIdle (waits s) (pushed s) (got s ++ [o]).

(** A pusher is on its way. *)
Definition scheduling (x : slot) : bool := match lock x with Some (Scheduling _ _) => true | _ => false end.
Definition pushing (s : state) : bool :=
  match entering s, waiting s with [], [] => existsb scheduling (ring s) | _, _ => true end.

(** The steps of calls and tasks on their way *)
Inductive istep (s : state) : state -> Prop :=
(* Push *)
| p_index l v l' : entering s = l ++ v :: l' -> istep s (add_written v (set_entering (l ++ l') s))
| p_lock l idx v l' o : waiting s = l ++ (idx, v) :: l' -> ring s !! offset idx = Some (mkSlot o None) ->
    istep s (set_slot (offset idx) (mkSlot o (Some (Scheduling idx v)))
              (set_tasks (limitChan s) (finishing s) (S (waitGroup s)) (set_waiting (l ++ l') s)))
| p_schedule k idx v o : ring s !! k = Some (mkSlot o (Some (Scheduling idx v))) -> limitChan s < cpus ->
    istep s (set_slot k (mkSlot o (Some (Running idx v))) (set_tasks (S (limitChan s)) (finishing s) (waitGroup s) s))
(* the tasks *)
| t_handle k idx v o x : ring s !! k = Some (mkSlot o (Some (Running idx v))) -> handle v = Some x ->
    istep s (set_slot k (mkSlot o (Some (Sending idx x))) s)
| t_panic k idx v o : ring s !! k = Some (mkSlot o (Some (Running idx v))) -> handle v = None ->
    istep s (set_slot k (mkSlot o (Some Unlocking)) s)
| t_send k idx x : ring s !! k = Some (mkSlot None (Some (Sending idx x))) ->
    istep s (set_slot k (mkSlot (Some (idx, x)) (Some Unlocking)) s)
| t_unlock k o : ring s !! k = Some (mkSlot o (Some Unlocking)) ->
    istep s (set_slot k (mkSlot o None) (set_tasks (limitChan s) (S (finishing s)) (waitGroup s) s))
| t_done n : finishing s = S n -> istep s (set_tasks (pred (limitChan s)) n (pred (waitGroup s)) s)
(* Get *)
| g_take idx x l : getting s <> GIdle -> ring s !! offset (consumedIndex s) = Some (mkSlot (Some (idx, x)) l) ->
    istep s (add_consumed (Some x) (set_slot (offset (consumedIndex s)) (mkSlot None l) s))
| g_drain : getting s = GSelect -> done_ s = true -> consumedIndex s < writtenIndex s -> istep s (set_getting GDrain s)
| g_closed : getting s = GSelect -> done_ s = true -> writtenIndex s <= consumedIndex s -> istep s (add_consumed None s)
(* Wait *)
| w_tasks : waits s = WTasks -> waitGroup s = 0 -> istep s (set_waits (done_ s) WSpins s)
| w_return : waits s = WSpins -> writtenIndex s <= consumedIndex s -> istep s (set_waits (done_ s) WReturned s).

(** ... or a new call of [Push], [Get] or [Wait]; a [Push] after [done] changes nothing. *)
Inductive step (s : state) : state -> Prop :=
| s_internal s' : istep s s' -> step s s'
| s_push v : done_ s = false -> (single = true -> pushing s = false) -> step s (set_entering (entering s ++ [v]) s)
| s_get : getting s = GIdle -> step s (set_getting GSelect s)
| s_wait : waits s = WIdle -> step s (set_waits true WTasks s).

Definition reached (s : state) : Prop := rtc step NewStableRunner s.

(** ** The messages of a slot *)

(** The indices not yet consumed that belong to slot [k], in order *)
Definition pending (k C W : nat) : list nat := filter (fun i => offset i = k) (seq C (W - C)).
Definition act_idx (a : option act) : list nat :=
  match a with Some (Scheduling i _) | Some (Running i _) | Some (Sending i _) => [i] | _ => [] end.
(** The indices that wait at slot [k]: in its channel, with the holder of its lock, and before the lock *)
Definition queue (s : state) (k : nat) (x : slot) : list nat :=
  option_list (fst <$> value x) ++ act_idx (lock x) ++ filter (fun i => offset i = k) (map fst (waiting s)).

Lemma pending_add k C W : C <= W -> pending k C (S W) = pending k C W ++ (if decide (offset W = k) then [W] else []).
Proof.
  intros H. unfold pending. rewrite Nat.sub_succ_l, seq_S, filter_app by done. f_equal.
  rewrite filter_cons, filter_nil. by replace (C + (W - C)) with W by lia.
Qed.

Lemma pending_take k C W : C < W -> pending k C W = (if decide (offset C = k) then [C] else []) ++ pending k (S C) W.
Proof.
  intros H. unfold pending. replace (W - C) with (S (W - S C)) by lia. simpl. rewrite filter_cons.
  by destruct (decide _).
Qed.

Lemma pending_head k C W i l : pending k C W = i :: l -> offset C = k -> C < W -> i = C.
Proof. intros H Hk Hw. rewrite pending_take in H by done. rewrite decide_True in H by done. by injection H as -> _. Qed.

Lemma pending_lt k C W i : i ∈ pending k C W -> C <= i < W /\ offset i = k.
Proof. unfold pending. rewrite list_elem_of_filter, elem_of_seq. lia. Qed.

(** What is said of the message of an activity *)
Definition act_ok (p : list I) (a : option act) : Prop :=
  match a with
  | Some (Scheduling i v) | Some (Running i v) => p !! i = Some v
  | Some (Sending i o) => exists v, p !! i = Some v /\ handle v = Some o
  | _ => True
  end.

Definition sched (x : slot) : nat := if scheduling x then 1 else 0.

Context (Hsingle : single = true) (Htotal : forall v, handle v <> None).

Record inv (s : state) : Prop := {
  i_len : length (ring s) = bufSize;
  i_pushed : length (pushed s) = writtenIndex s;
  i_one : length (entering s) + length (waiting s) + sum_list_with sched (ring s) <= 1;
  i_waiting : forall i v, (i, v) ∈ waiting s -> pushed s !! i = Some v;
  i_act : forall k x, ring s !! k = Some x -> act_ok (pushed s) (lock x);
  i_value : forall k x i o, ring s !! k = Some x -> value x = Some (i, o) -> exists v, pushed s !! i = Some v /\ handle v = Some o;
  i_consumed : length (got s) = consumedIndex s;
  i_got : None ∉ got s -> forall i o, got s !! i = Some (Some o) -> exists v, pushed s !! i = Some v /\ handle v = Some o;
  i_queue : None ∉ got s -> consumedIndex s <= writtenIndex s /\
    forall k x, ring s !! k = Some x -> queue s k x = pending k (consumedIndex s) (writtenIndex s)
}.
(** A slot changes, and the messages stay. *)
Lemma inv_slot s s' k o a o' a' : inv s -> ring s !! k = Some (mkSlot o a) -> ring s' = <[k := mkSlot o' a']> (ring s) ->
  pushed s' = pushed s -> writtenIndex s' = writtenIndex s -> consumedIndex s' = consumedIndex s -> got s' = got s ->
  entering s' = entering s -> waiting s' = waiting s ->
  sched (mkSlot o' a') <= sched (mkSlot o a) -> act_ok (pushed s) a' ->
  (forall i x, o' = Some (i, x) -> exists v, pushed s !! i = Some v /\ handle v = Some x) ->
  option_list (fst <$> o') ++ act_idx a' = option_list (fst <$> o) ++ act_idx a -> inv s'.
Proof.
  intros [L P One W A V C G Q] Hk Hr Hp Hw Hc Hg He Hwt Hs Ha Hv Hq.
  split; rewrite ?Hp, ?Hw, ?Hc, ?Hg, ?He, ?Hwt, ?Hr; rewrite ?length_insert; try done.
  - counted. lia.
  - intros k' x [[-> ->]|Hk']%lookup_insert_cases; [done|by eapply A].
  - intros k' x i y [[-> ->]|Hk']%lookup_insert_cases; [apply Hv|by apply (V k' x)].
  - intros Hn. destruct (Q Hn) as [Hle Hq']. split; [done|].
    intros k' x [[-> ->]|Hk']%lookup_insert_cases; unfold queue; simpl; rewrite Hwt; [|by apply Hq'].
    rewrite app_assoc, Hq, <- app_assoc. exact (Hq' k _ Hk).
Qed.

(** What a step that touches neither the slots nor the messages keeps *)
Lemma runner_inv_same s s' : inv s -> ring s' = ring s -> pushed s' = pushed s -> writtenIndex s' = writtenIndex s ->
  consumedIndex s' = consumedIndex s -> got s' = got s -> length (entering s') <= length (entering s) -> waiting s' = waiting s -> inv s'.
Proof.
  intros [L P One W A V C G Q] Hr Hp Hw Hc Hg He Hwt.
  split; unfold queue; rewrite ?Hp, ?Hw, ?Hc, ?Hg, ?Hwt, ?Hr; try done. lia.
Qed.

Lemma inv_index s l v l' : inv s -> entering s = l ++ v :: l' -> inv (add_written v (set_entering (l ++ l') s)).
Proof.
  intros [L P One W A V C G Q] He. rewrite He, length_app in One. simpl in One.
  assert (waiting s = []) as Hw by (destruct (waiting s); simpl in *; [done|lia]).
  assert (forall i x, pushed s !! i = Some x -> (pushed s ++ [v]) !! i = Some x) as Hmono by (intros; by apply lookup_app_l_Some).
  split; simpl; rewrite ?Hw in *; try done.
  - rewrite length_app. simpl. lia.
  - rewrite length_app. simpl in *. lia.
  - intros i x [= -> ->]%list_elem_of_singleton. rewrite lookup_app_r, P, Nat.sub_diag by lia. done.
  - intros k x Hk. specialize (A k x Hk). destruct (lock x) as [[]|]; naive_solver.
  - intros k x i o Hk Hv. destruct (V k x i o Hk Hv) as (y & ? & ?). eauto.
  - intros Hn i o Hi. destruct (G Hn i o Hi) as (y & ? & ?). eauto.
  - intros Hn. destruct (Q Hn) as [Hle Hq]. split; [lia|]. intros k x Hk. rewrite pending_add by done.
    rewrite <- (Hq k x Hk). unfold queue. simpl. rewrite Hw. simpl. rewrite filter_nil, app_nil_r, filter_cons, filter_nil.
    rewrite <- !app_assoc. by destruct (decide _).
Qed.

Lemma inv_lock s l idx v l' o : inv s -> waiting s = l ++ (idx, v) :: l' -> ring s !! offset idx = Some (mkSlot o None) ->
  inv (set_slot (offset idx) (mkSlot o (Some (Scheduling idx v)))
              (set_tasks (limitChan s) (finishing s) (S (waitGroup s)) (set_waiting (l ++ l') s))).
Proof.
  intros [L P One W A V C G Q] Hw Hk. rewrite Hw, length_app in One. simpl in One.
  assert (l = [] /\ l' = []) as [-> ->] by (destruct l, l'; simpl in *; auto; lia). simpl in *.
  split; simpl; rewrite ?length_insert; try done.
  - counted. unfold sched in *. simpl in *. lia.
  - set_solver.
  - intros k x [[-> ->]|Hk']%lookup_insert_cases; [simpl; apply W; rewrite Hw; set_solver|by eapply A].
  - intros k x i y [[-> ->]|Hk']%lookup_insert_cases; [by apply (V _ _ i y Hk)|by apply (V k x)].
  - intros Hn. destruct (Q Hn) as [Hle Hq]. split; [done|].
    intros k x [(<- & <- & _)|[Hne Hk']]%list_lookup_insert_Some; unfold queue; simpl; rewrite filter_nil.
    + rewrite <- (Hq _ _ Hk). unfold queue. by rewrite Hw, map_cons, filter_cons, decide_True.
    + rewrite <- (Hq _ _ Hk'). unfold queue. by rewrite Hw, map_cons, filter_cons, decide_False.
Qed.

Lemma inv_take s idx x a : inv s -> ring s !! offset (consumedIndex s) = Some (mkSlot (Some (idx, x)) a) ->
  inv (add_consumed (Some x) (set_slot (offset (consumedIndex s)) (mkSlot None a) s)).
Proof.
  intros [L P One W A V C G Q] Hk.
  assert (None ∉ got s -> idx = consumedIndex s /\ consumedIndex s < writtenIndex s /\
    act_idx a ++ filter (fun i => offset i = offset (consumedIndex s)) (map fst (waiting s)) = pending (offset (consumedIndex s)) (S (consumedIndex s)) (writtenIndex s)) as Hq.
  { intros Hn. destruct (Q Hn) as [Hle Hq]. specialize (Hq _ _ Hk). unfold queue in Hq. simpl in Hq.
    destruct (pending_lt (offset (consumedIndex s)) (consumedIndex s) (writtenIndex s) idx) as [Hi _]; [rewrite <- Hq; set_solver|].
    rewrite pending_take, decide_True in Hq by (done || lia). simpl in Hq. injection Hq as -> Hq. split_and!; [done|lia|done]. }
  split; simpl; rewrite ?length_insert; try done.
  - counted. unfold sched, scheduling in *. simpl in *. lia.
  - intros k y [[-> ->]|Hk']%lookup_insert_cases; [exact (A _ _ Hk)|by eapply A].
  - intros k y i z [[-> ->]|Hk']%lookup_insert_cases; [done|by apply (V k y)].
  - rewrite length_app. simpl. lia.
  - intros Hn. assert (None ∉ got s) as Hn' by set_solver.
    intros i o [Hi|[Hle Hi]]%lookup_app_Some; [by apply G|]. destruct (i - length (got s)) eqn:Ei; simplify_eq/=.
    destruct (Hq Hn') as (-> & _). replace i with (consumedIndex s) by lia. by apply (V _ _ _ _ Hk).
  - intros Hn. assert (None ∉ got s) as Hn' by set_solver. destruct (Hq Hn') as (-> & Hlt & Ht). split; [lia|].
    destruct (Q Hn') as [_ Hq'].
    intros k y [(<- & <- & _)|[Hne Hk']]%list_lookup_insert_Some; unfold queue; simpl.
    + rewrite <- Ht. done.
    + specialize (Hq' k y Hk'). rewrite pending_take, decide_False in Hq' by done. exact Hq'.
Qed.

Lemma runner_inv_step s s' : inv s -> istep s s' -> inv s'.
Proof.
  intros Hi H. pose proof (i_act s Hi) as Ha. pose proof (i_value s Hi) as Hv.
  destruct H as [l v l' He|l idx v l' o Hw Hk|k idx v o Hk Hlt|k idx v o x Hk Hh|k idx v o Hk Hh|k idx x Hk|k o Hk|n Hn|idx x a Hg Hk|Hg Hd Hlt|Hg Hd Hle|Hw Ht|Hw Hle].
  - by apply inv_index.
  - by apply inv_lock.
  - specialize (Ha k _ Hk). eapply (inv_slot s _ k o _ o); try done; [unfold sched; simpl; lia|]. intros i y ->. by apply (Hv k _ i y Hk).
  - specialize (Ha k _ Hk). eapply (inv_slot s _ k o _ o); try done; [simpl in *; eauto|]. intros i y ->. by apply (Hv k _ i y Hk).
  - by destruct (Htotal v).
  - specialize (Ha k _ Hk). eapply (inv_slot s _ k None); try done. by intros i y [= -> ->].
  - eapply (inv_slot s _ k o _ o); try done. intros i y ->. by apply (Hv k _ i y Hk).
  - by apply (runner_inv_same s).
  - by apply (inv_take s idx x a).
  - by apply (runner_inv_same s).
  - destruct Hi as [L P One W A V C G Q]. split; simpl; try done.
    + rewrite length_app. simpl. lia.
    + intros Hn. destruct Hn. set_solver.
    + intros Hn. destruct Hn. set_solver.
  - by apply (runner_inv_same s).
  - by apply (runner_inv_same s).
Qed.

Lemma not_pushing s : pushing s = false -> entering s = [] /\ waiting s = [] /\ sum_list_with sched (ring s) = 0.
Proof.
  unfold pushing. destruct (entering s), (waiting s); try done. intros Hp. split_and!; [done..|].
  induction (ring s) as [|x l IH]; [done|]. simpl in *. bool_prop. unfold sched at 1. rewrite H. by apply IH.
Qed.

(** The tasks that hold the [limitChan], and the last index, which is the one a pusher on its way has *)
Definition runs (x : slot) : nat := match lock x with Some (Running _ _) | Some (Sending _ _) | Some Unlocking => 1 | _ => 0 end.
Definition last_act (w : nat) (x : slot) : Prop := match lock x with Some (Scheduling i _) => S i = w | _ => True end.
Record busy (s : state) : Prop := {
  b_limit : limitChan s = sum_list_with runs (ring s) + finishing s;
  b_waiting : forall i v, (i, v) ∈ waiting s -> S i = writtenIndex s;
  b_last : forall k x, ring s !! k = Some x -> last_act (writtenIndex s) x
}.

(** A slot changes, together with the tasks. *)
Lemma busy_slot s k x y n f w : busy s -> ring s !! k = Some x -> last_act (writtenIndex s) y ->
  n + runs x + finishing s = limitChan s + runs y + f -> busy (set_slot k y (set_tasks n f w s)).
Proof.
  intros [B1 B2 B3] Hk Hy Hn. split; simpl; [counted; lia|done|].
  intros k' z [[-> ->]|Hk']%lookup_insert_cases; [done|by eapply B3].
Qed.

Lemma busy_step s s' : inv s -> busy s -> istep s s' -> busy s'.
Proof.
  intros Hi B H. destruct (B) as [B1 B2 B3].
  destruct H as [l v l' He|l idx v l' o Hw Hk|k idx v o Hk Hlt|k idx v o x Hk Hh|k idx v o Hk Hh|k idx x Hk|k o Hk|n Hn|idx x a Hg Hk|Hg Hd Hlt|Hg Hd Hle|Hw Ht|Hw Hle];
    try by split.
  - pose proof (i_one s Hi) as One. rewrite He, length_app in One. simpl in One.
    assert (waiting s = []) as Hw by (destruct (waiting s); simpl in *; [done|lia]).
    split; simpl; [done|rewrite Hw; set_solver|]. intros k x Hk. unfold last_act.
    destruct (lock x) as [[i y| | |]|] eqn:El; try done. exfalso.
    apply (sum_list_with_lookup sched) in Hk.
    assert (sched x = 1) as Hx by (unfold sched, scheduling; by rewrite El). lia.
  - eapply (busy_slot (set_waiting (l ++ l') s)); simpl; [split; simpl; try done| exact Hk | |].
    + intros i y Hin. apply (B2 i y). rewrite Hw. set_solver.
    + simpl. apply (B2 idx v). rewrite Hw. set_solver.
    + unfold runs. simpl. lia.
  - eapply busy_slot; [done|exact Hk|done|unfold runs; simpl; lia].
  - eapply (busy_slot s k _ _ (limitChan s) (finishing s) (waitGroup s)) in Hk; [by apply Hk|done|done|unfold runs; simpl; lia].
  - eapply (busy_slot s k _ _ (limitChan s) (finishing s) (waitGroup s)) in Hk; [by apply Hk|done|done|unfold runs; simpl; lia].
  - eapply (busy_slot s k _ _ (limitChan s) (finishing s) (waitGroup s)) in Hk; [by apply Hk|done|done|unfold runs; simpl; lia].
  - eapply busy_slot; [done|exact Hk|done|unfold runs; simpl; lia].
  - split; simpl; [lia|done|done].
  - split; simpl; [|done|].
    + counted. unfold runs in *. simpl in *. lia.
    + intros k y [[-> ->]|Hk']%lookup_insert_cases; [exact (B3 _ _ Hk)|by eapply B3].
Qed.

Lemma inv_new : inv NewStableRunner /\ busy NewStableRunner.
Proof.
  assert (forall k x, replicate bufSize (mkSlot None None) !! k = Some x -> x = mkSlot None None) as Hx.
  { intros k x Hk. by apply lookup_replicate in Hk as [-> _]. }
  assert (forall f : slot -> nat, f (mkSlot None None) = 0 -> forall n, sum_list_with f (replicate n (mkSlot None None)) = 0) as Hs.
  { intros f Hf n. induction n as [|n IH]; [done|]. simpl. by rewrite Hf, IH. }
  split; split; simpl; try done.
  - by rewrite length_replicate.
  - rewrite Hs by done. simpl. lia.
  - set_solver.
  - by intros k x ->%Hx.
  - by intros k x i o ->%Hx.
  - intros _. split; [done|]. by intros k x ->%Hx.
  - by rewrite Hs.
  - set_solver.
  - by intros k x ->%Hx.
Qed.

Lemma runner_inv_reached s : reached s -> inv s /\ busy s.
Proof.
  revert s. apply rtc_ind_r; [apply inv_new|]. intros x y _ H [Hi B].
  destruct H as [y H|v Hd Hp|Hg|Hw].
  - split; [by apply (runner_inv_step x)|by apply (busy_step x)].
  - destruct (not_pushing x (Hp Hsingle)) as (He & Hw & Hs). split; [|by destruct B; split].
    destruct Hi as [L P One W A V C G Q]. split; simpl; try done. rewrite He, Hw, Hs. simpl. lia.
  - split; [by apply (runner_inv_same x)|by destruct B; split].
  - split; [by apply (runner_inv_same x)|by destruct B; split].
Qed.

(** Someone goes on when the limit of the tasks is used up and nothing but the last message is left. *)
Lemma tasks_go s : inv s -> busy s -> None ∉ got s -> writtenIndex s = S (consumedIndex s) -> 0 < limitChan s ->
  (forall x, ring s !! offset (consumedIndex s) = Some x -> value x = None) -> exists s', istep s s'.
Proof.
  intros Hi B Hn Hw Hl Hv. pose proof (b_limit s B) as Hb. destruct (finishing s) eqn:Ef; [|eexists; by eapply t_done].
  destruct (sum_list_with_pos runs (ring s)) as (k & [o a] & Hk & Hr); [lia|]. unfold runs in Hr. simpl in Hr.
  destruct a as [[i v|i v|i o'|]|]; try lia.
  - destruct (handle v) eqn:Eh; [|by destruct (Htotal v)]. eexists. by eapply t_handle.
  - destruct o as [[i' o'']|]; [|eexists; by eapply t_send]. exfalso.
    destruct (i_queue s Hi Hn) as [_ Hq]. specialize (Hq k _ Hk). unfold queue in Hq. simpl in Hq.
    destruct (pending_lt k (consumedIndex s) (writtenIndex s) i') as [Hlt Ho]; [rewrite <- Hq; set_solver|].
    assert (i' = consumedIndex s) as -> by lia. rewrite Ho in Hv. by specialize (Hv _ Hk).
  - eexists. by eapply t_unlock.
Qed.

(** C21: the stable runner gives the results out in the order of the messages.  With one goroutine that pushes
    and a handler that does not panic, whatever the order in which the tasks run: until [Get] first reports
    that the runner is closed, what it returned is the handler's results of the first messages pushed; and
    while a [Get] waits for a message that was pushed, some goroutine can go on. *)
Theorem stable_runner_in_order s : 0 < cpus -> reached s -> None ∉ got s ->
  got s = map handle (take (length (got s)) (pushed s)) /\
  (getting s <> GIdle -> consumedIndex s < writtenIndex s -> exists s', istep s s').
Proof.
  intros Hcpu Hs Hn. destruct (runner_inv_reached s Hs) as [Hi B]. destruct (i_queue s Hi Hn) as [Hle Hq]. split.
  - apply list_eq. intros i. rewrite list_lookup_fmap. destruct (got s !! i) as [[o|]|] eqn:Eg.
    + destruct (i_got s Hi Hn i o Eg) as (v & Hp & Hh). rewrite lookup_take, decide_True, Hp by (by eapply lookup_lt_Some).
      simpl. by rewrite Hh.
    + destruct Hn. by eapply list_elem_of_lookup_2.
    + apply lookup_ge_None_1 in Eg. by rewrite (lookup_ge_None_2 (take _ _)) by (rewrite length_take; lia).
  - intros Hg Hlt.
    assert (offset (consumedIndex s) < length (ring s)) as Hof.
    { rewrite (i_len s Hi). apply Nat.mod_upper_bound. unfold bufSize, factor. lia. }
    apply lookup_lt_is_Some_2 in Hof as [[o a] Hk]. specialize (Hq _ _ Hk). unfold queue in Hq. simpl in Hq.
    rewrite pending_take, decide_True in Hq by done. simpl in Hq.
    destruct o as [[i o]|]; [eexists; by eapply g_take|]. destruct a as [[i v|i v|i o|]|]; simpl in Hq.
    + injection Hq as -> _. pose proof (b_last s B _ _ Hk) as Hw. unfold last_act in Hw. simpl in Hw.
      destruct (decide (limitChan s < cpus)); [eexists; by eapply p_schedule|].
      apply (tasks_go s); try done; [lia|]. intros x Hx. by simplify_eq.
    + destruct (handle v) eqn:Eh; [|by destruct (Htotal v)]. eexists. by eapply t_handle.
    + eexists. by eapply t_send.
    + eexists. by eapply t_unlock.
    + assert (consumedIndex s ∈ map fst (waiting s)) as Hin.
      { apply (list_elem_of_filter (fun i => offset i = offset (consumedIndex s))). rewrite Hq. set_solver. }
      apply list_elem_of_fmap in Hin as ([i v] & Hi' & Hin). simpl in Hi'. subst i.
      apply list_elem_of_split in Hin as (l & l' & Hw). eexists. by eapply p_lock.
Qed.
End runner.

(** ** Runs *)

Ltac next c := eapply rtc_l; [c; reflexivity|simpl].

(** A message is pushed, processed and taken. *)
Lemma one_message_run : exists s : @state nat nat,
  reached (fun v => Some (v + 1)) 1 true s /\ pushed s = [7] /\ got s = [Some 8].
Proof.
  eexists. split.
  - next ltac:(apply (s_push _ _ _ _ 7)).
    next ltac:(eapply s_internal, (p_index _ _ _ [] 7 [])).
    next ltac:(eapply s_internal, (p_lock _ _ _ [] 0 7 [])).
    eapply rtc_l; [eapply s_internal, (p_schedule _ _ _ 0); [reflexivity|simpl; lia]|simpl].
    next ltac:(eapply s_internal, (t_handle _ _ _ 0)).
    next ltac:(eapply s_internal, (t_send _ _ _ 0)).
    next ltac:(eapply s_get).
    eapply rtc_l; [eapply s_internal, g_take; [done|reflexivity]|simpl]. apply rtc_refl.
  - done.
Qed.

Lemma stable_runner_in_order_witness : exists s : @state nat nat, pushed s = [7] /\
  got s = map (fun v => Some (v + 1)) (take (length (got s)) (pushed s)).
Proof.
  destruct one_message_run as (s & Hs & Hp & Hg). exists s. split; [exact Hp|].
  refine (proj1 (stable_runner_in_order (fun v => Some (v + 1)) 1 true eq_refl _ s _ Hs _)); [discriminate|lia|].
  rewrite Hg. set_solver.
Defined.

(** The handler panics: its message leaves nothing in the slot.  The [Get] that waits for it, and [Wait],
    which waits until every message was taken, never return. *)
Theorem panicking_handler_blocks : exists s : @state nat nat,
  reached (fun _ => None) 1 true s /\ getting s = GDrain /\ waits s = WSpins /\ consumedIndex s < writtenIndex s /\
  forall s', ~ istep (fun _ => None) 1 s s'.
Proof.
  eexists. split.
  - next ltac:(apply (s_push _ _ _ _ 7)).
    next ltac:(eapply s_internal, (p_index _ _ _ [] 7 [])).
    next ltac:(eapply s_internal, (p_lock _ _ _ [] 0 7 [])).
    eapply rtc_l; [eapply s_internal, (p_schedule _ _ _ 0); [reflexivity|simpl; lia]|simpl].
    next ltac:(eapply s_internal, (t_panic _ _ _ 0)).
    next ltac:(eapply s_internal, (t_unlock _ _ _ 0)).
    next ltac:(eapply s_internal, t_done).
    next ltac:(eapply s_get).
    next ltac:(eapply s_wait).
    eapply rtc_l; [eapply s_internal, g_drain; [done|done|simpl; lia]|simpl].
    next ltac:(eapply s_internal, w_tasks). apply rtc_refl.
  - split_and!; [done|done|simpl; lia|]. intros s' H.
    match type of H with istep _ _ ?st _ =>
      assert (forall k x, ring st !! k = Some x -> x = mkSlot None None) as Hr
        by (simpl; intros k x Hk; do 10 (destruct k as [|k]; [by injection Hk|]); done)
    end.
    destruct H; try (match goal with H : ring _ !! _ = Some _ |- _ => by apply Hr in H end); simpl in *;
      try (match goal with H : [] = ?l ++ _ :: _ |- _ => by destruct l end); try done; lia.
Qed.

Ltac gets_index v :=
  eapply rtc_l; [apply (s_push _ _ _ _ v); [reflexivity|discriminate]|simpl];
  next ltac:(eapply s_internal, (p_index _ _ _ [] v [])).

(** Eleven goroutines push into the ten slots of one processor, and the last of them takes the lock of the
    first slot before the first one does: its result is given out as the first. *)
Theorem concurrent_pushes_out_of_order : exists s : @state nat nat,
  reached (fun v => Some v) 1 false s /\ pushed s = seq 0 11 /\ got s = [Some 10].
Proof.
  eexists. split.
  - gets_index 0. gets_index 1. gets_index 2. gets_index 3. gets_index 4. gets_index 5.
    gets_index 6. gets_index 7. gets_index 8. gets_index 9. gets_index 10.
    next ltac:(eapply s_internal, (p_lock _ _ _ [(0, 0); (1, 1); (2, 2); (3, 3); (4, 4); (5, 5); (6, 6); (7, 7); (8, 8); (9, 9)] 10 10 [])).
    eapply rtc_l; [eapply s_internal, (p_schedule _ _ _ 0); [reflexivity|simpl; lia]|simpl].
    next ltac:(eapply s_internal, (t_handle _ _ _ 0)).
    next ltac:(eapply s_internal, (t_send _ _ _ 0)).
    next ltac:(eapply s_get).
    eapply rtc_l; [eapply s_internal, g_take; [done|reflexivity]|simpl]. apply rtc_refl.
  - done.
Qed.
