(* ===== verification/Mapping.v ===== *)
(** * [core/mapping]: the options of struct tags, and primitive values from strings

    [utils.go] and [fieldoptions.go].  Texts are lists of runes (a text that is not valid UTF-8 is not
    modelled).  [float64] is the class of [Breaker.v]; [strconv.ParseFloat], the largest float64 and
    [lang.Repr] are parameters.  Values of Go are those of the primitive kinds; a struct type is a tree of
    fields with their tags, which [reflect] has parsed: a tag that is not empty but has no key is not modelled. *)

From Stdlib Require Import Ascii String.
From S2P Require Import Prelude Token Strings Breaker.
Local Open Scope Z_scope.
Local Open Scope go_scope.

(** ** [strings] and [strconv] *)

(** [unicode.IsSpace] *)
Definition IsSpace (r : rune) : bool :=
  ((9 <=? r) && (r <=? 13)) || (r =? 32) || (r =? 133) || (r =? 160) || (r =? 5760) || ((8192 <=? r) && (r <=? 8202))
  || (r =? 8232) || (r =? 8233) || (r =? 8239) || (r =? 8287) || (r =? 12288).

Fixpoint TrimLeftFunc (f : rune -> bool) (s : text) : text :=
  match s with c :: s' => if f c then TrimLeftFunc f s' else s | [] => [] end.
Definition TrimRightFunc (f : rune -> bool) (s : text) : text := reverse (TrimLeftFunc f (reverse s)).
Definition TrimSpace (s : text) : text := TrimRightFunc IsSpace (TrimLeftFunc IsSpace s).

(** [strings.Split] for a separator of one rune *)
Fixpoint Split (s : text) (sep : rune) : list text :=
  match s with
  | [] => [[]]
  | c :: s => if c =? sep then [] :: Split s sep
              else match Split s sep with x :: l => (c :: x) :: l | [] => [[c]] end
  end.

Fixpoint HasPrefix (s p : text) : bool :=
  match p, s with [], _ => true | c :: p, d :: s => (c =? d) && HasPrefix s p | _ :: _, [] => false end.

(** [strconv.ParseInt] and [strconv.ParseUint] in base 10 *)
Definition digit (c : rune) : option Z := if (rn "0" <=? c) && (c <=? rn "9") then Some (c - rn "0") else None.
Variant num_error := ErrSyntax | ErrRange.

(** The loop of [ParseUint]: the first character that is not a digit is a syntax error, the first prefix that is
    too large a range error. *)
Fixpoint uint_from (bits acc : Z) (s : text) : num_error + Z :=
  match s with
  | [] => inr acc
  | c :: s =>
    match digit c with
    | None => inl ErrSyntax
    | Some d => if acc * 10 + d <? 2 ^ bits then uint_from bits (acc * 10 + d) s else inl ErrRange
    end
  end.
Definition ParseUint (s : text) (bits : Z) : num_error + Z :=
  match s with [] => inl ErrSyntax | _ => uint_from bits 0 s end.

(** [ParseInt]: a range error of [ParseUint] gives the largest number of that width, which is out of range too. *)
Definition ParseInt (s : text) (bits : Z) : num_error + Z :=
  let '(neg, ds) := match s with c :: r => if c =? rn "-" then (true, r) else if c =? rn "+" then (false, r) else (false, s) | [] => (false, s) end in
  match ParseUint ds bits with
  | inr n => if neg then (if n <=? 2 ^ (bits - 1) then inr (- n) else inl ErrRange)
             else (if n <? 2 ^ (bits - 1) then inr n else inl ErrRange)
  | inl e => inl e
  end.

(** [strings.ToLower], on the runes that matter here *)
Definition ToLower (s : text) : text := map (fun c => if (rn "A" <=? c) && (c <=? rn "Z") then c + 32 else c) s.

Section mapping.
Context {F : Type} `{!Float64 F} (ParseFloat : text -> option F) (MaxFloat64 negMaxFloat64 : F).
(** [==] and [<=]; [<] is that of the class, and none of them holds of NaN. *)
Context (f_eqb f_le : F -> F -> bool).

(** ** [fieldoptions.go] *)

Record numberRange := mkRange { left_ : F; leftInclude : bool; right_ : F; rightInclude : bool }.

Record fieldOptionsWithContext := mkOpts {
  Inherit : bool;
  FromString : bool;
  Optional : bool;
  Options : list text;
  Default : text;
  EnvVar : text;
  Range : option numberRange
}.
Record fieldOptions := mkFieldOptions { withContext : fieldOptionsWithContext; OptionalDep : text }.

Variant error :=
| errNumberRange | errUnsupportedType | errTypeMismatch | errValueNotSettable
| WrongFloat (s : text) | WrongNumber (e : num_error) (s : text)
| WrongOptional (field : text) | WrongTagValue (field tag : text)
| WrongOptionalValue (key fullName : text) | SetEither (dep key fullName : text) | BothOrNone (dep key fullName : text)
| NotInOptions (v : text) (options : list text).

(** The methods of [fieldOptionsWithContext], on a pointer that may be nil *)
Definition fromString (o : option fieldOptionsWithContext) : bool := match o with Some o => FromString o | None => false end.
Definition getDefault (o : option fieldOptionsWithContext) : text * bool :=
  match o with Some o => (Default o, negb (length (Default o) =? 0)%nat) | None => ([], false) end.
Definition inherit (o : option fieldOptionsWithContext) : bool := match o with Some o => Inherit o | None => false end.
Definition optional (o : option fieldOptionsWithContext) : bool := match o with Some o => Optional o | None => false end.
Definition options (o : option fieldOptionsWithContext) : list text := match o with Some o => Options o | None => [] end.
Definition optionalDep (o : option fieldOptions) : text := match o with Some o => OptionalDep o | None => [] end.

Definition notSymbol : rune := rn "!".

(** [toOptionsWithContext]: [has] is whether the valuer has a value for a key. *)
Definition toOptionsWithContext (o : fieldOptions) (key : text) (has : text -> bool) (fullName : text) : error + fieldOptionsWithContext :=
  let c := withContext o in
  let result (opt : bool) :=
    if Bool.eqb (Optional c) opt then inr c
    else inr (mkOpts false (FromString c) opt (Options c) (Default c) (EnvVar c) None) in
  if negb (Optional c) then result false
  else
    match OptionalDep o with
    | [] => result true
    | d :: rest =>
      if d =? notSymbol then
        match rest with
        | [] => inl (WrongOptionalValue key fullName)
        | _ => if Bool.eqb (has rest) (has key) then inl (SetEither rest key fullName) else result (has rest)
        end
      else if negb (Bool.eqb (has (d :: rest)) (has key)) then inl (BothOrNone (d :: rest) key fullName)
      else result (negb (has (d :: rest)))
    end.

(** ** The tags *)

Definition leftBracket : rune := rn "(".
Definition rightBracket : rune := rn ")".
Definition leftSquareBracket : rune := rn "[".
Definition rightSquareBracket : rune := rn "]".
Definition segmentSeparator : rune := rn ",".
Definition escapeChar : rune := 92.
Definition equalToken : rune := rn "=".
Definition optionSeparator : rune := rn "|".

(** The loop of [parseSegments], with its four variables *)
Fixpoint segments_loop (val : text) (segments : list text) (escaped grouped : bool) (buf : text) : list text :=
  match val with
  | [] => let last := TrimSpace buf in if (0 <? length last)%nat then segments ++ [last] else segments
  | ch :: val =>
    if escaped then segments_loop val segments false grouped (buf ++ [ch])
    else if ch =? segmentSeparator then
      if grouped then segments_loop val segments false grouped (buf ++ [ch])
      else segments_loop val (segments ++ [TrimSpace buf]) false grouped []
    else if ch =? escapeChar then
      if grouped then segments_loop val segments false grouped (buf ++ [ch])
      else segments_loop val segments true grouped buf
    else if (ch =? leftBracket) || (ch =? leftSquareBracket) then segments_loop val segments false true (buf ++ [ch])
    else if (ch =? rightBracket) || (ch =? rightSquareBracket) then segments_loop val segments false false (buf ++ [ch])
    else segments_loop val segments false grouped (buf ++ [ch])
  end.
Definition parseSegments (val : text) : list text := segments_loop val [] false false [].

Definition parseGroupedSegments (val : text) : list text :=
  parseSegments (TrimRightFunc (fun r => (r =? rightBracket) || (r =? rightSquareBracket))
                  (TrimLeftFunc (fun r => (r =? leftBracket) || (r =? leftSquareBracket)) val)).

Definition parseOptions (val : text) : list text :=
  match val with
  | [] => []
  | c :: _ => if c =? leftSquareBracket then parseGroupedSegments val else Split val optionSeparator
  end.

Definition parseProperty (field tag val : text) : error + text :=
  match Split val equalToken with [_; v] => inr (TrimSpace v) | _ => inl (WrongTagValue field tag) end.

Definition isLeftInclude (b : rune) : error + bool :=
  if b =? leftSquareBracket then inr true else if b =? leftBracket then inr false else inl errNumberRange.
Definition isRightInclude (b : rune) : error + bool :=
  if b =? rightSquareBracket then inr true else if b =? rightBracket then inr false else inl errNumberRange.

(** A bound: an empty one is the largest number there is, with its sign. *)
Definition parse_bound (s : text) (unbounded : F) : error + F :=
  match s with [] => inr unbounded | _ => match ParseFloat s with Some f => inr f | None => inl (WrongFloat s) end end.

Definition parseNumberRange (str : text) : error + numberRange :=
  match str with
  | [] => inl errNumberRange
  | b :: str =>
    match isLeftInclude b with
    | inl e => inl e
    | inr li =>
      match last str with
      | None => inl errNumberRange
      | Some c =>
        match isRightInclude c with
        | inl e => inl e
        | inr ri =>
          match Split (take (length str - 1) str) (rn ":") with
          | [l; r] =>
            if ((length l =? 0) && (length r =? 0))%nat then inl errNumberRange
            else
              match parse_bound l negMaxFloat64 with
              | inl e => inl e
              | inr lo =>
                match parse_bound r MaxFloat64 with
                | inl e => inl e
                | inr hi =>
                  if f_ltb hi lo then inl errNumberRange
                  else if f_eqb lo hi && (negb li || negb ri) then inl errNumberRange
                  else inr (mkRange lo li hi ri)
                end
              end
          | _ => inl errNumberRange
          end
        end
      end
    end
  end.

Definition noOptions : fieldOptions := mkFieldOptions (mkOpts false false false [] [] [] None) [].

Definition set_ctx (f : fieldOptionsWithContext -> fieldOptionsWithContext) (o : fieldOptions) : fieldOptions :=
  mkFieldOptions (f (withContext o)) (OptionalDep o).
Definition set_Inherit c := mkOpts true (FromString c) (Optional c) (Options c) (Default c) (EnvVar c) (Range c).
Definition set_FromString c := mkOpts (Inherit c) true (Optional c) (Options c) (Default c) (EnvVar c) (Range c).
Definition set_Optional c := mkOpts (Inherit c) (FromString c) true (Options c) (Default c) (EnvVar c) (Range c).
Definition set_Options l c := mkOpts (Inherit c) (FromString c) (Optional c) l (Default c) (EnvVar c) (Range c).
Definition set_Default d c := mkOpts (Inherit c) (FromString c) (Optional c) (Options c) d (EnvVar c) (Range c).
Definition set_EnvVar e c := mkOpts (Inherit c) (FromString c) (Optional c) (Options c) (Default c) e (Range c).
Definition set_Range r c := mkOpts (Inherit c) (FromString c) (Optional c) (Options c) (Default c) (EnvVar c) (Some r).

Definition parseOption (o : fieldOptions) (fieldName option : text) : error + fieldOptions :=
  if decide (option = rs "inherit") then inr (set_ctx set_Inherit o)
  else if decide (option = rs "string") then inr (set_ctx set_FromString o)
  else if HasPrefix option (rs "optional") then
    match Split option equalToken with
    | [_] => inr (set_ctx set_Optional o)
    | [_; dep] => inr (mkFieldOptions (set_Optional (withContext o)) dep)
    | _ => inl (WrongOptional fieldName)
    end
  else if HasPrefix option (rs "options") then
    match parseProperty fieldName (rs "options") option with inl e => inl e | inr v => inr (set_ctx (set_Options (parseOptions v)) o) end
  else if HasPrefix option (rs "default") then
    match parseProperty fieldName (rs "default") option with inl e => inl e | inr v => inr (set_ctx (set_Default v) o) end
  else if HasPrefix option (rs "env") then
    match parseProperty fieldName (rs "env") option with inl e => inl e | inr v => inr (set_ctx (set_EnvVar v) o) end
  else if HasPrefix option (rs "range") then
    match parseProperty fieldName (rs "range") option with
    | inl e => inl e
    | inr v => match parseNumberRange v with inl e => inl e | inr nr => inr (set_ctx (set_Range nr) o) end
    end
  else inr o.

Fixpoint parse_options (o : fieldOptions) (fieldName : text) (l : list text) : error + fieldOptions :=
  match l with
  | [] => inr o
  | segment :: l => match parseOption o fieldName (TrimSpace segment) with inl e => inl e | inr o => parse_options o fieldName l end
  end.

(** The key and the options, nil when there are none: [segments[0]] panics when there is no segment. *)
Definition doParseKeyAndOptions (fieldName value : text) : outcome (error + text * option fieldOptions) :=
  match parseSegments value with
  | [] => Panic "index out of range [0] with length 0"
  | key :: [] => Ok (inr (TrimSpace key, None))
  | key :: segs =>
    Ok (match parse_options noOptions fieldName segs with inl e => inl e | inr o => inr (TrimSpace key, Some o) end)
  end.

(** [optionsCache]: what was parsed for the value of a tag: the key, the options and the error *)
Definition optionsCache : Type := gmap text (error + text * option fieldOptions).

(** [parseKeyAndOptions] for a field and what [field.Tag.Get(tagName)] gives; on an error the key that comes
    with it is not looked at. *)
Definition parseKeyAndOptions (cache : optionsCache) (fieldName tagValue : text) : outcome ((error + text * option fieldOptions) * optionsCache) :=
  let value := TrimSpace tagValue in
  let named (r : error + text * option fieldOptions) := match r with inl e => inl e | inr (key, o) => inr (TakeOne key fieldName, o) end in
  match value with
  | [] => Ok (inr (fieldName, None), cache)
  | _ =>
    match cache !! value with
    | Some r => Ok (named r, cache)
    | None => r <~ doParseKeyAndOptions fieldName value ;; Ok (named r, <[value := r]> cache)
    end
  end.

(** ** Values *)

Variant kind := Bool | GoInt | Int (bits : Z) | GoUint | Uint (bits : Z) | Float (bits : Z) | KString | Other.
#[global] Instance kind_eq_dec : EqDecision kind.
Proof. solve_decision. Defined.

(** The width of [int] and [uint] *)
Definition intSize : Z := 64.

(** A value of a primitive kind, as an [any] *)
Variant any := VBool (b : bool) | VInt (n : Z) | VUint (n : Z) | VFloat (f : F) | VString (s : text) | VOther.

(** [ParseFloat] for a float32 is a parameter of its own. *)
Context (ParseFloat32 : text -> option F).

Definition convertTypeFromString (k : kind) (str : text) : error + any :=
  match k with
  | Bool =>
    let l := ToLower str in
    if decide (l = rs "1" \/ l = rs "true") then inr (VBool true)
    else if decide (l = rs "0" \/ l = rs "false") then inr (VBool false)
    else inl errTypeMismatch
  | GoInt => match ParseInt str intSize with inl e => inl (WrongNumber e str) | inr n => inr (VInt n) end
  | GoUint => match ParseUint str intSize with inl e => inl (WrongNumber e str) | inr n => inr (VUint n) end
  | Int bits => match ParseInt str bits with inl e => inl (WrongNumber e str) | inr n => inr (VInt n) end
  | Uint bits => match ParseUint str bits with inl e => inl (WrongNumber e str) | inr n => inr (VUint n) end
  | Float bits => match (if bits =? 32 then ParseFloat32 str else ParseFloat str) with Some f => inr (VFloat f) | None => inl (WrongFloat str) end
  | KString => inr (VString str)
  | Other => inl errUnsupportedType
  end.

Definition toFloat64 (v : any) : option F :=
  match v with VInt n | VUint n => Some (f_of_Z n) | VFloat f => Some f | _ => None end.

Definition validateNumberRange (fv : F) (nr : option numberRange) : option error :=
  match nr with
  | None => None
  | Some nr =>
    if (leftInclude nr && f_ltb fv (left_ nr)) || (negb (leftInclude nr) && f_le fv (left_ nr)) then Some errNumberRange
    else if (rightInclude nr && f_ltb (right_ nr) fv) || (negb (rightInclude nr) && f_le (right_ nr) fv) then Some errNumberRange
    else None
  end.

Definition validateValueRange (v : any) (opts : option fieldOptionsWithContext) : option error :=
  match opts with
  | None => None
  | Some o =>
    match Range o with
    | None => None
    | Some nr => match toFloat64 v with None => Some errNumberRange | Some fv => validateNumberRange fv (Some nr) end
    end
  end.

(** [json.Number] is a text. *)
Definition validateJsonNumberRange (v : text) (opts : option fieldOptionsWithContext) : option error :=
  match opts with
  | None => None
  | Some o =>
    match Range o with
    | None => None
    | Some nr => match ParseFloat v with None => Some (WrongFloat v) | Some fv => validateNumberRange fv (Some nr) end
    end
  end.

Context (Repr : any -> text).

Definition validateValueInOptions (v : any) (opts : list text) : option error :=
  match opts with
  | [] => None
  | _ =>
    let t := match v with VString s => s | _ => Repr v end in
    if Contains opts t then None else Some (NotInOptions t opts)
  end.

(** [setMatchedPrimitiveValue]: what the target holds afterwards; the type assertions panic on a value of
    another kind. *)
Definition setMatchedPrimitiveValue (k : kind) (v : any) : outcome (error + any) :=
  match k, v with
  | Bool, VBool _ | GoInt, VInt _ | Int _, VInt _ | GoUint, VUint _ | Uint _, VUint _ | Float _, VFloat _ | KString, VString _ => Ok (inr v)
  | Other, _ => Ok (inl errUnsupportedType)
  | _, _ => Panic "interface conversion"
  end.

(** [value.CanSet] is the argument [canSet]. *)
Definition setValueFromString (k : kind) (canSet : bool) (str : text) : outcome (error + any) :=
  if negb canSet then Ok (inl errValueNotSettable)
  else match convertTypeFromString k str with inl e => Ok (inl e) | inr v => setMatchedPrimitiveValue k v end.

Definition validateAndSetValue (k : kind) (canSet : bool) (str : text) (opts : option fieldOptionsWithContext) : outcome (error + any) :=
  if negb canSet then Ok (inl errValueNotSettable)
  else
    match convertTypeFromString k str with
    | inl e => Ok (inl e)
    | inr v => match validateValueRange v opts with Some e => Ok (inl e) | None => setMatchedPrimitiveValue k v end
    end.

(** ** Struct types *)

(** The types of targets: primitive kinds, [time.Duration], pointers, slices, maps with strings as keys, and structs,
    which are told apart by their names.  A field has its name, whether it is exported and whether it is
    embedded, its type, and the values of its tag by key. *)
Inductive gtype :=
| TPrim (k : kind) | TDuration | TPtr (t : gtype) | TSlice (t : gtype) | TMap (t : gtype) | TStruct (name : text) (fields : list gfield)
with gfield := mkField (f_name : text) (f_exported f_anonymous : bool) (f_type : gtype) (f_tags : list (text * text)).

Definition tag_get (tags : list (text * text)) (key : text) : option text :=
  snd <$> find (fun p => bool_decide (p.1 = key)) tags.

Definition usingDifferentKeys (key : text) (tags : list (text * text)) : bool :=
  match tags with [] => false | _ => match tag_get tags key with None => true | Some _ => false end end.

(** What [parseKeyAndOptions] gives for a field, its cache being transparent but for the names in errors *)
Definition field_options (tag : text) (name : text) (tags : list (text * text)) : outcome (error + option fieldOptions) :=
  match TrimSpace (default [] (tag_get tags tag)) with
  | [] => Ok (inr None)
  | value => r <~ doParseKeyAndOptions name value ;; Ok (match r with inl e => inl e | inr (_, o) => inr o end)
  end.

Fixpoint implicitValueRequiredStruct (tag : text) (tp : gtype) : outcome (error + bool) :=
  match tp with
  | TStruct _ fields =>
    (fix loop (l : list gfield) : outcome (error + bool) :=
      match l with
      | [] => Ok (inr false)
      | mkField name _ _ ftype tags :: l =>
        if usingDifferentKeys tag tags then Ok (inr true)
        else
          r <~ field_options tag name tags ;;
          match r with
          | inl e => Ok (inl e)
          | inr None =>
            match ftype with
            | TStruct _ _ =>
              q <~ implicitValueRequiredStruct tag ftype ;;
              match q with inl e => Ok (inl e) | inr true => Ok (inr true) | inr false => loop l end
            | _ => Ok (inr true)
            end
          | inr (Some o) =>
            if negb (Optional (withContext o)) && (length (Default (withContext o)) =? 0)%nat then Ok (inr true)
            else match OptionalDep o with
                 | d :: _ => if d =? notSymbol then Ok (inr true) else loop l
                 | [] => loop l
                 end
          end
      end) fields
  | _ => Panic "reflect: NumField of non-struct type"
  end.

(** [structRequiredCache]: its key is the type, here its name *)
Definition structRequiredCache : Type := gmap text (error + bool).

Definition structValueRequired (cache : structRequiredCache) (tag : text) (tp : gtype) : outcome ((error + bool) * structRequiredCache) :=
  match tp with
  | TStruct name _ =>
    match cache !! name with
    | Some r => Ok (r, cache)
    | None => r <~ implicitValueRequiredStruct tag tp ;; Ok (r, <[name := r]> cache)
    end
  | _ => r <~ implicitValueRequiredStruct tag tp ;; Ok (r, cache)
  end.
End mapping.
