(* ===== verification/MappingCorrect.v ===== *)
(** * [core/mapping]: what tags and values from strings mean

    Round trips of the segments of a tag and of decimal numbers, the range of parsed integers, the meaning of
    optional dependencies, and the two caches. *)

From Stdlib Require Import Ascii String QArith.
From stdpp Require Import pretty.
From S2P Require Import Prelude Token Strings Breaker Mapping.
Local Open Scope Z_scope.
Local Open Scope go_scope.

(** ** Segments *)

(** A segment as it is written in a tag: the separator and the escape character are escaped. *)
Definition escape (s : text) : text := flat_map (fun c => if (c =? segmentSeparator) || (c =? escapeChar) then [escapeChar; c] else [c]) s.
Fixpoint render (segs : list text) : text :=
  match segs with [] => [] | [s] => escape s | s :: l => escape s ++ segmentSeparator :: render l end.

Definition bracket (c : rune) : bool :=
  (c =? leftBracket) || (c =? leftSquareBracket) || (c =? rightBracket) || (c =? rightSquareBracket).

Lemma segments_escape s rest acc buf : Forall (fun c => bracket c = false) s ->
  segments_loop (escape s ++ rest) acc false false buf = segments_loop rest acc false false (buf ++ s).
Proof.
  intros H. revert buf. induction H as [|c s Hc _ IH]; intros buf; [by rewrite app_nil_r|].
  simpl. rewrite <- app_assoc. unfold bracket in Hc. bool_prop.
  destruct ((c =? segmentSeparator) || (c =? escapeChar)) eqn:He; simpl.
  - rewrite IH, <- app_assoc. done.
  - apply orb_false_iff in He as [-> ->]. 
    replace (c =? leftBracket) with false by (symmetry; by apply Z.eqb_neq).
    replace (c =? leftSquareBracket) with false by (symmetry; by apply Z.eqb_neq).
    replace (c =? rightBracket) with false by (symmetry; by apply Z.eqb_neq).
    replace (c =? rightSquareBracket) with false by (symmetry; by apply Z.eqb_neq).
    simpl. rewrite IH, <- app_assoc. done.
Qed.

Lemma segments_render segs acc : segs <> [] -> Forall (fun s => TrimSpace s = s /\ Forall (fun c => bracket c = false) s) segs ->
  last segs <> Some [] -> segments_loop (render segs) acc false false [] = acc ++ segs.
Proof.
  intros Hn H. revert acc Hn. induction H as [|s segs [Ht Hb] H IH]; intros acc Hn Hl; [done|].
  destruct segs as [|s' segs].
  - simpl. rewrite <- (app_nil_r (escape s)), segments_escape by done. simpl. rewrite Ht.
    by destruct s.
  - change (render (s :: s' :: segs)) with (escape s ++ segmentSeparator :: render (s' :: segs)).
    rewrite segments_escape by done. simpl segments_loop at 1. rewrite Ht, IH; [|done|done].
    by rewrite <- app_assoc.
Qed.

(** The segments of a tag round-trip: segments without brackets and outer white space, of which the last is
    not empty, come back from the text in which commas and backslashes are escaped. *)
Theorem parse_segments_roundtrip (segs : list text) :
  Forall (fun s => TrimSpace s = s /\ Forall (fun c => bracket c = false) s) segs -> last segs <> Some [] ->
  parseSegments (render segs) = segs.
Proof. intros H Hl. destruct segs as [|s segs]; [done|]. by apply segments_render. Qed.

Lemma parse_segments_roundtrip_witness : parseSegments (render [rs "name"; rs "a,b"; []; rs "c"]) = [rs "name"; rs "a,b"; []; rs "c"].
Proof.
  apply (parse_segments_roundtrip [rs "name"; rs "a,b"; []; rs "c"]).
  - repeat constructor.
  - discriminate.
Defined.

(** ** Integers *)

Lemma digit_pretty (n : N) : (n < 10)%N -> digit (rn (pretty_N_char n)) = Some (Z.of_N n).
Proof.
  intros Hn. rewrite <- (N2Nat.id n). assert (N.to_nat n < 10)%nat as Hk by lia. revert Hk. clear Hn.
  generalize (N.to_nat n). intros k Hk. do 10 (destruct k as [|k]; [done|]). lia.
Qed.

Lemma digit_bounds c d : digit c = Some d -> 0 <= d <= 9.
Proof.
  unfold digit. destruct ((rn "0" <=? c) && (c <=? rn "9")) eqn:E; [|done]. intros [= <-]. bool_prop.
  change (rn "0") with 48 in *. change (rn "9") with 57 in *. lia.
Qed.

(** Once a prefix is too large, so is the whole number: on digits the loop is one comparison at the end. *)
Fixpoint digits_from (acc : Z) (s : text) : option Z :=
  match s with [] => Some acc | c :: s => match digit c with Some d => digits_from (acc * 10 + d) s | None => None end end.

Lemma digits_from_ge s acc n : 0 <= acc -> digits_from acc s = Some n -> acc <= n.
Proof.
  revert acc. induction s as [|c s IH]; simpl; intros acc Ha; [intros [= <-]; lia|].
  destruct (digit c) as [d|] eqn:Ed; [|done]. apply digit_bounds in Ed. intros H. apply IH in H; lia.
Qed.

Lemma uint_from_digits bits s acc n : 0 <= acc < 2 ^ bits -> digits_from acc s = Some n ->
  uint_from bits acc s = if n <? 2 ^ bits then inr n else inl ErrRange.
Proof.
  revert acc. induction s as [|c s IH]; simpl; intros acc Ha; [intros [= <-]; case_match; [done|bool_prop; lia]|].
  destruct (digit c) as [d|] eqn:Ed; [|done]. apply digit_bounds in Ed. intros H.
  destruct (acc * 10 + d <? 2 ^ bits) eqn:E; bool_prop.
  - apply IH; [lia|done].
  - apply digits_from_ge in H; [|lia]. by rewrite (proj2 (Z.ltb_ge n (2 ^ bits))) by lia.
Qed.

Lemma uint_from_bounds bits s acc n : 0 <= acc < 2 ^ bits -> uint_from bits acc s = inr n -> 0 <= n < 2 ^ bits.
Proof.
  revert acc. induction s as [|c s IH]; simpl; intros acc Ha; [intros [= <-]; done|].
  destruct (digit c) as [d|] eqn:Ed; [|done]. apply digit_bounds in Ed. case_match; [|done]. bool_prop. apply IH. lia.
Qed.

Lemma digits_pretty_go (x : N) (s : string) : digits_from 0 (rs (pretty_N_go x s)) = digits_from (Z.of_N x) (rs s).
Proof.
  revert s. induction (N.lt_wf_0 x) as [x _ IH]. intros s.
  destruct (decide (x = 0)%N) as [->|Hx]; [done|]. rewrite pretty_N_go_step by lia.
  rewrite IH by (apply N.div_lt; lia). change (rs (String ?c s)) with (rn c :: rs s). simpl.
  rewrite digit_pretty by (apply N.mod_lt; lia). f_equal.
  pose proof (N.div_mod x 10). lia.
Qed.

Lemma digits_pretty (x : N) : rs (pretty x) <> [] /\ digits_from 0 (rs (pretty x)) = Some (Z.of_N x).
Proof.
  unfold pretty, pretty_N. case_decide as Hx; [by subst|].
  pose proof (digits_pretty_go x "") as H. simpl in H. split; [|done].
  intros E. rewrite E in H. simpl in H. injection H. lia.
Qed.

Lemma parse_uint_pretty (x : N) bits : 0 <= bits ->
  ParseUint (rs (pretty x)) bits = if Z.of_N x <? 2 ^ bits then inr (Z.of_N x) else inl ErrRange.
Proof.
  intros Hb. destruct (digits_pretty x) as [Hn Hd]. unfold ParseUint.
  destruct (rs (pretty x)) as [|c s] eqn:E; [done|]. rewrite <- E. rewrite <- E in Hd.
  apply uint_from_digits; [|done]. pose proof (Z.pow_pos_nonneg 2 bits). lia.
Qed.

Lemma parse_uint_bounds s bits n : 0 <= bits -> ParseUint s bits = inr n -> 0 <= n < 2 ^ bits.
Proof.
  intros Hb. unfold ParseUint. destruct s; [done|]. apply uint_from_bounds. pose proof (Z.pow_pos_nonneg 2 bits). lia.
Qed.

(** A text of digits has no sign. *)
Lemma parse_int_unsigned (x : N) bits : ParseInt (rs (pretty x)) bits =
  match ParseUint (rs (pretty x)) bits with
  | inr n => if n <? 2 ^ (bits - 1) then inr n else inl ErrRange | inl e => inl e end.
Proof.
  destruct (digits_pretty x) as [Hn Hd]. unfold ParseInt. destruct (rs (pretty x)) as [|c s]; [done|].
  simpl in Hd. destruct (c =? rn "-") eqn:E1; [apply Z.eqb_eq in E1; subst c; done|].
  destruct (c =? rn "+") eqn:E2; [apply Z.eqb_eq in E2; subst c; done|]. done.
Qed.

Lemma parse_int_pretty z bits : 0 < bits ->
  ParseInt (rs (pretty z)) bits = if (- 2 ^ (bits - 1) <=? z) && (z <? 2 ^ (bits - 1)) then inr z else inl ErrRange.
Proof.
  intros Hb. assert (0 < 2 ^ (bits - 1)) as Hp by (apply Z.pow_pos_nonneg; lia).
  assert (2 ^ bits = 2 * 2 ^ (bits - 1)) as H2 by (rewrite <- Z.pow_succ_r by lia; f_equal; lia). destruct z as [|p|p].
  - change (pretty 0) with (pretty 0%N). rewrite parse_int_unsigned, parse_uint_pretty by lia. simpl Z.of_N.
    rewrite (proj2 (Z.ltb_lt 0 (2 ^ bits))) by lia. rewrite (proj2 (Z.leb_le _ 0)) by lia. done.
  - change (pretty (Z.pos p)) with (pretty (N.pos p)). rewrite parse_int_unsigned, parse_uint_pretty by lia. simpl Z.of_N.
    rewrite (proj2 (Z.leb_le _ (Z.pos p))) by lia. simpl andb.
    destruct (Z.pos p <? 2 ^ bits) eqn:E; [done|]. bool_prop. by rewrite (proj2 (Z.ltb_ge _ _)) by lia.
  - change (rs (pretty (Z.neg p))) with (rn "-" :: rs (pretty (N.pos p))). unfold ParseInt.
    rewrite Z.eqb_refl, parse_uint_pretty by lia. simpl Z.of_N. rewrite (proj2 (Z.ltb_lt (Z.neg p) _)) by lia.
    rewrite andb_true_r. destruct (Z.pos p <? 2 ^ bits) eqn:E; bool_prop.
    + destruct (Z.pos p <=? 2 ^ (bits - 1)) eqn:E'; bool_prop.
      * by rewrite (proj2 (Z.leb_le _ _)) by lia.
      * by rewrite (proj2 (Z.leb_gt _ _)) by lia.
    + by rewrite (proj2 (Z.leb_gt _ _)) by lia.
Qed.

Lemma parse_int_bounds s bits n : 0 < bits -> ParseInt s bits = inr n -> - 2 ^ (bits - 1) <= n < 2 ^ (bits - 1).
Proof.
  intros Hb. unfold ParseInt.
  destruct (match s with [] => (false, s) | c :: r => if c =? rn "-" then (true, r) else if c =? rn "+" then (false, r) else (false, s) end) as [neg ds].
  destruct (ParseUint ds bits) as [|m] eqn:Em; [done|]. apply parse_uint_bounds in Em; [|lia].
  destruct neg; case_match; intros [= <-]; bool_prop; lia.
Qed.

(** ** Values from strings *)

Section values.
Context {F : Type} `{!Float64 F} (ParseFloat ParseFloat32 : text -> option F) (f_le : F -> F -> bool).

(** The width of the kinds of numbers *)
Definition wide (k : kind) : Prop := match k with Int bits | Uint bits => 0 < bits | _ => True end.

(** A value is one of its kind, and within its width. *)
Definition of_kind (k : kind) (v : @any F) : Prop :=
  match k, v with
  | Bool, VBool _ | Float _, VFloat _ | KString, VString _ => True
  | Int bits, VInt n => - 2 ^ (bits - 1) <= n < 2 ^ (bits - 1)
  | GoInt, VInt n => - 2 ^ (intSize - 1) <= n < 2 ^ (intSize - 1)
  | GoUint, VUint n => 0 <= n < 2 ^ intSize
  | Uint bits, VUint n => 0 <= n < 2 ^ bits
  | _, _ => False
  end.

Lemma convert_of_kind k s v : wide k -> convertTypeFromString ParseFloat ParseFloat32 k s = inr v -> of_kind k v.
Proof.
  destruct k as [| |bits| |bits|bits| |]; simpl; intros Hb; try done.
  - repeat case_decide; intros [= <-]; done.
  - destruct (ParseInt s intSize) eqn:E; intros [= <-]. by apply parse_int_bounds in E.
  - destruct (ParseInt s bits) eqn:E; intros [= <-]. by apply parse_int_bounds in E.
  - destruct (ParseUint s intSize) eqn:E; intros [= <-]. by apply parse_uint_bounds in E.
  - destruct (ParseUint s bits) eqn:E; intros [= <-]. apply parse_uint_bounds in E; [done|lia].
  - repeat case_match; intros [= <-]; done.
  - intros [= <-]. done.
Qed.

Lemma set_of_kind k v : of_kind k v -> setMatchedPrimitiveValue k v = Ok (inr v).
Proof. by destruct k, v. Qed.

Notation setValue := (setValueFromString ParseFloat ParseFloat32).
Notation validateAndSet := (validateAndSetValue ParseFloat f_le ParseFloat32).

End values.

(** ** Ranges and dependencies *)

Section options.
Context {F : Type} `{!Float64 F} (ParseFloat : text -> option F) (MaxFloat64 negMaxFloat64 : F) (f_eqb f_le : F -> F -> bool).
Notation doParse := (doParseKeyAndOptions ParseFloat MaxFloat64 negMaxFloat64 f_eqb).

(** What the optional dependency of a field asks of the keys that are present, and whether the field is then
    optional *)
Definition dependency (dep key : text) (has : text -> bool) : option bool :=
  match dep with
  | [] => Some true
  | d :: rest =>
    if d =? notSymbol
    then (if decide (rest = []) then None else if Bool.eqb (has rest) (has key) then None else Some (has rest))
    else (if Bool.eqb (has dep) (has key) then Some (negb (has dep)) else None)
  end.

(** C23: the options of a field in their context.  A field is refused exactly when it depends on a key that is
    present without it, or excludes one that is present or absent with it; otherwise it is optional as its
    dependency says, its other options stay, except that it loses its range and its inheritance when the
    dependency makes it required. *)
Theorem options_in_context (o : @fieldOptions F) key (has : text -> bool) fullName :
  let c := withContext o in
  match (if Optional c then dependency (OptionalDep o) key has else Some false), toOptionsWithContext o key has fullName with
  | None, inl _ => True
  | Some opt, inr c' =>
    Optional c' = opt /\ FromString c' = FromString c /\ Options c' = Options c /\ Default c' = Default c /\ EnvVar c' = EnvVar c /\
    (Optional c = opt -> c' = c) /\ (Optional c <> opt -> Range c' = None /\ Inherit c' = false)
  | _, _ => False
  end.
Proof.
  destruct o as [[inh fs opt opts d e r] dep]. cbn.
  unfold toOptionsWithContext, dependency. cbn. destruct opt; cbn; [|by repeat split].
  destruct dep as [|c rest]; [by repeat split|]. destruct (c =? notSymbol).
  - destruct rest as [|c' rest]; [done|]. rewrite decide_False by done.
    destruct (has (c' :: rest)), (has key); cbn; by repeat split.
  - destruct (has (c :: rest)), (has key); cbn; by repeat split.
Qed.

(** ** The cache of options *)

(** An error without the name of its field *)
Definition nameless (e : error) : error :=
  match e with WrongOptional _ => WrongOptional [] | WrongTagValue _ t => WrongTagValue [] t | e => e end.
Definition same_but_names {A} (r r' : error + A) : Prop :=
  match r, r' with inl e, inl e' => nameless e = nameless e' | inr a, inr a' => a = a' | _, _ => False end.

Lemma parse_option_names o f f' opt :
  same_but_names (parseOption ParseFloat MaxFloat64 negMaxFloat64 f_eqb o f opt) (parseOption ParseFloat MaxFloat64 negMaxFloat64 f_eqb o f' opt).
Proof.
  unfold parseOption, parseProperty. repeat case_decide; try done; repeat (case_match; simplify_eq/=; try done).
Qed.

Lemma parse_options_names o f f' l :
  same_but_names (parse_options ParseFloat MaxFloat64 negMaxFloat64 f_eqb o f l) (parse_options ParseFloat MaxFloat64 negMaxFloat64 f_eqb o f' l).
Proof.
  revert o. induction l as [|s l IH]; intros o; [done|]. simpl. pose proof (parse_option_names o f f' (TrimSpace s)) as H.
  destruct (parseOption _ _ _ _ o f _), (parseOption _ _ _ _ o f' _); simpl in H; subst; done.
Qed.

(** The name of the field matters for errors only. *)
Lemma do_parse_names f f' v : match doParse f v, doParse f' v with
  | Ok r, Ok r' => same_but_names r r' | Panic m, Panic m' => m = m' | _, _ => False end.
Proof.
  unfold doParseKeyAndOptions. destruct (parseSegments v) as [|key [|s l]]; [done..|]. 
  pose proof (parse_options_names noOptions f f' (s :: l)) as H.
  destruct (parse_options _ _ _ _ _ f _), (parse_options _ _ _ _ _ f' _); simpl in *; subst; done.
Qed.

(** Every entry is what the tag parses to, for some field. *)
Definition cache_ok (c : @optionsCache F) : Prop := forall v r, c !! v = Some r -> exists f, doParse f v = Ok r.

Notation parseKey := (parseKeyAndOptions ParseFloat MaxFloat64 negMaxFloat64 f_eqb).

(** The cache of tag options is transparent.  From an empty cache, after any calls, a tag parses to the same
    key and options as without the cache; only the field that an error names may be another one; and the cache
    never makes a call panic. *)
Theorem options_cache_transparent (calls : list (text * text)) f tag :
  let cache := foldl (fun c p => match parseKey c p.1 p.2 with Ok (_, c') => c' | Panic _ => c end) ∅ calls in
  match parseKey cache f tag, parseKey ∅ f tag with
  | Ok (r, _), Ok (r', _) => same_but_names r r'
  | Panic m, Panic m' => m = m'
  | _, _ => False
  end.
Proof.
  intros cache. assert (cache_ok cache) as Hok.
  { subst cache. assert (cache_ok ∅) as H by (intros v r Hv; by apply (lookup_empty_Some (M := gmap text)) in Hv). revert H. generalize (∅ : @optionsCache F).
    induction calls as [|[g v] calls IH]; intros c Hc; [done|]. apply IH. simpl. unfold parseKeyAndOptions.
    destruct (TrimSpace v) as [|x w] eqn:Ev; [done|]. destruct (c !! (x :: w)) eqn:Ec; [done|].
    destruct (doParse g (x :: w)) as [r|] eqn:Er; [|done]. simpl. intros v' r' Hv.
    apply (lookup_insert_Some (M := gmap text)) in Hv as [[<- <-]|[_ H]]; eauto. }
  unfold parseKeyAndOptions. destruct (TrimSpace tag) as [|x w]; [done|].
  change ((∅ : @optionsCache F) !! (x :: w)) with (@None (@error + text * option (@fieldOptions F))).
  destruct (cache !! (x :: w)) as [r|] eqn:Ec.
  - destruct (Hok _ _ Ec) as [g Hg]. pose proof (do_parse_names g f (x :: w)) as H. rewrite Hg in H.
    destruct (doParse f (x :: w)) as [r'|]; [|done]. simpl.
    destruct r as [e|[k o]], r' as [e'|[k' o']]; simpl in *; try done. by injection H as -> ->.
  - destruct (doParse f (x :: w)) as [r|]; simpl; [|done]. by destruct r as [e|[k o]].
Qed.

(** ** The cache of required structs *)

Notation required := (implicitValueRequiredStruct ParseFloat MaxFloat64 negMaxFloat64 f_eqb).
Notation structRequired := (structValueRequired ParseFloat MaxFloat64 negMaxFloat64 f_eqb).

(** The results of the calls of [structValueRequired] for tag keys and types, one after the other *)
Fixpoint required_calls (cache : structRequiredCache) (calls : list (text * gtype)) : list (outcome (error + bool)) :=
  match calls with
  | [] => []
  | (tag, tp) :: calls =>
    match structRequired cache tag tp with
    | Ok (r, cache) => Ok r :: required_calls cache calls
    | Panic m => Panic m :: required_calls cache calls
    end
  end.

(** Types with the same name are the same. *)
Definition named_once (types : list gtype) : Prop :=
  forall n fs fs', TStruct n fs ∈ types -> TStruct n fs' ∈ types -> fs = fs'.

(** The cache of required structs is transparent as long as all calls are for one tag key. *)
Theorem required_cache_one_tag tag (types : list gtype) : named_once types ->
  required_calls ∅ (map (pair tag) types) = map (required tag) types.
Proof.
  intros Hn. enough (forall (c : structRequiredCache) l, l ⊆ types ->
    (forall n r, c !! n = Some r -> exists fs, TStruct n fs ∈ types /\ required tag (TStruct n fs) = Ok r) ->
    required_calls c (map (pair tag) l) = map (required tag) l) as H.
  { apply H; [done|]. intros n r Hr. by apply (lookup_empty_Some (M := gmap text)) in Hr. }
  intros c l. revert c. induction l as [|tp l IH]; intros c Hl Hc; [done|].
  assert (l ⊆ types) as Hl' by set_solver. destruct tp as [| | | | |n fs]; [simpl; by rewrite IH..|].
  cbn [map required_calls]. unfold structValueRequired at 1.
  assert (TStruct n fs ∈ types) as Hin by set_solver.
  destruct (c !! n) as [r|] eqn:Ec.
  - destruct (Hc _ _ Ec) as (fs' & Hin' & Hr). rewrite IH by done. f_equal. rewrite <- Hr. by rewrite (Hn n fs fs').
  - destruct (required tag (TStruct n fs)) as [r|m] eqn:Er; simpl obind; [|by rewrite IH].
    f_equal. apply IH; [done|]. intros n' r'. intros [[<- <-]|[_ H]]%(lookup_insert_Some (M := gmap text)); eauto.
Qed.
End options.

(** ** What goes wrong *)

(** Rational numbers stand for the floats here. *)
Definition ParseFloat_ex (s : text) : option Q := inject_Z <$> digits_from 0 s.
Notation parseKey_ex := (parseKeyAndOptions ParseFloat_ex (inject_Z 1000) (inject_Z (-1000)) Qeq_bool).


(** Finding: the range of a field with a dependency is lost in the one case in which its value is looked at.  The
    field [b] is optional, depends on [a] and has a range; [a] and [b] are given: the options of [b] in their
    context have no range, and a number outside of it passes. *)
Definition dep_tag : text := rs "b,optional=a,range=[1:5]".
Definition dep_options : @fieldOptions Q :=
  match parseKey_ex ∅ (rs "B") dep_tag with Ok (inr (_, Some o), _) => o | _ => noOptions end.

Example range_lost_with_dependency :
  (exists nr, Range (withContext dep_options) = Some nr /\ left_ nr = inject_Z 1 /\ right_ nr = inject_Z 5) /\
  match toOptionsWithContext dep_options (rs "b") (fun _ => true) (rs "B") with
  | inr c => Range c = None /\
             validateValueRange Qle_bool (VInt 9) (Some c) = None /\
             validateValueRange Qle_bool (VInt 9) (Some (withContext dep_options)) = Some errNumberRange
  | inl _ => False
  end.
Proof. split; [eexists; by vm_compute|by vm_compute]. Qed.

(** Finding: a tag that is one backslash has no segments, and the program panics. *)
Example lone_backslash_panics : parseKey_ex ∅ (rs "B") [escapeChar] = Panic "index out of range [0] with length 0".
Proof. reflexivity. Qed.

(** Finding: the cache of required structs does not know the key of the tag.  A struct whose only field is
    optional in its json tag is required for another key; after a call for that key it is required for json too. *)
Definition only_json : gtype := TStruct (rs "T") [mkField (rs "A") true false (TPrim KString) [(rs "json", rs "a,optional")]].
Example required_cache_ignores_tag :
  required_calls ParseFloat_ex (inject_Z 1000) (inject_Z (-1000)) Qeq_bool ∅ [(rs "json", only_json)] = [Ok (inr false)] /\
  required_calls ParseFloat_ex (inject_Z 1000) (inject_Z (-1000)) Qeq_bool ∅ [(rs "form", only_json); (rs "json", only_json)]
    = [Ok (inr true); Ok (inr true)].
Proof. by vm_compute. Qed.
