(* ===== verification/Unmarshal.v ===== *)
(** * [core/mapping/unmarshaler.go] and [valuer.go]: setting Go values from maps

    Targets are values of the types of [Mapping.v]; interfaces and arrays, types that implement
    [encoding.TextUnmarshaler] or [json.Unmarshaler], and embedded pointers to anything but a struct are not
    modelled.  What [reflect] changes in place is returned: a function is given the value of its target and returns
    the new one; when it returns an error, what the target holds is not modelled.  [reflect] panics where a value is
    set whose type is not the one of the target.

    The input is what [encoding/json] decodes with [UseNumber].  Its maps are kept in a store, because
    [recursiveValuer] writes into them; location 0 is [emptyMap]. *)

From Stdlib Require Import Ascii String.
From stdpp Require Import pretty.
From S2P Require Import Prelude Token Strings Breaker Mapping.
Local Open Scope Z_scope.
Local Open Scope go_scope.

(** ** Inputs and values *)

(** A value of the input; [IStrings] is a [[]string], nil when it is empty, and [INilSlice] a nil [[]any]. *)
Inductive input :=
| INil | IBool (b : bool) | IString (s : text) | INumber (s : text) | IMap (l : nat) | ISlice (l : list input) | INilSlice
| IStrings (l : list text).

(** A Go value: of a primitive kind, a pointer, a slice, a map, or a struct *)
Inductive gval (F : Type) :=
| VPrim (v : @any F) | VNil | VRef (v : gval F) | VNilSlice | VSlice (l : list (gval F)) | VNilMap | VMap (l : list (text * gval F))
| VStruct (l : list (gval F)).
Arguments VPrim {F} v.
Arguments VNil {F}.
Arguments VRef {F} v.
Arguments VNilSlice {F}.
Arguments VSlice {F} l.
Arguments VNilMap {F}.
Arguments VMap {F} l.
Arguments VStruct {F} l.

Definition f_name (f : gfield) : text := let 'mkField n _ _ _ _ := f in n.
Definition IsExported (f : gfield) : bool := let 'mkField _ e _ _ _ := f in e.
Definition Anonymous (f : gfield) : bool := let 'mkField _ _ a _ _ := f in a.
Definition f_type (f : gfield) : gtype := let 'mkField _ _ _ t _ := f in t.
Definition f_tags (f : gfield) : list (text * text) := let 'mkField _ _ _ _ t := f in t.

Fixpoint Deref (t : gtype) : gtype := match t with TPtr t => Deref t | _ => t end.

(** The kinds of [reflect] *)
Variant rkind := KPrim (k : kind) | KPtr | KSlice | KMap | KStruct.
#[global] Instance rkind_eq_dec : EqDecision rkind.
Proof. solve_decision. Defined.
Definition Kind (t : gtype) : rkind :=
  match t with
  | TPrim k => KPrim k | TDuration => KPrim (Int 64) | TPtr _ => KPtr | TSlice _ => KSlice | TMap _ => KMap | TStruct _ _ => KStruct
  end.
(** The kind as one of the primitive ones *)
Definition prim_kind (t : gtype) : kind := match Kind t with KPrim k => k | _ => Other end.

(** Struct types are the same when their names are. *)
Fixpoint same_type (a b : gtype) : bool :=
  match a, b with
  | TPrim k, TPrim k' => bool_decide (k = k')
  | TDuration, TDuration => true
  | TPtr a, TPtr b | TSlice a, TSlice b | TMap a, TMap b => same_type a b
  | TStruct n _, TStruct n' _ => bool_decide (n = n')
  | _, _ => false
  end.

(** [fmt.Sprintf] of the names *)
Definition at_index (name : text) (i : nat) : text := name ++ rs "[" ++ rs (pretty i) ++ rs "]".
Definition at_key (name key : text) : text := name ++ rs "[" ++ key ++ rs "]".

(** [join] *)
Definition join (a b : text) : text := match a, b with [], _ => b | _, [] => a | _, _ => a ++ rs "." ++ b end.

Definition ignoreKey : text := rs "-".

(** [strings.FieldsFunc] at the dots, and [readKeys] but for its cache *)
Definition readKeys (key : text) (opaque : bool) : list text :=
  if opaque then [key] else List.filter (fun k => match k with [] => false | _ => true end) (Split key (rn ".")).

(** [strconv.ParseBool] *)
Definition ParseBool (s : text) : option bool :=
  if decide (s ∈ [rs "1"; rs "t"; rs "T"; rs "true"; rs "TRUE"; rs "True"]) then Some true
  else if decide (s ∈ [rs "0"; rs "f"; rs "F"; rs "false"; rs "FALSE"; rs "False"]) then Some false
  else None.

(** ** [valuer.go] *)

(** [mapValuer], [simpleValuer] and [recursiveValuer]; a [valuerWithParent] is one of the latter. *)
Inductive valuer := mapValuer (l : nat) | simpleValuer (current : valuer) (parent : option valuer) | recursiveValuer (current : valuer) (parent : option valuer).

Fixpoint Parent (v : valuer) : option valuer :=
  match v with
  | mapValuer _ => None
  | simpleValuer _ p | recursiveValuer _ p => match p with None => None | Some p => Some (recursiveValuer p (Parent p)) end
  end.

(** The store of the input's maps; [defaultCache]; [structRequiredCache] *)
Record store := mkStore { maps : list (gmap text input); defaultCache : gmap text input; required : structRequiredCache }.

Definition map_at (l : nat) (s : store) : gmap text input := default ∅ (maps s !! l).
(** [vm[k] = v] for the keys of [pm] that [vm] does not have *)
Definition merge_map (vm pm : nat) (s : store) : store :=
  mkStore (<[vm := map_at vm s ∪ map_at pm s]> (maps s)) (defaultCache s) (required s).

Fixpoint Value (fuel : nat) (v : valuer) (key : text) : M store (option input) :=
  match fuel with
  | O => panic "out of fuel"
  | S fuel =>
    match v with
    | mapValuer l => gets (fun s => map_at l s !! key)
    | simpleValuer current _ => Value fuel current key
    | recursiveValuer current _ =>
      let! val := Value fuel current key in
      match val, Parent v with
      | None, Some parent => Value fuel parent key
      | Some (IMap vm), Some parent =>
        let! pv := Value fuel parent key in
        match pv with
        | Some (IMap pm) => let! _ := modify (merge_map vm pm) in ret (Some (IMap vm))
        | _ => ret val
        end
      | _, _ => ret val
      end
    end
  end.

Section unmarshal.
Context {F : Type} `{!Float64 F} (ParseFloat ParseFloat32 : text -> option F) (MaxFloat64 negMaxFloat64 : F).
Context (f_eqb f_le : F -> F -> bool) (Repr : @any F -> text).

(** The libraries: whether a float is zero, and overflows float32, and its float32; [time.ParseDuration]; the environment; decoding of
    JSON into an [any], a [[]any], and a map of Go values; the order in which a map is iterated. *)
Context (f_zero overflows32 : F -> bool) (f_round32 : F -> F) (ParseDuration : text -> option Z) (Env : text -> text).
Context (json_any : text -> store -> (text + input) * store) (json_slice : text -> store -> (text + list input) * store).
Context (json_map : text -> gtype -> gval F -> text + gval F).
Context (MapKeys : gmap text input -> list (text * input)).

(** [Unmarshaler] *)
Record unmarshaler := mkUnmarshaler {
  u_key : text; fillDefault : bool; fromArray : bool; u_fromString : bool; opaqueKeys : bool; canonicalKey : option (text -> text)
}.
Context (u : unmarshaler).

(** Errors: of [utils.go] and [fieldoptions.go], and those of [unmarshaler.go] *)
Variant uerror :=
| UError (e : error) | errNilSliceElement | errValueNotStruct | NotValidPointer
| NotSet (name : text) | NilField (key : text) | NotFullySet (key : text) | NotZero (name : text)
| TypeMismatch (name : text) | NotAString | NotInFieldOptions (key v : text) | OutOfRange32 (s : text)
| JsonError (msg : text) | WrongDuration (s : text) | WrongEnv (name s : text).
Notation typeMismatch := (UError errTypeMismatch).

(** Code that may also return an error *)
Definition EM (A : Type) : Type := M store (uerror + A).
Definition eret {A} (a : A) : EM A := ret (inr a).
Definition throw {A} (e : uerror) : EM A := ret (inl e).
Definition ebind {A B} (m : EM A) (k : A -> EM B) : EM B :=
  bind m (fun r => match r with inl e => ret (inl e) | inr a => k a end).
Definition lift {A} (x : outcome (error + A)) : EM A :=
  fun s => match x with Panic m => Panic m | Ok (inl e) => Ok (inl (UError e), s) | Ok (inr a) => Ok (inr a, s) end.
Definition check (e : option error) : EM () := match e with Some e => throw (UError e) | None => eret () end.
Notation "'let?' x := m 'in' k" := (ebind m (fun x => k)) (at level 200, x pattern, right associativity).

(** The zero value of a type *)
Fixpoint zero (t : gtype) : gval F :=
  match t with
  | TPrim k => VPrim (match k with
                      | Bool => VBool false | GoInt | Int _ => VInt 0 | GoUint | Uint _ => VUint 0 | Float _ => VFloat (f_of_Z 0)
                      | KString => VString [] | Other => VOther end)
  | TDuration => VPrim (VInt 0)
  | TPtr _ => VNil
  | TSlice _ => VNilSlice
  | TMap _ => VNilMap
  | TStruct _ fs => VStruct ((fix zeros l := match l with [] => [] | mkField _ _ _ t _ :: l => zero t :: zeros l end) fs)
  end.
Definition zero_fields (fs : list gfield) : list (gval F) := map (fun f => zero (f_type f)) fs.

(** [IsZero] *)
Fixpoint IsZero (v : gval F) : bool :=
  match v with
  | VPrim (VBool b) => negb b
  | VPrim (VInt n) | VPrim (VUint n) => n =? 0
  | VPrim (VFloat f) => f_zero f
  | VPrim (VString s) => bool_decide (s = [])
  | VPrim VOther | VNil | VNilSlice | VNilMap => true
  | VRef _ | VSlice _ | VMap _ => false
  | VStruct l => forallb IsZero l
  end.

(** [SetValue] and [convertTypeOfPtr]: a value of the type without its pointers behind new ones *)
Fixpoint wrap (t : gtype) (v : gval F) : gval F := match t with TPtr t => VRef (wrap t v) | _ => v end.

(** [value.Set] of a value of type [xt] where the type is [vt] *)
Definition assign (vt xt : gtype) (x : gval F) : EM (gval F) :=
  if same_type vt xt then eret x else panic "reflect.Set: value is not assignable".

(** [value.Elem()] for a pointer, after [maybeNewValue], which cannot set a field that is not exported *)
Definition maybeNewValue (t : gtype) (exported : bool) (old : gval F) : EM (gval F) :=
  match t, old with
  | TPtr t, VNil => if exported then eret (VRef (zero t)) else panic "reflect.Set: value obtained using unexported field"
  | _, _ => eret old
  end.

(** [setValueFromString] with [ensureValue], for a target of type [t] and the kind of its base *)
Definition set_from_string (t : gtype) (s : text) : EM (gval F) :=
  let? v := lift (setValueFromString ParseFloat ParseFloat32 (prim_kind (Deref t)) true s) in eret (wrap t (VPrim v)).

Definition fillDurationValue (t : gtype) (dur : text) : EM (gval F) :=
  match ParseDuration dur with None => throw (WrongDuration dur) | Some d => eret (wrap t (VPrim (VInt d))) end.

Section calls.
(** The recursive calls: of [unmarshalWithFullName] for a struct, of [fillSlice], and of [generateMap] *)
Inductive call :=
| CallStruct (fs : list gfield) (m : valuer) (old : list (gval F)) (fullName : text)
| CallSlice (fieldType valueType : gtype) (old : gval F) (v : input) (fullName : text)
| CallMap (elemType : gtype) (l : nat) (fullName : text).
Context (rec : call -> EM (gval F)) (value : valuer -> text -> M store (option input)).

(** ** Maps and slices *)

Definition fillMap (t : gtype) (l : nat) (fullName : text) : EM (gval F) :=
  match t with TMap elem => rec (CallMap elem l fullName) | _ => panic "reflect: Key of non-map type" end.

Definition fillMapFromString (t : gtype) (old : gval F) (s : text) : EM (gval F) :=
  match json_map s t old with inl msg => throw (JsonError msg) | inr v => eret v end.

(** [fillSliceValue] for an element of type [t], the kind being that of its base; [reflect.TypeOf(value)] is assignable
    to the base for a bool only. *)
Definition fillSliceValue (t : gtype) (v : input) (fullName : text) : EM (gval F) :=
  match v with
  | INil => throw errNilSliceElement
  | INumber s | IString s => set_from_string t s
  | IMap l => fillMap t l fullName
  | IBool b => if same_type (Deref t) (TPrim Bool) then eret (wrap t (VPrim (VBool b))) else throw typeMismatch
  | ISlice _ | INilSlice | IStrings _ => throw typeMismatch
  end.

(** The loop of [fillSlice] over elements of type [base]: the elements of [conv], and [valid] *)
Fixpoint fill_elements (base : gtype) (i : nat) (l : list input) (fullName : text) : EM (list (gval F) * bool) :=
  match l with
  | [] => eret ([], false)
  | INil :: l => let? (rest, valid) := fill_elements base (S i) l fullName in eret (zero base :: rest, valid)
  | v :: l =>
    let? x :=
      match Deref base, v with
      | TStruct _ fs, IMap m =>
        let? target := rec (CallStruct fs (simpleValuer (mapValuer m) None) (zero_fields fs) (at_index fullName i)) in
        eret (wrap base target)
      | TStruct _ _, _ => throw typeMismatch
      | TSlice t, _ => rec (CallSlice (TSlice t) base (zero base) v (at_index fullName i))
      | _, _ => fillSliceValue base v (at_index fullName i)
      end in
    let? (rest, _) := fill_elements base (S i) l fullName in eret (x :: rest, true)
  end.

(** [Elem] of a type *)
Definition Elem (t : gtype) : option gtype := match t with TPtr t | TSlice t | TMap t => Some t | _ => None end.

(** [fillSlice] for a target of type [valueType] *)
Definition fillSlice (fieldType valueType : gtype) (old : gval F) (v : input) (fullName : text) : EM (gval F) :=
  let fill (l : list input) :=
    match Elem fieldType with
    | None => panic "reflect: Elem of invalid type"
    | Some base =>
      match l with
      | [] => assign valueType (TSlice base) (VSlice [])
      | _ =>
        let? (conv, valid) := fill_elements base 0 l fullName in
        if valid then assign valueType (TSlice base) (VSlice conv) else eret old
      end
    end in
  match v with
  | INil => panic "reflect: call of reflect.Value.Type on zero Value"
  | INilSlice | IStrings [] => eret old
  | ISlice l => fill l
  | IStrings l => fill (map IString l)
  | IBool _ | IString _ | INumber _ | IMap _ => throw (TypeMismatch fullName)
  end.

(** [fillSliceFromString]: the elements are of the base type. *)
Fixpoint fill_values (t : gtype) (l : list input) (fullName : text) : EM (list (gval F)) :=
  match l with
  | [] => eret []
  | v :: l => let? x := fillSliceValue t v fullName in let? rest := fill_values t l fullName in eret (x :: rest)
  end.
Definition decode {A} (dec : text -> store -> (text + A) * store) (s : text) : EM A :=
  fun st => let '(r, st) := dec s st in Ok (match r with inl msg => inl (JsonError msg) | inr a => inr a end, st).
Definition fillSliceFromString (t : gtype) (s : text) (fullName : text) : EM (gval F) :=
  let? l := decode json_slice s in
  match Elem t with
  | None => panic "reflect: Elem of invalid type"
  | Some elem => let? conv := fill_values (Deref elem) l fullName in assign t (TSlice (Deref elem)) (VSlice conv)
  end.

Definition set_default (key : text) (v : input) (s : store) : store := mkStore (maps s) (<[key := v]> (defaultCache s)) (required s).
(** [derefedType] is a slice. *)
Definition fillSliceWithDefault (derefedType t : gtype) (old : gval F) (defaultValue fullName : text) : EM (gval F) :=
  let! cached := gets (fun s => defaultCache s !! defaultValue) in
  let? v :=
    match cached with
    | Some v => eret v
    | None =>
      let? v := match Elem derefedType with
                | Some elem => if decide (Kind (Deref elem) = KPrim KString) then eret (IStrings (parseGroupedSegments defaultValue))
                               else decode json_any defaultValue
                | None => panic "reflect: Elem of invalid type"
                end in
      let! _ := modify (set_default defaultValue v) in eret v
    end in
  rec (CallSlice derefedType t old v fullName).

(** The value of one key in [generateMap] *)
Definition map_value (elem : gtype) (v : input) (fullName : text) : EM (gval F) :=
  match Deref elem with
  | TSlice t => let? x := rec (CallSlice elem (TSlice t) VNilSlice v fullName) in assign elem (TSlice t) x
  | TStruct _ fs =>
    match v with
    | IMap m =>
      let? target := rec (CallStruct fs (simpleValuer (mapValuer m) None) (zero_fields fs) fullName) in eret (wrap elem target)
    | _ => throw typeMismatch
    end
  | TMap _ =>
    match v with
    | IMap m => match elem with TMap t => rec (CallMap t m fullName) | _ => panic "reflect: Key of non-map type" end
    | _ => throw typeMismatch
    end
  | base =>
    match v with
    | IBool b => if decide (Kind base = KPrim Bool) then assign elem (TPrim Bool) (VPrim (VBool b)) else throw typeMismatch
    | IString s => if decide (Kind base = KPrim KString) then assign elem (TPrim KString) (VPrim (VString s)) else throw typeMismatch
    | INumber s => let? x := set_from_string base s in assign elem base x
    | _ => throw typeMismatch
    end
  end.

Fixpoint map_values (elem : gtype) (l : list (text * input)) (fullName : text) : EM (list (text * gval F)) :=
  match l with
  | [] => eret []
  | (k, v) :: l =>
    let? x := map_value elem v (at_key fullName k) in let? rest := map_values elem l fullName in eret ((k, x) :: rest)
  end.

(** [generateMap] for the elements of a map *)
Definition generateMap (elem : gtype) (l : nat) (fullName : text) : EM (gval F) :=
  let! m := gets (map_at l) in
  let? r := map_values elem (MapKeys m) fullName in eret (VMap r).

(** ** Fields of primitive types *)

(** Pointers on the way to the base that are all there *)
Fixpoint reaches (t : gtype) (v : gval F) : bool := match t, v with TPtr t, VRef v => reaches t v | TPtr _, _ => false | _, _ => true end.

Definition processFieldPrimitiveWithJSONNumber (t : gtype) (old : gval F) (s : text) (opts : option (@fieldOptionsWithContext F))
    (fullName : text) : EM (gval F) :=
  let? _ := check (validateJsonNumberRange ParseFloat f_le s opts) in
  let? _ := check (validateValueInOptions Repr (VString s) (options opts)) in
  match prim_kind (Deref t) with
  | GoInt | Int _ | GoUint | Uint _ =>
    let? v := set_from_string (Deref t) s in eret (wrap t v)
  | Float bits =>
    match ParseFloat s with
    | None => throw (UError (WrongFloat s))
    | Some f =>
      if bits =? 32 then
        if negb (reaches t old) then panic "reflect: call of reflect.Value.Type on zero Value"
        else if overflows32 f then throw (OutOfRange32 s) else eret (wrap t (VPrim (VFloat (f_round32 f))))
      else eret (wrap t (VPrim (VFloat f)))
    end
  | _ => throw (TypeMismatch fullName)
  end.

(** [processFieldPrimitive] with [fillWithSameType]; the kinds agree for a bool and a string only, a map or a slice
    for such a target having been handled before. *)
Definition processFieldPrimitive (t : gtype) (old : gval F) (v : input) (opts : option (@fieldOptionsWithContext F)) (fullName : text) : EM (gval F) :=
  let same (x : @any F) :=
    let? _ := check (validateValueInOptions Repr x (options opts)) in
    let? _ := check (validateValueRange f_le x opts) in eret (wrap t (VPrim x)) in
  match v with
  | INumber s => processFieldPrimitiveWithJSONNumber t old s opts fullName
  | IBool b => if decide (Kind (Deref t) = KPrim Bool) then same (VBool b) else throw (TypeMismatch fullName)
  | IString s => if decide (Kind (Deref t) = KPrim KString) then same (VString s) else throw (TypeMismatch fullName)
  | _ => throw (TypeMismatch fullName)
  end.

Definition fillPrimitive (t : gtype) (v : input) (opts : option (@fieldOptionsWithContext F)) (fullName : text) : EM (gval F) :=
  match v with
  | IString s =>
    let? x := lift (validateAndSetValue ParseFloat f_le ParseFloat32 (prim_kind (Deref t)) true s opts) in eret (wrap t (VPrim x))
  | INumber s =>
    let? _ := check (validateJsonNumberRange ParseFloat f_le s opts) in
    let? x := lift (setValueFromString ParseFloat ParseFloat32 (prim_kind (Deref t)) true s) in eret (wrap t (VPrim x))
  | _ => throw (TypeMismatch fullName)
  end.

Definition processNamedFieldWithValueFromString (t : gtype) (v : input) (key : text) (opts : option (@fieldOptionsWithContext F))
    (fullName : text) : EM (gval F) :=
  match v with
  | IString s | INumber s =>
    match options opts with
    | [] => fillPrimitive t v opts fullName
    | l => if Contains l s then fillPrimitive t v opts fullName else throw (NotInFieldOptions key s)
    end
  | _ => throw NotAString
  end.

Definition processFieldWithEnvValue (t : gtype) (old : gval F) (envVal : text) (opts : option (@fieldOptionsWithContext F)) (fullName : text) : EM (gval F) :=
  let? _ := check (validateValueInOptions Repr (VString envVal) (options opts)) in
  match Kind t with
  | KPrim Bool => match ParseBool envVal with Some b => eret (VPrim (VBool b)) | None => throw (WrongEnv fullName envVal) end
  | KPrim (Int 64) =>
    match ParseDuration envVal with
    | None => throw (WrongEnv fullName envVal)
    | Some d => assign t TDuration (VPrim (VInt d))
    end
  | KPrim KString => eret (VPrim (VString envVal))
  | _ => processFieldPrimitiveWithJSONNumber t old envVal opts fullName
  end.

(** ** Fields *)

Definition processFieldStruct (t : gtype) (fs : list gfield) (old : gval F) (m : valuer) (fullName : text) : EM (gval F) :=
  match t, old with
  | TPtr _, _ => let? target := rec (CallStruct fs m (zero_fields fs) fullName) in eret (wrap t target)
  | _, VStruct vs => rec (CallStruct fs m vs fullName)
  | _, _ => panic "not a struct"
  end.

(** The value is not nil. *)
Definition processFieldNotFromString (t : gtype) (old : gval F) (v : input) (parent : option valuer) (opts : option (@fieldOptionsWithContext F))
    (fullName : text) : EM (gval F) :=
  match v, Deref t with
  | IMap l, TStruct _ fs => processFieldStruct t fs old (simpleValuer (mapValuer l) parent) fullName
  | (ISlice _ | INilSlice | IStrings _), TSlice _ => rec (CallSlice t t old v fullName)
  | IMap l, TMap _ => fillMap t l fullName
  | (IString s | INumber s), TMap _ => fillMapFromString t old s
  | (IString s | INumber s), TSlice _ => fillSliceFromString t s fullName
  | IString s, TDuration => fillDurationValue t s
  | INumber _, TDuration => panic "interface conversion: interface {} is json.Number, not string"
  | _, _ => processFieldPrimitive t old v opts fullName
  end.

Definition emptyMap : nat := 0.

Definition get_required (t : gtype) : EM bool :=
  fun s => match structValueRequired ParseFloat MaxFloat64 negMaxFloat64 f_eqb (required s) (u_key u) t with
           | Panic m => Panic m
           | Ok (r, cache) => Ok (match r with inl e => inl (UError e) | inr b => inr b end, mkStore (maps s) (defaultCache s) cache)
           end.

Definition processNamedFieldWithoutValue (t : gtype) (old : gval F) (opts : option (@fieldOptionsWithContext F)) (fullName : text) : EM (gval F) :=
  let fill_empty := processFieldNotFromString t old (IMap emptyMap) None opts fullName in
  match getDefault opts with
  | (d, true) =>
    match Deref t with
    | TDuration => fillDurationValue t d
    | TSlice _ as s => fillSliceWithDefault s t old d fullName
    | _ => set_from_string t d
    end
  | (_, false) =>
    if fillDefault u then match t with TStruct _ _ => fill_empty | _ => eret old end
    else if optional opts then eret old
    else
      match Deref t with
      | TMap _ | TSlice _ => fill_empty
      | TStruct _ _ as s =>
        let? required := get_required s in
        if required : bool then throw (NotSet fullName) else fill_empty
      | _ => throw (NotSet fullName)
      end
  end.

(** [maybeNewValue] and [processFieldTextUnmarshaler], which sets a pointer to a pointer anew *)
Definition new_value (t : gtype) (old : gval F) : EM (gval F) :=
  match t with TPtr (TPtr _) => eret (wrap t (zero (Deref t))) | _ => maybeNewValue t true old end.

Definition processNamedFieldWithValue (t : gtype) (old : gval F) (v : input) (parent : valuer) (key : text)
    (opts : option (@fieldOptionsWithContext F)) (fullName : text) : EM (gval F) :=
  match v with
  | INil => if optional opts then eret old else throw (NilField key)
  | _ =>
    let? old := new_value t old in
    match Kind (Deref t) with
    | KMap | KSlice | KStruct => processFieldNotFromString t old v (Some parent) opts fullName
    | _ =>
      if u_fromString u || fromString opts then processNamedFieldWithValueFromString t v key opts fullName
      else processFieldNotFromString t old v (Some parent) opts fullName
    end
  end.

(** [Value] of the keys that an optional field depends on, in the order of [toOptionsWithContext] *)
Definition optionsWithContext (o : @fieldOptions F) (key : text) (m : valuer) (fullName : text) : EM (@fieldOptionsWithContext F) :=
  let pure (has : text -> bool) := lift (Ok (toOptionsWithContext o key has fullName)) in
  if negb (Optional (withContext o)) then pure (fun _ => false)
  else
    let dep := match OptionalDep o with c :: rest => if c =? notSymbol then rest else c :: rest | [] => [] end in
    match dep with
    | [] => pure (fun _ => false)
    | _ =>
      let! baseOn := value m dep in
      let! selfOn := value m key in
      pure (fun k => if decide (k = dep) then bool_decide (is_Some baseOn) else bool_decide (is_Some selfOn))
    end.

Definition parseOptionsWithContext (f : gfield) (m : valuer) (fullName : text) : EM (text * option (@fieldOptionsWithContext F)) :=
  let? (key, o) := lift (r <~ parseKeyAndOptions ParseFloat MaxFloat64 negMaxFloat64 f_eqb ∅ (f_name f) (default [] (tag_get (f_tags f) (u_key u))) ;; Ok (fst r)) in
  match o with
  | None => eret (key, None)
  | Some o =>
    let '(key, o) :=
      match canonicalKey u with
      | None => (key, o)
      | Some canonical => (canonical key, match OptionalDep o with [] => o | dep => mkFieldOptions (withContext o) (canonical dep) end)
      end in
    if fillDefault u then eret (key, Some (withContext o))
    else let? c := optionsWithContext o key m fullName in eret (key, Some c)
  end.

(** [createValuer] *)
Definition createValuer (v : valuer) (opts : option (@fieldOptionsWithContext F)) : valuer :=
  if inherit opts then recursiveValuer v (Parent v) else simpleValuer v (Parent v).

Fixpoint getValueWithChainedKeys (m : valuer) (keys : list text) : M store (option input) :=
  match keys with
  | [] => ret None
  | [k] => value m k
  | k :: keys =>
    let! v := value m k in
    match v with Some (IMap l) => getValueWithChainedKeys (recursiveValuer (mapValuer l) (Some m)) keys | _ => ret None end
  end.
Definition getValue (m : valuer) (key : text) : M store (option input) := getValueWithChainedKeys m (readKeys key (opaqueKeys u)).

(** [WithFromArray]: the first element of a slice for a field that is none *)
Definition from_array (t : gtype) (v : input) : EM input :=
  if fromArray u && bool_decide (Kind t <> KSlice) then
    match v with
    | INil => panic "nil pointer dereference"
    | ISlice (x :: _) => eret x
    | IStrings (x :: _) => eret (IString x)
    | _ => eret v
    end
  else eret v.

Definition processNamedField (f : gfield) (old : gval F) (m : valuer) (fullName : text) : EM (gval F) :=
  let t := f_type f in
  if negb (IsExported f) then eret old
  else
    let? (key, opts) := parseOptionsWithContext f m fullName in
    if decide (key = ignoreKey) then eret old
    else
      let fullName := join fullName key in
      let envVal := match opts with Some o => match EnvVar o with [] => [] | e => Env e end | None => [] end in
      match envVal with
      | _ :: _ => processFieldWithEnvValue t old envVal opts fullName
      | [] =>
        let key' := match canonicalKey u with Some canonical => canonical key | None => key end in
        let valuer := createValuer m opts in
        let! mapValue := getValue valuer key' in
        if fillDefault u then
          if negb (IsZero old) then throw (NotZero fullName) else processNamedFieldWithoutValue t old opts fullName
        else
          match mapValue with
          | None => processNamedFieldWithoutValue t old opts fullName
          | Some v => let? v := from_array t v in processNamedFieldWithValue t old v valuer key opts fullName
          end
      end.

(** The fields of an embedded struct or pointer to one: their values, and how to put them back *)
Definition embedded (t : gtype) (old : gval F) : option (list gfield * list (gval F)) :=
  match t, old with
  | TStruct _ fs, VStruct vs => Some (fs, vs)
  | TPtr (TStruct _ fs), VRef (VStruct vs) => Some (fs, vs)
  | TPtr (TStruct _ fs), VNil => Some (fs, zero_fields fs)
  | _, _ => None
  end.

Section fields.
Context (processField : gfield -> gval F -> valuer -> text -> EM (gval F)).

(** A loop of [processField] over fields and their values *)
Fixpoint process_fields (fs : list gfield) (vs : list (gval F)) (m : valuer) (fullName : text) : EM (list (gval F)) :=
  match fs, vs with
  | f :: fs, v :: vs => let? v := processField f v m fullName in let? vs := process_fields fs vs m fullName in eret (v :: vs)
  | _, _ => eret []
  end.

(** The loop of [processAnonymousStructFieldOptional]: the values, [filled], [required] and [requiredFilled]; [ready]
    is whether the first field that has a value can be set. *)
Fixpoint process_optional (ready : bool) (fs : list gfield) (vs : list (gval F)) (m : valuer) (fullName : text) : EM (list (gval F) * bool * nat * nat) :=
  match fs, vs with
  | f :: fs, v :: vs =>
    let? (key, opts) := parseOptionsWithContext f m fullName in
    let! hasValue := getValue m key in
    let? v' := match hasValue with
               | None => eret v
               | Some _ => if ready then processField f v m fullName else panic "reflect.Set: value obtained using unexported field"
               end in
    let? (vs', filled, required, requiredFilled) := process_optional ready fs vs m fullName in
    let has := bool_decide (is_Some hasValue) in
    let req := negb (optional opts) in
    eret (v' :: vs', has || filled, ((if req then 1 else 0) + required)%nat, ((if req && has then 1 else 0) + requiredFilled)%nat)
  | _, _ => eret ([], false, 0%nat, 0%nat)
  end.

Definition processAnonymousStructFieldOptional (f : gfield) (old : gval F) (key : text) (m : valuer) (fullName : text) : EM (gval F) :=
  match embedded (f_type f) old with
  | None => panic "not a struct"
  | Some (fs, vs) =>
    let ready := IsExported f || negb (bool_decide (Kind (f_type f) = KPtr)) || match old with VNil => false | _ => true end in
    let? (vs, filled, required, requiredFilled) := process_optional ready fs vs m fullName in
    if filled then
      if (required =? requiredFilled)%nat then eret (wrap (f_type f) (VStruct vs)) else throw (NotFullySet key)
    else eret old
  end.

Definition processAnonymousFieldRequired (f : gfield) (old : gval F) (m : valuer) (fullName : text) : EM (gval F) :=
  let? old := maybeNewValue (f_type f) (IsExported f) old in
  match Deref (f_type f), embedded (f_type f) old with
  | TStruct _ _, Some (fs, vs) => let? vs := process_fields fs vs m fullName in eret (wrap (f_type f) (VStruct vs))
  | TStruct _ _, None => panic "not a struct"
  | _, _ => processNamedField f old m fullName
  end.

Definition processAnonymousField (f : gfield) (old : gval F) (m : valuer) (fullName : text) : EM (gval F) :=
  let? (key, options) := parseOptionsWithContext f m fullName in
  if decide (key = ignoreKey) then eret old
  else if optional options then
    match Deref (f_type f) with
    | TStruct _ _ => processAnonymousStructFieldOptional f old key m fullName
    | _ => processNamedField f old m fullName
    end
  else processAnonymousFieldRequired f old m fullName.
End fields.

(** [processField], with a bound on the depth of embedding *)
Fixpoint processField (depth : nat) (f : gfield) (old : gval F) (m : valuer) (fullName : text) : EM (gval F) :=
  match depth with
  | O => panic "out of fuel"
  | S depth =>
    if usingDifferentKeys (u_key u) (f_tags f) then eret old
    else if Anonymous f then processAnonymousField (processField depth) f old m fullName
    else processNamedField f old m fullName
  end.
End calls.

(** The size of a type: the depth of its constructors *)
Fixpoint size (t : gtype) : nat :=
  match t with
  | TPrim _ | TDuration => 0
  | TPtr t | TSlice t | TMap t => S (size t)
  | TStruct _ fs => S ((fix sizes l := match l with [] => 0%nat | mkField _ _ _ t _ :: l => Nat.max (size t) (sizes l) end) fs)
  end.

(** [unmarshalWithFullName] for a struct, [fillSlice] and [generateMap]; the fuel also bounds the depth of valuers. *)
Fixpoint run (fuel : nat) (c : call) : EM (gval F) :=
  match fuel with
  | O => panic "out of fuel"
  | S fuel =>
    match c with
    | CallStruct fs m vs fullName =>
      let? vs := process_fields (fun f => processField (run fuel) (Value fuel) (S (size (f_type f))) f) fs vs m fullName in eret (VStruct vs)
    | CallSlice t vt old v fullName => fillSlice (run fuel) t vt old v fullName
    | CallMap elem l fullName => generateMap (run fuel) elem l fullName
    end
  end.

(** [Unmarshal] into a value [v] of type [t] *)
Definition Unmarshal (fuel : nat) (i : input) (t : gtype) (v : gval F) : EM (gval F) :=
  match t with
  | TPtr vt =>
    match i with
    | IMap l =>
      match Deref vt with
      | TStruct _ fs =>
        match vt, v with
        | _, VNil => throw NotValidPointer
        | TStruct _ _, VRef (VStruct vs) =>
          let? s := run fuel (CallStruct fs (simpleValuer (mapValuer l) None) vs []) in eret (VRef s)
        | _, _ => let? s := run fuel (CallStruct fs (simpleValuer (mapValuer l) None) (zero_fields fs) []) in eret (wrap t s)
        end
      | _ => throw typeMismatch
      end
    | ISlice _ | INilSlice =>
      match Deref vt, v with
      | TSlice _ as s, VRef old => let? x := run fuel (CallSlice s vt old i []) in eret (VRef x)
      | TSlice _, _ => throw (UError errValueNotSettable)
      | _, _ => throw typeMismatch
      end
    | _ => throw (UError errUnsupportedType)
    end
  | _ => throw (UError errValueNotSettable)
  end.
End unmarshal.
