(* ===== verification/UnmarshalCorrect.v ===== *)
(** * [core/mapping/unmarshaler.go]: unmarshalling ends, with values of the types of their targets

    For every type and every input, the unmarshaler comes to an end once it has enough fuel, and gives an error or a value
    of the type of the target; the only panics are a few of [reflect], which examples at the end show. *)

From Stdlib Require Import Ascii String QArith.
From S2P Require Import Prelude Token Strings Breaker Mapping MappingCorrect Unmarshal.
Local Open Scope Z_scope.
Local Open Scope go_scope.

(** ** Code with fuel *)

(** The panics that an input can cause *)
Definition known_panics : list string :=
  [ "reflect.Set: value is not assignable"; "reflect: Key of non-map type";
    "reflect: call of reflect.Value.Type on zero Value";
    "interface conversion: interface {} is json.Number, not string";
    "nil pointer dereference"; "reflect.Set: value obtained using unexported field" ]%string.

(** With enough fuel, the code returns a value that satisfies [P], the same one for any more fuel, or panics in a known way. *)
Definition ends {S A} (c : nat -> M S A) (P : A -> Prop) : Prop := forall s, exists n r,
  (forall m, (n <= m)%nat -> c m s = r) /\ match r with Ok (a, _) => P a | Panic msg => msg ∈ known_panics end.

Lemma ends_ret {S A} (a : A) (P : A -> Prop) : P a -> ends (S := S) (fun _ => ret a) P.
Proof. intros H s. by exists 0%nat, (Ok (a, s)). Qed.
Lemma ends_panic {S A} msg (P : A -> Prop) : msg ∈ known_panics -> ends (S := S) (fun _ => panic msg) P.
Proof. intros H s. by exists 0%nat, (Panic msg). Qed.
Lemma ends_gets {S A} (f : S -> A) (P : A -> Prop) : (forall s, P (f s)) -> ends (fun _ => gets f) P.
Proof. intros H s. exists 0%nat, (Ok (f s, s)). split; [done|apply H]. Qed.
Lemma ends_modify {S} (f : S -> S) (P : () -> Prop) : P () -> ends (fun _ => modify f) P.
Proof. intros H s. by exists 0%nat, (Ok ((), f s)). Qed.

Lemma ends_bind {S A B} (c : nat -> M S A) (k : nat -> A -> M S B) (P : A -> Prop) (Q : B -> Prop) :
  ends c P -> (forall a, P a -> ends (fun n => k n a) Q) -> ends (fun n => bind (c n) (k n)) Q.
Proof.
  intros Hc Hk s. destruct (Hc s) as (n & r & Hn & Hr). destruct r as [[a s']|msg].
  - destruct (Hk a Hr s') as (n' & r' & Hn' & Hr'). exists (Nat.max n n'), r'. split; [|done].
    intros m Hm. unfold bind. rewrite Hn by lia. simpl. apply Hn'. lia.
  - exists n, (Panic msg). split; [|done]. intros m Hm. unfold bind. by rewrite Hn.
Qed.

Lemma ends_mono {S A} (c : nat -> M S A) (P Q : A -> Prop) : ends c P -> (forall a, P a -> Q a) -> ends c Q.
Proof. intros Hc H s. destruct (Hc s) as (n & [[a s']|msg] & Hn & Hr); eexists n, _; (split; [exact Hn|]); simpl; auto. Qed.

(** One more unit of fuel *)
Lemma ends_fuel {S A} (c : nat -> M S A) (P : A -> Prop) : ends (fun n => c (Datatypes.S n)) P -> ends c P.
Proof.
  intros Hc s. destruct (Hc s) as (n & r & Hn & Hr). exists (Datatypes.S n), r. split; [|done].
  intros m Hm. destruct m as [|m]; [lia|]. apply Hn. lia.
Qed.

Lemma ends_eq {S A} (c c' : nat -> M S A) (P : A -> Prop) : (forall n s, c n s = c' n s) -> ends c' P -> ends c P.
Proof. intros H Hc s. destruct (Hc s) as (n & r & Hn & Hr). exists n, r. split; [|done]. intros m Hm. rewrite H. by apply Hn. Qed.

(** Code that may return an error: [P] holds of its value. *)
Definition no_error {A} (P : A -> Prop) (r : uerror + A) : Prop := match r with inl _ => True | inr a => P a end.
Definition eends {A} (c : nat -> EM A) (P : A -> Prop) : Prop := ends c (no_error P).

Lemma eends_ret {A} (a : A) (P : A -> Prop) : P a -> eends (fun _ => eret a) P.
Proof. intros H. by apply ends_ret. Qed.
Lemma eends_throw {A} e (P : A -> Prop) : eends (fun _ => throw e) P.
Proof. by apply ends_ret. Qed.
Lemma eends_panic {A} msg (P : A -> Prop) : msg ∈ known_panics -> eends (fun _ => panic msg) P.
Proof. apply ends_panic. Qed.
Lemma eends_bind {A B} (c : nat -> EM A) (k : nat -> A -> EM B) (P : A -> Prop) (Q : B -> Prop) :
  eends c P -> (forall a, P a -> eends (fun n => k n a) Q) -> eends (fun n => ebind (c n) (k n)) Q.
Proof. intros Hc Hk. eapply ends_bind; [exact Hc|]. intros [e|a] Ha; [by apply ends_ret|by apply Hk]. Qed.
Lemma eends_lift {A} (x : outcome (error + A)) (P : A -> Prop) :
  (exists e, x = Ok (inl e)) \/ (exists a, x = Ok (inr a) /\ P a) -> eends (fun _ => lift x) P.
Proof. intros [[e ->]|(a & -> & Ha)] s; [by exists 0%nat, (Ok (inl (UError e), s))|by exists 0%nat, (Ok (inr a, s))]. Qed.
Lemma eends_check e (P : () -> Prop) : P () -> eends (fun _ => check e) P.
Proof. intros H. destruct e; [apply eends_throw|by apply eends_ret]. Qed.

(** ** Valuers *)

Definition any_value : option input -> Prop := fun _ => True.
Definition ready (v : valuer) : Prop := forall key, ends (fun n => Value n v key) any_value.
Fixpoint all_ready (v : valuer) : Prop :=
  ready v /\ match v with mapValuer _ => True | simpleValuer _ p | recursiveValuer _ p => match p with Some p => all_ready p | None => True end end.
Fixpoint parents (v : valuer) : nat :=
  match v with mapValuer _ => 0 | simpleValuer _ p | recursiveValuer _ p => match p with Some p => S (parents p) | None => 0 end end.

Lemma ready_map l : ready (mapValuer l).
Proof. intros key. apply ends_fuel. simpl. by apply ends_gets. Qed.
Lemma ready_simple c p : ready c -> ready (simpleValuer c p).
Proof. intros Hc key. apply ends_fuel. simpl. apply Hc. Qed.
Lemma ready_recursive c p : ready c -> (forall q, Parent (recursiveValuer c p) = Some q -> ready q) -> ready (recursiveValuer c p).
Proof.
  intros Hc Hp key. apply ends_fuel. cbn [Value]. apply ends_bind with any_value; [apply Hc|]. intros val _.
  destruct (Parent (recursiveValuer c p)) as [q|]; [specialize (Hp q eq_refl)|].
  - destruct val as [[]|]; try (by apply ends_ret); [|apply Hp].
    apply ends_bind with any_value; [apply Hp|]. intros [[]|] _; try (by apply ends_ret).
    apply ends_bind with (fun _ => True); [by apply ends_modify|]. intros _ _. by apply ends_ret.
  - destruct val as [[]|]; by apply ends_ret.
Qed.
Lemma all_ready_ready v : all_ready v -> ready v.
Proof. by destruct v; intros [H _]. Qed.

Lemma ready_up n : forall p, parents p = n -> all_ready p ->
  all_ready (recursiveValuer p (Parent p)) /\ parents (recursiveValuer p (Parent p)) = n.
Proof.
  induction n as [|n IH]; intros p Hn Hp.
  - assert (Parent p = None) as -> by (by destruct p as [|? []|? []]). split; [|done]. split; [|done].
    apply ready_recursive; [by apply all_ready_ready|done].
  - assert (exists p', Parent p = Some (recursiveValuer p' (Parent p')) /\ parents p' = n /\ all_ready p') as (p' & -> & Hn' & Hp')
      by (destruct p as [|? [p'|]|? [p'|]]; try done; exists p'; (split; [done|]; split; [by injection Hn|by destruct Hp])).
    destruct (IH p' Hn' Hp') as [Hq Hnq]. split; [|by simpl in *; rewrite Hnq].
    split; [|exact Hq]. apply ready_recursive; [by apply all_ready_ready|]. intros q [= <-].
    apply all_ready_ready. by apply (IH _ Hnq Hq).
Qed.

Lemma valuer_ready : forall v, all_ready v.
Proof.
  fix IH 1. intros [l|c p|c p]; split; try done.
  - apply ready_map.
  - apply ready_simple, all_ready_ready, IH.
  - destruct p as [p|]; [apply IH|done].
  - apply ready_recursive; [apply all_ready_ready, IH|]. intros q Hq. destruct p as [p|]; [|done]. injection Hq as <-.
    apply all_ready_ready. by apply (ready_up (parents p) p eq_refl (IH p)).
  - destruct p as [p|]; [apply IH|done].
Qed.

(** ** Types *)

Section types.
Context {F : Type} `{!Float64 F}.

Definition prim_of_kind (k : kind) (v : @any F) : Prop := match k with Other => v = VOther | _ => of_kind k v end.

Fixpoint has_type (t : gtype) (v : gval F) : Prop :=
  match t, v with
  | TPrim k, VPrim x => prim_of_kind k x
  | TDuration, VPrim (VInt _) => True
  | TPtr _, VNil | TSlice _, VNilSlice | TMap _, VNilMap => True
  | TPtr t, VRef v => has_type t v
  | TSlice t, VSlice l => Forall (has_type t) l
  | TMap t, VMap l => Forall (fun p => has_type t (snd p)) l
  | TStruct _ fs, VStruct vs =>
    (fix all (fs : list gfield) (vs : list (gval F)) : Prop :=
      match fs, vs with
      | [], [] => True
      | mkField _ _ _ t _ :: fs, v :: vs => has_type t v /\ all fs vs
      | _, _ => False
      end) fs vs
  | _, _ => False
  end.
Definition fields_typed (fs : list gfield) (vs : list (gval F)) : Prop := Forall2 (fun f v => has_type (f_type f) v) fs vs.

Lemma struct_typed n fs vs : has_type (TStruct n fs) (VStruct vs) <-> fields_typed fs vs.
Proof.
  revert vs. induction fs as [|[? ? ? t ?] fs IH]; intros [|v vs]; simpl; (split; [|intros H; inversion H; subst]); try done.
  - by constructor.
  - intros [Hv Hvs]. constructor; [done|]. by apply IH.
  - split; [done|]. by apply IH.
Qed.

(** Well-formed types, for a tag key: kinds have a width, tags are not a lone backslash, and embedded pointers point to
    structs or to no struct at all. *)
Section key.
Context (tagKey : text).
Definition tag_ok (tags : list (text * text)) : Prop :=
  TrimSpace (default [] (tag_get tags tagKey)) = [] \/ parseSegments (TrimSpace (default [] (tag_get tags tagKey))) <> [].
Definition embed_ok (f : gfield) : Prop :=
  Anonymous f = true -> match Deref (f_type f) with TStruct _ _ as s => f_type f = s \/ f_type f = TPtr s | _ => True end.

Fixpoint type_ok (t : gtype) : Prop :=
  match t with
  | TPrim k => wide k
  | TDuration => True
  | TPtr t | TSlice t | TMap t => type_ok t
  | TStruct _ fs =>
    (fix all (l : list gfield) : Prop :=
      match l with
      | [] => True
      | (mkField _ _ _ t tags as f) :: l => (type_ok t /\ tag_ok tags /\ embed_ok f) /\ all l
      end) fs
  end.
Definition field_ok (f : gfield) : Prop := type_ok (f_type f) /\ tag_ok (f_tags f) /\ embed_ok f.
Lemma struct_ok n fs : type_ok (TStruct n fs) <-> Forall field_ok fs.
Proof.
  induction fs as [|[? ? ? t ?] fs IH]; simpl; [done|]. rewrite Forall_cons, <- IH. done.
Qed.
Lemma deref_ok t : type_ok t -> type_ok (Deref t).
Proof. induction t; simpl; try done. Qed.
End key.

Lemma zero_typed k t : type_ok k t -> has_type t (zero t).
Proof.
  revert t. fix IH 1. intros [k'| |t|t|t|n fs]; simpl; try done.
  - intros Hw. destruct k'; simpl in *; try done; try (split; [|apply Z.pow_pos_nonneg]; lia).
  - induction fs as [|[? ? ? t ?] fs IHfs]; [done|]. intros [(Ht & _ & _) Hfs]. split; [by apply IH|by apply IHfs].
Qed.
Lemma zero_fields_typed k fs : Forall (field_ok k) fs -> fields_typed fs (zero_fields fs).
Proof. intros H. induction H as [|f fs Hf _ IH]; constructor; [|done]. apply (zero_typed k), Hf. Qed.

Lemma wrap_typed t v : has_type (Deref t) v -> has_type t (wrap t v).
Proof. induction t; simpl; auto. Qed.

(** The depth of a type outside of structs tells types apart. *)
Fixpoint depth (t : gtype) : nat := match t with TPtr t | TSlice t | TMap t => S (depth t) | _ => 0 end.
Lemma same_type_depth a b : same_type a b = true -> depth a = depth b.
Proof. revert b. induction a; intros []; simpl; try done; intros H; f_equal; auto. Qed.
Lemma depth_deref t : (depth (Deref t) <= depth t)%nat.
Proof. induction t; simpl; lia. Qed.
Lemma size_deref t : (size (Deref t) <= size t)%nat.
Proof. induction t; simpl; lia. Qed.
Lemma deref_deref t : Deref (Deref t) = Deref t.
Proof. by induction t. Qed.

Definition is_slice (t : gtype) : Prop := exists t0, Deref t = TSlice t0.
(** The type of the target in a call of [fillSlice] *)
Definition slice_target (t vt : gtype) : Prop := vt = t \/ t = Deref vt \/ vt = Deref t.

Lemma assign_slice t vt base : is_slice t -> slice_target t vt -> Elem t = Some base -> same_type vt (TSlice base) = true -> vt = TSlice base.
Proof.
  intros [t0 Ht] [->|[->| ->]] Hb Hs.
  - destruct t; simplify_eq/=; done.
  - rewrite deref_deref in Ht. destruct vt as [| |t|t|t|]; simplify_eq/=. done.
  - rewrite Ht in *. destruct t as [| |t|t|t|]; simplify_eq/=; [|done]. apply same_type_depth in Hs.
    pose proof (depth_deref base) as H. rewrite Ht in H. simpl in H. lia.
Qed.

Lemma elem_ok k t base : Elem t = Some base -> type_ok k t -> type_ok k base /\ size t = S (size base).
Proof. destruct t; simpl; by intros [= ->]. Qed.
Lemma slice_elem t : is_slice t -> exists base, Elem t = Some base.
Proof. intros [t0 Ht]. destruct t; simpl in *; try done; eauto. Qed.
End types.

(** ** The calls *)

Section ends.
Context {F : Type} `{!Float64 F} (ParseFloat ParseFloat32 : text -> option F) (MaxFloat64 negMaxFloat64 : F).
Context (f_eqb f_le : F -> F -> bool) (Repr : @any F -> text).
Context (f_zero overflows32 : F -> bool) (f_round32 : F -> F) (ParseDuration : text -> option Z) (Env : text -> text).
Context (json_any : text -> store -> (text + input) * store) (json_slice : text -> store -> (text + list input) * store).
Context (json_map : text -> gtype -> gval F -> text + gval F).
Context (MapKeys : gmap text input -> list (text * input)).
Context (u : unmarshaler).

(** Decoding JSON into a value keeps its type. *)
Hypothesis json_map_typed : forall s t old v, has_type t old -> json_map s t old = inr v -> has_type t v.

Abbreviation type_ok := (type_ok (u_key u)).
Abbreviation field_ok := (field_ok (u_key u)).

Definition call_ok (c : @call F) : Prop :=
  match c with
  | CallStruct fs _ vs _ => Forall field_ok fs /\ fields_typed fs vs
  | CallSlice t vt old _ _ => type_ok t /\ is_slice t /\ slice_target t vt /\ has_type vt old
  | CallMap elem _ _ => type_ok elem
  end.
Definition call_typed (c : @call F) (v : gval F) : Prop :=
  match c with
  | CallStruct fs _ _ _ => exists vs, v = VStruct vs /\ fields_typed fs vs
  | CallSlice _ vt _ _ _ => has_type vt v
  | CallMap elem _ _ => has_type (TMap elem) v
  end.
Definition call_size (c : @call F) : nat :=
  match c with CallStruct fs _ _ _ => size (TStruct [] fs) | CallSlice t _ _ _ _ => size t | CallMap elem _ _ => size (TMap elem) end.

Section calls.
Context (rec : nat -> @call F -> EM (gval F)) (value : nat -> valuer -> text -> M store (option input)) (N : nat).
Hypothesis rec_ends : forall c : call, call_ok c -> (call_size c < N)%nat -> eends (fun n => rec n c) (call_typed c).
Hypothesis value_ends : forall v key, ends (fun n => value n v key) any_value.

Lemma convert_typed t s v : type_ok t -> convertTypeFromString ParseFloat ParseFloat32 (prim_kind (Deref t)) s = inr v ->
  setMatchedPrimitiveValue (prim_kind (Deref t)) v = Ok (inr v) /\ has_type (Deref t) (VPrim v).
Proof.
  intros Ht%deref_ok E. assert (of_kind (prim_kind (Deref t)) v) as H.
  { apply convert_of_kind in E; [done|]. unfold prim_kind. by destruct (Deref t). }
  split; [by apply set_of_kind|]. clear E. destruct (Deref t) as [[]| | | | |], v; done.
Qed.

Lemma set_from_string_ends t s : type_ok t -> eends (fun _ => set_from_string ParseFloat ParseFloat32 t s) (has_type t).
Proof.
  intros Ht. apply eends_bind with (fun v => has_type (Deref t) (VPrim v)).
  - apply eends_lift. unfold setValueFromString. simpl.
    destruct (convertTypeFromString ParseFloat ParseFloat32 (prim_kind (Deref t)) s) as [e|v] eqn:E; [left; eauto|right].
    destruct (convert_typed t s v Ht E) as [-> Hv]. eauto.
  - intros v Hv. apply eends_ret, wrap_typed, Hv.
Qed.

Lemma assign_ends vt xt (x : gval F) : (same_type vt xt = true -> has_type vt x) -> eends (fun _ => assign vt xt x) (has_type vt).
Proof. intros H. unfold assign. destruct (same_type vt xt); [apply eends_ret; auto|]. apply eends_panic. repeat constructor. Qed.

Lemma fillMap_ends t l name : type_ok t -> (size t < N)%nat -> eends (fun n => fillMap (rec n) t l name) (has_type t).
Proof.
  intros Ht Hn. unfold fillMap. destruct t as [| | | |t|]; try (apply eends_panic; repeat constructor).
  apply (rec_ends (CallMap t l name)); done.
Qed.

Lemma fillSliceValue_ends t v name : type_ok t -> (size t < N)%nat ->
  eends (fun n => fillSliceValue ParseFloat ParseFloat32 (rec n) t v name) (has_type t).
Proof.
  intros Ht Hn. destruct v; simpl; try apply eends_throw; try (by apply set_from_string_ends); [|by apply fillMap_ends].
  destruct (same_type (Deref t) (TPrim Bool)) eqn:E; [|apply eends_throw]. apply eends_ret, wrap_typed.
  destruct (Deref t); simpl in *; try done. apply bool_decide_eq_true in E as ->. done.
Qed.

Lemma fill_elements_ends base l name : type_ok base -> (size base < N)%nat -> forall i,
  eends (fun n => fill_elements ParseFloat ParseFloat32 (rec n) base i l name) (fun r => Forall (has_type base) r.1).
Proof.
  intros Hb Hn. induction l as [|v l IH]; intros i; [apply eends_ret; constructor|].
  assert (eends (fun n => ebind
     (match Deref base, v with
      | TStruct _ fs, IMap m =>
        ebind (rec n (CallStruct fs (simpleValuer (mapValuer m) None) (zero_fields fs) (at_index name i))) (fun target => eret (wrap base target))
      | TStruct _ _, _ => throw (UError errTypeMismatch)
      | TSlice t, _ => rec n (CallSlice (TSlice t) base (zero base) v (at_index name i))
      | _, _ => fillSliceValue ParseFloat ParseFloat32 (rec n) base v (at_index name i)
      end) (fun x => ebind (fill_elements ParseFloat ParseFloat32 (rec n) base (S i) l name) (fun '(rest, _) => eret (x :: rest, true))))
     (fun r => Forall (has_type base) r.1)) as H.
  { apply eends_bind with (has_type base).
    - pose proof (deref_ok _ _ Hb) as Hd. pose proof (size_deref base) as Hs.
      destruct (Deref base) as [| |t|t|t|n0 fs] eqn:Ed; try (by apply fillSliceValue_ends).
      + apply (rec_ends (CallSlice (TSlice t) base (zero base) v (at_index name i))); [|simpl in *; lia].
        split_and!; [done|by exists t|by right; left|by apply (zero_typed (u_key u))].
      + destruct v; try apply eends_throw. apply struct_ok in Hd.
        apply eends_bind with (fun r => exists vs, r = VStruct vs /\ fields_typed fs vs).
        * apply (rec_ends (CallStruct fs (simpleValuer (mapValuer l0) None) (zero_fields fs) (at_index name i))); [|simpl in *; lia].
          split; [done|by apply (zero_fields_typed (u_key u))].
        * intros r (vs & -> & Hvs). apply eends_ret, wrap_typed. rewrite Ed. by apply struct_typed.
    - intros x Hx. eapply eends_bind; [apply IH|]. intros [rest ok] Hr. apply eends_ret. by constructor. }
  destruct v; try exact H. eapply eends_bind; [apply IH|]. intros [rest ok] Hr. apply eends_ret.
  constructor; [by apply (zero_typed (u_key u))|done].
Qed.

Lemma fillSlice_ends t vt old v name : type_ok t -> is_slice t -> slice_target t vt -> has_type vt old -> (size t <= N)%nat ->
  eends (fun n => fillSlice ParseFloat ParseFloat32 (rec n) t vt old v name) (has_type vt).
Proof.
  intros Ht Hsl Hvt Hold Hn. destruct (slice_elem t Hsl) as [base Hb]. destruct (elem_ok _ _ _ Hb Ht) as [Hbase Hsize].
  assert (forall l, eends (fun n =>
    match l with
    | [] => assign vt (TSlice base) (VSlice [])
    | _ => ebind (fill_elements ParseFloat ParseFloat32 (rec n) base 0 l name)
             (fun '(conv, valid) => if valid : bool then assign vt (TSlice base) (VSlice conv) else eret old)
    end) (has_type vt)) as H.
  { intros [|x l].
    - apply assign_ends. intros Hs. rewrite (assign_slice _ _ _ Hsl Hvt Hb Hs). constructor.
    - eapply eends_bind; [apply fill_elements_ends; [done|lia]|]. intros [conv []] Hc; [|by apply eends_ret].
      apply assign_ends. intros Hs. rewrite (assign_slice _ _ _ Hsl Hvt Hb Hs). exact Hc. }
  unfold fillSlice. rewrite Hb. destruct v as [| | | | |l| |[|x l]]; try apply eends_throw; try (by apply eends_ret).
  - apply eends_panic. repeat constructor.
  - apply (H l).
  - apply (H (map IString (x :: l))).
Qed.

Lemma fill_values_ends t l name : type_ok t -> (size t < N)%nat ->
  eends (fun n => fill_values ParseFloat ParseFloat32 (rec n) t l name) (Forall (has_type t)).
Proof.
  intros Ht Hn. induction l as [|v l IH]; [apply eends_ret; constructor|].
  eapply eends_bind; [by apply fillSliceValue_ends|]. intros x Hx. eapply eends_bind; [exact IH|]. intros rest Hr.
  apply eends_ret. by constructor.
Qed.

Lemma decode_ends {A} (dec : text -> store -> (text + A) * store) s : eends (fun _ => decode dec s) (fun _ => True).
Proof.
  intros st. unfold decode. destruct (dec s st) as [[msg|a] st'] eqn:E; eexists 0%nat, _; (split; [intros ? _; reflexivity|done]).
Qed.

Lemma fillSliceFromString_ends t s name : type_ok t -> is_slice t -> (size t < N)%nat ->
  eends (fun n => fillSliceFromString ParseFloat ParseFloat32 json_slice (rec n) t s name) (has_type t).
Proof.
  intros Ht Hsl Hn. eapply eends_bind; [apply decode_ends|]. intros l _. destruct (slice_elem t Hsl) as [elem He]. rewrite He.
  destruct (elem_ok _ _ _ He Ht) as [Hok Hs]. pose proof (size_deref elem).
  eapply eends_bind; [apply fill_values_ends; [by apply deref_ok|lia]|]. intros conv Hc. apply assign_ends. intros Hst.
  destruct t as [| |t|t|t|]; simplify_eq/=.
  pose proof (same_type_depth _ _ Hst) as Hd. assert (Deref elem = elem) as He; [|by rewrite He in Hc].
  destruct elem; try done. simpl in Hd. pose proof (depth_deref elem). lia.
Qed.

Lemma fillSliceWithDefault_ends t old d name : type_ok t -> is_slice t -> has_type t old -> (size t < N)%nat ->
  eends (fun n => fillSliceWithDefault json_any (rec n) (Deref t) t old d name) (has_type t).
Proof.
  intros Ht [t0 Hsl] Hold Hn. unfold fillSliceWithDefault. eapply ends_bind; [by apply (ends_gets _ (fun _ => True))|]. intros cached _.
  apply eends_bind with (fun _ => True).
  - destruct cached as [v|]; [by apply eends_ret|]. apply eends_bind with (fun _ => True).
    + rewrite Hsl. cbn [Elem]. case_decide; [by apply eends_ret|apply decode_ends].
    + intros v _. eapply ends_bind; [by apply (ends_modify _ (fun _ => True))|]. intros _ _. by apply eends_ret.
  - intros v _. apply (rec_ends (CallSlice (Deref t) t old v name)); [|simpl; pose proof (size_deref t); lia].
    split_and!; [by apply deref_ok|exists t0; by rewrite deref_deref|by right; left|done].
Qed.

Lemma map_value_ends elem v name : type_ok elem -> (size elem < N)%nat ->
  eends (fun n => map_value ParseFloat ParseFloat32 (rec n) elem v name) (has_type elem).
Proof.
  intros Ht Hn. unfold map_value. pose proof (deref_ok _ _ Ht) as Hd. pose proof (size_deref elem) as Hs.
  assert (forall base v, Deref elem = base -> match base with TPrim _ | TDuration => True | _ => False end ->
    eends (fun n => match v with
    | IBool b => if decide (Kind base = KPrim Bool) then assign elem (TPrim Bool) (VPrim (VBool b)) else throw (UError errTypeMismatch)
    | IString s => if decide (Kind base = KPrim KString) then assign elem (TPrim KString) (VPrim (VString s)) else throw (UError errTypeMismatch)
    | INumber s => ebind (set_from_string ParseFloat ParseFloat32 base s) (fun x => assign elem base x)
    | _ => throw (UError errTypeMismatch)
    end) (has_type elem)) as Hp.
  { intros base [] Hb Hk; try apply eends_throw.
    - case_decide; [|apply eends_throw]. apply assign_ends. destruct elem; try done. simpl. by intros ->%bool_decide_eq_true.
    - case_decide; [|apply eends_throw]. apply assign_ends. destruct elem; try done. simpl. by intros ->%bool_decide_eq_true.
    - eapply eends_bind; [apply set_from_string_ends; by rewrite <- Hb|]. intros x Hx. apply assign_ends.
      intros Hst%same_type_depth. assert (elem = base) as ->; [|done]. destruct elem, base; simpl in *; try done; lia. }
  destruct (Deref elem) as [k| |t|t|t|n0 fs] eqn:Ed.
  - by apply (Hp (TPrim k) v).
  - by apply (Hp TDuration v).
  - pose proof (deref_deref elem) as H. rewrite Ed in H. simpl in H. pose proof (depth_deref t). rewrite H in *. simpl in *. lia.
  - eapply eends_bind.
    + apply (rec_ends (CallSlice elem (TSlice t) VNilSlice v name)); [|done].
      split_and!; [done|by exists t|right; right; by rewrite Ed|done].
    + intros x Hx. apply assign_ends. intros Hst. simpl in Hx. destruct elem; simplify_eq/=; done.
  - destruct v; try apply eends_throw. destruct elem as [| | | |elem|]; try (apply eends_panic; repeat constructor). 
    apply (rec_ends (CallMap elem l name)); done.
  - destruct v; try apply eends_throw. apply struct_ok in Hd. eapply eends_bind.
    + apply (rec_ends (CallStruct fs (simpleValuer (mapValuer l) None) (zero_fields fs) name)); [|simpl in *; lia].
      split; [done|by apply (zero_fields_typed (u_key u))].
    + intros r (vs & -> & Hvs). apply eends_ret, wrap_typed. rewrite Ed. by apply struct_typed.
Qed.

Lemma generateMap_ends elem l name : type_ok elem -> (size elem < N)%nat ->
  eends (fun n => generateMap ParseFloat ParseFloat32 MapKeys (rec n) elem l name) (has_type (TMap elem)).
Proof.
  intros Ht Hn. unfold generateMap. eapply ends_bind; [by apply (ends_gets _ (fun _ => True))|]. intros m _.
  apply eends_bind with (Forall (fun p => has_type elem (snd p))); [|intros r Hr; by apply eends_ret].
  induction (MapKeys m) as [|[k v] ks IH]; [apply eends_ret; constructor|].
  eapply eends_bind; [by apply map_value_ends|]. intros x Hx. eapply eends_bind; [exact IH|]. intros rest Hr.
  apply eends_ret. by constructor.
Qed.

(** ** Fields *)

Abbreviation number := (processFieldPrimitiveWithJSONNumber ParseFloat ParseFloat32 f_le Repr overflows32 f_round32).

Lemma number_ends t old s opts name : type_ok t -> eends (fun _ => number t old s opts name) (has_type t).
Proof.
  intros Ht. unfold processFieldPrimitiveWithJSONNumber. do 2 (eapply eends_bind; [by apply (eends_check _ (fun _ => True))|intros _ _]).
  assert (eends (fun _ => ebind (set_from_string ParseFloat ParseFloat32 (Deref t) s) (fun v => eret (wrap t v))) (has_type t)) as Hi.
  { eapply eends_bind; [apply set_from_string_ends; by apply deref_ok|]. intros v Hv. by apply eends_ret, wrap_typed. }
  assert (forall (f : F) bits, prim_kind (Deref t) = Float bits -> eends (fun _ => eret (wrap t (VPrim (VFloat f)))) (has_type t)) as Hf.
  { intros f bits Hk. apply eends_ret, wrap_typed. unfold prim_kind in Hk. by destruct (Deref t) as [[]| | | | |]. }
  destruct (prim_kind (Deref t)) as [| | | | |bits| |] eqn:Ek; try exact Hi; try apply eends_throw.
  destruct (ParseFloat s) as [f|]; [|apply eends_throw]. destruct (bits =? 32); [|by apply (Hf _ bits)].
  destruct (negb _); [apply eends_panic; repeat constructor|]. destruct (overflows32 f); [apply eends_throw|by apply (Hf _ bits)].
Qed.

Lemma primitive_ends t old v opts name : type_ok t ->
  eends (fun _ => processFieldPrimitive ParseFloat ParseFloat32 f_le Repr overflows32 f_round32 t old v opts name) (has_type t).
Proof.
  intros Ht. unfold processFieldPrimitive.
  assert (forall x : any, has_type (Deref t) (VPrim x) -> eends (fun _ =>
    ebind (check (validateValueInOptions Repr x (options opts))) (fun _ =>
    ebind (check (validateValueRange f_le x opts)) (fun _ => eret (wrap t (VPrim x))))) (has_type t)) as Hs.
  { intros x Hx. do 2 (eapply eends_bind; [by apply (eends_check _ (fun _ => True))|intros _ _]). by apply eends_ret, wrap_typed. }
  destruct v; try apply eends_throw; [..|by apply number_ends]; (case_decide as Hk; [|apply eends_throw]); apply Hs;
    destruct (Deref t) as [[]| | | | |]; done.
Qed.

Lemma env_ends t old e opts name : type_ok t ->
  eends (fun _ => processFieldWithEnvValue ParseFloat ParseFloat32 f_le Repr overflows32 f_round32 ParseDuration t old e opts name) (has_type t).
Proof.
  intros Ht. unfold processFieldWithEnvValue. eapply eends_bind; [by apply (eends_check _ (fun _ => True))|intros _ _].
  assert (eends (fun _ => match ParseDuration e with
    | Some d => assign t TDuration (VPrim (VInt d) : gval F) | None => throw (WrongEnv name e) end) (has_type t)) as Hd.
  { destruct (ParseDuration e); [|apply eends_throw]. apply assign_ends. by destruct t. }
  destruct t as [[| |bits| | | | |]| | | | |]; cbn [Kind]; try (by apply number_ends); try exact Hd.
  - destruct (ParseBool e); [by apply eends_ret|apply eends_throw].
  - destruct bits as [|p|]; try (by apply number_ends).
    repeat (destruct p as [p|p|]; try (by apply number_ends)); exact Hd.
  - by apply eends_ret.
Qed.

Lemma fill_primitive_ends t v opts name : type_ok t ->
  eends (fun _ => fillPrimitive ParseFloat ParseFloat32 f_le t v opts name) (has_type t).
Proof.
  intros Ht. assert (forall s, eends (fun _ => ebind (lift (setValueFromString ParseFloat ParseFloat32 (prim_kind (Deref t)) true s))
    (fun x => eret (wrap t (VPrim x)))) (has_type t)) as Hset by (intros s; by apply set_from_string_ends).
  destruct v; simpl; try apply eends_throw.
  - eapply eends_bind; [|intros x Hx; apply eends_ret, wrap_typed, Hx]. apply eends_lift. unfold validateAndSetValue. simpl.
    destruct (convertTypeFromString ParseFloat ParseFloat32 (prim_kind (Deref t)) s) as [e|v] eqn:E; [left; eauto|].
    destruct (validateValueRange f_le v opts); [left; eauto|right]. destruct (convert_typed t s v Ht E) as [-> Hv]. eauto.
  - eapply eends_bind; [by apply (eends_check _ (fun _ => True))|intros _ _]. apply Hset.
Qed.

Abbreviation not_from_string := (processFieldNotFromString ParseFloat ParseFloat32 f_le Repr overflows32 f_round32 ParseDuration json_slice json_map).

Lemma struct_ends t n0 fs old m name : Deref t = TStruct n0 fs -> type_ok t -> has_type t old -> (size t < N)%nat ->
  eends (fun n => processFieldStruct (rec n) t fs old m name) (has_type t).
Proof.
  intros Hd Ht Hold Hn. assert (Forall field_ok fs) as Hfs by (apply deref_ok in Ht; rewrite Hd in Ht; by apply struct_ok in Ht).
  pose proof (size_deref t) as Hsz. rewrite Hd in Hsz. simpl in Hsz.
  assert (forall vs, fields_typed fs vs -> eends (fun n => rec n (CallStruct fs m vs name))
    (fun r => exists vs', r = VStruct vs' /\ fields_typed fs vs')) as Hc.
  { intros vs Hvs. apply (rec_ends (CallStruct fs m vs name)); [done|simpl; lia]. }
  destruct t as [| |t|t|t|n1 fs1]; simpl in Hd; try done.
  - unfold processFieldStruct. eapply eends_bind; [by apply Hc, (zero_fields_typed (u_key u))|].
    intros r (vs & -> & Hvs). apply eends_ret, wrap_typed. simpl. rewrite Hd. by apply struct_typed.
  - injection Hd as -> ->. destruct old; try done. apply struct_typed in Hold. unfold processFieldStruct.
    eapply ends_mono; [by apply Hc|]. intros [e|r] Hr; [done|]. destruct Hr as (vs & -> & Hvs). by apply struct_typed.
Qed.

Lemma not_from_string_ends t old v parent opts name : type_ok t -> has_type t old -> (size t < N)%nat ->
  eends (fun n => not_from_string (rec n) t old v parent opts name) (has_type t).
Proof.
  intros Ht Hold Hn. pose proof (fun v => primitive_ends t old v opts name Ht) as Hp.
  assert (forall s, eends (fun _ => fillMapFromString json_map t old s) (has_type t)) as Hm.
  { intros s. unfold fillMapFromString. destruct (json_map s t old) as [msg|v'] eqn:E; [apply eends_throw|].
    apply eends_ret. by eapply json_map_typed. }
  assert (forall t0, Deref t = TSlice t0 -> forall v, eends (fun n => rec n (CallSlice t t old v name)) (has_type t)) as Hs.
  { intros t0 Ht0 v'. apply (rec_ends (CallSlice t t old v' name)); [|done]. split_and!; [done|by exists t0|by left|done]. }
  unfold processFieldNotFromString. destruct v; try (by apply Hp); destruct (Deref t) as [| |t0|t0|t0|n0 fs] eqn:Ed;
    try (by apply Hp); try (by apply (Hs t0)); try apply Hm; try (by apply fillSliceFromString_ends; [|exists t0|]).
  - unfold fillDurationValue. destruct (ParseDuration s); [|apply eends_throw]. apply eends_ret, wrap_typed. by rewrite Ed.
  - apply eends_panic. repeat constructor.
  - by apply fillMap_ends.
  - by eapply struct_ends.
Qed.

Lemma parse_ok name tags : tag_ok (u_key u) tags -> exists r,
  (r <~ parseKeyAndOptions ParseFloat MaxFloat64 negMaxFloat64 f_eqb ∅ name (default [] (tag_get tags (u_key u))) ;; Ok (fst r)) = Ok r.
Proof.
  unfold tag_ok, parseKeyAndOptions. destruct (TrimSpace _) as [|c v]; [intros _; simpl; eauto|]. intros [?|Hp]; [done|].
  change ((∅ : @optionsCache F) !! (c :: v)) with (@None (@error + text * option (@fieldOptions F))).
  unfold doParseKeyAndOptions. destruct (parseSegments (c :: v)) as [|k [|s l]]; [done|..]; simpl; eauto.
Qed.

Lemma field_options_ok name tags : tag_ok (u_key u) tags -> exists r,
  field_options ParseFloat MaxFloat64 negMaxFloat64 f_eqb (u_key u) name tags = Ok r.
Proof.
  unfold tag_ok, field_options. destruct (TrimSpace _) as [|c v]; [eauto|]. intros [?|Hp]; [done|].
  unfold doParseKeyAndOptions. destruct (parseSegments (c :: v)) as [|k [|s l]]; [done|..]; simpl; eauto.
Qed.

Lemma required_ok : forall t n0 fs, t = TStruct n0 fs -> type_ok t ->
  exists r, implicitValueRequiredStruct ParseFloat MaxFloat64 negMaxFloat64 f_eqb (u_key u) t = Ok r.
Proof.
  fix IH 1. intros [| | | | |n1 fs1] n0 fs; try done. intros _. clear n0 fs. revert fs1.
  fix IHfs 1. intros [|[name ex an t tags] fs]; [simpl; eauto|]. intros [(Ht & Htags & _) Hfs]. specialize (IHfs fs Hfs). simpl.
  destruct (usingDifferentKeys (u_key u) tags); [eauto|]. destruct (field_options_ok name tags Htags) as [[e|[o|]] ->]; simpl; [eauto|..].
  - destruct (negb _ && _); [eauto|]. destruct (OptionalDep o) as [|d ?]; [exact IHfs|]. destruct (d =? notSymbol); [eauto|exact IHfs].
  - specialize (IH t). destruct t as [| | | | |n2 fs2]; try eauto. destruct (IH n2 fs2 eq_refl Ht) as [[e|[]] ->]; simpl; [eauto..|exact IHfs].
Qed.

Lemma get_required_ends t n0 fs : t = TStruct n0 fs -> type_ok t ->
  eends (fun _ => get_required ParseFloat MaxFloat64 negMaxFloat64 f_eqb u t) (fun _ => True).
Proof.
  intros -> Ht s. destruct (required_ok (TStruct n0 fs) n0 fs eq_refl Ht) as [r Hr].
  destruct (get_required ParseFloat MaxFloat64 negMaxFloat64 f_eqb u (TStruct n0 fs) s) as [[r' s']|msg] eqn:E.
  - exists 0%nat, (Ok (r', s')). split; [done|]. by destruct r'.
  - exfalso. unfold get_required, structValueRequired in E. rewrite Hr in E. by destruct (required s !! n0).
Qed.

Abbreviation without_value := (processNamedFieldWithoutValue ParseFloat ParseFloat32 MaxFloat64 negMaxFloat64 f_eqb f_le Repr overflows32 f_round32
  ParseDuration json_any json_slice json_map u).

Lemma without_value_ends t old opts name : type_ok t -> has_type t old -> (size t < N)%nat ->
  eends (fun n => without_value (rec n) t old opts name) (has_type t).
Proof.
  intros Ht Hold Hn. assert (eends (fun n => not_from_string (rec n) t old (IMap emptyMap) None opts name) (has_type t)) as He
    by (by apply not_from_string_ends).
  unfold processNamedFieldWithoutValue. destruct (getDefault opts) as [d []].
  - destruct (Deref t) as [| | |t0| |] eqn:Ed; try (by apply set_from_string_ends).
    + unfold fillDurationValue. destruct (ParseDuration d); [|apply eends_throw]. apply eends_ret, wrap_typed. by rewrite Ed.
    + rewrite <- Ed. apply fillSliceWithDefault_ends; try done. by exists t0.
  - destruct (fillDefault u); [destruct t; try (by apply eends_ret); exact He|]. destruct (optional opts); [by apply eends_ret|].
    destruct (Deref t) as [| | |t0|t0|n0 fs] eqn:Ed; try exact He; try apply eends_throw.
    eapply eends_bind; [eapply get_required_ends; [done|rewrite <- Ed; by apply deref_ok]|]. intros [] _; [apply eends_throw|exact He].
Qed.

Lemma new_value_ends t old : type_ok t -> has_type t old -> eends (fun _ => new_value t old) (has_type t).
Proof.
  intros Ht Hold. assert (eends (fun _ => maybeNewValue t true old) (has_type t)) as Hm.
  { unfold maybeNewValue. destruct t; try (by apply eends_ret). destruct old; apply eends_ret; try done.
    simpl. by apply (zero_typed (u_key u)). }
  destruct t as [| |[]|t|t|]; try exact Hm. apply eends_ret, wrap_typed. apply (zero_typed (u_key u)). by apply deref_ok.
Qed.

Abbreviation with_value := (processNamedFieldWithValue ParseFloat ParseFloat32 f_le Repr overflows32 f_round32 ParseDuration json_slice json_map u).

Lemma with_value_ends t old v parent key opts name : type_ok t -> has_type t old -> (size t < N)%nat ->
  eends (fun n => with_value (rec n) t old v parent key opts name) (has_type t).
Proof.
  intros Ht Hold Hn. unfold processNamedFieldWithValue.
  assert (eends (fun n => ebind (new_value t old) (fun old =>
    match Kind (Deref t) with
    | KMap | KSlice | KStruct => not_from_string (rec n) t old v (Some parent) opts name
    | _ =>
      if u_fromString u || fromString opts then processNamedFieldWithValueFromString ParseFloat ParseFloat32 f_le t v key opts name
      else not_from_string (rec n) t old v (Some parent) opts name
    end)) (has_type t)) as H.
  { eapply eends_bind; [by apply new_value_ends|]. intros old' Hold'.
    assert (eends (fun n => not_from_string (rec n) t old' v (Some parent) opts name) (has_type t)) as Hnf by (by apply not_from_string_ends).
    assert (eends (fun _ => processNamedFieldWithValueFromString ParseFloat ParseFloat32 f_le t v key opts name) (has_type t)) as Hf.
    { unfold processNamedFieldWithValueFromString. destruct v; try apply eends_throw;
        (destruct (options opts); [|destruct (Contains _ _); [|apply eends_throw]]); by apply fill_primitive_ends. }
    destruct (Kind (Deref t)); try exact Hnf; destruct (u_fromString u || fromString opts); (exact Hnf || exact Hf). }
  destruct v; try exact H. destruct (optional opts); [by apply eends_ret|apply eends_throw].
Qed.

Abbreviation parse_options_ctx := (parseOptionsWithContext ParseFloat MaxFloat64 negMaxFloat64 f_eqb u).

Lemma parse_options_ends f m name : tag_ok (u_key u) (f_tags f) -> eends (fun n => parse_options_ctx (value n) f m name) (fun _ => True).
Proof.
  intros Ht. unfold parseOptionsWithContext. apply eends_bind with (fun _ => True).
  - apply eends_lift. destruct (parse_ok (f_name f) (f_tags f) Ht) as [[e|r] ->]; [left|right]; eauto.
  - intros [key [o|]] _; [|by apply eends_ret].
    destruct (match canonicalKey u with Some canonical => _ | None => _ end) as [key' o']. destruct (fillDefault u); [by apply eends_ret|].
    apply eends_bind with (fun _ => True); [|intros c _; by apply eends_ret]. unfold optionsWithContext.
    assert (forall has, eends (fun _ => lift (Ok (toOptionsWithContext o' key' has name))) (fun _ => True)) as Hp.
    { intros has. apply eends_lift. destruct (toOptionsWithContext o' key' has name) as [e|c]; [left|right]; eauto. }
    destruct (negb _); [apply Hp|]. destruct (match OptionalDep o' with [] => [] | c :: rest => _ end) as [|c dep]; [apply Hp|].
    eapply ends_bind; [apply value_ends|]. intros a _. eapply ends_bind; [apply value_ends|]. intros b _. apply Hp.
Qed.

Lemma get_value_ends m key : ends (fun n => getValue u (value n) m key) any_value.
Proof.
  unfold getValue. generalize (readKeys key (opaqueKeys u)). intros keys. revert m.
  induction keys as [|k keys IH]; intros m; [by apply ends_ret|]. destruct keys as [|k' keys]; [apply value_ends|].
  eapply ends_bind; [apply value_ends|]. intros [[]|] _; try (by apply ends_ret). apply IH.
Qed.

Abbreviation named_field := (processNamedField ParseFloat ParseFloat32 MaxFloat64 negMaxFloat64 f_eqb f_le Repr f_zero overflows32 f_round32
  ParseDuration Env json_any json_slice json_map u).

Lemma named_field_ends f old m name : field_ok f -> has_type (f_type f) old -> (size (f_type f) < N)%nat ->
  eends (fun n => named_field (rec n) (value n) f old m name) (has_type (f_type f)).
Proof.
  intros (Ht & Htag & _) Hold Hn. unfold processNamedField. destruct (negb (IsExported f)); [by apply eends_ret|].
  eapply eends_bind; [by apply parse_options_ends|]. intros [key opts] _. case_decide; [by apply eends_ret|].
  destruct (match opts with Some o => _ | None => _ end) as [|c e]; [|by apply env_ends].
  eapply ends_bind; [apply get_value_ends|]. intros mv _.
  destruct (fillDefault u); [destruct (negb _); [apply eends_throw|by apply without_value_ends]|].
  destruct mv as [v|]; [|by apply without_value_ends]. eapply eends_bind with (fun _ => True).
  - unfold from_array. destruct (fromArray u && _); [|by apply eends_ret].
    destruct v as [| | | | |[|]| |[|]]; try (by apply eends_ret). apply eends_panic. repeat constructor.
  - intros v' _. by apply with_value_ends.
Qed.

(** ** Embedded structs *)

Lemma embedded_typed t n0 fs old : Deref t = TStruct n0 fs -> t = Deref t \/ t = TPtr (Deref t) -> type_ok t -> has_type t old ->
  exists vs, embedded t old = Some (fs, vs) /\ Forall field_ok fs /\ fields_typed fs vs.
Proof.
  intros Hd He Ht Hold. assert (Forall field_ok fs) as Hfs by (apply deref_ok in Ht; rewrite Hd in Ht; by apply struct_ok in Ht).
  rewrite Hd in He. destruct He as [->| ->]; destruct old as [x| |v| |l| |l|l]; try done.
  - exists l. split_and!; [done..|by apply struct_typed in Hold].
  - exists (zero_fields fs). split_and!; [done..|by apply (zero_fields_typed (u_key u))].
  - destruct v; try done. exists l. split_and!; [done..|by apply struct_typed in Hold].
Qed.

Section embedding.
Context (g : nat -> gfield -> gval F -> valuer -> text -> EM (gval F)) (D : nat).
Hypothesis g_ends : forall f old m name, field_ok f -> has_type (f_type f) old -> (size (f_type f) < D)%nat -> (size (f_type f) < N)%nat ->
  eends (fun n => g n f old m name) (has_type (f_type f)).

(** The fields are smaller than [D] and [N]. *)
Definition small (fs : list gfield) : Prop := Forall (fun f => (size (f_type f) < D)%nat /\ (size (f_type f) < N)%nat) fs.

Lemma process_fields_ends fs vs m name : Forall field_ok fs -> small fs -> fields_typed fs vs ->
  eends (fun n => process_fields (g n) fs vs m name) (fields_typed fs).
Proof.
  intros Hok Hs Hvs. induction Hvs as [|f v fs vs Hv _ IH]; [apply eends_ret; constructor|].
  apply Forall_cons in Hok as [Hf Hok]. apply Forall_cons in Hs as [[Hd Hn] Hs].
  eapply eends_bind; [by apply g_ends|]. intros v' Hv'. eapply eends_bind; [by apply IH|]. intros vs' Hvs'.
  apply eends_ret. by constructor.
Qed.

Abbreviation optional_loop := (process_optional ParseFloat MaxFloat64 negMaxFloat64 f_eqb u).

Lemma process_optional_ends ready fs vs m name : Forall field_ok fs -> small fs -> fields_typed fs vs ->
  eends (fun n => optional_loop (value n) (g n) ready fs vs m name) (fun r => fields_typed fs r.1.1.1).
Proof.
  intros Hok Hs Hvs. induction Hvs as [|f v fs vs Hv _ IH]; [apply eends_ret; constructor|].
  apply Forall_cons in Hok as [Hf Hok]. apply Forall_cons in Hs as [[Hd Hn] Hs]. cbn [process_optional].
  eapply eends_bind; [apply parse_options_ends, Hf|]. intros [key opts] _.
  eapply ends_bind; [apply get_value_ends|]. intros has _. apply eends_bind with (has_type (f_type f)).
  - destruct has; [|by apply eends_ret]. destruct ready; [by apply g_ends|apply eends_panic; repeat constructor].
  - intros v' Hv'. eapply eends_bind; [by apply IH|]. intros [[[vs' filled] required] rf] Hvs'. apply eends_ret. by constructor.
Qed.

Abbreviation anonymous_field := (processAnonymousField ParseFloat ParseFloat32 MaxFloat64 negMaxFloat64 f_eqb f_le Repr f_zero overflows32 f_round32
  ParseDuration Env json_any json_slice json_map u).

Lemma fields_small n0 fs t : Deref t = TStruct n0 fs -> (size t <= D)%nat -> (size t <= N)%nat -> small fs.
Proof.
  intros Hd HD HN. pose proof (size_deref t) as Hs. rewrite Hd in Hs. simpl in Hs. revert Hs. clear Hd.
  generalize (size t) HD HN. clear HD HN t. intros k HD HN. unfold small.
  induction fs as [|[? ? ? t ?] fs IH]; intros Hs; [constructor|]. constructor; [simpl; lia|apply IH; lia].
Qed.

Lemma anonymous_ends f old m name : field_ok f -> Anonymous f = true -> has_type (f_type f) old -> (size (f_type f) <= D)%nat -> (size (f_type f) < N)%nat ->
  eends (fun n => anonymous_field (rec n) (value n) (g n) f old m name) (has_type (f_type f)).
Proof.
  intros Hf Ha Hold HD HN. destruct (Hf) as (Ht & Htag & He). specialize (He Ha). unfold processAnonymousField.
  eapply eends_bind; [by apply parse_options_ends|]. intros [key opts] _. case_decide; [by apply eends_ret|].
  assert (forall (vs : list (gval F)) n0 fs, Deref (f_type f) = TStruct n0 fs -> fields_typed fs vs -> has_type (f_type f) (wrap (f_type f) (VStruct vs))) as Hw.
  { intros vs n0 fs Hd Hvs. apply wrap_typed. rewrite Hd. by apply struct_typed. }
  destruct (optional opts).
  - destruct (Deref (f_type f)) as [| | | | |n0 fs] eqn:Ed; try (by apply named_field_ends).
    destruct (embedded_typed (f_type f) n0 fs old) as (vs & Hemb & Hfs & Hvs); [done|by rewrite Ed|done..|].
    unfold processAnonymousStructFieldOptional. rewrite Hemb.
    eapply eends_bind; [apply process_optional_ends; [done|eapply fields_small; [done..|lia]|done]|]. intros [[[vs' filled] required] rf] Hvs'.
    destruct filled; [|by apply eends_ret]. destruct (required =? rf)%nat; [|apply eends_throw].
    apply eends_ret. by eapply Hw.
  - unfold processAnonymousFieldRequired. apply eends_bind with (has_type (f_type f)).
    { unfold maybeNewValue. destruct (f_type f) as [| |t|t|t|]; try (by apply eends_ret). destruct old; try (by apply eends_ret).
      destruct (IsExported f); [|apply eends_panic; repeat constructor]. apply eends_ret. simpl. by apply (zero_typed (u_key u)). }
    intros old' Hold'. destruct (Deref (f_type f)) as [| | | | |n0 fs] eqn:Ed; try (by apply named_field_ends).
    destruct (embedded_typed (f_type f) n0 fs old') as (vs & -> & Hfs & Hvs); [done|by rewrite Ed|done..|].
    eapply eends_bind; [apply process_fields_ends; [done|eapply fields_small; [done..|lia]|done]|]. intros vs' Hvs'. apply eends_ret. by eapply Hw.
Qed.
End embedding.

Abbreviation field := (processField ParseFloat ParseFloat32 MaxFloat64 negMaxFloat64 f_eqb f_le Repr f_zero overflows32 f_round32
  ParseDuration Env json_any json_slice json_map u).

Lemma field_ends d : forall f old m name, field_ok f -> has_type (f_type f) old -> (size (f_type f) < d)%nat -> (size (f_type f) < N)%nat ->
  eends (fun n => field (rec n) (value n) d f old m name) (has_type (f_type f)).
Proof.
  induction d as [|d IH]; intros f old m name Hf Hold Hd Hn; [lia|]. cbn [processField].
  destruct (usingDifferentKeys (u_key u) (f_tags f)); [by apply eends_ret|]. destruct (Anonymous f) eqn:Ha; [|by apply named_field_ends].
  apply (anonymous_ends (fun n => field (rec n) (value n) d) d); try done; lia.
Qed.
End calls.

Abbreviation field := (processField ParseFloat ParseFloat32 MaxFloat64 negMaxFloat64 f_eqb f_le Repr f_zero overflows32 f_round32
  ParseDuration Env json_any json_slice json_map u).
Abbreviation run := (run ParseFloat ParseFloat32 MaxFloat64 negMaxFloat64 f_eqb f_le Repr f_zero overflows32 f_round32
  ParseDuration Env json_any json_slice json_map MapKeys u).

Lemma run_ends N : forall c, call_ok c -> (call_size c < N)%nat -> eends (fun n => run n c) (call_typed c).
Proof.
  induction N as [|N IH]; intros c Hc Hn; [lia|]. apply ends_fuel. cbn [Unmarshal.run].
  assert (forall v key, ends (fun n => Value n v key) any_value) as Hv by (intros v key; apply all_ready_ready, valuer_ready).
  destruct c as [fs m vs name|t vt old v name|elem l name]; simpl in Hc, Hn.
  - destruct Hc as [Hfs Hvs]. eapply eends_bind.
    + apply (process_fields_ends N (fun n f => field (run n) (Value n) (S (size (f_type f))) f) N); [|done| |exact Hvs].
      * intros f old m' name' Hf Hold _ Hs. by apply (field_ends (fun n => run n) Value N IH Hv); [| |lia|].
      * eapply (fields_small N N [] fs (TStruct [] fs)); [done|simpl; lia..].
    + intros vs1 Hvs1. apply eends_ret. by exists vs1.
  - destruct Hc as (Ht & Hsl & Hvt & Hold). apply (fillSlice_ends (fun n => run n) N); try done. lia.
  - apply (generateMap_ends (fun n => run n) N); try done; lia.
Qed.

Lemma unmarshal_ends (i : input) (t : gtype) (v : gval F) : type_ok t -> has_type t v ->
  eends (fun n => Unmarshal ParseFloat ParseFloat32 MaxFloat64 negMaxFloat64 f_eqb f_le Repr f_zero overflows32 f_round32
    ParseDuration Env json_any json_slice json_map MapKeys u n i t v) (has_type t).
Proof.
  intros Ht Hv. unfold Unmarshal. destruct t as [| |vt| | |]; try apply eends_throw.
  assert (forall n0 fs l vs, Deref vt = TStruct n0 fs -> fields_typed fs vs ->
    eends (fun n => run n (CallStruct fs (simpleValuer (mapValuer l) None) vs []))
      (fun r => exists vs', r = VStruct vs' /\ fields_typed fs vs')) as Hc.
  { intros n0 fs l vs Hd Hvs. apply (run_ends (S (size (TStruct [] fs))) (CallStruct fs _ vs [])); [|simpl; lia].
    split; [|done]. apply deref_ok in Ht. simpl in Ht. rewrite Hd in Ht. by apply struct_ok in Ht. }
  assert (forall l, is_slice vt -> forall old, has_type vt old ->
    eends (fun n => ebind (run n (CallSlice (Deref vt) vt old l [])) (fun x => eret (VRef x))) (has_type (TPtr vt))) as Hs.
  { intros l [t0 Ht0] old Hold. eapply eends_bind; [|intros x Hx; apply eends_ret; exact Hx].
    apply (run_ends (S (size (Deref vt))) (CallSlice (Deref vt) vt old l [])); [|simpl; lia].
    split_and!; [by apply deref_ok in Ht|exists t0; by rewrite deref_deref|by right; left|done]. }
  destruct i as [| | | |l|l| |]; try apply eends_throw.
  - destruct (Deref vt) as [| | | | |n0 fs] eqn:Ed; try apply eends_throw.
    assert (Forall field_ok fs) as Hfs by (apply deref_ok in Ht; simpl in Ht; rewrite Ed in Ht; by apply struct_ok in Ht).
    assert (eends (fun n => ebind (run n (CallStruct fs (simpleValuer (mapValuer l) None) (zero_fields fs) []))
      (fun s => eret (wrap (TPtr vt) s))) (has_type (TPtr vt))) as Hz.
    { eapply eends_bind; [by eapply Hc, (zero_fields_typed (u_key u))|]. intros r (vs & -> & Hvs).
      apply eends_ret, wrap_typed. simpl. rewrite Ed. by apply struct_typed. }
    destruct vt as [| |vt|vt|vt|n1 fs1]; simpl in Ed; try done.
    + destruct v; try exact Hz. apply eends_throw.
    + injection Ed as -> ->. destruct v as [| |[]| | | | |]; try exact Hz; try apply eends_throw. simpl in Hv.
      eapply eends_bind; [eapply Hc; [done|by apply struct_typed in Hv]|]. intros r (vs & -> & Hvs). apply eends_ret. by apply struct_typed.
  - destruct (Deref vt) as [| | |t0| |] eqn:Ed; try apply eends_throw. destruct v as [| |v| | | | |]; try apply eends_throw.
    exact (Hs _ (ex_intro _ t0 Ed) v Hv).
  - destruct (Deref vt) as [| | |t0| |] eqn:Ed; try apply eends_throw. destruct v as [| |v| | | | |]; try apply eends_throw.
    exact (Hs _ (ex_intro _ t0 Ed) v Hv).
Qed.

End ends.

(** ** Runs *)

(** The unmarshaler of json tags, with rational numbers for floats, one duration, and no environment; no JSON is decoded. *)
Definition json_tags : unmarshaler := mkUnmarshaler (rs "json") false false false false None.
Definition unmarshal_ex (env : text -> text) (fuel : nat) (i : input) (t : gtype) (maps : list (gmap text input)) :=
  Unmarshal ParseFloat_ex ParseFloat_ex (inject_Z 1000) (inject_Z (-1000)) Qeq_bool Qle_bool (fun _ => []) (Qeq_bool 0) (fun _ => false) (fun q => q)
    (fun s => if decide (s = rs "1s") then Some 1000000000 else None) env (fun _ st => (inl [], st)) (fun _ st => (inl [], st)) (fun _ _ _ => inl [])
    map_to_list json_tags fuel i (TPtr t) (VRef (zero t)) (mkStore (∅ :: maps) ∅ ∅).
Definition field_ex (name : string) (t : gtype) (tag : string) : gfield := mkField (rs name) true false t [(rs "json", rs tag)].
Definition struct_ex (t : gtype) : gtype := TStruct (rs "T") [field_ex "A" t "a"].
(** A field [a] is given; location 2 is another map. *)
Definition given (t : gtype) (v : input) (m : list (text * input)) :=
  unmarshal_ex (fun _ => []) 20 (IMap 1) (struct_ex t) [list_to_map [(rs "a", v)]; list_to_map m].

(** A struct with a required number, strings with a default, and a pointer to a struct *)
Definition type_ex : gtype :=
  TStruct (rs "T") [field_ex "A" (TPrim GoInt) "a"; field_ex "B" (TSlice (TPrim KString)) "b,default=[x,y]";
                    field_ex "C" (TPtr (TStruct (rs "C") [field_ex "D" (TPrim Bool) "d,optional"])) "c"].
Definition maps_ex : list (gmap text input) := [list_to_map [(rs "a", INumber (rs "5")); (rs "c", IMap 2)]; list_to_map [(rs "d", IBool true)]].

Example unmarshal_run : exists s, unmarshal_ex (fun _ => []) 20 (IMap 1) type_ex maps_ex =
  Ok (inr (VRef (VStruct [VPrim (VInt 5); VSlice [VPrim (VString (rs "x")); VPrim (VString (rs "y"))]; VRef (VStruct [VPrim (VBool true)])])), s).
Proof. eexists. by vm_compute. Qed.


(** Finding: a JSON number for a [time.Duration] panics. *)
Example duration_from_number_panics :
  given TDuration (INumber (rs "5")) [] = Panic "interface conversion: interface {} is json.Number, not string".
Proof. by vm_compute. Qed.

(** Finding: an object in the place of a number of a slice panics. *)
Example object_in_slice_panics : given (TSlice (TPrim GoInt)) (ISlice [IMap 2]) [] = Panic "reflect: Key of non-map type".
Proof. by vm_compute. Qed.

(** Finding: null in a map of slices panics. *)
Example null_in_map_panics :
  given (TMap (TSlice (TPrim GoInt))) (IMap 2) [(rs "k", INil)] = Panic "reflect: call of reflect.Value.Type on zero Value".
Proof. by vm_compute. Qed.

(** Finding: values for a map of pointers, and an empty array for a pointer to a slice, panic. *)
Example map_of_pointers_panics :
  given (TMap (TPtr (TPrim GoInt))) (IMap 2) [(rs "k", INumber (rs "1"))] = Panic "reflect.Set: value is not assignable" /\
  given (TPtr (TSlice (TPrim GoInt))) (ISlice []) [] = Panic "reflect.Set: value is not assignable".
Proof. by vm_compute. Qed.

(** Finding: the environment variable of an int64 is read as a duration, and then panics. *)
Example env_of_int64_panics :
  unmarshal_ex (fun _ => rs "1s") 20 (IMap 0) (TStruct (rs "T") [field_ex "A" (TPrim (Int 64)) "a,env=A"]) [] = Panic "reflect.Set: value is not assignable" /\
  exists s, unmarshal_ex (fun _ => rs "5") 20 (IMap 0) (TStruct (rs "T") [field_ex "A" (TPrim (Int 64)) "a,env=A"]) [] =
    Ok (inl (WrongEnv (rs "a") (rs "5")), s).
Proof. split; [by vm_compute|eexists; by vm_compute]. Qed.
