(* ===== verification/Conf.v ===== *)
(** * [core/conf]: loading configuration in any case of letters

    [config.go].  [buildFieldsInfo] collects the keys of a type in lower case, [toLowerCaseKeyMap] gives the keys of a
    decoded document the case they have there, and the unmarshaler of [Unmarshal.v] takes the values.  Types are those of
    [Mapping.v]; a type that contains itself, for which [buildFieldsInfo] does not return, is none of them.  A document is a tree; the entries of
    a map are in the order in which the code ranges over them.  [strings.ToLower] is an argument, and so are reading files, the
    environment, decoding, and conversion of TOML and YAML to JSON. *)

From Stdlib Require Import Ascii String.
From S2P Require Import Prelude Token Strings Breaker Mapping Unmarshal.
Local Open Scope Z_scope.
Local Open Scope go_scope.

Definition jsonTagKey : text := rs "json".
Definition jsonTagSep : rune := rn ",".

(** [fieldInfo] *)
Inductive fieldInfo := mkInfo (children : gmap text fieldInfo) (mapField : option fieldInfo).
Definition children (i : fieldInfo) : gmap text fieldInfo := let 'mkInfo c _ := i in c.
Definition mapField (i : fieldInfo) : option fieldInfo := let 'mkInfo _ m := i in m.
Definition no_info : fieldInfo := mkInfo ∅ None.

(** [conflictKeyError] *)
Record conflictKeyError := newConflictKeyError { conflict_key : text }.

(** A decoded document *)
Inductive json := JNull | JBool (b : bool) | JString (s : text) | JNumber (s : text) | JMap (l : list (text * json)) | JSlice (l : list json) | JNilSlice.

Definition getFullName (parent child : text) : text := match parent with [] => child | _ => parent ++ rs "." ++ child end.

Definition getTagName (f : gfield) : text :=
  match tag_get (f_tags f) jsonTagKey with
  | None => f_name f
  | Some tag => match TrimSpace (default tag (head (Split tag jsonTagSep))) with [] => f_name f | tag => tag end
  end.

Section conf.
Context (toLowerCase : text -> text) (range : gmap text fieldInfo -> list (text * fieldInfo)).

(** ** The keys of a type *)

Definition mergeFields (prev : fieldInfo) (more : gmap text fieldInfo) (fullName : text) : conflictKeyError + fieldInfo :=
  if decide (base.size (children prev) = 0%nat \/ base.size more = 0%nat) then inl (newConflictKeyError fullName)
  else if decide (dom (children prev) ## dom more) then inr (mkInfo (children prev ∪ more) (mapField prev))
  else inl (newConflictKeyError fullName).

(** [info.children[key] = child] *)
Definition set_child (info : fieldInfo) (key : text) (child : fieldInfo) : fieldInfo := mkInfo (<[key := child]> (children info)) (mapField info).

Definition addOrMergeFields (info : fieldInfo) (key : text) (child : fieldInfo) (fullName : text) : conflictKeyError + fieldInfo :=
  match children info !! key with
  | Some prev =>
    match mapField child with
    | Some _ => inl (newConflictKeyError fullName)
    | None => match mergeFields prev (children child) fullName with inl e => inl e | inr prev => inr (set_child info key prev) end
    end
  | None => inr (set_child info key child)
  end.
Fixpoint add_children (info : fieldInfo) (l : list (text * fieldInfo)) (fullName : text) : conflictKeyError + fieldInfo :=
  match l with
  | [] => inr info
  | (k, v) :: l => match addOrMergeFields info k v fullName with inl e => inl e | inr info => add_children info l fullName end
  end.

Definition cbind {A B} (m : outcome (conflictKeyError + A)) (k : A -> outcome (conflictKeyError + B)) : outcome (conflictKeyError + B) :=
  r <~ m ;; match r with inl e => Ok (inl e) | inr a => k a end.

Section build.
Context (buildFieldsInfo : gtype -> text -> outcome (conflictKeyError + fieldInfo)).

(** [info.children[lowerCaseName] = child], which must be new *)
Definition new_child (info : fieldInfo) (lowerCaseName : text) (child : fieldInfo) (fullName : text) : outcome (conflictKeyError + fieldInfo) :=
  Ok (match children info !! lowerCaseName with
      | Some _ => inl (newConflictKeyError fullName)
      | None => inr (set_child info lowerCaseName child)
      end).
Definition buildAnonymousFieldInfo (info : fieldInfo) (lowerCaseName : text) (ft : gtype) (fullName : text) : outcome (conflictKeyError + fieldInfo) :=
  match ft with
  | TStruct _ _ => cbind (buildFieldsInfo ft fullName) (fun fields => Ok (add_children info (range (children fields)) fullName))
  | TMap elem => cbind (buildFieldsInfo (Deref elem) fullName) (fun e => new_child info lowerCaseName (mkInfo ∅ (Some e)) fullName)
  | _ => new_child info lowerCaseName no_info fullName
  end.

Definition buildNamedFieldInfo (info : fieldInfo) (lowerCaseName : text) (ft : gtype) (fullName : text) : outcome (conflictKeyError + fieldInfo) :=
  cbind (match ft with
         | TSlice elem => buildFieldsInfo elem fullName
         | TMap elem => cbind (buildFieldsInfo (Deref elem) fullName) (fun e => Ok (inr (mkInfo ∅ (Some e))))
         | _ => buildFieldsInfo ft fullName
         end)
    (fun finfo => Ok (addOrMergeFields info lowerCaseName finfo fullName)).

(** The loop of [buildStructFieldsInfo] *)
Fixpoint buildStructFieldsInfo (info : fieldInfo) (fields : list gfield) (fullName : text) : outcome (conflictKeyError + fieldInfo) :=
  match fields with
  | [] => Ok (inr info)
  | field :: fields =>
    if negb (IsExported field) then buildStructFieldsInfo info fields fullName
    else
      let lowerCaseName := toLowerCase (getTagName field) in
      let ft := Deref (f_type field) in
      let name := getFullName fullName lowerCaseName in
      cbind (if Anonymous field then buildAnonymousFieldInfo info lowerCaseName ft name else buildNamedFieldInfo info lowerCaseName ft name)
        (fun info => buildStructFieldsInfo info fields fullName)
  end.
End build.

(** The fuel bounds the depth of the type. *)
Fixpoint buildFieldsInfo (fuel : nat) (tp : gtype) (fullName : text) : outcome (conflictKeyError + fieldInfo) :=
  match fuel with
  | O => Panic "out of fuel"
  | S fuel =>
    match Deref tp with
    | TStruct _ fields => buildStructFieldsInfo (buildFieldsInfo fuel) no_info fields fullName
    | TSlice elem | TMap elem => buildFieldsInfo fuel (Deref elem) fullName
    | _ => Ok (inr no_info)
    end
  end.

(** ** The keys of a document *)

(** [res[k] = v] *)
Fixpoint set_key (k : text) (v : json) (res : list (text * json)) : list (text * json) :=
  match res with
  | [] => [(k, v)]
  | (k', v') :: res => if decide (k' = k) then (k, v) :: res else (k', v') :: set_key k v res
  end.

(** One entry of [toLowerCaseKeyMap]; [lower] is [toLowerCaseInterface]. *)
Definition lower_entry (lower : json -> fieldInfo -> json) (info : fieldInfo) (k : text) (v : json) : text * json :=
  match children info !! k with
  | Some ti => (k, lower v ti)
  | None =>
    let lk := toLowerCase k in
    match children info !! lk with
    | Some ti => (lk, lower v ti)
    | None =>
      match mapField info with
      | Some mi => (k, lower v mi)
      | None => match v with JMap _ => (k, lower v info) | _ => (k, v) end
      end
    end
  end.
Fixpoint toLowerCaseInterface (v : json) (info : fieldInfo) {struct v} : json :=
  match v with
  | JMap l =>
    JMap ((fix entries l res :=
             match l with
             | [] => res
             | (k, x) :: l => entries l (let '(k', x') := lower_entry (fun _ info => toLowerCaseInterface x info) info k x in set_key k' x' res)
             end) l [])
  | JSlice [] => JNilSlice
  | JSlice l => JSlice (map (fun x => toLowerCaseInterface x info) l)
  | _ => v
  end.
(** The loop of [toLowerCaseKeyMap] *)
Fixpoint lower_entries (l : list (text * json)) (info : fieldInfo) (res : list (text * json)) : list (text * json) :=
  match l with
  | [] => res
  | (k, v) :: l => lower_entries l info (let '(k', v') := lower_entry toLowerCaseInterface info k v in set_key k' v' res)
  end.
Definition toLowerCaseKeyMap (m : list (text * json)) (info : fieldInfo) : list (text * json) := lower_entries m info [].

(** ** Loading *)

(** A document as the input of the unmarshaler: its maps are allocated *)
Fixpoint alloc (v : json) (ms : list (gmap text input)) : input * list (gmap text input) :=
  match v with
  | JNull => (INil, ms)
  | JBool b => (IBool b, ms)
  | JString s => (IString s, ms)
  | JNumber s => (INumber s, ms)
  | JNilSlice => (INilSlice, ms)
  | JSlice l =>
    let '(l, ms) := (fix elems l ms := match l with
                                       | [] => ([], ms)
                                       | v :: l => let '(i, ms) := alloc v ms in let '(rest, ms) := elems l ms in (i :: rest, ms)
                                       end) l ms in (ISlice l, ms)
  | JMap l =>
    let '(m, ms) := (fix entries l ms := match l with
                                         | [] => (∅, ms)
                                         | (k, v) :: l => let '(i, ms) := alloc v ms in let '(m, ms) := entries l ms in (<[k := i]> m, ms)
                                         end) l ms in (IMap (length ms), ms ++ [m])
  end.

Section load.
Context {F : Type} `{!Float64 F} (ParseFloat ParseFloat32 : text -> option F) (MaxFloat64 negMaxFloat64 : F).
Context (f_eqb f_le : F -> F -> bool) (Repr : @any F -> text).
Context (f_zero overflows32 : F -> bool) (f_round32 : F -> F) (ParseDuration : text -> option Z) (Env : text -> text).
Context (json_any : text -> store -> (text + input) * store) (json_slice : text -> store -> (text + list input) * store).
Context (json_map : text -> gtype -> gval F -> text + gval F).
Context (MapKeys : gmap text input -> list (text * input)).

(** Decoding of a document into a map, whose entries come in some order; conversions to JSON; what a file holds; the environment *)
Context (decode_map : text -> text + list (text * json)) (TomlToJson YamlToJson : text -> text + text).
Context (ReadFile : text -> text + text) (ExpandEnv : text -> text).

Notation Unmarshal := (Unmarshal ParseFloat ParseFloat32 MaxFloat64 negMaxFloat64 f_eqb f_le Repr f_zero overflows32 f_round32
  ParseDuration Env json_any json_slice json_map MapKeys).

Definition config_unmarshaler : unmarshaler := mkUnmarshaler jsonTagKey false false false false (Some toLowerCase).
Definition fillDefaultUnmarshaler : unmarshaler := mkUnmarshaler jsonTagKey true false false false None.

Variant load_error := Conflict (e : conflictKeyError) | BadContent (msg : text) | Unmarshalling (e : uerror) | Unrecognized (file : text).

Definition loaded (r : outcome ((uerror + gval F) * store)) : outcome (load_error + gval F) :=
  match r with Panic m => Panic m | Ok (inl e, _) => Ok (inl (Unmarshalling e)) | Ok (inr v, _) => Ok (inr v) end.

(** [FillDefault]; location 0 is the empty map of the package, location 1 the one given. *)
Definition FillDefault (fuel : nat) (t : gtype) (v : gval F) (cache : gmap text input) (req : structRequiredCache) : outcome (load_error + gval F) :=
  loaded (Unmarshal fillDefaultUnmarshaler fuel (IMap 1) t v (mkStore [∅; ∅] cache req)).

Definition LoadFromJsonBytes (fuel : nat) (content : text) (t : gtype) (v : gval F) (cache : gmap text input) (req : structRequiredCache) :
    outcome (load_error + gval F) :=
  info <~ buildFieldsInfo fuel t [] ;;
  match info with
  | inl e => Ok (inl (Conflict e))
  | inr info =>
    match decode_map content with
    | inl msg => Ok (inl (BadContent msg))
    | inr m =>
      let lowerCaseKeyMap := toLowerCaseKeyMap m info in
      let '(i, ms) := alloc (JMap lowerCaseKeyMap) [∅] in
      loaded (Unmarshal config_unmarshaler fuel i t v (mkStore ms cache req))
    end
  end.

Definition LoadFromTomlBytes (fuel : nat) (content : text) (t : gtype) (v : gval F) (cache : gmap text input) (req : structRequiredCache) :
    outcome (load_error + gval F) :=
  match TomlToJson content with inl msg => Ok (inl (BadContent msg)) | inr b => LoadFromJsonBytes fuel b t v cache req end.
Definition LoadFromYamlBytes (fuel : nat) (content : text) (t : gtype) (v : gval F) (cache : gmap text input) (req : structRequiredCache) :
    outcome (load_error + gval F) :=
  match YamlToJson content with inl msg => Ok (inl (BadContent msg)) | inr b => LoadFromJsonBytes fuel b t v cache req end.

(** [loaders], by the extension of the file *)
Variant loader := Json | Toml | Yaml.
Definition loaders (ext : text) : option loader :=
  if decide (ext = rs ".json") then Some Json
  else if decide (ext = rs ".toml") then Some Toml
  else if decide (ext = rs ".yaml" \/ ext = rs ".yml") then Some Yaml
  else None.
(** [ext] is the extension of the file, and [env] the option [UseEnv]. *)
Definition Load (fuel : nat) (file ext : text) (env : bool) (t : gtype) (v : gval F) (cache : gmap text input) (req : structRequiredCache) :
    outcome (load_error + gval F) :=
  match ReadFile file with
  | inl msg => Ok (inl (BadContent msg))
  | inr content =>
    match loaders (toLowerCase ext) with
    | None => Ok (inl (Unrecognized file))
    | Some l =>
      let content := if env then ExpandEnv content else content in
      match l with
      | Json => LoadFromJsonBytes fuel content t v cache req
      | Toml => LoadFromTomlBytes fuel content t v cache req
      | Yaml => LoadFromYamlBytes fuel content t v cache req
      end
    end
  end.
End load.
End conf.
