(* ===== verification/ConfCorrect.v ===== *)
(** * Configuration: the theorems of [Conf.v] *)

From Stdlib Require Import Ascii String QArith.
From S2P Require Import Prelude Token Strings Breaker Mapping MappingCorrect Unmarshal UnmarshalCorrect Conf.
Local Open Scope Z_scope.
Local Open Scope go_scope.

Section conf.
Context (toLowerCase : text -> text) (range : gmap text fieldInfo -> list (text * fieldInfo)).

(** [strings.ToLower] is idempotent; ranging over a map gives each entry once. *)
Hypothesis lower_lower : forall s, toLowerCase (toLowerCase s) = toLowerCase s.
Hypothesis range_map : forall m, range m ≡ₚ map_to_list m.

Notation build := (buildFieldsInfo toLowerCase range).
Notation lower := (toLowerCaseInterface toLowerCase).
Notation lower_map := (toLowerCaseKeyMap toLowerCase).
Notation entry := (lower_entry toLowerCase).

(** ** The keys of a type *)

(** All keys are in lower case. *)
Inductive info_ok : fieldInfo -> Prop :=
| info_ok_intro c m : (forall k i, c !! k = Some i -> toLowerCase k = k /\ info_ok i) -> (forall i, m = Some i -> info_ok i) -> info_ok (mkInfo c m).

Lemma info_ok_child i k ti : info_ok i -> children i !! k = Some ti -> toLowerCase k = k /\ info_ok ti.
Proof. intros [c m Hc _]. apply Hc. Qed.
Lemma info_ok_map i mi : info_ok i -> mapField i = Some mi -> info_ok mi.
Proof. intros [c m _ Hm]. apply Hm. Qed.
Lemma no_info_ok : info_ok no_info.
Proof. constructor; [by intros k i; rewrite lookup_empty|done]. Qed.
Lemma map_info_ok e : info_ok e -> info_ok (mkInfo ∅ (Some e)).
Proof. constructor; [by intros k i; rewrite lookup_empty|by intros i [= <-]]. Qed.
Lemma set_child_ok i k c : info_ok i -> toLowerCase k = k -> info_ok c -> info_ok (set_child i k c).
Proof.
  intros Hi Hk Hc. constructor; [|intros m; by apply info_ok_map]. intros k' i'. rewrite lookup_insert_Some. intros [[<- <-]|[_ H]]; [done|].
  by apply info_ok_child in H.
Qed.

(** The keys of an info *)
Definition keys (i : fieldInfo) : gset text := dom (children i).

Lemma merge_ok prev more name r : info_ok prev -> (forall k i, more !! k = Some i -> toLowerCase k = k /\ info_ok i) ->
  mergeFields prev more name = inr r -> info_ok r.
Proof.
  unfold mergeFields. intros Hp Hm. destruct (decide _); [done|]. destruct (decide _); [|done]. intros [= <-].
  constructor; [|intros m; by apply info_ok_map]. intros k i [H|[_ H]]%lookup_union_Some_raw; [by apply (info_ok_child prev)|by apply Hm].
Qed.
(** Adding a child adds its key. *)
Lemma add_ok i k c name r : info_ok i -> toLowerCase k = k -> info_ok c -> addOrMergeFields i k c name = inr r ->
  info_ok r /\ keys r = keys i ∪ {[k]}.
Proof.
  unfold addOrMergeFields, keys. intros Hi Hk Hc. destruct (children i !! k) as [prev|] eqn:E.
  - destruct (mapField c); [done|]. destruct (mergeFields prev (children c) name) as [|p] eqn:Em; [done|]. intros [= <-].
    destruct (info_ok_child _ _ _ Hi E) as [_ Hp]. split.
    + apply set_child_ok; [done..|]. apply (merge_ok _ _ _ _ Hp) in Em; [done|]. intros k' i'. by apply info_ok_child.
    + simpl. rewrite dom_insert_L. set_solver.
  - intros [= <-]. split; [by apply set_child_ok|]. simpl. rewrite dom_insert_L. set_solver.
Qed.
Lemma add_children_ok l name : forall i r, info_ok i -> Forall (fun p => toLowerCase p.1 = p.1 /\ info_ok p.2) l ->
  add_children i l name = inr r -> info_ok r /\ keys r = keys i ∪ list_to_set (map fst l).
Proof.
  induction l as [|[k c] l IH]; simpl; intros i r Hi Hl; [intros [= <-]; split; [done|set_solver]|].
  apply Forall_cons in Hl as [[Hk Hc] Hl]. destruct (addOrMergeFields i k c name) as [|i'] eqn:E; [done|]. intros H.
  destruct (add_ok _ _ _ _ _ Hi Hk Hc E) as [Hi' Hd]. destruct (IH _ _ Hi' Hl H) as [Hr Hd']. split; [done|]. rewrite Hd', Hd. simpl. set_solver.
Qed.

(** What the loop over the fields of a struct collects: the keys of its exported fields, and instead of an embedded struct
    the keys of that. *)
Fixpoint struct_keys (sub : gtype -> gset text) (fs : list gfield) : gset text :=
  match fs with
  | [] => ∅
  | f :: fs =>
    (if negb (IsExported f) then ∅
     else match Anonymous f, Deref (f_type f) with
          | true, TStruct n l => sub (TStruct n l)
          | _, _ => {[ toLowerCase (getTagName f) ]}
          end) ∪ struct_keys sub fs
  end.
Fixpoint type_keys (depth : nat) (t : gtype) : gset text :=
  match depth with
  | O => ∅
  | S depth =>
    match Deref t with
    | TStruct _ fs => struct_keys (type_keys depth) fs
    | TSlice elem | TMap elem => type_keys depth (Deref elem)
    | _ => ∅
    end
  end.

(** The result of building the info of a type *)
Definition built (t : gtype) (ks : gset text) (r : outcome (conflictKeyError + fieldInfo)) : Prop :=
  exists r', r = Ok r' /\ match r' with inl _ => True | inr i => info_ok i /\ keys i = ks end.
Definition adds (ks : gset text) (i : fieldInfo) (r : outcome (conflictKeyError + fieldInfo)) : Prop :=
  exists r', r = Ok r' /\ match r' with inl _ => True | inr i' => info_ok i' /\ keys i' = keys i ∪ ks end.

Lemma range_keys m : list_to_set (map fst (range m)) =@{gset text} dom m.
Proof.
  rewrite (list_to_set_perm_L _ _ (fmap_Permutation fst _ _ (range_map m))). symmetry. apply leibniz_equiv, dom_alt.
Qed.

Section fields.
Context (rec : gtype -> text -> outcome (conflictKeyError + fieldInfo)) (sub : gtype -> gset text) (d : nat).
Hypothesis rec_built : forall t name, (size t < d)%nat -> built t (sub t) (rec t name).

Lemma add_adds i k c name : info_ok i -> toLowerCase k = k -> info_ok c -> adds {[k]} i (Ok (addOrMergeFields i k c name)).
Proof. intros Hi Hk Hc. eexists. split; [done|]. destruct (addOrMergeFields _ _ _ _) eqn:E; [done|]. by eapply add_ok. Qed.
Lemma new_child_adds i k c name : info_ok i -> toLowerCase k = k -> info_ok c -> adds {[k]} i (new_child i k c name).
Proof.
  intros Hi Hk Hc. eexists. split; [done|]. destruct (children i !! k); [done|]. split; [by apply set_child_ok|].
  unfold keys. simpl. rewrite dom_insert_L. set_solver.
Qed.
Lemma cbind_adds ks t sub_ks i (m : outcome (conflictKeyError + fieldInfo)) k : built t sub_ks m ->
  (forall e, info_ok e -> keys e = sub_ks -> adds ks i (k e)) -> adds ks i (cbind m k).
Proof. intros (r & -> & Hr) Hk. destruct r as [e|e]; [by eexists|]. destruct Hr. by apply Hk. Qed.

Lemma named_adds i f name : info_ok i -> (size (f_type f) < d)%nat ->
  adds {[toLowerCase (getTagName f)]} i (buildNamedFieldInfo rec i (toLowerCase (getTagName f)) (Deref (f_type f)) name).
Proof.
  intros Hi Hd. pose proof (size_deref (f_type f)). unfold buildNamedFieldInfo.
  assert (forall c, info_ok c -> adds {[toLowerCase (getTagName f)]} i (Ok (addOrMergeFields i (toLowerCase (getTagName f)) c name))) as Ha.
  { intros c Hc. by apply add_adds. }
  destruct (Deref (f_type f)) as [| | |e|e|] eqn:E; simpl in *; try (eapply cbind_adds; [apply rec_built; simpl; lia|]; intros c Hc _; by apply Ha).
  pose proof (size_deref e). destruct (rec_built (Deref e) name) as (r & -> & Hr); [lia|]. destruct r as [er|c]; [by eexists|].
  simpl. apply Ha, map_info_ok, Hr.
Qed.

Lemma anonymous_adds i f name : info_ok i -> (size (f_type f) < d)%nat ->
  adds (match Deref (f_type f) with TStruct n l => sub (TStruct n l) | _ => {[ toLowerCase (getTagName f) ]} end) i
    (buildAnonymousFieldInfo range rec i (toLowerCase (getTagName f)) (Deref (f_type f)) name).
Proof.
  intros Hi Hd. pose proof (size_deref (f_type f)). pose proof no_info_ok.
  unfold buildAnonymousFieldInfo. destruct (Deref (f_type f)) as [| | |e|e|n l] eqn:E; try by apply new_child_adds.
  - pose proof (size_deref e). simpl in *. eapply cbind_adds; [apply rec_built; lia|]. intros c Hc _. apply new_child_adds; [done..|by apply map_info_ok].
  - eapply cbind_adds; [apply rec_built; lia|]. intros c Hc Hk. eexists. split; [done|].
    destruct (add_children i _ name) as [|r] eqn:Ea; [done|]. apply add_children_ok in Ea as [Hr Hkr]; [|done|].
    + split; [done|]. rewrite Hkr, <- Hk. unfold keys. f_equal. apply range_keys.
    + apply Forall_forall. intros [k' c'] Hin. rewrite range_map, elem_of_map_to_list in Hin. by eapply info_ok_child in Hin.
Qed.

Lemma adds_bind ks1 ks2 i m k : adds ks1 i m -> (forall i', info_ok i' -> adds ks2 i' (k i')) -> adds (ks1 ∪ ks2) i (cbind m k).
Proof.
  intros (r & -> & Hr) Hk. destruct r as [e|i']; [by eexists|]. destruct Hr as [Hi' Hki]. destruct (Hk i' Hi') as (r & Hr & Hok).
  exists r. split; [exact Hr|]. destruct r as [e|i'']; [done|]. destruct Hok as [? Hk2]. split; [done|]. rewrite Hk2, Hki. set_solver.
Qed.
Lemma adds_nothing i : info_ok i -> adds ∅ i (Ok (inr i)).
Proof. intros Hi. eexists. split; [done|]. split; [done|set_solver]. Qed.

Lemma struct_adds fs name : Forall (fun f => size (f_type f) < d)%nat fs -> forall i, info_ok i ->
  adds (struct_keys sub fs) i (buildStructFieldsInfo toLowerCase range rec i fs name).
Proof.
  induction 1 as [|f fs Hf _ IH]; intros i Hi; [by apply adds_nothing|]. simpl. destruct (IsExported f); simpl.
  - eapply adds_bind; [|by intros; apply IH]. destruct (Anonymous f); [by apply anonymous_adds|by apply named_adds].
  - replace (∅ ∪ _) with (struct_keys sub fs) by set_solver. by apply IH.
Qed.
End fields.

Lemma size_field n fs f : f ∈ fs -> (size (f_type f) < size (TStruct n fs))%nat.
Proof.
  intros Hf. simpl. induction fs as [|[n' ex an t tags] fs IH]; [by apply elem_of_nil in Hf|].
  apply elem_of_cons in Hf as [->|Hf]; simpl; [lia|]. specialize (IH Hf). lia.
Qed.

(** Building ends, with a conflict or with the keys of the type. *)
Lemma build_built d : forall t name, (size t < d)%nat -> built t (type_keys d t) (build d t name).
Proof.
  induction d as [|d IH]; intros t name Hd; [lia|]. pose proof (size_deref t). cbn [buildFieldsInfo type_keys].
  assert (built t ∅ (Ok (inr no_info))) as He by (eexists; split; [done|]; split; [apply no_info_ok|done]).
  destruct (Deref t) as [| | |e|e|n fs] eqn:E; try exact He.
  - pose proof (size_deref e). simpl in *. apply IH. lia.
  - pose proof (size_deref e). simpl in *. apply IH. lia.
  - destruct (struct_adds (build d) (type_keys d) d IH fs name) with (i := no_info) as (r & Hr & Hok); [|apply no_info_ok|].
    + apply Forall_forall. intros f Hf. apply (size_field n) in Hf. lia.
    + exists r. split; [exact Hr|]. destruct r as [e|i]; [done|]. destruct Hok as [? Hk]. split; [done|]. rewrite Hk. unfold keys. simpl. set_solver.
Qed.

(** ** The keys of a document *)

Lemma entry_known lower info k v ti : info_ok info -> children info !! toLowerCase k = Some ti -> entry lower info k v = (toLowerCase k, lower v ti).
Proof.
  intros Hi Hk. unfold lower_entry. destruct (children info !! k) as [ti'|] eqn:E; [|by rewrite Hk].
  destruct (info_ok_child _ _ _ Hi E) as [Hl _]. rewrite Hl in *. by simplify_eq.
Qed.
Lemma entry_unknown info k v : info_ok info -> children info !! toLowerCase k = None ->
  children info !! k = None /\ entry lower info k v = (k, match mapField info, v with
                                                        | Some mi, _ => lower v mi | None, JMap _ => lower v info | None, _ => v end).
Proof.
  intros Hi Hk. assert (children info !! k = None) as E.
  { destruct (children info !! k) as [ti|] eqn:E; [|done]. destruct (info_ok_child _ _ _ Hi E) as [Hl _]. rewrite Hl in Hk. congruence. }
  split; [done|]. unfold lower_entry. rewrite E, Hk. destruct (mapField info); [done|]. by destruct v.
Qed.

Lemma lower_map_eq l info : lower (JMap l) info = JMap (lower_map l info).
Proof.
  unfold toLowerCaseKeyMap. cbn [toLowerCaseInterface]. f_equal. generalize (@nil (text * json)).
  induction l as [|[k x] l IH]; intros res; [done|]. cbn [lower_entries]. rewrite <- IH. done.
Qed.

(** [m[k]] *)
Fixpoint get_key (k : text) (m : list (text * json)) : option json :=
  match m with [] => None | (k', v) :: m => if decide (k' = k) then Some v else get_key k m end.
Lemma get_set k k' v m : get_key k (set_key k' v m) = if decide (k' = k) then Some v else get_key k m.
Proof.
  induction m as [|[k0 v0] m IH]; simpl; [done|]. destruct (decide (k0 = k')) as [->|]; simpl; [by destruct (decide (k' = k))|].
  rewrite IH. destruct (decide (k0 = k)), (decide (k' = k)); congruence.
Qed.
(** The value of the last entry of a document with a key, in any case *)
Fixpoint last_value (k : text) (m : list (text * json)) (v : option json) : option json :=
  match m with [] => v | (k', x) :: m => last_value k m (if decide (toLowerCase k' = k) then Some x else v) end.

Lemma lower_entries_known info k ti : info_ok info -> children info !! k = Some ti -> forall m res v,
  get_key k res = (fun x => lower x ti) <$> v ->
  get_key k (lower_entries toLowerCase m info res) = (fun x => lower x ti) <$> last_value k m v.
Proof.
  intros Hi Hk m. destruct (info_ok_child _ _ _ Hi Hk) as [Hl _]. induction m as [|[k' x] m IH]; intros res v Hg; [done|].
  cbn [lower_entries last_value]. destruct (children info !! toLowerCase k') as [ti'|] eqn:E.
  - rewrite (entry_known _ _ _ _ _ Hi E). apply IH. rewrite get_set. destruct (decide (toLowerCase k' = k)) as [He|]; [|done].
    rewrite He in E. by simplify_eq.
  - destruct (entry_unknown info k' x Hi E) as [E' He]. rewrite He. apply IH. rewrite get_set.
    destruct (decide (k' = k)), (decide (toLowerCase k' = k)); subst; congruence || done.
Qed.

(** Two documents that differ in the case of the keys of the type only *)
Fixpoint similar (v w : json) (info : fieldInfo) {struct v} : Prop :=
  match v, w with
  | JMap l, JMap l' =>
    (fix entries l l' :=
       match l, l' with
       | [], [] => True
       | (k, x) :: l, (k', x') :: l' =>
         match children info !! toLowerCase k with
         | Some ti => toLowerCase k = toLowerCase k' /\ similar x x' ti
         | None => k = k' /\ match mapField info with
                             | Some mi => similar x x' mi
                             | None => match x, x' with JMap _, JMap _ => similar x x' info | _, _ => x = x' end
                             end
         end /\ entries l l'
       | _, _ => False
       end) l l'
  | JSlice l, JSlice l' =>
    (fix elems l l' := match l, l' with [], [] => True | x :: l, x' :: l' => similar x x' info /\ elems l l' | _, _ => False end) l l'
  | _, _ => v = w
  end.

(** Induction over documents *)
Lemma json_rect_nested (P : json -> Prop) :
  (forall l, Forall (fun p => P p.2) l -> P (JMap l)) -> (forall l, Forall P l -> P (JSlice l)) ->
  (forall v, match v with JMap _ | JSlice _ => True | _ => P v end) -> forall v, P v.
Proof.
  intros Hm Hs Ha. fix IH 1. intros v. destruct v as [|b|s|s|l|l|]; try (exact (Ha (JNull)) || exact (Ha (JBool b)) || exact (Ha (JString s)) || exact (Ha (JNumber s)) || exact (Ha JNilSlice)).
  - apply Hm. induction l as [|[k x] l IHl]; constructor; [apply IH|exact IHl].
  - apply Hs. induction l as [|x l IHl]; constructor; [apply IH|exact IHl].
Qed.

Lemma similar_lower : forall v w info, info_ok info -> similar v w info -> lower v info = lower w info.
Proof.
  apply (json_rect_nested (fun v => forall w info, info_ok info -> similar v w info -> lower v info = lower w info)).
  - intros l Hl w info Hi Hs. destruct w as [| | | |l'| |]; try done. rewrite !lower_map_eq. f_equal. unfold toLowerCaseKeyMap.
    generalize (@nil (text * json)). revert l' Hs. induction Hl as [|[k x] l Hx _ IH]; intros [|[k' x'] l'] Hs res; try done.
    destruct Hs as [He Hs]. cbn [lower_entries]. simpl in Hx.
    enough (entry lower info k x = entry lower info k' x') as -> by (by destruct (entry lower info k' x'); apply IH).
    destruct (children info !! toLowerCase k) as [ti|] eqn:E.
    + destruct He as [Hk Hv]. rewrite (entry_known _ _ _ _ _ Hi E), (entry_known _ _ k' _ ti Hi), Hk by (by rewrite <- Hk).
      f_equal. apply Hx; [by eapply info_ok_child|done].
    + destruct He as [<- Hv]. rewrite (proj2 (entry_unknown _ _ x Hi E)), (proj2 (entry_unknown _ _ x' Hi E)). f_equal.
      destruct (mapField info) as [mi|] eqn:Em; [apply Hx; [by eapply info_ok_map|done]|].
      destruct x, x'; try done; try (by apply Hx); by rewrite Hv.
  - intros l Hl w info Hi Hs. destruct w as [| | | | |l'|]; try done. cbn [toLowerCaseInterface].
    assert (map (fun x => lower x info) l = map (fun x => lower x info) l') as He.
    { revert l' Hs. induction Hl as [|x l Hx _ IH]; intros [|x' l'] Hs; try done. destruct Hs as [Hxx Hs]. simpl. f_equal; [by apply Hx|by apply IH]. }
    destruct l, l'; try done. by f_equal.
  - intros v. destruct v; try done; intros w info _ Hs; destruct w; simpl in *; try done; by rewrite Hs.
Qed.

(** C30: the configuration finds its keys in any case.  Building the keys of a type always ends, with a conflict or an info whose keys are
    those of the exported fields in lower case, embedded structs spread out.  Whatever the document, the entry of such a key after
    [toLowerCaseKeyMap] is the last one that has the key in any case; and documents that differ in the case of the keys only become the same. *)
Theorem config_keys_any_case (n : text) (fs : list gfield) (fuel : nat) (name : text) : (size (TStruct n fs) < fuel)%nat ->
  exists r, build fuel (TStruct n fs) name = Ok r /\ forall info, r = inr info ->
    (forall k, is_Some (children info !! k) <-> k ∈ type_keys fuel (TStruct n fs)) /\
    (forall k ti m, children info !! k = Some ti -> get_key k (lower_map m info) = (fun x => lower x ti) <$> last_value k m None) /\
    (forall m m', similar (JMap m) (JMap m') info -> lower_map m info = lower_map m' info).
Proof.
  intros Hs. destruct (build_built fuel (TStruct n fs) name Hs) as (r & Hr & Hok). exists r. split; [done|].
  intros info ->. destruct Hok as [Hi Hk]. split_and!.
  - intros k. rewrite <- Hk. unfold keys. by rewrite elem_of_dom.
  - intros k ti m Hc. by apply lower_entries_known.
  - intros m m' Hm. pose proof (similar_lower _ _ _ Hi Hm) as He. rewrite !lower_map_eq in He. by injection He.
Qed.

(** ** Loading *)

Section ext.
Context (rec rec' : gtype -> text -> outcome (conflictKeyError + fieldInfo)) (d : nat).
Hypothesis rec_eq : forall t name, (size t < d)%nat -> rec t name = rec' t name.

Lemma struct_ext fs name : Forall (fun f => size (f_type f) < d)%nat fs -> forall i,
  buildStructFieldsInfo toLowerCase range rec i fs name = buildStructFieldsInfo toLowerCase range rec' i fs name.
Proof.
  assert (forall A B (m m' : outcome (conflictKeyError + A)) (k k' : A -> outcome (conflictKeyError + B)),
    m = m' -> (forall a, k a = k' a) -> cbind m k = cbind m' k') as Hb.
  { intros A B m m' k k' -> Hk. unfold cbind. destruct m' as [[e|a]|]; simpl; [done|apply Hk|done]. }
  induction 1 as [|f fs Hf _ IH]; intros i; [done|]. simpl. destruct (negb _); [by apply IH|]. pose proof (size_deref (f_type f)).
  apply Hb; [|intros; apply IH]. unfold buildAnonymousFieldInfo, buildNamedFieldInfo.
  destruct (Anonymous f), (Deref (f_type f)) as [| | |e|e|] eqn:E; simpl in *; try done; try (pose proof (size_deref e));
    try (apply Hb; [apply rec_eq; simpl; lia|done]).
  apply Hb; [|done]. apply Hb; [apply rec_eq; lia|done].
Qed.
End ext.

(** More fuel gives the same info. *)
Lemma build_fuel d : forall d' t name, (size t < d)%nat -> (size t < d')%nat -> build d t name = build d' t name.
Proof.
  induction d as [|d IH]; intros [|d'] t name H1 H2; try lia. pose proof (size_deref t). cbn [buildFieldsInfo].
  destruct (Deref t) as [| | |e|e|n fs]; try done; try (pose proof (size_deref e); simpl in *; apply IH; lia).
  apply (struct_ext _ _ (Nat.min d d')); [intros; apply IH; lia|].
  apply Forall_forall. intros f Hf. apply (size_field n) in Hf. lia.
Qed.

Section load.
Context {F : Type} `{!Float64 F} (ParseFloat ParseFloat32 : text -> option F) (MaxFloat64 negMaxFloat64 : F).
Context (f_eqb f_le : F -> F -> bool) (Repr : @any F -> text).
Context (f_zero overflows32 : F -> bool) (f_round32 : F -> F) (ParseDuration : text -> option Z) (Env : text -> text).
Context (json_any : text -> store -> (text + input) * store) (json_slice : text -> store -> (text + list input) * store).
Context (json_map : text -> gtype -> gval F -> text + gval F).
Context (MapKeys : gmap text input -> list (text * input)) (decode_map : text -> text + list (text * json)).
Hypothesis json_map_typed : forall s t old v, has_type t old -> json_map s t old = inr v -> has_type t v.

Notation load := (LoadFromJsonBytes toLowerCase range ParseFloat ParseFloat32 MaxFloat64 negMaxFloat64 f_eqb f_le Repr f_zero overflows32
  f_round32 ParseDuration Env json_any json_slice json_map MapKeys decode_map).

(** Loading a configuration always ends: with an error, with a value of the type of the target, or with one of the panics of the
    unmarshaler. *)
Theorem config_load_typed content t v cache req : type_ok jsonTagKey t -> has_type t v ->
  exists n r, (forall m, (n <= m)%nat -> load m content t v cache req = r) /\
    match r with Ok (inr v') => has_type t v' | Ok (inl _) => True | Panic msg => msg ∈ known_panics end.
Proof.
  intros Ht Hv. set (d := S (size t)). destruct (build_built d t []) as (ri & Hri & _); [lia|].
  assert (forall m, (d <= m)%nat -> build m t [] = Ok ri) as Hb by (intros m Hm; rewrite <- Hri; apply build_fuel; lia).
  unfold LoadFromJsonBytes. destruct ri as [e|info].
  { exists d, (Ok (inl (Conflict e))). split; [|done]. intros m Hm. by rewrite Hb. }
  destruct (decode_map content) as [msg|doc] eqn:Ed.
  { exists d, (Ok (inl (BadContent msg))). split; [|done]. intros m Hm. by rewrite Hb. }
  destruct (alloc (JMap (lower_map doc info)) [∅]) as [i ms] eqn:Ea.
  destruct (unmarshal_ends ParseFloat ParseFloat32 MaxFloat64 negMaxFloat64 f_eqb f_le Repr f_zero overflows32 f_round32 ParseDuration Env
    json_any json_slice json_map MapKeys (config_unmarshaler toLowerCase) json_map_typed i t v Ht Hv (mkStore ms cache req)) as (n & r & Hn & Hr).
  exists (Nat.max d n), (loaded r). split.
  - intros m Hm. rewrite Hb by lia. cbn [obind]. cbv zeta. rewrite Ea, Hn by lia. done.
  - destruct r as [[[e|v'] s]|msg]; done.
Qed.
End load.
End conf.

(** ** Runs *)

Lemma ToLower_idempotent s : ToLower (ToLower s) = ToLower s.
Proof.
  unfold ToLower. rewrite map_map. apply map_ext. intros c. change (rn "A") with 65. change (rn "Z") with 90.
  destruct ((65 <=? c) && (c <=? 90)) eqn:E; [|by rewrite E]. apply andb_true_iff in E as [E1%Z.leb_le E2%Z.leb_le].
  destruct (Z.leb_spec 65 (c + 32)), (Z.leb_spec (c + 32) 90); simpl; lia.
Qed.

Definition named_ex (name : string) (t : gtype) : gfield := mkField (rs name) true false t [].
(** A field, an embedded struct with another, and a map of maps of structs *)
Definition base_ex : gtype := TStruct (rs "Base") [named_ex "Port" (TPrim GoInt)].
Definition config_fields : list gfield :=
  [named_ex "Host" (TPrim KString); mkField (rs "Base") true true base_ex [];
   named_ex "Groups" (TMap (TMap (TStruct (rs "S") [named_ex "Name" (TPrim KString)])))].
Definition config_ex : gtype := TStruct (rs "Config") config_fields.
Definition info_ex : fieldInfo :=
  match buildFieldsInfo ToLower map_to_list 6 config_ex [] with Ok (inr i) => i | _ => no_info end.

Lemma config_keys_any_case_witness :
  (size config_ex < 6)%nat /\ buildFieldsInfo ToLower map_to_list 6 config_ex [] = Ok (inr info_ex) /\
  is_Some (children info_ex !! rs "port") /\
  get_key (rs "port") (toLowerCaseKeyMap ToLower [(rs "PORT", JNumber (rs "1")); (rs "Port", JNumber (rs "2"))] info_ex) = Some (JNumber (rs "2")) /\
  toLowerCaseKeyMap ToLower [(rs "HOST", JString (rs "h"))] info_ex = toLowerCaseKeyMap ToLower [(rs "hosT", JString (rs "h"))] info_ex.
Proof.
  assert (size config_ex < 6)%nat as Hs by (simpl; lia).
  assert (buildFieldsInfo ToLower map_to_list 6 config_ex [] = Ok (inr info_ex)) as Hb by (by vm_compute).
  destruct (config_keys_any_case ToLower map_to_list ToLower_idempotent (fun m => reflexivity _) (rs "Config") config_fields 6 [] Hs) as (r & Hr & Hi).
  assert (r = inr info_ex) as Hri by (assert (Ok r = Ok (inr info_ex)) as H by exact (eq_trans (eq_sym Hr) Hb); by injection H).
  destruct (Hi info_ex Hri) as (Hk & Hl & Hc). split; [exact Hs|]. split; [exact Hb|]. split.
  { apply Hk. by vm_compute. }
  split.
  - assert (children info_ex !! rs "port" = Some no_info) as Hp by (by vm_compute).
    rewrite (Hl _ _ _ Hp). by vm_compute.
  - apply Hc. vm_compute. exact (conj (conj eq_refl eq_refl) I).
Defined.

(** Finding: the keys of a map in a map are data, but are changed where they are the name of a field of the elements. *)
Example inner_map_key_lowered :
  toLowerCaseKeyMap ToLower [(rs "groups", JMap [(rs "g", JMap [(rs "Name", JNull)])])] info_ex =
    [(rs "groups", JMap [(rs "g", JMap [(rs "name", JNull)])])].
Proof. by vm_compute. Qed.

(** Finding: of two entries whose keys differ in case the one that comes last is taken, and the code ranges over a Go map, whose order is random. *)
Example keys_of_two_cases :
  toLowerCaseKeyMap ToLower [(rs "Host", JString (rs "a")); (rs "host", JString (rs "b"))] info_ex = [(rs "host", JString (rs "b"))] /\
  toLowerCaseKeyMap ToLower [(rs "host", JString (rs "b")); (rs "Host", JString (rs "a"))] info_ex = [(rs "host", JString (rs "a"))].
Proof. by vm_compute. Qed.

(** Finding: an empty array of the document becomes a nil slice. *)
Example empty_array_is_nil : toLowerCaseKeyMap ToLower [(rs "x", JMap [(rs "host", JSlice [])])] info_ex = [(rs "x", JMap [(rs "host", JNilSlice)])].
Proof. by vm_compute. Qed.
