(* ===== verification/Sqlx.v ===== *)
(** * [core/stores/sqlx]: statements with their arguments written in, bulk inserts and transactions

    [utils.go], [bulkinserter.go] and [transactOnConn] of [tx.go].  Texts are lists of runes; [format] works on bytes,
    but what it looks for is ASCII and it copies everything else.  What [mapping.Repr] and [String] of a time give is
    part of the argument.  The executor of a bulk inserter is the one of [Executors.v], for which [dbInserter] is a
    container. *)

From Stdlib Require Import Ascii String.
From S2P Require Import Prelude Token Strings Executors Breaker Mapping.
Local Open Scope Z_scope.
Local Open Scope go_scope.

(** ** [utils.go] *)

Variant sql_error :=
| TooFewArguments (need have : nat) | WrongIndex (i : Z) | BadIndex (e : num_error) (s : text) | errUnbalancedEscape
| NotMatching (used : nat) | BadSql (stmt : text) | NoVariables (stmt : text) | VariablesMismatch (stmt : text).

Definition backslash : rune := 92.
Definition doubleQuote : rune := 34.
Definition singleQuote : rune := rn "'".
Definition backquote : rune := rn "`".

(** [desensitize]: what follows the last @, if anything *)
Fixpoint after_last (c : rune) (s : text) : option text :=
  match s with
  | [] => None
  | x :: s => match after_last c s with Some r => Some r | None => if x =? c then Some s else None end
  end.
Definition desensitize (datasource : text) : text :=
  match after_last (rn "@") datasource with Some (c :: s) => c :: s | _ => datasource end.

Definition escape_rune (ch : rune) : text :=
  if ch =? 0 then rs "\x00"
  else if ch =? 13 then rs "\r"
  else if ch =? 10 then rs "\n"
  else if ch =? backslash then [backslash; backslash]
  else if ch =? singleQuote then [backslash; singleQuote]
  else if ch =? doubleQuote then [backslash; doubleQuote]
  else if ch =? 26 then rs "\x1a"
  else [ch].
Definition escape (input : text) : text := flat_map escape_rune input.

(** An argument: of type bool, string, time or pointer to a time, and others by their [Repr] *)
Variant arg := ABool (b : bool) | AString (s : text) | ATime (s : text) | AOther (s : text).
Definition writeValue (a : arg) : text :=
  match a with
  | ABool b => rs (if b then "1" else "0")
  | AString s => singleQuote :: escape s ++ [singleQuote]
  | ATime s => singleQuote :: s ++ [singleQuote]
  | AOther s => s
  end.

(** The loop over a quoted text: what it writes, and the rest when the quote is closed *)
Definition write {A} (c : text) (r : sql_error + text * A) : sql_error + text * A :=
  match r with inl e => inl e | inr (w, a) => inr (c ++ w, a) end.
Fixpoint quoted (ch : rune) (l : text) : sql_error + text * option text :=
  match l with
  | [] => inr ([], None)
  | cur :: l =>
    if cur =? backslash then match l with [] => inl errUnbalancedEscape | c :: l => write [cur; c] (quoted ch l) end
    else if cur =? ch then inr ([cur], Some l)
    else write [cur] (quoted ch l)
  end.

(** The digits in front of a text *)
Definition isNum (c : rune) : bool := (rn "0" <=? c) && (c <=? rn "9").
Fixpoint span_num (l : text) : text * text :=
  match l with
  | c :: r => if isNum c then (c :: (span_num r).1, (span_num r).2) else ([], l)
  | [] => ([], [])
  end.

Definition isQuote (c : rune) : bool := (c =? singleQuote) || (c =? doubleQuote) || (c =? backquote).

Definition emit (c : text) (r : outcome (sql_error + text)) : outcome (sql_error + text) :=
  match r with Ok (inr w) => Ok (inr (c ++ w)) | _ => r end.

(** The loop of [format] over the rest of the query.  A quote that is not closed leaves the index where it was, after
    the rest of the query was written. *)
Fixpoint format_loop (fuel : nat) (args : list arg) (l : text) (argIndex : nat) : outcome (sql_error + text) :=
  match fuel with
  | O => Panic "out of fuel"
  | S fuel =>
    match l with
    | [] => if (argIndex <? length args)%nat then Ok (inl (NotMatching argIndex)) else Ok (inr [])
    | ch :: l =>
      if ch =? rn "?" then
        match args !! argIndex with
        | None => Ok (inl (TooFewArguments (S argIndex) (length args)))
        | Some a => emit (writeValue a) (format_loop fuel args l (S argIndex))
        end
      else if (ch =? rn ":") || (ch =? rn "$") then
        match span_num l with
        | ([], _) => format_loop fuel args l argIndex
        | (ds, l) =>
          match ParseInt ds 64 with
          | inl e => Ok (inl (BadIndex e ds))
          | inr index =>
            let argIndex := Nat.max argIndex (Z.to_nat index) in
            match (if index <=? 0 then None else args !! Z.to_nat (index - 1)) with
            | None => Ok (inl (WrongIndex (index - 1)))
            | Some a => emit (writeValue a) (format_loop fuel args l argIndex)
            end
          end
        end
      else if isQuote ch then
        match quoted ch l with
        | inl e => Ok (inl e)
        | inr (w, Some l) => emit (ch :: w) (format_loop fuel args l argIndex)
        | inr (w, None) => emit (ch :: w) (format_loop fuel args l argIndex)
        end
      else emit [ch] (format_loop fuel args l argIndex)
    end
  end.

Definition format (query : text) (args : list arg) : outcome (sql_error + text) :=
  match args with [] => Ok (inr query) | _ => format_loop (S (length query)) args query 0 end.

(** ** [bulkinserter.go] *)

Definition valuesKeyword : text := rs "values".

(** [strings.Index], [IndexByte] and [LastIndexByte] *)
Fixpoint Index (s p : text) : Z :=
  if HasPrefix s p then 0 else match s with [] => -1 | _ :: s => let i := Index s p in if i <? 0 then -1 else i + 1 end.
Definition IndexByte (s : text) (c : rune) : Z := Index s [c].
Fixpoint LastIndexByte (s : text) (c : rune) : Z :=
  match s with
  | [] => -1
  | x :: s => let i := LastIndexByte s c in if 0 <=? i then i + 1 else if x =? c then 0 else -1
  end.
(** [s[lo:hi]] *)
Definition sub (s : text) (lo hi : Z) : text := take (Z.to_nat (hi - lo)) (drop (Z.to_nat lo) s).

Record bulkStmt := mkBulkStmt { prefix : text; valueFormat : text; suffix : text }.

(** The fields between commas, but for empty ones *)
Definition FieldsFunc (s : text) (c : rune) : list text := List.filter (fun f => match f with [] => false | _ => true end) (Split s c).

(** The number of columns, and what is found of the values: their number, format and suffix *)
Definition count_columns (lower : text) (pos : Z) : Z :=
  let right := LastIndexByte (sub lower 0 pos) (rn ")") in
  if 0 <? right then
    let left := LastIndexByte (sub lower 0 right) (rn "(") in
    if 0 <? left then
      let values := List.filter (fun r => negb ((r =? 32) || (r =? 9) || (r =? 13) || (r =? 10))) (sub lower (left + 1) right) in
      Z.of_nat (length (FieldsFunc values (rn ",")))
    else 0
  else 0.
Definition find_values (stmt lower : text) (pos : Z) : Z * text * text :=
  let left := IndexByte (drop (Z.to_nat pos) lower) (rn "(") in
  if 0 <? left then
    let right := IndexByte (drop (Z.to_nat (pos + left)) lower) (rn ")") in
    if 0 <? right then
      (Z.of_nat (length (List.filter (fun x => x =? rn "?") (sub lower (pos + left) (pos + left + right)))),
       sub stmt (pos + left) (pos + left + right + 1), TrimSpace (drop (Z.to_nat (pos + left + right + 1)) stmt))
    else (0, [], [])
  else (0, [], []).

(** Letters whose lower case has another length are not modelled. *)
Definition parseInsertStmt (stmt : text) : sql_error + bulkStmt :=
  let lower := ToLower stmt in
  let pos := Index lower valuesKeyword in
  if pos <=? 0 then inl (BadSql stmt)
  else
    let columns := count_columns lower pos in
    let '(variables, valueFormat, suffix) := find_values stmt lower pos in
    if variables =? 0 then inl (NoVariables stmt)
    else if (0 <? columns) && negb (columns =? variables) then inl (VariablesMismatch stmt)
    else inr (mkBulkStmt (sub stmt 0 (pos + Z.of_nat (length valuesKeyword))) valueFormat suffix).

Definition maxBulkRows : nat := 1000.

(** [dbInserter]: the statement and the values *)
Record dbInserter := mkInserter { in_stmt : bulkStmt; in_values : list text }.
Definition inserter_AddTask (task : text) (i : dbInserter) : dbInserter * bool :=
  let values := in_values i ++ [task] in (mkInserter (in_stmt i) values, (maxBulkRows <=? length values)%nat).
Definition inserter_RemoveAll (i : dbInserter) : list text * dbInserter := (in_values i, mkInserter (in_stmt i) []).
(** [strings.Join] *)
Fixpoint JoinWith (sep : text) (l : list text) : text :=
  match l with [] => [] | [x] => x | x :: l => x ++ sep ++ JoinWith sep l end.
(** The statement [Execute] runs for a batch, if any *)
Definition Execute (stmt : bulkStmt) (values : list text) : option text :=
  match values with
  | [] => None
  | _ =>
    let s := JoinWith (rs " ") [prefix stmt; JoinWith (rs ", ") values] in
    Some (match suffix stmt with [] => s | x => JoinWith (rs " ") [s; x] end)
  end.

#[export] Instance db_inserter : TaskContainer text text dbInserter := {
  AddTask := inserter_AddTask;
  RemoveAll := inserter_RemoveAll;
  held := in_values;
  value_of := id;
  container_ok i := (length (in_values i) < maxBulkRows)%nat;
  batch_ok b := (length b <= maxBulkRows)%nat
}.
#[export] Instance db_inserter_laws : TaskContainerLaws text text dbInserter.
Proof.
  split; cbn -[maxBulkRows Nat.leb]; try done.
  - intros t i Hi Hf. by apply Nat.leb_gt in Hf.
  - intros t i Hi. rewrite length_app. simpl. unfold maxBulkRows in *. lia.
  - intros i _. unfold maxBulkRows. lia.
  - intros i Hi. lia.
Qed.

(** [Insert] of a bulk inserter: the task it adds *)
Definition Insert (stmt : bulkStmt) (args : list arg) : outcome (sql_error + text) := format (valueFormat stmt) args.

(** ** [transactOnConn] *)

Section transaction.
Context {E P : Type}.
(** How a function ends: it returns, panics, or ends its goroutine ([runtime.Goexit]) *)
Variant ending := Returns (e : option E) | Panics (p : P) | Exits.
Variant db_call := Begin | Run | Commit | Rollback.
Variant tx_error :=
| FnError (e : E) | BeginError (e : E) | CommitError (e : E) | Recovered (p : P) | RecoveredRollback (p : P) (e : E)
| FailedRollback (e e' : E).

(** The calls made and the error returned ([None] also when the goroutine ends); the answers of [begin], of [fn], and of
    [Commit] or [Rollback] are arguments. *)
Definition transactOnConn (begin : option E) (fn : ending) (commit rollback : option E) : list db_call * option tx_error :=
  match begin with
  | Some e => ([Begin], Some (BeginError e))
  | None =>
    match fn with
    | Panics p => ([Begin; Run; Rollback], Some (match rollback with Some e => RecoveredRollback p e | None => Recovered p end))
    | Returns (Some err) => ([Begin; Run; Rollback], Some (match rollback with Some e => FailedRollback err e | None => FnError err end))
    | Returns None | Exits => ([Begin; Run; Commit], match commit with Some e => Some (CommitError e) | None => None end)
    end
  end.
End transaction.
