(* ===== verification/SqlxCorrect.v ===== *)
(** * Statements with arguments: the theorems of [Sqlx.v]

    A query is read as a list of pieces: characters, quoted texts, question marks, numbered references, and colons or
    dollars without a number.  Every query with closed quotes is one such list, and only one; [format] replaces the
    question marks and references among the pieces. *)

From Stdlib Require Import Ascii String.
From S2P Require Import Prelude Token Strings Executors Breaker Mapping Sqlx.
Local Open Scope Z_scope.
Local Open Scope go_scope.

(** ** Pieces *)

(** A quoted text is of plain runes and of pairs of a backslash and a rune. *)
Variant item := Plain (c : rune) | Esc (c : rune).
Variant piece := Char (c : rune) | Quoted (q : rune) (body : list item) | Hole | Ref (c : rune) (ds : text) | Colon (c : rune).

Definition print_item (i : item) : text := match i with Plain c => [c] | Esc c => [backslash; c] end.
Definition print_items (body : list item) : text := flat_map print_item body.
Definition print_piece (p : piece) : text :=
  match p with
  | Char c | Colon c => [c]
  | Quoted q body => q :: print_items body ++ [q]
  | Hole => [rn "?"]
  | Ref c ds => c :: ds
  end.
Definition print (ps : list piece) : text := flat_map print_piece ps.

Definition isSep (c : rune) : bool := (c =? rn ":") || (c =? rn "$").
Definition ordinary (c : rune) : Prop := c <> rn "?" /\ isSep c = false /\ isQuote c = false.
Definition plain (q c : rune) : Prop := c <> backslash /\ c <> q.
Definition item_ok (q : rune) (i : item) : Prop := match i with Plain c => plain q c | Esc _ => True end.
(** No number begins here. *)
Definition no_number (l : text) : Prop := match l with c :: _ => isNum c = false | [] => True end.
(** A piece in front of a text *)
Definition piece_ok (p : piece) (rest : text) : Prop :=
  match p with
  | Char c => ordinary c
  | Quoted q body => isQuote q = true /\ Forall (item_ok q) body
  | Hole => True
  | Ref c ds => isSep c = true /\ ds <> [] /\ Forall (fun d => isNum d = true) ds /\ no_number rest
  | Colon c => isSep c = true /\ no_number rest
  end.
Fixpoint pieces_ok (ps : list piece) : Prop :=
  match ps with [] => True | p :: ps => piece_ok p (print ps) /\ pieces_ok ps end.
(** Pieces that [format] leaves as they are *)
Definition literal (p : piece) : Prop :=
  match p with Char c => ordinary c | Quoted q body => isQuote q = true /\ Forall (item_ok q) body | _ => False end.

(** The pieces of the value of an argument, which is ordinary when it is not a string *)
Definition escape_items (ch : rune) : list item :=
  if ch =? 0 then [Esc (rn "x"); Plain (rn "0"); Plain (rn "0")]
  else if ch =? 13 then [Esc (rn "r")]
  else if ch =? 10 then [Esc (rn "n")]
  else if (ch =? backslash) || (ch =? singleQuote) || (ch =? doubleQuote) then [Esc ch]
  else if ch =? 26 then [Esc (rn "x"); Plain (rn "1"); Plain (rn "a")]
  else [Plain ch].
Definition value (a : arg) : list piece :=
  match a with
  | ABool b => [Char (if b then rn "1" else rn "0")]
  | AString s => [Quoted singleQuote (flat_map escape_items s)]
  | ATime s => [Quoted singleQuote (Plain <$> s)]
  | AOther s => Char <$> s
  end.
Definition arg_ok (a : arg) : Prop :=
  match a with ABool _ | AString _ => True | ATime s => Forall (plain singleQuote) s | AOther s => Forall ordinary s end.

(** What [format] is to do with the pieces, after [k] arguments *)
Definition append (p : list piece) (r : sql_error + list piece) : sql_error + list piece :=
  match r with inl e => inl e | inr ps => inr (p ++ ps) end.
Fixpoint fill (args : list arg) (k : nat) (ps : list piece) : sql_error + list piece :=
  match ps with
  | [] => if (k <? length args)%nat then inl (NotMatching k) else inr []
  | Hole :: ps =>
    match args !! k with None => inl (TooFewArguments (S k) (length args)) | Some a => append (value a) (fill args (S k) ps) end
  | Ref _ ds :: ps =>
    match ParseInt ds 64 with
    | inl e => inl (BadIndex e ds)
    | inr i =>
      match (if i <=? 0 then None else args !! Z.to_nat (i - 1)) with
      | None => inl (WrongIndex (i - 1))
      | Some a => append (value a) (fill args (Nat.max k (Z.to_nat i)) ps)
      end
    end
  | Colon _ :: ps => fill args k ps
  | p :: ps => append [p] (fill args k ps)
  end.

(** ** Quoted texts *)

Lemma quoted_print q body rest : isQuote q = true -> Forall (item_ok q) body ->
  quoted q (print_items body ++ q :: rest) = inr (print_items body ++ [q], Some rest).
Proof.
  intros Hq. assert ((q =? backslash) = false) as Hb by (destruct (Z.eqb_spec q backslash) as [->|]; done).
  induction 1 as [|[c|c] body Hi _ IH]; simpl; [by rewrite Hb, Z.eqb_refl| |].
  - destruct Hi as [H1%Z.eqb_neq H2%Z.eqb_neq]. by rewrite H1, H2, IH.
  - by rewrite IH.
Qed.

(** The items up to the closing quote, if there is one *)
Definition add_item (i : item) (r : option (list item * text)) : option (list item * text) :=
  match r with Some (b, rest) => Some (i :: b, rest) | None => None end.
Fixpoint read_items (q : rune) (l : text) : option (list item * text) :=
  match l with
  | [] => None
  | c :: l =>
    if c =? backslash then match l with [] => None | d :: l => add_item (Esc d) (read_items q l) end
    else if c =? q then Some ([], l)
    else add_item (Plain c) (read_items q l)
  end.
Lemma quote_backslash q : isQuote q = true -> (q =? backslash) = false.
Proof. intros Hq. by destruct (Z.eqb_spec q backslash) as [->|]. Qed.
Lemma read_items_print q body rest : isQuote q = true -> Forall (item_ok q) body ->
  read_items q (print_items body ++ q :: rest) = Some (body, rest).
Proof.
  intros Hq. induction 1 as [|[c|c] body Hi _ IH]; simpl; [by rewrite quote_backslash, Z.eqb_refl| |by rewrite IH].
  destruct Hi as [H1%Z.eqb_neq H2%Z.eqb_neq]. by rewrite H1, H2, IH.
Qed.
(** Without a closing quote [quoted] fails or writes all of the text. *)
Definition unclosed (q : rune) (l : text) : Prop := quoted q l = inl errUnbalancedEscape \/ quoted q l = inr (l, None).
Lemma read_items_ok q : isQuote q = true -> forall l,
  match read_items q l with Some (b, rest) => Forall (item_ok q) b /\ l = print_items b ++ q :: rest | None => unclosed q l end.
Proof.
  intros Hq l. unfold unclosed. induction l as [l IH] using (induction_ltof1 _ length). unfold ltof in IH.
  destruct l as [|c l]; simpl; [by right|]. destruct (Z.eqb_spec c backslash) as [->|Hb].
  - destruct l as [|d l]; [by left|]. specialize (IH l ltac:(simpl; lia)). destruct (read_items q l) as [[b rest]|]; simpl.
    + destruct IH as [Hb ->]. by split; [constructor|].
    + destruct IH as [->| ->]; [by left|by right].
  - destruct (Z.eqb_spec c q) as [->|Hc]; [by split|]. specialize (IH l ltac:(simpl; lia)).
    destruct (read_items q l) as [[b rest]|]; simpl.
    + destruct IH as [Hi ->]. by split; [constructor|].
    + destruct IH as [->| ->]; [by left|by right].
Qed.

Lemma span_num_eq l : l = (span_num l).1 ++ (span_num l).2 /\ Forall (fun d => isNum d = true) (span_num l).1 /\ no_number (span_num l).2.
Proof.
  induction l as [|c l (IH1 & IH2 & IH3)]; [done|]. simpl. destruct (isNum c) eqn:E; simpl; [|by rewrite E].
  split_and!; [by f_equal|by constructor|done].
Qed.
Lemma span_num_app ds rest : Forall (fun d => isNum d = true) ds -> no_number rest -> span_num (ds ++ rest) = (ds, rest).
Proof.
  intros Hds Hr. induction Hds as [|d ds Hd _ IH]; simpl; [|by rewrite Hd, IH].
  destruct rest as [|c rest]; [done|]. simpl in *. by rewrite Hr.
Qed.

Lemma span_num_none rest : no_number rest -> span_num rest = ([], rest).
Proof. apply (span_num_app [] rest). constructor. Qed.

(** ** Values *)

Lemma escape_print s : print_items (flat_map escape_items s) = escape s.
Proof.
  unfold escape, print_items. induction s as [|c s IH]; [done|]. simpl. rewrite flat_map_app, IH. f_equal.
  unfold escape_items, escape_rune. destruct (Z.eqb_spec c 0), (Z.eqb_spec c 13), (Z.eqb_spec c 10), (Z.eqb_spec c backslash),
    (Z.eqb_spec c singleQuote), (Z.eqb_spec c doubleQuote), (Z.eqb_spec c 26); subst; done.
Qed.
Lemma value_print a : print (value a) = writeValue a.
Proof.
  unfold print. destruct a as [[]|s|s|s]; simpl; rewrite ?app_nil_r; [done..| | |].
  - by rewrite escape_print.
  - do 2 f_equal. induction s as [|c s IH]; simpl; [done|]. by f_equal.
  - induction s as [|c s IH]; simpl; [done|]. by f_equal.
Qed.
Lemma value_literal a : arg_ok a -> Forall literal (value a).
Proof.
  destruct a as [b|s|s|s]; simpl; intros Ha; [by destruct b; repeat constructor|..].
  - constructor; [|done]. split; [done|]. apply Forall_flat_map. induction s as [|c s IH]; constructor; [|done].
    unfold escape_items. destruct (Z.eqb_spec c 0), (Z.eqb_spec c 13), (Z.eqb_spec c 10), (Z.eqb_spec c backslash),
      (Z.eqb_spec c singleQuote), (Z.eqb_spec c doubleQuote), (Z.eqb_spec c 26); repeat constructor; done.
  - constructor; [|done]. split; [done|]. by apply Forall_fmap.
  - by apply Forall_fmap.
Qed.

(** ** Reading a query *)

Lemma ordinary_tests c : ordinary c -> (c =? rn "?") = false /\ (c =? rn ":") || (c =? rn "$") = false /\ isQuote c = false.
Proof. intros (Hh%Z.eqb_neq & Hs & Hq). done. Qed.
Lemma sep_tests c : isSep c = true -> (c =? rn "?") = false /\ (c =? rn ":") || (c =? rn "$") = true.
Proof. intros Hs. split; [|done]. unfold isSep in Hs. destruct (Z.eqb_spec c (rn "?")) as [->|]; done. Qed.
Lemma quote_tests c : isQuote c = true -> (c =? rn "?") = false /\ (c =? rn ":") || (c =? rn "$") = false.
Proof.
  unfold isQuote. intros [[->%Z.eqb_eq| ->%Z.eqb_eq]%orb_true_iff| ->%Z.eqb_eq]%orb_true_iff; done.
Qed.

Definition written (r : sql_error + list piece) : outcome (sql_error + text) :=
  Ok (match r with inl e => inl e | inr ps => inr (print ps) end).
Lemma emit_written p t r : print p = t -> emit t (written r) = written (append p r).
Proof. intros <-. destruct r as [e|ps]; [done|]. unfold written, print. simpl. by rewrite flat_map_app. Qed.

Lemma format_loop_pieces args ps : forall fuel k, pieces_ok ps -> (length (print ps) < fuel)%nat ->
  format_loop fuel args (print ps) k = written (fill args k ps).
Proof.
  induction ps as [|p ps IH]; intros [|fuel] k; simpl; intros Hok Hf; try lia; [by destruct (_ <? _)%nat|].
  destruct Hok as [Hp Hok]. fold (print ps) in *. rewrite length_app in Hf.
  destruct p as [c|q body| |c ds|c]; simpl in *.
  - destruct (ordinary_tests c Hp) as (-> & -> & ->). rewrite IH by (done || lia). by apply emit_written.
  - destruct Hp as [Hq Hb]. destruct (quote_tests q Hq) as [-> ->]. rewrite Hq, <- app_assoc. simpl.
    rewrite quoted_print by done. rewrite IH; [|done|rewrite length_app in Hf; simpl in Hf; lia].
    apply emit_written. unfold print. simpl. by rewrite app_nil_r.
  - destruct (args !! k) as [a|]; [|done]. rewrite IH by (done || lia). apply emit_written, value_print.
  - destruct Hp as (Hs & Hn & Hds & Hr). destruct (sep_tests c Hs) as [-> ->]. rewrite span_num_app by done.
    destruct ds as [|d ds]; [done|]. destruct (ParseInt (d :: ds) 64) as [e|i]; [done|].
    destruct (if i <=? 0 then None else _) as [a|]; [|done]. rewrite IH by (done || lia). apply emit_written, value_print.
  - destruct Hp as [Hs Hr]. destruct (sep_tests c Hs) as [-> ->]. rewrite span_num_none by done. rewrite IH by (done || lia). done.
Qed.

(** The first piece of a text and what follows, but for a quote that is not closed *)
Definition next (l : text) : option (piece * text) :=
  match l with
  | [] => None
  | c :: l =>
    if c =? rn "?" then Some (Hole, l)
    else if isSep c then match span_num l with ([], _) => Some (Colon c, l) | (ds, l) => Some (Ref c ds, l) end
    else if isQuote c then match read_items c l with Some (b, l) => Some (Quoted c b, l) | None => None end
    else Some (Char c, l)
  end.
Lemma next_print p rest : piece_ok p rest -> next (print_piece p ++ rest) = Some (p, rest).
Proof.
  destruct p as [c|q body| |c ds|c]; simpl; intros Hp; [..|done| |].
  - unfold isSep. by destruct (ordinary_tests c Hp) as (-> & -> & ->).
  - destruct Hp as [Hq Hb]. unfold isSep. destruct (quote_tests q Hq) as [-> ->]. rewrite Hq, <- app_assoc. simpl.
    by rewrite read_items_print.
  - destruct Hp as (Hs & Hn & Hds & Hr). destruct (sep_tests c Hs) as [-> _]. rewrite Hs, span_num_app by done. by destruct ds.
  - destruct Hp as [Hs Hr]. destruct (sep_tests c Hs) as [-> _]. by rewrite Hs, span_num_none.
Qed.
Lemma next_ok l :
  match next l with
  | Some (p, rest) => piece_ok p rest /\ l = print_piece p ++ rest
  | None => l = [] \/ exists q body, l = q :: body /\ isQuote q = true /\ unclosed q body
  end.
Proof.
  destruct l as [|c l]; [by left|]. simpl. destruct (Z.eqb_spec c (rn "?")) as [->|Hh]; [done|].
  destruct (isSep c) eqn:Hs.
  - destruct (span_num_eq l) as (Hl & Hds & Hr). destruct (span_num l) as [ds rest]. simpl in *. destruct ds as [|d ds]; subst; done.
  - destruct (isQuote c) eqn:Hq; [|done]. pose proof (read_items_ok c Hq l) as Hr. destruct (read_items c l) as [[b rest]|].
    + destruct Hr as [Hb ->]. simpl. by rewrite <- app_assoc.
    + right. by eexists _, _.
Qed.

(** A text is read in one way. *)
Lemma pieces_inj ps1 : forall ps2, pieces_ok ps1 -> pieces_ok ps2 -> print ps1 = print ps2 -> ps1 = ps2.
Proof.
  induction ps1 as [|p1 ps1 IH]; intros [|p2 ps2] H1 H2; [done|by destruct p2|by destruct p1|].
  destruct H1 as [Hp1 H1], H2 as [Hp2 H2]. unfold print. simpl. fold (print ps1) (print ps2). intros He.
  apply next_print in Hp1, Hp2. rewrite He, Hp2 in Hp1. injection Hp1 as -> Hr. f_equal. by apply IH.
Qed.

(** Every query is a list of pieces, or ends in a quote that is not closed. *)
Lemma query_pieces q : exists ps, pieces_ok ps /\
  (q = print ps \/ exists c body, q = print ps ++ c :: body /\ isQuote c = true /\ unclosed c body).
Proof.
  induction q as [q IH] using (induction_ltof1 _ length). unfold ltof in IH. pose proof (next_ok q) as Hn.
  destruct (next q) as [[p rest]|].
  - destruct Hn as [Hp ->]. destruct (IH rest) as (ps & Hps & Hr); [rewrite length_app; destruct p; simpl; lia|].
    assert (piece_ok p (print ps)) as Hp'.
    { destruct Hr as [->|(c & body & -> & Hc & _)]; [done|]. destruct p; simpl in *; try done.
      - destruct Hp as (? & ? & ? & Hr). split_and!; try done. by destruct (print ps).
      - destruct Hp as (? & Hr). split_and!; try done. by destruct (print ps). }
    exists (p :: ps). split; [done|]. unfold print. simpl. fold (print ps).
    destruct Hr as [->|(c & body & -> & Hc & Hu)]; [by left|right]. exists c, body. by rewrite <- app_assoc.
  - exists []. split; [done|]. destruct Hn as [->|(c & body & -> & Hc)]; [by left|right]. by exists c, body.
Qed.

(** ** The properties of [format] *)

Lemma literal_ok ps : Forall literal ps -> pieces_ok ps.
Proof. induction 1 as [|p ps Hp _ IH]; [done|]. split; [|done]. by destruct p. Qed.

Lemma append_inr p r out : append p r = inr out -> exists ps, r = inr ps /\ out = p ++ ps.
Proof. destruct r as [e|ps]; [done|]. intros [= <-]. by eexists. Qed.
Lemma fill_literal args ps : Forall arg_ok args -> forall k out, pieces_ok ps -> fill args k ps = inr out -> Forall literal out.
Proof.
  intros Ha. assert (forall i a, args !! i = Some a -> Forall literal (value a)) as Hv.
  { intros i a Hi. apply value_literal. by eapply Forall_lookup_1. }
  induction ps as [|p ps IH]; simpl; intros k out Hok; [by destruct (_ <? _)%nat; intros [= <-]|].
  destruct Hok as [Hp Hok]. destruct p as [c|q body| |c ds|c].
  - intros (l & Hl & ->)%append_inr. apply Forall_app. split; [by constructor; [exact Hp|constructor]|by eapply IH].
  - intros (l & Hl & ->)%append_inr. apply Forall_app. split; [by constructor; [exact Hp|constructor]|by eapply IH].
  - destruct (args !! k) as [a|] eqn:E; [|done]. intros (l & Hl & ->)%append_inr. apply Forall_app. split; [by eapply Hv|by eapply IH].
  - destruct (ParseInt ds 64) as [e|i]; [done|]. destruct (i <=? 0); [done|]. destruct (args !! _) as [a|] eqn:E; [|done].
    intros (l & Hl & ->)%append_inr. apply Forall_app. split; [by eapply Hv|by eapply IH].
  - by apply IH.
Qed.


(** [format] always returns. *)
Theorem format_returns q args : exists r, format q args = Ok r.
Proof.
  assert (forall fuel l k, (length l < fuel)%nat -> exists r, format_loop fuel args l k = Ok r) as Hl.
  { assert (forall c r, (exists x, r = Ok x) -> exists x, emit c r = Ok x) as He by (intros c r [[e|w] ->]; by eexists).
    induction fuel as [|fuel IH]; intros [|c l] k Hf; simpl in *; try lia; [by destruct (_ <? _)%nat; eexists|].
    destruct (c =? rn "?"); [destruct (args !! k); [apply He, IH; lia|by eexists]|].
    destruct ((c =? rn ":") || (c =? rn "$")).
    - pose proof (proj1 (span_num_eq l)) as Hs. destruct (span_num l) as [[|d ds] rest]; [apply IH; lia|].
      apply (f_equal length) in Hs. rewrite length_app in Hs. simpl in Hs. destruct (ParseInt _ _) as [e|i]; [by eexists|].
      destruct (if i <=? 0 then None else _); [|by eexists]. apply He, IH. lia.
    - destruct (isQuote c) eqn:Hq; [|apply He, IH; lia]. pose proof (read_items_ok c Hq l) as Hr.
      destruct (read_items c l) as [[b rest]|].
      + destruct Hr as [Hb ->]. rewrite quoted_print by done. apply He, IH. rewrite length_app in Hf. simpl in Hf. lia.
      + destruct Hr as [-> | ->]; [by eexists|]. apply He, IH. lia. }
  unfold format. destruct args; [by eexists|]. apply Hl. lia.
Qed.

Lemma items_inj q b1 : forall b2, Forall (item_ok q) b1 -> Forall (item_ok q) b2 -> print_items b1 = print_items b2 -> b1 = b2.
Proof.
  induction b1 as [|i b1 IH]; intros [|j b2] H1 H2; simpl; [done|by destruct j|by destruct i|].
  apply Forall_cons in H1 as [Hi H1], H2 as [Hj H2].
  destruct i as [c|c], j as [d|d]; simpl in *; intros [= He]; subst; try (by destruct Hi); try (by destruct Hj); f_equal; by apply IH.
Qed.
Variant escape_view (c : rune) : list item -> Prop :=
| EscapedHex : c = 0 \/ c = 26 -> escape_view c [Esc (rn "x"); Plain (if c =? 0 then rn "0" else rn "1"); Plain (if c =? 0 then rn "0" else rn "a")]
| EscapedName : c = 13 \/ c = 10 -> escape_view c [Esc (if c =? 13 then rn "r" else rn "n")]
| EscapedItself : c = backslash \/ c = singleQuote \/ c = doubleQuote -> escape_view c [Esc c]
| NotEscaped : escape_view c [Plain c].
Lemma escape_items_view c : escape_view c (escape_items c).
Proof.
  unfold escape_items. destruct (Z.eqb_spec c 0) as [->|]; [by apply (EscapedHex 0); left|].
  destruct (Z.eqb_spec c 13) as [->|]; [by apply (EscapedName 13); left|].
  destruct (Z.eqb_spec c 10) as [->|]; [by apply (EscapedName 10); right|].
  destruct (Z.eqb_spec c backslash), (Z.eqb_spec c singleQuote), (Z.eqb_spec c doubleQuote); simpl; try (by constructor; auto).
  destruct (Z.eqb_spec c 26) as [->|]; [by apply (EscapedHex 26); right|constructor].
Qed.
Lemma escape_items_app c d r1 r2 : escape_items c ++ r1 = escape_items d ++ r2 -> c = d /\ r1 = r2.
Proof.
  destruct (escape_items_view c) as [[-> | ->]|[-> | ->]|[-> |[-> | ->]]|], (escape_items_view d) as [[-> | ->]|[-> | ->]|[-> |[-> | ->]]|];
    simpl; intros [= ]; subst; done.
Qed.
(** Escaping loses nothing. *)
Theorem escape_inj s1 s2 : escape s1 = escape s2 -> s1 = s2.
Proof.
  intros He. assert (forall s, Forall (item_ok singleQuote) (flat_map escape_items s)) as Hok.
  { intros s. pose proof (value_literal (AString s) I) as Hv. by apply Forall_cons in Hv as [[_ Hv] _]. }
  rewrite <- !escape_print in He. apply (items_inj singleQuote) in He; [|done..]. clear Hok. revert s2 He.
  induction s1 as [|c s1 IH]; intros [|d s2] He; simpl in He; [done|by destruct (escape_items_view d)|by destruct (escape_items_view c)|].
  apply escape_items_app in He as [-> He]. f_equal. by apply IH.
Qed.

(** ** Insert statements *)

Lemma HasPrefix_app s p : HasPrefix s p = true -> exists r, s = p ++ r.
Proof.
  revert s. induction p as [|c p IH]; intros [|d s]; simpl; try done; [by exists []|by eexists|].
  intros [->%Z.eqb_eq [r ->]%IH]%andb_true_iff. by exists r.
Qed.
Lemma HasPrefix_nil s : HasPrefix s [] = true.
Proof. by destruct s. Qed.
Lemma Index_found (s p : text) i : Index s p = i -> 0 <= i -> exists a r : text, s = a ++ p ++ r /\ i = Z.of_nat (length a).
Proof.
  revert i. induction s as [|c s IH]; intros i; cbn [Index].
  - destruct (HasPrefix [] p) eqn:E; [|intros <-; lia]. intros <- _. apply HasPrefix_app in E as [r E]. by exists [], r.
  - destruct (HasPrefix (c :: s) p) eqn:E; [intros <- _; apply HasPrefix_app in E as [r E]; by exists [], r|].
    destruct (Z.ltb_spec (Index s p) 0); [intros <- ?; lia|]. intros <- _. destruct (IH _ eq_refl ltac:(lia)) as (a & r & -> & Hi).
    exists (c :: a), r. split; [done|]. simpl. lia.
Qed.
Lemma IndexByte_found (s : text) (c : rune) i : IndexByte s c = i -> 0 <= i -> exists a r : text, s = a ++ c :: r /\ i = Z.of_nat (length a) /\ c ∉ a.
Proof.
  unfold IndexByte. revert i. induction s as [|d s IH]; intros i; [intros <-; simpl; intros ?; lia|].
  cbn [Index HasPrefix]. rewrite HasPrefix_nil, andb_true_r. destruct (Z.eqb_spec c d) as [->|Hd].
  { intros <- _. exists [], s. split_and!; [done..|]. apply not_elem_of_nil. }
  destruct (Z.ltb_spec (Index s [c]) 0); [intros <- ?; lia|]. intros <- _. destruct (IH _ eq_refl ltac:(lia)) as (a & r & -> & Hi & Hn).
  exists (d :: a), r. split_and!; [done|simpl; lia|]. by apply not_elem_of_cons.
Qed.

Lemma sub_middle (a m r : text) lo hi : lo = Z.of_nat (length a) -> hi = lo + Z.of_nat (length m) -> sub (a ++ m ++ r) lo hi = m.
Proof.
  intros -> ->. unfold sub. rewrite Nat2Z.id, drop_app_length.
  replace (Z.to_nat _) with (length m) by lia. apply take_app_length.
Qed.

(** The lower case of a rune that is no letter *)
Lemma ToLower_app_inv (s a b : text) : ToLower s = a ++ b -> exists s1 s2 : text, s = s1 ++ s2 /\ ToLower s1 = a /\ ToLower s2 = b.
Proof. intros H. apply map_eq_app in H as (s1 & s2 & -> & H1 & H2). by exists s1, s2. Qed.
Lemma ToLower_cons_inv (s : text) (c : rune) (b : text) : ToLower s = c :: b -> (c < rn "a" \/ rn "z" < c) -> exists s2 : text, s = c :: s2 /\ ToLower s2 = b.
Proof.
  intros H Hc. destruct s as [|d s]; [done|]. unfold ToLower in H. simpl map in H. injection H as Hd H. exists s. split; [|done]. f_equal.
  change (rn "A") with 65 in Hd. change (rn "Z") with 90 in Hd. change (rn "a") with 97 in Hc. change (rn "z") with 122 in Hc.
  destruct (Z.leb_spec 65 d), (Z.leb_spec d 90); simpl in Hd; lia.
Qed.
Lemma ToLower_elem s c : c ∈ s -> (c < rn "A" \/ rn "Z" < c) -> c ∈ ToLower s.
Proof.
  intros (s1 & s2 & ->)%list_elem_of_split Hc. unfold ToLower. rewrite map_app. apply elem_of_app. right. simpl map.
  replace (_ && _) with false; [left|]. change (rn "A") with 65 in *. change (rn "Z") with 90 in *.
  destruct (Z.leb_spec 65 c), (Z.leb_spec c 90); simpl; lia.
Qed.

(** A statement that is accepted is the prefix, which ends with the keyword, something without a bracket, the values in
    the first brackets after it, among them a question mark, and the rest, of which the suffix is without its white space. *)
Theorem parse_insert stmt b : parseInsertStmt stmt = inr b ->
  exists mid vals rest : text, stmt = prefix b ++ mid ++ valueFormat b ++ rest /\ suffix b = TrimSpace rest /\
    valueFormat b = rn "(" :: vals ++ [rn ")"] /\ (rn "(" ∉ mid) /\ (rn ")" ∉ vals) /\ rn "?" ∈ vals /\
    exists p, ToLower (prefix b) = p ++ valuesKeyword.
Proof.
  unfold parseInsertStmt. destruct (Z.leb_spec (Index (ToLower stmt) valuesKeyword) 0) as [|Hpos]; [done|].
  destruct (Index_found (ToLower stmt) valuesKeyword _ eq_refl) as (p & R & Hl & Hp); [lia|].
  set (pos := Index (ToLower stmt) valuesKeyword) in *. clearbody pos. unfold find_values.
  assert (drop (Z.to_nat pos) (ToLower stmt) = valuesKeyword ++ R) as ->.
  { rewrite Hl, Hp, Nat2Z.id. apply drop_app_length. }
  destruct (Z.ltb_spec 0 (IndexByte (valuesKeyword ++ R) (rn "("))) as [Hleft|]; [|done].
  destruct (IndexByte_found (valuesKeyword ++ R) (rn "(") _ eq_refl) as (a & r1 & Hr & Hal & Hna); [lia|].
  set (left := IndexByte (valuesKeyword ++ R) (rn "(")) in *. clearbody left.
  assert (exists mid, a = valuesKeyword ++ mid /\ R = mid ++ rn "(" :: r1) as (mid & -> & ->).
  { destruct (app_eq_inv _ _ _ _ Hr) as [(k & H1 & H2)|(k & H1 & H2)]; [|by exists k].
    destruct k as [|c k]; [exists []; by rewrite app_nil_r in H1; subst|]. exfalso. injection H2 as <- _.
    assert (rn "(" ∈ valuesKeyword) as Hin by (rewrite H1; apply elem_of_app; right; left).
    by vm_compute in Hin; repeat (apply elem_of_cons in Hin as [Hin|Hin]; [discriminate|]); apply elem_of_nil in Hin. }
  assert (drop (Z.to_nat (pos + left)) (ToLower stmt) = rn "(" :: r1) as ->.
  { replace (Z.to_nat (pos + left)) with (length (p ++ valuesKeyword ++ mid)) by (rewrite length_app; lia).
    rewrite Hl, !app_assoc, <- (app_assoc p valuesKeyword mid). apply drop_app_length. }
  destruct (Z.ltb_spec 0 (IndexByte (rn "(" :: r1) (rn ")"))) as [Hright|]; [|done].
  destruct (IndexByte_found (rn "(" :: r1) (rn ")") _ eq_refl) as (v & r2 & Hv & Hvl & Hnv); [lia|].
  set (right := IndexByte (rn "(" :: r1) (rn ")")) in *. clearbody right. destruct v as [|c v]; [simpl in Hvl; lia|]. injection Hv as <- ->.
  rewrite Hl in *. clear Hr.
  destruct (ToLower_app_inv _ _ _ Hl) as (p' & s1 & -> & Hp' & H1).
  destruct (ToLower_app_inv _ _ _ H1) as (kw' & s2 & -> & Hkw & H2).
  destruct (ToLower_app_inv _ _ _ H2) as (mid' & s3 & -> & Hmid & H3).
  destruct (ToLower_cons_inv _ _ _ H3 ltac:(left; done)) as (s4 & -> & H4).
  destruct (ToLower_app_inv _ _ _ H4) as (v' & s5 & -> & Hv' & H5).
  destruct (ToLower_cons_inv _ _ _ H5 ltac:(left; done)) as (rest & -> & H6).
  assert (forall a b, ToLower a = b -> length a = length b) as Hlen by (intros x y <-; unfold ToLower; by rewrite length_map).
  pose proof (Hlen _ _ Hp'). pose proof (Hlen _ _ Hkw). pose proof (Hlen _ _ Hmid). pose proof (Hlen _ _ Hv').
  rewrite length_app in Hal. simpl in Hvl.
  destruct (_ =? 0) eqn:Hvars; [done|]. destruct (_ && _); [done|]. intros [= <-]. cbn [prefix valueFormat suffix].
  exists mid', v', rest.
  assert (sub (p' ++ kw' ++ mid' ++ rn "(" :: v' ++ rn ")" :: rest) 0 (pos + Z.of_nat 6) = p' ++ kw') as ->.
  { rewrite app_assoc. apply (sub_middle [] (p' ++ kw')); [done|]. rewrite length_app. simpl in *. lia. }
  assert (sub (p' ++ kw' ++ mid' ++ rn "(" :: v' ++ rn ")" :: rest) (pos + left) (pos + left + right + 1) = rn "(" :: v' ++ [rn ")"]) as ->.
  { replace (p' ++ kw' ++ mid' ++ rn "(" :: v' ++ rn ")" :: rest) with ((p' ++ kw' ++ mid') ++ (rn "(" :: v' ++ [rn ")"]) ++ rest)
      by (by rewrite <- !app_assoc; simpl; rewrite <- app_assoc).
    apply sub_middle; rewrite ?length_app; simpl in *; rewrite ?length_app; simpl; lia. }
  split_and!.
  - by rewrite <- !app_assoc; simpl; rewrite <- app_assoc.
  - f_equal. replace (p' ++ kw' ++ mid' ++ rn "(" :: v' ++ rn ")" :: rest) with ((p' ++ kw' ++ mid' ++ rn "(" :: v' ++ [rn ")"]) ++ rest)
      by (by rewrite <- !app_assoc; simpl; rewrite <- app_assoc).
    replace (Z.to_nat _) with (length (p' ++ kw' ++ mid' ++ rn "(" :: v' ++ [rn ")"])); [apply drop_app_length|].
    rewrite !length_app. simpl. rewrite length_app. simpl. lia.
  - done.
  - intros Hin. apply Hna. apply elem_of_app. right. rewrite <- Hmid. apply ToLower_elem; [done|by left].
  - intros Hin. apply Hnv. right. rewrite <- Hv'. apply ToLower_elem; [done|by left].
  - assert (sub (p ++ valuesKeyword ++ mid ++ rn "(" :: v ++ rn ")" :: r2) (pos + left) (pos + left + right) = rn "(" :: v) as Hs.
    { replace (p ++ valuesKeyword ++ mid ++ rn "(" :: v ++ rn ")" :: r2) with ((p ++ valuesKeyword ++ mid) ++ (rn "(" :: v) ++ rn ")" :: r2)
        by (by rewrite <- !app_assoc). apply sub_middle; rewrite ?length_app; simpl in *; lia. }
    rewrite Hs in Hvars. destruct (List.filter _ (rn "(" :: v)) as [|c l] eqn:El; [done|].
    assert (In c (List.filter (fun x => x =? rn "?") (rn "(" :: v))) as [Hc ->%Z.eqb_eq]%filter_In by (rewrite El; by left).
    destruct Hc as [Hc|Hc]; [discriminate|]. apply list_elem_of_In, list_elem_of_split in Hc as (a & b & ->).
    destruct (ToLower_app_inv _ _ _ Hv') as (a' & b' & -> & _ & Hb). destruct (ToLower_cons_inv _ _ _ Hb ltac:(left; done)) as (b'' & -> & _).
    apply elem_of_app. right. left.
  - exists p. rewrite <- Hp', <- Hkw. unfold ToLower. by rewrite map_app.
Qed.

(** ** Transactions *)

(** A transaction that has begun runs [fn] once and is then either committed, exactly when [fn] neither failed nor
    panicked, or rolled back; there is no error only when the commit succeeded. *)
Theorem transaction_ends {E P} (begin : option E) (fn : @ending E P) commit rollback :
  match begin with
  | Some e => transactOnConn begin fn commit rollback = ([Begin], Some (BeginError e))
  | None => exists last err, transactOnConn begin fn commit rollback = ([Begin; Run; last], err) /\
      (last = Commit <-> fn = Returns None \/ fn = Exits) /\
      (last = Rollback <-> (exists e, fn = Returns (Some e)) \/ exists p, fn = Panics p) /\
      (err = None <-> last = Commit /\ commit = None)
  end.
Proof. destruct begin as [e|]; [done|]. destruct fn as [[e|]|p|], commit, rollback; simpl; eexists _, _; (split; [done|]); naive_solver. Qed.

(** ** Runs *)

(** "select ? from t where a = 'x?' and b = $2" *)
Definition pieces_ex : list piece :=
  (Char <$> rs "select ") ++ [Hole] ++ (Char <$> rs " from t where a = ") ++ [Quoted singleQuote [Plain (rn "x"); Plain (rn "?")]] ++
  (Char <$> rs " and b = ") ++ [Ref (rn "$") (rs "2")].
Definition args_ex : list arg := [ABool true; AString (rs "x' or 'y")].


(** Finding: a colon that is followed by no number is dropped. *)
Example colon_dropped :
  format (rs "select a::int from t where b=?") [ABool true] = Ok (inr (rs "select aint from t where b=1")).
Proof. by vm_compute. Qed.

(** Finding: what follows a quote that is not closed is written twice. *)
Example unclosed_quote_repeats : format (rs "a=? and b='cd") [ABool true] = Ok (inr (rs "a=1 and b='cdcd")).
Proof. by vm_compute. Qed.

(** Finding: a string behind a pointer or of a type of its own is neither quoted nor escaped: two rows are inserted. *)
Example named_string_not_quoted :
  Insert (mkBulkStmt (rs "insert into t values") (rs "(?)") []) [AOther (rs "1), (2")] = Ok (inr (rs "(1), (2)")).
Proof. by vm_compute. Qed.

(** Finding: the values end at the first closing bracket, the one of a call. *)
Example call_in_values_cut :
  exists b, parseInsertStmt (rs "insert into t values (?, now())") = inr b /\ valueFormat b = rs "(?, now()" /\ suffix b = rs ")" /\
    Execute b [rs "(1, now()"; rs "(2, now()"] = Some (rs "insert into t values (1, now(), (2, now() )").
Proof. eexists. by vm_compute. Qed.

(** Finding: a function that ends its goroutine has its transaction committed. *)
Example exit_commits : transactOnConn (E := nat) (P := nat) None Exits None None = ([Begin; Run; Commit], None).
Proof. done. Qed.
