(* ===== verification/RotateLogger.v ===== *)
(** * [core/logx/rotatelogger.go]: log files that rotate

    [RotateLogger] writes its lines to one file; its rule says when the file is renamed to a backup and a new one
    begun.  Files are a map from names to contents; an operation on files may fail, and the clock gives the names of
    backups.  Writers put lines into a channel, and one goroutine writes them: a [step] is one operation on
    the channel, or the whole of [write].

    [filepath.Glob] and what [filepath] makes of the file's name are arguments; compression is a function with an
    inverse. *)

From Stdlib Require Import Ascii String Sorting.
From stdpp Require Import sorting.
From S2P Require Import Prelude Token Strings.
Local Open Scope Z_scope.
Local Open Scope go_scope.

(** ** Rules *)

Definition hoursPerDay : Z := 24.
Definition bufferSize : nat := 100.
Definition megaBytes : Z := 1048576.
Definition gzipExt : text := rs ".gz".

(** The order of strings *)
Fixpoint text_lt (a b : text) : bool :=
  match a, b with
  | _, [] => false
  | [], _ :: _ => true
  | x :: a, y :: b => (x <? y) || ((x =? y) && text_lt a b)
  end.

(** What a logger knows of its rule; [now] is what the clock gives in the format of the rule. *)
Class RotateRule (R : Type) := {
  BackupFileName : text -> R -> text;
  MarkRotated : text -> R -> R;
  ShallRotate : text -> Z -> R -> bool
}.

Record DailyRotateRule := mkDaily { rotatedTime : text; d_filename : text; delimiter : text; days : Z; gzip : bool }.
Definition DefaultRotateRule (now filename delimiter : text) (days : Z) (gzip : bool) : DailyRotateRule := mkDaily now filename delimiter days gzip.
#[export] Instance daily_rule : RotateRule DailyRotateRule := {
  BackupFileName now r := d_filename r ++ delimiter r ++ now;
  MarkRotated now r := mkDaily now (d_filename r) (delimiter r) (days r) (gzip r);
  ShallRotate now _ r := negb (bool_decide (rotatedTime r = [])) && negb (bool_decide (now = rotatedTime r))
}.

(** [OutdatedFiles]: [files] are those [Glob] finds, [boundary] the date some days ago. *)
Definition daily_OutdatedFiles (boundary : text) (files : list text) (r : DailyRotateRule) : list text :=
  if days r <=? 0 then []
  else
    let boundaryFile := d_filename r ++ delimiter r ++ boundary ++ (if gzip r then gzipExt else []) in
    filter (fun file => text_lt file boundaryFile = true) files.

(** The directory, prefix and extension of the file's name are those of [parseFilename]. *)
Record SizeLimitRotateRule := mkSize { daily : DailyRotateRule; s_dir : text; s_prefix : text; s_ext : text; maxSize : Z; maxBackups : Z }.
Definition NewSizeLimitRotateRule (now filename dir prefix ext delimiter : text) (days maxSize maxBackups : Z) (gzip : bool) : SizeLimitRotateRule :=
  mkSize (mkDaily now filename delimiter days gzip) dir prefix ext (maxSize * megaBytes) maxBackups.
Definition size_backup (now : text) (r : SizeLimitRotateRule) : text :=
  s_dir r ++ rs "/" ++ s_prefix r ++ delimiter (daily r) ++ now ++ s_ext r.
#[export] Instance size_rule : RotateRule SizeLimitRotateRule := {
  BackupFileName := size_backup;
  MarkRotated now r := mkSize (MarkRotated now (daily r)) (s_dir r) (s_prefix r) (s_ext r) (maxSize r) (maxBackups r);
  ShallRotate _ size r := (0 <? maxSize r) && (maxSize r <? size)
}.

Definition text_le (a b : text) : Prop := text_lt b a = false.
#[export] Instance text_le_dec a b : Decision (text_le a b).
Proof. unfold text_le. apply _. Defined.
(** The loop over the sorted files up to the boundary *)
Fixpoint take_outdated (boundaryFile : text) (files : list text) : list text :=
  match files with [] => [] | f :: files => if negb (text_lt f boundaryFile) then [] else f :: take_outdated boundaryFile files end.
Definition size_OutdatedFiles (boundary : text) (files : list text) (r : SizeLimitRotateRule) : gset text :=
  let files := merge_sort text_le files in
  let n := Z.of_nat (length files) in
  let '(outdated, files) :=
    if (0 <? maxBackups r) && (maxBackups r <? n) then (take (Z.to_nat (n - maxBackups r)) files, drop (Z.to_nat (n - maxBackups r)) files)
    else ([], files) in
  let old := if 0 <? days (daily r) then take_outdated (size_backup boundary r ++ (if gzip (daily r) then gzipExt else [])) files else [] in
  list_to_set (outdated ++ old).

(** ** Files *)

(** How the operations of a rotation and of the write after it end, and what the clock gives to each method of the rule *)
Record answers := mkAnswers {
  close_fails : bool; rename_fails : bool; create_fails : bool; short_write : option nat;
  now_shall : text; now_backup : text; now_mark : text
}.

Section logger.
Context {R : Type} `{!RotateRule R}.

(** [RotateLogger]: whether its file is open; the files; the names of the backups made and the lines stored, oldest first *)
Record RotateLogger := mkLogger {
  filename : text; backup : text; fp : bool; currentSize : Z; rule : R; files : gmap text text; renamed : list text; stored : list text
}.

(** [rotate]: whether it succeeded.  [backup] is not empty once the logger is initialized. *)
Definition rotate (a : answers) (l : RotateLogger) : bool * RotateLogger :=
  if fp l && close_fails a then (false, mkLogger (filename l) (backup l) false (currentSize l) (rule l) (files l) (renamed l) (stored l))
  else
    let l := mkLogger (filename l) (backup l) false (currentSize l) (rule l) (files l) (renamed l) (stored l) in
    let renames := bool_decide (is_Some (files l !! filename l)) && negb (bool_decide (backup l = [])) in
    if renames && rename_fails a then (false, l)
    else
      let '(fs, done) :=
        if renames then (<[backup l := default [] (files l !! filename l)]> (delete (filename l) (files l)), renamed l ++ [backup l])
        else (files l, renamed l) in
      let name := BackupFileName (now_backup a) (rule l) in
      if create_fails a then (false, mkLogger (filename l) name false (currentSize l) (rule l) fs done (stored l))
      else (true, mkLogger (filename l) name true (currentSize l) (rule l) (<[filename l := []]> fs) done (stored l)).

(** The write to the file: all of the line, or what the answer says *)
Definition append_line (a : answers) (v : text) (l : RotateLogger) : RotateLogger :=
  if fp l then
    let v' := match short_write a with Some n => take n v | None => v end in
    mkLogger (filename l) (backup l) true (currentSize l + Z.of_nat (length v)) (rule l)
      (<[filename l := default [] (files l !! filename l) ++ v']> (files l)) (renamed l) (stored l ++ [v'])
  else l.

Definition write (a : answers) (v : text) (l : RotateLogger) : RotateLogger :=
  let l :=
    if ShallRotate (now_shall a) (currentSize l + Z.of_nat (length v)) (rule l) then
      let '(ok, l) := rotate a l in
      if ok then mkLogger (filename l) (backup l) (fp l) 0 (MarkRotated (now_mark a) (rule l)) (files l) (renamed l) (stored l) else l
    else l in
  append_line a v l.

(** [initialize]: [None] when the file can neither be opened nor made *)
Definition initialize (opens : bool) (now filename : text) (rule : R) (fs : gmap text text) : option RotateLogger :=
  let backup := BackupFileName now rule in
  if opens then
    match fs !! filename with
    | None => Some (mkLogger filename backup true 0 rule (<[filename := []]> fs) [] [])
    | Some c => Some (mkLogger filename backup true (Z.of_nat (length c)) rule fs [] [])
    end
  else None.

(** [gzipFile] of a file that is there: how many of its operations succeed, and what is in the new file when they do not all *)
Variant gzip_end := OpenFails | CreateFails | CopyFails (part : text) | CloseFails (part : text) | RemoveFails | GzipDone.
Definition gzipFile (zip : text -> text) (e : gzip_end) (file : text) (fs : gmap text text) : gmap text text :=
  match fs !! file with
  | None => fs
  | Some c =>
    match e with
    | OpenFails | CreateFails => fs
    | CopyFails part | CloseFails part => <[file ++ gzipExt := part]> fs
    | RemoveFails => <[file ++ gzipExt := zip c]> fs
    | GzipDone => delete file (<[file ++ gzipExt := zip c]> fs)
    end
  end.
Definition set_files (fs : gmap text text) (l : RotateLogger) : RotateLogger :=
  mkLogger (filename l) (backup l) (fp l) (currentSize l) (rule l) fs (renamed l) (stored l).

(** ** Writers and the worker *)

Variant worker := Running | Draining | Stopped.
(** The channel and whether [done] is closed; the lines for which [Write] returned their length, those before [Close], and those
    the worker took *)
Record state := mkState { channel : list text; closed : bool; goes : worker; log : RotateLogger; accepted : list text; kept : nat; handled : list text }.

Context (zip : text -> text) (faulty : bool).

(** [faulty]: whether operations on files may fail.  The name a rotation renames to is not in use. *)
Definition fresh (l : RotateLogger) : Prop :=
  files l !! backup l = None /\ files l !! (backup l ++ gzipExt) = None /\ backup l <> [] /\ backup l <> filename l /\ backup l ++ gzipExt <> filename l /\
  Forall (fun n => n <> backup l /\ n <> backup l ++ gzipExt /\ n ++ gzipExt <> backup l) (renamed l).
Definition succeeds (a : answers) : Prop :=
  close_fails a = false /\ rename_fails a = false /\ create_fails a = false /\ short_write a = None.

Inductive step : state -> state -> Prop :=
| WriteAccepted q c w l acc k h v : (length q < bufferSize)%nat -> step (mkState q c w l acc k h) (mkState (q ++ [v]) c w l (acc ++ [v]) k h)
| WriteRefused q w l acc k h : step (mkState q true w l acc k h) (mkState q true w l acc k h)
| CloseCalled q w l acc k h : step (mkState q false w l acc k h) (mkState q true w l acc (length acc) h)
| Received q c w l acc k h v a : w <> Stopped -> fresh l -> (faulty = false -> succeeds a) -> step (mkState (v :: q) c w l acc k h) (mkState q c w (write a v l) acc k (h ++ [v]))
| SeesDone q l acc k h : step (mkState q true Running l acc k h) (mkState q true Draining l acc k h)
| Drained l acc k h : step (mkState [] true Draining l acc k h) (mkState [] true Stopped l acc k h)
| Compressed q c w l acc k h e file : file ∈ renamed l ->
    step (mkState q c w l acc k h) (mkState q c w (set_files (gzipFile zip e file (files l)) l) acc k h).

Definition start (l : RotateLogger) : state := mkState [] false Running l [] 0 [].
Definition reached (l : RotateLogger) (s : state) : Prop := rtc step (start l) s.

(** ** The lines are kept *)

Context (unzip : text -> text) (unzip_zip : forall c, unzip (zip c) = c).

(** What a backup holds, compressed or not; all that the logger's files hold, oldest first *)
Definition content_of (fs : gmap text text) (f : text) : text :=
  match fs !! f with Some c => c | None => unzip (default [] (fs !! (f ++ gzipExt))) end.
Definition text_of (name : text) (fs : gmap text text) (done : list text) : text := concat (map (content_of fs) done) ++ default [] (fs !! name).
Definition log_text (l : RotateLogger) : text := text_of (filename l) (files l) (renamed l).

Definition apart (f n : text) : Prop := n <> f /\ n ++ gzipExt <> f.
Definition names_ok (name : text) (done : list text) : Prop :=
  Forall (apart name) done /\ forall n m, n ∈ done -> m ∈ done -> n ++ gzipExt <> m.

Lemma gzip_longer n : n ++ gzipExt <> n.
Proof. intros H. apply (f_equal length) in H. rewrite length_app in H. simpl in H. lia. Qed.

Lemma content_of_insert fs f c n : apart f n -> content_of (<[f := c]> fs) n = content_of fs n.
Proof. intros [H1 H2]. unfold content_of. by rewrite !lookup_insert_ne by done. Qed.
Lemma content_of_delete fs f n : apart f n -> content_of (delete f fs) n = content_of fs n.
Proof. intros [H1 H2]. unfold content_of. by rewrite !lookup_delete_ne by done. Qed.
Lemma contents_ext fs fs' l : (forall n, n ∈ l -> content_of fs' n = content_of fs n) -> map (content_of fs') l = map (content_of fs) l.
Proof. intros H. apply map_ext_in. intros n Hn. apply H. by apply list_elem_of_In. Qed.

(** Writing to the file, making it, renaming it and compressing a backup *)
Lemma text_of_append name fs done v : names_ok name done ->
  text_of name (<[name := default [] (fs !! name) ++ v]> fs) done = text_of name fs done ++ v.
Proof.
  intros [Ha _]. unfold text_of. rewrite lookup_insert_eq. simpl. rewrite app_assoc. do 3 f_equal. apply contents_ext.
  intros n Hn. apply content_of_insert. by eapply Forall_forall in Ha.
Qed.
Lemma text_of_create name fs done : names_ok name done -> fs !! name = None -> text_of name (<[name := []]> fs) done = text_of name fs done.
Proof.
  intros Ha Hn. pose proof (text_of_append name fs done [] Ha) as H. rewrite Hn in H. simpl in H. by rewrite H, app_nil_r.
Qed.
Lemma text_of_rename name b c fs done : names_ok name done -> b <> name -> Forall (apart b) done -> fs !! name = Some c ->
  text_of name (<[b := c]> (delete name fs)) (done ++ [b]) = text_of name fs done.
Proof.
  intros [Ha _] Hb Hd Hc. unfold text_of. rewrite map_app, concat_app, Hc, lookup_insert_ne, lookup_delete_eq by done. simpl.
  rewrite !app_nil_r. f_equal; [|unfold content_of; by rewrite lookup_insert_eq]. f_equal. apply contents_ext. intros n Hn.
  rewrite content_of_insert, content_of_delete; [done|by eapply Forall_forall in Ha|by eapply Forall_forall in Hd].
Qed.
Lemma gzip_other e name file fs : apart name file -> gzipFile zip e file fs !! name = fs !! name.
Proof.
  intros [H1 H2]. unfold gzipFile. destruct (fs !! file), e; rewrite ?lookup_delete_ne, ?lookup_insert_ne by done; done.
Qed.
Lemma text_of_gzip name file e fs done : names_ok name done -> file ∈ done -> text_of name (gzipFile zip e file fs) done = text_of name fs done.
Proof.
  intros [Ha Hp] Hf. unfold gzipFile. destruct (fs !! file) as [c|] eqn:Hc; [|done].
  rewrite Forall_forall in Ha. destruct (Ha file Hf) as [Hfn Hgn].
  assert (forall x, text_of name (<[file ++ gzipExt := x]> fs) done = text_of name fs done) as Hw.
  { intros x. unfold text_of. rewrite lookup_insert_ne by done. do 2 f_equal. apply contents_ext. intros n Hn.
    destruct (decide (n = file)) as [->|Hnf]; [|apply content_of_insert; split; [by intros ->; eapply (Hp file _ Hf Hn)|by intros ?%app_inv_tail]].
    unfold content_of. rewrite lookup_insert_ne by apply gzip_longer. by rewrite Hc. }
  destruct e; rewrite ?Hw; try done. rewrite <- (Hw (zip c)). unfold text_of. rewrite lookup_delete_ne by done. do 2 f_equal.
  apply contents_ext. intros n Hn. destruct (decide (n = file)) as [->|Hnf].
  - unfold content_of. rewrite lookup_delete_eq, lookup_delete_ne, lookup_insert_eq by (apply not_eq_sym, gzip_longer). simpl.
    rewrite lookup_insert_ne, Hc by apply gzip_longer. apply unzip_zip.
  - apply content_of_delete. split; [done|]. by intros Hg; eapply (Hp n file).
Qed.

Record logger_ok (l : RotateLogger) : Prop := {
  lo_open : fp l = true -> is_Some (files l !! filename l);
  lo_names : names_ok (filename l) (renamed l)
}.

(** A rotation keeps what is in the files, whatever fails; when it succeeds, the file is empty. *)
Lemma rotate_ok a l : fresh l -> logger_ok l ->
  let l' := snd (rotate a l) in
  logger_ok l' /\ log_text l' = log_text l /\ stored l' = stored l /\ filename l' = filename l /\
  (if fst (rotate a l) then fp l' = true /\ files l' !! filename l' = Some [] else fp l' = false).
Proof.
  intros (Hb1 & Hb2 & Hne & Hbf & Hbg & Hfr) [Ho Hn]. unfold rotate, log_text. destruct (fp l && close_fails a); [by split_and!|]. simpl.
  destruct (files l !! filename l) as [c|] eqn:Hc; simpl.
  - rewrite (bool_decide_eq_false_2 (backup l = [])) by done. simpl. destruct (rename_fails a); [by split_and!|].
    assert (Forall (apart (backup l)) (renamed l)) as Hap by (eapply Forall_impl; [exact Hfr|]; by intros n (? & _ & ?)).
    assert (names_ok (filename l) (renamed l ++ [backup l])) as Hn'.
    { destruct Hn as [Hn Hp]. split; [apply Forall_app; split; [done|]; by repeat constructor|].
      rewrite Forall_forall in Hfr. intros n m [Hi| ->%list_elem_of_singleton]%elem_of_app [Hj| ->%list_elem_of_singleton]%elem_of_app.
      - by apply Hp.
      - by apply Hfr.
      - intros He. by destruct (Hfr m Hj) as (_ & Hm & _).
      - apply gzip_longer. }
    assert (text_of (filename l) (<[backup l:=c]> (delete (filename l) (files l))) (renamed l ++ [backup l]) =
            text_of (filename l) (files l) (renamed l)) as Ht by (by apply text_of_rename).
    destruct (create_fails a); simpl; [by split_and!|]. rewrite lookup_insert_eq.
    split_and!; [split; simpl; [by rewrite lookup_insert_eq|done]| |done..]. rewrite text_of_create; [done..|].
    by rewrite lookup_insert_ne, lookup_delete_eq.
  - destruct (create_fails a); simpl; [by split_and!|]. rewrite lookup_insert_eq.
    split_and!; [split; simpl; [by rewrite lookup_insert_eq|done]|by rewrite text_of_create|done..].
Qed.

(** What a write stores of its line: nothing when the file is not open, and a part of it when the write is short *)
Definition stores (v : text) (before after : list text) : Prop := after = before \/ exists v', v' `prefix_of` v /\ after = before ++ [v'].

Lemma append_line_ok a v l : logger_ok l ->
  let l' := append_line a v l in
  logger_ok l' /\ filename l' = filename l /\ stores v (stored l) (stored l') /\
  (exists w, log_text l' = log_text l ++ concat w /\ stored l' = stored l ++ w) /\
  (fp l = true -> short_write a = None -> stored l' = stored l ++ [v]).
Proof.
  intros Hl. unfold append_line, log_text. destruct (fp l) eqn:Hf; simpl; [|split_and!; [done..|by left|exists []; by rewrite !app_nil_r|done]].
  split_and!; [|done|right|eexists [_]; simpl; rewrite app_nil_r; split; [|done]|by intros _ ->].
  - destruct Hl as [Ho Hn]. split; simpl; [by rewrite lookup_insert_eq|done].
  - destruct (short_write a) as [n|]; eexists; (split; [|done]); [apply prefix_take|done].
  - apply text_of_append, Hl.
Qed.

Lemma write_ok a v l : fresh l -> logger_ok l ->
  let l' := write a v l in
  logger_ok l' /\ filename l' = filename l /\ stores v (stored l) (stored l') /\
  (exists w, log_text l' = log_text l ++ concat w /\ stored l' = stored l ++ w) /\
  (fp l = true -> succeeds a -> fp l' = true /\ stored l' = stored l ++ [v]).
Proof.
  intros Hfr Hl. unfold write. destruct (ShallRotate _ _ _); [|].
  - destruct (rotate_ok a l Hfr Hl) as (Hl' & Ht & Hs & Hn & Hr). destruct (rotate a l) as [ok l1] eqn:E. simpl in *.
    set (l2 := if ok then _ else _). assert (logger_ok l2 /\ log_text l2 = log_text l /\ stored l2 = stored l /\ filename l2 = filename l /\ fp l2 = ok) as
      (H2 & Ht2 & Hs2 & Hn2 & Hf2).
    { unfold l2, log_text in *. destruct ok; simpl in *; split_and!; try done; try apply Hr. destruct Hl' as [Ho Hnm]. by split. }
    clearbody l2. destruct (append_line_ok a v l2 H2) as (H3 & Hn3 & Hs3 & Hw3 & Hk3). rewrite Hs2, Ht2, Hn2 in *. split_and!; try done.
    intros Hf (Hc & Hre & Hcr & Hsh). assert (ok = true) as ->.
    { revert E. unfold rotate. rewrite Hf, Hc, Hre, Hcr, !andb_false_r. simpl. by destruct (_ && _); simpl; intros [=]. }
    split; [|by apply Hk3]. unfold append_line. by rewrite Hf2.
  - destruct (append_line_ok a v l Hl) as (H3 & Hn3 & Hs3 & Hw3 & Hk3). split_and!; try done. intros Hf (_ & _ & _ & Hsh).
    split; [|by apply Hk3]. unfold append_line. by rewrite Hf.
Qed.

(** *** The invariant of a run *)

Record run_ok (l0 : RotateLogger) (s : state) : Prop := {
  ro_logger : logger_ok (log s);
  ro_name : filename (log s) = filename l0;
  ro_order : accepted s = handled s ++ channel s;
  ro_text : log_text (log s) = log_text l0 ++ concat (stored (log s));
  ro_stored : exists whole, Forall2 prefix (stored (log s)) whole /\ whole `sublist_of` handled s;
  ro_exact : faulty = false -> fp (log s) = true /\ stored (log s) = handled s;
  ro_closed : closed s = false -> kept s = 0%nat /\ goes s = Running;
  ro_kept : (kept s <= length (accepted s))%nat;
  ro_stopped : goes s = Stopped -> (kept s <= length (handled s))%nat
}.

Lemma run_ok_step l0 s s' : step s s' -> run_ok l0 s -> run_ok l0 s'.
Proof.
  intros Hs [Hl Hn Ho Ht Hst He Hc Hk Hp]. destruct Hs; simpl in *.
  - split; simpl; try done. by rewrite Ho, app_assoc. rewrite length_app. lia.
  - by split.
  - split; simpl; try done. intros Hw. destruct (Hc eq_refl) as [_ Hr]. congruence.
  - destruct (write_ok a v l H0 Hl) as (Hl' & Hn' & Hs' & (w' & Hw1 & Hw2) & Hk'). split; simpl; try done.
    + congruence.
    + by rewrite Ho, <- app_assoc.
    + rewrite Hw1, Hw2, Ht, concat_app. by rewrite app_assoc.
    + destruct Hst as (whole & Hf & Hsub). destruct Hs' as [->|(v' & Hv' & ->)].
      * exists whole. split; [done|]. by apply sublist_inserts_r.
      * exists (whole ++ [v]). split; [by apply Forall2_app; [|repeat constructor]|by apply sublist_app].
    + intros Hfl. destruct (He Hfl) as [Hf Hs]. rewrite <- Hs. by apply Hk', H1.
  - split; simpl; try done.
  - split; simpl; try done. intros _. rewrite Ho, app_nil_r in Hk. done.
  - split; simpl; try done.
    + destruct Hl as [Hop [Ha Hnm]]. split; [|done]. simpl. rewrite gzip_other; [done|]. by eapply Forall_forall in Ha.
    + unfold log_text in *. simpl. rewrite text_of_gzip; [done|apply Hl|done].
Qed.

End logger.
Arguments RotateLogger : clear implicits.

(** ** The size of files *)

Definition sized {R} (l : RotateLogger R) : Prop :=
  fp l = true -> exists c, files l !! filename l = Some c /\ Z.of_nat (length c) <= currentSize l.

(** With a rule of size, a file that was written to is no longer than the limit, unless it is a single line. *)
Theorem file_bounded (a : answers) (v : text) (l : RotateLogger SizeLimitRotateRule) :
  0 < maxSize (rule l) -> fresh l -> logger_ok l -> sized l ->
  let l' := write a v l in
  sized l' /\ (fp l' = true -> Z.of_nat (length (default [] (files l' !! filename l'))) <= Z.max (maxSize (rule l)) (Z.of_nat (length v))).
Proof.
  intros Hm Hfr Hok Hs. assert (forall (l : RotateLogger SizeLimitRotateRule) k, sized l -> (fp l = true -> currentSize l + Z.of_nat (length v) <= k) ->
    let l' := append_line a v l in sized l' /\ (fp l' = true -> Z.of_nat (length (default [] (files l' !! filename l'))) <= k)) as Ha.
  { clear. intros l k Hs Hk. unfold append_line. destruct (fp l) eqn:Hf; [|by split; intros; congruence].
    destruct (Hs Hf) as (c & Hc & Hl). specialize (Hk eq_refl). simpl. unfold sized. simpl. rewrite Hc, lookup_insert_eq. simpl.
    assert (length (match short_write a with Some n => take n v | None => v end) <= length v)%nat as Hv.
    { destruct (short_write a); [|done]. rewrite length_take. lia. }
    split; [intros _; eexists; split; [done|]|intros _]; rewrite length_app; lia. }
  unfold write. destruct (ShallRotate _ _ _) eqn:Hsh.
  - destruct (rotate_ok id a l Hfr Hok) as (_ & _ & _ & _ & Hr). destruct (rotate a l) as [[] l1]; simpl in *.
    + destruct Hr as [Hf Hc]. apply Ha; simpl; [|lia]. intros _. by exists [].
    + apply Ha; [|]; intros H; congruence.
  - simpl in Hsh. assert (currentSize l + Z.of_nat (length v) <= maxSize (rule l)) as Hle.
    { apply andb_false_iff in Hsh as [Hsh|Hsh]; [apply Z.ltb_ge in Hsh; lia|by apply Z.ltb_ge in Hsh]. }
    apply Ha; [done|]. lia.
Qed.

(** ** The order of names *)

Lemma text_lt_irrefl a : text_lt a a = false.
Proof. induction a as [|x a IH]; simpl; [done|]. by rewrite Z.ltb_irrefl, Z.eqb_refl, IH. Qed.
Lemma text_lt_asym a b : text_lt a b = true -> text_lt b a = false.
Proof.
  revert b. induction a as [|x a IH]; intros [|y b]; simpl; try done.
  destruct (Z.ltb_spec x y), (Z.ltb_spec y x), (Z.eqb_spec x y), (Z.eqb_spec y x); simpl; try done; try lia. apply IH.
Qed.
#[export] Instance text_le_total : Total text_le.
Proof. intros a b. unfold text_le. destruct (text_lt b a) eqn:E; [right; by apply text_lt_asym|by left]. Qed.
#[export] Instance text_le_trans : Transitive text_le.
Proof.
  unfold text_le. intros a. induction a as [|x a IH]; intros [|y b] [|z c]; simpl; try done.
  destruct (Z.ltb_spec y x), (Z.ltb_spec z y), (Z.eqb_spec y x), (Z.eqb_spec z y), (Z.ltb_spec z x), (Z.eqb_spec z x);
    simpl; try done; try lia. apply IH.
Qed.

Lemma take_outdated_prefix b l : take_outdated b l `prefix_of` l.
Proof. induction l as [|f l IH]; simpl; [done|]. destruct (negb _); [apply prefix_nil|by apply prefix_cons]. Qed.

Lemma sorted_app_le (l1 l2 : list text) f g : StronglySorted text_le (l1 ++ l2) -> f ∈ l1 -> g ∈ l2 -> text_le f g.
Proof.
  induction l1 as [|x l1 IH]; simpl; intros Hs Hf Hg; [by apply elem_of_nil in Hf|]. apply StronglySorted_inv in Hs as [Hs Hx].
  apply elem_of_cons in Hf as [->|Hf]; [|by apply IH]. rewrite Forall_forall in Hx. apply Hx, elem_of_app. by right.
Qed.

(** The outdated files are a beginning of the sorted ones. *)
Lemma size_outdated_prefix boundary files r : exists k, size_OutdatedFiles boundary files r = list_to_set (take k (merge_sort text_le files)) /\
  (0 < maxBackups r -> (length (drop k (merge_sort text_le files)) <= Z.to_nat (maxBackups r))%nat).
Proof.
  unfold size_OutdatedFiles. set (l := merge_sort text_le files).
  set (n := Z.to_nat (Z.of_nat (length l) - maxBackups r)). set (b := size_backup boundary r ++ _).
  assert (forall m, exists k, take m l ++ (if 0 <? days (daily r) then take_outdated b (drop m l) else []) = take k l /\ (Nat.min m (length l) <= k)%nat) as Hk.
  { intros m. set (T := if 0 <? days (daily r) then _ else _). assert (T `prefix_of` drop m l) as [d Hd].
    { unfold T. destruct (0 <? days (daily r)); [apply take_outdated_prefix|apply prefix_nil]. }
    exists (length (take m l ++ T)). split; [|rewrite length_app, length_take; lia].
    rewrite <- (take_drop m l) at 3. by rewrite Hd, app_assoc, take_app_length. }
  destruct ((0 <? maxBackups r) && (maxBackups r <? Z.of_nat (length l))) eqn:E.
  - destruct (Hk n) as (k & Hkn & Hle). exists k. rewrite Hkn. split; [done|]. intros Hp. rewrite length_drop. apply andb_true_iff in E as [_ E%Z.ltb_lt]. lia.
  - destruct (Hk 0%nat) as (k & Hkn & Hle). exists k. rewrite drop_0 in Hkn. simpl in Hkn. simpl. rewrite Hkn. split; [done|]. intros Hp. rewrite length_drop.
    apply andb_false_iff in E as [E%Z.ltb_ge|E%Z.ltb_ge]; lia.
Qed.

(** The rule of size gives up backups that are there, none that is newer than one it keeps (by the order of their names), and keeps no
    more than it should. *)
Theorem size_rule_keeps_newest boundary files r :
  let out := size_OutdatedFiles boundary files r in
  (forall f, f ∈ out -> f ∈ files) /\ (forall f g, f ∈ out -> g ∈ files -> g ∉ out -> text_le f g) /\
  (0 < maxBackups r -> (length (filter (fun f => f ∉ out) files) <= Z.to_nat (maxBackups r))%nat).
Proof.
  destruct (size_outdated_prefix boundary files r) as (k & Hk & Hn). simpl. rewrite Hk. set (l := merge_sort text_le files) in *.
  assert (l ≡ₚ files) as Hl by apply merge_sort_Permutation. split_and!.
  - intros f Hf%elem_of_list_to_set. rewrite <- Hl. rewrite <- (take_drop k l). apply elem_of_app. by left.
  - intros f g Hf%elem_of_list_to_set Hg Hng. rewrite elem_of_list_to_set in Hng. rewrite <- Hl, <- (take_drop k l) in Hg.
    apply elem_of_app in Hg as [Hg|Hg]; [done|]. eapply sorted_app_le; [|exact Hf|exact Hg]. rewrite take_drop. apply (StronglySorted_merge_sort _).
  - intros Hp. set (P := fun f => f ∉@{gset text} list_to_set (take k l)).
    assert (filter P files ≡ₚ filter P (take k l) ++ filter P (drop k l)) as -> by (by rewrite <- filter_app, take_drop, Hl).
    assert (filter P (take k l) = []) as ->.
    { destruct (filter P (take k l)) as [|f fl] eqn:E; [done|]. assert (f ∈ filter P (take k l)) as [Hf Hin]%list_elem_of_filter by (rewrite E; left).
      destruct Hf. by apply elem_of_list_to_set. }
    simpl. etrans; [apply length_filter|]. by apply Hn.
Qed.

(** ** Runs *)

(** A limit of four runes, files in the current directory *)
Definition rule_ex : SizeLimitRotateRule := mkSize (mkDaily (rs "t0") (rs "app.log") (rs "-") 0 false) (rs ".") (rs "app") (rs ".log") 4 0.
Definition at_time (t : text) : answers := mkAnswers false false false None t t t.
Definition logger_ex : RotateLogger SizeLimitRotateRule :=
  mkLogger (rs "app.log") (rs "./app-t0.log") true 0 rule_ex {[ rs "app.log" := [] ]} [] [].
Example logger_ex_initialize : initialize true (rs "t0") (rs "app.log") rule_ex ∅ = Some logger_ex.
Proof. done. Qed.

(** A run of one line, which is accepted, taken and written before the logger is closed *)
Definition end_ex : state :=
  mkState [] true Stopped (write (at_time (rs "t1")) (rs "ab") logger_ex) [rs "ab"] 1 [rs "ab"].

(** Finding: the names of backups have seconds; of three rotations within two seconds the second backup is overwritten. *)
Example same_second_overwrites :
  files (write (at_time (rs "t1")) (rs "ddd") (write (at_time (rs "t1")) (rs "ccc") (write (at_time (rs "t1")) (rs "bbb")
    (write (at_time (rs "t0")) (rs "aaa") logger_ex)))) =
  {[ rs "app.log" := rs "ddd"; rs "./app-t0.log" := rs "aaa"; rs "./app-t1.log" := rs "ccc" ]}.
Proof. by vm_compute. Qed.

(** Finding: after one failed rotation lines are dropped, without another attempt, until a line is long enough for the rule. *)
Example short_lines_dropped :
  let l := write (mkAnswers false true false None (rs "t1") (rs "t1") (rs "t1")) (rs "bb") (write (at_time (rs "t0")) (rs "aaa") logger_ex) in
  stored l = [rs "aaa"] /\ forall a, write a (rs "c") l = l.
Proof. by split. Qed.

(** Finding: a line that [Write] accepts after the worker has stopped is lost. *)
Example accepted_line_lost : exists s, reached id false logger_ex s /\ goes s = Stopped /\ accepted s = [rs "ab"] /\ handled s = [].
Proof.
  exists (mkState [rs "ab"] true Stopped logger_ex [rs "ab"] 0 []). split; [|done].
  unfold reached, start. eapply rtc_l; [apply CloseCalled|]. eapply rtc_l; [apply SeesDone|]. eapply rtc_l; [apply Drained|].
  eapply rtc_l; [apply (WriteAccepted _ _ [] true Stopped logger_ex [] 0 [] (rs "ab")); unfold bufferSize; simpl; lia|]. apply rtc_refl.
Qed.
