(* ===== verification/RedisLock.v ===== *)
(** * [core/stores/redis/redislock.go]: a lock in redis

    [Acquire] and [Release] run the embedded scripts [lockscript.lua] and [delscript.lua], which are modelled
    command by command on the redis of [Redis.v]; its clock counts milliseconds here, the unit of [PX].  The
    clients of a lock share the server, and every answer may be lost. *)

From S2P Require Import Prelude Redis.
Local Open Scope Z_scope.

Definition tolerance : Z := 500.
Definition millisPerSecond : Z := 1000.

(** [seconds] is a uint32. *)
Record RedisLock := mkLock { seconds : Z; key : string; id : string }.

(** [NewRedisLock]; the random text is an argument. *)
Definition NewRedisLock (key random : string) : RedisLock := mkLock 0 key random.
Definition SetExpire (n : Z) (rl : RedisLock) : RedisLock := mkLock (n mod 2 ^ 32) (key rl) (id rl).

(** What [ScriptRunCtx] gives: an error, [redis.Nil] being one, or a reply *)
Variant red_error := RedNil | RedErr (msg : string).
Variant reply := RString (s : string) | RInt (n : Z).

Section lock.
Context {R : Type} `{!RedisStrings R}.

Definition lockScript (clock : Z) (key id : string) (px : Z) (r : R) : (red_error + reply) * R :=
  if decide (rs_get clock key r = Some id) then (inr (RString "OK"), rs_set clock key id px r)
  else match rs_setnx clock key id px r with
       | Some (true, r) => (inr (RString "OK"), r)
       | Some (false, r) => (inl RedNil, r)
       | None => (inl (RedErr "invalid expire time"), r)
       end.

Definition delScript (clock : Z) (key id : string) (r : R) : (red_error + reply) * R :=
  if decide (rs_get clock key r = Some id) then let '(n, r) := rs_del clock [key] r in (inr (RInt n), r)
  else (inr (RInt 0), r).

(** [ScriptRunCtx]: the script may not run, or its answer may be lost. *)
Definition ScriptRun (d : delivery string) (script : R -> (red_error + reply) * R) (r : R) : (red_error + reply) * R :=
  match d with
  | Answered => script r
  | NotRun e => (inl (RedErr e), r)
  | AnswerLost e => (inl (RedErr e), (script r).2)
  end.

(** The time the lock is held for, in milliseconds *)
Definition expire_ms (rl : RedisLock) : Z := seconds rl * millisPerSecond + tolerance.

Definition Acquire (d : delivery string) (clock : Z) (rl : RedisLock) (r : R) : (bool * option red_error) * R :=
  let '(resp, r) := ScriptRun d (lockScript clock (key rl) (id rl) (expire_ms rl)) r in
  (match resp with
   | inl RedNil => (false, None)
   | inl e => (false, Some e)
   | inr (RString s) => (bool_decide (s = "OK"), None)
   | inr (RInt _) => (false, None)
   end, r).

Definition Release (d : delivery string) (clock : Z) (rl : RedisLock) (r : R) : (bool * option red_error) * R :=
  let '(resp, r) := ScriptRun d (delScript clock (key rl) (id rl)) r in
  (match resp with
   | inl e => (false, Some e)
   | inr (RInt n) => (n =? 1, None)
   | inr (RString _) => (false, None)
   end, r).

(** ** Clients of one key *)

(** The clients of a key have a lock each.  [lease] is the time until which the last call of a client
    gave it the lock, if that was an [Acquire] that returned true. *)
Record state := mkState { server : R; clock : Z; locks : list RedisLock; lease : list (option Z) }.

Variant event :=
| Tick (ms : Z)
| EAcquire (i : nat) (d : delivery string)
| ERelease (i : nat) (d : delivery string)
| EExpire (i : nat) (n : Z).

Definition run_event (s : state) (e : event) : state :=
  match e with
  | Tick ms => mkState (server s) (clock s + Z.max 0 ms) (locks s) (lease s)
  | EAcquire i d =>
    match locks s !! i with
    | None => s
    | Some rl =>
      let '((ok, _), r) := Acquire d (clock s) rl (server s) in
      mkState r (clock s) (locks s) (<[i := if ok then Some (clock s + expire_ms rl) else None]> (lease s))
    end
  | ERelease i d =>
    match locks s !! i with
    | None => s
    | Some rl => mkState (Release d (clock s) rl (server s)).2 (clock s) (locks s) (<[i := None]> (lease s))
    end
  | EExpire i n =>
    match locks s !! i with None => s | Some rl => mkState (server s) (clock s) (<[i := SetExpire n rl]> (locks s)) (lease s) end
  end.

(** The new locks of [n] clients of a key; the server and its clock are arbitrary. *)
Definition clients (r : R) (c : Z) (key : string) (ids : list string) : state :=
  mkState r c (NewRedisLock key <$> ids) (replicate (length ids) None).

(** Client [i] holds the lock. *)
Definition holds (s : state) (i : nat) : Prop := exists t, lease s !! i = Some (Some t) /\ clock s < t.

Context `{!RedisStringsLaws R}.

Record inv (k : string) (ids : list string) (s : state) : Prop := {
  i_locks : id <$> locks s = ids;
  i_key : Forall (fun rl => key rl = k /\ 0 <= seconds rl) (locks s);
  i_len : length (lease s) = length ids;
  i_lease : forall i x t, ids !! i = Some x -> lease s !! i = Some (Some t) -> clock s < t ->
    exists t', rs_view (server s) k = Some (x, Some t') /\ t <= t'
}.

Lemma alive_some {V} c (e : option (V * option Z)) v t : alive c e = Some (v, t) -> e = Some (v, t) /\ live_at c t = true.
Proof. unfold alive. destruct e as [[v' t']|]; [|done]. destruct (live_at c t') eqn:E; intros [= -> ->]. done. Qed.

(** The lock script: it either leaves the lock of another client alone, or takes it. *)
Lemma lock_script_spec c k x ms r (res := lockScript c k x ms r) : 0 < ms ->
  (res.1 = inr (RString "OK") /\ rs_view res.2 k = Some (x, Some (c + ms)) /\
   (forall y t, rs_view r k = Some (y, t) -> live_at c t = true -> y = x)) \/
  (res.1 = inl RedNil /\ rs_view res.2 k = rs_view r k /\
   exists y t, rs_view r k = Some (y, t) /\ live_at c t = true /\ y <> x).
Proof.
  intros Hms. unfold res, lockScript. assert (expires c ms = Some (c + ms)) as He by (unfold expires; by rewrite (proj2 (Z.ltb_lt _ _))).
  case_decide as Hg.
  - left. simpl. rewrite rs_set_law, decide_True, He by done. split; [done|]. split; [done|]. intros y t Hv Hl.
    rewrite rs_get_law, Hv in Hg. simpl in Hg. rewrite Hl in Hg. by injection Hg.
  - pose proof (rs_setnx_law c k x ms r) as H. destruct (rs_setnx c k x ms r) as [[done r']|]; [|lia].
    destruct H as [Hd Hv]. specialize (Hv k). rewrite bool_decide_true, andb_true_r in Hv by done.
    rewrite rs_get_law in Hg. destruct done; simpl; [left|right]; (split; [done|]); (split; [congruence|]).
    + intros y t Hk Hl. apply proj1 in Hd. rewrite Hk in Hd. simpl in Hd. rewrite Hl in Hd. by discriminate Hd.
    + destruct (rs_view r k) as [[y t]|] eqn:Hk; simpl in *; [|by discriminate (proj2 Hd eq_refl)].
      destruct (live_at c t) eqn:Hl; [|by discriminate (proj2 Hd eq_refl)]. exists y, t. split_and!; [done..|]. simpl in Hg. congruence.
Qed.

(** The script of [Release]: it removes the lock of its client only. *)
Lemma del_script_spec c k x r : rs_view (delScript c k x r).2 k = rs_view r k \/ exists t, rs_view r k = Some (x, t).
Proof.
  unfold delScript. case_decide as Hg; [right|by left]. rewrite rs_get_law in Hg.
  destruct (alive c (rs_view r k)) as [[y t]|] eqn:Ha; simplify_eq/=. apply alive_some in Ha as [-> _]. eauto.
Qed.

(** The answer of [Acquire] is true only after the script took the lock. *)
Lemma acquire_spec d c rl r (res := Acquire d c rl r) : 0 <= seconds rl ->
  (rs_view res.2 (key rl) = Some (id rl, Some (c + expire_ms rl)) /\
   forall y t, rs_view r (key rl) = Some (y, t) -> live_at c t = true -> y = id rl) \/
  (res.1.1 = false /\ rs_view res.2 (key rl) = rs_view r (key rl)).
Proof.
  intros Hs. unfold res, Acquire, ScriptRun. destruct d as [|e|e]; [|by right|].
  all: destruct (lock_script_spec c (key rl) (id rl) (expire_ms rl) r) as [(H1 & H2 & H3)|(H1 & H2 & _)];
    [unfold expire_ms, millisPerSecond, tolerance; lia|..]; destruct (lockScript _ _ _ _ r) as [a r']; simpl in *; subst; simpl; eauto.
Qed.

Lemma release_view d c rl r : rs_view (Release d c rl r).2 (key rl) = rs_view r (key rl) \/ exists t, rs_view r (key rl) = Some (id rl, t).
Proof.
  unfold Release, ScriptRun. pose proof (del_script_spec c (key rl) (id rl) r) as H.
  destruct d as [|e|e]; [|by left|]; destruct (delScript c (key rl) (id rl) r); simpl in *; eauto.
Qed.

Lemma lock_inv_step k ids s e : NoDup ids -> inv k ids s -> inv k ids (run_event s e).
Proof.
  intros Hn [H1 H2 Hlen H3]. destruct e as [ms|i d|i d|i n]; simpl.
  1: { split; simpl; [done..|]. intros i x t Hi Hl Ht. apply (H3 i x t); [done|done|lia]. }
  all: destruct (locks s !! i) as [rl|] eqn:Hi; [|done].
  all: assert (ids !! i = Some (id rl)) as Hid by (by rewrite <- H1, list_lookup_fmap, Hi).
  all: destruct (Forall_lookup_1 _ _ _ _ H2 Hi) as [Hk Hs].
  - destruct (Acquire d (clock s) rl (server s)) as [[ok e] r] eqn:Ha. pose proof (acquire_spec d (clock s) rl (server s) Hs) as Hspec.
    rewrite Ha, Hk in Hspec. simpl in Hspec. split; simpl; [done|done|by rewrite length_insert|].
    intros j x t Hj [(<- & Hl & _)|[Hne Hl]]%list_lookup_insert_Some Ht.
    + rewrite Hid in Hj. injection Hj as <-. destruct ok; [|done]. injection Hl as <-. destruct Hspec as [[Hv _]|[Hf _]]; [|done]. eexists. split; [done|lia].
    + destruct (H3 j x t Hj Hl Ht) as (t' & Hv & Ht'). destruct Hspec as [[Hv' Hown]|[_ ->]]; [|eauto].
      assert (x = id rl) as -> by (eapply Hown; [done|]; simpl; apply Z.ltb_lt; lia).
      by destruct Hne; eapply NoDup_lookup.
  - pose proof (release_view d (clock s) rl (server s)) as Hspec. rewrite Hk in Hspec. split; simpl; [done|done|by rewrite length_insert|].
    intros j x t Hj [(_ & Hl & _)|[Hne Hl]]%list_lookup_insert_Some Ht; [done|].
    destruct (H3 j x t Hj Hl Ht) as (t' & Hv & Ht'). destruct Hspec as [->|[y Hy]]; [eauto|].
    rewrite Hy in Hv. injection Hv as <- _. by destruct Hne; eapply NoDup_lookup.
  - split; simpl; [|apply Forall_insert; [done|simpl; split; [done|apply Z.mod_pos_bound; lia]]|done..].
    rewrite <- H1, list_fmap_insert. apply list_insert_id.
    by rewrite list_lookup_fmap, Hi.
Qed.

(** C24: a lock of redis is exclusive.  Clients with different random texts may acquire and release a key in any
    order, requests and answers may be lost, and expirations may change: at any time at most one client holds
    the lock, and while it does the key has its text, so that another one neither gets the lock nor removes it. *)
Theorem redis_lock_exclusive r c k ids (events : list event) (s := foldl run_event (clients r c k ids) events) : NoDup ids ->
  (forall i j, holds s i -> holds s j -> i = j) /\
  (forall i j rl, holds s i -> locks s !! j = Some rl -> j <> i -> forall d,
    ((Acquire d (clock s) rl (server s)).1.1 = false) /\
    (Release d (clock s) rl (server s)).1.1 = false /\ holds (run_event s (ERelease j d)) i /\ holds (run_event s (EAcquire j d)) i).
Proof.
  intros Hn. assert (inv k ids s) as I.
  { subst s. assert (inv k ids (clients r c k ids)) as I.
    { split; simpl; [|by apply Forall_fmap, Forall_true|by rewrite length_replicate|].
      - rewrite <- list_fmap_compose. apply list_fmap_id.
      - intros i x t _ Hl. apply lookup_replicate in Hl as [? _]. done. }
    revert I. generalize (clients r c k ids). induction events as [|e events IH]; intros s0 I; [done|]. by apply IH, lock_inv_step. }
  assert (forall i, holds s i -> exists x t, ids !! i = Some x /\ rs_view (server s) k = Some (x, Some t) /\ live_at (clock s) (Some t) = true) as Hview.
  { intros i (t & Hl & Ht). assert (is_Some (ids !! i)) as [x Hx] by (apply lookup_lt_is_Some; rewrite <- (i_len _ _ _ I); by eapply lookup_lt_Some).
    destruct (i_lease _ _ _ I i x t Hx Hl Ht) as (t' & Hv & Ht'). exists x, t'. split_and!; [done..|]. apply Z.ltb_lt. lia. }
  split.
  - intros i j (x & t & Hx & Hv & _)%Hview (y & t' & Hy & Hv' & _)%Hview. rewrite Hv in Hv'. injection Hv' as -> _. by eapply NoDup_lookup.
  - intros i j rl Hi Hj Hne d. destruct (Hview i Hi) as (x & t & Hx & Hv & Hlive).
    destruct (Forall_lookup_1 _ _ _ _ (i_key _ _ _ I) Hj) as [Hk Hs].
    assert (x <> id rl) as Hne'.
    { intros ->. apply Hne. eapply NoDup_lookup; [done| |done]. by rewrite <- (i_locks _ _ _ I), list_lookup_fmap, Hj. }
    split_and!.
    + destruct (acquire_spec d (clock s) rl (server s) Hs) as [[_ Hown]|[H _]]; [|done]. rewrite Hk in Hown. by destruct Hne'; eapply Hown.
    + unfold Release, ScriptRun, delScript. rewrite Hk, rs_get_law, Hv. simpl alive. simpl in Hlive. rewrite Hlive. simpl.
      rewrite decide_False by congruence. by destruct d.
    + destruct Hi as (t0 & Hl & Ht). exists t0. simpl. rewrite Hj. simpl. by rewrite list_lookup_insert_ne.
    + destruct Hi as (t0 & Hl & Ht). exists t0. simpl. rewrite Hj. destruct (Acquire _ _ _ _) as [[??]?]. simpl. by rewrite list_lookup_insert_ne.
Qed.
End lock.

(** Two clients: the first holds the lock, its answer for [Release] is lost, and the second one gets it; then the
    first one cannot remove it. *)
Lemma redis_lock_exclusive_witness :
  let s := foldl run_event (clients (∅ : strings_db) 0 "job" ["a"%string; "b"%string])
             [EExpire 0 5; EAcquire 0 Answered; Tick 5499; EAcquire 1 Answered; ERelease 0 (AnswerLost "eof"%string); EAcquire 1 Answered] in
  holds s 1 /\ (Release Answered (clock s) (mkLock 5 "job" "a") (server s)).1.1 = false.
Proof.
  set (s := foldl _ _ _). assert (holds s 1) as H by (exists 5999; by vm_compute). split; [done|].
  assert (NoDup ["a"%string; "b"%string]) as Hn by (apply (bool_decide_unpack _); by vm_compute).
  exact (proj1 (proj2 (proj2 (redis_lock_exclusive (∅ : strings_db) 0 "job" ["a"%string; "b"%string] _ Hn) 1%nat 0%nat (mkLock 5 "job" "a") H eq_refl ltac:(done) Answered))).
Defined.

(** [SetExpire] of a negative number of seconds makes the lock last for more than a century: it is converted to a uint32. *)
Example negative_expire_lasts : expire_ms (SetExpire (-1) (NewRedisLock "job" "a")) = 4294967295500.
Proof. reflexivity. Qed.
