(* ===== verification/Shedder.v ===== *)
(** * [core/load/adaptiveshedder.go]: the adaptive shedder

    The shedder over the rolling windows of [RollingWindow.v], with [AtLeast] of [Breaker.v] and the same class of
    [float64].  Calls come one after the other: the interleaving of the atomic operations inside [Allow] is not
    modelled.  Clock and CPU readings are arguments; the log message of a dropped request is not modelled, but
    the call of [stillHot] in it is. *)

From Stdlib Require Import QArith Qround.
From S2P Require Import Prelude RollingWindow Breaker.
Local Open Scope Z_scope.
Local Open Scope go_scope.

(** What else the shedder does with floats: the sum, [math.Round], [int64(math.Ceil(x))], and two constants *)
Class FloatOps (F : Type) := {
  f_add : F -> F -> F;
  f_round : F -> F;
  f_ceil : F -> Z;
  f_0_9 : F;
  f_0_1 : F
}.

(** [mathx.Between] *)
Definition Between {F} `{!Float64 F} (x lower upper : F) : F :=
  if f_ltb x lower then lower else if f_ltb upper x then upper else x.

Definition defaultBuckets : Z := 50.
Definition defaultWindow : Z := second * 5.
Definition defaultCpuThreshold : Z := 900.
Definition coolOffDuration : Z := second.
Definition cpuMax : Z := 1000.
Definition millisecond : Z := 1000000.

Record shedderOptions := mkOptions { window : Z; o_buckets : Z; o_cpuThreshold : Z }.
Definition WithBuckets (n : Z) (o : shedderOptions) : shedderOptions := mkOptions (window o) n (o_cpuThreshold o).
Definition WithCpuThreshold (n : Z) (o : shedderOptions) : shedderOptions := mkOptions (window o) (o_buckets o) n.
Definition WithWindow (w : Z) (o : shedderOptions) : shedderOptions := mkOptions w (o_buckets o) (o_cpuThreshold o).

Section shedder.
Context {F : Type} `{!Float64 F, !FloatOps F}.

Definition defaultMinRt : F := f_of_Z (Z.quot second millisecond).
Definition flyingBeta : F := f_0_9.
Definition overloadFactorLowerBound : F := f_0_1.

Notation counter := (RollingWindow (B := Bucket)).

Record adaptiveShedder := mkShedder {
  cpuThreshold : Z;
  windowScale : F;
  flying : Z;
  avgFlying : F;
  overloadTime : Z;
  droppedRecently : bool;
  passCounter : counter;
  rtCounter : counter
}.

(** [NewAdaptiveShedder] while shedding is enabled; it is a shedder that allows everything otherwise. *)
Definition NewAdaptiveShedder (now1 now2 : Z) (opts : list (shedderOptions -> shedderOptions)) : outcome adaptiveShedder :=
  let o := foldl (fun o f => f o) (mkOptions defaultWindow defaultBuckets defaultCpuThreshold) opts in
  if o_buckets o =? 0 then Panic "integer divide by zero"
  else
    let bucketDuration := Z.quot (window o) (o_buckets o) in
    passes <~ NewRollingWindow (o_buckets o) bucketDuration now1 true ;;
    rts <~ NewRollingWindow (o_buckets o) bucketDuration now2 true ;;
    Ok (mkShedder (o_cpuThreshold o) (f_div (f_div (f_of_Z second) (f_of_Z bucketDuration)) (f_of_Z 1000))
          0 (f_of_Z 0) 0 false passes rts).

Definition set_flying n avg s := mkShedder (cpuThreshold s) (windowScale s) n avg (overloadTime s) (droppedRecently s) (passCounter s) (rtCounter s).
Definition set_overloadTime t s := mkShedder (cpuThreshold s) (windowScale s) (flying s) (avgFlying s) t (droppedRecently s) (passCounter s) (rtCounter s).
Definition set_dropped b s := mkShedder (cpuThreshold s) (windowScale s) (flying s) (avgFlying s) (overloadTime s) b (passCounter s) (rtCounter s).
Definition set_counters p r s := mkShedder (cpuThreshold s) (windowScale s) (flying s) (avgFlying s) (overloadTime s) (droppedRecently s) p r.

(** [1-flyingBeta] is the constant 0.1. *)
Definition addFlying (delta : Z) (s : adaptiveShedder) : adaptiveShedder :=
  let n := flying s + delta in
  if delta <? 0 then set_flying n (f_add (f_mul (avgFlying s) flyingBeta) (f_mul (f_of_Z n) f_0_1)) s
  else set_flying n (avgFlying s) s.

(** The readings of a call of [Allow], in the order of the code: the CPU in [systemOverloadChecker]; the clock in
    [systemOverloaded], in [stillHot], and in the two [Reduce]s of [highThru]; the CPU in [overloadFactor]; the
    clock in the [stillHot] of the message, and for the promise *)
Record readings := mkReadings {
  r_cpu : Z; r_over : Z; r_hot : Z; r_pass : Z; r_rt : Z; r_factor : Z; r_hot2 : Z; r_start : Z
}.

Definition maxPass (now : Z) (s : adaptiveShedder) : Z :=
  foldl (fun result b => if result <? Sum b then Sum b else result) 1 (Reduce now (passCounter s)).

Definition minRt (now : Z) (s : adaptiveShedder) : F :=
  foldl (fun result b =>
    if Count b <=? 0 then result
    else let avg := f_round (f_div (f_of_Z (Sum b)) (f_of_Z (Count b))) in if f_ltb avg result then avg else result)
    defaultMinRt (Reduce now (rtCounter s)).

Definition maxFlight (rd : readings) (s : adaptiveShedder) : F :=
  AtLeast (f_mul (f_mul (f_of_Z (maxPass (r_pass rd) s)) (minRt (r_rt rd) s)) (windowScale s)) (f_of_Z 1).

Definition overloadFactor (cpu : Z) (s : adaptiveShedder) : F :=
  Between (f_div (f_sub (f_of_Z cpuMax) (f_of_Z cpu)) (f_sub (f_of_Z cpuMax) (f_of_Z (cpuThreshold s))))
    overloadFactorLowerBound (f_of_Z 1).

(** The number of requests in flight above which [highThru] holds *)
Definition flight_limit (rd : readings) (s : adaptiveShedder) : F :=
  f_mul (maxFlight rd s) (overloadFactor (r_factor rd) s).

Definition highThru (rd : readings) (s : adaptiveShedder) : bool :=
  f_ltb (flight_limit rd s) (avgFlying s) && f_ltb (flight_limit rd s) (f_of_Z (flying s)).

Definition systemOverloaded (rd : readings) (s : adaptiveShedder) : bool * adaptiveShedder :=
  if r_cpu rd <? cpuThreshold s then (false, s) else (true, set_overloadTime (r_over rd) s).

Definition stillHot (now : Z) (s : adaptiveShedder) : bool * adaptiveShedder :=
  if negb (droppedRecently s) then (false, s)
  else if overloadTime s =? 0 then (false, s)
  else if now - overloadTime s <? coolOffDuration then (true, s)
  else (false, set_dropped false s).

Definition shouldDrop (rd : readings) (s : adaptiveShedder) : bool * adaptiveShedder :=
  let '(overloaded, s) := match systemOverloaded rd s with (true, s) => (true, s) | (false, s) => stillHot (r_hot rd) s end in
  if overloaded && highThru rd s then (true, (stillHot (r_hot2 rd) s).2) else (false, s).

(** [promise]: the start of its request *)
Definition promise : Type := Z.

(** [None]: [ErrServiceOverloaded] *)
Definition Allow (rd : readings) (s : adaptiveShedder) : option promise * adaptiveShedder :=
  match shouldDrop rd s with
  | (true, s) => (None, set_dropped true s)
  | (false, s) => (Some (r_start rd), addFlying 1 s)
  end.

Definition Fail (p : promise) (s : adaptiveShedder) : adaptiveShedder := addFlying (-1) s.

(** [Pass], with the readings of [timex.Since] and of the two additions *)
Definition Pass (p : promise) (now rt1 rt2 ps1 ps2 : Z) (s : adaptiveShedder) : adaptiveShedder :=
  let rt := f_div (f_of_Z (now - p)) (f_of_Z millisecond) in
  let s := addFlying (-1) s in
  set_counters (RollingWindow.Add 1 ps1 ps2 (passCounter s)) (RollingWindow.Add (f_ceil rt) rt1 rt2 (rtCounter s)) s.

(** ** Histories of calls *)

(** A request is allowed or not; one that was allowed ends once.  [open] has the promises not yet resolved, in
    order, [overloads] the times at which the CPU was seen at its threshold, and [passed] the additions to the
    counter of passes. *)
Variant event := EAllow (rd : readings) | EFail (i : nat) | EPass (i : nat) (now rt1 rt2 ps1 ps2 : Z).

Record history := mkHistory { shedder : adaptiveShedder; open : list promise; overloads : list Z; passed : list (addition (T := Z)) }.

Definition run_event (h : history) (e : event) : history :=
  match e with
  | EAllow rd =>
    let overloads := if r_cpu rd <? cpuThreshold (shedder h) then overloads h else overloads h ++ [r_over rd] in
    match Allow rd (shedder h) with
    | (Some p, s) => mkHistory s (open h ++ [p]) overloads (passed h)
    | (None, s) => mkHistory s (open h) overloads (passed h)
    end
  | EFail i => match open h !! i with Some p => mkHistory (Fail p (shedder h)) (delete i (open h)) (overloads h) (passed h) | None => h end
  | EPass i now rt1 rt2 ps1 ps2 =>
    match open h !! i with
    | Some p => mkHistory (Pass p now rt1 rt2 ps1 ps2 (shedder h)) (delete i (open h)) (overloads h) (passed h ++ [mkAddition 1 ps1 ps2])
    | None => h
    end
  end.

Definition run (s : adaptiveShedder) (events : list event) : history := foldl run_event (mkHistory s [] [] []) events.

(** ** What holds of the shedder *)

Class FloatShedLaws : Prop := {
  f_ltb_irrefl a : f_ltb a a = false;
  f_0_1_le_1 : f_ltb (f_of_Z 1) f_0_1 = false;
  f_mul_nonneg a b : f_ltb a (f_of_Z 1) = false -> f_ltb b f_0_1 = false -> f_ltb (f_mul a b) (f_of_Z 0) = false
}.
Context `{!FloatShedLaws}.

Lemma at_least_ge x l : f_ltb (AtLeast x l) l = false.
Proof. unfold AtLeast. destruct (f_ltb x l) eqn:E; [apply f_ltb_irrefl|done]. Qed.
Lemma between_ge x l u : f_ltb u l = false -> f_ltb (Between x l u) l = false.
Proof. intros Hu. unfold Between. destruct (f_ltb x l) eqn:E; [apply f_ltb_irrefl|]. by destruct (f_ltb u x). Qed.

(** The limit is not negative, whatever the counters and the CPU say. *)
Lemma flight_limit_nonneg rd s : f_ltb (flight_limit rd s) (f_of_Z 0) = false.
Proof.
  apply f_mul_nonneg.
  - apply at_least_ge.
  - apply between_ge, f_0_1_le_1.
Qed.

Record inv (s0 : adaptiveShedder) (h : history) : Prop := {
  i_flying : flying (shedder h) = Z.of_nat (length (open h));
  i_overload : overloadTime (shedder h) = 0 \/ overloadTime (shedder h) ∈ overloads h;
  i_passes : passCounter (shedder h) = foldl (fun rw a => RollingWindow.Add (a_val a) (a_t1 a) (a_t2 a) rw) (passCounter s0) (passed h);
  i_ones : Forall (fun a => a_val a = 1) (passed h)
}.

(** What [shouldDrop] leaves alone, and when it drops *)
Lemma should_drop_spec rd s :
  let s' := (shouldDrop rd s).2 in
  flying s' = flying s /\ passCounter s' = passCounter s /\ overloadTime s' = (if r_cpu rd <? cpuThreshold s then overloadTime s else r_over rd) /\
  ((shouldDrop rd s).1 = true ->
    (cpuThreshold s <= r_cpu rd \/ (overloadTime s <> 0 /\ r_hot rd - overloadTime s < coolOffDuration)) /\
    f_ltb (flight_limit rd s) (f_of_Z (flying s)) = true).
Proof.
  unfold shouldDrop, systemOverloaded, stillHot. destruct (r_cpu rd <? cpuThreshold s) eqn:Ec; bool_prop.
  - destruct (droppedRecently s) eqn:Ed; simpl; [|done]. destruct (overloadTime s =? 0) eqn:E0; simpl; [done|].
    destruct (r_hot rd - overloadTime s <? coolOffDuration) eqn:Eh; simpl; [|done]. bool_prop.
    destruct (highThru rd s) eqn:Et; [|done]. rewrite Ed. simpl. rewrite (proj2 (Z.eqb_neq _ _) E0).
    apply andb_true_iff in Et as [_ Et]. destruct (r_hot2 rd - overloadTime s <? coolOffDuration); simpl; eauto 10.
  - change (highThru rd (set_overloadTime (r_over rd) s)) with (highThru rd s). cbn [andb].
    destruct (highThru rd s) eqn:Et; [|done]. apply andb_true_iff in Et as [_ Et]. simpl.
    destruct (droppedRecently s), (r_over rd =? 0); simpl; try (split_and!; by eauto).
    destruct (r_hot2 rd - r_over rd <? coolOffDuration); simpl; split_and!; by eauto.
Qed.

Lemma shedder_inv_step s0 h e : inv s0 h -> inv s0 (run_event h e).
Proof.
  intros [H1 H2 H3 H4]. destruct e as [rd|i|i now rt1 rt2 ps1 ps2]; simpl.
  - unfold Allow. destruct (should_drop_spec rd (shedder h)) as (Hf & Hp & Ho & _).
    destruct (shouldDrop rd (shedder h)) as [[] s]; simpl in *; split; simpl; rewrite ?length_app; simpl; try congruence; try lia.
    all: rewrite Ho; case_match; set_solver.
  - destruct (open h !! i) as [p|] eqn:Hi; [|done]. apply lookup_lt_Some in Hi as Hlt.
    split; simpl; rewrite ?length_delete by eauto; [lia|done..].
  - destruct (open h !! i) as [p|] eqn:Hi; [|done]. apply lookup_lt_Some in Hi as Hlt.
    split; simpl; rewrite ?length_delete by eauto; [lia|done| |].
    + by rewrite foldl_app, <- H3.
    + by apply Forall_app_2; [|constructor].
Qed.

Lemma shedder_inv_run now1 now2 opts s0 events : NewAdaptiveShedder now1 now2 opts = Ok s0 -> inv s0 (run s0 events).
Proof.
  intros Hnew. assert (inv s0 (mkHistory s0 [] [] [])) as I.
  { revert Hnew. unfold NewAdaptiveShedder. case_match; [done|]. destruct (NewRollingWindow _ _ now1 true); [|done].
    simpl. destruct (NewRollingWindow _ _ now2 true); [|done]. intros [= <-]. by split; [|left| |]. }
  unfold run. revert I. generalize (mkHistory s0 [] [] []). induction events as [|e events IH]; intros h I; [done|].
  by apply IH, shedder_inv_step.
Qed.

(** C25: the shedder sheds load only.  After any calls it counts exactly the requests that were allowed and have
    not ended.  It refuses a request only if the CPU is at its threshold now or was seen there within the last second,
    and more requests are in flight than the limit; so an idle service never refuses. *)
Theorem shedder_sheds_load_only now1 now2 opts s0 events : NewAdaptiveShedder now1 now2 opts = Ok s0 ->
  let h := run s0 events in
  flying (shedder h) = Z.of_nat (length (open h)) /\
  forall rd, (Allow rd (shedder h)).1 = None ->
    (cpuThreshold (shedder h) <= r_cpu rd \/ exists t, t ∈ overloads h /\ r_hot rd - t < coolOffDuration) /\
    f_ltb (flight_limit rd (shedder h)) (f_of_Z (Z.of_nat (length (open h)))) = true /\ open h <> [].
Proof.
  intros Hnew h. destruct (shedder_inv_run _ _ _ _ events Hnew) as [H1 H2 _ _]. fold h in H1, H2. split; [done|].
  intros rd Ha. unfold Allow in Ha. destruct (should_drop_spec rd (shedder h)) as (_ & _ & _ & Hd).
  destruct (shouldDrop rd (shedder h)) as [[] s]; [|done]. destruct (Hd eq_refl) as [Hc Hl]. rewrite H1 in Hl. split_and!; [|done|].
  - destruct Hc as [Hc|[Hn Hc]]; [by left|right]. destruct H2 as [H2|H2]; [done|eauto].
  - intros Ho. rewrite Ho in Hl. simpl in Hl. by rewrite flight_limit_nonneg in Hl.
Qed.

Lemma foldl_maximum (l : list Bucket) a : foldl (fun result b => if result <? Sum b then Sum b else result) a l = foldr Z.max a (Sum <$> l).
Proof.
  enough (forall m, foldr Z.max (Z.max a m) (Sum <$> l) = Z.max m (foldr Z.max a (Sum <$> l)) /\
    foldl (fun result b => if result <? Sum b then Sum b else result) a l = foldr Z.max a (Sum <$> l)) as Hm by apply (Hm 0).
  revert a. induction l as [|b l IH]; intros a m; csimpl; [split; [lia|done]|]. split.
  - destruct (IH a m) as [-> _]. lia.
  - destruct (IH (if a <? Sum b then Sum b else a) m) as [_ ->]. destruct (IH a (Sum b)) as [<- _].
    f_equal. destruct (Z.ltb_spec a (Sum b)); lia.
Qed.

Lemma bucket_of_ones (vs : list Z) : Forall (fun v => v = 1) vs -> Sum (bucket_of vs) = Z.of_nat (length vs).
Proof.
  intros Hv. induction vs as [|v vs IH] using rev_ind; [done|]. apply Forall_app in Hv as [Hv [-> _]%Forall_cons].
  rewrite bucket_of_snoc, length_app. simpl. rewrite IH by done. lia.
Qed.

(** [maxPass] is the largest number of requests that passed in one interval of the window, and at least one:
    of the intervals before the current one, as the current bucket is ignored. *)
Theorem max_pass_recent now1 now2 opts s0 events now (o := foldl (fun o f => f o) (mkOptions defaultWindow defaultBuckets defaultCpuThreshold) opts)
    (iv := Z.quot (window o) (o_buckets o)) (h := run s0 events) :
  NewAdaptiveShedder now1 now2 opts = Ok s0 -> 0 < iv -> timely now1 iv (passed h) -> cur_of now1 iv (passed h) <= idx now1 iv now ->
  maxPass now (shedder h) =
  foldr Z.max 1 ((fun n => Z.of_nat (length (vals_in now1 iv n (passed h)))) <$>
    seqZ (idx now1 iv now - o_buckets o + 1) (Z.min (cur_of now1 iv (passed h)) (idx now1 iv now - 1) - (idx now1 iv now - o_buckets o))).
Proof.
  intros Hnew Hiv Ht Hc. destruct (shedder_inv_run _ _ _ _ events Hnew) as [_ _ H3 H4]. fold h in H3, H4.
  unfold maxPass. rewrite foldl_maximum, H3. unfold NewAdaptiveShedder in Hnew. fold o in Hnew. fold iv in Hnew.
  destruct (o_buckets o =? 0); [done|]. destruct (NewRollingWindow (o_buckets o) iv now1 true) as [rw|] eqn:Erw; [|done].
  simpl in Hnew. destruct (NewRollingWindow _ _ now2 true); [|done]. injection Hnew as <-. simpl passCounter.
  rewrite (reduce_groups _ _ _ now _ _ _ Erw Hiv Ht Hc).
  replace (if bool_decide (idx now1 iv now = cur_of now1 iv (passed h)) && true then cur_of now1 iv (passed h) - 1 else cur_of now1 iv (passed h))
    with (Z.min (cur_of now1 iv (passed h)) (idx now1 iv now - 1)) by (case_bool_decide; simpl; lia).
  replace (Z.min (cur_of now1 iv (passed h)) (idx now1 iv now - 1) - (idx now1 iv now - o_buckets o + 1) + 1)
    with (Z.min (cur_of now1 iv (passed h)) (idx now1 iv now - 1) - (idx now1 iv now - o_buckets o)) by lia.
  rewrite <- list_fmap_compose. f_equal. apply list_fmap_ext. intros i n _. simpl. apply bucket_of_ones.
  unfold vals_in. apply Forall_forall. intros v Hv. apply list_elem_of_omap in Hv as (x & Hx & Hv).
  rewrite Forall_forall in H4. specialize (H4 x Hx). case_decide; simplify_eq. done.
Qed.
End shedder.

(** ** Witnesses, with exact rationals as the floating-point numbers *)

#[export] Instance Q_ops : FloatOps Q := {|
  f_add := Qplus;
  f_round x := inject_Z (if Qle_bool 0 x then Qfloor (x + (1 # 2)) else Qceiling (x - (1 # 2)));
  f_ceil := Qceiling;
  f_0_9 := 9 # 10;
  f_0_1 := 1 # 10
|}.

#[export] Instance Q_shed_laws : FloatShedLaws.
Proof.
  split; simpl.
  - intros a. apply negb_false_iff, Qle_bool_iff, Qle_refl.
  - done.
  - intros a b Ha Hb. apply negb_false_iff, Qle_bool_iff. apply negb_false_iff, Qle_bool_iff in Ha, Hb.
    apply Qmult_le_0_compat; [by apply Qle_trans with (inject_Z 1)|by apply Qle_trans with (1 # 10)].
Qed.

(** Two requests in flight and one that failed, a full CPU: the next one is refused. *)
Definition busy_events : list event :=
  let rd t := mkReadings 1000 t t t t 1000 t t in
  [EAllow (rd 1); EAllow (rd 2); EAllow (rd 3); EFail 0].

Lemma shedder_sheds_load_only_witness : exists s0 : adaptiveShedder (F := Q), NewAdaptiveShedder 0 0 [WithBuckets 5] = Ok s0 /\
  let h := run s0 busy_events in let rd := mkReadings 1000 4 4 4 4 1000 4 4 in
  (Allow rd (shedder h)).1 = None /\ f_ltb (flight_limit rd (shedder h)) (inject_Z (Z.of_nat (length (open h)))) = true.
Proof.
  eexists. split; [reflexivity|]. intros h rd. assert ((Allow rd (shedder h)).1 = None) as Hd by (by vm_compute). split; [done|].
  exact (proj1 (proj2 (proj2 (shedder_sheds_load_only 0 0 [WithBuckets 5] _ busy_events eq_refl) rd Hd))).
Defined.
