(* ===== verification/P2c.v ===== *)
(** * [zrpc/internal/balancer/p2c]: the balancer that picks the better of two

    The connections of a picker are the list [conns]; a step is one call of [Pick], which holds the lock, or one call of
    the function it returns, [Done]: the races of several calls of [Done] between their atomic operations are not
    modelled.  Random numbers and clock readings are arguments, [float64] is the class of [Breaker.v] and a few
    functions more.  The output of [logStats] is not modelled, but that it resets the counters of requests. *)

From Stdlib Require Import QArith.
From S2P Require Import Prelude Breaker.
Local Open Scope Z_scope.
Local Open Scope go_scope.

(** The sum; [math.Exp]; [uint64(x)]; and [int64(math.Sqrt(float64(n)))] *)
Class FloatExp (F : Type) := {
  f_plus : F -> F -> F;
  f_exp : F -> F;
  f_uint64 : F -> Z;
  f_isqrt : Z -> Z
}.

Definition decayTime : Z := second * 10.
Definition forcePick : Z := second.
Definition initSuccess : Z := 1000.
Definition throttleSuccess : Z := Z.quot initSuccess 2.
Definition penalty : Z := 2 ^ 31 - 1.
Definition pickTimes : nat := 3.
Definition logInterval : Z := second * 60.

Section p2c.
Context {F : Type} `{!Float64 F, !FloatExp F}.

Record subConn := mkConn { lag : Z; inflight : Z; success : Z; requests : Z; last_ : Z; pick : Z; addr : string }.

Definition healthy (c : subConn) : bool := throttleSuccess <? success c.

Definition load (c : subConn) : Z :=
  let load := f_isqrt (lag c + 1) * (inflight c + 1) in
  if load =? 0 then penalty else load.

Record p2cPicker := mkPicker { conns : list subConn; stamp : Z }.

(** [Build] for the addresses in the order of the map of connections; [None] is the picker that answers
    [ErrNoSubConnAvailable]. *)
Definition Build (addrs : list string) : option p2cPicker :=
  match addrs with [] => None | _ => Some (mkPicker (mkConn 0 0 initSuccess 0 0 0 <$> addrs) 0) end.

Definition set_pick (t : Z) (c : subConn) : subConn := mkConn (lag c) (inflight c) (success c) (requests c) (last_ c) t (addr c).
Definition picked (c : subConn) : subConn :=
  mkConn (lag c) (inflight c + 1) (success c) (requests c + 1) (last_ c) (pick c) (addr c).

(** [choose], for positions in [conns]; a position out of range is nil. *)
Definition choose (start : Z) (i : nat) (j : option nat) (l : list subConn) : outcome (nat * list subConn) :=
  match j with
  | None => Ok (i, alter (set_pick start) i l)
  | Some j =>
    match l !! i, l !! j with
    | Some a, Some b =>
      let '(c1, c2) := if load b <? load a then (j, i) else (i, j) in
      let p := if load b <? load a then pick a else pick b in
      if forcePick <? start - p then Ok (c2, alter (set_pick start) c2 l) else Ok (c1, alter (set_pick start) c1 l)
    | _, _ => Panic "nil pointer dereference"
    end
  end.

(** The pair of a round: two draws, [b] being moved past [a] *)
Definition draw_pair (a b : nat) : nat * nat := (a, if (a <=? b)%nat then S b else b).

(** The loop of [Pick] over the rounds left; [Intn k n] is the [k]-th number drawn, below [n]. *)
Fixpoint pick_loop (Intn : nat -> nat -> nat) (l : list subConn) (k rounds : nat) (node : nat * nat) : outcome (nat * nat) :=
  match rounds with
  | O => Ok node
  | S rounds =>
    let '(a, b) := draw_pair (Intn k (length l)) (Intn (S k) (length l - 1)%nat) in
    match l !! a, l !! b with
    | Some x, Some y => if healthy x && healthy y then Ok (a, b) else pick_loop Intn l (S (S k)) rounds (a, b)
    | _, _ => Panic "index out of range"
    end
  end.

Definition choose_two (Intn : nat -> nat -> nat) (start : Z) (l : list subConn) : outcome (nat * list subConn) :=
  ij <~ pick_loop Intn l 0 pickTimes (length l, length l) ;; choose start (fst ij) (Some (snd ij)) l.

(** [None]: [ErrNoSubConnAvailable] *)
Definition Pick (Intn : nat -> nat -> nat) (start : Z) (p : p2cPicker) : outcome (option nat * p2cPicker) :=
  match conns p with
  | [] => Ok (None, p)
  | l =>
    r <~ match l with
         | [_] => choose start 0 None l
         | [_; _] => choose start 0 (Some 1%nat) l
         | _ => choose_two Intn start l
         end ;;
    let '(chosen, l) := (r : nat * list subConn) in Ok (Some chosen, mkPicker (alter picked chosen l) (stamp p))
  end.

(** The average of an old value and a new one, with the weight [w] of the old one *)
Definition ewma (w : F) (old new : Z) : Z :=
  f_uint64 (f_plus (f_mul (f_of_Z old) w) (f_mul (f_of_Z new) (f_sub (f_of_Z 1) w))).

(** What [Done] does to its connection, the request having begun at [start]; [ok] is that there is no error or an
    acceptable one. *)
Definition finish (start now : Z) (ok : bool) (c : subConn) : subConn :=
  let td := Z.max 0 (now - last_ c) in
  let w := if lag c =? 0 then f_of_Z 0 else f_exp (f_div (f_of_Z (- td)) (f_of_Z decayTime)) in
  mkConn (ewma w (lag c) (Z.max 0 (now - start))) (inflight c - 1)
    (ewma w (success c) (if ok then initSuccess else 0)) (requests c) now (pick c) (addr c).

Definition reset_requests (c : subConn) : subConn := mkConn (lag c) (inflight c) (success c) 0 (last_ c) (pick c) (addr c).

(** The function of [buildDoneFunc] *)
Definition Done (start now : Z) (ok : bool) (i : nat) (p : p2cPicker) : p2cPicker :=
  let l := alter (finish start now ok) i (conns p) in
  if logInterval <=? now - stamp p then mkPicker (reset_requests <$> l) now else mkPicker l (stamp p).

(** ** Histories of calls *)

(** The requests that are not done: their connections and when they began *)
Record history := mkHistory { picker : p2cPicker; open : list (nat * Z) }.

Variant event := EPick (Intn : nat -> nat -> nat) (now begin : Z) | EDone (k : nat) (now : Z) (ok : bool).

Definition run_event (h : history) (e : event) : outcome history :=
  match e with
  | EPick Intn now begin =>
    r <~ Pick Intn now (picker h) ;;
    Ok (mkHistory (snd r) (open h ++ match fst r with Some i => [(i, begin)] | None => [] end))
  | EDone k now ok =>
    Ok (match open h !! k with
        | Some (i, start) => mkHistory (Done start now ok i (picker h)) (delete k (open h))
        | None => h
        end)
  end.

Fixpoint run (h : history) (l : list event) : outcome history :=
  match l with [] => Ok h | e :: l => h <~ run_event h e ;; run h l end.

(** ** What holds of the picker *)

(** Random numbers are below their bounds. *)
Definition draws (Intn : nat -> nat -> nat) : Prop := forall k n, (0 < n)%nat -> (Intn k n < n)%nat.
Definition event_ok (e : event) : Prop := match e with EPick Intn _ _ => draws Intn | EDone _ _ _ => True end.

Lemma draw_pair_spec n a b : (a < n)%nat -> (b < n - 1)%nat ->
  let '(x, y) := draw_pair a b in (x < n)%nat /\ (y < n)%nat /\ x <> y.
Proof. intros Ha Hb. unfold draw_pair. destruct (Nat.leb_spec a b); lia. Qed.

Lemma pick_loop_spec Intn l : draws Intn -> (2 <= length l)%nat -> forall rounds k node, (0 < rounds)%nat ->
  exists i j, pick_loop Intn l k rounds node = Ok (i, j) /\ (i < length l)%nat /\ (j < length l)%nat /\ i <> j.
Proof.
  intros Hd Hl rounds. induction rounds as [|rounds IH]; intros k node Hr; [lia|]. cbn [pick_loop].
  pose proof (draw_pair_spec (length l) (Intn k (length l)) (Intn (S k) (length l - 1)%nat)) as H.
  destruct (draw_pair _ _) as [x y]. destruct H as (Hx & Hy & Hne); [apply Hd; lia..|].
  destruct (lookup_lt_is_Some_2 l x Hx) as [cx ->]. destruct (lookup_lt_is_Some_2 l y Hy) as [cy ->].
  destruct (healthy cx && healthy cy); [eauto 10|]. destruct rounds as [|rounds]; [cbn [pick_loop]; eauto 10|]. apply IH. lia.
Qed.

(** Between two connections: the one with less load, unless the other one was not picked for [forcePick]. *)
Lemma choose_spec start i j l a b : l !! i = Some a -> l !! j = Some b -> i <> j ->
  exists x y cx cy, ((x, y) = (i, j) \/ (x, y) = (j, i)) /\ l !! x = Some cx /\ l !! y = Some cy /\
    choose start i (Some j) l = Ok (x, alter (set_pick start) x l) /\
    ((load cx <= load cy /\ start - pick cy <= forcePick) \/ (load cy <= load cx /\ forcePick < start - pick cx)).
Proof.
  intros Ha Hb Hne. unfold choose. rewrite Ha, Hb. destruct (load b <? load a) eqn:El; simpl.
  - destruct (forcePick <? start - pick a) eqn:Ef; bool_prop.
    + exists i, j, a, b. split_and!; [by left|done..|right; lia].
    + exists j, i, b, a. split_and!; [by right|done..|left; lia].
  - destruct (forcePick <? start - pick b) eqn:Ef; bool_prop.
    + exists j, i, b, a. split_and!; [by right|done..|right; lia].
    + exists i, j, a, b. split_and!; [by left|done..|left; lia].
Qed.

(** The requests in flight on connection [i] *)
Definition on (i : nat) (p : nat * Z) : nat := if decide (p.1 = i) then 1 else 0.
Definition flights (h : history) (i : nat) : nat := sum_list_with (on i) (open h).

Record inv (n : nat) (h : history) : Prop := {
  i_len : length (conns (picker h)) = n;
  i_open : Forall (fun p => (p.1 < n)%nat) (open h);
  i_inflight : forall i c, conns (picker h) !! i = Some c -> inflight c = Z.of_nat (flights h i)
}.

(** What [Pick] promises of the connection [x] it picks among [l]: it is there; the other one that was looked at has no
    less load and was picked within [forcePick], or [x] was not. *)
Definition good_pick (start : Z) (l : list subConn) (x : nat) : Prop :=
  exists cx, l !! x = Some cx /\
  (length l = 1%nat \/ exists y cy, y <> x /\ l !! y = Some cy /\
    ((load cx <= load cy /\ start - pick cy <= forcePick) \/ (load cy <= load cx /\ forcePick < start - pick cx))).

Lemma pick_spec Intn start p : draws Intn -> conns p <> [] ->
  exists x, Pick Intn start p = Ok (Some x, mkPicker (alter picked x (alter (set_pick start) x (conns p))) (stamp p)) /\
    good_pick start (conns p) x.
Proof.
  intros Hd Hp.
  assert (forall i j, (i < length (conns p))%nat -> (j < length (conns p))%nat -> i <> j -> exists x,
    choose start i (Some j) (conns p) = Ok (x, alter (set_pick start) x (conns p)) /\ good_pick start (conns p) x) as Hc.
  { intros i j [a Ha]%lookup_lt_is_Some_2 [b Hb]%lookup_lt_is_Some_2 Hne.
    destruct (choose_spec start i j (conns p) a b Ha Hb Hne) as (x & y & cx & cy & Hxy & Hx & Hy & -> & Hl).
    exists x. split; [done|]. exists cx. split; [done|]. right. exists y, cy. split_and!; [|done..]. naive_solver. }
  unfold Pick. destruct (conns p) as [|c1 [|c2 [|c3 l]]] eqn:El; [done|..].
  - exists 0%nat. split; [done|]. exists c1. split; [done|]. by left.
  - destruct (Hc 0%nat 1%nat) as (x & -> & Hx); [simpl; lia..|]. by exists x.
  - unfold choose_two. destruct (pick_loop_spec Intn (c1 :: c2 :: c3 :: l) Hd) with (rounds := pickTimes) (k := 0%nat)
      (node := (length (c1 :: c2 :: c3 :: l), length (c1 :: c2 :: c3 :: l))) as (i & j & -> & Hi & Hj & Hne);
      [simpl; lia|unfold pickTimes; lia|].
    destruct (Hc i j Hi Hj Hne) as (x & Hx & Hg). exists x. split; [|done]. cbn [obind fst snd]. by rewrite Hx.
Qed.

Lemma flights_delete h k i start : open h !! k = Some (i, start) -> forall j,
  (flights h j = sum_list_with (on j) (delete k (open h)) + if decide (i = j) then 1 else 0)%nat.
Proof.
  intros Hk j. unfold flights. rewrite <- (take_drop_middle _ _ _ Hk) at 1. rewrite delete_take_drop, !sum_list_with_app. simpl.
  unfold on at 2. simpl. lia.
Qed.

Lemma p2c_inv_step n h e : inv n h -> event_ok e -> exists h', run_event h e = Ok h' /\ inv n h'.
Proof.
  intros [H1 H2 H3] He. destruct e as [Intn now begin|k now ok]; cbn [run_event].
  - destruct (decide (conns (picker h) = [])) as [Hn|Hn].
    { unfold Pick. rewrite Hn. eexists. split; [reflexivity|]. simpl. rewrite app_nil_r. by destruct h as [[??]?]; split. }
    destruct (pick_spec Intn now (picker h) He Hn) as (x & -> & cx & Hx & _). eexists. split; [reflexivity|].
    split; simpl.
    + by rewrite !length_alter.
    + apply Forall_app. split; [done|]. constructor; [|done]. simpl. rewrite <- H1. by eapply lookup_lt_Some.
    + intros i c. unfold flights. simpl. rewrite sum_list_with_app. simpl. unfold on at 2. simpl. case_decide as Hi.
      * subst i. rewrite !list_lookup_alter_eq, Hx. simpl. intros [= <-]. simpl. rewrite (H3 _ _ Hx). unfold flights. lia.
      * rewrite !list_lookup_alter_ne by done. intros Hc. rewrite (H3 _ _ Hc). unfold flights. lia.
  - destruct (open h !! k) as [[i start]|] eqn:Hk; [|eexists; split; [reflexivity|by split]].
    eexists. split; [reflexivity|]. set (h' := mkHistory _ _).
    assert (length (conns (picker h')) = n /\ (forall j c, conns (picker h') !! j = Some c ->
      exists c0, conns (picker h) !! j = Some c0 /\ inflight c = inflight c0 - if decide (i = j) then 1 else 0)) as [Hl Hc].
    { assert (forall j c, alter (finish start now ok) i (conns (picker h)) !! j = Some c ->
        exists c0, conns (picker h) !! j = Some c0 /\ inflight c = inflight c0 - if decide (i = j) then 1 else 0) as Ha.
      { intros j c. case_decide as Hj.
        - subst j. rewrite list_lookup_alter_eq. intros (c0 & Hc0 & ->)%fmap_Some_1. by exists c0.
        - rewrite list_lookup_alter_ne by done. intros Hc. exists c. split; [done|lia]. }
      subst h'. simpl. unfold Done. destruct (logInterval <=? _); simpl; rewrite ?length_fmap, length_alter; (split; [done|]); [|exact Ha].
      intros j c Hj. rewrite list_lookup_fmap in Hj.
      apply fmap_Some_1 in Hj as (c1 & Hc1 & ->). by destruct (Ha _ _ Hc1) as (c0 & ? & ?); exists c0. }
    split; [done| |].
    + simpl. by apply Forall_delete.
    + intros j c (c0 & Hc0 & ->)%Hc. rewrite (H3 _ _ Hc0), (flights_delete _ _ _ _ Hk j). unfold flights. simpl. case_decide; lia.
Qed.

(** C26: the balancer picks the better of two.  From [Build] on, after any calls of [Pick] and [Done] and for any
    random numbers, no call panics, and every connection counts exactly its requests in flight.  [Pick]
    then picks one of the connections: of the two different ones it looked at, the one with less load, except
    that one that was not picked for [forcePick] goes first; so of two connections none starves. *)
Theorem p2c_picks_better_of_two addrs p events : Build addrs = Some p -> Forall event_ok events ->
  exists h, run (mkHistory p []) events = Ok h /\
  (forall i c, conns (picker h) !! i = Some c -> inflight c = Z.of_nat (flights h i)) /\
  forall Intn start, draws Intn -> exists x,
    Pick Intn start (picker h) = Ok (Some x, mkPicker (alter picked x (alter (set_pick start) x (conns (picker h)))) (stamp (picker h))) /\
    good_pick start (conns (picker h)) x.
Proof.
  intros Hb He.
  assert (inv (length addrs) (mkHistory p []) /\ addrs <> []) as [I Hne].
  { assert (addrs <> [] /\ p = mkPicker (mkConn 0 0 initSuccess 0 0 0 <$> addrs) 0) as [Hne ->]
      by (destruct addrs; [done|split; [done|unfold Build in Hb; congruence]]).
    split; [|done]. split; cbn [conns picker]; [by rewrite length_fmap|done|].
    intros i c. rewrite list_lookup_fmap. intros (x & _ & ->)%fmap_Some_1. done. }
  assert (exists h, run (mkHistory p []) events = Ok h /\ inv (length addrs) h) as (h & Hr & Ih).
  { revert I. generalize (mkHistory p []). clear Hb. induction He as [|e events He _ IH]; intros h0 I; [by exists h0|].
    destruct (p2c_inv_step _ _ e I He) as (h1 & Hs & I1). simpl. rewrite Hs. by apply IH. }
  exists h. split; [done|]. split; [apply (i_inflight _ _ Ih)|]. intros Intn start Hd.
  apply pick_spec; [done|]. intros Hn. apply Hne, length_zero_iff_nil. rewrite <- (i_len _ _ Ih), Hn. done.
Qed.
End p2c.

(** ** Witness, with exact rationals as the floating-point numbers *)

#[export] Instance Q_exp : FloatExp Q := {|
  f_plus := Qplus; f_exp _ := 1 # 2; f_uint64 q := Z.quot (Qnum q) (Zpos (Qden q)); f_isqrt := Z.sqrt
|}.

Definition zero_draws (k n : nat) : nat := 0.
Lemma p2c_picks_better_of_two_witness : exists h : history,
  run (F := Q) (mkHistory (mkPicker (mkConn 0 0 initSuccess 0 0 0 <$> ["a"; "b"]%string) 0) [])
    [EPick zero_draws 1 1; EPick zero_draws 2 2; EDone 0 5 true] = Ok h /\
  forall i c, conns (picker h) !! i = Some c -> inflight c = Z.of_nat (flights h i).
Proof.
  destruct (p2c_picks_better_of_two (F := Q) ["a"; "b"]%string _
    [EPick zero_draws 1 1; EPick zero_draws 2 2; EDone 0 5 true] eq_refl) as (h & Hr & Hf & _).
  - repeat constructor; intros k n Hn; unfold zero_draws; lia.
  - by exists h.
Defined.
